(* ===== verification/_CoqProject ===== *)
-Q . S2P
Prelude.v
Text.v
Frame.v
Drain.v
Runtime.v
Service.v
ServiceInv.v
ServiceFates.v
ServiceAnswers.v
ServiceProps.v
System.v
Session.v
Dispatch.v
Codec.v
Method.v
Clone.v
Immutable.v
IdGen.v
Heap.v
Timer.v
DelayQueue.v
TimingWheel.v
Engine.v
RedisQueue.v
Wire.v
Remote.v
Config.v
Auth.v
Inbound.v
InboundProps.v
InboundServe.v
InboundLink.v
Peer.v
PeerWire.v
Client.v
ClientProps.v
Rpc.v
Registry.v
Slots.v
NodeLife.v
TcpSync.v
TcpPool.v
Gate.v
Retrier.v
AppRuntime.v
WaitGraph.v
CallGraph.v
Activation.v
Skylog.v
Hooks.v
