(* ===== verification/Prelude.v ===== *)
(** * skygo: a verification library for the Go service runtime

    skygo is an actor runtime with a cluster transport, timers, connection pools and a
    client gate.  This library models it in Rocq, one file per component, and proves what
    makes the components and their composition correct.

    ** The program and its parts

    - Package actor: a System registers services; each service has a mailbox, an event
      loop that runs one handler at a time, and handlers that may give the service away
      while they wait.  Calls are typed methods whose arguments are copied by codecs, and
      a Ref may name a service on another node.
    - Package cluster: a Node keeps connections to other nodes, sends calls and
      notifications on them, and dispatches what it receives into its System.
    - Package timer: a delay queue, a timing wheel, and an engine over a persistent queue
      in Redis.
    - Packages frame, gate, tcpsync, tcppool, app, skylog, observe: framing, the server
      for clients, two connection pools, ordered start and stop, logging, observers.

    ** How code is modelled

    Goroutines that share a lock or a channel are a state record and a function
    [step : state -> label -> option state] whose labels are the critical sections and
    channel operations of the code; [None] is a step that is not possible.  Theorems
    quantify over all sequences of labels ([runs]), hence over all interleavings.  What
    comes from outside (a clock, a network answer, the result of user code, the choice of
    a select) is part of the label.  Pointers are identities (indices).  Integers are [Z]
    with the wrap-around of their width written out ([u64], [wraps]).  Errors are values
    of [result] or of an error type per component.  Ghost fields (logs) record history for
    the statements; no code reads them.

    ** Files

    Shared: [Prelude] (results, machine integers, runs, lists, the hint database [go]) and
    [Text] (strings.TrimSpace, the order of strings, the law of sort.Slice).

    Actor runtime, src/actor:
    - [Runtime] is serviceRuntime.run, [Service] the goroutines around it, [ServiceInv]
      its invariant, [ServiceFates] and [ServiceAnswers] what becomes of messages and
      what their callers are told, [ServiceProps] the guarantees (system_runtime.go).  A
      handler is one goroutine; one that recovers a panic of its own wait goes on while
      the loop has it suspended (phase [PRecovered]);
    - [System] the registry of services and Refs, [Session] call sessions, [Dispatch] the
      checks and call paths between an API call and the mailbox (system.go,
      system_runtime.go, remote.go);
    - [Codec] codecs and the data path of a call, [Method] typed descriptors, [Clone] and
      [Immutable] where clone functions come from, [Remote] typed calls between processes
      over Node.Call and the descriptors of protowire (codec.go, method.go,
      clone_provider.go, remote.go, protowire, protoclone, cluster/node.go).  A nil value
      of an interface type has no dynamic type in [any]; handlers may be registered
      without a descriptor (Handle);
    - [Activation] NoYield and Await, [Hooks] callbacks and counters, [Drain] maintenance
      (drain.go), [Retrier] dispatch_retrier.go.

    Cluster, src/cluster:
    - [Wire] messages, errors and framing (wire.proto, errors.go, io.go), [Config],
      [Auth] the handshake, [Registry] snapshots of the nodes;
    - [Inbound], [InboundProps], [InboundServe], [InboundLink]: the receiving side
      (inbound.go, dispatcher.go, drain.go);
    - [Peer], [PeerWire]: one outgoing connection (peer.go); [Client], [ClientProps]: the
      calls, notifications and flushes on it (node.go, drain.go, context.go); [Slots]:
      dialing, Reload and Stop of outgoing connections (node.go, managers.go); [NodeLife]:
      Start, Reload, Stop and the inbound connections;
    - [Rpc]: a sending and a receiving node joined by a connection.

    Timers, src/timer: [IdGen], [Heap], [Timer] (the interface, a class with its laws),
    [DelayQueue] and [TimingWheel] (its implementations), [Engine] (proved against the
    interface), [RedisQueue].

    The rest: [Frame], [Gate] (with internal/netutil), [TcpSync], [TcpPool], [AppRuntime],
    [Skylog], [WaitGraph] and [CallGraph] (observe).

    ** What the theorems show

    - Composition: a remote call returns the answer to its own request, computed once by
      the addressed system ([Rpc.rpc_correct]); a flush proves admission of all that was
      sent before it ([Rpc.flush_proves_admission]), both as long as the caller has read
      nothing behind a frame that was written in part ([Rpc.intact]); typed calls are
      type-safe within a process and between processes ([Method.typed_call_safe],
      [Remote.remote_typed_call]: the handler's outcome, its errors as RemoteErrors, or an
      error of the transport).
    - Services: one handler holds a service at a time, mailbox order, every message has
      one fate and what is turned away is answered, a stop drains ([ServiceProps]); a
      drain for maintenance ends when the admitted work has, and reports it exactly
      ([Drain]); a Ref never reaches another service ([System]); each session
      has one outcome ([Session]); chains of calls cannot wait for themselves ([Dispatch]).
    - Data: calls hand over clones, and remote and local calls agree ([Codec]); types that
      are shared without a copy hold no references ([Immutable]); critical sections of a
      handler nest ([Activation]).
    - Timers: the delay queue follows a map of deadlines, deduplication windows included;
      the wheel counts down a map of ticks, the documented one unless a scheduled
      identifier is given a deadline in the past or beyond the hour; the engine fires a
      hot timer at its due time, if its identifiers are fresh, no deduplication window is
      set and nobody else touches it; claims are exclusive, identifiers increase.
    - Cluster: no replay of handshakes, bounded and answered inbound calls, accounted
      outgoing items with a report for every notification given up, owned connections on both sides, registries that agree.
    - The rest: bounded pools, ordered frames, start and stop orders, acyclic wait graphs,
      exact call counts, errors that survive the wire.

    Examples that show a defect of the code are named in the file that models it.

    ** Bounds and fuel

    Recursions that are not structural take fuel that is computed from their input and
    proved sufficient: the length of the string ([Text.trim]), the number of types
    ([Immutable.immutable]), the size of the heap ([Heap], [DelayQueue]), the size of the
    set of finished admissions ([Inbound.advanceDone]), the number of components
    ([AppRuntime.enough]), the number of edges ([WaitGraph]).

    ** Parameters

    Code outside of src is a parameter with its documented behaviour as a class or
    hypothesis, with an instance as evidence: protobuf ([Codec.ProtoMessage]), HMAC and
    SHA-256 ([Auth], [Registry], [Remote]), sort.Slice ([Text.SortSlice]), Redis and cjson
    ([RedisQueue]), log/slog ([Skylog]).

    ** Not modelled

    The generated wire.pb.go (messages are modelled from wire.proto); snapshots of state
    for monitoring (cluster/stats.go); the goroutines that
    only wait for a ticker and call a modelled operation (the run loops of timers, whose
    ticks are labels); keepalive options and other settings of sockets; the text of errors
    and log lines where no code reads it; memory addresses of Go values (copies are
    compared by value); the examples and the stress test, which only use the packages.

    Simplifications: the chains of [Dispatch] are of handlers that call with the context
    they were given; the noYield counter of [Activation] and the doubled delay of
    [TcpPool] are not wrapped at their width; callbacks of [TcpPool] that panic are left
    out; JSON lines of [CallGraph] are read back as they were written; Add and
    RemoveByTimerID of [RedisQueue] are one step although they are several commands; a
    frame of [Inbound] that was read before its connection closed is not processed after. *)

From stdpp Require Export base tactics numbers list gmap sets fin_maps strings.
From Stdlib Require Export ZArith Lia.

Declare Scope go_scope.
Delimit Scope go_scope with go.
#[global] Open Scope Z_scope.

(** ** Results: Go's [(value, error)] pairs *)

(** A Go function that returns a value and an error is modelled as returning
    [Ok v] when the error is nil and [Err e] otherwise. *)
Inductive result (E A : Type) : Type :=
  | Ok (a : A)
  | Err (e : E).
Arguments Ok {E A} a.
Arguments Err {E A} e.

#[global] Instance result_ret {E} : MRet (result E) := λ A a, Ok a.
#[global] Instance result_bind {E} : MBind (result E) := λ A B f r,
  match r with Ok a => f a | Err e => Err e end.

Definition is_ok {E A} (r : result E A) : bool :=
  match r with Ok _ => true | Err _ => false end.

#[global] Instance result_eq_dec {E A} `{EqDecision E, EqDecision A} :
  EqDecision (result E A).
Proof. solve_decision. Defined.

(** ** Machine integers *)

(** Unsigned and signed wrap-around of Go's fixed-width integers. *)
Definition wrapu (w z : Z) : Z := z mod 2 ^ w.
Definition u16 : Z → Z := wrapu 16.
Definition u32 : Z → Z := wrapu 32.
Definition u64 : Z → Z := wrapu 64.

Definition wraps (w z : Z) : Z :=
  let m := z mod 2 ^ w in if decide (m < 2 ^ (w - 1)) then m else m - 2 ^ w.
Definition i64 : Z → Z := wraps 64.

Notation "a +u64 b" := (u64 (a + b)) (at level 50, left associativity) : go_scope.
Notation "a -u64 b" := (u64 (a - b)) (at level 50, left associativity) : go_scope.
#[global] Open Scope go_scope.

Lemma wrapu_small w z : 0 ≤ z < 2 ^ w → wrapu w z = z.
Proof. intros. by apply Z.mod_small. Qed.

Lemma wrapu_range w z : 0 ≤ w → 0 ≤ wrapu w z < 2 ^ w.
Proof. intros. apply Z.mod_pos_bound. lia. Qed.

Lemma u64_small z : 0 ≤ z < 2 ^ 64 → u64 z = z.
Proof. apply wrapu_small. Qed.

Lemma u64_range z : 0 ≤ u64 z < 2 ^ 64.
Proof. by apply wrapu_range. Qed.

Lemma wraps_small w z : 0 < w → - 2 ^ (w - 1) ≤ z < 2 ^ (w - 1) → wraps w z = z.
Proof.
  intros Hw Hz. unfold wraps.
  assert (2 ^ w = 2 * 2 ^ (w - 1)) as E
    by (rewrite <-Z.pow_succ_r by lia; f_equal; lia).
  destruct (decide (0 ≤ z)).
  - rewrite Z.mod_small by lia. by rewrite decide_True by lia.
  - replace (z mod 2 ^ w) with (z + 2 ^ w).
    + rewrite decide_False by lia. lia.
    + apply (Z.mod_unique_pos z (2 ^ w) (-1)); lia.
Qed.

(** Wrapping an operand does not change a wrapped sum. *)
Lemma wrapu_add w a b : wrapu w (wrapu w a + b) = wrapu w (a + b).
Proof. apply Zplus_mod_idemp_l. Qed.
Lemma wraps_mod w z : 0 < w → wraps w z mod 2 ^ w = z mod 2 ^ w.
Proof.
  intros Hw. unfold wraps. pose proof (Z.mod_pos_bound z (2 ^ w)). case_decide.
  - by rewrite Zmod_mod.
  - rewrite Zminus_mod, Z_mod_same_full, Z.sub_0_r, !Zmod_mod. done.
Qed.
Lemma wraps_add w a b : 0 < w → wraps w (wraps w a + b) = wraps w (a + b).
Proof.
  intros Hw. assert ((wraps w a + b) mod 2 ^ w = (a + b) mod 2 ^ w) as E
    by (rewrite Zplus_mod, wraps_mod, <-Zplus_mod by done; done).
  unfold wraps at 1 3. by rewrite E.
Qed.

(** A field below [2 ^ n] has no bit in common with one shifted by [n]. *)
Lemma land_shiftl_low a b n :
  0 ≤ n → 0 ≤ b < 2 ^ n → Z.land (Z.shiftl a n) b = 0.
Proof.
  intros Hn Hb. apply Z.bits_inj'. intros k Hk. rewrite Z.land_spec, Z.bits_0.
  destruct (decide (k < n)); [by rewrite Z.shiftl_spec_low|].
  rewrite <-(Z.mod_small b (2 ^ n)), Z.mod_pow2_bits_high by lia.
  apply andb_false_r.
Qed.

(** Placing a field above [n] low bits: shift-and-or is addition. *)
Lemma lor_shiftl_add a b n :
  0 ≤ n → 0 ≤ b < 2 ^ n → Z.lor (Z.shiftl a n) b = a * 2 ^ n + b.
Proof.
  intros Hn Hb. pose proof (land_shiftl_low a b n Hn Hb) as H.
  rewrite <-Z.lxor_lor, <-Z.add_nocarry_lxor by done.
  by rewrite Z.shiftl_mul_pow2.
Qed.

(** ** Time: [time.Time] and [time.Duration] in nanoseconds *)

Definition Nanosecond : Z := 1.
Definition Millisecond : Z := 1000000.
Definition Second : Z := 1000 * Millisecond.
Definition Minute : Z := 60 * Second.
Definition Hour : Z := 60 * Minute.

Definition maxDuration : Z := 2 ^ 63 - 1.
Definition minDuration : Z := - 2 ^ 63.

(** [t.Sub(u)] saturates at the range of [time.Duration]. *)
Definition time_sub (t u : Z) : Z := Z.max minDuration (Z.min maxDuration (t - u)).

Lemma time_sub_lt t u d : 0 ≤ d ≤ maxDuration → time_sub t u < d ↔ t - u < d.
Proof. unfold time_sub, minDuration, maxDuration. lia. Qed.
Lemma time_sub_le t u d : 0 ≤ d < maxDuration → time_sub t u ≤ d ↔ t - u ≤ d.
Proof. unfold time_sub, minDuration, maxDuration. lia. Qed.

(** ** Finite sets *)

Lemma size_add `{Countable A} (x : A) (X : gset A) :
  x ∉ X → size ({[x]} ∪ X) = S (size X).
Proof. intros. rewrite size_union, size_singleton by set_solver. done. Qed.

Lemma size_remove `{Countable A} (x : A) (X : gset A) :
  x ∈ X → size X = S (size (X ∖ {[x]})).
Proof.
  intros Hx. rewrite <-(size_add x) by set_solver. f_equal.
  apply set_eq. intros y. destruct (decide (y = x)); set_solver.
Qed.

(** ** Lists *)

Lemma omap_ext_elem {A B} (f g : A → option B) (l : list A) :
  (∀ x, x ∈ l → f x = g x) → omap f l = omap g l.
Proof.
  induction l as [|x l IH]; intros H; [done|]. simpl. rewrite (H x) by set_solver. case_match; [f_equal|]; apply IH; set_solver.
Qed.

(** ** Runs of a step function *)

(** Components with several goroutines are modelled by a step function: a label names
    the goroutine that moves and what the outside world contributes, [None] is a step
    that is not possible. A run is a sequence of labels, so a theorem about all runs
    covers every interleaving. *)
Section runs.
Context {S L : Type} (step : S → L → option S).
Implicit Types (P : S → Prop) (Q : L → Prop).

Fixpoint runs (s : S) (l : list L) : option S :=
  match l with [] => Some s | a :: l => s1 ← step s a; runs s1 l end.

Lemma runs_app s l1 l2 : runs s (l1 ++ l2) = runs s l1 ≫= λ s1, runs s1 l2.
Proof. revert s. induction l1 as [|a l1 IH]; intros s; simpl; [done|]. by destruct (step s a); simpl. Qed.

Lemma runs_snoc s l a s' : runs s (l ++ [a]) = Some s' → ∃ s1, runs s l = Some s1 ∧ step s1 a = Some s'.
Proof.
  rewrite runs_app. destruct (runs s l) as [s1|]; simpl; [|done]. destruct (step s1 a) as [s2|] eqn:E; simpl; [|done].
  intros [= <-]. eauto.
Qed.

(** What every step keeps, the run keeps; [Q] restricts the labels. *)
Lemma runs_inv_label P Q l s s' :
  (∀ s a s', Q a → P s → step s a = Some s' → P s') → Forall Q l → P s → runs s l = Some s' → P s'.
Proof.
  intros Hstep Hl. revert s. induction Hl as [|a l Ha _ IH]; simpl; intros s Hs; [by intros [= <-]|].
  destruct (step s a) as [s1|] eqn:E; simpl; [|done]. apply IH. by eapply Hstep.
Qed.

Lemma runs_inv P l s s' : (∀ s a s', P s → step s a = Some s' → P s') → P s → runs s l = Some s' → P s'.
Proof. intros Hstep. apply (runs_inv_label P (λ _, True)); [eauto|]. by apply Forall_true. Qed.

(** A quantity that every step leaves alone. *)
Lemma runs_const {A} (f : S → A) l s s' : (∀ s a s', step s a = Some s' → f s' = f s) → runs s l = Some s' → f s' = f s.
Proof. intros Hstep. apply (runs_inv (λ s1, f s1 = f s)); [|done]. intros s1 a s2 <- ?. eauto. Qed.

End runs.

(** ** Automation *)

Create HintDb go.
#[export] Hint Resolve u64_range wrapu_range size_add : go.
#[export] Hint Rewrite u64_small wraps_small using lia : go.

(** Splits every [if] and [match] of the goal and of the hypotheses. *)
Ltac go_cases := intros; repeat (case_decide || case_match); simplify_eq/=.
Ltac go_solve := go_cases; try done; try lia; eauto.

(** [lia] with division and remainder by constants. *)
Ltac div_lia := Z.to_euclidean_division_equations; lia.
