(* ===== verification/Text.v ===== *)
(** * Go strings: white space and order

    Strings are sequences of bytes. [TrimSpace] is strings.TrimSpace, [strLt] the [<] of
    strings; [SortSlice] states what sort.Slice guarantees. *)

From Stdlib Require Import Structures.OrdersEx.
From stdpp Require Import sorting.
From S2P Require Import Prelude.

Module Text.

(** ** White space *)

(** The UTF-8 encodings of the runes of unicode.IsSpace. *)
Definition spaces : list (list Ascii.ascii) :=
  map (map Ascii.ascii_of_nat)
    ([[9]; [10]; [11]; [12]; [13]; [32]; [194; 133]; [194; 160]; [225; 154; 128]]
     ++ map (λ k, [226; 128; k]) [128; 129; 130; 131; 132; 133; 134; 135; 136; 137; 138; 168; 169; 175]
     ++ [[226; 129; 159]; [227; 128; 128]])%nat%list.

Section trim.
Context {A : Type} `{EqDecision A}.
Implicit Types (p l r : list A) (ps : list (list A)).

Fixpoint strip p l : option (list A) :=
  match p, l with
  | [], _ => Some l
  | a :: p, b :: l => if decide (a = b) then strip p l else None
  | _, [] => None
  end.

(** The first space of [ps] that [l] starts with is dropped, as long as there is one. *)
Fixpoint dropFirst ps l : option (list A) :=
  match ps with
  | [] => None
  | p :: ps => match strip p l with Some r => Some r | None => dropFirst ps l end
  end.

Fixpoint trim ps (fuel : nat) l : list A :=
  match fuel with
  | O => l
  | S fuel => match dropFirst ps l with Some r => trim ps fuel r | None => l end
  end.

Lemma strip_Some p l r : strip p l = Some r ↔ l = p ++ r.
Proof.
  revert l. induction p as [|a p IH]; intros l; simpl; [naive_solver|]. destruct l as [|b l]; [done|].
  case_decide; [|naive_solver]. rewrite IH. naive_solver.
Qed.

Lemma dropFirst_Some ps l r : dropFirst ps l = Some r → ∃ p, p ∈ ps ∧ l = p ++ r.
Proof.
  induction ps as [|p ps IH]; simpl; [done|]. destruct (strip p l) as [r'|] eqn:E.
  - intros [= <-]. exists p. split; [left|by apply strip_Some].
  - intros (q & ? & ?)%IH. exists q. split; [by right|done].
Qed.

Lemma dropFirst_None ps l : dropFirst ps l = None ↔ ∀ p r, p ∈ ps → l ≠ p ++ r.
Proof.
  induction ps as [|p ps IH]; simpl; [set_solver|]. destruct (strip p l) as [r|] eqn:E.
  - apply strip_Some in E. split; [done|]. intros H. by destruct (H p r ltac:(left)).
  - rewrite IH. split; [|intros H q r Hq; apply H; by right].
    intros H q r [->|Hq]%elem_of_cons Hl; [|by eapply H]. apply strip_Some in Hl. congruence.
Qed.

Lemma trim_suffix ps n l : ∃ k, l = k ++ trim ps n l.
Proof.
  revert l. induction n as [|n IH]; intros l; simpl; [by exists []|]. destruct (dropFirst ps l) as [r|] eqn:E; [|by exists []].
  apply dropFirst_Some in E as (p & _ & ->). destruct (IH r) as [k Hk]. exists (p ++ k). by rewrite <-app_assoc, <-Hk.
Qed.

(** With fuel for every byte, nothing of [ps] is left in front. *)
Lemma trim_done ps n l : (∀ p, p ∈ ps → p ≠ []) → (length l <= n)%nat → dropFirst ps (trim ps n l) = None.
Proof.
  intros Hps. revert l. induction n as [|n IH]; intros l Hl.
  - destruct l; [|simpl in Hl; lia]. apply dropFirst_None. intros p r Hp. specialize (Hps p Hp). by destruct p.
  - simpl. destruct (dropFirst ps l) as [r|] eqn:E; [|done]. apply IH. apply dropFirst_Some in E as (p & Hp & ->).
    specialize (Hps p Hp). rewrite length_app in Hl. destruct p; simpl in Hl; [done|lia].
Qed.

Lemma trim_none ps n l : dropFirst ps l = None → trim ps n l = l.
Proof. destruct n; simpl; [done|]. by intros ->. Qed.

(** Trimming on both sides. *)
Definition trimLeft ps l : list A := trim ps (length l) l.
Definition trimRight ps l : list A := reverse (trim (reverse <$> ps) (length l) (reverse l)).

Lemma trimRight_prefix ps l : ∃ k, l = trimRight ps l ++ k.
Proof.
  unfold trimRight. destruct (trim_suffix (reverse <$> ps) (length l) (reverse l)) as [k Hk]. exists (reverse k).
  rewrite <-reverse_app, <-Hk. by rewrite reverse_involutive.
Qed.

Lemma trim_twice ps l : (∀ p, p ∈ ps → p ≠ []) →
  trimRight ps (trimLeft ps (trimRight ps (trimLeft ps l))) = trimRight ps (trimLeft ps l).
Proof.
  intros Hps. assert (∀ p, p ∈ reverse <$> ps → p ≠ []) as Hrv.
  { intros p (q & -> & Hq)%list_elem_of_fmap Hr. apply (Hps q Hq). by rewrite <-(reverse_involutive q), Hr. }
  pose proof (trim_done ps (length l) l Hps ltac:(done)) as Hleft. fold (trimLeft ps l) in Hleft.
  set (m := trimLeft ps l) in *. destruct (trimRight_prefix ps m) as [k Hk].
  assert (dropFirst ps (trimRight ps m) = None) as Hl.
  { apply dropFirst_None. intros p r Hp Heq. rewrite Heq, <-app_assoc in Hk. by eapply (proj1 (dropFirst_None ps m) Hleft p (r ++ k)). }
  assert (dropFirst (reverse <$> ps) (reverse (trimRight ps m)) = None) as Hr.
  { unfold trimRight. rewrite reverse_involutive. apply trim_done; [done|]. by rewrite length_reverse. }
  unfold trimLeft at 1. rewrite (trim_none _ _ _ Hl). unfold trimRight at 1. rewrite (trim_none _ _ _ Hr). by rewrite reverse_involutive.
Qed.
End trim.

Definition TrimSpace (s : string) : string :=
  String.string_of_list_ascii (trimRight spaces (trimLeft spaces (String.list_ascii_of_string s))).

#[global] Arguments TrimSpace : simpl never.

Lemma TrimSpace_idem s : TrimSpace (TrimSpace s) = TrimSpace s.
Proof.
  unfold TrimSpace. rewrite String.list_ascii_of_string_of_list_ascii. f_equal. apply trim_twice.
  assert (Forall (λ p, p ≠ []) spaces) as H by (by apply (bool_decide_unpack _); vm_compute).
  by apply Forall_forall.
Qed.

(** ** Order *)

Definition strLt (a b : string) : bool := match String_as_OT.compare a b with Lt => true | _ => false end.

Lemma strLt_spec a b : strLt a b = true ↔ String_as_OT.lt a b.
Proof. unfold strLt, String_as_OT.lt. by destruct (String_as_OT.compare a b). Qed.
Lemma strLt_irrefl a : strLt a a = false.
Proof. apply not_true_iff_false. rewrite strLt_spec. exact (@irreflexivity _ _ _ a). Qed.
Lemma strLt_trans a b c : strLt a b = true → strLt b c = true → strLt a c = true.
Proof. rewrite !strLt_spec. apply transitivity. Qed.
Lemma strLt_total a b : strLt a b = false → strLt b a = false → a = b.
Proof.
  intros H1 H2. destruct (String_as_OT.compare_spec a b) as [E|E|E]; [done| |]; apply strLt_spec in E; congruence.
Qed.
(** [strLt b a = false] is the order [a ≤ b]. *)
Lemma strLe_trans a b c : strLt b a = false → strLt c b = false → strLt c a = false.
Proof.
  intros H1 H2. apply not_true_iff_false. intros H. destruct (strLt a b) eqn:Hab.
  - by rewrite (strLt_trans _ _ _ H Hab) in H2.
  - rewrite (strLt_total _ _ Hab H1) in *. congruence.
Qed.
Lemma strLe_total a b : strLt b a = false ∨ strLt a b = false.
Proof.
  destruct (strLt b a) eqn:H1; [|by left]. right. apply not_true_iff_false. intros H2.
  pose proof (strLt_trans _ _ _ H1 H2) as H. by rewrite strLt_irrefl in H.
Qed.

(** sort.Slice with the given less: a permutation without inversions; the order of equal
    elements is not specified. *)
Class SortSlice {A} (less : A → A → bool) (sort : list A → list A) := {
  sort_perm l : sort l ≡ₚ l;
  sort_sorted l : StronglySorted (λ x y, less y x = false) (sort l);
}.

(** Sorting by a key that no two elements share has one result. *)
Lemma sort_unique {A} (key : A → string) (s s' : list A → list A) l l' :
  SortSlice (λ x y, strLt (key x) (key y)) s → SortSlice (λ x y, strLt (key x) (key y)) s' →
  NoDup (key <$> l) → l ≡ₚ l' → s l = s' l'.
Proof.
  intros Hs Hs' Hn Hp. eapply StronglySorted_unique_strong; [|apply Hs|apply Hs'|by rewrite sort_perm, (sort_perm (SortSlice := Hs'))].
  intros x y Hx Hy H1 H2. rewrite sort_perm in Hx. rewrite (sort_perm (SortSlice := Hs')), <-Hp in Hy.
  pose proof (strLt_total _ _ H2 H1) as Hk. apply list_elem_of_lookup in Hx as [i Hi], Hy as [j Hj].
  assert (i = j) as ->; [|congruence]. eapply NoDup_lookup; [exact Hn|by rewrite list_lookup_fmap, Hi|by rewrite list_lookup_fmap, Hj, Hk].
Qed.

(** A sort that satisfies it. *)
Section mergesort.
Context {A : Type} (key : A → string).
Let R (x y : A) : Prop := strLt (key y) (key x) = false.
#[local] Instance R_dec : RelDecision R.
Proof. intros x y. unfold R. apply _. Defined.

Definition mergeSort : list A → list A := merge_sort R.

#[global] Instance mergeSort_sorts : SortSlice (λ x y, strLt (key x) (key y)) mergeSort.
Proof.
  assert (Total R) as HT by (intros x y; apply strLe_total).
  assert (Transitive R) as HTr by (intros x y z; apply strLe_trans).
  split; [apply merge_sort_Permutation|]. intros l. by apply (StronglySorted_merge_sort R).
Qed.
End mergesort.

End Text.
