(* ===== verification/Frame.v ===== *)
(** * Package [frame]: length-prefixed framing (src/frame/frame.go)

    A byte is a [Z] in [0, 256).  An [io.Reader] is the bytes it will still
    deliver and the error it reports once they are exhausted; an [io.Writer] is
    what it has emitted and the answers it will give to the next [Write] calls,
    so that a theorem over all writers covers every pattern of short writes. *)

From S2P Require Import Prelude.

Module Frame.

(** ** Errors *)

Inductive io_error :=
  | EOF
  | ErrUnexpectedEOF
  | ErrShortWrite
  | ErrPayloadTooLarge
  | OtherIO (code : nat).

#[global] Instance io_error_eq_dec : EqDecision io_error.
Proof. solve_decision. Defined.

(** ** Standard library: [encoding/binary] and [io.ReadFull] *)

(** [binary.BigEndian.PutUint32]. *)
Definition put_uint32 (v : Z) : list Z :=
  [Z.land (Z.shiftr v 24) 255; Z.land (Z.shiftr v 16) 255;
   Z.land (Z.shiftr v 8) 255; Z.land v 255].

(** [binary.BigEndian.Uint32]; a shorter slice panics, [None] here. *)
Definition uint32 (b : list Z) : option Z :=
  match b with
  | b0 :: b1 :: b2 :: b3 :: _ =>
      Some (Z.lor (Z.shiftl b0 24)
              (Z.lor (Z.shiftl b1 16) (Z.lor (Z.shiftl b2 8) b3)))
  | _ => None
  end.

Record reader := Reader { rd_bytes : list Z; rd_end : io_error }.

(** [io.ReadFull(r, buf)] with [len(buf) = n]: the bytes read and the reader
    after them.  A short read reports the reader's own error when nothing was
    read and turns a late [io.EOF] into [io.ErrUnexpectedEOF]. *)
Definition read_full (r : reader) (n : nat) : result io_error (list Z) * reader :=
  if decide (n ≤ length (rd_bytes r))%nat
  then (Ok (take n (rd_bytes r)), Reader (drop n (rd_bytes r)) (rd_end r))
  else
    let e := match rd_bytes r, rd_end r with
             | [], e => e
             | _, EOF => ErrUnexpectedEOF
             | _, e => e
             end in
    (Err e, Reader [] (rd_end r)).

(** An [io.Writer]: the bytes emitted and, for each coming [Write] call, how many
    bytes it accepts (at most those given) and its error; a writer whose script
    has run out accepts everything. *)
Record writer := Writer { wr_out : list Z; wr_script : list (nat * option io_error) }.

(** ** The package *)

Definition HeadLen : Z := 4.
Definition MaxPayload : Z := 4 * 1024 * 1024.

(** The bound in force: zero stands for [MaxPayload]. *)
Definition eff_max (max : Z) : Z := if decide (max = 0) then MaxPayload else max.

Definition ReadLimit (r : reader) (max : Z) : result io_error (list Z) * reader :=
  match read_full r 4 with
  | (Err e, r1) => (Err e, r1)
  | (Ok prefix, r1) =>
      match uint32 prefix with
      | None => (Err ErrUnexpectedEOF, r1)
      | Some dataLen =>
          if decide (dataLen > eff_max max) then (Err ErrPayloadTooLarge, r1)
          else read_full r1 (Z.to_nat dataLen)
      end
  end.

Definition Read (r : reader) : result io_error (list Z) * reader :=
  ReadLimit r MaxPayload.

(** The loop of [writeFull]: every iteration with data left makes one [Write]
    call, which consumes one answer of the script. *)
Fixpoint write_loop (script : list (nat * option io_error)) (out data : list Z)
    : writer * option io_error :=
  match data with
  | [] => (Writer out script, None)
  | _ :: _ =>
      match script with
      | [] => (Writer (out ++ data) [], None)
      | (n0, err) :: script' =>
          let n := Nat.min n0 (length data) in
          let out' := out ++ take n data in
          match err with
          | Some e => (Writer out' script', Some e)
          | None =>
              if decide (n = 0%nat) then (Writer out' script', Some ErrShortWrite)
              else write_loop script' out' (drop n data)
          end
      end
  end.

Definition writeFull (w : writer) (data : list Z) : writer * option io_error :=
  write_loop (wr_script w) (wr_out w) data.

Definition WriteUnchecked (w : writer) (payload : list Z) : writer * option io_error :=
  if decide (Z.of_nat (length payload) > 2 ^ 32 - 1)
  then (w, Some ErrPayloadTooLarge)
  else
    match writeFull w (put_uint32 (u32 (Z.of_nat (length payload)))) with
    | (w1, Some e) => (w1, Some e)
    | (w1, None) => writeFull w1 payload
    end.

Definition WriteLimit (w : writer) (payload : list Z) (max : Z)
    : writer * option io_error :=
  if decide (Z.of_nat (length payload) > eff_max max)
  then (w, Some ErrPayloadTooLarge)
  else WriteUnchecked w payload.

Definition Write (w : writer) (payload : list Z) : writer * option io_error :=
  WriteLimit w payload MaxPayload.

(** Reading frames until the first error, as a connection's read loop does. *)
Fixpoint read_all (fuel : nat) (r : reader) (max : Z) : list (list Z) * io_error :=
  match fuel with
  | O => ([], EOF)
  | S fuel' =>
      match ReadLimit r max with
      | (Err e, _) => ([], e)
      | (Ok p, r1) => let '(ps, e) := read_all fuel' r1 max in (p :: ps, e)
      end
  end.

(** The wire image of a frame. *)
Definition encode (payload : list Z) : list Z :=
  put_uint32 (Z.of_nat (length payload)) ++ payload.

(** ** Lemmas *)

Lemma uint32_put v rest : 0 ≤ v < 2 ^ 32 → uint32 (put_uint32 v ++ rest) = Some v.
Proof.
  intros Hv. simpl. f_equal.
  change 255 with (Z.ones 8). rewrite !Z.land_ones, !Z.shiftr_div_pow2 by lia.
  change (2 ^ 8) with 256. change (2 ^ 16) with 65536. change (2 ^ 24) with 16777216.
  rewrite (lor_shiftl_add _ _ 8) by div_lia. rewrite (lor_shiftl_add _ _ 16) by div_lia.
  rewrite (lor_shiftl_add _ _ 24) by div_lia. div_lia.
Qed.

Lemma read_full_app n a b e :
  length a = n → read_full (Reader (a ++ b) e) n = (Ok a, Reader b e).
Proof.
  intros <-. unfold read_full. simpl. rewrite length_app, decide_True by lia.
  by rewrite take_app_length, drop_app_length.
Qed.

Lemma read_full_ok r n d r' :
  read_full r n = (Ok d, r') →
  length d = n ∧ rd_bytes r = d ++ rd_bytes r' ∧ rd_end r' = rd_end r.
Proof.
  unfold read_full. go_cases.
  rewrite length_take, take_drop. repeat split; lia.
Qed.

Lemma write_loop_spec script out data w' err :
  write_loop script out data = (w', err) →
  ∃ k, (k ≤ length data)%nat ∧ wr_out w' = out ++ take k data ∧
    (err = None → k = length data).
Proof.
  revert out data. induction script as [|[n0 e] script IH]; intros out data;
    (destruct data as [|x data]; [intros [= <- <-]; exists 0%nat; by rewrite app_nil_r|]).
  - intros [= <- <-]. exists (length (x :: data)). by rewrite firstn_all.
  - cbn [write_loop]. set (d := x :: data). set (n := Nat.min n0 (length d)).
    assert (n ≤ length d)%nat as Hn by lia.
    destruct e as [e|]; [intros [= <- <-]; by exists n|].
    case_decide as Hz; [intros [= <- <-]; exists n; split_and!; done|].
    intros (k & Hk & Hout & Hnone)%IH. rewrite length_drop in Hk, Hnone.
    exists (n + k)%nat. split_and!; [lia| |intros He; specialize (Hnone He); lia].
    rewrite Hout, <-app_assoc. f_equal. by rewrite take_take_drop.
Qed.

Lemma writeFull_ok w data w' :
  writeFull w data = (w', None) → wr_out w' = wr_out w ++ data.
Proof.
  intros (k & _ & -> & ->)%write_loop_spec; [|done]. by rewrite firstn_all.
Qed.

Lemma write_unchecked_ok w payload w' :
  WriteUnchecked w payload = (w', None) →
  Z.of_nat (length payload) < 2 ^ 32 ∧ wr_out w' = wr_out w ++ encode payload.
Proof.
  unfold WriteUnchecked, encode. case_decide as H; [done|].
  destruct (writeFull w _) as [w1 [e|]] eqn:E1; [done|]. intros E2.
  apply writeFull_ok in E1, E2. rewrite E2, E1. unfold u32.
  rewrite wrapu_small, app_assoc by lia. split; [lia|done].
Qed.

Lemma write_unchecked_err w payload w' err :
  WriteUnchecked w payload = (w', Some err) →
  ∃ k, (k ≤ length (encode payload))%nat ∧ wr_out w' = wr_out w ++ take k (encode payload).
Proof.
  unfold WriteUnchecked, encode, u32. case_decide as Hb.
  { intros [= <- _]. exists 0%nat. by rewrite app_nil_r; split; [lia|]. }
  rewrite wrapu_small by lia.
  destruct (writeFull w _) as [w1 [e1|]] eqn:E1; intros E; simplify_eq.
  - apply write_loop_spec in E1 as (k & Hk & Hout & _). exists k.
    rewrite length_app, take_app_le by done. split; [lia|done].
  - apply writeFull_ok in E1. apply write_loop_spec in E as (k & Hk & Hout & _).
    exists (4 + k)%nat. rewrite Hout, E1, <-app_assoc, length_app.
    split; [simpl; lia|done].
Qed.

Lemma read_encode payload rest e max :
  Z.of_nat (length payload) < 2 ^ 32 → Z.of_nat (length payload) ≤ eff_max max →
  ReadLimit (Reader (encode payload ++ rest) e) max = (Ok payload, Reader rest e).
Proof.
  intros Hlen Hmax. unfold ReadLimit, encode. rewrite <-app_assoc, read_full_app by done.
  rewrite <-(app_nil_r (put_uint32 _)), uint32_put by lia.
  rewrite decide_False by lia. apply read_full_app. lia.
Qed.

(** ** Properties *)

(** C40 (round trip). Whatever short writes the writer makes, a [WriteLimit] that
    reports success has emitted exactly one frame, and [ReadLimit] with any limit
    at least as large reads back that payload and leaves the bytes that follow. *)
Theorem write_read_roundtrip w payload max w' rest e rmax :
  WriteLimit w payload max = (w', None) →
  eff_max max ≤ eff_max rmax →
  ∃ image, wr_out w' = wr_out w ++ image ∧
    ReadLimit (Reader (image ++ rest) e) rmax = (Ok payload, Reader rest e).
Proof.
  unfold WriteLimit. case_decide as Hm; [done|].
  intros [Hlen Hout]%write_unchecked_ok Hr. exists (encode payload). split; [done|].
  apply read_encode; lia.
Qed.

Lemma write_read_roundtrip_witness :
  ∃ image, wr_out (Writer [0;0;0;3;7;8;9] []) = [] ++ image ∧
    ReadLimit (Reader (image ++ [1;2]) EOF) 0 = (Ok [7;8;9], Reader [1;2] EOF).
Proof.
  apply (write_read_roundtrip (Writer [] [(1%nat, None); (3%nat, None); (2%nat, None)])
           [7;8;9] 0 (Writer [0;0;0;3;7;8;9] []) [1;2] EOF 0); vm_compute; done.
Defined.

(** Error paths. A write that fails leaves a prefix of the frame on the wire
    and nothing else; success is reported only for the whole frame, so a
    truncated frame is never reported as written; a payload over the limit is
    refused before any byte is emitted. *)
Theorem write_no_silent_truncation w payload max :
  let '(w', err) := WriteLimit w payload max in
  ∃ k, (k ≤ length (encode payload))%nat ∧
    wr_out w' = wr_out w ++ take k (encode payload) ∧
    (err = None → k = length (encode payload)) ∧
    (eff_max max < Z.of_nat (length payload) → k = 0%nat ∧ err = Some ErrPayloadTooLarge).
Proof.
  unfold WriteLimit. case_decide as Hm.
  { exists 0%nat. rewrite app_nil_r. split_and!; [lia|done..]. }
  destruct (WriteUnchecked w payload) as [w' [err|]] eqn:E.
  - apply write_unchecked_err in E as (k & Hk & Hout).
    exists k. split_and!; [done..|lia].
  - apply write_unchecked_ok in E as [_ ->]. exists (length (encode payload)).
    rewrite firstn_all. split_and!; [done..|lia].
Qed.

(** Bounds. A successful read returns at most the bound in force, consumes
    exactly the prefix and the payload, and the prefix it consumed declares the
    payload's length; no payload is read when the declared length is larger. *)
Theorem read_bounded r max p r' :
  Forall (λ b, 0 ≤ b < 256) (rd_bytes r) →
  ReadLimit r max = (Ok p, r') →
  Z.of_nat (length p) ≤ eff_max max ∧
  ∃ prefix, length prefix = 4%nat ∧ rd_bytes r = prefix ++ p ++ rd_bytes r' ∧
    uint32 prefix = Some (Z.of_nat (length p)).
Proof.
  intros Hbytes. unfold ReadLimit.
  destruct (read_full r 4) as [[prefix|] r1] eqn:E1; [|done].
  destruct (uint32 prefix) as [n|] eqn:En; [|done].
  case_decide as Hn; [done|]. intros E2.
  apply read_full_ok in E1 as (L1 & B1 & _), E2 as (L2 & B2 & _).
  rewrite B1 in Hbytes. apply Forall_app in Hbytes as [Hp _].
  assert (0 ≤ n) as Hn0.
  { destruct prefix as [|b0 [|b1 [|b2 [|b3 [|]]]]]; try discriminate.
    simpl in En. simplify_eq. decompose_Forall_hyps.
    rewrite !Z.lor_nonneg, !Z.shiftl_nonneg. lia. }
  split; [lia|]. exists prefix. rewrite B1, B2, En. split_and!; [done..|f_equal; lia].
Qed.

Lemma read_bounded_witness :
  Z.of_nat (length [7; 8]) ≤ eff_max 0 ∧
  ∃ prefix, length prefix = 4%nat ∧ rd_bytes (Reader [0;0;0;2;7;8;5] EOF) =
    prefix ++ [7; 8] ++ rd_bytes (Reader [5] EOF) ∧
    uint32 prefix = Some (Z.of_nat (length [7; 8])).
Proof.
  apply (read_bounded (Reader [0;0;0;2;7;8;5] EOF) 0 [7;8] (Reader [5] EOF));
    [repeat constructor; lia | vm_compute; done].
Defined.

(** Stream. A connection that carries a sequence of frames, each within the
    limit, yields exactly those payloads in order and then the connection's own
    error: frames never merge, split or shift. *)
Theorem read_stream payloads e max :
  Forall (λ p, Z.of_nat (length p) ≤ eff_max max ∧ Z.of_nat (length p) < 2 ^ 32) payloads →
  read_all (S (length payloads)) (Reader (concat (encode <$> payloads)) e) max
  = (payloads, e).
Proof.
  induction 1 as [|p ps [Hp Hl] _ IH]; [done|].
  cbn [fmap list_fmap concat length]. remember (S (length ps)) as m eqn:Em.
  cbn [read_all]. subst m.
  rewrite read_encode by done.
  by rewrite IH.
Qed.

Lemma read_stream_witness :
  read_all 3 (Reader (concat (encode <$> [[1]; []])) (OtherIO 7)) 0 = ([[1]; []], OtherIO 7).
Proof.
  apply (read_stream [[1]; []] (OtherIO 7) 0).
  repeat constructor; vm_compute; congruence.
Defined.

End Frame.
