(* ===== verification/Drain.v ===== *)
(** * Maintenance draining of an actor system (src/actor/drain.go)

    The tracker is the [drainTracker] record guarded by [drain.mu]; every
    function that holds the mutex is one atomic operation here.  Pointers are
    identities: an envelope's [drainTracked] flag is membership in [w_tracked],
    a permit's [active] flag is membership in [w_live], a [sync.Once] that has
    run is membership in [w_once], and the [zero] channel is an identity that is
    in [w_closed] once it has been closed.  [None] as the result of an operation
    is a Go panic (closing a closed channel). *)

From S2P Require Import Prelude.

Module Drain.

Inductive error := ErrMaintenance | ErrNotEnabled | ErrAdmittedFailed | ErrContext.

#[global] Instance error_eq_dec : EqDecision error.
Proof. solve_decision. Defined.

Record drainTracker := Tracker {
  closed : bool;
  pending : Z;
  failures : Z;
  durableFailures : Z;
  baseline : Z;
  zero : nat;
}.

Record DrainState := State {
  AdmissionClosed : bool;
  InFlight : Z;
  Failures : Z;
}.

(** The part of the process the tracker reads and writes: the tracker itself
    ([None] when [SystemOptions.Drainable] is off), the channels closed so far,
    the tracked envelopes, the local activations with their envelope and
    [maintenanceFinished] flag, the live permits, the permits whose [Once] has
    run and the [MaintenanceWork] calls still inside their callback. *)
Record world := World {
  w_drain : option drainTracker;
  w_closed : gset nat;
  w_nextChan : nat;
  w_tracked : gset nat;
  w_acts : gmap nat (nat * bool);
  w_live : gset nat;
  w_once : gset nat;
  w_nextPermit : nat;
  w_maint : gset nat;
}.

(** What [trackAdmission] reads of a context: the activation of this system it
    carries, if any, and the permit of this system it carries, if any.  An
    activation or permit of another system counts as none, as in the source's
    [act.runtime.service.system == s] and [permit.system == s]. *)
Record ctx := Ctx { ctx_act : option nat; ctx_permit : option nat }.

Definition background : ctx := Ctx None None.

(** ** Operations *)

(** [newDrainTracker]: the zero channel is created closed. *)
Definition newDrainTracker : drainTracker := Tracker false 0 0 0 0 0.

Definition newWorld (drainable : bool) : world :=
  if drainable then World (Some newDrainTracker) {[0%nat]} 1 ∅ ∅ ∅ ∅ 0 ∅
  else World None ∅ 1 ∅ ∅ ∅ ∅ 0 ∅.

Definition set_tracker (w : world) (d : drainTracker) : world :=
  World (Some d) (w_closed w) (w_nextChan w) (w_tracked w) (w_acts w)
    (w_live w) (w_once w) (w_nextPermit w) (w_maint w).

(** [if d.pending == 0 { d.zero = make(chan struct{}) }; d.pending++]. *)
Definition add_pending (w : world) (d : drainTracker) : world :=
  let fresh := decide (pending d = 0) in
  World (Some (Tracker (closed d) (pending d +u64 1) (failures d)
                 (durableFailures d) (baseline d)
                 (if fresh then w_nextChan w else zero d)))
    (w_closed w) (if fresh then S (w_nextChan w) else w_nextChan w)
    (w_tracked w) (w_acts w) (w_live w) (w_once w) (w_nextPermit w) (w_maint w).

(** [d.pending--; if d.pending == 0 { close(d.zero) }]. *)
Definition sub_pending (w : world) (d : drainTracker) : option world :=
  let d' := Tracker (closed d) (pending d -u64 1) (failures d)
              (durableFailures d) (baseline d) (zero d) in
  if decide (pending d' = 0) then
    if decide (zero d ∈ w_closed w) then None
    else Some (World (Some d') ({[zero d]} ∪ w_closed w) (w_nextChan w)
                 (w_tracked w) (w_acts w) (w_live w) (w_once w)
                 (w_nextPermit w) (w_maint w))
  else Some (set_tracker w d').

Definition set_tracked (w : world) (t : gset nat) : world :=
  World (w_drain w) (w_closed w) (w_nextChan w) t (w_acts w)
    (w_live w) (w_once w) (w_nextPermit w) (w_maint w).
Definition set_acts (w : world) (a : gmap nat (nat * bool)) : world :=
  World (w_drain w) (w_closed w) (w_nextChan w) (w_tracked w) a
    (w_live w) (w_once w) (w_nextPermit w) (w_maint w).
Definition set_permits (w : world) (live once maint : gset nat) (next : nat) : world :=
  World (w_drain w) (w_closed w) (w_nextChan w) (w_tracked w) (w_acts w)
    live once next maint.

(** [internal] and [permitted] of [trackAdmission]. *)
Definition internal (w : world) (c : ctx) : bool :=
  match ctx_act c with
  | Some a => match w_acts w !! a with Some (_, fin) => negb fin | None => false end
  | None => false
  end.
Definition permitted (w : world) (c : ctx) : bool :=
  match ctx_permit c with Some p => bool_decide (p ∈ w_live w) | None => false end.

Definition trackAdmission (w : world) (c : ctx) (env : nat) : world * option error :=
  match w_drain w with
  | None => (w, None)
  | Some d =>
      if closed d && negb (internal w c) && negb (permitted w c)
      then (w, Some ErrMaintenance)
      else (set_tracked (add_pending w d) ({[env]} ∪ w_tracked w), None)
  end.

(** A [WorkReservation] is its permit; [None] is the empty reservation handed
    out when draining is disabled. *)
Definition ReserveWork (w : world) : world * result error (option nat) :=
  match w_drain w with
  | None => (w, Ok None)
  | Some d =>
      if closed d && bool_decide (pending d = 0) then (w, Err ErrMaintenance)
      else
        let p := w_nextPermit w in
        let w1 := add_pending w d in
        (set_permits w1 ({[p]} ∪ w_live w1) (w_once w1) (w_maint w1) (S p), Ok (Some p))
  end.

(** [WorkReservation.Context]: drops the originating activation and installs the
    permit. *)
Definition Context (r : option nat) (base : ctx) : ctx :=
  match r with None => base | Some p => Ctx None (Some p) end.

Definition Finish (w : world) (r : option nat) (failed : bool) : option world :=
  match r with
  | None => Some w
  | Some p =>
      if decide (p ∈ w_once w) then Some w
      else
        let w1 := set_permits w (w_live w ∖ {[p]}) ({[p]} ∪ w_once w) (w_maint w)
                    (w_nextPermit w) in
        match w_drain w1 with
        | None => None
        | Some d =>
            let d1 := if failed
                      then Tracker (closed d) (pending d) (failures d)
                             (durableFailures d +u64 1) (baseline d) (zero d)
                      else d in
            sub_pending w1 d1
        end
  end.

Definition finishTracked (w : world) (env : nat) (act : option nat) (failed : bool)
    : option world :=
  match w_drain w with
  | None => Some w
  | Some d =>
      let w1 := match act with
                | Some a => set_acts w (alter (λ '(e, _), (e, true)) a (w_acts w))
                | None => w
                end in
      if decide (env ∈ w_tracked w1) then
        let w2 := set_tracked w1 (w_tracked w1 ∖ {[env]}) in
        let d1 := if failed
                  then Tracker (closed d) (pending d) (failures d +u64 1)
                         (durableFailures d) (baseline d) (zero d)
                  else d in
        sub_pending w2 d1
      else Some w1
  end.

Definition getDrainState (w : world) : DrainState :=
  match w_drain w with
  | None => State false 0 0
  | Some d => State (closed d) (pending d)
                (u64 (failures d - baseline d + durableFailures d))
  end.

(** The critical section of [Drain]; [None] when draining is disabled.  The
    returned channel is the one the caller then waits on. *)
Definition drain_begin (w : world) : option (world * nat) :=
  match w_drain w with
  | None => None
  | Some d =>
      let d1 := if closed d then d
                else Tracker true (pending d) (failures d) (durableFailures d)
                       (failures d) (zero d) in
      Some (set_tracker w d1, zero d1)
  end.

(** The rest of [Drain]: [sel] is the branch the select takes, the closed zero
    channel or the cancelled context. *)
Definition drain_return (w : world) (sel : bool) : DrainState * option error :=
  let st := getDrainState w in
  if sel then
    (st, if decide (Failures st = 0) then None else Some ErrAdmittedFailed)
  else (st, Some ErrContext).

(** [MaintenanceWork] up to the callback, and its deferred function. *)
Definition maintenance_enter (w : world) : world * option nat :=
  match w_drain w with
  | None => (w, None)
  | Some d =>
      let p := w_nextPermit w in
      let w1 := add_pending w d in
      (set_permits w1 ({[p]} ∪ w_live w1) (w_once w1) ({[p]} ∪ w_maint w1) (S p), Some p)
  end.

Definition maintenance_exit (w : world) (p : nat) : option world :=
  match w_drain w with
  | None => Some w
  | Some d =>
      sub_pending (set_permits w (w_live w ∖ {[p]}) (w_once w) (w_maint w ∖ {[p]})
                     (w_nextPermit w)) d
  end.

Definition ResumeAdmission (w : world) : world :=
  match w_drain w with
  | None => w
  | Some d => set_tracker w (Tracker false (pending d) (failures d)
                               (durableFailures d) (failures d) (zero d))
  end.

(** ** Executions *)

Inductive label :=
  | LAdmit (c : ctx) (env : nat)
  | LActivate (a env : nat)
  | LFinishTracked (env : nat) (act : option nat) (failed : bool)
  | LReserve
  | LFinish (p : nat) (failed : bool)
  | LDrain
  | LMaintEnter
  | LMaintExit (p : nat)
  | LResume.

(** No activation of the system works on [env]. *)
Definition unused_env (w : world) (env : nat) : Prop :=
  ∀ a e f, w_acts w !! a = Some (e, f) → e ≠ env.

(** Fewer than [2 ^ 64 - 1] obligations are outstanding, so the counter does not
    wrap: each one is a distinct object in memory. *)
Definition room (w : world) : Prop :=
  ∀ d, w_drain w = Some d → pending d + 1 < 2 ^ 64.

(** One critical section of the process.  The side conditions are how the rest
    of the package calls these functions: an envelope is admitted once, gets at
    most one activation after its admission, and is finished together with that
    activation ([execute], [finishPending]) or with none (a failed admission). *)
Inductive step (w : world) : label → world → Prop :=
  | step_admit c env w' err :
      room w → env ∉ w_tracked w → unused_env w env →
      trackAdmission w c env = (w', err) → step w (LAdmit c env) w'
  | step_activate a env :
      w_acts w !! a = None → env ∈ w_tracked w → unused_env w env →
      step w (LActivate a env) (set_acts w (<[a := (env, false)]> (w_acts w)))
  | step_finishTracked env act failed w' :
      (∀ a e f, w_acts w !! a = Some (e, f) → e = env ↔ act = Some a) →
      finishTracked w env act failed = Some w' →
      step w (LFinishTracked env act failed) w'
  | step_reserve w' r :
      room w → ReserveWork w = (w', r) → step w LReserve w'
  | step_finish p failed w' :
      p ∈ w_live w ∪ w_once w → p ∉ w_maint w →
      Finish w (Some p) failed = Some w' → step w (LFinish p failed) w'
  | step_drain w' z :
      drain_begin w = Some (w', z) → step w LDrain w'
  | step_maint_enter w' p :
      room w → maintenance_enter w = (w', p) → step w LMaintEnter w'
  | step_maint_exit p w' :
      p ∈ w_maint w → maintenance_exit w p = Some w' → step w (LMaintExit p) w'
  | step_resume : step w LResume (ResumeAdmission w).

Definition any_step (w w' : world) : Prop := ∃ l, step w l w'.

(** Steps other than an explicit [MaintenanceWork] or [ResumeAdmission]. *)
Definition quiet (l : label) : Prop := l ≠ LMaintEnter ∧ l ≠ LResume.
Definition quiet_step (w w' : world) : Prop := ∃ l, quiet l ∧ step w l w'.

(** The failures a step adds to the report: the first finish of a tracked
    envelope and the first finish of a reservation, when it failed. *)
Definition charge (w : world) (l : label) : Z :=
  match l with
  | LFinishTracked env _ true => if decide (env ∈ w_tracked w) then 1 else 0
  | LFinish p true => if decide (p ∈ w_once w) then 0 else 1
  | _ => 0
  end.

(** A quiet execution and the number of failures in it. *)
Inductive quiet_run (w : world) : Z → world → Prop :=
  | run_nil : quiet_run w 0 w
  | run_snoc n l w1 w2 :
      quiet_run w n w1 → quiet l → step w1 l w2 → quiet_run w (n + charge w1 l) w2.

Definition reachable (w : world) : Prop := rtc any_step (newWorld true) w.

(** ** Invariant *)

Record inv (w : world) (d : drainTracker) : Prop := {
  inv_drain : w_drain w = Some d;
  inv_pending : pending d = Z.of_nat (size (w_tracked w) + size (w_live w));
  inv_bound : pending d < 2 ^ 64;
  inv_zero : zero d ∈ w_closed w ↔ pending d = 0;
  inv_chans : ∀ c : nat, c ∈ {[zero d]} ∪ w_closed w → (c < w_nextChan w)%nat;
  inv_acts : ∀ a e, w_acts w !! a = Some (e, false) → e ∈ w_tracked w;
  inv_permits : ∀ p, p ∈ w_live w ∪ w_once w ∪ w_maint w → (p < w_nextPermit w)%nat;
  inv_once : w_once w ## w_live w;
  inv_maint : w_maint w ⊆ w_live w;
  inv_uniq : ∀ a b e f g, w_acts w !! a = Some (e, f) → w_acts w !! b = Some (e, g) → a = b;
}.

(** What [add_pending] and [sub_pending] do to the counter and the channel. *)
Lemma add_pending_spec w d :
  inv w d → pending d + 1 < 2 ^ 64 →
  ∃ d', w_drain (add_pending w d) = Some d' ∧
    pending d' = pending d + 1 ∧ closed d' = closed d ∧
    zero d' ∉ w_closed w ∧ (pending d ≠ 0 → zero d' = zero d) ∧
    (∀ c : nat, c ∈ {[zero d']} ∪ w_closed w → (c < w_nextChan (add_pending w d))%nat).
Proof.
  intros I Hr. unfold add_pending. eexists. split; [done|]. simpl.
  pose proof (inv_pending _ _ I). pose proof (inv_zero _ _ I) as Hz.
  pose proof (inv_chans _ _ I) as Hc.
  split_and!; [apply u64_small; lia|done|..]; case_decide as E; try done; try tauto.
  - intros Hin. specialize (Hc (w_nextChan w) ltac:(set_solver)). lia.
  - intros c [->%elem_of_singleton|Hin]%elem_of_union; [lia|].
    specialize (Hc c ltac:(set_solver)). lia.
Qed.

Lemma sub_pending_spec w d :
  0 < pending d < 2 ^ 64 → zero d ∉ w_closed w →
  ∃ w' d', sub_pending w d = Some w' ∧ w_drain w' = Some d' ∧
    pending d' = pending d - 1 ∧ closed d' = closed d ∧ zero d' = zero d ∧
    (zero d ∈ w_closed w' ↔ pending d' = 0) ∧
    w_closed w' ⊆ {[zero d]} ∪ w_closed w ∧
    w_nextChan w' = w_nextChan w ∧ w_tracked w' = w_tracked w ∧
    w_acts w' = w_acts w ∧ w_live w' = w_live w ∧ w_once w' = w_once w ∧
    w_nextPermit w' = w_nextPermit w ∧ w_maint w' = w_maint w.
Proof.
  intros Hp Hz. unfold sub_pending. simpl. rewrite u64_small by lia.
  case_decide as E; [rewrite decide_False by done|];
    do 2 eexists; (split; [done|]); simpl; split_and!; try done; set_solver.
Qed.

Section preservation.
Context (w : world) (d : drainTracker) (I : inv w d).

(** An operation that takes on one obligation: a tracked envelope or a permit. *)
Lemma inv_grow (T L M : gset nat) (n : nat) :
  pending d + 1 < 2 ^ 64 →
  (size T + size L = S (size (w_tracked w) + size (w_live w)))%nat →
  w_tracked w ⊆ T → w_once w ## L → M ⊆ L →
  (∀ p : nat, p ∈ L ∪ w_once w ∪ M → (p < n)%nat) →
  ∃ d', inv (World (w_drain (add_pending w d)) (w_closed w)
               (w_nextChan (add_pending w d)) T (w_acts w) L (w_once w) n M) d' ∧
    closed d' = closed d ∧ pending d' = pending d + 1 ∧
    (pending d ≠ 0 → zero d' = zero d).
Proof.
  intros Hr Hsz HT Honce HM Hp.
  destruct (add_pending_spec w d I Hr) as (d' & E & P & C & Z & Z' & Ch).
  exists d'. split; [|done]. destruct I as [H1 H2 H3 H4 H5 H6 H7 H8 H9 H10].
  split; simpl; try done; [lia|lia|split; [done|lia]|].
  intros a e ?%H6. set_solver.
Qed.

(** An operation that discharges one obligation. *)
Lemma inv_shrink (w1 : world) (d1 : drainTracker) :
  w_closed w1 = w_closed w → w_nextChan w1 = w_nextChan w →
  pending d1 = pending d → zero d1 = zero d → closed d1 = closed d →
  (S (size (w_tracked w1) + size (w_live w1)) = size (w_tracked w) + size (w_live w))%nat →
  (∀ a e, w_acts w1 !! a = Some (e, false) → e ∈ w_tracked w1) →
  (∀ p : nat, p ∈ w_live w1 ∪ w_once w1 ∪ w_maint w1 → (p < w_nextPermit w1)%nat) →
  w_once w1 ## w_live w1 → w_maint w1 ⊆ w_live w1 →
  (∀ a b e f g, w_acts w1 !! a = Some (e, f) → w_acts w1 !! b = Some (e, g) → a = b) →
  ∃ w' d', sub_pending w1 d1 = Some w' ∧ inv w' d' ∧
    closed d' = closed d ∧ pending d' = pending d - 1 ∧ zero d' = zero d.
Proof.
  intros Hc Hn Hp Hz Hcl Hsz Ha Hpm Ho Hm Hu.
  destruct I as [H1 H2 H3 H4 H5 H6 H7 H8 H9 H10].
  destruct (sub_pending_spec w1 d1) as
    (w' & d' & E & Ed & P' & C' & Z' & Zc & Sub & Nc & T' & A' & L' & O' & Np & M');
    [lia|rewrite Hz, Hc, H4; lia|].
  exists w', d'. rewrite Hz in Z', Zc, Sub. rewrite Hc in Sub.
  split_and!; [done| |congruence..].
  split; rewrite ?T', ?A', ?L', ?O', ?Np, ?M', ?Nc, ?Hn, ?Z'; try done; [lia|lia|].
  intros c Hin. apply H5. set_solver.
Qed.

Lemma admit_spec c env :
  pending d + 1 < 2 ^ 64 → env ∉ w_tracked w →
  let '(w', err) := trackAdmission w c env in
  (err = Some ErrMaintenance ∧ w' = w ∧ closed d = true) ∨
  (err = None ∧ ∃ d', inv w' d' ∧ closed d' = closed d ∧ pending d' = pending d + 1 ∧
     env ∈ w_tracked w' ∧ (pending d ≠ 0 → zero d' = zero d)).
Proof.
  intros Hr He. unfold trackAdmission. rewrite (inv_drain _ _ I).
  destruct (closed d) eqn:Ec; simpl;
    [destruct (negb _ && _); [by left|]|]; right; (split; [done|]).
  all: destruct (inv_grow ({[env]} ∪ w_tracked w) (w_live w) (w_maint w) (w_nextPermit w))
    as (d' & I' & C & P & Z); [done|rewrite size_add by done; lia|set_solver|apply I..|].
  all: exists d'; rewrite <-Ec; split_and!; try done; set_solver.
Qed.

Lemma permit_spec (M : gset nat) :
  pending d + 1 < 2 ^ 64 → M ⊆ {[w_nextPermit w]} ∪ w_maint w →
  ∃ d', inv (set_permits (add_pending w d) ({[w_nextPermit w]} ∪ w_live w)
               (w_once w) M (S (w_nextPermit w))) d' ∧
    closed d' = closed d ∧ pending d' = pending d + 1 ∧
    (pending d ≠ 0 → zero d' = zero d).
Proof.
  intros Hr HM. destruct I as [H1 H2 H3 H4 H5 H6 H7 H8 H9 H10].
  assert (∀ q, q ∈ w_live w ∪ w_once w → q ≠ w_nextPermit w) as Hne.
  { intros q Hq. specialize (H7 q ltac:(set_solver)). lia. }
  apply (inv_grow (w_tracked w)); [done|rewrite size_add; [lia|set_solver]|done|set_solver|set_solver|].
  intros p Hp. destruct (decide (p = w_nextPermit w)); [lia|].
  specialize (H7 p ltac:(set_solver)). lia.
Qed.

Lemma finishTracked_spec env act failed :
  (∀ a e f, w_acts w !! a = Some (e, f) → e = env ↔ act = Some a) →
  ∃ w' d', finishTracked w env act failed = Some w' ∧ inv w' d' ∧
    closed d' = closed d ∧ zero d' = zero d ∧ env ∉ w_tracked w' ∧
    pending d' = (if decide (env ∈ w_tracked w) then pending d - 1 else pending d).
Proof.
  intros Hact. unfold finishTracked. rewrite (inv_drain _ _ I).
  set (w1 := match act with Some a => _ | None => w end).
  assert (w_acts w1 = match act with
    | Some a => alter (λ '(e, _), (e, true)) a (w_acts w) | None => w_acts w end
    ∧ w1 = set_acts w (w_acts w1)) as [Ha Ew] by (subst w1; destruct act, w; done).
  assert (∀ a e, w_acts w1 !! a = Some (e, false) →
            w_acts w !! a = Some (e, false) ∧ e ≠ env) as Hacts.
  { intros a e. rewrite Ha. destruct act as [b|].
    - destruct (decide (a = b)) as [->|Hn].
      + rewrite lookup_alter_eq. destruct (w_acts w !! b) as [[]|]; naive_solver.
      + rewrite lookup_alter_ne by done. intros Hl. split; [done|].
        intros ->. pose proof (proj1 (Hact _ _ _ Hl) eq_refl). congruence.
    - intros Hl. split; [done|]. intros ->. by pose proof (proj1 (Hact _ _ _ Hl) eq_refl). }
  assert (∀ a e f, w_acts w1 !! a = Some (e, f) → ∃ g, w_acts w !! a = Some (e, g)) as Hsame.
  { intros a e f. rewrite Ha. destruct act as [b|]; [|eauto].
    destruct (decide (a = b)) as [->|]; [rewrite lookup_alter_eq|rewrite lookup_alter_ne by done; eauto].
    destruct (w_acts w !! b) as [[]|]; naive_solver. }
  assert (∀ a b e f g, w_acts w1 !! a = Some (e, f) → w_acts w1 !! b = Some (e, g) → a = b) as Hu.
  { intros a b e f g [? H1]%Hsame [? H2]%Hsame. by eapply (inv_uniq _ _ I). }
  rewrite Ew. simpl. clear Ew. case_decide as Hin.
  - destruct (inv_shrink
      (set_tracked (set_acts w (w_acts w1)) (w_tracked w ∖ {[env]}))
      (if failed then Tracker (closed d) (pending d) (failures d +u64 1)
                        (durableFailures d) (baseline d) (zero d) else d))
      as (w' & d' & E & I' & C & P & Z); try (by destruct failed); try apply I; try done.
    + simpl. rewrite (size_remove env (w_tracked w)) by done. lia.
    + intros a e [Hl Hne]%Hacts. simpl. apply (inv_acts _ _ I) in Hl. set_solver.
    + exists w', d'. split_and!; try done. 
      unfold sub_pending in E. repeat case_decide; simplify_eq; set_solver.
  - exists (set_acts w (w_acts w1)), d. split_and!; try done.
    destruct I; split; try done. simpl. intros a e [Hl _]%Hacts. eauto.
Qed.

Lemma finish_spec p failed :
  p ∈ w_live w ∪ w_once w → p ∉ w_maint w →
  ∃ w' d', Finish w (Some p) failed = Some w' ∧ inv w' d' ∧
    closed d' = closed d ∧ zero d' = zero d ∧ pending d' ≤ pending d.
Proof.
  intros Hp Hm. unfold Finish. case_decide as Ho.
  { exists w, d. done. }
  simpl. rewrite (inv_drain _ _ I).
  destruct (inv_shrink
    (set_permits w (w_live w ∖ {[p]}) ({[p]} ∪ w_once w) (w_maint w) (w_nextPermit w))
    (if failed then Tracker (closed d) (pending d) (failures d)
                      (durableFailures d +u64 1) (baseline d) (zero d) else d))
    as (w' & d' & E & I' & C & P & Z); try (by destruct failed); try done; simpl.
  - rewrite (size_remove p (w_live w)) by set_solver. lia.
  - apply I.
  - intros q Hq. apply (inv_permits _ _ I). set_solver.
  - pose proof (inv_once _ _ I). set_solver.
  - pose proof (inv_maint _ _ I). set_solver.
  - apply I.
  - exists w', d'. split_and!; try done. lia.
Qed.

Lemma maintenance_exit_spec p :
  p ∈ w_maint w →
  ∃ w' d', maintenance_exit w p = Some w' ∧ inv w' d' ∧
    closed d' = closed d ∧ zero d' = zero d ∧ pending d' = pending d - 1.
Proof.
  intros Hp. unfold maintenance_exit. rewrite (inv_drain _ _ I).
  pose proof (inv_maint _ _ I) as Hm.
  destruct (inv_shrink
    (set_permits w (w_live w ∖ {[p]}) (w_once w) (w_maint w ∖ {[p]}) (w_nextPermit w)) d)
    as (w' & d' & E & I' & C & P & Z); try done; simpl.
  - rewrite (size_remove p (w_live w)) by set_solver. lia.
  - apply I.
  - intros q Hq. apply (inv_permits _ _ I). set_solver.
  - pose proof (inv_once _ _ I). set_solver.
  - set_solver.
  - apply I.
  - exists w', d'. done.
Qed.

(** With nothing outstanding, no context is internal and no permit is live. *)
Lemma drained_empty :
  pending d = 0 → w_tracked w = ∅ ∧ w_live w = ∅ ∧
  ∀ c, internal w c = false ∧ permitted w c = false.
Proof.
  intros H0. rewrite (inv_pending _ _ I) in H0.
  assert (w_tracked w = ∅ ∧ w_live w = ∅) as [Ht Hl]
    by (split; apply leibniz_equiv, size_empty_inv; lia).
  split_and!; [done..|]. intros [a p]. unfold internal, permitted. simpl. split.
  - destruct a as [a|]; [|done]. destruct (w_acts w !! a) as [[e []]|] eqn:E; [done| |done].
    apply (inv_acts _ _ I) in E. set_solver.
  - destruct p; [|done]. rewrite Hl. by apply bool_decide_eq_false; set_solver.
Qed.

(** Every step keeps the invariant; while admission is closed, no quiet step
    revives an empty tracker or replaces the zero channel. *)
Lemma step_spec l w' :
  step w l w' →
  ∃ d', inv w' d' ∧
    (quiet l → closed d = true →
     closed d' = true ∧ zero d' = zero d ∧ (pending d = 0 → pending d' = 0)).
Proof.
  pose proof (inv_drain _ _ I) as Hd. destruct 1 as
    [c env w' err Hr He Hu E|a env Ha He Hu|env act failed w' Hact E|w' r Hr E
    |p failed w' Hp Hm E|w' z E|w' p Hr E|p w' Hp E|].
  - pose proof (admit_spec c env (Hr _ Hd) He) as H. rewrite E in H.
    destruct H as [(-> & -> & _)|(-> & d' & I' & C & P & _ & Z)]; [by exists d|].
    exists d'. split; [done|]. intros _ Hcl. unfold trackAdmission in E.
    rewrite Hd, Hcl in E. destruct (decide (pending d = 0)) as [H0|H0].
    + destruct (drained_empty H0) as (_ & _ & Hc). destruct (Hc c) as [Hi Hp].
      by rewrite Hi, Hp in E.
    + rewrite C, Z by done. split_and!; [done..|lia].
  - exists d. split; [|done]. destruct I; split; try done; simpl.
    + intros b e. rewrite lookup_insert. case_decide; [intros [= <-]; done|eauto].
    + intros b c e f g. rewrite !lookup_insert. repeat case_decide; intros; simplify_eq; eauto;
        exfalso; by eapply Hu.
  - destruct (finishTracked_spec env act failed Hact) as (w2 & d' & E' & I' & C & Z & _ & P).
    rewrite E in E'. simplify_eq. exists d'. split; [done|]. intros _ Hcl.
    split_and!; [congruence|done|]. intros H0. rewrite P, decide_False; [done|].
    destruct (drained_empty H0) as [-> _]. set_solver.
  - unfold ReserveWork in E. rewrite Hd in E. destruct (closed d) eqn:Hcl; simpl in E.
    + case_bool_decide as H0; simplify_eq; [by exists d|].
      destruct (permit_spec (w_maint w) (Hr _ Hd)) as (d' & I' & C & P & Z); [set_solver|].
      exists d'. split; [done|]. intros _ _. rewrite C, Z, Hcl by done. split_and!; [done..|lia].
    + simplify_eq. destruct (permit_spec (w_maint w) (Hr _ Hd)) as (d' & I' & C & P & Z);
        [set_solver|]. exists d'. done.
  - destruct (finish_spec p failed Hp Hm) as (w2 & d' & E' & I' & C & Z & P).
    rewrite E in E'. simplify_eq. exists d'. split; [done|]. intros _ Hcl.
    pose proof (inv_pending _ _ I'). split_and!; [congruence|done|lia].
  - unfold drain_begin in E. rewrite Hd in E. simplify_eq.
    destruct (closed d) eqn:Hcl; [exists d|eexists]; (split; [|done]);
      destruct I; split; done.
  - unfold maintenance_enter in E. rewrite Hd in E. simplify_eq.
    destruct (permit_spec ({[w_nextPermit w]} ∪ w_maint w) (Hr _ Hd))
      as (d' & I' & _); [done|]. exists d'. split; [done|]. by intros [].
  - destruct (maintenance_exit_spec p Hp) as (w2 & d' & E' & I' & C & Z & P).
    rewrite E in E'. simplify_eq. exists d'. split; [done|]. intros _ Hcl.
    pose proof (inv_pending _ _ I'). split_and!; [congruence|done|lia].
  - unfold ResumeAdmission. rewrite Hd. eexists. split; [destruct I; split; done|].
    by intros [].
Qed.

End preservation.

Lemma inv_new : inv (newWorld true) newDrainTracker.
Proof. split; try done; set_solver by lia. Qed.

Lemma inv_reachable w : reachable w → ∃ d, inv w d.
Proof.
  intros H. apply (rtc_ind_r (λ w, ∃ d, inv w d)) with (3 := H); [by eexists; apply inv_new|].
  intros w1 w2 _ [l Hs] [d I]. destruct (step_spec w1 d I l w2 Hs) as (d' & ? & _). eauto.
Qed.

(** A quiet execution after admission closed keeps it closed, keeps the zero
    channel and cannot leave the drained state. *)
Lemma quiet_exec w d w' :
  inv w d → closed d = true → rtc quiet_step w w' →
  ∃ d', inv w' d' ∧ closed d' = true ∧ zero d' = zero d ∧ (pending d = 0 → pending d' = 0).
Proof.
  intros I Hcl Hs. revert d I Hcl. induction Hs as [w|w1 w2 w3 (l & Hq & Hs) _ IH];
    intros d I Hcl; [by exists d|].
  destruct (step_spec w1 d I l w2 Hs) as (d2 & I2 & H2).
  destruct (H2 Hq Hcl) as (C2 & Z2 & P2).
  destruct (IH d2 I2 C2) as (d3 & I3 & C3 & Z3 & P3).
  exists d3. rewrite Z3. split_and!; auto.
Qed.

Lemma quiet_run_rtc w n w' : quiet_run w n w' → rtc quiet_step w w'.
Proof. induction 1 as [|n l w1 w2 _ IH Hq Hs]; [done|]. eapply rtc_r; [exact IH|]. by exists l. Qed.

Lemma quiet_run_app w n w1 m w2 :
  quiet_run w n w1 → quiet_run w1 m w2 → quiet_run w (n + m) w2.
Proof.
  intros H1. induction 1 as [|m l w2 w3 _ IH Hq Hs]; [by rewrite Z.add_0_r|].
  rewrite Z.add_assoc. by apply run_snoc.
Qed.

(** ** The report *)

(** The number [DrainState] reports, before its conversion to 64 bits. *)
Definition report (d : drainTracker) : Z := failures d - baseline d + durableFailures d.

Lemma u64_inner a b c : u64 (u64 a + b + c) = u64 (a + b + c).
Proof.
  unfold u64, wrapu. rewrite <-!Z.add_assoc. by rewrite Z.add_mod_idemp_l.
Qed.

Lemma sub_pending_report w d w' :
  sub_pending w d = Some w' → ∃ d', w_drain w' = Some d' ∧ report d' = report d.
Proof. unfold sub_pending. intros E. repeat case_decide; simplify_eq/=; by eexists. Qed.

Lemma step_report w d l w' :
  w_drain w = Some d → closed d = true → quiet l → step w l w' →
  ∃ d', w_drain w' = Some d' ∧ u64 (report d') = u64 (report d + charge w l).
Proof.
  intros Hd Hc [Hq1 Hq2]. destruct 1 as
    [c env w' err Hr He Hu E|a env Ha He Hu|env act failed w' Hact E|w' r Hr E
    |p failed w' Hp Hm E|w' z E|w' p Hr E|p w' Hp E|]; try done; simpl;
    rewrite ?Z.add_0_r.
  - unfold trackAdmission in E. rewrite Hd in E. case_match; simplify_eq; by eexists.
  - by exists d.
  - unfold finishTracked in E. rewrite Hd in E.
    assert (w_tracked (match act with Some a => set_acts w
      (alter (λ '(e, _), (e, true)) a (w_acts w)) | None => w end) = w_tracked w) as Ht
      by (by destruct act). rewrite Ht in E. case_decide as Hin; simplify_eq.
    + apply sub_pending_report in E as (d' & Hd' & HR). exists d'. split; [done|]. rewrite HR.
      unfold report. destruct failed; simpl; [|by rewrite Z.add_0_r].
      rewrite <-!Z.add_opp_r, u64_inner. f_equal. lia.
    + exists d. split; [by destruct act|]. destruct failed; by rewrite Z.add_0_r.
  - unfold ReserveWork in E. rewrite Hd in E. case_match; simplify_eq; by eexists.
  - unfold Finish in E. case_decide as Ho; simplify_eq;
      [exists d; destruct failed; by rewrite Z.add_0_r|].
    simpl in E. rewrite Hd in E. apply sub_pending_report in E as (d' & Hd' & HR).
    exists d'. split; [done|]. rewrite HR. unfold report. destruct failed; simpl; [|by rewrite Z.add_0_r].
    rewrite (Z.add_comm _ (u64 _)), <-(Z.add_0_r (u64 _ + _)), u64_inner. f_equal. lia.
  - unfold drain_begin in E. rewrite Hd, Hc in E. simplify_eq. by exists d.
  - unfold maintenance_exit in E. rewrite Hd in E.
    apply sub_pending_report in E as (d' & Hd' & HR). exists d'. by rewrite HR.
Qed.

Lemma run_report w d n w' :
  inv w d → closed d = true → quiet_run w n w' →
  ∃ d', w_drain w' = Some d' ∧ u64 (report d') = u64 (report d + n).
Proof.
  intros I Hc. induction 1 as [|n l w1 w2 Hrun (d1 & Hd1 & E1) Hq Hs].
  { exists d. rewrite Z.add_0_r. split; [apply I|done]. }
  destruct (quiet_exec _ _ _ I Hc (quiet_run_rtc _ _ _ Hrun)) as (d1' & I1 & C1 & _).
  rewrite (inv_drain _ _ I1) in Hd1. simplify_eq.
  destruct (step_report _ _ _ _ (inv_drain _ _ I1) C1 Hq Hs) as (d2 & Hd2 & E2).
  exists d2. split; [done|]. rewrite E2, Z.add_assoc.
  unfold u64, wrapu in *. by rewrite <-Z.add_mod_idemp_l, E1, Z.add_mod_idemp_l.
Qed.

(** ** Nothing keeps outstanding work from being finished *)

Lemma finish_one w d :
  inv w d → 0 < pending d →
  ∃ l w' d', quiet l ∧ step w l w' ∧ inv w' d' ∧ pending d' = pending d - 1.
Proof.
  intros I Hp. rewrite (inv_pending _ _ I) in Hp.
  destruct (decide (w_tracked w = ∅)) as [Ht|Ht].
  - assert (w_live w ≠ ∅) as [p Hin]%set_choose_L.
    { intros Hl. rewrite Ht, Hl, !size_empty in Hp. lia. }
    destruct (decide (p ∈ w_maint w)) as [Hm|Hm].
    + destruct (maintenance_exit_spec w d I p Hm) as (w' & d' & E & I' & _ & _ & P).
      exists (LMaintExit p), w', d'. split_and!; try done. by apply step_maint_exit.
    + destruct (finish_spec w d I p false) as (w' & d' & E & I' & _ & _ & P); [set_solver|done|].
      exists (LFinish p false), w', d'. assert (p ∉ w_once w) as Ho
        by (pose proof (inv_once _ _ I); set_solver).
      split_and!; try done; [apply step_finish; [set_solver|done|done]|].
      unfold Finish in E. rewrite decide_False in E by done. simpl in E.
      rewrite (inv_drain _ _ I) in E. unfold sub_pending in E. simpl in E.
      assert (pending d' = pending d -u64 1) as ->.
      { pose proof (inv_drain _ _ I') as Hd'. repeat case_decide; by simplify_eq/=. }
      apply u64_small. pose proof (inv_bound _ _ I). rewrite (inv_pending _ _ I) in *. lia.
  - apply set_choose_L in Ht as [e He].
    assert (∃ act : option nat, ∀ a e' f, w_acts w !! a = Some (e', f) → e' = e ↔ act = Some a)
      as [act Hact].
    { destruct (decide (map_Exists (λ (_ : nat) x, x.1 = e) (w_acts w))) as [(a & [e1 f] & Ha & E)|Hno].
      - simpl in E. subst e1. exists (Some a). intros b e' g Hb. split; [|by intros [= <-]; simplify_eq].
        intros ->. f_equal. by eapply (inv_uniq _ _ I).
      - exists None. intros b e' g Hb. split; [|done]. intros ->. exfalso. apply Hno.
        by exists b, (e, g). }
    destruct (finishTracked_spec w d I e act false Hact) as (w' & d' & E & I' & _ & _ & _ & P).
    exists (LFinishTracked e act false), w', d'. rewrite decide_True in P by done.
    split_and!; try done. by apply step_finishTracked.
Qed.

Lemma can_drain k : ∀ w d,
  inv w d → pending d = Z.of_nat k → ∃ n w' d', quiet_run w n w' ∧ inv w' d' ∧ pending d' = 0.
Proof.
  induction k as [|k IH]; intros w d I Hp; [exists 0, w, d; split_and!; [constructor|done|done]|].
  destruct (finish_one w d I) as (l & w1 & d1 & Hq & Hs & I1 & P1); [lia|].
  destruct (IH w1 d1 I1) as (n & w2 & d2 & Hr & I2 & P2); [lia|].
  exists (0 + charge w l + n), w2, d2. split_and!; try done.
  eapply quiet_run_app; [|done]. by eapply run_snoc; [constructor|..].
Qed.

(** A drain between its critical section and its return. *)
Lemma draining_run w d w0 z n w1 :
  inv w d → drain_begin w = Some (w0, z) → quiet_run w0 n w1 →
  (closed d = false → Failures (getDrainState w0) = u64 (durableFailures d)) ∧
  ∃ d1, inv w1 d1 ∧ closed d1 = true ∧ zero d1 = z ∧
    u64 (report d1) = u64 (Failures (getDrainState w0) + n).
Proof.
  intros I E Hs. destruct (step_spec w d I LDrain w0 (step_drain _ _ _ E)) as (d0 & I0 & _).
  unfold drain_begin in E. rewrite (inv_drain _ _ I) in E.
  assert (closed d0 = true ∧ zero d0 = z ∧ (closed d = false → report d0 = durableFailures d))
    as (C0 & <- & R0).
  { simplify_eq. pose proof (inv_drain _ _ I0) as H. simpl in H.
    destruct (closed d) eqn:?; simplify_eq; split_and!; try done. intros _. unfold report. simpl. lia. }
  destruct (quiet_exec _ _ _ I0 C0 (quiet_run_rtc _ _ _ Hs)) as (d1 & I1 & C1 & Z1 & P1).
  destruct (run_report _ _ _ _ I0 C0 Hs) as (d1' & Hd1 & R1).
  rewrite (inv_drain _ _ I1) in Hd1. injection Hd1 as ->.
  assert (Failures (getDrainState w0) = u64 (report d0)) as ->
    by (unfold getDrainState; by rewrite (inv_drain _ _ I0)).
  split; [intros Hc; by rewrite R0|]. exists d1'. split_and!; try done.
  rewrite R1. unfold u64, wrapu. by rewrite Z.add_mod_idemp_l.
Qed.

(** Sample worlds for the witnesses: one admitted envelope, and the same after
    [Drain] closed admission. *)
Definition ex_admitted : world := (trackAdmission (newWorld true) background 7).1.
Definition ex_draining : world :=
  match drain_begin ex_admitted with Some (w, _) => w | None => ex_admitted end.
Definition ex_drained : world :=
  match finishTracked ex_draining 7 None false with Some w => w | None => ex_draining end.

Lemma ex_admitted_reachable : reachable ex_admitted.
Proof.
  apply rtc_once. exists (LAdmit background 7).
  apply (step_admit _ _ _ _ None); [|set_solver|intros ???; set_solver|done].
  intros d [= <-]. simpl. lia.
Qed.

Lemma ex_drained_reachable : reachable ex_drained.
Proof.
  eapply rtc_r; [eapply rtc_r; [apply ex_admitted_reachable|]|].
  - exists LDrain. by apply (step_drain _ _ 1%nat).
  - exists (LFinishTracked 7 None false).
    by apply step_finishTracked; [intros ???; set_solver|].
Qed.

(** ** Properties *)

(** Invariant. In every reachable state of a drainable system the in-flight
    counter is exactly the number of tracked envelopes plus live permits, and
    the channel [Drain] waits on is closed exactly when that number is zero. *)
Theorem drain_accounting w :
  reachable w →
  ∃ d, w_drain w = Some d ∧
    pending d = Z.of_nat (size (w_tracked w) + size (w_live w)) ∧
    (zero d ∈ w_closed w ↔ pending d = 0).
Proof. intros [d I]%inv_reachable. exists d. split_and!; apply I. Qed.

Lemma drain_accounting_witness :
  ∃ d, w_drain ex_admitted = Some d ∧
    pending d = Z.of_nat (size (w_tracked ex_admitted) + size (w_live ex_admitted)) ∧
    (zero d ∈ w_closed ex_admitted ↔ pending d = 0).
Proof. apply (drain_accounting ex_admitted), ex_admitted_reachable. Defined.

(** Safety. No reachable state panics: finishing an envelope (any number of
    times, with its activation or without), finishing a reservation and leaving
    [MaintenanceWork] never close the zero channel twice and never take the
    unsigned counter below zero. *)
Theorem drain_no_panic w :
  reachable w →
  (∀ env act failed,
     (∀ a e f, w_acts w !! a = Some (e, f) → e = env ↔ act = Some a) →
     ∃ w' d', finishTracked w env act failed = Some w' ∧ w_drain w' = Some d' ∧ 0 ≤ pending d') ∧
  (∀ p failed, p ∈ w_live w ∪ w_once w → p ∉ w_maint w →
     ∃ w' d', Finish w (Some p) failed = Some w' ∧ w_drain w' = Some d' ∧ 0 ≤ pending d') ∧
  (∀ p, p ∈ w_maint w →
     ∃ w' d', maintenance_exit w p = Some w' ∧ w_drain w' = Some d' ∧ 0 ≤ pending d').
Proof.
  intros [d I]%inv_reachable.
  assert (∀ w' d', inv w' d' → w_drain w' = Some d' ∧ 0 ≤ pending d') as K.
  { intros w' d' I'. split; [apply I'|]. rewrite (inv_pending _ _ I'). lia. }
  split_and!.
  - intros env act failed H.
    destruct (finishTracked_spec w d I env act failed H) as (w' & d' & ? & ? & _). eauto 6.
  - intros p failed H1 H2.
    destruct (finish_spec w d I p failed H1 H2) as (w' & d' & ? & ? & _). eauto 6.
  - intros p H.
    destruct (maintenance_exit_spec w d I p H) as (w' & d' & ? & ? & _). eauto 6.
Qed.

Lemma drain_no_panic_witness :
  ∃ w' d', finishTracked ex_admitted 7 None false = Some w' ∧
    w_drain w' = Some d' ∧ 0 ≤ pending d'.
Proof.
  apply (drain_no_panic ex_admitted ex_admitted_reachable).
  intros a e f H. vm_compute in H. discriminate.
Defined.

(** C29 (maintenance drain). Between [Drain] closing admission and the next
    explicit [MaintenanceWork] or [ResumeAdmission], the channel [Drain] waits on is
    closed exactly when every admitted envelope has finished and every reservation
    has been handed off; whatever is outstanding can still be finished, so that
    the channel closes; and once closed it stays closed, with nothing in flight.
    The state then returned counts what is in flight exactly, its Failures are
    those at the start of the drain plus one for every envelope and reservation
    that failed since (modulo 2^64), a drain that newly closes admission starts
    from the failed reservations only, and [Drain] fails exactly when Failures is
    not zero. *)
Theorem drain_complete w d w0 z n w1 :
  reachable w → w_drain w = Some d → drain_begin w = Some (w0, z) → quiet_run w0 n w1 →
  (z ∈ w_closed w1 ↔ w_tracked w1 = ∅ ∧ w_live w1 = ∅) ∧
  (∃ m w2, quiet_run w1 m w2 ∧ z ∈ w_closed w2) ∧
  (z ∈ w_closed w1 → ∀ m w2, quiet_run w1 m w2 →
     z ∈ w_closed w2 ∧ InFlight (getDrainState w2) = 0) ∧
  getDrainState w1 = State true (Z.of_nat (size (w_tracked w1) + size (w_live w1)))
                       (u64 (Failures (getDrainState w0) + n)) ∧
  (closed d = false → Failures (getDrainState w0) = u64 (durableFailures d)) ∧
  drain_return w1 true =
    (getDrainState w1,
     if decide (u64 (Failures (getDrainState w0) + n) = 0) then None else Some ErrAdmittedFailed).
Proof.
  intros [d_ I]%inv_reachable Hd E Hs. rewrite (inv_drain _ _ I) in Hd. injection Hd as ->.
  destruct (draining_run w d w0 z n w1 I E Hs) as (R0 & d1 & I1 & C1 & Z1 & R1).
  assert (∀ m w2, quiet_run w1 m w2 → ∃ d2, inv w2 d2 ∧ zero d2 = z ∧
            (pending d1 = 0 → pending d2 = 0)) as Hlater.
  { intros m w2 Hm. destruct (quiet_exec _ _ _ I1 C1 (quiet_run_rtc _ _ _ Hm))
      as (d2 & I2 & _ & Z2 & P2). exists d2. split_and!; [done|congruence|done]. }
  assert (getDrainState w1 = State true (Z.of_nat (size (w_tracked w1) + size (w_live w1)))
                       (u64 (Failures (getDrainState w0) + n))) as G1.
  { unfold getDrainState at 1. rewrite (inv_drain _ _ I1), C1, (inv_pending _ _ I1).
    fold (report d1). by rewrite R1. }
  split_and!; [..|done|done|unfold drain_return; by rewrite G1].
  - rewrite <-Z1, (inv_zero _ _ I1). split.
    + intros H0. by destruct (drained_empty _ _ I1 H0) as (? & ? & _).
    + intros [Ht Hl]. by rewrite (inv_pending _ _ I1), Ht, Hl, !size_empty.
  - destruct (can_drain (Z.to_nat (pending d1)) w1 d1 I1) as (m & w2 & d2 & Hm & I2 & P2).
    { rewrite Z2Nat.id; [done|]. rewrite (inv_pending _ _ I1). lia. }
    exists m, w2. split; [done|]. destruct (Hlater m w2 Hm) as (d2' & I2' & Z2 & _).
    pose proof (inv_drain _ _ I2') as Hd2. rewrite (inv_drain _ _ I2) in Hd2. injection Hd2 as ->.
    rewrite <-Z2. by apply (inv_zero _ _ I2).
  - intros Hz m w2 Hm. rewrite <-Z1 in Hz. apply (inv_zero _ _ I1) in Hz.
    destruct (Hlater m w2 Hm) as (d2 & I2 & Z2 & P2). rewrite <-Z2, (inv_zero _ _ I2).
    unfold getDrainState. rewrite (inv_drain _ _ I2). split; by apply P2.
Qed.

(** One envelope was admitted before the drain; it failed. *)
Definition ex_failed : world :=
  match finishTracked ex_draining 7 None true with Some w => w | None => ex_draining end.

Lemma drain_complete_witness :
  drain_begin ex_admitted = Some (ex_draining, 1%nat) ∧ quiet_run ex_draining (0 + 1) ex_failed ∧
  drain_return ex_failed true = (getDrainState ex_failed, Some ErrAdmittedFailed).
Proof.
  assert (quiet_run ex_draining (0 + charge ex_draining (LFinishTracked 7 None true)) ex_failed)
    as Hr.
  { eapply run_snoc; [constructor|done|]. by apply step_finishTracked; [intros ???; set_solver|]. }
  split; [reflexivity|]. split; [exact Hr|].
  apply (drain_complete ex_admitted (Tracker false 1 0 0 0 1) ex_draining 1 _ ex_failed
           ex_admitted_reachable eq_refl eq_refl Hr).
Defined.

(** Error path. In a drained system every context is refused, whatever
    activation or permit it carries: [trackAdmission] and [ReserveWork] answer
    [ErrMaintenance] and change nothing. *)
Theorem drained_refuses w d c env :
  reachable w → w_drain w = Some d → closed d = true → pending d = 0 →
  trackAdmission w c env = (w, Some ErrMaintenance) ∧ ReserveWork w = (w, Err ErrMaintenance).
Proof.
  intros [d0 I]%inv_reachable Hd Hc H0.
  rewrite (inv_drain _ _ I) in Hd. simplify_eq.
  destruct (drained_empty _ _ I H0) as (_ & _ & Hx). destruct (Hx c) as [Hi Hp].
  unfold trackAdmission, ReserveWork. rewrite (inv_drain _ _ I), Hc, Hi, Hp, H0. done.
Qed.

Lemma drained_refuses_witness :
  trackAdmission ex_drained (Ctx (Some 3%nat) (Some 4%nat)) 9 = (ex_drained, Some ErrMaintenance) ∧
  ReserveWork ex_drained = (ex_drained, Err ErrMaintenance).
Proof.
  apply (drained_refuses ex_drained (Tracker true 0 0 0 0 1) _ 9 ex_drained_reachable);
    vm_compute; reflexivity.
Defined.

End Drain.
