(* ===== verification/Runtime.v ===== *)
(** * The event loop of one service (src/actor/system_runtime.go)

    [runtime] is the state of [serviceRuntime.run]: its local variables, the
    activations and envelopes they point to (pointers are identities) and the
    number of tokens in the buffered [slots] channel.  An operation returns
    [None] when the loop would block for ever on an empty [slots] channel or
    dereference an unknown activation.  What the loop does to the outside world
    is a list of [effect]s, newest first in a trace. *)

From S2P Require Import Prelude.

Module Runtime.

Inductive error :=
  | ErrServiceStopping
  | ErrRuntimeInvariant
  | ErrNotRunning
  | ErrSuspendLimit
  | ErrMailboxTimeout
  | ErrMailboxFull
  | ErrContextDone.

#[global] Instance error_eq_dec : EqDecision error.
Proof. solve_decision. Defined.

(** ** Service options *)

Record ServiceOptions := Options {
  MailboxSize : Z;
  MaxSuspended : Z;
  AdmissionTimeout : Z;
  CallTimeout : Z;
  ActiveWarn : Z;
  SuspendedWarn : Z;
  NoInterleave : bool;
}.

Definition default (v d : Z) : Z := if decide (v ≤ 0) then d else v.

Definition withDefaults (o : ServiceOptions) : ServiceOptions :=
  Options (default (MailboxSize o) 64) (default (MaxSuspended o) 1024)
    (default (AdmissionTimeout o) Second) (default (CallTimeout o) (5 * Second))
    (default (ActiveWarn o) (100 * Millisecond)) (default (SuspendedWarn o) (3 * Second))
    (NoInterleave o).

(** ** Data *)

Record serviceEnvelope := Envelope {
  session : Z;
  protocol : string;
  expectsResponse : bool;
  slotHeld : bool;
}.

Record serviceActivation := Activation {
  envelope : nat;
  started : bool;
  yieldAtSegment : Z;
  interleaveVersion : Z;
  label : string;
}.

Inductive runtimeEvent :=
  | eventEnqueue (env : nat)
  | eventYield (act : nat) (lbl : string)
  | eventResume (act : nat)
  | eventDone (act : nat).

(** What the select of the loop receives. *)
Inductive input :=
  | InServiceDone
  | InEvent (ev : runtimeEvent).

Inductive effect :=
  | FinishTracked (env : nat) (act : option nat) (failed : bool)
  | CompleteSession (session : Z) (err : error)
  | Execute (act : nat)
  | Grant (act : nat)
  | Accepted (act : nat) (err : option error).

Record runtime := RT {
  opts : ServiceOptions;
  current : option nat;
  ready : list nat;
  suspended : gset nat;
  segmentSeq : Z;
  stopping : bool;
  serviceDone : bool;
  done : bool;
  slots : nat;
  acts : gmap nat serviceActivation;
  nextAct : nat;
  envs : gmap nat serviceEnvelope;
}.

(** ** Field updates *)

Definition set_current (r : runtime) (c : option nat) : runtime :=
  RT (opts r) c (ready r) (suspended r) (segmentSeq r) (stopping r) (serviceDone r)
    (done r) (slots r) (acts r) (nextAct r) (envs r).
Definition set_ready (r : runtime) (l : list nat) : runtime :=
  RT (opts r) (current r) l (suspended r) (segmentSeq r) (stopping r) (serviceDone r)
    (done r) (slots r) (acts r) (nextAct r) (envs r).
Definition set_suspended (r : runtime) (s : gset nat) : runtime :=
  RT (opts r) (current r) (ready r) s (segmentSeq r) (stopping r) (serviceDone r)
    (done r) (slots r) (acts r) (nextAct r) (envs r).
Definition set_segmentSeq (r : runtime) (q : Z) : runtime :=
  RT (opts r) (current r) (ready r) (suspended r) q (stopping r) (serviceDone r)
    (done r) (slots r) (acts r) (nextAct r) (envs r).
Definition set_stopping (r : runtime) : runtime :=
  RT (opts r) (current r) (ready r) (suspended r) (segmentSeq r) true false
    (done r) (slots r) (acts r) (nextAct r) (envs r).
Definition set_done (r : runtime) : runtime :=
  RT (opts r) (current r) (ready r) (suspended r) (segmentSeq r) (stopping r)
    (serviceDone r) true (slots r) (acts r) (nextAct r) (envs r).
Definition set_slots (r : runtime) (n : nat) : runtime :=
  RT (opts r) (current r) (ready r) (suspended r) (segmentSeq r) (stopping r)
    (serviceDone r) (done r) n (acts r) (nextAct r) (envs r).
Definition set_act (r : runtime) (a : nat) (x : serviceActivation) : runtime :=
  RT (opts r) (current r) (ready r) (suspended r) (segmentSeq r) (stopping r)
    (serviceDone r) (done r) (slots r) (<[a := x]> (acts r)) (nextAct r) (envs r).
Definition set_env (r : runtime) (e : nat) (x : serviceEnvelope) : runtime :=
  RT (opts r) (current r) (ready r) (suspended r) (segmentSeq r) (stopping r)
    (serviceDone r) (done r) (slots r) (acts r) (nextAct r) (<[e := x]> (envs r)).

(** ** Operations of the loop *)

(** [newServiceRuntime] and the loop's initial variables. *)
Definition newServiceRuntime (o : ServiceOptions) : runtime :=
  RT o None [] ∅ 0 false true false 0 ∅ 0 ∅.

(** [if env.slotHeld { <-rt.slots; env.slotHeld = false }]. *)
Definition releaseSlot (r : runtime) (e : nat) (x : serviceEnvelope) : option runtime :=
  if slotHeld x then
    match slots r with
    | O => None
    | S n => Some (set_env (set_slots r n) e
                     (Envelope (session x) (protocol x) (expectsResponse x) false))
    end
  else Some r.

Definition finishPending (r : runtime) (e : nat) (act : option nat) (err : error)
    : option (runtime * list effect) :=
  match envs r !! e with
  | None => None
  | Some x =>
      r' ← releaseSlot r e x;
      Some (r', (if expectsResponse x then [CompleteSession (session x) err] else [])
                ++ [FinishTracked e act true])
  end.

Definition schedule (r : runtime) : option (runtime * list effect) :=
  match current r, ready r with
  | Some _, _ | None, [] => Some (r, [])
  | None, a :: rest =>
      x ← acts r !! a;
      let r1 := set_ready r rest in
      if stopping r && negb (started x)
      then finishPending r1 (envelope x) (Some a) ErrServiceStopping
      else
        ex ← envs r !! envelope x;
        r2 ← releaseSlot r1 (envelope x) ex;
        let v := if started x && bool_decide (segmentSeq r > yieldAtSegment x)
                 then interleaveVersion x +u64 1 else interleaveVersion x in
        let r3 := set_segmentSeq r2 (segmentSeq r +u64 1) in
        let r4 := set_current r3 (Some a) in
        let r5 := set_act r4 a (Activation (envelope x) true (yieldAtSegment x) v (label x)) in
        Some (r5, Grant a :: (if started x then [] else [Execute a]))
  end.

(** The service context was cancelled: every activation that has not started is
    answered, then the ready queue keeps only the started ones. *)
Fixpoint finishUnstarted (r : runtime) (l : list nat) : option (runtime * list effect) :=
  match l with
  | [] => Some (r, [])
  | a :: l' =>
      x ← acts r !! a;
      if started x then finishUnstarted r l'
      else
        '(r1, f1) ← finishPending r (envelope x) (Some a) ErrServiceStopping;
        '(r2, f2) ← finishUnstarted r1 l';
        Some (r2, f2 ++ f1)
  end.

Definition isStarted (r : runtime) (a : nat) : bool :=
  match acts r !! a with Some x => started x | None => false end.

Definition onServiceDone (r : runtime) : option (runtime * list effect) :=
  '(r1, f) ← finishUnstarted (set_stopping r) (ready r);
  Some (set_ready r1 (List.filter (isStarted r1) (ready r)), f).

Definition onEvent (r : runtime) (ev : runtimeEvent) : option (runtime * list effect) :=
  match ev with
  | eventEnqueue e =>
      if stopping r then finishPending r e None ErrServiceStopping
      else
        let a := nextAct r in
        Some (RT (opts r) (current r) (ready r ++ [a]) (suspended r) (segmentSeq r)
                (stopping r) (serviceDone r) (done r) (slots r)
                (<[a := Activation e false 0 0 ""]> (acts r)) (S a) (envs r), [])
  | eventYield a lbl =>
      if NoInterleave (opts r) then Some (r, [Accepted a (Some ErrRuntimeInvariant)])
      else if decide (current r ≠ Some a) then Some (r, [Accepted a (Some ErrNotRunning)])
      else if decide (Z.of_nat (size (suspended r)) >= MaxSuspended (opts r))
      then Some (r, [Accepted a (Some ErrSuspendLimit)])
      else
        x ← acts r !! a;
        Some (set_current
                (set_suspended
                   (set_act r a (Activation (envelope x) (started x) (segmentSeq r)
                                   (interleaveVersion x) lbl))
                   ({[a]} ∪ suspended r)) None,
              [Accepted a None])
  | eventResume a =>
      if decide (a ∈ suspended r)
      then Some (set_ready (set_suspended r (suspended r ∖ {[a]})) (ready r ++ [a]), [])
      else Some (r, [])
  | eventDone a =>
      let r1 := if decide (current r = Some a) then set_current r None else r in
      Some (set_suspended r1 (suspended r1 ∖ {[a]}), [])
  end.

(** The top of the loop: leave when stopping with nothing left, otherwise
    schedule. *)
Definition loopTop (r : runtime) : option (runtime * list effect) :=
  if stopping r && bool_decide (current r = None) && bool_decide (ready r = []) &&
     bool_decide (suspended r = ∅)
  then Some (set_done r, [])
  else schedule r.

(** One turn of the loop from the select on: handle what was received, then the
    top of the loop up to the next select.  [run] is [loopTop] followed by such
    turns. *)
Definition turn (r : runtime) (i : input) : option (runtime * list effect) :=
  '(r1, f1) ← match i with
              | InServiceDone => onServiceDone r
              | InEvent ev => onEvent r ev
              end;
  '(r2, f2) ← loopTop r1;
  Some (r2, f2 ++ f1).

(** ** Turn marks *)

Record turnMark := TurnMark { activation : option nat; version : Z }.

Definition loadVersion (r : runtime) (a : nat) : Z :=
  match acts r !! a with Some x => interleaveVersion x | None => 0 end.

(** The argument is [activationFromContext ctx]. *)
Definition MarkTurn (r : runtime) (act : option nat) : turnMark :=
  match act with
  | None => TurnMark None 0
  | Some a => TurnMark (Some a) (loadVersion r a)
  end.

Definition InterleavedSince (r : runtime) (act : option nat) (mark : turnMark) : bool :=
  match act with
  | None => false
  | Some a => bool_decide (activation mark = Some a) &&
              negb (bool_decide (loadVersion r a = version mark))
  end.

End Runtime.
