(* ===== verification/Service.v ===== *)
(** * A service as a whole: its event loop and the goroutines around it
    (src/actor/system_runtime.go)

    [Runtime] models the loop; this file adds who talks to it.  A caller that
    won a mailbox slot in [admit] or [tryAdmit] is [inflight] until its enqueue
    event is received; an activation's goroutine is in one of the phases of
    [execute] and [awaitActivationTyped].  The [events] channel is unbuffered,
    so an event is handled by the loop in the step in which it is sent. *)

From S2P Require Import Prelude Runtime.
Import Runtime.

Module Service.

(** Where the goroutine of an activation is. *)
Inductive phase :=
  | PQueued    (* created by an enqueue event, not granted yet *)
  | PRunning   (* granted: the handler runs *)
  | PWaiting   (* yield accepted: the wait function runs off the mailbox *)
  | PResuming  (* resume event sent, waiting for the grant *)
  | PRecovered (* the handler recovered a panic of its wait and goes on, although
                  the loop still has the activation suspended *)
  | PFinished  (* done event sent *)
  | PDropped.  (* answered by finishPending, never executed *)

#[global] Instance phase_eq_dec : EqDecision phase.
Proof. solve_decision. Defined.

Record service := Svc {
  rt : runtime;
  phases : gmap nat phase;
  inflight : gset nat;
  trace : list effect;
}.

(** What the loop's effects do to the goroutines. *)
Definition applyEffect (f : effect) (p : gmap nat phase) : gmap nat phase :=
  match f with
  | Grant a => <[a := PRunning]> p
  | Accepted a None => <[a := PWaiting]> p
  | FinishTracked _ (Some a) _ => <[a := PDropped]> p
  | _ => p
  end.

(** What sending the event does to the sender. *)
Definition sendPhase (r : runtime) (i : input) (p : gmap nat phase) : gmap nat phase :=
  match i with
  | InEvent (eventEnqueue _) => if stopping r then p else <[nextAct r := PQueued]> p
  | InEvent (eventResume a) => <[a := PResuming]> p
  | InEvent (eventDone a) => <[a := PFinished]> p
  | _ => p
  end.

Definition sendInflight (i : input) (f : gset nat) : gset nat :=
  match i with InEvent (eventEnqueue e) => f ∖ {[e]} | _ => f end.

(** Who may send which event: an inflight caller enqueues its envelope, a
    handler that runs (holding the service, or after recovering a panic of its
    wait) yields or finishes, a handler whose wait returned resumes and one whose
    wait panicked finishes (execute recovers), and the context's cancellation is
    received once. *)
Definition enabled (s : service) (i : input) : Prop :=
  match i with
  | InServiceDone => serviceDone (rt s) = true
  | InEvent (eventEnqueue e) => e ∈ inflight s
  | InEvent (eventYield a _) =>
      phases s !! a = Some PRunning ∨ phases s !! a = Some PRecovered
  | InEvent (eventResume a) => phases s !! a = Some PWaiting
  | InEvent (eventDone a) =>
      phases s !! a = Some PRunning ∨ phases s !! a = Some PWaiting ∨
      phases s !! a = Some PRecovered
  end.

Definition after (s : service) (i : input) (r : runtime) (fs : list effect) : service :=
  Svc r (foldr applyEffect (sendPhase (rt s) i (phases s)) fs)
    (sendInflight i (inflight s)) (fs ++ trace s).

Definition heldEnvelope (ses : Z) (proto : string) (exp : bool) : serviceEnvelope :=
  Envelope ses proto exp true.

Inductive step (s : service) : service → Prop :=
  (* the successful select branch of admit and tryAdmit *)
  | step_slot e ses proto exp :
      envs (rt s) !! e = None →
      Z.of_nat (slots (rt s)) < MailboxSize (opts (rt s)) →
      step s (Svc (set_env (set_slots (rt s) (S (slots (rt s)))) e
                     (heldEnvelope ses proto exp))
                (phases s) ({[e]} ∪ inflight s) (trace s))
  (* emit failed because the loop has returned: admit gives the slot back *)
  | step_emit_fail e x r' :
      e ∈ inflight s → done (rt s) = true → envs (rt s) !! e = Some x →
      releaseSlot (rt s) e x = Some r' →
      step s (Svc r' (phases s) (inflight s ∖ {[e]}) (trace s))
  (* wait panicked inside awaitActivationTyped, so that no resume event was sent,
     and the handler's own deferred function recovered *)
  | step_recover a :
      phases s !! a = Some PWaiting →
      step s (Svc (rt s) (<[a := PRecovered]> (phases s)) (inflight s) (trace s))
  (* one turn of the loop *)
  | step_turn i r' fs :
      done (rt s) = false → enabled s i → turn (rt s) i = Some (r', fs) →
      step s (after s i r' fs).

Definition init (o : ServiceOptions) : service :=
  Svc (newServiceRuntime (withDefaults o)) ∅ ∅ [].

Definition reachable (o : ServiceOptions) (s : service) : Prop := rtc step (init o) s.

(** ** Invariant *)

(** Activations of the ready queue that have not started: they hold a slot. *)
Definition unstarted (r : runtime) (l : list nat) : list nat :=
  List.filter (λ a, negb (isStarted r a)) l.

Record core (s : service) : Prop := {
  c_nodup : NoDup (ready (rt s));
  c_run : ∀ a, phases s !! a = Some PRunning ↔ current (rt s) = Some a;
  c_wait : ∀ a, phases s !! a = Some PWaiting ∨ phases s !! a = Some PRecovered ↔
    a ∈ suspended (rt s);
  c_ready : ∀ a, a ∈ ready (rt s) ↔
    phases s !! a = Some PQueued ∨ phases s !! a = Some PResuming;
  c_started : ∀ a x, acts (rt s) !! a = Some x →
    started x = false ↔ phases s !! a = Some PQueued ∨ phases s !! a = Some PDropped;
  c_dom : ∀ a, is_Some (phases s !! a) → is_Some (acts (rt s) !! a);
  c_next : ∀ a, is_Some (acts (rt s) !! a) → (a < nextAct (rt s))%nat;
  c_env : ∀ a x, acts (rt s) !! a = Some x →
    is_Some (envs (rt s) !! envelope x) ∧ envelope x ∉ inflight s;
  c_env_inj : ∀ a b x y, acts (rt s) !! a = Some x → acts (rt s) !! b = Some y →
    envelope x = envelope y → a = b;
  c_held : ∀ a x e, acts (rt s) !! a = Some x → envs (rt s) !! envelope x = Some e →
    slotHeld e = true ↔ phases s !! a = Some PQueued;
  c_inflight : ∀ e, e ∈ inflight s → ∃ x, envs (rt s) !! e = Some x ∧ slotHeld x = true;
  c_slots : slots (rt s) = (size (inflight s) + length (unstarted (rt s) (ready (rt s))))%nat;
  c_cap : Z.of_nat (slots (rt s)) ≤ MailboxSize (opts (rt s));
  c_stop : stopping (rt s) = true → ∀ a, phases s !! a ≠ Some PQueued;
  c_done : done (rt s) = true → stopping (rt s) = true ∧ current (rt s) = None ∧
    ready (rt s) = [] ∧ suspended (rt s) = ∅;
  c_noint : NoInterleave (opts (rt s)) = true → suspended (rt s) = ∅;
  c_max : Z.of_nat (size (suspended (rt s))) ≤ MaxSuspended (opts (rt s));
  c_listen : serviceDone (rt s) = negb (stopping (rt s));
}.

(** At a select: a free service has nothing ready, and a stopping one that has
    not returned still has an activation alive. *)
Record rest (s : service) : Prop := {
  r_busy : done (rt s) = false → current (rt s) = None → ready (rt s) = [];
  r_alive : done (rt s) = false → stopping (rt s) = true →
    current (rt s) ≠ None ∨ suspended (rt s) ≠ ∅;
}.

Definition wf (s : service) : Prop := core s ∧ rest s.

(** ** Lemmas *)

Lemma default_pos v d : 0 < d → 0 < default v d.
Proof. unfold default. case_decide; lia. Qed.

Lemma wf_init o : wf (init o).
Proof.
  split; split; simpl; try done; try (intros; set_solver).
  - constructor.
  - by intros a [? ?].
  - by intros a [? ?].
  - pose proof (default_pos (MailboxSize o) 64 ltac:(lia)). lia.
  - pose proof (default_pos (MaxSuspended o) 1024 ltac:(lia)).
    change (Z.of_nat (size (∅ : gset nat)) ≤ default (MaxSuspended o) 1024).
    rewrite size_empty. lia.
Qed.

Lemma unstarted_cons r a l :
  unstarted r (a :: l) = (if isStarted r a then [] else [a]) ++ unstarted r l.
Proof. unfold unstarted. simpl. by destruct (isStarted r a). Qed.

Lemma unstarted_app r l k : unstarted r (l ++ k) = unstarted r l ++ unstarted r k.
Proof. apply List.filter_app. Qed.

Lemma unstarted_ext r r' l :
  (∀ a, a ∈ l → isStarted r a = isStarted r' a) → unstarted r l = unstarted r' l.
Proof.
  induction l as [|a l IH]; intros H; [done|]. rewrite !unstarted_cons, H, IH; set_solver.
Qed.

Lemma elem_of_unstarted r l a : a ∈ unstarted r l ↔ a ∈ l ∧ isStarted r a = false.
Proof.
  unfold unstarted. rewrite !list_elem_of_In, List.filter_In, negb_true_iff. done.
Qed.

Lemma isStarted_phase s a :
  core s → a ∈ ready (rt s) →
  isStarted (rt s) a = bool_decide (phases s !! a = Some PResuming).
Proof.
  intros C Ha. apply (c_ready _ C) in Ha. unfold isStarted.
  destruct (c_dom _ C a) as [x Hx]; [destruct Ha as [->| ->]; eauto|]. rewrite Hx.
  pose proof (c_started _ C a x Hx). destruct (started x), Ha as [E|E];
    rewrite E in *; (case_bool_decide; [naive_solver|naive_solver]).
Qed.

(** The scheduled activation: the head of the ready queue, its slot returned if
    it was waiting for its first grant. *)
Lemma schedule_grants s a l :
  core s → current (rt s) = None → ready (rt s) = a :: l →
  ∃ x ex n, acts (rt s) !! a = Some x ∧ envs (rt s) !! envelope x = Some ex ∧
    started x = bool_decide (phases s !! a = Some PResuming) ∧
    slots (rt s) = (if started x then n else S n) ∧
    schedule (rt s) = Some
      (RT (opts (rt s)) (Some a) l (suspended (rt s)) (segmentSeq (rt s) +u64 1)
         (stopping (rt s)) (serviceDone (rt s)) (done (rt s)) n
         (<[a := Activation (envelope x) true (yieldAtSegment x)
              (if started x && bool_decide (segmentSeq (rt s) > yieldAtSegment x)
               then interleaveVersion x +u64 1 else interleaveVersion x) (label x)]> (acts (rt s)))
         (nextAct (rt s))
         (if started x then envs (rt s)
          else <[envelope x := Envelope (session ex) (protocol ex) (expectsResponse ex) false]>
                 (envs (rt s))),
       Grant a :: (if started x then [] else [Execute a])).
Proof.
  intros C Hc Hr.
  assert (a ∈ ready (rt s)) as Ha by (rewrite Hr; set_solver).
  pose proof (isStarted_phase s a C Ha) as Hst.
  apply (c_ready _ C) in Ha as Hph.
  destruct (c_dom _ C a) as [x Hx]; [destruct Hph as [->| ->]; eauto|].
  destruct (c_env _ C a x Hx) as [[ex Hex] _].
  pose proof (c_held _ C a x ex Hx Hex) as Hheld.
  unfold isStarted in Hst. rewrite Hx in Hst.
  assert (∃ n, slots (rt s) = (if started x then n else S n)) as [n Hn].
  { destruct (started x) eqn:E; [eauto|]. pose proof (c_slots _ C) as Hs.
    rewrite Hr, unstarted_cons in Hs. unfold isStarted in Hs. rewrite Hx, E in Hs.
    simpl in Hs. exists (pred (slots (rt s))). lia. }
  exists x, ex, n. split_and!; try done. unfold schedule. rewrite Hc, Hr, Hx. simpl.
  rewrite Hex. simpl. unfold releaseSlot. destruct (started x) eqn:E; simpl.
  - rewrite andb_false_r. replace (slotHeld ex) with false; [by rewrite <-Hn|].
    symmetry. apply not_true_is_false. intros ?%Hheld. symmetry in Hst.
    apply bool_decide_eq_true in Hst. congruence.
  - assert (phases s !! a = Some PQueued) as Hq.
    { symmetry in Hst. apply bool_decide_eq_false in Hst. tauto. }
    assert (stopping (rt s) = false) as Hstop.
    { apply not_true_is_false. intros Hs. by apply (c_stop _ C Hs a). }
    rewrite Hstop, (proj2 Hheld Hq). simpl. rewrite Hn.
    unfold set_act, set_current, set_segmentSeq, set_env, set_slots, set_ready. simpl.
    by rewrite Hstop.
Qed.

(** Case split on the key of an insertion. *)
Ltac ins a b :=
  destruct (decide (a = b)) as [->|];
  [rewrite ?lookup_insert_eq in *|rewrite ?lookup_insert_ne in * by done].

Lemma isStarted_insert_ne (r r' : runtime) a x l :
  acts r' = <[a := x]> (acts r) → a ∉ l → unstarted r' l = unstarted r l.
Proof.
  intros E Ha. apply unstarted_ext. intros b Hb. unfold isStarted. rewrite E.
  by rewrite lookup_insert_ne by (intros ->; done).
Qed.

Definition put (s : service) (rf : runtime * list effect) : service :=
  Svc rf.1 (foldr applyEffect (phases s) rf.2) (inflight s) (rf.2 ++ trace s).

Lemma schedule_core s a l rf :
  core s → done (rt s) = false → current (rt s) = None → ready (rt s) = a :: l →
  schedule (rt s) = Some rf → core (put s rf).
Proof.
  intros C Hd Hc Hr E.
  destruct (schedule_grants s a l C Hc Hr) as (x & ex & n & Hx & Hex & Hst & Hn & E').
  rewrite E in E'. injection E' as ->. clear E.
  set (y := Activation _ true _ _ _).
  assert (foldr applyEffect (phases s) (Grant a :: (if started x then [] else [Execute a]))
          = <[a := PRunning]> (phases s)) as Hp by (by destruct (started x)).
  unfold put. cbn [fst snd]. rewrite Hp.
  pose proof (c_nodup _ C) as Hnd. rewrite Hr in Hnd. apply NoDup_cons in Hnd as [Hal Hnd].
  assert (phases s !! a = Some PQueued ∨ phases s !! a = Some PResuming) as Hpa
    by (apply (c_ready _ C); rewrite Hr; set_solver).
  assert (∀ b z, acts (rt s) !! b = Some z → b ≠ a → envelope z ≠ envelope x) as Hinj
    by (intros b z Hz Hne Heq; by pose proof (c_env_inj _ C b a z x Hz Hx Heq)).
  split; cbn -[unstarted].
  - done.
  - intros b. ins b a; [done|]. rewrite (c_run _ C), Hc. naive_solver.
  - intros b. ins b a; [|apply C]. split; [naive_solver|]. intros Hs%(c_wait _ C). naive_solver.
  - intros b. ins b a; [naive_solver|]. rewrite <-(c_ready _ C), Hr. set_solver.
  - intros b z. ins b a; [intros [= <-]; naive_solver|apply C].
  - intros b. ins b a; [eauto|apply C].
  - intros b. ins b a; [|apply C]. intros _. apply (c_next _ C). eauto.
  - intros b z Hz. assert (is_Some (envs (rt s) !! envelope z) ∧ envelope z ∉ inflight s) as [H1 H2].
    { ins b a; [simplify_eq; apply (c_env _ C a x Hx)|apply (c_env _ C b z Hz)]. }
    split; [|done]. destruct (started x); [done|].
    destruct (decide (envelope z = envelope x)) as [->|]; simplify_map_eq; eauto.
  - intros b c z1 z2. ins b a; ins c a; try done; intros; simplify_eq;
      [exfalso; by eapply Hinj|exfalso; by eapply Hinj|by eapply (c_env_inj _ C)].
  - intros b z e Hz He. ins b a.
    + injection Hz as <-. cbn in He. destruct (started x) eqn:Ex; [|by simplify_map_eq].
      rewrite (c_held _ C a x e Hx He). case_bool_decide; naive_solver.
    + destruct (started x); [by apply (c_held _ C b z)|].
      rewrite lookup_insert_ne in He by (apply not_eq_sym; by eapply Hinj).
      by apply (c_held _ C b z).
  - intros e He. destruct (c_inflight _ C e He) as (z & Hz & Hh). exists z. split; [|done].
    destruct (started x); [done|]. rewrite lookup_insert_ne; [done|].
    intros <-. by apply (c_env _ C a x Hx).
  - erewrite (isStarted_insert_ne (rt s) _ a y l) by done.
    pose proof (c_slots _ C) as Hs. rewrite Hr, unstarted_cons, length_app in Hs.
    unfold isStarted in Hs at 1. rewrite Hx in Hs. destruct (started x); simpl in Hs; lia.
  - pose proof (c_cap _ C). destruct (started x); lia.
  - intros Hs b. ins b a; [done|]. by apply (c_stop _ C).
  - congruence.
  - apply C.
  - apply C.
  - apply C.
Qed.

Lemma loopTop_wf s :
  core s → done (rt s) = false → ∃ rf, loopTop (rt s) = Some rf ∧ wf (put s rf).
Proof.
  intros C Hd. unfold loopTop.
  destruct (_ && bool_decide (suspended (rt s) = ∅)) eqn:Ex.
  - rewrite !andb_true_iff, !bool_decide_eq_true in Ex. destruct Ex as [[[Hs Hc] Hr] Hsp].
    eexists. split; [done|]. split; [|split; done].
    destruct C; split; try done.
  - destruct (current (rt s)) as [c|] eqn:Hc.
    { exists (rt s, []). unfold schedule. rewrite Hc. split; [done|].
      split; [by destruct C|]. split; cbn; rewrite Hc; [done|by left]. }
    destruct (ready (rt s)) as [|a l] eqn:Hr.
    { exists (rt s, []). unfold schedule. rewrite Hc, Hr. split; [done|].
      split; [by destruct C|]. split; cbn; [done|]. intros _ Hs. right.
      rewrite Hs in Ex. simpl in Ex. intros E. by rewrite E in Ex. }
    destruct (schedule_grants s a l C Hc Hr) as (x & ex & n & _ & _ & _ & _ & E).
    eexists. split; [done|]. split; [by eapply schedule_core|]. split; cbn; [done|by left].
Qed.

Lemma after_put s i r1 f1 rf :
  put (after s i r1 f1) rf = after s i rf.1 (rf.2 ++ f1).
Proof. unfold put, after. cbn. by rewrite foldr_app, app_assoc. Qed.

End Service.
