(* ===== verification/ServiceInv.v ===== *)
(** * The invariant of a service is kept by every step
    (src/actor/system_runtime.go)

    One lemma per input of the loop, then the steps of [Service.step]. *)

From S2P Require Import Prelude Runtime Service.
Import Runtime Service.

Module ServiceInv.

Lemma releaseSlot_fields r e x r' :
  releaseSlot r e x = Some r' →
  ∃ n es, r' = RT (opts r) (current r) (ready r) (suspended r) (segmentSeq r) (stopping r)
                 (serviceDone r) (done r) n (acts r) (nextAct r) es.
Proof.
  unfold releaseSlot. intros E. destruct (slotHeld x); [destruct (slots r); [done|]|];
    injection E as <-; [by do 2 eexists|exists (slots r), (envs r); by destruct r].
Qed.

Lemma finishPending_phases r e act err r' f :
  finishPending r e act err = Some (r', f) →
  ∀ p, foldr applyEffect p f = match act with Some a => <[a := PDropped]> p | None => p end.
Proof.
  unfold finishPending. destruct (envs r !! e) as [x|]; [|done].
  destruct (releaseSlot r e x) as [r1|] eqn:E1; [|done]. intros [= <- <-].
  by destruct (expectsResponse x), act.
Qed.

Lemma finishUnstarted_phases l : ∀ r r' f,
  finishUnstarted r l = Some (r', f) →
  ∀ p a, foldr applyEffect p f !! a =
    if decide (a ∈ unstarted r l) then Some PDropped else p !! a.
Proof.
  induction l as [|a l IH]; intros r r' f; cbn [finishUnstarted].
  { intros [= <- <-] p a. rewrite decide_False by set_solver. done. }
  destruct (acts r !! a) as [x|] eqn:Hx; [|done]. cbn [mbind option_bind].
  assert (isStarted r a = started x) as Hst by (unfold isStarted; by rewrite Hx).
  rewrite unstarted_cons, Hst. destruct (started x); [apply IH|].
  destruct (finishPending _ _ _ _) as [[r1 f1]|] eqn:E1; [|done].
  pose proof (finishPending_phases _ _ _ _ _ _ E1) as Hp. unfold finishPending in E1.
  destruct (envs r !! envelope x) as [ex|]; [|done].
  destruct (releaseSlot _ _ _) as [r2|] eqn:E2; [|done]. injection E1 as -> _.
  apply releaseSlot_fields in E2 as (n & es & ->). cbn [mbind option_bind].
  destruct (finishUnstarted _ l) as [[r3 f3]|] eqn:E3; [|done]. intros [= <- <-] p b.
  rewrite foldr_app, (IH _ _ _ E3), Hp. change (unstarted _ l) with (unstarted r l). simpl.
  destruct (decide (b = a)) as [->|Hba].
  - rewrite lookup_insert_eq, (decide_True (P := a ∈ a :: _)) by set_solver. by case_decide.
  - rewrite lookup_insert_ne by done. apply decide_ext. rewrite elem_of_cons. naive_solver.
Qed.

(** [finishUnstarted] answers every activation of the list that has not
    started, gives its slot back, and touches nothing else. *)
Lemma finishUnstarted_spec l : ∀ r k,
  NoDup l →
  (∀ a, a ∈ l → ∃ x ex, acts r !! a = Some x ∧ envs r !! envelope x = Some ex ∧
                        slotHeld ex = negb (started x)) →
  (∀ a b x y, acts r !! a = Some x → acts r !! b = Some y → envelope x = envelope y → a = b) →
  slots r = (k + length (unstarted r l))%nat →
  ∃ envs' f,
    finishUnstarted r l = Some
      (RT (opts r) (current r) (ready r) (suspended r) (segmentSeq r) (stopping r)
         (serviceDone r) (done r) k (acts r) (nextAct r) envs', f) ∧
    (∀ e, (∀ a x, a ∈ l → acts r !! a = Some x → envelope x ≠ e) → envs' !! e = envs r !! e) ∧
    (∀ a x, a ∈ l → acts r !! a = Some x →
       ∃ ex, envs' !! envelope x = Some ex ∧ slotHeld ex = false).
Proof.
  induction l as [|a l IH]; intros r k Hnd Hl Hinj Hs.
  { exists (envs r), []. split_and!; [|done|set_solver].
    cbn in Hs. rewrite Nat.add_0_r in Hs. rewrite <-Hs. by destruct r. }
  apply NoDup_cons in Hnd as [Hal Hnd].
  destruct (Hl a) as (x & ex & Hx & Hex & Hh); [set_solver|].
  assert (isStarted r a = started x) as Hst by (unfold isStarted; by rewrite Hx).
  assert (∀ b y, b ∈ l → acts r !! b = Some y → envelope y ≠ envelope x) as Hne.
  { intros b y Hb Hy He. by rewrite (Hinj b a y x Hy Hx He) in Hb. }
  rewrite unstarted_cons, Hst, length_app in Hs.
  simpl. rewrite Hx. simpl. destruct (started x).
  - destruct (IH r k) as (envs' & f & E & H1 & H2); [done|set_solver|done|done|].
    exists envs', f. split_and!; [done|..].
    + intros e He. apply H1. set_solver.
    + intros b y [->|Hb]%elem_of_cons Hy; [|by eapply H2]. rewrite Hx in Hy. injection Hy as <-.
      exists ex. rewrite H1; done.
  - simpl in Hs. unfold finishPending, releaseSlot. rewrite Hex, Hh. simpl.
    destruct (slots r) as [|n] eqn:Hn; [lia|]. simpl.
    set (r1 := set_env _ _ _).
    assert (∀ b y, b ∈ l → acts r !! b = Some y → envs r1 !! envelope y = envs r !! envelope y)
      as Henv.
    { intros b y Hb Hy. subst r1. cbn. by rewrite lookup_insert_ne by (apply not_eq_sym; eauto). }
    destruct (IH r1 k) as (envs' & f & E & H1 & H2); [done| |done| |].
    { intros b Hb. destruct (Hl b) as (y & ey & Hy & Hey & Hhy); [set_solver|].
      exists y, ey. split_and!; try done. by rewrite (Henv b). }
    { cbn -[unstarted]. change (unstarted r1 l) with (unstarted r l). lia. }
    rewrite E. simpl. do 2 eexists. split_and!; [done|..].
    + intros e He. rewrite H1 by set_solver. subst r1. cbn.
      rewrite lookup_insert_ne; [done|]. apply (He a x); [set_solver|done].
    + intros b y [->|Hb]%elem_of_cons Hy; [|by eapply H2]. rewrite Hx in Hy. injection Hy as <-.
      eexists. rewrite H1 by done. subst r1. cbn. by rewrite lookup_insert_eq.
Qed.

(** The loop's answer to each input keeps the core invariant. *)
Section events.
Context (s : service) (C : core s) (Hd : done (rt s) = false).

Lemma inflight_slot e :
  e ∈ inflight s →
  ∃ x n, envs (rt s) !! e = Some x ∧ slotHeld x = true ∧ slots (rt s) = S n ∧
    n = (size (inflight s ∖ {[e]}) + length (unstarted (rt s) (ready (rt s))))%nat ∧
    (∀ a y, acts (rt s) !! a = Some y → envelope y ≠ e).
Proof.
  intros He. destruct (c_inflight _ C e He) as (x & Hx & Hh).
  pose proof (c_slots _ C) as Hs. rewrite (size_remove e) in Hs by done.
  do 2 eexists. split_and!; [done..|exact Hs|done|].
  intros a y Hy <-. by apply (c_env _ C a y Hy).
Qed.

(** Taking an envelope out of the in-flight set and returning its slot. *)
Lemma drop_inflight_core e x n t :
  e ∈ inflight s → envs (rt s) !! e = Some x → slots (rt s) = S n →
  core (Svc (set_env (set_slots (rt s) n) e
               (Envelope (session x) (protocol x) (expectsResponse x) false))
          (phases s) (inflight s ∖ {[e]}) t).
Proof using C.
  clear Hd. intros He Hx Hn. destruct (inflight_slot e He) as (x' & n' & Hx' & _ & Hn' & Hsz & Hne).
  rewrite Hn in Hn'. simplify_eq. destruct C. split; cbn -[unstarted]; try done.
  - intros a y Hy. rewrite lookup_insert_ne by (apply not_eq_sym; eauto).
    destruct (c_env0 a y Hy). set_solver.
  - intros a y z Hy. rewrite lookup_insert_ne by (apply not_eq_sym; eauto). eauto.
  - intros e' He'. rewrite lookup_insert_ne by set_solver. apply c_inflight0. set_solver.
  - lia.
Qed.

Lemma enqueue_core e :
  e ∈ inflight s →
  ∃ r1 f1, onEvent (rt s) (eventEnqueue e) = Some (r1, f1) ∧ done r1 = false ∧
    core (after s (InEvent (eventEnqueue e)) r1 f1).
Proof.
  intros He. destruct (inflight_slot e He) as (x & n & Hx & Hh & Hn & Hsz & Hne).
  unfold onEvent, after, sendPhase, sendInflight. destruct (stopping (rt s)) eqn:Hs.
  - unfold finishPending, releaseSlot. rewrite Hx. simpl. rewrite Hh, Hn. simpl.
    do 2 eexists. split_and!; [done|done|]. rewrite foldr_app. simpl.
    replace (foldr _ _ _) with (phases s) by (by destruct (expectsResponse x)).
    by apply drop_inflight_core.
  - do 2 eexists. split_and!; [done|done|]. cbn -[unstarted].
    set (a := nextAct (rt s)).
    assert (acts (rt s) !! a = None) as Hfresh.
    { apply eq_None_not_Some. intros H%(c_next _ C). lia. }
    assert (phases s !! a = None) as Hpf.
    { apply eq_None_not_Some. intros [y Hy]%(c_dom _ C). congruence. }
    assert (a ∉ ready (rt s)) as Har by (intros H%(c_ready _ C); naive_solver).
    destruct C. split; cbn -[unstarted].
    + apply NoDup_app. split_and!; [done|set_solver|apply NoDup_singleton].
    + intros b. ins b a; [|apply c_run0]. split; [done|]. intros H%c_run0. naive_solver.
    + intros b. ins b a; [|apply c_wait0]. split; [naive_solver|]. intros H%c_wait0. naive_solver.
    + intros b. ins b a; [set_solver|]. rewrite <-c_ready0. set_solver.
    + intros b y. ins b a; [intros [= <-]; naive_solver|apply c_started0].
    + intros b. ins b a; [eauto|apply c_dom0].
    + intros b. ins b a; [lia|]. intros H%c_next0. lia.
    + intros b y. ins b a; [intros [= <-]; simpl; rewrite Hx; set_solver|].
      intros Hy. destruct (c_env0 b y Hy). set_solver.
    + intros b c y z. ins b a; ins c a; try done; intros; simplify_eq/=;
        [exfalso; by eapply Hne|exfalso; by eapply Hne|by eapply c_env_inj0].
    + intros b y z. ins b a; [intros [= <-]; simpl; rewrite Hx; naive_solver|eauto].
    + intros e' He'. apply c_inflight0. set_solver.
    + rewrite unstarted_app, length_app.
      erewrite isStarted_insert_ne by done. rewrite unstarted_cons. unfold isStarted.
      cbn. rewrite lookup_insert_eq. simpl. lia.
    + done.
    + congruence.
    + congruence.
    + done.
    + done.
    + by rewrite c_listen0, Hs.
Qed.

Lemma yield_core a lbl :
  phases s !! a = Some PRunning ∨ phases s !! a = Some PRecovered →
  ∃ r1 f1, onEvent (rt s) (eventYield a lbl) = Some (r1, f1) ∧ done r1 = false ∧
    core (after s (InEvent (eventYield a lbl)) r1 f1).
Proof.
  intros Hen. unfold onEvent, after. destruct (NoInterleave (opts (rt s))) eqn:Hni.
  { do 2 eexists. split_and!; [done|done|]. by destruct C. }
  case_decide as Hc; [do 2 eexists; split_and!; [done|done|]; by destruct C|].
  apply (c_run _ C) in Hc as Ha. case_decide as Hm.
  { do 2 eexists. split_and!; [done|done|]. by destruct C. }
  destruct (c_dom _ C a) as [x Hx]; [eauto|]. rewrite Hx. simpl.
  do 2 eexists. split_and!; [done|done|].
  assert (a ∉ ready (rt s)) as Har by (intros H%(c_ready _ C); naive_solver).
  assert (a ∉ suspended (rt s)) as Has by (intros H%(c_wait _ C); naive_solver).
  pose proof (c_started _ C a x Hx) as Hst.
  destruct C. split; cbn -[unstarted]; try done.
  - intros b. ins b a; [done|]. rewrite c_run0, Hc. naive_solver.
  - intros b. ins b a; [set_solver|]. rewrite c_wait0. set_solver.
  - intros b. ins b a; [naive_solver|]. apply c_ready0.
  - intros b y. ins b a; [intros [= <-]; simpl; naive_solver|apply c_started0].
  - intros b. ins b a; [eauto|apply c_dom0].
  - intros b. ins b a; [intros _; eauto|apply c_next0].
  - intros b y. ins b a; [intros [= <-]; apply (c_env0 a x Hx)|apply c_env0].
  - intros b c y z. ins b a; ins c a; try done; intros; simplify_eq/=.
    + by eapply (c_env_inj0 a c x z).
    + by eapply (c_env_inj0 b a y x).
    + by eapply c_env_inj0.
  - intros b y e. ins b a; [|apply c_held0].
    intros [= <-] He. rewrite (c_held0 a x e Hx He), Ha. naive_solver.
  - by erewrite isStarted_insert_ne by done.
  - intros Hs b. ins b a; [done|]. by apply c_stop0.
  - congruence.
  - congruence.
  - rewrite size_add by done. lia.
Qed.

Lemma resume_core a :
  phases s !! a = Some PWaiting →
  ∃ r1 f1, onEvent (rt s) (eventResume a) = Some (r1, f1) ∧ done r1 = false ∧
    core (after s (InEvent (eventResume a)) r1 f1).
Proof.
  intros Ha. pose proof (proj1 (c_wait _ C a) (or_introl Ha)) as Hs.
  unfold onEvent, after. rewrite decide_True by done.
  do 2 eexists. split_and!; [done|done|].
  assert (a ∉ ready (rt s)) as Har by (intros H%(c_ready _ C); naive_solver).
  destruct (c_dom _ C a) as [x Hx]; [eauto|].
  pose proof (c_started _ C a x Hx) as Hst.
  destruct C. split; cbn -[unstarted]; try done.
  - apply NoDup_app. split_and!; [done|set_solver|apply NoDup_singleton].
  - intros b. ins b a; [|apply c_run0]. split; [done|]. intros H%c_run0. naive_solver.
  - intros b. ins b a; [set_solver|]. rewrite c_wait0. set_solver.
  - intros b. ins b a; [set_solver|]. rewrite <-c_ready0. set_solver.
  - intros b y Hy. ins b a; [|by apply c_started0].
    pose proof (c_started0 a y Hy). naive_solver.
  - intros b. ins b a; [eauto|apply c_dom0].
  - intros b y e Hy He. ins b a; [|by apply (c_held0 b y)].
    rewrite (c_held0 a y e Hy He). naive_solver.
  - rewrite unstarted_app, length_app, unstarted_cons. unfold isStarted. cbn -[unstarted].
    rewrite Hx. destruct (started x) eqn:Ex; [simpl; rewrite c_slots0|exfalso; by destruct (proj1 Hst eq_refl); congruence].
    change (unstarted _ (ready (rt s))) with (unstarted (rt s) (ready (rt s))). simpl. lia.
  - intros Hst' b. ins b a; [done|]. by apply c_stop0.
  - congruence.
  - intros Hni. rewrite c_noint0 in Hs by done. set_solver.
  - pose proof (size_remove a _ Hs). lia.
Qed.

Lemma done_core a :
  phases s !! a = Some PRunning ∨ phases s !! a = Some PWaiting ∨
    phases s !! a = Some PRecovered →
  ∃ r1 f1, onEvent (rt s) (eventDone a) = Some (r1, f1) ∧ done r1 = false ∧
    core (after s (InEvent (eventDone a)) r1 f1).
Proof.
  intros Ha. unfold onEvent, after.
  do 2 eexists. split_and!; [done|by case_decide|].
  set (r1 := if decide _ then _ else _).
  assert (∀ b, b ≠ a → current r1 = Some b ↔ current (rt s) = Some b) as Hcur.
  { intros b Hb. subst r1. case_decide as Hc; [|done]. rewrite Hc. naive_solver. }
  assert (current r1 ≠ Some a) as Hca by (subst r1; by case_decide).
  assert (r1 = set_current (rt s) (current r1)) as Hr1.
  { subst r1. case_decide; [done|]. by destruct (rt s). }
  clearbody r1. rewrite Hr1.
  destruct C. split; cbn -[unstarted]; try done.
  - intros b. ins b a; [naive_solver|]. by rewrite c_run0, Hcur.
  - intros b. ins b a; [set_solver|]. rewrite c_wait0. set_solver.
  - intros b. ins b a; [|apply c_ready0]. rewrite c_ready0. naive_solver.
  - intros b y Hy. ins b a; [|by apply c_started0].
    pose proof (c_started0 a y Hy). naive_solver.
  - intros b. ins b a; [|apply c_dom0]. intros _. apply c_dom0. destruct Ha as [->|[->| ->]]; eauto.
  - intros b y e Hy He. ins b a; [|by apply (c_held0 b y)].
    rewrite (c_held0 a y e Hy He). naive_solver.
  - intros Hst' b. ins b a; [done|]. by apply c_stop0.
  - congruence.
  - intros Hni. rewrite c_noint0 by done. set_solver.
  - assert (size (suspended (rt s) ∖ {[a]}) ≤ size (suspended (rt s)))%nat
      by (apply subseteq_size; set_solver). lia.
Qed.

Lemma ready_slot a :
  a ∈ ready (rt s) →
  ∃ x ex, acts (rt s) !! a = Some x ∧ envs (rt s) !! envelope x = Some ex ∧
          slotHeld ex = negb (started x).
Proof.
  intros Ha. pose proof (isStarted_phase s a C Ha) as Hst. apply (c_ready _ C) in Ha.
  destruct (c_dom _ C a) as [x Hx]; [destruct Ha as [->| ->]; eauto|].
  destruct (c_env _ C a x Hx) as [[ex Hex] _]. exists x, ex. split_and!; [done..|].
  unfold isStarted in Hst. rewrite Hx in Hst. pose proof (c_held _ C a x ex Hx Hex) as Hh.
  destruct (slotHeld ex), (started x); try done; symmetry in Hst; exfalso;
    [apply bool_decide_eq_true in Hst|apply bool_decide_eq_false in Hst]; naive_solver.
Qed.

Lemma unstarted_queued a :
  a ∈ unstarted (rt s) (ready (rt s)) ↔ phases s !! a = Some PQueued.
Proof.
  rewrite elem_of_unstarted. split.
  - intros [Ha Hst]. rewrite (isStarted_phase s a C Ha) in Hst.
    apply bool_decide_eq_false in Hst. apply (c_ready _ C) in Ha. naive_solver.
  - intros Hq. assert (a ∈ ready (rt s)) as Ha by (apply (c_ready _ C); auto).
    split; [done|]. rewrite (isStarted_phase s a C Ha). apply bool_decide_eq_false. congruence.
Qed.

Lemma started_resuming a :
  a ∈ List.filter (isStarted (rt s)) (ready (rt s)) ↔ phases s !! a = Some PResuming.
Proof.
  rewrite list_elem_of_In, List.filter_In, <-list_elem_of_In, (c_ready _ C). split.
  - intros [Ha Hst]. rewrite (isStarted_phase s a C) in Hst by (by apply (c_ready _ C)).
    by apply bool_decide_eq_true in Hst.
  - intros Ha. split; [by right|]. rewrite (isStarted_phase s a C) by (apply (c_ready _ C); auto).
    by apply bool_decide_eq_true.
Qed.

Lemma serviceDone_core :
  serviceDone (rt s) = true →
  ∃ r1 f1, onServiceDone (rt s) = Some (r1, f1) ∧ done r1 = false ∧
    core (after s InServiceDone r1 f1).
Proof.
  intros Hsd.
  destruct (finishUnstarted_spec (ready (rt s)) (set_stopping (rt s)) (size (inflight s)))
    as (envs' & f & E & H1 & H2).
  { apply C. }
  { apply ready_slot. }
  { apply C. }
  { apply (c_slots _ C). }
  pose proof (finishUnstarted_phases _ _ _ _ E) as H3.
  unfold onServiceDone, after. rewrite E. simpl. do 2 eexists. split_and!; [done|done|].
  set (r1 := set_ready _ _). change (unstarted (set_stopping (rt s))) with (unstarted (rt s)) in H3.
  assert (∀ a ph, foldr applyEffect (phases s) f !! a = Some ph ↔
    (phases s !! a = Some PQueued ∧ ph = PDropped) ∨
    (phases s !! a ≠ Some PQueued ∧ phases s !! a = Some ph)) as Hp.
  { intros a ph. rewrite H3. case_decide as Hd'; rewrite unstarted_queued in Hd'; naive_solver. }
  assert (∀ a, a ∈ ready r1 ↔ phases s !! a = Some PResuming) as Hr1.
  { intros a. apply started_resuming. }
  assert (∀ a, foldr applyEffect (phases s) f !! a ≠ Some PQueued) as Hq
    by (intros a; rewrite Hp; naive_solver).
  assert (∀ a, foldr applyEffect (phases s) f !! a = Some PDropped ↔
    phases s !! a = Some PQueued ∨ phases s !! a = Some PDropped) as Hdr.
  { intros a. rewrite Hp. destruct (decide (phases s !! a = Some PQueued)); naive_solver. }
  assert (∀ a ph, ph ≠ PQueued → ph ≠ PDropped →
    foldr applyEffect (phases s) f !! a = Some ph ↔ phases s !! a = Some ph) as Hsame
    by (intros a ph ? ?; rewrite Hp; naive_solver).
  destruct C. split; rewrite ?Hsd; try done.
  - apply NoDup_ListNoDup, List.NoDup_filter. by apply NoDup_ListNoDup.
  - intros a. cbn [phases rt]. rewrite Hsame by done. done.
  - intros a. cbn [phases rt]. rewrite !Hsame by done. done.
  - intros a. cbn [phases rt]. rewrite Hr1, (Hsame a PResuming) by done. specialize (Hq a). tauto.
  - intros a x Hx. cbn [phases rt] in *. rewrite Hdr, (c_started0 a x Hx). specialize (Hq a). tauto.
  - intros a [ph [[Hqa _]|[_ Hph]]%Hp]; cbn [phases rt] in *; apply c_dom0; eauto.
  - intros a x Hx. destruct (c_env0 a x Hx) as [He Hni]. split; [|done]. cbn [rt r1 set_ready envs].
    destruct (decide (a ∈ ready (rt s))) as [Ha|Ha]; [destruct (H2 a x Ha Hx) as (? & -> & _); eauto|].
    rewrite H1; [done|]. intros b y Hb Hy Hey. by rewrite (c_env_inj0 b a y x Hy Hx Hey) in Hb.
  - intros a x e Hx He. cbn [phases rt] in *. rewrite Hp.
    destruct (decide (a ∈ ready (rt s))) as [Ha|Ha].
    + destruct (H2 a x Ha Hx) as (e' & He' & Hh). assert (e = e') as -> by (cbn in He; congruence).
      rewrite Hh. split; [done|]. intros [[_ ?]|[? ?]]; done.
    + cbn in He. rewrite H1 in He.
      * rewrite (c_held0 a x e Hx He). rewrite c_ready0 in Ha. naive_solver.
      * intros b y Hb Hy Hey. by rewrite (c_env_inj0 b a y x Hy Hx Hey) in Hb.
  - intros e He. destruct (c_inflight0 e He) as (x & Hx & Hh). exists x. split; [|done].
    cbn [rt r1 set_ready envs]. rewrite H1; [done|].
    intros b y Hb Hy <-. by apply (c_env0 b y Hy).
  - change (size (inflight s) = (size (inflight s) + length (unstarted r1 (ready r1)))%nat).
    assert (unstarted r1 (ready r1) = []) as ->; [|simpl; lia].
    apply elem_of_nil_inv. intros a [Ha Hst]%elem_of_unstarted. apply Hr1 in Ha.
    change (isStarted r1 a) with (isStarted (rt s) a) in Hst.
    rewrite (isStarted_phase s a) in Hst; [|by split|by apply c_ready0; right].
    by apply bool_decide_eq_false in Hst.
  - cbn. lia.
  - cbn. congruence.
Qed.

Lemma input_core i :
  enabled s i →
  ∃ r1 f1, match i with InServiceDone => onServiceDone (rt s) | InEvent ev => onEvent (rt s) ev end
             = Some (r1, f1) ∧ done r1 = false ∧ core (after s i r1 f1).
Proof.
  destruct i as [|[e|a lbl|a|a]]; simpl; intros He;
    eauto using serviceDone_core, enqueue_core, yield_core, resume_core, done_core.
Qed.

(** The loop never blocks on its slot channel, whatever it receives. *)
Lemma turn_wf i :
  enabled s i → ∃ r' fs, turn (rt s) i = Some (r', fs) ∧ wf (after s i r' fs).
Proof.
  intros He. destruct (input_core i He) as (r1 & f1 & E1 & Hd1 & C1).
  destruct (loopTop_wf _ C1 Hd1) as ([r2 f2] & E2 & W). cbn in E2.
  unfold turn. rewrite E1. cbn [mbind option_bind]. rewrite E2. simpl.
  do 2 eexists. split; [done|]. by rewrite after_put in W.
Qed.

End events.

Lemma slot_wf s e ses proto exp :
  wf s → envs (rt s) !! e = None → Z.of_nat (slots (rt s)) < MailboxSize (opts (rt s)) →
  wf (Svc (set_env (set_slots (rt s) (S (slots (rt s)))) e (heldEnvelope ses proto exp))
        (phases s) ({[e]} ∪ inflight s) (trace s)).
Proof.
  intros [C [R1 R2]] He Hs.
  assert (e ∉ inflight s) as Hi by (intros (x & ? & _)%(c_inflight _ C); congruence).
  split; [|by split]. destruct C. split; cbn -[unstarted]; try done.
  - intros a x Hx. destruct (c_env0 a x Hx) as [[y Hy] Hn]. assert (envelope x ≠ e) by congruence.
    split; [rewrite lookup_insert_ne by done; eauto|set_solver].
  - intros a x y Hx. destruct (c_env0 a x Hx) as [[z Hz] _].
    rewrite lookup_insert_ne by congruence. by apply c_held0.
  - intros d. ins d e; [eauto|]. intros ?. apply c_inflight0. set_solver.
  - rewrite size_add by done. rewrite c_slots0. done.
  - lia.
Qed.

Lemma emit_fail_wf s e x r' :
  wf s → e ∈ inflight s → done (rt s) = true → envs (rt s) !! e = Some x →
  releaseSlot (rt s) e x = Some r' →
  wf (Svc r' (phases s) (inflight s ∖ {[e]}) (trace s)).
Proof.
  intros [C [R1 R2]] He Hd Hx Hr.
  destruct (inflight_slot s C e He) as (y & n & Hy & Hh & Hn & _).
  unfold releaseSlot in Hr. assert (x = y) as -> by congruence. rewrite Hh, Hn in Hr.
  injection Hr as <-. split; [by apply drop_inflight_core|by split].
Qed.

Lemma recover_wf s a :
  wf s → phases s !! a = Some PWaiting →
  wf (Svc (rt s) (<[a := PRecovered]> (phases s)) (inflight s) (trace s)).
Proof.
  intros [C [R1 R2]] Ha. split; [|by split]. destruct C. split; cbn -[unstarted]; try done.
  - intros b. ins b a; [|apply c_run0]. rewrite <-c_run0. naive_solver.
  - intros b. ins b a; [|apply c_wait0]. rewrite <-c_wait0. naive_solver.
  - intros b. ins b a; [|apply c_ready0]. rewrite c_ready0. naive_solver.
  - intros b y Hy. ins b a; [|by apply c_started0]. rewrite (c_started0 a y Hy). naive_solver.
  - intros b. ins b a; [|apply c_dom0]. intros _. apply c_dom0. eauto.
  - intros b y e Hy He. ins b a; [|by apply (c_held0 b y)].
    rewrite (c_held0 a y e Hy He). naive_solver.
  - intros Hs b. ins b a; [done|]. by apply c_stop0.
Qed.

Lemma step_wf s s' : wf s → step s s' → wf s'.
Proof.
  intros W [e ses proto exp|e x r'|a Ha|i r' fs Hd He Ht].
  - by apply slot_wf.
  - by eapply emit_fail_wf.
  - by apply recover_wf.
  - destruct (turn_wf s (proj1 W) Hd i He) as (r2 & f2 & E & W2). congruence.
Qed.

Lemma reachable_wf o s : reachable o s → wf s.
Proof.
  intros H. apply (rtc_ind_r wf) with (3 := H); [apply wf_init|eauto using step_wf].
Qed.

(** Induction over the history of a service: an invariant of the loop's
    variables, phases and trace that the two halves of a turn keep. *)
Section history.
Context (J : service → Prop).
Context (J_slots : ∀ s n es fl, J s →
  J (Svc (RT (opts (rt s)) (current (rt s)) (ready (rt s)) (suspended (rt s)) (segmentSeq (rt s))
            (stopping (rt s)) (serviceDone (rt s)) (done (rt s)) n (acts (rt s)) (nextAct (rt s)) es)
       (phases s) fl (trace s))).
Context (J_recover : ∀ s a, wf s → J s → phases s !! a = Some PWaiting →
  J (Svc (rt s) (<[a := PRecovered]> (phases s)) (inflight s) (trace s))).
Context (J_input : ∀ s i r1 f1, wf s → J s → done (rt s) = false → enabled s i →
  match i with InServiceDone => onServiceDone (rt s) | InEvent ev => onEvent (rt s) ev end
    = Some (r1, f1) → core (after s i r1 f1) → J (after s i r1 f1)).
Context (J_top : ∀ s a l rf, core s → J s → done (rt s) = false → current (rt s) = None →
  ready (rt s) = a :: l → schedule (rt s) = Some rf → core (put s rf) → J (put s rf)).
Context (J_done : ∀ s, core s → J s → J (put s (set_done (rt s), []))).

Lemma loopTop_history s rf : core s → J s → done (rt s) = false → loopTop (rt s) = Some rf → J (put s rf).
Proof using J_top J_done.
  intros C Hj Hd. unfold loopTop. case_match; [intros [= <-]; by apply J_done|].
  intros E. assert (put s (rt s, []) = s) as Hid by (by destruct s).
  destruct (current (rt s)) as [c|] eqn:Hc.
  { unfold schedule in E. rewrite Hc in E. injection E as <-. by rewrite Hid. }
  destruct (ready (rt s)) as [|a l] eqn:Hr.
  { unfold schedule in E. rewrite Hc, Hr in E. injection E as <-. by rewrite Hid. }
  eapply J_top; eauto using schedule_core.
Qed.

Lemma step_history s s' : wf s → J s → step s s' → J s'.
Proof using J_slots J_recover J_input J_top J_done.
  intros W Hj [e ses proto exp _ _|e x r' He Hd Hx Hr|a Ha|i r' fs Hd He Ht].
  - by apply J_slots.
  - unfold releaseSlot in Hr. destruct (slotHeld x); [destruct (slots (rt s)); [done|]|];
      injection Hr as <-; [by apply J_slots|].
    replace (rt s) with (RT (opts (rt s)) (current (rt s)) (ready (rt s)) (suspended (rt s))
      (segmentSeq (rt s)) (stopping (rt s)) (serviceDone (rt s)) (done (rt s)) (slots (rt s))
      (acts (rt s)) (nextAct (rt s)) (envs (rt s))) by (by destruct (rt s)).
    by apply J_slots.
  - by apply J_recover.
  - destruct (input_core s (proj1 W) Hd i He) as (r1 & f1 & E1 & Hd1 & C1).
    unfold turn in Ht. rewrite E1 in Ht. cbn [mbind option_bind] in Ht.
    destruct (loopTop r1) as [[r2 f2]|] eqn:E2; [|done]. injection Ht as <- <-.
    change (J (after s i (r2, f2).1 ((r2, f2).2 ++ f1))). rewrite <-(after_put s i r1 f1).
    apply loopTop_history; [done|by apply J_input|done|done].
Qed.

Lemma reachable_history o s : J (init o) → reachable o s → J s.
Proof using J_slots J_recover J_input J_top J_done.
  intros H0 H. apply (rtc_ind_r (λ s, wf s ∧ J s)) with (3 := H).
  - split; [apply wf_init|done].
  - intros y z _ Hz [W Hj]. eauto using step_wf, step_history.
Qed.

Lemma rtc_history s s' : wf s → J s → rtc step s s' → J s'.
Proof using J_slots J_recover J_input J_top J_done.
  intros W H0 H. apply (rtc_ind_r (λ s, wf s ∧ J s)) with (3 := H); [done|].
  intros y z _ Hz [W' Hj]. eauto using step_wf, step_history.
Qed.

End history.

End ServiceInv.
