(* ===== verification/ServiceFates.v ===== *)
(** * The order and the fate of the messages of a service
    (src/actor/system_runtime.go)

    The history of a service is its trace, newest effect first.  [executes],
    [grants] and [dropped] project it; [fates] relates it to the loop's
    variables. *)

From stdpp Require Import sorting.
From S2P Require Import Prelude Runtime Service ServiceInv.
Import Runtime Service ServiceInv.

Module ServiceFates.

Definition executes (t : list effect) : list nat :=
  omap (λ f, match f with Execute a => Some a | _ => None end) t.
Definition grants (t : list effect) : list nat :=
  omap (λ f, match f with Grant a => Some a | _ => None end) t.
Definition dropped (t : list effect) : list nat :=
  omap (λ f, match f with FinishTracked _ (Some a) _ => Some a | _ => None end) t.

(** Segments of other activations inside the suspensions of [a]: on an accepted
    yield of [a] the scan waits, a grant to another activation marks the
    suspension, and the grant that resumes [a] counts it when it is marked. *)
Definition scan1 (a : nat) (f : effect) (st : option bool * Z) : option bool * Z :=
  match f with
  | Accepted b None => if decide (b = a) then (Some false, st.2) else st
  | Grant b =>
      match st.1 with
      | None => st
      | Some m =>
          if decide (b = a) then (None, if m then st.2 + 1 else st.2) else (Some true, st.2)
      end
  | _ => st
  end.

Definition scan (a : nat) (t : list effect) : option bool * Z := foldr (scan1 a) (None, 0) t.

Definition interleavings (a : nat) (t : list effect) : Z := (scan a t).2.

(** The handler of the activation was started. *)
Definition entered (p : option phase) : Prop :=
  p = Some PRunning ∨ p = Some PWaiting ∨ p = Some PRecovered ∨ p = Some PResuming ∨
  p = Some PFinished.

Record fates (s : service) : Prop := {
  f_dom : ∀ a, (a < nextAct (rt s))%nat ↔ is_Some (phases s !! a);
  f_exec : ∀ a, a ∈ executes (trace s) ↔ entered (phases s !! a);
  f_drop : ∀ a, a ∈ dropped (trace s) ↔ phases s !! a = Some PDropped;
  f_once : NoDup (dropped (trace s));
  f_queue : StronglySorted lt (unstarted (rt s) (ready (rt s)));
  f_order : StronglySorted gt (executes (trace s));
  f_before : ∀ a b, a ∈ executes (trace s) → phases s !! b = Some PQueued → (a < b)%nat;
}.

Lemma finishPending_trace r e act err r' f :
  finishPending r e act err = Some (r', f) →
  (∃ n es, r' = RT (opts r) (current r) (ready r) (suspended r) (segmentSeq r) (stopping r)
                  (serviceDone r) (done r) n (acts r) (nextAct r) es) ∧
  executes f = [] ∧ grants f = [] ∧ dropped f = option_list act ∧
  (∀ a st, foldr (scan1 a) st f = st).
Proof.
  unfold finishPending. destruct (envs r !! e) as [x|]; [|done].
  destruct (releaseSlot r e x) as [r1|] eqn:E1; [|done]. intros [= <- <-].
  split; [by eapply releaseSlot_fields|].
  by destruct (expectsResponse x), act.
Qed.

Lemma finishUnstarted_trace l : ∀ r r' f,
  finishUnstarted r l = Some (r', f) →
  acts r' = acts r ∧ nextAct r' = nextAct r ∧ segmentSeq r' = segmentSeq r ∧ stopping r' = stopping r ∧
  opts r' = opts r ∧ executes f = [] ∧ grants f = [] ∧
  dropped f = reverse (unstarted r l) ∧ ∀ a st, foldr (scan1 a) st f = st.
Proof.
  induction l as [|a l IH]; intros r r' f; cbn [finishUnstarted].
  { by intros [= <- <-]. }
  destruct (acts r !! a) as [x|] eqn:Hx; [|done]. cbn [mbind option_bind].
  assert (isStarted r a = started x) as Hst by (unfold isStarted; by rewrite Hx).
  rewrite unstarted_cons, Hst. destruct (started x); [apply IH|].
  destruct (finishPending _ _ _ _) as [[r1 f1]|] eqn:E1; [|done].
  apply finishPending_trace in E1 as ((n & es & ->) & H1 & H2 & H3 & H4). cbn [mbind option_bind].
  destruct (finishUnstarted _ l) as [[r2 f2]|] eqn:E2; [|done]. intros [= <- <-].
  apply IH in E2 as (? & ? & ? & ? & ? & G1 & G2 & G3 & G4).
  unfold executes, grants, dropped in *. rewrite !omap_app, H1, H2, H3, G1, G2, G3.
  split_and!; try done; [by rewrite reverse_app|..]; intros b st; by rewrite foldr_app, H4, G4.
Qed.

(** ** Order and fate of the activations *)

Lemma fates_init o : fates (init o).
Proof.
  split; simpl; try (intros; set_solver); try constructor.
  - intros H. lia.
  - by intros [? ?].
  - set_solver.
  - by intros [|[|[|[|]]]].
Qed.

Lemma fates_phase s a ph ph' :
  phases s !! a = Some ph → entered (Some ph) → entered (Some ph') →
  fates s → ∀ r t, nextAct r = nextAct (rt s) →
  unstarted r (ready r) = unstarted (rt s) (ready (rt s)) →
  executes t = executes (trace s) → dropped t = dropped (trace s) →
  ∀ fl, fates (Svc r (<[a := ph']> (phases s)) fl t).
Proof.
  intros Ha H1 H2 [] r t Hn Hu He Hdr fl. split; cbn [rt phases inflight trace]; rewrite ?Hn, ?Hu, ?He, ?Hdr; try done.
  - intros b. ins b a; [|apply f_dom0]. rewrite f_dom0, Ha. naive_solver.
  - intros b. ins b a; [|apply f_exec0]. rewrite f_exec0, Ha. naive_solver.
  - intros b. ins b a; [|apply f_drop0]. rewrite f_drop0, Ha. unfold entered in *. naive_solver.
  - intros b c Hb. ins c a; [|by apply f_before0]. unfold entered in *. naive_solver.
Qed.

Lemma fates_enqueue s :
  core s → fates s → ∀ e fl r t,
  nextAct r = S (nextAct (rt s)) → ready r = ready (rt s) ++ [nextAct (rt s)] →
  acts r = <[nextAct (rt s) := Activation e false 0 0 ""]> (acts (rt s)) →
  executes t = executes (trace s) → dropped t = dropped (trace s) →
  fates (Svc r (<[nextAct (rt s) := PQueued]> (phases s)) fl t).
Proof.
  intros C F e fl r t Hn Hr Ha He Hdr. set (n := nextAct (rt s)) in *.
  assert (phases s !! n = None) as Hpn.
  { apply eq_None_not_Some. intros H%(f_dom _ F). lia. }
  assert (n ∉ ready (rt s)) as Hnr by (intros [H|H]%(c_ready _ C); congruence).
  destruct F. split; cbn [rt phases inflight trace]; rewrite ?Hn, ?He, ?Hdr; try done.
  - intros b. ins b n; [split; [eauto|lia]|]. rewrite <-f_dom0. lia.
  - intros b. ins b n; [|apply f_exec0]. rewrite f_exec0, Hpn. unfold entered. naive_solver.
  - intros b. ins b n; [|apply f_drop0]. rewrite f_drop0, Hpn. naive_solver.
  - rewrite Hr, unstarted_app, (isStarted_insert_ne (rt s) r n _ _ Ha Hnr), unstarted_cons.
    unfold isStarted. rewrite Ha, lookup_insert_eq. cbn -[unstarted].
    apply StronglySorted_app_2; [|done|repeat constructor].
    intros x1 x2 [Hx1 _]%elem_of_unstarted ->%list_elem_of_singleton.
    apply f_dom0. apply (c_ready _ C) in Hx1. destruct Hx1 as [->| ->]; eauto.
  - intros a b Hx. ins b n; [|by apply f_before0]. intros _. apply f_dom0.
    apply f_exec0 in Hx. unfold entered in Hx. destruct (phases s !! a); naive_solver.
Qed.

Lemma waiting_started s a : core s → phases s !! a = Some PWaiting → isStarted (rt s) a = true.
Proof.
  intros C Ha. destruct (c_dom _ C a) as [x Hx]; [eauto|].
  pose proof (c_started _ C a x Hx) as H. unfold isStarted. rewrite Hx.
  destruct (started x); [done|]. exfalso. naive_solver.
Qed.

Lemma fates_serviceDone s r1 f1 :
  core s → fates s → onServiceDone (rt s) = Some (r1, f1) →
  core (after s InServiceDone r1 f1) → fates (after s InServiceDone r1 f1).
Proof.
  intros C F E C1. pose proof (unstarted_queued s C) as Hq.
  unfold onServiceDone in E. destruct (finishUnstarted _ _) as [[r2 f2]|] eqn:E2; [|done].
  injection E as <- <-. pose proof (finishUnstarted_phases _ _ _ _ E2) as Hp.
  apply finishUnstarted_trace in E2 as (Ha & Hn & _ & Hs & _ & He & _ & Hdr & _).
  change (unstarted (set_stopping (rt s))) with (unstarted (rt s)) in *.
  assert (∀ l, dropped (f2 ++ l) = reverse (unstarted (rt s) (ready (rt s))) ++ dropped l) as Hdr'.
  { intros l. unfold dropped in *. by rewrite omap_app, Hdr. }
  assert (∀ l, executes (f2 ++ l) = executes l) as He'.
  { intros l. unfold executes in *. by rewrite omap_app, He. }
  destruct F. split; cbn [after rt phases inflight trace sendPhase]; rewrite ?He', ?Hdr'; try done.
  - intros a. cbn. rewrite Hn, Hp. case_decide; [|apply f_dom0].
    rewrite f_dom0. rewrite Hq in H. rewrite H. naive_solver.
  - intros a. rewrite f_exec0, Hp. case_decide as H; [|done]. rewrite Hq in H. rewrite H.
    unfold entered. naive_solver.
  - intros a. rewrite Hp, elem_of_app, elem_of_reverse, f_drop0. case_decide; naive_solver.
  - apply NoDup_app. split_and!; [|..|done].
    + rewrite reverse_Permutation. apply NoDup_ListNoDup, List.NoDup_filter, NoDup_ListNoDup, C.
    + intros a Ha' H%f_drop0. apply elem_of_reverse, Hq in Ha'. congruence.
  - assert (unstarted (set_ready r2 _) _ = []) as ->; [|constructor].
    apply elem_of_nil_inv. intros a Hin. apply (unstarted_queued _ C1) in Hin.
    by apply (c_stop _ C1 Hs a).
  - intros a b _ Hb. cbn in Hb. exfalso. by apply (c_stop _ C1 Hs b).
Qed.

Lemma fates_input s i r1 f1 :
  wf s → fates s → done (rt s) = false → enabled s i →
  match i with InServiceDone => onServiceDone (rt s) | InEvent ev => onEvent (rt s) ev end
    = Some (r1, f1) → core (after s i r1 f1) → fates (after s i r1 f1).
Proof.
  intros [C _] F Hd Hen E C1. destruct i as [|[e|a lbl|a|a]];
    unfold onEvent, after, sendPhase, sendInflight in *; simpl in Hen.
  - by apply fates_serviceDone.
  - destruct (stopping (rt s)) eqn:Hs.
    + pose proof (finishPending_phases _ _ _ _ _ _ E) as Hp.
      apply finishPending_trace in E as ((n & es & ->) & He & _ & Hdr & _).
      rewrite Hp. destruct F. unfold executes, dropped in *.
      split; cbn [rt phases inflight trace]; unfold executes, dropped;
        rewrite ?omap_app, ?He, ?Hdr; done.
    + injection E as <- <-. by eapply fates_enqueue.
  - assert (Svc (rt s) (phases s) (inflight s) (trace s) = s) as Hid by (by destruct s).
    repeat case_match; simplify_eq/=; try (by destruct F).
    destruct (acts (rt s) !! a) as [x|] eqn:Hx; [|done]. injection E as <- <-.
    assert (phases s !! a = Some PRunning) as Ha.
    { apply (c_run _ C). by apply dec_stable. }
    eapply fates_phase; [exact Ha|unfold entered; eauto|unfold entered; eauto|done|done| |done|done].
    eapply isStarted_insert_ne; [done|].
    intros [H9|H9]%(c_ready _ C); congruence.
  - rewrite decide_True in E by (apply (c_wait _ C); auto). injection E as <- <-.
    eapply fates_phase; unfold entered; eauto.
    change (unstarted (rt s) (ready (rt s) ++ [a]) = unstarted (rt s) (ready (rt s))).
    rewrite unstarted_app, unstarted_cons, (waiting_started s a C Hen). apply app_nil_r.
  - injection E as <- <-.
    assert (∃ ph, phases s !! a = Some ph ∧ entered (Some ph)) as (ph & Hph & Hent)
      by (unfold entered; naive_solver).
    eapply fates_phase; eauto; [unfold entered; eauto|by case_decide|by case_decide].
Qed.

Lemma fates_top s a l rf :
  core s → fates s → done (rt s) = false → current (rt s) = None →
  ready (rt s) = a :: l → schedule (rt s) = Some rf → core (put s rf) → fates (put s rf).
Proof.
  intros C F Hd Hc Hr E C1.
  destruct (schedule_grants s a l C Hc Hr) as (x & ex & n & Hx & Hex & Hst & Hn & E').
  rewrite E in E'. injection E' as ->. clear E. unfold put. cbn [fst snd].
  assert (a ∉ l) as Hal.
  { pose proof (c_nodup _ C) as Hnd. rewrite Hr in Hnd. by apply NoDup_cons in Hnd as [? _]. }
  assert (a ∈ ready (rt s)) as Har by (rewrite Hr; set_solver).
  pose proof (isStarted_phase s a C Har) as Hp. rewrite <-Hst in Hp.
  assert (Hu : ∀ r y, acts r = <[a := y]> (acts (rt s)) → unstarted r l = unstarted (rt s) l)
    by (intros; by eapply isStarted_insert_ne).
  destruct (started x).
  - symmetry in Hst. apply bool_decide_eq_true in Hst.
    eapply fates_phase; unfold entered; eauto.
    rewrite Hr, unstarted_cons, Hp. by eapply Hu.
  - assert (phases s !! a = Some PQueued) as Hq.
    { symmetry in Hst. apply bool_decide_eq_false in Hst. apply (c_ready _ C) in Har. tauto. }
    assert (∀ b, phases s !! b = Some PQueued → b = a ∨ (a < b)%nat) as Hfirst.
    { intros b Hb. apply (unstarted_queued s C) in Hb. pose proof (f_queue _ F) as Hs.
      rewrite Hr, unstarted_cons, Hp in Hb, Hs. simpl in *.
      apply StronglySorted_cons in Hs as [Hs _]. rewrite Forall_forall in Hs.
      apply elem_of_cons in Hb as [->|Hb]; eauto. }
    destruct F. split; cbn [rt phases inflight trace foldr app applyEffect nextAct ready];
      change (executes (Grant a :: Execute a :: trace s)) with (a :: executes (trace s));
      change (dropped (Grant a :: Execute a :: trace s)) with (dropped (trace s)); try done.
    + intros b. ins b a; [|apply f_dom0]. rewrite f_dom0, Hq. naive_solver.
    + intros b. rewrite elem_of_cons, f_exec0.
      ins b a; [unfold entered; naive_solver|]. naive_solver.
    + intros b. ins b a; [|apply f_drop0]. rewrite f_drop0. naive_solver.
    + rewrite Hr, unstarted_cons, Hp in f_queue0. apply StronglySorted_cons in f_queue0 as [_ Hs].
      by erewrite Hu.
    + apply StronglySorted_cons. split; [|done]. apply Forall_forall. intros b Hb.
      by apply f_before0.
    + intros b c Hb. ins c a; [done|]. intros Hc'. apply elem_of_cons in Hb as [->|Hb]; [|eauto].
      by destruct (Hfirst c Hc').
Qed.

Lemma fates_recover s a :
  fates s → phases s !! a = Some PWaiting →
  fates (Svc (rt s) (<[a := PRecovered]> (phases s)) (inflight s) (trace s)).
Proof. intros F Ha. eapply fates_phase; unfold entered; eauto. Qed.

Lemma reachable_fates o s : reachable o s → fates s.
Proof.
  apply reachable_history.
  - intros ? ? ? ? []. by split.
  - eauto using fates_recover.
  - apply fates_input.
  - apply fates_top.
  - intros ? _ []. by split.
  - apply fates_init.
Qed.

End ServiceFates.
