(* ===== verification/ServiceAnswers.v ===== *)
(** * What the loop of a service answers itself
    (src/actor/system_runtime.go)

    A message that is turned away because the service stops is never executed;
    [finishPending] completes its session instead.  The loop's answers are
    projected from the trace and related to the envelopes it turned away. *)

From S2P Require Import Prelude Runtime Service ServiceInv ServiceFates.
Import Runtime Service ServiceInv ServiceFates.

Module ServiceAnswers.

(** ** What the loop answers *)

(** The sessions the loop completes itself, and the envelopes it turns away. *)
Definition answers (t : list effect) : list (Z * error) :=
  omap (λ f, match f with CompleteSession n err => Some (n, err) | _ => None end) t.
Definition rejected (t : list effect) : list nat :=
  omap (λ f, match f with FinishTracked e _ _ => Some e | _ => None end) t.

(** The answer owed to the sender of an envelope that is turned away. *)
Definition answerOf (es : gmap nat serviceEnvelope) (e : nat) : option (Z * error) :=
  match es !! e with
  | Some x => if expectsResponse x then Some (session x, ErrServiceStopping) else None
  | None => None
  end.

(** Envelopes keep their session, activations their envelope. *)
Definition kept (r r' : runtime) : Prop :=
  (∀ e, is_Some (envs r !! e) → is_Some (envs r' !! e) ∧
          answerOf (envs r') e = answerOf (envs r) e) ∧
  (∀ a x, acts r !! a = Some x →
     ∃ x', acts r' !! a = Some x' ∧ envelope x' = envelope x).

(** The effects [f] answer exactly the envelopes they turn away, and the
    envelope turned away with an activation is that activation's. *)
Record answered (r : runtime) (f : list effect) : Prop := {
  w_answers : answers f = omap (answerOf (envs r)) (rejected f);
  w_known : ∀ e, e ∈ rejected f → is_Some (envs r !! e);
  w_own : ∀ e a b, FinishTracked e (Some a) b ∈ f →
    ∃ x, acts r !! a = Some x ∧ envelope x = e;
}.

(** The same of the effects emitted between [r] and [r'], with what the loop
    keeps: it creates no envelope and forgets none. *)
Record answering (r r' : runtime) (f : list effect) : Prop := {
  w_kept : kept r r';
  w_dom : ∀ e, is_Some (envs r' !! e) → is_Some (envs r !! e);
  w_answered : answered r' f;
}.

Lemma kept_refl r : kept r r.
Proof. split; eauto. Qed.

Lemma kept_fields r r' : envs r' = envs r → acts r' = acts r → kept r r'.
Proof. intros E1 E2. split; rewrite ?E1, ?E2; eauto. Qed.

Lemma kept_trans r1 r2 r3 : kept r1 r2 → kept r2 r3 → kept r1 r3.
Proof.
  intros [E1 A1] [E2 A2]. split.
  - intros e He. destruct (E1 e He) as [H1 H2]. destruct (E2 e H1) as [H3 H4].
    split; [done|congruence].
  - intros a x Hx. destruct (A1 a x Hx) as (y & Hy & He). destruct (A2 a y Hy) as (z & Hz & He').
    exists z. split; [done|congruence].
Qed.

Lemma answerOf_kept r r' (l : list nat) :
  kept r r' → (∀ e, e ∈ l → is_Some (envs r !! e)) →
  omap (answerOf (envs r')) l = omap (answerOf (envs r)) l.
Proof.
  intros [K _]. unfold omap. induction l as [|e l IH]; intros Hl; [done|]. simpl.
  destruct (K e) as [_ ->]; [apply Hl; set_solver|]. rewrite IH; [done|]. set_solver.
Qed.

Lemma answered_quiet r f : answers f = [] → rejected f = [] → answered r f.
Proof.
  intros E1 E2. split; rewrite ?E1, ?E2; try done; [set_solver|].
  intros e a b Hin. assert (e ∈ rejected f) as H; [|rewrite E2 in H; set_solver].
  apply list_elem_of_omap. eauto.
Qed.

(** The loop's variables changed, its envelopes and the activations' did not. *)
Lemma answering_quiet r r' f :
  kept r r' → (∀ e, is_Some (envs r' !! e) → is_Some (envs r !! e)) →
  answers f = [] → rejected f = [] → answering r r' f.
Proof. intros. split; auto using answered_quiet. Qed.

Lemma answered_kept r r' f : kept r r' → answered r f → answered r' f.
Proof.
  intros K [A N O]. split.
  - rewrite A. symmetry. by apply answerOf_kept.
  - intros e He. apply (proj1 K), N, He.
  - intros e a b H. destruct (O e a b H) as (x & Hx & <-).
    destruct (proj2 K a x Hx) as (y & ? & ?). eauto.
Qed.

Lemma answered_app r f1 f2 : answered r f1 → answered r f2 → answered r (f2 ++ f1).
Proof.
  intros [A1 N1 O1] [A2 N2 O2]. split; unfold answers, rejected in *.
  - by rewrite !omap_app, A1, A2.
  - intros e. rewrite omap_app, elem_of_app. intros [H|H]; auto.
  - intros e a b [H|H]%elem_of_app; eauto.
Qed.

Lemma answering_app r1 r2 r3 f1 f2 :
  answering r1 r2 f1 → answering r2 r3 f2 → answering r1 r3 (f2 ++ f1).
Proof.
  intros [K1 D1 A1] [K2 D2 A2]. split; [by eapply kept_trans|auto|].
  apply answered_app; [by eapply answered_kept|done].
Qed.

Lemma releaseSlot_kept r e x r' :
  envs r !! e = Some x → releaseSlot r e x = Some r' →
  kept r r' ∧ ∀ d, is_Some (envs r' !! d) → is_Some (envs r !! d).
Proof.
  intros Hx. unfold releaseSlot. destruct (slotHeld x); [|intros [= <-]; by split; [apply kept_refl|]].
  destruct (slots r) as [|n]; [done|]. intros [= <-]. split; [split|]; cbn; [|eauto|].
  - intros d [y Hy]. unfold answerOf. ins d e; [|eauto]. rewrite Hx. eauto.
  - intros d. ins d e; eauto.
Qed.

Lemma finishPending_answering r e act r' f :
  (∀ a, act = Some a → ∃ x, acts r !! a = Some x ∧ envelope x = e) →
  finishPending r e act ErrServiceStopping = Some (r', f) → answering r r' f.
Proof.
  intros Hact. unfold finishPending. destruct (envs r !! e) as [x|] eqn:Hx; [|done].
  destruct (releaseSlot r e x) as [r1|] eqn:E1; [|done]. intros [= <- <-].
  destruct (releaseSlot_kept r e x r1 Hx E1) as [K D].
  destruct (proj1 K e) as [He Ha]; [eauto|]. unfold answerOf in Ha at 2. rewrite Hx in Ha.
  split; [done|done|]. split.
  - by destruct (expectsResponse x); simpl; rewrite Ha.
  - intros d. destruct (expectsResponse x); simpl; by intros ->%list_elem_of_singleton.
  - intros d a b Hin. assert (d = e ∧ act = Some a) as [-> Ea]
      by (destruct (expectsResponse x); set_solver).
    destruct (Hact a Ea) as (y & Hy & <-). by apply (proj2 K).
Qed.

Lemma finishUnstarted_answering l : ∀ r r' f,
  finishUnstarted r l = Some (r', f) → answering r r' f.
Proof.
  induction l as [|a l IH]; intros r r' f; cbn [finishUnstarted].
  { intros [= <- <-]. apply answering_quiet; auto using kept_refl. }
  destruct (acts r !! a) as [x|] eqn:Hx; [|done]. cbn [mbind option_bind].
  destruct (started x); [apply IH|].
  destruct (finishPending _ _ _ _) as [[r1 f1]|] eqn:E1; [|done]. cbn [mbind option_bind].
  destruct (finishUnstarted r1 l) as [[r2 f2]|] eqn:E2; [|done]. intros [= <- <-].
  eapply answering_app; [|by apply IH].
  eapply finishPending_answering; [|done]. intros b [= <-]. eauto.
Qed.

Lemma schedule_answering r r' f : schedule r = Some (r', f) → answering r r' f.
Proof.
  unfold schedule. destruct (current r) as [c|]; [|destruct (ready r) as [|a l]];
    [intros [= <- <-]; apply answering_quiet; auto using kept_refl..|].
  destruct (acts r !! a) as [x|] eqn:Hx; [|done]. cbn [mbind option_bind].
  assert (answering r (set_ready r l) []) as A0
    by (apply answering_quiet; auto; by apply kept_fields).
  destruct (stopping r && negb (started x)).
  - intros E. rewrite <-(app_nil_r f). eapply answering_app; [exact A0|].
    eapply finishPending_answering; [|exact E]. intros b [= <-]. eauto.
  - destruct (envs r !! envelope x) as [ex|] eqn:Hex; [|done]. cbn [mbind option_bind].
    destruct (releaseSlot _ _ _) as [r2|] eqn:E2; [|done]. intros [= <- <-].
    destruct (releaseSlot_kept (set_ready r l) _ ex _ Hex E2) as [K D].
    apply releaseSlot_fields in E2 as (n & es & ->).
    apply answering_quiet; [|exact D|by destruct (started x)..].
    split; [exact (proj1 K)|]. cbn. intros b y Hy. ins b a; [simplify_eq|]; eauto.
Qed.

Lemma loopTop_answering r r' f : loopTop r = Some (r', f) → answering r r' f.
Proof.
  unfold loopTop. case_match; [|apply schedule_answering].
  intros [= <- <-]. apply answering_quiet; auto. by apply kept_fields.
Qed.

Lemma input_answering r i r1 f1 :
  (∀ a, is_Some (acts r !! a) → (a < nextAct r)%nat) →
  match i with InServiceDone => onServiceDone r | InEvent ev => onEvent r ev end
    = Some (r1, f1) → answering r r1 f1.
Proof.
  intros Hfresh E. destruct i as [|[e|a lbl|a|a]]; simpl in E.
  - unfold onServiceDone in E. destruct (finishUnstarted _ _) as [[r2 f2]|] eqn:E2; [|done].
    injection E as <- <-. apply finishUnstarted_answering in E2 as [K D A]. split; [exact K|exact D|by destruct A; split].
  - destruct (stopping r); [eapply finishPending_answering; [|exact E]; done|].
    injection E as <- <-. apply answering_quiet; auto. split; [eauto|]. cbn. intros b x Hx.
    rewrite lookup_insert_ne; [eauto|]. intros <-. assert (nextAct r < nextAct r)%nat; [|lia].
    apply Hfresh. eauto.
  - repeat case_match; simplify_eq; try by (apply answering_quiet; auto using kept_refl).
    destruct (acts r !! a) as [x|] eqn:Hx; [|done]. injection E as <- <-.
    apply answering_quiet; auto. split; cbn; [eauto|]. intros b y Hy.
    ins b a; [simplify_eq|]; eauto.
  - case_decide; injection E as <- <-; apply answering_quiet; auto; by apply kept_fields.
  - injection E as <- <-. apply answering_quiet; auto; case_decide; auto; by apply kept_fields.
Qed.

Lemma turn_answering r i r' f :
  (∀ a, is_Some (acts r !! a) → (a < nextAct r)%nat) →
  turn r i = Some (r', f) → answering r r' f.
Proof.
  unfold turn. intros Hfresh.
  destruct (match i with InServiceDone => _ | _ => _ end) as [[r1 f1]|] eqn:E1; [|done].
  cbn [mbind option_bind]. destruct (loopTop r1) as [[r2 f2]|] eqn:E2; [|done].
  intros [= <- <-]. eapply answering_app; eauto using input_answering, loopTop_answering.
Qed.

(** Before the loop returns every admitted envelope is on its way to the loop,
    has an activation, or was turned away. *)
Definition settled (s : service) : Prop :=
  done (rt s) = false → ∀ e, is_Some (envs (rt s) !! e) →
  e ∈ inflight s ∨ (∃ a x, acts (rt s) !! a = Some x ∧ envelope x = e) ∨
  e ∈ rejected (trace s).

(** The enqueue event gives its envelope an activation or turns it away. *)
Lemma enqueue_settles r e r1 f1 :
  onEvent r (eventEnqueue e) = Some (r1, f1) →
  (∃ a x, acts r1 !! a = Some x ∧ envelope x = e) ∨ e ∈ rejected f1.
Proof.
  simpl. destruct (stopping r).
  - unfold finishPending. destruct (envs r !! e) as [x|]; [|done].
    destruct (releaseSlot r e x); [|done]. intros [= <- <-]. right.
    destruct (expectsResponse x); set_solver.
  - intros [= <- <-]. left. cbn. eexists _, _. by rewrite lookup_insert_eq.
Qed.

Lemma turn_settled s i r' f :
  core s → settled s → done (rt s) = false → turn (rt s) i = Some (r', f) →
  settled (after s i r' f).
Proof.
  intros C S Hd E _ e He. cbn [after rt inflight trace] in *.
  destruct (turn_answering _ _ _ _ (c_next _ C) E) as [K D A].
  assert (∀ l : list effect, rejected (f ++ l) = rejected f ++ rejected l) as Happ
    by (intros l; apply omap_app).
  rewrite Happ. destruct (S Hd e (D e He)) as [Hi|[(a & x & Hx & Hex)|Hr]].
  - assert (e ∈ sendInflight i (inflight s) ∨ i = InEvent (eventEnqueue e)) as [Hin| ->];
      [|by left|].
    + destruct i as [|[d| | |]]; cbn; auto. destruct (decide (d = e)) as [->|]; [auto|set_solver].
    + right. unfold turn in E. destruct (onEvent _ _) as [[r1 f1]|] eqn:E1; [|done].
      cbn [mbind option_bind] in E. destruct (loopTop r1) as [[r2 f2]|] eqn:E2; [|done].
      injection E as <- <-. destruct (loopTop_answering _ _ _ E2) as [K2 _ _].
      apply enqueue_settles in E1 as [(a & x & Hx & <-)|Hr].
      * left. destruct (proj2 K2 a x Hx) as (y & ? & ?). eauto.
      * right. unfold rejected in *. rewrite omap_app. set_solver.
  - right. left. destruct (proj2 K a x Hx) as (y & Hy & Hey). exists a, y. split; congruence.
  - right. right. set_solver.
Qed.

Lemma step_answers s s' :
  wf s → answered (rt s) (trace s) → settled s → step s s' →
  answered (rt s') (trace s') ∧ settled s'.
Proof.
  intros [C _] A S [e ses proto exp He Hs|e x r' He Hd Hx Hr|a Ha|i r' fs Hd He Ht].
  - split.
    + eapply answered_kept; [|exact A]. split; [|eauto]. cbn. intros d [y Hy].
      unfold answerOf. rewrite lookup_insert_ne by congruence. eauto.
    + intros Hd d. cbn in *. ins d e; [set_solver|]. intros H. destruct (S Hd d H); set_solver.
  - destruct (releaseSlot_kept _ _ _ _ Hx Hr) as [K _]. split; [by eapply answered_kept|].
    apply releaseSlot_fields in Hr as (n & es & ->). intros Hd'. cbn in Hd'. congruence.
  - done.
  - split; [|by apply turn_settled].
    destruct (turn_answering _ _ _ _ (c_next _ C) Ht) as [K D A'].
    apply answered_app; [by eapply answered_kept|done].
Qed.

Lemma reachable_answers o s : reachable o s → answered (rt s) (trace s) ∧ settled s.
Proof.
  intros H. apply (rtc_ind_r (λ s, wf s ∧ answered (rt s) (trace s) ∧ settled s))
    with (3 := H); [|intros y z _ Hz (W & A & S); split; eauto using step_wf, step_answers].
  split_and!; [apply wf_init|by apply answered_quiet|]. intros _ e [x Hx]. done.
Qed.

(** ** Nobody is turned away twice *)

Definition envelopes (r : runtime) (l : list nat) : list nat :=
  omap (λ a, envelope <$> acts r !! a) l.

Lemma rejected_app f t : rejected (f ++ t) = rejected f ++ rejected t.
Proof. apply omap_app. Qed.

Lemma finishPending_rejected r e act err r' f :
  finishPending r e act err = Some (r', f) → rejected f = [e].
Proof.
  unfold finishPending. destruct (envs r !! e) as [x|]; [|done].
  destruct (releaseSlot r e x); [|done]. intros [= _ <-]. by destruct (expectsResponse x).
Qed.

Lemma finishUnstarted_rejected l : ∀ r r' f,
  finishUnstarted r l = Some (r', f) → rejected f = reverse (envelopes r (unstarted r l)).
Proof.
  unfold envelopes. induction l as [|a l IH]; intros r r' f; cbn [finishUnstarted].
  { by intros [= <- <-]. }
  destruct (acts r !! a) as [x|] eqn:Hx; [|done]. cbn [mbind option_bind].
  assert (isStarted r a = started x) as Hst by (unfold isStarted; by rewrite Hx).
  rewrite unstarted_cons, Hst. destruct (started x); [apply IH|].
  destruct (finishPending _ _ _ _) as [[r1 f1]|] eqn:E1; [|done].
  pose proof (finishPending_rejected _ _ _ _ _ _ E1) as Hr.
  apply finishPending_trace in E1 as ((n & es & ->) & _). cbn [mbind option_bind].
  destruct (finishUnstarted _ l) as [[r2 f2]|] eqn:E2; [|done]. intros [= <- <-].
  rewrite rejected_app, Hr, (IH _ _ _ E2), omap_app, reverse_app. simpl. by rewrite Hx.
Qed.

Lemma loopTop_rejected s r' f :
  core s → loopTop (rt s) = Some (r', f) → rejected f = [].
Proof.
  intros C. unfold loopTop. case_match; [by intros [= <- <-]|].
  destruct (current (rt s)) as [c|] eqn:Hc; [unfold schedule; rewrite Hc; by intros [= <- <-]|].
  destruct (ready (rt s)) as [|a l] eqn:Hr;
    [unfold schedule; rewrite Hc, Hr; by intros [= <- <-]|].
  destruct (schedule_grants s a l C Hc Hr) as (x & ex & n & _ & _ & _ & _ & ->).
  intros [= <- <-]. by destruct (started x).
Qed.

(** Where the envelope of a turned-away message is: nowhere else. *)
Definition gone (s : service) (e : nat) : Prop :=
  e ∉ inflight s ∧ ∀ a x, acts (rt s) !! a = Some x → envelope x = e → a ∈ dropped (trace s).

Record turnedOnce (s : service) : Prop := {
  t_once : NoDup (rejected (trace s));
  t_gone : ∀ e, e ∈ rejected (trace s) → gone s e;
}.

Lemma envelopes_NoDup s l : core s → NoDup l → NoDup (envelopes (rt s) l).
Proof.
  intros C. unfold envelopes. induction l as [|a l IH]; [constructor|].
  intros [Hal Hnd]%NoDup_cons. simpl.
  destruct (acts (rt s) !! a) as [x|] eqn:Hx; simpl; [|by apply IH].
  constructor; [|by apply IH]. intros (b & Hb & Hy)%list_elem_of_omap.
  destruct (acts (rt s) !! b) as [y|] eqn:Hyb; [|done]. injection Hy as Hy.
  by rewrite (c_env_inj _ C b a y x Hyb Hx Hy) in Hb.
Qed.

(** What an input turns away was not turned away before and is gone after. *)
Lemma input_rejected s i r1 f1 :
  core s → enabled s i →
  match i with InServiceDone => onServiceDone (rt s) | InEvent ev => onEvent (rt s) ev end
    = Some (r1, f1) →
  NoDup (rejected f1) ∧
  ∀ e, e ∈ rejected f1 →
    e ∈ inflight s ∧ i = InEvent (eventEnqueue e) ∨
    ∃ a x, acts (rt s) !! a = Some x ∧ envelope x = e ∧ phases s !! a = Some PQueued ∧
      a ∈ dropped f1.
Proof.
  intros C He E. destruct i as [|[e|a lbl|a|a]]; simpl in He, E.
  - unfold onServiceDone in E. destruct (finishUnstarted _ _) as [[r2 f2]|] eqn:E2; [|done].
    injection E as <- <-. rewrite (finishUnstarted_rejected _ _ _ _ E2).
    apply finishUnstarted_trace in E2 as (_ & _ & _ & _ & _ & _ & _ & Hdr & _).
    change (unstarted (set_stopping (rt s))) with (unstarted (rt s)) in *.
    change (envelopes (set_stopping (rt s))) with (envelopes (rt s)). split.
    + rewrite reverse_Permutation. apply envelopes_NoDup; [done|].
      apply NoDup_ListNoDup, List.NoDup_filter, NoDup_ListNoDup, C.
    + intros e (a & Ha & Hx)%elem_of_reverse%list_elem_of_omap. right.
      destruct (acts (rt s) !! a) as [x|] eqn:Hxa; [|done]. injection Hx as <-.
      exists a, x. rewrite Hdr, elem_of_reverse. split_and!; try done.
      by apply (unstarted_queued s C).
  - destruct (stopping (rt s)).
    + rewrite (finishPending_rejected _ _ _ _ _ _ E). split; [apply NoDup_singleton|].
      intros d ->%list_elem_of_singleton. auto.
    + injection E as <- <-. split; [constructor|set_solver].
  - assert (rejected f1 = []) as ->; [|split; [constructor|set_solver]].
    repeat case_match; simplify_eq; try done. destruct (acts (rt s) !! a); [|done].
    by injection E as <- <-.
  - assert (rejected f1 = []) as ->; [|split; [constructor|set_solver]].
    case_decide; by injection E as <- <-.
  - injection E as <- <-. split; [constructor|set_solver].
Qed.

(** Only an enqueue event creates an activation, for its own envelope. *)
Lemma loopTop_acts r r' f a x :
  loopTop r = Some (r', f) → acts r' !! a = Some x →
  ∃ y, acts r !! a = Some y ∧ envelope y = envelope x.
Proof.
  unfold loopTop, schedule. intros E Hx. repeat case_match; simplify_eq/=; eauto.
  destruct (acts r !! _) as [y|] eqn:Hy; [|done]. cbn [mbind option_bind] in E. case_match.
  - apply finishPending_trace in E as ((k & es & ->) & _). cbn in Hx. eauto.
  - destruct (envs r !! _) as [ex|]; [|done]. cbn [mbind option_bind] in E.
    destruct (releaseSlot _ _ _) as [r2|] eqn:E2; [|done]. injection E as <- _.
    apply releaseSlot_fields in E2 as (k & es & ->). cbn in Hx.
    match type of Hx with <[?b := _]> _ !! _ = _ => ins a b end; simplify_eq; eauto.
Qed.

Lemma turn_acts r i r' f a x :
  turn r i = Some (r', f) → acts r' !! a = Some x →
  (∃ y, acts r !! a = Some y ∧ envelope y = envelope x) ∨
  i = InEvent (eventEnqueue (envelope x)) ∧ stopping r = false.
Proof.
  unfold turn. destruct (match i with InServiceDone => _ | _ => _ end) as [[r1 f1]|] eqn:E1; [|done].
  cbn [mbind option_bind]. destruct (loopTop r1) as [[r2 f2]|] eqn:E2; [|done].
  intros [= <- _] Hx. destruct (loopTop_acts _ _ _ _ _ E2 Hx) as (y & Hy & <-). clear Hx E2.
  destruct i as [|[e|b lbl|b|b]]; simpl in E1.
  - unfold onServiceDone in E1. destruct (finishUnstarted _ _) as [[r3 f3]|] eqn:E3; [|done].
    injection E1 as <- _. apply finishUnstarted_trace in E3 as (Ha & _). cbn in Hy.
    rewrite Ha in Hy. cbn in Hy. eauto.
  - destruct (stopping r);
      [apply finishPending_trace in E1 as ((n & es & ->) & _); cbn in Hy; eauto|].
    injection E1 as <- _. cbn in Hy. ins a (nextAct r); [simplify_eq; auto|eauto].
  - repeat case_match; simplify_eq/=; eauto.
    destruct (acts r !! b) as [z|] eqn:Hz; [|done]. injection E1 as <- _. cbn in Hy.
    ins a b; [simplify_eq|]; eauto.
  - case_decide; injection E1 as <- _; eauto.
  - injection E1 as <- _. case_decide; eauto.
Qed.

Lemma turn_rejected s i r' f :
  core s → enabled s i → turn (rt s) i = Some (r', f) → done (rt s) = false →
  NoDup (rejected f) ∧
  ∀ e, e ∈ rejected f →
    e ∈ inflight s ∧ i = InEvent (eventEnqueue e) ∧ stopping (rt s) = true ∨
    ∃ a x, acts (rt s) !! a = Some x ∧ envelope x = e ∧ phases s !! a = Some PQueued ∧
      a ∈ dropped f.
Proof.
  intros C He E Hd. destruct (input_core s C Hd i He) as (r1 & f1 & E1 & _ & C1).
  unfold turn in E. rewrite E1 in E. cbn [mbind option_bind] in E.
  destruct (loopTop r1) as [[r2 f2]|] eqn:E2; [|done]. injection E as <- <-.
  rewrite rejected_app, (loopTop_rejected _ _ _ C1 E2). simpl.
  destruct (input_rejected s i r1 f1 C He E1) as [Hnd Hr]. split; [done|].
  intros e Hin. destruct (Hr e Hin) as [[Hi ->]|(a & x & Hx & Hex & Hp & Ha)].
  - left. split_and!; try done. simpl in E1. destruct (stopping (rt s)); [done|].
    injection E1 as <- <-. set_solver.
  - right. exists a, x. split_and!; try done. unfold dropped in *. rewrite omap_app. set_solver.
Qed.

Lemma turn_once s i r' f :
  core s → fates s → turnedOnce s → enabled s i → done (rt s) = false →
  turn (rt s) i = Some (r', f) → core (after s i r' f) → turnedOnce (after s i r' f).
Proof.
  intros C F [Hnd Hg] He Hd E C'. destruct (turn_rejected s i r' f C He E Hd) as [Hnd' Hr].
  assert (∀ l, dropped (f ++ l) = dropped f ++ dropped l) as Happ by (intros; apply omap_app).
  split; cbn [after trace]; rewrite rejected_app.
  - apply NoDup_app. split_and!; [done| |done]. intros e Hin [Hni Ha]%Hg.
    destruct (Hr e Hin) as [[Hi _]|(a & x & Hx & Hex & Hq & _)]; [done|].
    apply (Ha a x Hx), (f_drop _ F) in Hex. congruence.
  - intros e [Hin|Hin]%elem_of_app; (split; cbn [after inflight rt trace]; [|intros b y Hy Hey]).
    + destruct (Hr e Hin) as [(_ & -> & _)|(a & x & Hx & <- & _)]; [cbn; set_solver|].
      destruct (c_env _ C a x Hx) as [_ Hni]. destruct i as [|[]]; cbn; set_solver.
    + rewrite Happ. destruct (Hr e Hin) as [(Hi & -> & Hs)|(a & x & Hx & Hex & Hq & Ha)].
      * destruct (turn_acts _ _ _ _ _ _ E Hy) as [(z & Hz & Hez)|[_ ?]]; [|congruence].
        exfalso. apply (c_env _ C b z Hz). by rewrite Hez, Hey.
      * destruct (turn_acts _ _ _ _ _ _ E Hy) as [(z & Hz & Hez)|[-> _]].
        -- rewrite (c_env_inj _ C b a z x Hz Hx) by congruence. set_solver.
        -- destruct (c_env _ C a x Hx) as [_ Hni]. simpl in He. congruence.
    + destruct (Hg e Hin) as [Hni _]. destruct i as [|[]]; cbn; set_solver.
    + destruct (Hg e Hin) as [Hni Ha]. rewrite Happ, elem_of_app. right.
      destruct (turn_acts _ _ _ _ _ _ E Hy) as [(z & Hz & Hez)|[-> _]]; [|by simplify_eq].
      apply (Ha b z Hz). congruence.
Qed.

Lemma reachable_once_turned o s : reachable o s → turnedOnce s.
Proof.
  intros H. apply (rtc_ind_r (λ s, reachable o s ∧ turnedOnce s)) with (3 := H).
  { split; [by apply rtc_refl|]. split; simpl; [constructor|set_solver]. }
  intros y z _ Hz [Hr T]. assert (reachable o z) as Hr' by (by eapply rtc_r).
  split; [done|]. destruct (reachable_wf o y Hr) as [C _]. destruct (reachable_wf o z Hr') as [C' _].
  destruct (reachable_answers o y Hr) as [[_ Hk _] _]. pose proof (reachable_fates o y Hr) as F.
  destruct Hz as [e ses proto exp He Hs|e x r' He Hd Hx E|a Ha|i r' fs Hd He Ht].
  - destruct T as [T1 T2]. split; [done|]. cbn. intros d Hd. destruct (T2 d Hd) as [H1 H2].
    split; cbn; [|done]. destruct (Hk d Hd) as [w Hw]. set_solver.
  - destruct T as [T1 T2]. apply releaseSlot_fields in E as (n & es & ->).
    split; [done|]. cbn. intros d Hd'. destruct (T2 d Hd') as [H1 H2]. split; cbn; [set_solver|done].
  - destruct T as [T1 T2]. by split.
  - by apply turn_once.
Qed.

End ServiceAnswers.
