(* ===== verification/ServiceProps.v ===== *)
(** * What a service guarantees to its handlers and callers
    (src/actor/system_runtime.go)

    [versions] relates the interleaving counters to the trace; then come the
    guarantees, with concrete histories as their witnesses. *)

From stdpp Require Import sorting.
From S2P Require Import Prelude Runtime Service ServiceInv ServiceFates ServiceAnswers.
Import Runtime Service ServiceInv ServiceFates ServiceAnswers.

Module ServiceProps.

(** A schedule of a service, to evaluate concrete histories. *)
Inductive move :=
  | MSlot (env : nat) (session : Z) (exp : bool)
  | MRecover (a : nat)
  | MTurn (i : input).

#[global] Instance enabled_dec s i : Decision (enabled s i).
Proof. destruct i as [|[]]; simpl; apply _. Defined.

Definition perform (s : service) (m : move) : option service :=
  match m with
  | MSlot e ses exp =>
      if decide (envs (rt s) !! e = None ∧ Z.of_nat (slots (rt s)) < MailboxSize (opts (rt s)))
      then Some (Svc (set_env (set_slots (rt s) (S (slots (rt s)))) e (heldEnvelope ses "echo" exp))
                   (phases s) ({[e]} ∪ inflight s) (trace s))
      else None
  | MRecover a =>
      if decide (phases s !! a = Some PWaiting)
      then Some (Svc (rt s) (<[a := PRecovered]> (phases s)) (inflight s) (trace s))
      else None
  | MTurn i =>
      if decide (done (rt s) = false ∧ enabled s i)
      then '(r, fs) ← turn (rt s) i; Some (after s i r fs)
      else None
  end.

Definition exec (s : service) (ms : list move) : option service :=
  foldl (λ o m, s ← o; perform s m) (Some s) ms.

Lemma perform_step s m s' : perform s m = Some s' → step s s'.
Proof.
  destruct m; simpl; case_decide as H; try done.
  - destruct H. intros [= <-]. by apply step_slot.
  - intros [= <-]. by apply step_recover.
  - destruct H. destruct (turn _ _) as [[r fs]|] eqn:E; [|done]. intros [= <-]. by apply step_turn.
Qed.

Lemma exec_none ms : foldl (λ o m, s ← o; perform s m) None ms = None.
Proof. by induction ms. Qed.

Lemma exec_rtc ms : ∀ s s', exec s ms = Some s' → rtc step s s'.
Proof.
  unfold exec. induction ms as [|m ms IH]; simpl; intros s s'; [by intros [= <-]|].
  destruct (perform s m) as [s1|] eqn:E; simpl; [|by rewrite exec_none].
  intros H. eapply rtc_l; eauto using perform_step.
Qed.

(** Two calls, the first yields: the second runs to its end inside the wait, then
    the first resumes. *)
Definition opts1 (ni : bool) : ServiceOptions := Options 2 0 0 0 0 0 ni.
Definition moves1 : list move :=
  [MSlot 0 1 true; MSlot 1 2 true; MTurn (InEvent (eventEnqueue 0)); MTurn (InEvent (eventEnqueue 1))].
Definition moves2 : list move :=
  [MTurn (InEvent (eventYield 0 "io")); MTurn (InEvent (eventDone 1));
   MTurn (InEvent (eventResume 0))].
Definition moves3 : list move := [MTurn InServiceDone].
Definition moves4 : list move := [MTurn (InEvent (eventDone 0))].
Definition state_of (o : ServiceOptions) (ms : list move) : service :=
  match exec (init o) ms with Some s => s | None => init o end.

Lemma state_of_exec o ms : is_Some (exec (init o) ms) → exec (init o) ms = Some (state_of o ms).
Proof. unfold state_of. by intros [s ->]. Qed.

Lemma state_of_reachable o ms : is_Some (exec (init o) ms) → reachable o (state_of o ms).
Proof. intros H%state_of_exec. by eapply exec_rtc. Qed.

Lemma state_of_rtc o ms1 ms2 :
  is_Some (exec (init o) (ms1 ++ ms2)) → rtc step (state_of o ms1) (state_of o (ms1 ++ ms2)).
Proof.
  intros H%state_of_exec. unfold exec in H. rewrite foldl_app in H.
  fold (exec (init o) ms1) in H. destruct (exec (init o) ms1) as [s1|] eqn:E.
  - unfold state_of at 1. rewrite E. by apply exec_rtc with ms2.
  - by rewrite exec_none in H.
Qed.

(** ** Interleaving versions *)

Record versioned (s : service) (a : nat) (x : serviceActivation) : Prop := {
  v_count : interleaveVersion x = interleavings a (trace s);
  v_yield : yieldAtSegment x ≤ segmentSeq (rt s);
  v_away : phases s !! a = Some PWaiting ∨ phases s !! a = Some PResuming →
    (scan a (trace s)).1 = Some (bool_decide (segmentSeq (rt s) > yieldAtSegment x));
  v_here : phases s !! a = Some PQueued ∨ phases s !! a = Some PRunning →
    (scan a (trace s)).1 = None;
}.

Record versions (s : service) : Prop := {
  v_seq : segmentSeq (rt s) = Z.of_nat (length (grants (trace s)));
  v_fresh : ∀ a, (nextAct (rt s) ≤ a)%nat → scan a (trace s) = (None, 0);
  v_acts : ∀ a x, acts (rt s) !! a = Some x → versioned s a x;
}.

(** The loop's 64-bit segment counter has not wrapped. *)
Definition few (t : list effect) : Prop := Z.of_nat (length (grants t)) < 2 ^ 64.

Lemma interleavings_bound a t : 0 ≤ interleavings a t ≤ Z.of_nat (length (grants t)).
Proof.
  unfold interleavings. induction t as [|f t IH]; [simpl; lia|].
  change (scan a (f :: t)) with (scan1 a f (scan a t)).
  assert (length (grants (f :: t)) = length (grants [f]) + length (grants t))%nat as ->
    by (rewrite <-length_app; by destruct f).
  destruct (scan a t) as [m c]. cbn [snd] in IH.
  destruct f as [| | |b|b [|]]; simpl; repeat case_match; simpl; lia.
Qed.

Lemma grants_app f t : grants (f ++ t) = grants f ++ grants t.
Proof. apply omap_app. Qed.

(** Effects that are no grant and no accepted yield leave the scans alone. *)
Definition silent (f : list effect) : Prop :=
  grants f = [] ∧ ∀ a st, foldr (scan1 a) st f = st.

Lemma silent_scan f a t : silent f → scan a (f ++ t) = scan a t.
Proof. intros [_ H]. unfold scan. rewrite foldr_app. apply H. Qed.

Lemma versions_silent s r p fl f :
  versions s → silent f →
  segmentSeq r = segmentSeq (rt s) → (nextAct (rt s) ≤ nextAct r)%nat →
  (∀ a x, acts r !! a = Some x → acts (rt s) !! a = Some x ∨
     (nextAct (rt s) ≤ a)%nat ∧ p !! a = Some PQueued ∧
     interleaveVersion x = 0 ∧ yieldAtSegment x = 0) →
  (∀ a, acts (rt s) !! a ≠ None →
    (p !! a = Some PWaiting ∨ p !! a = Some PResuming →
     phases s !! a = Some PWaiting ∨ phases s !! a = Some PResuming) ∧
    (p !! a = Some PQueued ∨ p !! a = Some PRunning →
     phases s !! a = Some PQueued ∨ phases s !! a = Some PRunning)) →
  versions (Svc r p fl (f ++ trace s)).
Proof.
  intros V Hf Hs Hn Ha Hp. destruct V. split; cbn [rt phases trace].
  - rewrite grants_app, (proj1 Hf), Hs. done.
  - intros a Hle. rewrite silent_scan by done. apply v_fresh0. lia.
  - intros a x Hx. destruct (Ha a x Hx) as [Hx'|(Hf1 & Hf2 & Hf3 & Hf4)].
    + destruct (v_acts0 a x Hx') as [V1 V2 V3 V4]. destruct (Hp a) as [P1 P2]; [congruence|].
      split; cbn [rt phases trace]; unfold interleavings in *; rewrite ?silent_scan, ?Hs by done; auto.
    + pose proof (v_fresh0 a Hf1) as Hsc.
      split; cbn [rt phases trace]; unfold interleavings; rewrite ?silent_scan, ?Hsc, ?Hs, ?v_seq0 by done;
        simpl; try done; [lia|]. intros [|]; congruence.
Qed.

Lemma versions_yield s a x lbl fl :
  core s → versions s → acts (rt s) !! a = Some x →
  versions (Svc (set_current
                   (set_suspended
                      (set_act (rt s) a (Activation (envelope x) (started x) (segmentSeq (rt s))
                                           (interleaveVersion x) lbl))
                      ({[a]} ∪ suspended (rt s))) None)
              (<[a := PWaiting]> (phases s)) fl (Accepted a None :: trace s)).
Proof.
  intros C V Hx.
  destruct V. split; cbn [rt phases trace foldr applyEffect set_current set_suspended set_act
                          segmentSeq nextAct acts app].
  - done.
  - intros b Hb. change (scan b (Accepted a None :: trace s)) with
      (scan1 b (Accepted a None) (scan b (trace s))).
    simpl. rewrite decide_False; [by apply v_fresh0|].
    intros ->. assert (b < nextAct (rt s))%nat by (apply (c_next _ C); eauto). lia.
  - intros b y. ins b a.
    + intros [= <-]. destruct (v_acts0 a x Hx).
      split; cbn [interleaveVersion yieldAtSegment rt phases trace segmentSeq]; unfold interleavings;
      change (scan a (Accepted a None :: trace s)) with
        (scan1 a (Accepted a None) (scan a (trace s))); simpl; rewrite ?decide_True by done; try done.
      * intros _. simpl. rewrite bool_decide_eq_false_2; [done|lia].
      * simplify_map_eq. naive_solver.
    + intros Hy. destruct (v_acts0 b y Hy).
      assert (scan b (Accepted a None :: trace s) = scan b (trace s)) as Hsc
        by (unfold scan; simpl; by rewrite decide_False).
      split; cbn [rt phases trace segmentSeq]; unfold interleavings in *; rewrite ?Hsc; auto.
      * by rewrite lookup_insert_ne.
      * by rewrite lookup_insert_ne.
Qed.

Lemma versions_input s i r1 f1 :
  wf s → fates s → versions s → done (rt s) = false → enabled s i →
  match i with InServiceDone => onServiceDone (rt s) | InEvent ev => onEvent (rt s) ev end
    = Some (r1, f1) → versions (after s i r1 f1).
Proof.
  intros [C _] F V Hd Hen E. destruct i as [|[e|a lbl|a|a]];
    unfold onEvent, after, sendPhase, sendInflight in *; simpl in Hen.
  - unfold onServiceDone in E. destruct (finishUnstarted _ _) as [[r2 f2]|] eqn:E2; [|done].
    injection E as <- <-. pose proof (finishUnstarted_phases _ _ _ _ E2) as Hp.
    apply finishUnstarted_trace in E2 as (Ha & Hn & Hsq & _ & _ & _ & Hg & _ & Hsc).
    apply versions_silent; cbn; rewrite ?Ha, ?Hn; auto; [by split|].
    intros b _. rewrite !Hp. case_decide; naive_solver.
  - destruct (stopping (rt s)) eqn:Hs.
    + pose proof (finishPending_phases _ _ _ _ _ _ E) as Hp.
      apply finishPending_trace in E as ((n & es & ->) & He & Hg & Hdr & Hsc).
      rewrite Hp. apply versions_silent; cbn; auto. by split.
    + injection E as <- <-. apply versions_silent; [done|done|done|cbn; lia|..]; cbn.
      * intros b x. ins b (nextAct (rt s)); [|auto]. intros [= <-]. auto.
      * intros b Hb. rewrite lookup_insert_ne; [done|]. intros <-.
        apply Hb, eq_None_not_Some. intros H%(c_next _ C). lia.
  - assert (∀ err, versions (Svc (rt s) (phases s) (inflight s) ([Accepted a (Some err)] ++ trace s)))
      as Hrej by (intros err; apply versions_silent; auto; by split).
    repeat case_match; simplify_eq/=; try apply Hrej.
    destruct (acts (rt s) !! a) as [x|] eqn:Hx; [|done]. injection E as <- <-.
    by apply versions_yield.
  - rewrite decide_True in E by (apply (c_wait _ C); auto). injection E as <- <-.
    apply (versions_silent _ _ _ _ []); cbn; auto; [by split|].
    intros b _. ins b a; [naive_solver|auto].
  - injection E as <- <-.
    apply (versions_silent _ _ _ _ []); cbn; auto; [by split|by case_decide|by case_decide|..].
    + intros b y. case_decide; auto.
    + intros b _. ins b a; [naive_solver|auto].
Qed.

Lemma versions_top s a l rf :
  core s → versions s → few (rf.2 ++ trace s) → current (rt s) = None →
  ready (rt s) = a :: l → schedule (rt s) = Some rf → versions (put s rf).
Proof.
  intros C V Hfew Hc Hr E.
  destruct (schedule_grants s a l C Hc Hr) as (x & ex & n & Hx & Hex & Hst & Hn & E').
  rewrite E in E'. injection E' as ->. clear E. unfold put. cbn [fst snd] in *.
  assert (a ∈ ready (rt s)) as Har by (rewrite Hr; set_solver).
  apply (c_ready _ C) in Har as Hpa.
  assert (∀ b, scan b ((Grant a :: (if started x then [] else [Execute a])) ++ trace s) =
               scan1 b (Grant a) (scan b (trace s))) as Hsc by (by destruct (started x)).
  assert (grants ((Grant a :: (if started x then [] else [Execute a])) ++ trace s) =
          a :: grants (trace s)) as Hg by (by destruct (started x)).
  assert (∀ p, foldr applyEffect p (Grant a :: (if started x then [] else [Execute a])) =
               <[a := PRunning]> p) as Hp by (by destruct (started x)).
  unfold few in Hfew. rewrite Hg in Hfew. cbn [length] in Hfew.
  destruct V as [Vs Vf Va].
  assert (segmentSeq (rt s) +u64 1 = segmentSeq (rt s) + 1) as Hseq by (apply u64_small; lia).
  split; cbn [rt phases trace segmentSeq nextAct acts]; rewrite ?Hg, ?Hp, ?Hseq.
  - cbn [length]. lia.
  - intros b Hb. by rewrite Hsc, Vf.
  - intros b y. destruct (decide (b = a)) as [->|Hne]; [rewrite lookup_insert_eq|rewrite lookup_insert_ne by done].
    + intros [= <-]. destruct (Va a x Hx) as [V1 V2 V3 V4].
      pose proof (interleavings_bound a (trace s)) as Hb. unfold interleavings in V1, Hb.
      destruct (scan a (trace s)) as [m c] eqn:Em. cbn [fst snd] in V1, V3, V4, Hb.
      assert ((scan1 a (Grant a) (m, c)) =
        (None, if started x && bool_decide (segmentSeq (rt s) > yieldAtSegment x) then c + 1 else c))
        as Hgr.
      { destruct Hpa as [Hq|Hres].
        - rewrite V4 by auto. rewrite Hst, Hq. done.
        - rewrite V3, Hst, Hres by auto. simpl. by rewrite decide_True. }
      split; cbn [rt phases trace segmentSeq interleaveVersion yieldAtSegment];
        unfold interleavings; rewrite ?Hsc, ?Em, ?Hgr, ?lookup_insert_eq; simpl; try lia; try (by intros [|]); try done.
      destruct (_ && _); [|done]. rewrite u64_small; lia.
    + intros Hy. destruct (Va b y Hy) as [V1 V2 V3 V4].
      assert (phases s !! b ≠ Some PRunning) as Hnr by (rewrite (c_run _ C b); congruence).
      unfold interleavings in V1. destruct (scan b (trace s)) as [m c] eqn:Em.
      cbn [fst snd] in V1, V3, V4.
      split; cbn [rt phases trace segmentSeq]; unfold interleavings;
        rewrite ?Hsc, ?Em, ?lookup_insert_ne by done; simpl.
      * destruct m; [by rewrite decide_False|done].
      * lia.
      * intros H. rewrite V3 by done. rewrite decide_False by done. simpl.
        rewrite bool_decide_eq_true_2; [done|lia].
      * intros H. rewrite V4 by done. done.
Qed.

Lemma reachable_versions o s : reachable o s → few (trace s) → versions s.
Proof.
  intros Hr. assert (fates s ∧ (few (trace s) → versions s)) as [_ H]; [|done].
  revert Hr. apply (reachable_history (λ s, fates s ∧ (few (trace s) → versions s))); clear s.
  - intros s ? ? ? [[] HV]. split; [by split|]. intros H. destruct (HV H) as [? ? Va].
    split; [done..|]. intros a x Hx. destruct (Va a x Hx). by split.
  - intros s a _ [F HV] Ha. split; [by apply fates_recover|]. intros Hf.
    apply (versions_silent s _ _ _ []); auto; [by split|]. intros b _.
    ins b a; [naive_solver|auto].
  - intros s i r1 f1 W [F HV] Hd He E C1. split; [by apply fates_input|]. intros Hf.
    apply versions_input; try done; [].
    apply HV. unfold few in *. cbn in Hf. rewrite grants_app, length_app in Hf. lia.
  - intros s a l rf C [F HV] Hd Hc Hr E C1. split; [by eapply fates_top|]. intros Hf.
    eapply versions_top; try done.
    apply HV. unfold few in *. cbn in Hf. rewrite grants_app, length_app in Hf. lia.
  - intros s C [[] HV]. split; [by split|]. intros H. destruct (HV H) as [? ? Va].
    split; [done..|]. intros a x Hx. destruct (Va a x Hx). by split.
  - split; [apply fates_init|]. by split.
Qed.


(** ** What stopping and NoInterleave freeze *)

Definition frozen (t0 : list nat) (s : service) : Prop :=
  stopping (rt s) = true ∧ executes (trace s) = t0.

Lemma frozen_rtc t0 s s' : wf s → frozen t0 s → rtc step s s' → frozen t0 s'.
Proof.
  apply (rtc_history (frozen t0)); clear s s'.
  - by intros s ? ? ? [].
  - done.
  - intros s i r1 f1 [C _] [Hs Ht] Hd He E C1. unfold frozen.
    destruct i as [|[e|a lbl|a|a]]; simpl in He, E; cbn [after rt trace].
    + rewrite (c_listen _ C), Hs in He. done.
    + rewrite Hs in E. apply finishPending_trace in E as ((n & es & ->) & Hx & _).
      unfold executes in *. rewrite omap_app, Hx. done.
    + repeat case_match; simplify_eq/=; try done.
      destruct (acts (rt s) !! a); [|done]. by injection E as <- <-.
    + case_decide; injection E as <- <-; done.
    + injection E as <- <-. by case_decide.
  - intros s a l rf C [Hs Ht] Hd Hc Hr E C1.
    destruct (schedule_grants s a l C Hc Hr) as (x & ex & n & Hx & Hex & Hst & Hn & E').
    rewrite E in E'. injection E' as ->. unfold frozen, put. cbn [fst snd rt trace stopping].
    assert (a ∈ ready (rt s)) as [Hq|Hres]%(c_ready _ C) by (rewrite Hr; set_solver).
    { by apply (c_stop _ C Hs) in Hq. }
    rewrite Hst, Hres. done.
  - by intros s C [].
Qed.

(** A service that never yields grants each activation once, when it starts it. *)
Record once (s : service) : Prop := {
  o_opts : NoInterleave (opts (rt s)) = true;
  o_phase : ∀ a, phases s !! a ≠ Some PResuming;
  o_grants : grants (trace s) = executes (trace s);
}.

Lemma once_input s i r1 f1 :
  core s → once s → enabled s i →
  match i with InServiceDone => onServiceDone (rt s) | InEvent ev => onEvent (rt s) ev end
    = Some (r1, f1) → once (after s i r1 f1).
Proof.
  intros C [Ho Hp Hg] He E. destruct i as [|[e|a lbl|a|a]]; simpl in He, E; unfold after.
  - unfold onServiceDone in E. destruct (finishUnstarted _ _) as [[r2 f2]|] eqn:E2; [|done].
    injection E as <- <-. pose proof (finishUnstarted_phases _ _ _ _ E2) as Hph.
    apply finishUnstarted_trace in E2 as (_ & _ & _ & _ & Hop & Hx & Hgr & _).
    split; cbn [rt phases trace set_ready opts sendPhase].
    + by rewrite Hop.
    + intros b. rewrite Hph. by case_decide.
    + rewrite grants_app, Hgr. unfold executes in *. by rewrite omap_app, Hx.
  - cbn [sendPhase]. destruct (stopping (rt s)) eqn:Hs.
    + pose proof (finishPending_phases _ _ _ _ _ _ E) as Hph.
      apply finishPending_trace in E as ((n & es & ->) & Hx & Hgr & _).
      split; cbn [rt phases trace opts]; [done|by rewrite Hph|].
      rewrite grants_app, Hgr. unfold executes in *. by rewrite omap_app, Hx.
    + injection E as <- <-. split; cbn [rt phases trace opts foldr app]; [done| |done].
      intros b. by ins b (nextAct (rt s)).
  - rewrite Ho in E. injection E as <- <-. by split.
  - assert (a ∈ suspended (rt s)) as Ha by (apply (c_wait _ C); auto).
    rewrite (c_noint _ C Ho) in Ha. set_solver.
  - injection E as <- <-. split; cbn [sendPhase rt phases trace foldr app]; [by case_decide| |done].
    intros b. by ins b a.
Qed.

Lemma reachable_once o s : NoInterleave o = true → reachable o s → once s.
Proof.
  intros Hni. apply (reachable_history once); clear s.
  - by intros s ? ? ? [].
  - intros s a _ [] Ha. split; cbn; [done| |done]. intros b. by ins b a.
  - intros s i r1 f1 [C _] H Hd He E C1. by apply once_input.
  - intros s a l rf C [Ho Hp Hg] Hd Hc Hr E C1.
    destruct (schedule_grants s a l C Hc Hr) as (x & ex & n & Hx & Hex & Hst & Hn & E').
    rewrite E in E'. injection E' as ->. rewrite bool_decide_eq_false_2 in Hst by done.
    rewrite Hst. split; cbn [put fst snd rt phases trace opts foldr applyEffect]; [done| |].
    + intros b. by ins b a.
    + change (a :: grants (trace s) = a :: executes (trace s)). by rewrite Hg.
  - by intros s C [].
  - by split.
Qed.

Lemma loopTop_opts r r' f : loopTop r = Some (r', f) → opts r' = opts r.
Proof.
  unfold loopTop, schedule. intros E. repeat case_match; simplify_eq/=; try done.
  destruct (acts r !! _) as [x|]; [|done]. cbn [mbind option_bind] in E. case_match.
  - apply finishPending_trace in E as ((k & es & ->) & _). done.
  - destruct (envs r !! _) as [e|]; [|done]. cbn [mbind option_bind] in E.
    destruct (releaseSlot _ _ _) as [r2|] eqn:E2; [|done]. injection E as <- _.
    apply releaseSlot_fields in E2 as (k & es & ->). done.
Qed.

Lemma turn_opts r i r' f : turn r i = Some (r', f) → opts r' = opts r.
Proof.
  unfold turn. destruct (match i with InServiceDone => _ | _ => _ end) as [[r1 f1]|] eqn:E1; [|done].
  cbn [mbind option_bind]. destruct (loopTop r1) as [[r2 f2]|] eqn:E2; [|done].
  intros [= <- _]. apply loopTop_opts in E2. rewrite E2. clear E2.
  destruct i as [|[e|a lbl|a|a]]; simpl in E1.
  - unfold onServiceDone in E1. destruct (finishUnstarted _ _) as [[r3 f3]|] eqn:E3; [|done].
    injection E1 as <- _. by apply finishUnstarted_trace in E3 as (_ & _ & _ & _ & ? & _).
  - case_match; [by apply finishPending_trace in E1 as ((n & es & ->) & _)|by injection E1 as <- _].
  - repeat case_match; simplify_eq/=; try done.
    destruct (acts r !! a); [|done]. by injection E1 as <- _.
  - case_decide; by injection E1 as <- _.
  - injection E1 as <- _. by case_decide.
Qed.

Lemma step_extends s s' :
  step s s' → opts (rt s') = opts (rt s) ∧ ∃ f, trace s' = f ++ trace s.
Proof.
  intros [e ses proto exp _ _|e x r' He Hd Hx Hr|a Ha|i r' fs Hd He Ht]; cbn.
  - split; [done|by exists []].
  - apply releaseSlot_fields in Hr as (n & es & ->). split; [done|by exists []].
  - split; [done|by exists []].
  - split; [|by eexists]. by eapply turn_opts.
Qed.

Lemma rtc_extends s s' :
  rtc step s s' → opts (rt s') = opts (rt s) ∧ ∃ f, trace s' = f ++ trace s.
Proof.
  induction 1 as [s|s s1 s2 [Ho [f Hf]]%step_extends _ [Ho' [f' Hf']]]; [split; [done|by exists []]|].
  split; [congruence|]. exists (f' ++ f). by rewrite Hf', Hf, app_assoc.
Qed.

Lemma interleavings_mono a f t : interleavings a t ≤ interleavings a (f ++ t).
Proof.
  unfold interleavings. induction f as [|e f IH]; [done|].
  change (scan a ((e :: f) ++ t)) with (scan1 a e (scan a (f ++ t))).
  destruct (scan a (f ++ t)) as [m c]. cbn [snd] in IH.
  destruct e as [| | |b|b [|]]; simpl; repeat case_match; simpl; lia.
Qed.

Lemma StronglySorted_gt_NoDup l : StronglySorted gt l → NoDup l.
Proof.
  induction 1 as [|x l _ IH Hx]; constructor; [|done].
  intros Hin. rewrite Forall_forall in Hx. specialize (Hx x Hin). lia.
Qed.

(** The running handler of a NoInterleave service, until it finishes. *)
Record holding (a : nat) (g : list nat) (s : service) : Prop := {
  h_opts : NoInterleave (opts (rt s)) = true;
  h_holds : phases s !! a = Some PRunning ∧ grants (trace s) = g ∨ phases s !! a = Some PFinished;
}.

Lemma holding_input a g s i r1 f1 :
  core s → holding a g s → enabled s i →
  match i with InServiceDone => onServiceDone (rt s) | InEvent ev => onEvent (rt s) ev end
    = Some (r1, f1) → holding a g (after s i r1 f1).
Proof.
  intros C [Ho Hh] He E.
  assert (∀ (p : gmap nat phase) f, grants f = [] → p !! a = phases s !! a → p !! a = Some PRunning ∧
    grants (f ++ trace s) = g ∨ p !! a = Some PFinished) as Hkeep
    by (intros p f Hf ->; by rewrite grants_app, Hf).
  destruct i as [|[e|b lbl|b|b]]; simpl in He, E; unfold after.
  - unfold onServiceDone in E. destruct (finishUnstarted _ _) as [[r2 f2]|] eqn:E2; [|done].
    injection E as <- <-. pose proof (finishUnstarted_phases _ _ _ _ E2) as Hph.
    apply finishUnstarted_trace in E2 as (_ & _ & _ & _ & Hop & _ & Hgr & _).
    split; [cbn; by rewrite Hop|]. cbn [phases trace]. apply Hkeep; [done|].
    rewrite Hph, decide_False; [done|]. intros Hq%(unstarted_queued s C). naive_solver.
  - cbn [sendPhase]. destruct (stopping (rt s)) eqn:Hs.
    + pose proof (finishPending_phases _ _ _ _ _ _ E) as Hph.
      apply finishPending_trace in E as ((n & es & ->) & _ & Hgr & _).
      split; [done|]. cbn [phases trace]. apply Hkeep; [done|by rewrite Hph].
    + injection E as <- <-. split; [done|]. cbn [phases trace]. apply (Hkeep _ []); [done|]. apply lookup_insert_ne.
      intros <-. assert (is_Some (phases s !! nextAct (rt s))) as Hd%(c_dom _ C)%(c_next _ C)
        by naive_solver. lia.
  - rewrite Ho in E. injection E as <- <-. split; [done|]. cbn [phases trace]. by apply Hkeep.
  - assert (b ∈ suspended (rt s)) as Hb by (apply (c_wait _ C); auto).
    rewrite (c_noint _ C Ho) in Hb. set_solver.
  - injection E as <- <-. split; [by case_decide|]. cbn [phases trace foldr sendPhase].
    ins a b; [by right|]. apply (Hkeep _ []); [done|done].
Qed.

Lemma holding_rtc a g s s' : wf s → holding a g s → rtc step s s' →
  phases s' !! a = Some PRunning ∧ grants (trace s') = g ∨ phases s' !! a = Some PFinished.
Proof.
  intros W H Hr. apply (rtc_history (holding a g)) with (s := s); try done; clear s s' W H Hr.
  - by intros s ? ? ? [].
  - intros s b _ [Ho Hh] Hb. split; [done|]. cbn. rewrite lookup_insert_ne; [done|].
    intros <-. naive_solver.
  - intros s i r1 f1 [C _] H Hd He E C1. by apply holding_input.
  - intros s b l rf C [Ho Hh] Hd Hc Hr E C1.
    destruct (schedule_grants s b l C Hc Hr) as (x & ex & n & Hx & Hex & Hst & Hn & E').
    rewrite E in E'. injection E' as ->. split; [done|]. right.
    assert (b ∈ ready (rt s)) as Hb%(c_ready _ C) by (rewrite Hr; set_solver).
    assert (phases s !! a = Some PFinished) as Ha.
    { destruct Hh as [[Hr1%(c_run _ C) _]|]; [congruence|done]. }
    cbn [put fst snd phases]. destruct (started x); cbn [foldr applyEffect];
      (rewrite lookup_insert_ne; [done|intros ->; naive_solver]).
  - by intros s C [].
Qed.

Lemma acts_rtc s s' a : wf s → rtc step s s' → is_Some (acts (rt s) !! a) → is_Some (acts (rt s') !! a).
Proof.
  intros W Hr Ha. apply (rtc_history (λ s, is_Some (acts (rt s) !! a))) with (s := s);
    try done; clear s s' W Hr Ha.
  - intros s i r1 f1 [C _] H Hd He E C1. destruct i as [|[e|b lbl|b|b]]; simpl in He, E; cbn [after rt].
    + unfold onServiceDone in E. destruct (finishUnstarted _ _) as [[r2 f2]|] eqn:E2; [|done].
      injection E as <- <-. apply finishUnstarted_trace in E2 as (Ha & _). cbn. by rewrite Ha.
    + case_match; [apply finishPending_trace in E as ((n & es & ->) & _); done|].
      injection E as <- <-. cbn. apply lookup_insert_is_Some'. auto.
    + repeat case_match; simplify_eq/=; try done.
      destruct (acts (rt s) !! b); [|done]. injection E as <- <-. cbn.
      apply lookup_insert_is_Some'. auto.
    + case_decide; by injection E as <- <-.
    + injection E as <- <-. by case_decide.
  - intros s b l rf C H Hd Hc Hr E C1.
    destruct (schedule_grants s b l C Hc Hr) as (x & ex & n & Hx & Hex & Hst & Hn & E').
    rewrite E in E'. injection E' as ->. cbn. apply lookup_insert_is_Some'. auto.
Qed.

Lemma reachable_rtc o s s' : reachable o s → rtc step s s' → reachable o s'.
Proof. intros H1 H2. unfold reachable in *. by transitivity s. Qed.

(** ** The guarantees *)

(** The goroutine of the activation executes handler code. *)
Definition runsCode (p : option phase) : Prop := p = Some PRunning ∨ p = Some PRecovered.

(** C3 (mailbox discipline) In every reachable state of a service at most one
    handler holds the service.  A second handler executes code only after it
    recovered a panic of its own wait: the loop still has it suspended, its
    further yields are refused, and a NoInterleave service has none.  The mailbox
    and the suspended set respect the configured limits, and whatever its
    goroutines send next the loop handles it: it never blocks on its slot channel,
    and a caller whose enqueue failed can always give its slot back. *)
Theorem mailbox_discipline (o : ServiceOptions) (s : service) :
  reachable o s →
  (∀ a, phases s !! a = Some PRunning ↔ current (rt s) = Some a) ∧
  (∀ a b, runsCode (phases s !! a) → runsCode (phases s !! b) → a ≠ b →
     phases s !! a = Some PRecovered ∨ phases s !! b = Some PRecovered) ∧
  (∀ a, phases s !! a = Some PRecovered →
     a ∈ suspended (rt s) ∧ NoInterleave o = false ∧
     ∀ lbl, ∃ err, onEvent (rt s) (eventYield a lbl) = Some (rt s, [Accepted a (Some err)])) ∧
  Z.of_nat (slots (rt s)) ≤ MailboxSize (withDefaults o) ∧
  Z.of_nat (size (suspended (rt s))) ≤ MaxSuspended (withDefaults o) ∧
  (∀ i, done (rt s) = false → enabled s i → is_Some (turn (rt s) i)) ∧
  (∀ e, e ∈ inflight s → ∃ x, envs (rt s) !! e = Some x ∧ is_Some (releaseSlot (rt s) e x)).
Proof.
  intros H. pose proof (reachable_wf o s H) as W. destruct W as [C _].
  destruct (rtc_extends _ _ H) as [Ho _]. cbn in Ho. rewrite <-Ho. split_and!.
  - apply C.
  - intros a b [Ha|] [Hb|] Hne; auto. apply (c_run _ C) in Ha, Hb. congruence.
  - intros a Ha. assert (a ∈ suspended (rt s)) as Hs by (apply (c_wait _ C); auto).
    assert (NoInterleave o = false) as Hni.
    { apply not_true_is_false. intros Hni. rewrite (c_noint _ C) in Hs by (by rewrite Ho).
      set_solver. }
    split_and!; [done|done|]. intros lbl. exists ErrNotRunning. unfold onEvent.
    rewrite Ho. cbn [NoInterleave withDefaults]. rewrite Hni, decide_True; [done|].
    intros Hc%(c_run _ C). congruence.
  - apply C.
  - apply C.
  - intros i Hd He. destruct (turn_wf s C Hd i He) as (r' & fs & -> & _). eauto.
  - intros e He. destruct (inflight_slot s C e He) as (x & n & Hx & Hh & Hn & _).
    exists x. split; [done|]. unfold releaseSlot. rewrite Hh, Hn. eauto.
Qed.

(** The first handler's wait panicked and it recovered while the second holds the
    service. *)
Definition movesRecover : list move :=
  moves1 ++ [MTurn (InEvent (eventYield 0 "io")); MRecover 0].

Lemma mailbox_discipline_witness :
  reachable (opts1 false) (state_of (opts1 false) movesRecover) ∧
  phases (state_of (opts1 false) movesRecover) !! 1%nat = Some PRunning ∧
  0%nat ∈ suspended (rt (state_of (opts1 false) movesRecover)).
Proof.
  assert (reachable (opts1 false) (state_of (opts1 false) movesRecover)) as H.
  { apply state_of_reachable. vm_compute. eauto. }
  split; [exact H|]. split; [vm_compute; reflexivity|].
  apply (mailbox_discipline (opts1 false) _ H). vm_compute. reflexivity.
Defined.

(** C4 (order and fate) Handlers start in the order in which their messages
    entered the mailbox and none starts twice.  Every message that entered is in
    exactly one of three conditions: still queued, started, or turned away because
    the service stops, and until the loop returns every admitted message is on its
    way to the loop, has entered or was turned away.  No message is turned away
    twice, and what the loop answers is exactly, in order, ErrServiceStopping to
    the session of every message it turned away that expects a response. *)
Theorem fifo_exactly_once (o : ServiceOptions) (s : service) :
  reachable o s →
  StronglySorted gt (executes (trace s)) ∧ NoDup (dropped (trace s)) ∧
  (∀ a, (a < nextAct (rt s))%nat →
     (a ∈ ready (rt s) ∧ a ∉ executes (trace s) ∧ a ∉ dropped (trace s)) ∨
     (a ∈ executes (trace s) ∧ a ∉ dropped (trace s)) ∨
     (a ∈ dropped (trace s) ∧ a ∉ executes (trace s) ∧ a ∉ ready (rt s))) ∧
  (done (rt s) = false → ∀ e, is_Some (envs (rt s) !! e) →
     e ∈ inflight s ∨ (∃ a x, acts (rt s) !! a = Some x ∧ envelope x = e) ∨
     e ∈ rejected (trace s)) ∧
  NoDup (rejected (trace s)) ∧
  (∀ e a failed, FinishTracked e (Some a) failed ∈ trace s →
     ∃ x, acts (rt s) !! a = Some x ∧ envelope x = e) ∧
  answers (trace s) = omap (answerOf (envs (rt s))) (rejected (trace s)).
Proof.
  intros H. destruct (reachable_wf o s H) as [C _]. destruct (reachable_fates o s H).
  destruct (reachable_answers o s H) as [[Ha _ Hown] Hset].
  destruct (reachable_once_turned o s H) as [Hnd _].
  split_and!; try done. intros a [ph Hph]%f_dom0.
  rewrite (c_ready _ C), f_exec0, f_drop0, Hph. unfold entered. destruct ph; naive_solver.
Qed.

(** Two calls, the service stops while the first runs: the second is answered. *)
Lemma fifo_exactly_once_witness :
  executes (trace (state_of (opts1 false) (moves1 ++ moves2))) = [1%nat; 0%nat] ∧
  StronglySorted gt (executes (trace (state_of (opts1 false) (moves1 ++ moves2)))) ∧
  [(2, ErrServiceStopping)] =
    omap (answerOf (envs (rt (state_of (opts1 false) (moves1 ++ moves3)))))
      (rejected (trace (state_of (opts1 false) (moves1 ++ moves3)))).
Proof.
  split; [vm_compute; reflexivity|]. split.
  - apply (fifo_exactly_once (opts1 false)). apply state_of_reachable. vm_compute. eauto.
  - transitivity (answers (trace (state_of (opts1 false) (moves1 ++ moves3))));
      [vm_compute; reflexivity|].
    apply (fifo_exactly_once (opts1 false)). apply state_of_reachable. vm_compute. eauto.
Defined.

(** C5 (stop) Once a service is stopping no further handler is ever started,
    and its loop returns exactly when no started handler is left. *)
Theorem stop_drains (o : ServiceOptions) (s s' : service) :
  reachable o s → stopping (rt s) = true → rtc step s s' →
  executes (trace s') = executes (trace s) ∧
  (done (rt s') = true ↔
   ∀ a, phases s' !! a = None ∨ phases s' !! a = Some PFinished ∨ phases s' !! a = Some PDropped).
Proof.
  intros H Hs Hr. pose proof (reachable_wf o s H) as W.
  destruct (frozen_rtc (executes (trace s)) s s' W (conj Hs eq_refl) Hr) as [Hs' Ht].
  split; [done|]. assert (wf s') as [C [R1 R2]].
  { by apply (reachable_wf o), (reachable_rtc o s). }
  pose proof (c_stop _ C Hs') as Hnq. split.
  - intros (_ & Hc & Hrd & Hsp)%(c_done _ C) a. pose proof (c_run _ C a) as Hr1.
    pose proof (c_wait _ C a) as Hw. pose proof (c_ready _ C a) as Hr2.
    rewrite Hc in Hr1. rewrite Hsp in Hw. rewrite Hrd in Hr2.
    assert (a ∉ (∅ : gset nat)) by set_solver. assert (a ∉ ([] : list nat)) by set_solver.
    specialize (Hnq a). destruct (phases s' !! a) as [[]|]; naive_solver.
  - intros Hall. apply not_false_is_true. intros Hd. destruct (R2 Hd Hs') as [Hc|Hsp].
    + destruct (current (rt s')) as [a|] eqn:E; [|done]. apply (c_run _ C) in E.
      destruct (Hall a) as [|[|]]; congruence.
    + apply set_choose_L in Hsp as [a Ha]. apply (c_wait _ C) in Ha.
      destruct (Hall a) as [|[|]], Ha; congruence.
Qed.

Lemma stop_drains_witness :
  executes (trace (state_of (opts1 false) ((moves1 ++ moves3) ++ moves4))) =
  executes (trace (state_of (opts1 false) (moves1 ++ moves3))) ∧
  done (rt (state_of (opts1 false) ((moves1 ++ moves3) ++ moves4))) = true.
Proof.
  split; [|vm_compute; reflexivity].
  apply (stop_drains (opts1 false)).
  - apply state_of_reachable. vm_compute. eauto.
  - vm_compute. reflexivity.
  - apply state_of_rtc. vm_compute. eauto.
Defined.

(** C6 (NoInterleave) In a NoInterleave service every handler runs in one
    uninterrupted segment: it is granted once, when it is started, and until it
    finishes no step of the service lets another handler run. *)
Theorem no_interleave_atomic (o : ServiceOptions) (s : service) :
  NoInterleave o = true → reachable o s →
  grants (trace s) = executes (trace s) ∧ NoDup (grants (trace s)) ∧
  (∀ a s', phases s !! a = Some PRunning → rtc step s s' →
     phases s' !! a = Some PRunning ∧ grants (trace s') = grants (trace s) ∨
     phases s' !! a = Some PFinished).
Proof.
  intros Hni H. destruct (reachable_once o s Hni H) as [Ho Hp Hg].
  destruct (reachable_fates o s H). split_and!; [done| |].
  - rewrite Hg. by apply StronglySorted_gt_NoDup.
  - intros a s' Ha Hr. apply (holding_rtc a (grants (trace s)) s s'); try done.
    + by apply (reachable_wf o).
    + split; [done|auto].
Qed.

Lemma no_interleave_atomic_witness :
  phases (state_of (opts1 true) moves1) !! 0%nat = Some PRunning ∧
  NoDup (grants (trace (state_of (opts1 true) moves1))).
Proof.
  split; [vm_compute; reflexivity|].
  apply (no_interleave_atomic (opts1 true)); [reflexivity|].
  apply state_of_reachable. vm_compute. eauto.
Defined.

(** Interleaving marks: [InterleavedSince] tells exactly whether another
    activation ran during a suspension of this one since the mark was taken
    (as long as the loop has granted fewer than 2^64 segments). *)
Theorem interleaved_since (o : ServiceOptions) (s s' : service) (a : nat) :
  reachable o s → rtc step s s' → few (trace s') → is_Some (acts (rt s) !! a) →
  InterleavedSince (rt s') (Some a) (MarkTurn (rt s) (Some a)) = true ↔
  interleavings a (trace s) < interleavings a (trace s').
Proof.
  intros H Hr Hf [x Hx]. assert (reachable o s') as H' by (by apply (reachable_rtc o s)).
  destruct (rtc_extends _ _ Hr) as [_ [f Htr]].
  assert (few (trace s)) as Hf0.
  { unfold few in *. rewrite Htr, grants_app, length_app in Hf. lia. }
  destruct (reachable_versions o s H Hf0) as [_ _ Va].
  destruct (reachable_versions o s' H' Hf) as [_ _ Va'].
  destruct (Va a x Hx) as [V1 _ _ _].
  destruct (acts_rtc s s' a (reachable_wf o s H) Hr) as [y Hy]; [eauto|].
  destruct (Va' a y Hy) as [V2 _ _ _].
  pose proof (interleavings_mono a f (trace s)) as Hm. rewrite <-Htr in Hm.
  unfold InterleavedSince, MarkTurn, loadVersion. simpl. rewrite Hx, Hy, bool_decide_eq_true_2 by done.
  simpl. rewrite negb_true_iff, bool_decide_eq_false, V1, V2. lia.
Qed.

Lemma interleaved_since_witness :
  InterleavedSince (rt (state_of (opts1 false) (moves1 ++ moves2))) (Some 0%nat)
    (MarkTurn (rt (state_of (opts1 false) moves1)) (Some 0%nat)) = true.
Proof.
  apply (interleaved_since (opts1 false)).
  - apply state_of_reachable. vm_compute. eauto.
  - apply state_of_rtc. vm_compute. eauto.
  - vm_compute. reflexivity.
  - vm_compute. eauto.
  - vm_compute. reflexivity.
Defined.

End ServiceProps.
