(* ===== verification/System.v ===== *)
(** * The process-local registry of services (src/actor/system.go)

    A [system] is the state guarded by [System.mu] together with the heap of
    [Service] objects (pointers are identities).  Each operation is the critical
    section of the method it is named after; [step] interleaves them with the
    finalizer goroutine of [beginFinalize]. *)

From S2P Require Import Prelude Runtime.

Module System.

Inductive error :=
  | ErrServiceNotFound
  | ErrServiceNotReady
  | ErrServiceStopping
  | ErrStaleRef
  | ErrProtocolNotFound
  | ErrProtocolExists
  | ErrInvalidArgs
  | ErrDuplicateName
  | ErrHandlersImmutable
  | ErrCannotStart.

#[global] Instance error_eq_dec : EqDecision error.
Proof. solve_decision. Defined.

Record RemoteTarget := Target {
  t_Node : string;
  t_Incarnation : string;
  t_Service : string;
  t_Address : Z;
  t_Generation : Z;
}.

#[global] Instance target_eq_dec : EqDecision RemoteTarget.
Proof. solve_decision. Defined.

(** [r_system] is the System pointer, [None] for nil. *)
Record Ref := MkRef {
  r_Address : Z;
  r_Generation : Z;
  r_system : option nat;
  r_remote : option RemoteTarget;
}.

#[global] Instance ref_eq_dec : EqDecision Ref.
Proof. solve_decision. Defined.

Definition valid (r : Ref) : bool :=
  bool_decide (r_system r ≠ None) && bool_decide (r_Address r ≠ 0) &&
  bool_decide (r_Generation r ≠ 0).

Definition IsRemote (r : Ref) : bool := bool_decide (r_remote r ≠ None).

Inductive serviceState := serviceReserved | serviceRunning | serviceStopping | serviceStopped.

#[global] Instance serviceState_eq_dec : EqDecision serviceState.
Proof. solve_decision. Defined.

(** Codec, function and descriptor are pointers. *)
Record handlerEntry := Handler {
  h_codec : nat;
  h_fn : nat;
  h_descriptor : option nat;
}.

(** The goroutine started by [beginFinalize]: not started, waiting for the
    runtime's done channel ([true]) or for nothing, after [unpublish], and after
    [finalized] is closed. *)
Inductive finalizer := NotBegun | Waiting (runtime : bool) | Unpublished | Finalized.

#[global] Instance finalizer_eq_dec : EqDecision finalizer.
Proof. solve_decision. Defined.

Record Service := Svc {
  name : string;
  ref : Ref;
  sopts : Runtime.ServiceOptions;
  handlers : gmap string handlerEntry;
  state : serviceState;
  cancelled : bool;
  hasRuntime : bool;
  runtimeDone : bool;
  final : finalizer;
}.

Record system := Sys {
  self : nat;
  byName : gmap string nat;
  byAddress : gmap Z nat;
  nextAddress : Z;
  nextGeneration : Z;
  stopping : bool;
  heap : gmap nat Service;
  nextPtr : nat;
}.

Definition NewSystem (id : nat) : system := Sys id ∅ ∅ 0 0 false ∅ 0.

Definition set_svc (s : system) (p : nat) (v : Service) : system :=
  Sys (self s) (byName s) (byAddress s) (nextAddress s) (nextGeneration s) (stopping s)
    (<[p := v]> (heap s)) (nextPtr s).

(** ** Operations *)

(** The part of [Reserve] under the lock. *)
Definition reserve_locked (s : system) (n : string) (o : Runtime.ServiceOptions)
    : result error (system * nat * Ref) :=
  match byName s !! n with
  | Some _ => Err ErrDuplicateName
  | None =>
      let address := nextAddress s +u64 1 in
      let generation := nextGeneration s +u64 1 in
      let r := MkRef address generation (Some (self s)) None in
      let p := nextPtr s in
      Ok (Sys (self s) (<[n := p]> (byName s)) (<[address := p]> (byAddress s)) address generation
            (stopping s)
            (<[p := Svc n r (Runtime.withDefaults o) ∅ serviceReserved false false false NotBegun]>
               (heap s)) (S p), p, r)
  end.

Definition Reserve (s : system) (n : string) (o : Runtime.ServiceOptions)
    : result error (system * nat * Ref) :=
  if stopping s then Err ErrServiceStopping
  else if decide (n = "") then Err ErrInvalidArgs
  else reserve_locked s n o.

Definition Resolve (s : system) (n : string) : result error Ref :=
  match byName s !! n ≫= (heap s !!.) with
  | None => Err ErrServiceNotFound
  | Some v =>
      if decide (state v ≠ serviceRunning) then Err ErrServiceNotReady else Ok (ref v)
  end.

Definition service (s : system) (r : Ref) : result error nat :=
  if negb (valid r) || bool_decide (r_system r ≠ Some (self s)) then Err ErrStaleRef
  else
    match byAddress s !! r_Address r with
    | None => Err ErrStaleRef
    | Some p =>
        match heap s !! p with
        | None => Err ErrStaleRef
        | Some v =>
            if decide (r_Generation (ref v) ≠ r_Generation r) then Err ErrStaleRef
            else match state v with
                 | serviceRunning => Ok p
                 | serviceReserved => Err ErrServiceNotReady
                 | _ => Err ErrServiceStopping
                 end
        end
    end.

Definition handle (v : Service) (protocol : string) (codec fn : option nat) (descriptor : option nat)
    : result error Service :=
  match codec, fn with
  | Some c, Some f =>
      if decide (protocol = "") then Err ErrInvalidArgs
      else if decide (state v ≠ serviceReserved) then Err ErrHandlersImmutable
      else match handlers v !! protocol with
           | Some _ => Err ErrProtocolExists
           | None =>
               Ok (Svc (name v) (ref v) (sopts v) (<[protocol := Handler c f descriptor]> (handlers v))
                     (state v) (cancelled v) (hasRuntime v) (runtimeDone v) (final v))
           end
  | _, _ => Err ErrInvalidArgs
  end.

Definition handler (v : Service) (protocol : string) : result error handlerEntry :=
  match handlers v !! protocol with
  | Some h => Ok h
  | None => Err ErrProtocolNotFound
  end.

(** [Service.HasProtocol] and [System.HasProtocol]. *)
Definition svcHasProtocol (v : Service) (protocol : string) : bool :=
  if decide (protocol = "") then false else bool_decide (is_Some (handlers v !! protocol)).

Definition HasProtocol (s : system) (r : Ref) (protocol : string) : bool :=
  if negb (valid r) || bool_decide (r_system r ≠ Some (self s)) then false
  else match byAddress s !! r_Address r ≫= (heap s !!.) with
       | None => false
       | Some v => bool_decide (r_Generation (ref v) = r_Generation r) && svcHasProtocol v protocol
       end.

Definition Start (v : Service) : result error Service :=
  if decide (state v ≠ serviceReserved) then Err ErrCannotStart
  else Ok (Svc (name v) (ref v) (sopts v) (handlers v) serviceRunning (cancelled v) true
             (runtimeDone v) (final v)).

(** [finalizeOnce.Do]. *)
Definition beginFinalize (v : Service) (waitRuntime : bool) : Service :=
  match final v with
  | NotBegun => Svc (name v) (ref v) (sopts v) (handlers v) (state v) (cancelled v) (hasRuntime v)
                  (runtimeDone v) (Waiting waitRuntime)
  | _ => v
  end.

(** [Service.Stop] up to [waitFinalized].  [beginFinalize] runs after the lock is
    released; a [Start] in between commutes with it. *)
Definition Stop (v : Service) : Service :=
  match state v with
  | serviceStopped => v
  | serviceReserved =>
      beginFinalize (Svc (name v) (ref v) (sopts v) (handlers v) (state v) true (hasRuntime v)
                       (runtimeDone v) (final v)) false
  | serviceRunning =>
      beginFinalize (Svc (name v) (ref v) (sopts v) (handlers v) serviceStopping true (hasRuntime v)
                       (runtimeDone v) (final v)) (hasRuntime v)
  | serviceStopping => beginFinalize v (hasRuntime v)
  end.

Definition unpublish (s : system) (p : nat) (v : Service) : system :=
  Sys (self s)
    (if decide (byName s !! name v = Some p) then delete (name v) (byName s) else byName s)
    (if decide (byAddress s !! r_Address (ref v) = Some p)
     then delete (r_Address (ref v)) (byAddress s) else byAddress s)
    (nextAddress s) (nextGeneration s) (stopping s) (heap s) (nextPtr s).

Definition set_final (v : Service) (st : serviceState) (f : finalizer) : Service :=
  Svc (name v) (ref v) (sopts v) (handlers v) st (cancelled v) (hasRuntime v) (runtimeDone v) f.

(** The finalizer goroutine: unpublish, then store the state and close. *)
Definition finalize_unpublish (s : system) (p : nat) (v : Service) : option system :=
  match final v with
  | Waiting w =>
      if w && negb (runtimeDone v) then None
      else Some (set_svc (unpublish s p v) p (set_final v (state v) Unpublished))
  | _ => None
  end.

Definition finalize_close (s : system) (p : nat) (v : Service) : option system :=
  match final v with
  | Unpublished => Some (set_svc s p (set_final v serviceStopped Finalized))
  | _ => None
  end.

(** [System.Stop]: the flag and the services it will stop one after another. *)
Definition StopSystem (s : system) : system * list nat :=
  (Sys (self s) (byName s) (byAddress s) (nextAddress s) (nextGeneration s) true (heap s) (nextPtr s),
   (map_to_list (byAddress s)).*2).

(** ** Interleavings *)

Inductive step (s : system) : system → Prop :=
  (* [Reserve] checked [stopping] earlier, when it may still have been false *)
  | step_reserve n o s' p r :
      n ≠ "" → reserve_locked s n o = Ok (s', p, r) → step s s'
  | step_handle p v v' protocol codec fn d :
      heap s !! p = Some v → handle v protocol codec fn d = Ok v' → step s (set_svc s p v')
  | step_start p v v' :
      heap s !! p = Some v → Start v = Ok v' → step s (set_svc s p v')
  | step_stop p v :
      heap s !! p = Some v → step s (set_svc s p (Stop v))
  (* the event loop returns: only after its context was cancelled *)
  | step_runtime_done p v :
      heap s !! p = Some v → hasRuntime v = true → cancelled v = true →
      step s (set_svc s p (Svc (name v) (ref v) (sopts v) (handlers v) (state v) true true true (final v)))
  | step_unpublish p v s' :
      heap s !! p = Some v → finalize_unpublish s p v = Some s' → step s s'
  | step_close p v s' :
      heap s !! p = Some v → finalize_close s p v = Some s' → step s s'
  | step_stop_system :
      step s (StopSystem s).1.

Definition reachable (id : nat) (s : system) : Prop := rtc step (NewSystem id) s.

(** The service is registered: its finalizer has not unpublished it yet. *)
Definition published (v : Service) : bool :=
  match final v with NotBegun | Waiting _ => true | _ => false end.

(** ** Invariant *)

Record inv (s : system) : Prop := {
  i_address : nextAddress s = Z.of_nat (nextPtr s);
  i_generation : nextGeneration s = Z.of_nat (nextPtr s);
  i_ref : ∀ p v, heap s !! p = Some v → (p < nextPtr s)%nat ∧
    ref v = MkRef (Z.of_nat p + 1) (Z.of_nat p + 1) (Some (self s)) None;
  i_name : ∀ n p, byName s !! n = Some p ↔
    ∃ v, heap s !! p = Some v ∧ name v = n ∧ published v = true;
  i_addresses : ∀ a p, byAddress s !! a = Some p ↔
    ∃ v, heap s !! p = Some v ∧ r_Address (ref v) = a ∧ published v = true;
}.

Lemma inv_init id : inv (NewSystem id).
Proof. split; simpl; try done; intros ? ?; rewrite lookup_empty; naive_solver. Qed.

Lemma inv_set s p v v' :
  inv s → heap s !! p = Some v → name v' = name v → ref v' = ref v →
  published v' = published v → inv (set_svc s p v').
Proof.
  intros [] Hv Hn Hr Hp. split; simpl; try done.
  - intros q w. destruct (decide (q = p)) as [->|]; intros Hw; simplify_map_eq; [|eauto].
    rewrite Hr. eauto.
  - intros n q. rewrite i_name0. destruct (decide (q = p)) as [->|]; simplify_map_eq; [|done].
    split; intros (w & [= <-] & <- & ?); eexists; split_and!; (done || congruence).
  - intros a q. rewrite i_addresses0. destruct (decide (q = p)) as [->|]; simplify_map_eq; [|done].
    split; intros (w & [= <-] & <- & ?); eexists; split_and!; (done || congruence).
Qed.

Lemma beginFinalize_keeps v w :
  name (beginFinalize v w) = name v ∧ ref (beginFinalize v w) = ref v ∧
  handlers (beginFinalize v w) = handlers v ∧ state (beginFinalize v w) = state v ∧
  published (beginFinalize v w) = published v.
Proof. unfold beginFinalize, published. by destruct (final v) eqn:E; simpl; rewrite ?E. Qed.

Lemma Stop_keeps v :
  name (Stop v) = name v ∧ ref (Stop v) = ref v ∧ handlers (Stop v) = handlers v ∧
  published (Stop v) = published v.
Proof.
  unfold Stop. destruct (state v); [| | |done];
    match goal with |- context [beginFinalize ?x ?w] =>
      destruct (beginFinalize_keeps x w) as (-> & -> & -> & _ & ->) end; done.
Qed.

Lemma Stop_state v : state v ≠ serviceReserved → state (Stop v) ≠ serviceReserved.
Proof.
  unfold Stop. destruct (state v) eqn:E; intros H; [done| | |congruence];
    match goal with |- context [beginFinalize ?x ?w] =>
      destruct (beginFinalize_keeps x w) as (_ & _ & _ & -> & _) end; [done|congruence].
Qed.

Lemma handle_keeps v protocol c f d v' :
  handle v protocol c f d = Ok v' →
  state v = serviceReserved ∧ name v' = name v ∧ ref v' = ref v ∧ state v' = state v ∧
  published v' = published v.
Proof. unfold handle. intros E. repeat (case_match || case_decide); simplify_eq/=. split_and!; [|done..]. by apply dec_stable. Qed.

Lemma Start_keeps v v' :
  Start v = Ok v' →
  state v = serviceReserved ∧ name v' = name v ∧ ref v' = ref v ∧ handlers v' = handlers v ∧
  published v' = published v.
Proof. unfold Start. intros E. case_decide; simplify_eq/=. by split_and!. Qed.

Lemma inv_reserve s n o s' p r :
  inv s → Z.of_nat (nextPtr s') < 2 ^ 64 → reserve_locked s n o = Ok (s', p, r) → inv s'.
Proof.
  intros [] Hb. unfold reserve_locked. destruct (byName s !! n) eqn:Hn; [done|].
  intros [= <- <- <-]. simpl in Hb.
  assert (heap s !! nextPtr s = None) as Hf.
  { apply eq_None_not_Some. intros [v [? _]%i_ref0]. lia. }
  assert (nextAddress s +u64 1 = Z.of_nat (nextPtr s) + 1) as Ha by (rewrite i_address0; apply u64_small; lia).
  assert (nextGeneration s +u64 1 = Z.of_nat (nextPtr s) + 1) as Hg by (rewrite i_generation0; apply u64_small; lia).
  assert (byAddress s !! (Z.of_nat (nextPtr s) + 1) = None) as Hfa.
  { apply eq_None_not_Some. intros [q (v & Hv & Hva & _)%i_addresses0].
    destruct (i_ref0 q v Hv) as [Hq Hr]. rewrite Hr in Hva. simpl in Hva. lia. }
  rewrite Ha, Hg. split; simpl; [lia|lia|..].
  - intros q v. destruct (decide (q = nextPtr s)) as [->|]; intros Hv; simplify_map_eq.
    + split; [lia|done].
    + apply i_ref0 in Hv as [? ?]. split; [lia|done].
  - intros m q. destruct (decide (m = n)) as [->|]; simplify_map_eq.
    + split; [intros [= <-]; eexists; by simplify_map_eq|]. intros (v & Hv & Hm & Hpub).
      destruct (decide (q = nextPtr s)) as [->|]; simplify_map_eq; [done|].
      assert (byName s !! name v = Some q) by (apply i_name0; eauto). congruence.
    + rewrite i_name0. destruct (decide (q = nextPtr s)) as [->|]; simplify_map_eq; [naive_solver|done].
  - intros a q. destruct (decide (a = Z.of_nat (nextPtr s) + 1)) as [->|]; simplify_map_eq.
    + split; [intros [= <-]; eexists; by simplify_map_eq|]. intros (v & Hv & Hm & Hpub).
      destruct (decide (q = nextPtr s)) as [->|]; simplify_map_eq; [done|].
      destruct (i_ref0 q v Hv) as [Hq Hr]. rewrite Hr in Hm. simpl in Hm. lia.
    + rewrite i_addresses0. destruct (decide (q = nextPtr s)) as [->|]; simplify_map_eq; [naive_solver|done].
Qed.

Lemma inv_unpublish s p v s' :
  inv s → heap s !! p = Some v → finalize_unpublish s p v = Some s' → inv s'.
Proof.
  intros [] Hv. unfold finalize_unpublish. intros Hf.
  assert (published v = true) as Hp by (unfold published; by destruct (final v)).
  assert (s' = set_svc (unpublish s p v) p (set_final v (state v) Unpublished)) as ->.
  { repeat case_match; by simplify_eq. }
  assert (byName s !! name v = Some p) as Hn by (apply i_name0; eauto).
  assert (byAddress s !! r_Address (ref v) = Some p) as Ha by (apply i_addresses0; eauto).
  unfold unpublish. rewrite !decide_True by done.
  split; simpl; try done.
  - intros q w. destruct (decide (q = p)) as [->|]; intros Hw; simplify_map_eq; eauto.
  - intros n q. rewrite lookup_delete_Some, i_name0.
    destruct (decide (q = p)) as [->|]; simplify_map_eq; [naive_solver|].
    split; [naive_solver|]. intros (w & Hw & Hwn & Hwp). split; [|eauto].
    intros <-. assert (byName s !! name v = Some q) by (apply i_name0; eauto). congruence.
  - intros a q. rewrite lookup_delete_Some, i_addresses0.
    destruct (decide (q = p)) as [->|]; simplify_map_eq; [naive_solver|].
    split; [naive_solver|]. intros (w & Hw & Hwn & Hwp). split; [|eauto].
    intros <-. assert (byAddress s !! r_Address (ref v) = Some q) by (apply i_addresses0; eauto). congruence.
Qed.

Lemma inv_step s s' : inv s → Z.of_nat (nextPtr s') < 2 ^ 64 → step s s' → inv s'.
Proof.
  intros I Hb H. destruct H as [n o s' p r _ E|p v v' pr c f d Hv E|p v v' Hv E|p v Hv|p v Hv _ _|p v s' Hv E|p v s' Hv E|].
  - by eapply inv_reserve.
  - apply handle_keeps in E as (_ & ? & ? & _ & ?). by eapply inv_set.
  - apply Start_keeps in E as (_ & ? & ? & _ & ?). by eapply inv_set.
  - destruct (Stop_keeps v) as (? & ? & _ & ?). by eapply inv_set.
  - by eapply inv_set.
  - by eapply inv_unpublish.
  - unfold finalize_close in E. destruct (final v) eqn:Ef; try done. injection E as <-.
    eapply inv_set; [done..|]. unfold published, set_final. simpl. by rewrite Ef.
  - by destruct I.
Qed.

Lemma step_ptr s s' : step s s' → (nextPtr s ≤ nextPtr s')%nat ∧ self s' = self s.
Proof.
  intros [n o ? p r _ E|p v v' pr c f d Hv E|p v v' Hv E|p v Hv|p v Hv _ _|p v ? Hv E|p v ? Hv E|]; simpl; try (split; [lia|done]).
  - unfold reserve_locked in E. case_match; simplify_eq/=. split; [lia|done].
  - unfold finalize_unpublish in E. repeat case_match; simplify_eq/=; split; (lia || done).
  - unfold finalize_close in E. case_match; simplify_eq/=. split; [lia|done].
Qed.

Lemma rtc_ptr s s' : rtc step s s' → (nextPtr s ≤ nextPtr s')%nat ∧ self s' = self s.
Proof. induction 1 as [|? ? ? []%step_ptr _ []]; [done|split; [lia|congruence]]. Qed.

Lemma inv_rtc s s' : inv s → rtc step s s' → Z.of_nat (nextPtr s') < 2 ^ 64 → inv s'.
Proof.
  intros I H. induction H as [|s1 s2 s3 H12 H23 IH]; [done|]. intros Hb.
  apply IH; [|done]. eapply inv_step; [done| |done]. destruct (rtc_ptr _ _ H23). lia.
Qed.

(** The reference names exactly this generation of the service. *)
Definition names (r : Ref) (v : Service) : Prop :=
  r_system r = r_system (ref v) ∧ r_Address r = r_Address (ref v) ∧
  r_Generation r = r_Generation (ref v).

Lemma service_spec s r p :
  inv s →
  service s r = Ok p ↔
  ∃ v, heap s !! p = Some v ∧ published v = true ∧ state v = serviceRunning ∧ names r v.
Proof.
  intros []. unfold service, names. split.
  - destruct (negb (valid r) || _) eqn:Hv; [done|]. rewrite orb_false_iff in Hv. destruct Hv as [_ Hs].
    apply bool_decide_eq_false, dec_stable in Hs.
    destruct (byAddress s !! r_Address r) as [q|] eqn:Ha; [|done].
    apply i_addresses0 in Ha as (v & Hv & Hva & Hp). rewrite Hv.
    case_decide as Hg; [done|]. destruct (state v) eqn:Hst; try done. intros [= <-].
    exists v. split_and!; try done. by rewrite (proj2 (i_ref0 q v Hv)).
  - intros (v & Hv & Hp & Hst & Hs & Ha & Hg). destruct (i_ref0 p v Hv) as [Hlt Hr].
    assert (byAddress s !! r_Address r = Some p) as Hba by (apply i_addresses0; eauto).
    rewrite Hr in Hs, Ha, Hg. simpl in Hs, Ha, Hg. unfold valid.
    rewrite Hs, Hba, Hv, Hr, Ha, Hg. simpl.
    rewrite !bool_decide_eq_true_2 by (done || lia). simpl. rewrite bool_decide_eq_false_2 by tauto.
    rewrite decide_False by tauto. by rewrite Hst.
Qed.

Lemma service_stale s r p v :
  inv s → heap s !! p = Some v → published v = false → names r v → service s r = Err ErrStaleRef.
Proof.
  intros I Hv Hp (Hs & Ha & Hg). destruct (i_ref s I p v Hv) as [_ Hr].
  unfold service. case_match; [done|].
  destruct (byAddress s !! r_Address r) as [q|] eqn:Hq; [|done].
  apply (i_addresses s I) in Hq as (w & Hw & Hwa & Hwp).
  destruct (i_ref s I q w Hw) as [_ Hrw]. rewrite Ha, Hrw, Hr in Hwa. simpl in Hwa.
  assert (q = p) as -> by lia. congruence.
Qed.

(** A step never republishes a service nor rewrites its identity. *)
Lemma step_keeps s s' p v :
  inv s → step s s' → heap s !! p = Some v →
  ∃ v', heap s' !! p = Some v' ∧ name v' = name v ∧ ref v' = ref v ∧
        (published v = false → published v' = false) ∧
        (state v ≠ serviceReserved → state v' ≠ serviceReserved ∧ handlers v' = handlers v).
Proof.
  intros I H Hv.
  assert (∀ q w w', heap s !! q = Some w → name w' = name w → ref w' = ref w →
    (published w = false → published w' = false) →
    (state w ≠ serviceReserved → state w' ≠ serviceReserved ∧ handlers w' = handlers w) →
    ∃ v', <[q := w']> (heap s) !! p = Some v' ∧ name v' = name v ∧ ref v' = ref v ∧
      (published v = false → published v' = false) ∧
      (state v ≠ serviceReserved → state v' ≠ serviceReserved ∧ handlers v' = handlers v)) as Hset.
  { intros q w w' Hw Hn Hr Hp Hh. destruct (decide (p = q)) as [->|Hne].
    - rewrite lookup_insert_eq. simplify_eq. eauto 12.
    - rewrite lookup_insert_ne by done. eauto 12. }
  destruct H as [n o s' q r _ E|q w w' pr c f d Hw E|q w w' Hw E|q w Hw|q w Hw _ _|q w s' Hw E|q w s' Hw E|].
  - unfold reserve_locked in E. case_match; simplify_eq/=. exists v.
    destruct (i_ref s I p v Hv) as [Hlt _]. rewrite lookup_insert_ne by lia. by split_and!.
  - apply handle_keeps in E as (Hs & ? & ? & ? & Hp). apply (Hset q w); try done; congruence.
  - apply Start_keeps in E as (Hs & ? & ? & ? & Hp). apply (Hset q w); try done; congruence.
  - destruct (Stop_keeps w) as (? & ? & ? & Hp). apply (Hset q w); try done; [congruence|].
    intros Hs. split; [by apply Stop_state|done].
  - by apply (Hset q w).
  - unfold finalize_unpublish in E. repeat case_match; simplify_eq/=; by apply (Hset q w).
  - unfold finalize_close in E. case_match; simplify_eq/=. by apply (Hset q w).
  - eauto 10.
Qed.

Lemma rtc_keeps s s' p v :
  inv s → rtc step s s' → Z.of_nat (nextPtr s') < 2 ^ 64 → heap s !! p = Some v →
  ∃ v', heap s' !! p = Some v' ∧ name v' = name v ∧ ref v' = ref v ∧
        (published v = false → published v' = false) ∧
        (state v ≠ serviceReserved → state v' ≠ serviceReserved ∧ handlers v' = handlers v).
Proof.
  intros I H Hb. revert v I. induction H as [s|s s1 s2 H12 H23 IH]; intros v I Hv; [eauto 10|].
  destruct (step_keeps s s1 p v I H12 Hv) as (v1 & Hv1 & Hn & Hr & Hp & Hh).
  assert (inv s1) as I1.
  { eapply inv_step; [done| |done]. destruct (rtc_ptr _ _ H23). lia. }
  destruct (IH Hb v1 I1 Hv1) as (v2 & Hv2 & Hn2 & Hr2 & Hp2 & Hh2).
  exists v2. split_and!; try congruence; [auto|]. intros Hs. destruct (Hh Hs) as [Hs1 <-]. auto.
Qed.

(** ** A concrete history: reserve, stop, finalize and reserve again *)

Definition ex_opts : Runtime.ServiceOptions := Runtime.Options 0 0 0 0 0 0 false.
Definition or_new (x : result error (system * nat * Ref)) : system :=
  match x with Ok (s, _, _) => s | Err _ => NewSystem 0 end.
Definition ex_reserved : system := or_new (Reserve (NewSystem 0) "echo" ex_opts).
Definition ex_svc : Service :=
  Svc "echo" (MkRef 1 1 (Some 0%nat) None) (Runtime.withDefaults ex_opts) ∅ serviceReserved
    false false false NotBegun.
Definition ex_stopped : system := set_svc ex_reserved 0 (Stop ex_svc).
Definition ex_unpublished : system :=
  set_svc (unpublish ex_stopped 0 (Stop ex_svc)) 0 (set_final (Stop ex_svc) serviceReserved Unpublished).
Definition ex_again : system := or_new (Reserve ex_unpublished "echo" ex_opts).

Lemma ex_reserved_reachable : reachable 0 ex_reserved.
Proof. apply rtc_once. by apply (step_reserve _ "echo" ex_opts _ 0 (MkRef 1 1 (Some 0%nat) None)). Qed.

Lemma ex_unpublished_reachable : reachable 0 ex_unpublished.
Proof.
  eapply rtc_r; [eapply rtc_r; [apply ex_reserved_reachable|]|].
  - by apply (step_stop _ 0 ex_svc).
  - by apply (step_unpublish _ 0 (Stop ex_svc)).
Qed.

Lemma ex_again_rtc : rtc step ex_unpublished ex_again.
Proof. apply rtc_once. by apply (step_reserve _ "echo" ex_opts _ 1 (MkRef 2 2 (Some 0%nat) None)). Qed.

Definition ex_started : system :=
  set_svc ex_reserved 0 (Svc "echo" (MkRef 1 1 (Some 0%nat) None) (Runtime.withDefaults ex_opts) ∅
                           serviceRunning false true false NotBegun).

Lemma ex_started_reachable : reachable 0 ex_started.
Proof.
  eapply rtc_r; [apply ex_reserved_reachable|]. by apply (step_start _ 0 ex_svc).
Qed.

(** ** The registry's guarantees *)

(** C7 (generation safety) While fewer than 2^64 services have been reserved, a
    reference resolves to a service exactly when that service is registered and
    running and the reference carries its system, address and generation;
    [Resolve] returns such a reference for the registered name. *)
Theorem ref_resolution (id : nat) (s : system) (r : Ref) (n : string) (p : nat) :
  reachable id s → Z.of_nat (nextPtr s) < 2 ^ 64 →
  (service s r = Ok p ↔
   ∃ v, heap s !! p = Some v ∧ published v = true ∧ state v = serviceRunning ∧ names r v) ∧
  (Resolve s n = Ok r → ∃ q, byName s !! n = Some q ∧ service s r = Ok q).
Proof.
  intros H Hb. pose proof (inv_rtc _ _ (inv_init id) H Hb) as I. split; [by apply service_spec|].
  unfold Resolve. destruct (byName s !! n) as [q|] eqn:Hn; [|done]. simpl.
  pose proof Hn as (v & Hv & _ & Hp)%(i_name s I). rewrite Hv.
  case_decide as Hs; [done|]. intros [= <-].
  exists q. split; [done|]. apply service_spec; [done|]. exists v. by repeat split.
Qed.

Lemma ref_resolution_witness :
  service ex_reserved (MkRef 1 1 (Some 0%nat) None) = Ok 0%nat ↔
  ∃ v, heap ex_reserved !! 0%nat = Some v ∧ published v = true ∧ state v = serviceRunning ∧
       names (MkRef 1 1 (Some 0%nat) None) v.
Proof.
  apply (ref_resolution 0 ex_reserved _ "echo"); [exact ex_reserved_reachable|].
  vm_compute. reflexivity.
Defined.

(** C8 (stale references) Once the finalizer has unpublished a service, every
    reference to that generation is stale for ever: it never resolves again,
    also after the name or any other service is reserved, and the name is free
    for a new service. *)
Theorem stale_forever (id : nat) (s s' : system) (p : nat) (v : Service) (r : Ref) :
  reachable id s → rtc step s s' → Z.of_nat (nextPtr s') < 2 ^ 64 →
  heap s !! p = Some v → published v = false → names r v →
  service s' r = Err ErrStaleRef ∧ ∀ n, byName s' !! n ≠ Some p.
Proof.
  intros H Hr Hb Hv Hp Hn.
  assert (inv s) as I. { apply (inv_rtc _ _ (inv_init id) H). destruct (rtc_ptr _ _ Hr). lia. }
  destruct (rtc_keeps s s' p v I Hr Hb Hv) as (v' & Hv' & _ & Hrf & Hp' & _).
  pose proof (inv_rtc _ _ I Hr Hb) as I'. split.
  - eapply service_stale; eauto. unfold names in *. by rewrite Hrf.
  - intros n (w & Hw & _ & Hwp)%(i_name s' I'). rewrite Hv' in Hw. injection Hw as <-.
    rewrite Hp' in Hwp; done.
Qed.

Lemma stale_forever_witness :
  byName ex_again !! "echo" = Some 1%nat ∧
  service ex_again (MkRef 1 1 (Some 0%nat) None) = Err ErrStaleRef.
Proof.
  split; [vm_compute; reflexivity|].
  apply (stale_forever 0 ex_unpublished ex_again 0 (set_final (Stop ex_svc) serviceReserved Unpublished)).
  - exact ex_unpublished_reachable.
  - exact ex_again_rtc.
  - vm_compute. reflexivity.
  - vm_compute. reflexivity.
  - reflexivity.
  - unfold names. simpl. split_and!; reflexivity.
Defined.

(** Immutable handlers: from [Start] on a service's protocol table never
    changes. *)
Theorem handlers_immutable (id : nat) (s s' : system) (p : nat) (v : Service) :
  reachable id s → rtc step s s' → Z.of_nat (nextPtr s') < 2 ^ 64 →
  heap s !! p = Some v → state v ≠ serviceReserved →
  ∃ v', heap s' !! p = Some v' ∧ handlers v' = handlers v ∧ name v' = name v ∧ ref v' = ref v.
Proof.
  intros H Hr Hb Hv Hs.
  assert (inv s) as I. { apply (inv_rtc _ _ (inv_init id) H). destruct (rtc_ptr _ _ Hr). lia. }
  destruct (rtc_keeps s s' p v I Hr Hb Hv) as (v' & Hv' & ? & ? & _ & Hh).
  destruct (Hh Hs). eauto.
Qed.

Lemma handlers_immutable_witness :
  ∃ v', heap (StopSystem ex_started).1 !! 0%nat = Some v' ∧ handlers v' = ∅ ∧
        name v' = "echo" ∧ ref v' = MkRef 1 1 (Some 0%nat) None.
Proof.
  apply (handlers_immutable 0 ex_started _ 0
    (Svc "echo" (MkRef 1 1 (Some 0%nat) None) (Runtime.withDefaults ex_opts) ∅
       serviceRunning false true false NotBegun)).
  - exact ex_started_reachable.
  - apply rtc_once, step_stop_system.
  - vm_compute. reflexivity.
  - vm_compute. reflexivity.
  - done.
Defined.

End System.
