(* ===== verification/Session.v ===== *)
(** * Call sessions (src/actor/system.go, src/actor/system_runtime.go, src/actor/remote.go)

    A caller registers a session, admits its request and waits in the select of
    [callMailbox] (or of the goroutine of [DispatchRemoteAsync]) for the
    response, its timer, its context or the service's context.  [sessions] is
    the pending map, the one-slot response channels and the callers' program
    counters. *)

From S2P Require Import Prelude.

Module Session.

Inductive error :=
  | ErrCallTimeout
  | ErrServiceStopping
  | ErrContextDone
  | ErrAdmission
  | ErrHandler (code : nat).

Record callResult := Result { message : Z; cerr : option error }.

(** What ends the wait of a caller besides the response. *)
Inductive wake := timerC | ctxDone | svcDone.

Inductive caller :=
  | Admitting                   (* registered, the request is not enqueued yet *)
  | Refused                     (* admission failed *)
  | Selecting                   (* in the select *)
  | Receiving                   (* lost the race: in [<-response] *)
  | Returned (r : callResult).

Record sessions := Sessions {
  nextSession : Z;
  pending : gset Z;
  sending : gmap Z callResult;   (* deleted by completeSession, send outstanding *)
  response : gmap Z callResult;  (* message in the one-slot channel *)
  callers : gmap Z caller;
  unknown : Z;
  timedOut : Z;
}.

Definition empty : sessions := Sessions 0 ∅ ∅ ∅ ∅ 0 0.

(** ** Operations *)

Definition set_caller (s : sessions) (n : Z) (c : caller) : sessions :=
  Sessions (nextSession s) (pending s) (sending s) (response s) (<[n := c]> (callers s))
    (unknown s) (timedOut s).

Definition nextSessionID (s : sessions) : sessions * Z :=
  let n := nextSession s +u64 1 in
  (Sessions n (pending s) (sending s) (response s) (callers s) (unknown s) (timedOut s), n).

Definition registerSession (s : sessions) (n : Z) : sessions :=
  Sessions (nextSession s) ({[n]} ∪ pending s) (sending s) (response s) (callers s)
    (unknown s) (timedOut s).

(** [pending.LoadAndDelete]. *)
Definition cancelSession (s : sessions) (n : Z) : sessions * bool :=
  (Sessions (nextSession s) (pending s ∖ {[n]}) (sending s) (response s) (callers s)
     (unknown s) (timedOut s), bool_decide (n ∈ pending s)).

(** [completeSession] up to the channel send. *)
Definition completeSession (s : sessions) (n : Z) (r : callResult) : sessions * bool :=
  let '(s1, loaded) := cancelSession s n in
  if loaded
  then (Sessions (nextSession s1) (pending s1) (<[n := r]> (sending s1)) (response s1) (callers s1)
          (unknown s1) (timedOut s1), true)
  else (Sessions (nextSession s1) (pending s1) (sending s1) (response s1) (callers s1)
          (unknown s1 +u64 1) (timedOut s1), false).

(** [pending.response <- result]: blocks ([None]) when the slot is taken. *)
Definition sendResponse (s : sessions) (n : Z) (r : callResult) : option sessions :=
  match response s !! n with
  | Some _ => None
  | None => Some (Sessions (nextSession s) (pending s) (delete n (sending s))
                    (<[n := r]> (response s)) (callers s) (unknown s) (timedOut s))
  end.

Definition wakeError (w : wake) : error :=
  match w with
  | timerC => ErrCallTimeout
  | ctxDone => ErrContextDone
  | svcDone => ErrServiceStopping
  end.

(** A branch of the select other than the response. *)
Definition wakeCaller (s : sessions) (n : Z) (w : wake) : sessions :=
  let '(s1, cancelled) := cancelSession s n in
  if cancelled
  then
    let s2 := match w with
              | timerC => Sessions (nextSession s1) (pending s1) (sending s1) (response s1)
                            (callers s1) (unknown s1) (timedOut s1 +u64 1)
              | _ => s1
              end in
    set_caller s2 n (Returned (Result 0 (Some (wakeError w))))
  else set_caller s1 n Receiving.

(** Receiving the response: in the select or in [<-response]. *)
Definition receive (s : sessions) (n : Z) (r : callResult) : sessions :=
  Sessions (nextSession s) (pending s) (sending s) (delete n (response s))
    (<[n := Returned r]> (callers s)) (unknown s) (timedOut s).

Inductive step (s : sessions) : sessions → Prop :=
  | step_register s1 n :
      nextSessionID s = (s1, n) → step s (set_caller (registerSession s1 n) n Admitting)
  | step_admitted n :
      callers s !! n = Some Admitting → step s (set_caller s n Selecting)
  | step_refused n :
      callers s !! n = Some Admitting → step s (set_caller (cancelSession s n).1 n Refused)
  (* the holder of an admitted envelope answers it, possibly late *)
  | step_complete n c r :
      callers s !! n = Some c → c ≠ Admitting → c ≠ Refused →
      step s (completeSession s n r).1
  | step_send n r s' :
      sending s !! n = Some r → sendResponse s n r = Some s' → step s s'
  | step_wake n w :
      callers s !! n = Some Selecting → step s (wakeCaller s n w)
  | step_receive n c r :
      callers s !! n = Some c → c = Selecting ∨ c = Receiving → response s !! n = Some r →
      step s (receive s n r).

Definition reachable (s : sessions) : Prop := rtc step empty s.

(** ** Invariant *)

(** Where the answer of a session is. *)
Record placed (s : sessions) (n : Z) : Prop := {
  p_new : callers s !! n = None → n ∉ pending s ∧ sending s !! n = None ∧ response s !! n = None;
  p_admit : callers s !! n = Some Admitting →
    n ∈ pending s ∧ sending s !! n = None ∧ response s !! n = None;
  p_wait : callers s !! n = Some Selecting →
    (n ∈ pending s ∧ sending s !! n = None ∧ response s !! n = None) ∨
    (n ∉ pending s ∧ is_Some (sending s !! n) ∧ response s !! n = None) ∨
    (n ∉ pending s ∧ sending s !! n = None ∧ is_Some (response s !! n));
  p_receive : callers s !! n = Some Receiving →
    (n ∉ pending s ∧ is_Some (sending s !! n) ∧ response s !! n = None) ∨
    (n ∉ pending s ∧ sending s !! n = None ∧ is_Some (response s !! n));
  p_end : (callers s !! n = Some Refused ∨ ∃ r, callers s !! n = Some (Returned r)) →
    n ∉ pending s ∧ sending s !! n = None ∧ response s !! n = None;
}.

Record inv (s : sessions) : Prop := {
  i_next : nextSession s = Z.of_nat (size (callers s));
  i_fresh : ∀ n, is_Some (callers s !! n) → 0 < n ≤ nextSession s;
  i_placed : ∀ n, placed s n;
}.

(** The 64-bit session counter has not wrapped. *)
Definition few (s : sessions) : Prop := Z.of_nat (size (callers s)) < 2 ^ 64 - 1.

Lemma inv_empty : inv empty.
Proof.
  split; [done|by intros n [? ?]|]. intros n.
  assert (n ∉ pending empty ∧ sending empty !! n = None ∧ response empty !! n = None) as H
    by (split_and!; [set_solver|done|done]).
  split; intros Hc; try done; auto.
Qed.

(** Sessions other than the one a step is about stay where they are. *)
Lemma placed_ext s s' m :
  (m ∈ pending s' ↔ m ∈ pending s) → sending s' !! m = sending s !! m →
  response s' !! m = response s !! m → callers s' !! m = callers s !! m →
  placed s m → placed s' m.
Proof. intros Hp Hs Hr Hc []. split; rewrite ?Hp, ?Hs, ?Hr, ?Hc; auto. Qed.

Lemma size_caller (m : gmap Z caller) n c :
  is_Some (m !! n) → size (<[n := c]> m) = size m.
Proof. intros H. by apply map_size_insert_Some. Qed.

(** A step that moves session [n] only. *)
Lemma inv_move s s' n :
  inv s → nextSession s' = nextSession s → is_Some (callers s !! n) → is_Some (callers s' !! n) →
  (∀ m, m ≠ n → (m ∈ pending s' ↔ m ∈ pending s) ∧ sending s' !! m = sending s !! m ∧
     response s' !! m = response s !! m ∧ callers s' !! m = callers s !! m) →
  size (callers s') = size (callers s) → placed s' n → inv s'.
Proof.
  intros [] Hn Hc Hc' Hm Hsz Hp. split.
  - by rewrite Hn, Hsz.
  - intros m Hs. rewrite Hn. destruct (decide (m = n)) as [->|Hne]; [auto|].
    apply i_fresh0. by rewrite <-(proj2 (proj2 (proj2 (Hm m Hne)))).
  - intros m. destruct (decide (m = n)) as [->|Hne]; [done|].
    destruct (Hm m Hne) as (? & ? & ? & ?). by eapply placed_ext.
Qed.

(** Maps and sets agree away from [n]. *)
Ltac elsewhere :=
  intros m Hm; simpl; split_and!;
  [set_solver|by rewrite ?lookup_insert_ne, ?lookup_delete_ne by done..].

Lemma register_inv s s1 n :
  inv s → few s → nextSessionID s = (s1, n) → inv (set_caller (registerSession s1 n) n Admitting).
Proof.
  unfold few. intros [] Hf. unfold nextSessionID. intros [= <- <-]. rewrite u64_small by lia.
  set (n := nextSession s + 1).
  assert (callers s !! n = None) as Hn.
  { apply eq_None_not_Some. intros H%i_fresh0. lia. }
  destruct (p_new _ _ (i_placed0 n) Hn) as (H1 & H2 & H3). split; simpl.
  - rewrite map_size_insert_None by done. lia.
  - intros m. destruct (decide (m = n)) as [->|]; simplify_map_eq; [lia|].
    intros H%i_fresh0. lia.
  - intros m. destruct (decide (m = n)) as [->|Hne].
    + split; simpl; rewrite lookup_insert_eq; try (by intros); [|naive_solver].
      intros _. split_and!; [set_solver|done|done].
    + eapply placed_ext; [..|apply (i_placed0 m)]; simpl; [set_solver|done|done|by rewrite lookup_insert_ne].
Qed.

Lemma complete_inv s n c r :
  inv s → callers s !! n = Some c → c ≠ Admitting → c ≠ Refused → inv (completeSession s n r).1.
Proof.
  intros I Hc Ha Hr. unfold completeSession, cancelSession.
  pose proof (i_placed _ I n) as [P1 P2 P3 P4 P5]. rewrite Hc in *.
  case_bool_decide as Hp; simpl.
  - apply (inv_move s _ n); simpl; try done; try (by rewrite Hc; eauto); [elsewhere|].
    assert (c = Selecting) as ->.
    { destruct c; try done; [|]; naive_solver. }
    destruct (P3 eq_refl) as [(_ & Hs & Hrs)|[(? & _)|(? & _)]]; [|done..].
    split; simpl; rewrite Hc; try (by intros); [|naive_solver].
    intros _. right; left. rewrite lookup_insert_eq. split_and!; [set_solver|eauto|done].
  - apply (inv_move s _ n); simpl; try done; try (by rewrite Hc; eauto); [elsewhere|].
    split; simpl; rewrite Hc; intros H; [done|naive_solver|..].
    + destruct (P3 H) as [(? & _)|[H'|H']]; [done| |]; set_solver.
    + destruct (P4 H) as [H'|H']; set_solver.
    + destruct (P5 H). set_solver.
Qed.

Lemma send_inv s n r s' :
  inv s → sending s !! n = Some r → sendResponse s n r = Some s' → inv s'.
Proof.
  intros I Hs. unfold sendResponse. destruct (response s !! n) eqn:Hrs; [done|]. intros [= <-].
  pose proof (i_placed _ I n) as [P1 P2 P3 P4 P5].
  destruct (callers s !! n) as [c|] eqn:Hc; [|destruct (P1 eq_refl) as (_ & ? & _); congruence].
  assert (n ∉ pending s ∧ (c = Selecting ∨ c = Receiving)) as [Hp Hcc].
  { destruct c.
    - destruct (P2 eq_refl) as (_ & ? & _). congruence.
    - destruct P5 as (_ & ? & _); [by left|congruence].
    - destruct (P3 eq_refl) as [(_ & ? & _)|[(? & _)|(_ & ? & _)]]; [congruence|auto|congruence].
    - destruct (P4 eq_refl) as [(? & _)|(_ & ? & _)]; [auto|congruence].
    - destruct P5 as (_ & ? & _); [eauto|congruence]. }
  apply (inv_move s _ n); simpl; try done; try (by rewrite Hc; eauto); [elsewhere|].
  split; simpl; rewrite Hc, lookup_delete_eq, lookup_insert_eq; intros H.
  - done.
  - destruct Hcc; congruence.
  - right; right. eauto.
  - right. eauto.
  - destruct Hcc as [->| ->]; destruct H as [|[? ?]]; congruence.
Qed.

Lemma wake_inv s n w : inv s → callers s !! n = Some Selecting → inv (wakeCaller s n w).
Proof.
  intros I Hc. unfold wakeCaller, cancelSession.
  pose proof (p_wait _ _ (i_placed _ I n) Hc) as P. case_bool_decide as Hp; simpl.
  - apply (inv_move s _ n); try (by destruct w); try (by rewrite Hc; eauto).
    + destruct w; simpl; rewrite lookup_insert_eq; eauto.
    + destruct w; elsewhere.
    + destruct w; simpl; rewrite size_caller by (rewrite Hc; eauto); done.
    + destruct P as [(_ & Hs & Hr)|[(? & _)|(? & _)]]; [|done..].
      destruct w; split; simpl; rewrite lookup_insert_eq; intros H; try done; set_solver.
  - apply (inv_move s _ n); simpl; try done; try (by rewrite Hc; eauto);
      [rewrite lookup_insert_eq; eauto|elsewhere|by rewrite size_caller by (rewrite Hc; eauto)|].
    split; simpl; rewrite lookup_insert_eq; intros H; try done; [|naive_solver].
    destruct P as [(? & _)|[(_ & H1 & H2)|(_ & H1 & H2)]]; [done|left|right]; set_solver.
Qed.

Lemma receive_inv s n c r :
  inv s → callers s !! n = Some c → c = Selecting ∨ c = Receiving → response s !! n = Some r →
  inv (receive s n r).
Proof.
  intros I Hc Hcc Hr. pose proof (i_placed _ I n) as [_ _ P3 P4 _]. rewrite Hc in *.
  assert (n ∉ pending s ∧ sending s !! n = None) as [Hp Hs].
  { destruct Hcc as [->| ->]; [destruct (P3 eq_refl) as [H|[H|H]]|destruct (P4 eq_refl) as [H|H]];
      destruct H as (? & ? & ?); try congruence; done. }
  apply (inv_move s _ n); simpl; try done; try (by rewrite Hc; eauto);
    [rewrite lookup_insert_eq; eauto|elsewhere|by rewrite size_caller by (rewrite Hc; eauto)|].
  split; simpl; rewrite lookup_insert_eq, lookup_delete_eq; intros H; try done; naive_solver.
Qed.

Lemma step_inv s s' : inv s → few s → step s s' → inv s'.
Proof.
  intros I Hf [s1 n E|n Hc|n Hc|n c r Hc Ha Hr|n r ? Hs E|n w Hc|n c r Hc Hcc Hr].
  - by apply register_inv with s.
  - pose proof (p_admit _ _ (i_placed _ I n) Hc) as P.
    apply (inv_move s _ n); simpl; try done; try (by rewrite Hc; eauto);
      [rewrite lookup_insert_eq; eauto|elsewhere|by rewrite size_caller by (rewrite Hc; eauto)|].
    split; simpl; rewrite lookup_insert_eq; intros H; try done; [by left|naive_solver].
  - pose proof (p_admit _ _ (i_placed _ I n) Hc) as P.
    apply (inv_move s _ n); simpl; try done; try (by rewrite Hc; eauto);
      [rewrite lookup_insert_eq; eauto|elsewhere|by rewrite size_caller by (rewrite Hc; eauto)|].
    split; simpl; rewrite lookup_insert_eq; intros H; try done. set_solver.
  - by eapply complete_inv.
  - by eapply send_inv.
  - by apply wake_inv.
  - by eapply receive_inv.
Qed.

Lemma insert_size (m : gmap Z caller) n c : (size m ≤ size (<[n := c]> m))%nat.
Proof.
  destruct (m !! n) eqn:E.
  - rewrite map_size_insert_Some; [done|eauto].
  - rewrite map_size_insert_None by done. lia.
Qed.

Lemma step_size s s' : step s s' → (size (callers s) ≤ size (callers s'))%nat.
Proof.
  intros [s1 n E|n Hc|n Hc|n c r Hc Ha Hr|n r ? Hs E|n w Hc|n c r Hc Hcc Hr]; simpl; try apply insert_size.
  - unfold nextSessionID in E. injection E as <- _. apply insert_size.
  - unfold completeSession, cancelSession. by case_bool_decide.
  - unfold sendResponse in E. case_match; [done|]. by injection E as <-.
  - unfold wakeCaller, cancelSession. case_bool_decide; [destruct w|]; apply insert_size.
Qed.

Lemma rtc_size s s' : rtc step s s' → (size (callers s) ≤ size (callers s'))%nat.
Proof. induction 1 as [|? ? ? H%step_size _ ?]; lia. Qed.

Lemma rtc_inv s s' : inv s → rtc step s s' → few s' → inv s'.
Proof.
  intros I H. induction H as [|s1 s2 s3 H12 H23 IH]; [done|]. intros Hf. apply IH; [|done].
  eapply step_inv; [done| |done]. unfold few in *. apply step_size in H12.
  pose proof (rtc_size _ _ H23). lia.
Qed.

(** A returned caller keeps its result. *)
Lemma step_returned s s' n r :
  inv s → few s → step s s' → callers s !! n = Some (Returned r) → callers s' !! n = Some (Returned r).
Proof.
  intros I Hf H Hn. unfold few in Hf.
  assert (∀ m c c', callers s !! m = Some c → (∀ r, c ≠ Returned r) →
            <[m := c']> (callers s) !! n = Some (Returned r)) as Hins.
  { intros m c c' Hm Hc. rewrite lookup_insert_ne; [done|]. intros ->. naive_solver. }
  destruct H as [s1 m E|m Hc|m Hc|m c x Hc Ha Hr|m x ? Hs E|m w Hc|m c x Hc Hcc Hr]; simpl;
    try (by eapply Hins).
  - unfold nextSessionID in E. injection E as <- <-. simpl. rewrite lookup_insert_ne; [done|].
    destruct (i_fresh _ I n) as [? ?]; [eauto|]. pose proof (i_next _ I).
    rewrite u64_small by lia. lia.
  - unfold completeSession, cancelSession. by case_bool_decide.
  - unfold sendResponse in E. case_match; [done|]. by injection E as <-.
  - unfold wakeCaller, cancelSession. case_bool_decide; [destruct w|]; by eapply Hins.
  - destruct Hcc as [->| ->]; by eapply Hins.
Qed.

Lemma rtc_returned s s' n r :
  inv s → rtc step s s' → few s' →
  callers s !! n = Some (Returned r) → callers s' !! n = Some (Returned r).
Proof.
  intros I H Hf. induction H as [|s1 s2 s3 H12 H23 IH]; [done|]. intros Hn.
  assert (few s1) as Hf1.
  { unfold few in *. apply step_size in H12. pose proof (rtc_size _ _ H23). lia. }
  apply IH; [by apply (step_inv s1)|done|by apply (step_returned s1)].
Qed.

(** A call that times out before its handler answers. *)
Definition ex_timeout : sessions :=
  wakeCaller (set_caller (set_caller (registerSession (nextSessionID empty).1 1) 1 Admitting)
                1 Selecting) 1 timerC.
Definition ex_late : sessions := (completeSession ex_timeout 1 (Result 7 None)).1.

Lemma ex_timeout_reachable : reachable ex_timeout.
Proof.
  eapply rtc_l; [by apply (step_register _ (nextSessionID empty).1 1)|].
  eapply rtc_l; [by apply (step_admitted _ 1)|].
  apply rtc_once. by apply step_wake.
Qed.

Lemma ex_late_rtc : rtc step ex_timeout ex_late.
Proof.
  apply rtc_once.
  by apply (step_complete _ 1 (Returned (Result 0 (Some ErrCallTimeout)))).
Qed.

(** C9 (one outcome per call) The goroutine that answers a session never blocks
    on its channel; a caller that lost the race against the answer is certain to
    receive it; and a call that returned keeps its outcome for ever, every later
    answer being counted as unknown instead of delivered. *)
Theorem session_one_outcome (s s' : sessions) (n : Z) :
  reachable s → rtc step s s' → few s' →
  (∀ r, sending s !! n = Some r → is_Some (sendResponse s n r)) ∧
  (callers s !! n = Some Receiving → is_Some (sending s !! n) ∨ is_Some (response s !! n)) ∧
  (∀ r, callers s !! n = Some (Returned r) →
     callers s' !! n = Some (Returned r) ∧
     ∀ late, (completeSession s' n late).2 = false).
Proof.
  intros H Hr Hf. assert (few s) as Hf0.
  { unfold few in *. pose proof (rtc_size _ _ Hr). lia. }
  pose proof (rtc_inv _ _ inv_empty H Hf0) as I. pose proof (rtc_inv _ _ I Hr Hf) as I'.
  pose proof (i_placed _ I n) as [P1 P2 P3 P4 P5]. split_and!.
  - intros r Hs. unfold sendResponse. destruct (response s !! n) as [x|] eqn:Hx; [|eauto].
    exfalso. destruct (callers s !! n) as [[]|] eqn:Hc.
    + destruct (P2 eq_refl) as (_ & ? & _). congruence.
    + destruct P5 as (_ & ? & _); [by left|congruence].
    + destruct (P3 eq_refl) as [(_ & _ & ?)|[(_ & _ & ?)|(_ & ? & _)]]; congruence.
    + destruct (P4 eq_refl) as [(_ & _ & ?)|(_ & ? & _)]; congruence.
    + destruct P5 as (_ & ? & _); [eauto|congruence].
    + destruct (P1 eq_refl) as (_ & ? & _). congruence.
  - intros Hc. destruct (P4 Hc) as [(_ & ? & _)|(_ & _ & ?)]; auto.
  - intros r Hc. pose proof (rtc_returned _ _ _ _ I Hr Hf Hc) as Hc'. split; [done|].
    intros late. unfold completeSession, cancelSession.
    rewrite bool_decide_eq_false_2; [done|].
    apply (p_end _ _ (i_placed _ I' n)). eauto.
Qed.

Lemma session_one_outcome_witness :
  (completeSession ex_late 1 (Result 9 None)).2 = false ∧
  callers ex_late !! 1 = Some (Returned (Result 0 (Some ErrCallTimeout))).
Proof.
  destruct (session_one_outcome ex_timeout ex_late 1) as (_ & _ & H).
  - exact ex_timeout_reachable.
  - exact ex_late_rtc.
  - vm_compute. reflexivity.
  - destruct (H (Result 0 (Some ErrCallTimeout))) as [H1 H2]; [vm_compute; reflexivity|].
    split; [apply H2|exact H1].
Defined.

End Session.
