(* ===== verification/Dispatch.v ===== *)
(** * From a call to a mailbox (src/actor/system.go, src/actor/system_runtime.go,
    src/actor/remote.go, src/actor/method.go)

    The checks between an API call and the admission of its request, and the
    call path every handler's context carries.  A [dispatch] is a request that
    passed them: the service it goes to, how the caller waits and the call path
    the handler will run with. *)

From S2P Require Import Prelude Runtime System.

Module Dispatch.

Record CallFrame := Frame { Node : string; Service : string; Protocol : string }.

#[global] Instance frame_eq_dec : EqDecision CallFrame.
Proof. solve_decision. Defined.

(** The actor-owned value of a context; a context without one has the zero value. *)
Record actorContextState := Ctx { activation : option nat; callPath : list CallFrame }.

Definition Background : actorContextState := Ctx None [].

(** ** Call paths ([None] is the nil context) *)

Definition CallPath (ctx : option actorContextState) : list CallFrame :=
  match ctx with None => [] | Some st => callPath st end.

Definition WithCallPath (ctx : option actorContextState) (path : list CallFrame) : actorContextState :=
  Ctx (match ctx with None => None | Some st => activation st end) path.

Definition activationFromContext (ctx : option actorContextState) : option nat :=
  match ctx with None => None | Some st => activation st end.

Definition callPathContains (ctx : option actorContextState) (node svc : string) : bool :=
  existsb (λ f, bool_decide (Node f = node) && bool_decide (Service f = svc)) (CallPath ctx).

Definition frameName (f : CallFrame) : string :=
  let name := if decide (Node f ≠ "") then (Node f +:+ "/" +:+ Service f) else Service f in
  if decide (Protocol f ≠ "") then (name +:+ "." +:+ Protocol f) else name.

Fixpoint join (sep : string) (l : list string) : string :=
  match l with
  | [] => ""
  | [x] => x
  | x :: l' => (x +:+ sep +:+ join sep l')
  end.

Definition formatCallCycle (ctx : option actorContextState) (node svc protocol : string) : string :=
  ("chain=" +:+ join " -> " (frameName <$> (CallPath ctx ++ [Frame node svc protocol]))).

Definition handlerContext (base : option actorContextState) (act : nat) (f : CallFrame)
    : actorContextState :=
  Ctx (Some act) (CallPath base ++ [f]).

(** ** Waiting *)

(** What [Call] reads of the calling activation. *)
Record callerInfo := Caller { noYield : Z; callerNoInterleave : bool }.

Inductive awaitMode := External | Direct | Yield.

(** The guards of [awaitActivationTyped]: [None] is ErrYieldForbidden. *)
Definition awaitActivationTyped (c : callerInfo) : option awaitMode :=
  if decide (noYield c > 0) then None
  else if callerNoInterleave c then Some Direct else Some Yield.

(** ** Dispatch *)

Inductive derror :=
  | Registry (e : System.error)
  | ErrCallCycle (chain : string)
  | ErrYieldForbidden
  | ErrProtocolTypeMismatch
  | ErrCodec
  | ErrRemoteUnavailable.

Record dispatch := Dispatched {
  target : nat;
  entry : System.handlerEntry;
  waits : option awaitMode;   (* None: fire and forget *)
  path : list CallFrame;      (* the call path of the handler *)
}.

Inductive outcome :=
  | Local (d : dispatch)
  | Remote (t : System.RemoteTarget) (m : awaitMode) (p : list CallFrame).

Section dispatch.
(** The process's systems, their node identities, the activations contexts point
    to, whether a system has a transport, and the wire side of codecs
    (fingerprint and request decoder). *)
Context (systems : gmap nat System.system) (nodeID : nat → string)
        (acts : nat → callerInfo) (transport : nat → bool)
        (fingerprint : nat → option string) (decodes : nat → list Z → bool).

(** [ref.valid()], then [ref.system.service(ref)] and the Service it points to. *)
Definition lookupService (r : System.Ref) : result derror (System.system * nat * System.Service) :=
  if negb (System.valid r) then Err (Registry System.ErrStaleRef)
  else match System.r_system r ≫= (systems !!.) with
       | None => Err (Registry System.ErrStaleRef)
       | Some s =>
           match System.service s r with
           | Err e => Err (Registry e)
           | Ok p => match System.heap s !! p with
                     | Some v => Ok (s, p, v)
                     | None => Err (Registry System.ErrStaleRef)
                     end
           end
       end.

Definition lookupHandler (v : System.Service) (protocol : string) : result derror System.handlerEntry :=
  match System.handler v protocol with Ok h => Ok h | Err e => Err (Registry e) end.

Definition Call (ctx : option actorContextState) (r : System.Ref) (protocol : string)
    : result derror dispatch :=
  if decide (ctx = None) then Err (Registry System.ErrInvalidArgs)
  else
    match lookupService r with
    | Err e => Err e
    | Ok (s, p, v) =>
        match lookupHandler v protocol with
        | Err e => Err e
        | Ok h =>
            let act := activationFromContext ctx in
            let node := nodeID (System.self s) in
            let mayYield := match act with None => true | Some a => bool_decide (noYield (acts a) = 0) end in
            if mayYield && Runtime.NoInterleave (System.sopts v) &&
               callPathContains ctx node (System.name v)
            then Err (ErrCallCycle (formatCallCycle ctx node (System.name v) protocol))
            else
              let d m := Dispatched p h (Some m) (CallPath ctx ++ [Frame node (System.name v) protocol]) in
              match act with
              | None => Ok (d External)
              | Some a => match awaitActivationTyped (acts a) with
                          | None => Err ErrYieldForbidden
                          | Some m => Ok (d m)
                          end
              end
        end
    end.

(** [Send] and [TrySend] up to admission: the envelope keeps the sender's context. *)
Definition Send (ctx : option actorContextState) (r : System.Ref) (protocol : string)
    : result derror dispatch :=
  if decide (ctx = None) then Err (Registry System.ErrInvalidArgs)
  else
    match lookupService r with
    | Err e => Err e
    | Ok (s, p, v) =>
        match lookupHandler v protocol with
        | Err e => Err e
        | Ok h => Ok (Dispatched p h None
                        (CallPath ctx ++ [Frame (nodeID (System.self s)) (System.name v) protocol]))
        end
    end.

(** [DispatchRemoteAsync] on system [id] up to admission. *)
Definition DispatchRemoteAsync (id : nat) (ctx : option actorContextState) (t : System.RemoteTarget)
    (protocol fp : string) (payload : list Z) (notify : bool) : result derror dispatch :=
  if bool_decide (System.t_Node t ≠ "") && bool_decide (nodeID id ≠ "") &&
     bool_decide (System.t_Node t ≠ nodeID id)
  then Err (Registry System.ErrStaleRef)
  else
    let r := System.MkRef (System.t_Address t) (System.t_Generation t) (Some id) None in
    match lookupService r with
    | Err e => Err e
    | Ok (s, p, v) =>
        match lookupHandler v protocol with
        | Err e => Err e
        | Ok h =>
            if decide (fingerprint (System.h_codec h) ≠ Some fp) then Err ErrProtocolTypeMismatch
            else if negb (decodes (System.h_codec h) payload) then Err ErrCodec
            else if notify then Send ctx r protocol
            else if Runtime.NoInterleave (System.sopts v) &&
                    callPathContains ctx (nodeID id) (System.name v)
            then Err (ErrCallCycle (formatCallCycle ctx (nodeID id) (System.name v) protocol))
            else Ok (Dispatched p h (Some External)
                       (CallPath ctx ++ [Frame (nodeID id) (System.name v) protocol]))
        end
    end.

Definition validateDescriptor (r : System.Ref) (name : string) (token : option nat) : result derror unit :=
  match token with
  | None => Err ErrProtocolTypeMismatch
  | Some k =>
      if decide (name = "") then Err ErrProtocolTypeMismatch
      else match lookupService r with
           | Err e => Err e
           | Ok (_, _, v) =>
               match lookupHandler v name with
               | Err e => Err e
               | Ok h => if decide (System.h_descriptor h ≠ Some k) then Err ErrProtocolTypeMismatch
                         else Ok tt
               end
           end
  end.

(** [callRemote] up to the transport's Call; [marshals] is the success of
    MarshalRequest. *)
Definition callRemote (ctx : option actorContextState) (r : System.Ref) (marshals : bool)
    : result derror outcome :=
  if decide (ctx = None) then Err (Registry System.ErrInvalidArgs)
  else
    match System.r_system r, System.r_remote r with
    | Some id, Some t =>
        if negb (transport id) then Err ErrRemoteUnavailable
        else if negb marshals then Err ErrCodec
        else match activationFromContext ctx with
             | None => Ok (Remote t External (CallPath ctx))
             | Some a => match awaitActivationTyped (acts a) with
                         | None => Err ErrYieldForbidden
                         | Some m => Ok (Remote t m (CallPath ctx))
                         end
             end
    | _, _ => Err ErrRemoteUnavailable
    end.

(** [Method.Call]: [wire] is the descriptor's wire codec, if any, as the success
    of its MarshalRequest. *)
Definition MethodCall (name : string) (token : option nat) (wire : option bool)
    (ctx : option actorContextState) (r : System.Ref) : result derror outcome :=
  match System.r_remote r with
  | Some t =>
      match token, wire with
      | Some _, Some marshals => callRemote ctx r marshals
      | _, _ => Err ErrCodec
      end
  | None =>
      match validateDescriptor r name token with
      | Err e => Err e
      | Ok _ => match Call ctx r name with Err e => Err e | Ok d => Ok (Local d) end
      end
  end.

End dispatch.

(** ** Chains of handlers *)

Definition frameIs (node svc : string) (f : CallFrame) : bool :=
  bool_decide (Node f = node) && bool_decide (Service f = svc).

(** [chain NI path live]: a handler running with call path [path]; [live] are the
    frames of handlers that wait, each for the next, up to this one.  A call
    extends both, a notification starts a new [live] because nobody waits for
    it.  [NI] tells which services of which node are NoInterleave. *)
Inductive chain (NI : string → string → bool) : list CallFrame → list CallFrame → Prop :=
  | chain_root : chain NI [] []
  | chain_call systems nodeID acts act pth live r protocol d s p v :
      chain NI pth live →
      (∀ a, act = Some a → 0 ≤ noYield (acts a)) →
      lookupService systems r = Ok (s, p, v) →
      Runtime.NoInterleave (System.sopts v) = NI (nodeID (System.self s)) (System.name v) →
      Call systems nodeID acts (Some (Ctx act pth)) r protocol = Ok d →
      chain NI (path d) (live ++ [Frame (nodeID (System.self s)) (System.name v) protocol])
  | chain_send systems nodeID act pth live r protocol d s p v :
      chain NI pth live →
      lookupService systems r = Ok (s, p, v) →
      Send systems nodeID (Some (Ctx act pth)) r protocol = Ok d →
      chain NI (path d) [Frame (nodeID (System.self s)) (System.name v) protocol]
  | chain_remote systems nodeID fps dec id act pth live t protocol fp payload d s p v :
      chain NI pth live →
      lookupService systems
        (System.MkRef (System.t_Address t) (System.t_Generation t) (Some id) None) = Ok (s, p, v) →
      System.self s = id →
      Runtime.NoInterleave (System.sopts v) = NI (nodeID id) (System.name v) →
      DispatchRemoteAsync systems nodeID fps dec id (Some (Ctx act pth)) t protocol fp payload false = Ok d →
      chain NI (path d) (live ++ [Frame (nodeID id) (System.name v) protocol]).

(** ** Lemmas *)

Lemma callPathContains_false ctx node svc :
  callPathContains ctx node svc = false → List.filter (frameIs node svc) (CallPath ctx) = [].
Proof.
  unfold callPathContains. intros H. induction (CallPath ctx) as [|f l IH]; [done|].
  simpl in *. apply orb_false_iff in H as [H1 H2]. unfold frameIs at 1. by rewrite H1, IH.
Qed.

Lemma awaitActivationTyped_ok c m : awaitActivationTyped c = Some m → noYield c ≤ 0.
Proof. unfold awaitActivationTyped. case_decide; [done|]. intros _. lia. Qed.

Lemma Call_ok systems nodeID acts act pth r protocol d s p v :
  (∀ a, act = Some a → 0 ≤ noYield (acts a)) →
  lookupService systems r = Ok (s, p, v) →
  Call systems nodeID acts (Some (Ctx act pth)) r protocol = Ok d →
  path d = pth ++ [Frame (nodeID (System.self s)) (System.name v) protocol] ∧
  (Runtime.NoInterleave (System.sopts v) = true →
   callPathContains (Some (Ctx act pth)) (nodeID (System.self s)) (System.name v) = false).
Proof.
  intros Hny Hl. unfold Call. rewrite decide_False by done. rewrite Hl.
  destruct (lookupHandler v protocol) as [h|?]; [|done]. simpl.
  assert (∀ m, match act with None => True | Some a => awaitActivationTyped (acts a) = Some m end →
    match act with None => true | Some a => bool_decide (noYield (acts a) = 0) end = true) as Hmay.
  { intros m Hm. destruct act as [a|]; [|done]. apply awaitActivationTyped_ok in Hm.
    apply bool_decide_eq_true. specialize (Hny a eq_refl). lia. }
  destruct (_ && _ && _) eqn:Hc; [done|]. intros H.
  assert (path d = pth ++ [Frame (nodeID (System.self s)) (System.name v) protocol] ∧
    match act with None => true | Some a => bool_decide (noYield (acts a) = 0) end = true) as [Hp Hm].
  { destruct act as [a|].
    - destruct (awaitActivationTyped (acts a)) as [m|] eqn:Ea; [|done]. injection H as <-.
      split; [done|]. by apply (Hmay m).
    - injection H as <-. done. }
  split; [done|]. intros Hni. rewrite Hm, Hni in Hc. done.
Qed.

Lemma Send_ok systems nodeID ctx r protocol d s p v :
  lookupService systems r = Ok (s, p, v) →
  Send systems nodeID ctx r protocol = Ok d →
  path d = CallPath ctx ++ [Frame (nodeID (System.self s)) (System.name v) protocol] ∧ waits d = None.
Proof.
  intros Hl. unfold Send. case_decide; [done|]. rewrite Hl.
  destruct (lookupHandler v protocol) as [h|?]; [|done]. by intros [= <-].
Qed.

Lemma DispatchRemoteAsync_ok systems nodeID fps dec id ctx t protocol fp payload d s p v :
  lookupService systems
    (System.MkRef (System.t_Address t) (System.t_Generation t) (Some id) None) = Ok (s, p, v) →
  DispatchRemoteAsync systems nodeID fps dec id ctx t protocol fp payload false = Ok d →
  path d = CallPath ctx ++ [Frame (nodeID id) (System.name v) protocol] ∧
  (Runtime.NoInterleave (System.sopts v) = true →
   callPathContains ctx (nodeID id) (System.name v) = false).
Proof.
  intros Hl. unfold DispatchRemoteAsync. destruct (_ && _ && _); [done|]. rewrite Hl.
  destruct (lookupHandler v protocol) as [h|?]; [|done]. destruct (decide _); [done|]. destruct (negb _); [done|].
  destruct (_ && _) eqn:Hc; [done|]. intros [= <-]. split; [done|].
  intros Hni. by rewrite Hni in Hc.
Qed.

Lemma chain_suffix NI pth live : chain NI pth live → ∃ l, pth = l ++ live.
Proof.
  induction 1 as [|sys nd ac act pth live r pr d s p v _ [l ->] Hny Hl _ Hc
                  |sys nd act pth live r pr d s p v _ [l ->] Hl Hc
                  |sys nd fps dec id act pth live t pr fp pl d s p v _ [l ->] Hl _ _ Hc].
  - by exists [].
  - destruct (Call_ok _ _ _ _ _ _ _ _ _ _ _ Hny Hl Hc) as [-> _]. exists l. by rewrite app_assoc.
  - destruct (Send_ok _ _ _ _ _ _ _ _ _ Hl Hc) as [-> _]. by eexists.
  - destruct (DispatchRemoteAsync_ok _ _ _ _ _ _ _ _ _ _ _ _ _ _ Hl Hc) as [-> _].
    exists l. by rewrite app_assoc.
Qed.

(** Adding a frame that the path does not contain. *)
Lemma fresh_frame l live node svc f act :
  (frameIs node svc f = true → callPathContains (Some (Ctx act (l ++ live))) node svc = false) →
  (length (List.filter (frameIs node svc) live) ≤ 1)%nat →
  (length (List.filter (frameIs node svc) (live ++ [f])) ≤ 1)%nat.
Proof.
  intros Hf Hl. rewrite List.filter_app, length_app. simpl.
  destruct (frameIs node svc f); [|simpl; lia].
  specialize (Hf eq_refl). apply callPathContains_false in Hf. simpl in Hf.
  rewrite List.filter_app in Hf. apply app_eq_nil in Hf as [_ ->]. done.
Qed.

Lemma frameIs_eq node svc n v pr :
  frameIs node svc (Frame n v pr) = true → n = node ∧ v = svc.
Proof. unfold frameIs. rewrite andb_true_iff, !bool_decide_eq_true. done. Qed.

(** ** A concrete process: a NoInterleave service and an ordinary one *)

Definition ex_service (n : string) (g : Z) (ni : bool) (pr : string) : System.Service :=
  System.Svc n (System.MkRef g g (Some 0%nat) None)
    (Runtime.withDefaults (Runtime.Options 0 0 0 0 0 0 ni))
    {[ pr := System.Handler 0 0 (Some 5%nat) ]} System.serviceRunning false true false System.NotBegun.
Definition ex_system : System.system :=
  System.Sys 0 {[ "vault" := 0%nat; "audit" := 1%nat ]} {[ 1 := 0%nat; 2 := 1%nat ]} 2 2 false
    {[ 0%nat := ex_service "vault" 1 true "get"; 1%nat := ex_service "audit" 2 false "log" ]} 2.
Definition ex_systems : gmap nat System.system := {[ 0%nat := ex_system ]}.
Definition ex_nodeID (_ : nat) : string := "n1".
Definition ex_acts (_ : nat) : callerInfo := Caller 0 false.
Definition ex_vault : System.Ref := System.MkRef 1 1 (Some 0%nat) None.
Definition ex_audit : System.Ref := System.MkRef 2 2 (Some 0%nat) None.
Definition ex_NI (node svc : string) : bool := bool_decide (svc = "vault").
Definition get_frame : CallFrame := Frame "n1" "vault" "get".
Definition log_frame : CallFrame := Frame "n1" "audit" "log".

Lemma ex_vault_chain : chain ex_NI [get_frame] [get_frame].
Proof.
  apply (chain_call ex_NI ex_systems ex_nodeID ex_acts None [] [] ex_vault "get"
    (Dispatched 0 (System.Handler 0 0 (Some 5%nat)) (Some External) [get_frame])
    ex_system 0 (ex_service "vault" 1 true "get"));
    [constructor|done|vm_compute; reflexivity..].
Qed.

Lemma ex_audit_chain : chain ex_NI [get_frame; log_frame] [get_frame; log_frame].
Proof.
  apply (chain_call ex_NI ex_systems ex_nodeID ex_acts (Some 0%nat) [get_frame] [get_frame] ex_audit "log"
    (Dispatched 1 (System.Handler 0 0 (Some 5%nat)) (Some Yield) [get_frame; log_frame])
    ex_system 1 (ex_service "audit" 2 false "log"));
    [apply ex_vault_chain|done|vm_compute; reflexivity..].
Qed.

(** ** Guarantees *)

(** C10 (no self-deadlock) In every chain of handlers that wait for one another,
    local or across nodes, each NoInterleave service occurs at most once: a call
    back into a NoInterleave service whose handler is part of the chain is never
    admitted. *)
Theorem no_self_deadlock (NI : string → string → bool) (pth live : list CallFrame) (node svc : string) :
  chain NI pth live → NI node svc = true →
  (length (List.filter (frameIs node svc) live) ≤ 1)%nat.
Proof.
  intros H Hni.
  induction H as [|sys nd ac act pth live r pr d s p v H IH Hny Hl Hv Hc
                  |sys nd act pth live r pr d s p v H IH Hl Hc
                  |sys nd fps dec id act pth live t pr fp pl d s p v H IH Hl Hid Hv Hc].
  - simpl. lia.
  - destruct (chain_suffix _ _ _ H) as [l ->].
    destruct (Call_ok _ _ _ _ _ _ _ _ _ _ _ Hny Hl Hc) as [_ Hk].
    apply (fresh_frame l _ _ _ _ act); [|done]. intros [<- <-]%frameIs_eq. apply Hk. congruence.
  - simpl. destruct (frameIs _ _ _); simpl; lia.
  - destruct (chain_suffix _ _ _ H) as [l ->].
    destruct (DispatchRemoteAsync_ok _ _ _ _ _ _ _ _ _ _ _ _ _ _ Hl Hc) as [_ Hk].
    apply (fresh_frame l _ _ _ _ act); [|done]. intros [<- <-]%frameIs_eq. apply Hk. congruence.
Qed.

Lemma no_self_deadlock_witness :
  (length (List.filter (frameIs "n1" "vault") [get_frame; log_frame]) ≤ 1)%nat.
Proof. apply (no_self_deadlock ex_NI _ _ _ _ ex_audit_chain). reflexivity. Defined.

(** Critical sections: while an activation is inside NoYield, a call it makes
    is never admitted, and if the target exists the error is ErrYieldForbidden. *)
Theorem no_yield_forbids (systems : gmap nat System.system) (nodeID : nat → string)
    (acts : nat → callerInfo) (a : nat) (pth : list CallFrame) (r : System.Ref) (protocol : string) :
  noYield (acts a) > 0 →
  (∀ d, Call systems nodeID acts (Some (Ctx (Some a) pth)) r protocol ≠ Ok d) ∧
  (∀ s p v h, lookupService systems r = Ok (s, p, v) → lookupHandler v protocol = Ok h →
     Call systems nodeID acts (Some (Ctx (Some a) pth)) r protocol = Err ErrYieldForbidden).
Proof.
  intros Hn. assert (awaitActivationTyped (acts a) = None) as Ha
    by (unfold awaitActivationTyped; by rewrite decide_True).
  assert (bool_decide (noYield (acts a) = 0) = false) as Hb by (apply bool_decide_eq_false; lia).
  unfold Call. rewrite decide_False by done. simpl. rewrite Ha, Hb. split.
  - intros d. destruct (lookupService systems r) as [[[s p] v]|]; [|done].
    by destruct (lookupHandler v protocol).
  - intros s p v h -> ->. done.
Qed.

Lemma no_yield_forbids_witness :
  Call ex_systems ex_nodeID (λ _, Caller 1 false) (Some (Ctx (Some 0%nat) [])) ex_vault "get"
  = Err ErrYieldForbidden.
Proof.
  apply (no_yield_forbids ex_systems ex_nodeID (λ _, Caller 1 false) 0 [] ex_vault "get") with
    (s := ex_system) (p := 0%nat) (v := ex_service "vault" 1 true "get")
    (h := System.Handler 0 0 (Some 5%nat)); [simpl; lia|vm_compute; reflexivity|reflexivity].
Defined.

(** Typed dispatch: a typed call that is dispatched locally goes to a running
    service, to the handler registered with the very same method descriptor. *)
Theorem typed_call_descriptor (systems : gmap nat System.system) (nodeID : nat → string)
    (acts : nat → callerInfo) (transport : nat → bool) (name : string) (token : option nat)
    (wire : option bool) (ctx : option actorContextState) (r : System.Ref) (d : dispatch) :
  MethodCall systems nodeID acts transport name token wire ctx r = Ok (Local d) →
  token ≠ None ∧ System.h_descriptor (entry d) = token ∧ System.IsRemote r = false ∧
  ∃ s v, lookupService systems r = Ok (s, target d, v) ∧ System.handlers v !! name = Some (entry d).
Proof.
  unfold MethodCall, System.IsRemote. destruct (System.r_remote r) as [t|].
  { unfold callRemote. intros H. repeat case_match; simplify_eq. }
  destruct token as [k|]; [|done]. simpl. case_decide; [done|].
  destruct (lookupService systems r) as [[[s p] v]|] eqn:Hl; [|done].
  unfold lookupHandler, System.handler. destruct (System.handlers v !! name) as [h|] eqn:Hh; [|done].
  case_decide as Hd; [done|]. unfold Call. rewrite Hl.
  unfold lookupHandler, System.handler. rewrite Hh.
  intros Hc. repeat case_match; simplify_eq/=; eauto 10.
Qed.

Lemma typed_call_descriptor_witness :
  ∃ d, MethodCall ex_systems ex_nodeID ex_acts (λ _, false) "get" (Some 5%nat) None
         (Some Background) ex_vault = Ok (Local d) ∧ System.h_descriptor (entry d) = Some 5%nat.
Proof.
  eexists. split; [vm_compute; reflexivity|].
  apply (typed_call_descriptor ex_systems ex_nodeID ex_acts (λ _, false) "get" (Some 5%nat) None
           (Some Background) ex_vault). vm_compute. reflexivity.
Defined.

(** Notifications and the call path: a notification carries the sender's call path
    although nobody waits for it:
    after the NoInterleave service "vault" sends to "audit" and returns, the
    handler in "audit" cannot call "vault", which is idle. *)
Theorem send_then_call_rejected :
  ∃ d, Send ex_systems ex_nodeID (Some (Ctx (Some 0%nat) [get_frame])) ex_audit "log" = Ok d ∧
       waits d = None ∧
       Call ex_systems ex_nodeID ex_acts (Some (Ctx (Some 1%nat) (path d))) ex_vault "get" =
       Err (ErrCallCycle "chain=n1/vault.get -> n1/audit.log -> n1/vault.get").
Proof. eexists. split_and!; [vm_compute; reflexivity|done|vm_compute; reflexivity]. Qed.

(** Untyped calls ignore the remote part: the untyped [Call] does not look
    at the remote part of a reference: the outcome is that of the local
    reference with the same address and generation, and a reference to a
    service of another node is dispatched to an unrelated local service. *)
Theorem untyped_call_ignores_remote :
  (∀ systems nodeID acts ctx a g sys t protocol,
     Call systems nodeID acts ctx (System.MkRef a g sys (Some t)) protocol =
     Call systems nodeID acts ctx (System.MkRef a g sys None) protocol) ∧
  (∃ d, Call ex_systems ex_nodeID ex_acts (Some Background)
          (System.MkRef 1 1 (Some 0%nat) (Some (System.Target "n2" "x" "ledger" 1 1))) "get" = Ok d ∧
        System.name (ex_service "vault" 1 true "get") = "vault" ∧ target d = 0%nat).
Proof. split; [reflexivity|]. eexists. split; [vm_compute; reflexivity|done]. Qed.

End Dispatch.
