(* ===== verification/Codec.v ===== *)
(** * Codecs and the data path of a call (src/actor/codec.go, src/actor/args.go,
    src/actor/method.go, src/actor/protowire/protowire.go,
    src/actor/system_runtime.go, src/actor/remote.go)

    [any] is Go's interface value with its dynamic type.  A codec packs what
    leaves one actor and unpacks what enters another; [Detaching] is what the
    actor runtime relies on, [call_local] and [call_wire] are the data paths of
    a call inside a process and across the wire. *)

From S2P Require Import Prelude.

Module Codec.

(** ** Values *)

Inductive any :=
  | ANil
  | AVal (ty : nat) (bits : Z)
  | ASlice (l : list any).

Definition isNilAny (a : any) : bool := match a with ANil => true | _ => false end.

(** A Go type: boxing into [any] and the type assertion back.  The nil value of an
    interface type is boxed as nil [any], which has no dynamic type: every assertion
    on it fails.  The values of other types, nil pointers included, keep theirs. *)
Class GoType (T : Type) := {
  box : T → any;
  cast : any → option T;
  cast_nil : cast ANil = None;
  cast_value : ∀ x, isNilAny (box x) = false → cast (box x) = Some x;
}.

Lemma cast_box {T} `{GoType T} (x : T) :
  cast (box x) = if isNilAny (box x) then None else Some x.
Proof.
  destruct (isNilAny (box x)) eqn:E; [|by apply cast_value].
  destruct (box x); [apply cast_nil|done..].
Qed.

Inductive error :=
  | ErrCodec (inner : option nat)   (* wrapped, with the user error it carries *)
  | ErrInvalidArgs
  | ErrUser (code : nat)
  | ErrPanic (code : nat).

(** What calling user code does. *)
Inductive attempt (A : Type) := Value (a : A) | Fails (code : nat) | Panics (code : nat).
Arguments Value {A}. Arguments Fails {A}. Arguments Panics {A}.

Record Message := NewMessage { MessageValue : any }.

(** An implementation of the Codec interface. *)
Record codec := Codec {
  PackRequest : list any → result error Message;
  UnpackRequest : Message → result error (list any);
  PackResponse : any → result error Message;
  UnpackResponse : Message → result error any;
}.

(** ** Arguments *)

Definition RequireArgs (args : list any) (count : Z) : result error unit :=
  if decide (Z.of_nat (length args) ≠ count) then Err ErrInvalidArgs else Ok tt.

Definition Arg {T} `{GoType T} (args : list any) (index : Z) : result error T :=
  if decide (index < 0 ∨ index >= Z.of_nat (length args)) then Err ErrInvalidArgs
  else match args !! Z.to_nat index ≫= cast with
       | Some v => Ok v
       | None => Err ErrInvalidArgs
       end.

Definition singleArg {T} `{GoType T} (args : list any) : option T :=
  match args with [x] => cast x | _ => None end.

(** ** The codecs of the actor package *)

(** CodecFuncs: a missing function is an error. *)
Definition CodecFuncs (packRequest : option (list any → result error Message))
    (unpackRequest : option (Message → result error (list any)))
    (packResponse : option (any → result error Message))
    (unpackResponse : option (Message → result error any)) : codec :=
  Codec
    (λ v, match packRequest with None => Err (ErrCodec None) | Some f => f v end)
    (λ m, match unpackRequest with None => Err (ErrCodec None) | Some f => f m end)
    (λ v, match packResponse with None => Err (ErrCodec None) | Some f => f v end)
    (λ m, match unpackResponse with None => Err (ErrCodec None) | Some f => f m end).

Definition CloneCodec (cloneRequest : option (list any → result error (list any)))
    (cloneResponse : option (any → result error any)) : codec :=
  CodecFuncs
    (Some (λ v, match cloneRequest with
                | None => Err (ErrCodec None)
                | Some f => match f v with Ok l => Ok (NewMessage (ASlice l)) | Err e => Err e end
                end))
    (Some (λ m, match MessageValue m with ASlice l => Ok l | _ => Err (ErrCodec None) end))
    (Some (λ v, match cloneResponse with
                | None => Err (ErrCodec None)
                | Some f => match f v with Ok x => Ok (NewMessage x) | Err e => Err e end
                end))
    (Some (λ m, Ok (MessageValue m))).

Definition typedCodec {Req Resp} `{GoType Req, GoType Resp}
    (cloneRequest : Req → result error Req) (cloneResponse : Resp → result error Resp) : codec :=
  Codec
    (λ args, match singleArg (T := Req) args with
             | None => Err (ErrCodec None)
             | Some r => match cloneRequest r with Ok c => Ok (NewMessage (box c)) | Err e => Err e end
             end)
    (λ m, match cast (T := Req) (MessageValue m) with
          | Some r => Ok [box r]
          | None => Err (ErrCodec None)
          end)
    (λ v, match cast (T := Resp) v with
          | None => Err (ErrCodec None)
          | Some r => match cloneResponse r with Ok c => Ok (NewMessage (box c)) | Err e => Err e end
          end)
    (λ m, match cast (T := Resp) (MessageValue m) with
          | Some r => Ok (box r)
          | None => Err (ErrCodec None)
          end).

(** ** Protobuf codecs *)

(** google.golang.org/protobuf on one message type: a nil message is invalid (and
    a nil interface is one), Clone copies, and Unmarshal of a deterministic Marshal is
    the message. *)
Class ProtoMessage (T : Type) `{GoType T} := {
  isNilMessage : T → bool;
  clone : T → T;
  Marshal : T → option (list Z);
  Unmarshal : list Z → option T;
  message_boxed : ∀ m, isNilMessage m = false → isNilAny (box m) = false;
  clone_eq : ∀ m, clone m = m;
  unmarshal_marshal : ∀ m d, Marshal m = Some d → Unmarshal d = Some m;
}.

(** The wire side of a WireCodec. *)
Record wireCodec := Wire {
  base : codec;
  Fingerprint : string;
  MarshalRequest : list any → result error (list Z);
  UnmarshalRequest : list Z → result error (list any);
  MarshalResponse : any → result error (list Z);
  UnmarshalResponse : list Z → result error any;
}.

Definition perror : error := ErrUser 0.

Definition one {T} `{ProtoMessage T} (args : list any) : option T :=
  match singleArg (T := T) args with
  | Some m => if isNilMessage m then None else Some m
  | None => None
  end.

Definition marshal {T} `{ProtoMessage T} (m : T) : result error (list Z) :=
  if isNilMessage m then Err perror
  else match Marshal m with Some d => Ok d | None => Err perror end.

(** [UnmarshalRequest] and [UnmarshalResponse]: the factory may be nil or return
    a nil message. *)
Definition unmarshal {T} `{ProtoMessage T} (factory : option T) (d : list Z) : result error any :=
  match factory with
  | None => Err perror
  | Some m =>
      if isNilMessage m then Err perror
      else match Unmarshal (T := T) d with Some r => Ok (box r) | None => Err perror end
  end.

Definition methodCodec {Req Resp} `{ProtoMessage Req, ProtoMessage Resp}
    (fingerprint : string) (newRequest : option Req) (newResponse : option Resp) : wireCodec :=
  Wire
    (Codec
       (λ args, match one (T := Req) args with
                | Some r => Ok (NewMessage (box (clone r)))
                | None => Err perror
                end)
       (λ m, match cast (T := Req) (MessageValue m) with
             | Some r => Ok [box r]
             | None => Err perror
             end)
       (λ v, match cast (T := Resp) v with
             | Some r => if isNilMessage r then Err perror else Ok (NewMessage (box (clone r)))
             | None => Err perror
             end)
       (λ m, match cast (T := Resp) (MessageValue m) with
             | Some r => Ok (box r)
             | None => Err perror
             end))
    fingerprint
    (λ args, match one (T := Req) args with Some r => marshal r | None => Err perror end)
    (λ d, match unmarshal newRequest d with Ok x => Ok [x] | Err e => Err e end)
    (λ v, match cast (T := Resp) v with Some r => marshal r | None => Err perror end)
    (unmarshal newResponse).

(** The codec of notifications: the response is the empty struct. *)
Definition notificationCodec {Req} `{ProtoMessage Req, GoType unit} (fingerprint : string) (newRequest : option Req) : wireCodec :=
  Wire
    (Codec
       (λ args, match one (T := Req) args with
                | Some r => Ok (NewMessage (box (clone r)))
                | None => Err perror
                end)
       (λ m, match cast (T := Req) (MessageValue m) with
             | Some r => Ok [box r]
             | None => Err perror
             end)
       (λ _, Ok (NewMessage (box tt)))
       (λ _, Ok (box tt)))
    fingerprint
    (λ args, match one (T := Req) args with Some r => marshal r | None => Err perror end)
    (λ d, match unmarshal newRequest d with Ok x => Ok [x] | Err e => Err e end)
    (λ _, Ok [])
    (λ _, Ok (box tt)).

(** ** The data path of a call *)

Record callResult := Result { message : option Message; cerr : option error }.

Definition wrapCodec (e : error) : error :=
  ErrCodec (match e with ErrUser c => Some c | _ => None end).

(** The function literal in [execute], deferred recover included. *)
Definition runHandler (c : codec) (fn : list any → attempt any) (request : Message)
    (expectsResponse : bool) : callResult :=
  match UnpackRequest c request with
  | Err e => Result None (Some (wrapCodec e))
  | Ok args =>
      match fn args with
      | Panics p => Result None (Some (ErrPanic p))
      | Fails e => Result None (Some (ErrUser e))
      | Value v =>
          if expectsResponse
          then match PackResponse c v with
               | Ok m => Result (Some m) None
               | Err e => Result None (Some (wrapCodec e))
               end
          else Result None None
      end
  end.

(** What [execute] does after the handler returned. *)
Inductive report :=
  | FinishTracked (failed : bool)
  | CompleteSession (r : callResult)
  | ReportAsyncError (e : error)
  | EmitDone.

Definition execute (c : codec) (fn : list any → attempt any) (request : Message)
    (expectsResponse : bool) : list report :=
  let r := runHandler c fn request expectsResponse in
  [FinishTracked (bool_decide (is_Some (cerr r)))] ++
  (if expectsResponse then [CompleteSession r]
   else match cerr r with Some e => [ReportAsyncError e] | None => [] end) ++
  [EmitDone].

Definition unpackCallResult (c : codec) (r : callResult) : result error any :=
  match cerr r with
  | Some e => Err e
  | None => match message r with
            | Some m => match UnpackResponse c m with Ok v => Ok v | Err e => Err (wrapCodec e) end
            | None => match UnpackResponse c (NewMessage ANil) with Ok v => Ok v | Err e => Err (wrapCodec e) end
            end
  end.

(** [callMailbox] when the request is admitted and the response arrives. *)
Definition call_local (c : codec) (fn : list any → attempt any) (args : list any) : result error any :=
  match PackRequest c args with
  | Err e => Err (wrapCodec e)
  | Ok request => unpackCallResult c (runHandler c fn request true)
  end.

(** [callRemote] on one node and [DispatchRemoteAsync] on the other, with the
    transport delivering both payloads. *)
Definition call_wire (w w' : wireCodec) (fn : list any → attempt any) (args : list any)
    : result error any :=
  match MarshalRequest w args with
  | Err e => Err (wrapCodec e)
  | Ok payload =>
      match UnmarshalRequest w' payload with
      | Err e => Err (wrapCodec e)
      | Ok args' =>
          match call_local (base w') fn args' with
          | Err e => Err e
          | Ok v =>
              match MarshalResponse w' v with
              | Err e => Err (wrapCodec e)
              | Ok response =>
                  match UnmarshalResponse w response with
                  | Err e => Err (wrapCodec e)
                  | Ok r => Ok r
                  end
              end
          end
      end
  end.

(** ** What the runtime relies on *)

(** What the receiver unpacks is what the codec's cloning of the sender's value
    gives. *)
Class Detaching (c : codec) (creq : list any → result error (list any))
    (cresp : any → result error any) : Prop := {
  det_request : ∀ args,
    match PackRequest c args with Ok m => UnpackRequest c m | Err e => Err e end = creq args;
  det_response : ∀ v,
    match PackResponse c v with Ok m => UnpackResponse c m | Err e => Err e end = cresp v;
}.

(** A clone that is a nil interface cannot be asserted to its type by the receiver. *)
Definition carried {T} `{GoType T} (x : T) : result error any :=
  if isNilAny (box x) then Err (ErrCodec None) else Ok (box x).

Definition typed_request {T} `{GoType T} (f : T → result error T) (args : list any)
    : result error (list any) :=
  match singleArg (T := T) args with
  | None => Err (ErrCodec None)
  | Some r =>
      match f r with
      | Ok x => match carried x with Ok a => Ok [a] | Err e => Err e end
      | Err e => Err e
      end
  end.

Definition typed_response {T} `{GoType T} (f : T → result error T) (v : any) : result error any :=
  match cast (T := T) v with
  | None => Err (ErrCodec None)
  | Some r => match f r with Ok x => carried x | Err e => Err e end
  end.

#[export] Instance typedCodec_detaching {Req Resp} `{GoType Req, GoType Resp}
    (f : Req → result error Req) (g : Resp → result error Resp) :
  Detaching (typedCodec f g) (typed_request f) (typed_response g).
Proof.
  split; intros x; unfold typed_request, typed_response, carried; simpl.
  - destruct (singleArg x) as [r|]; [|done]. destruct (f r) as [y|]; [|done]. simpl.
    rewrite cast_box. by destruct (isNilAny (box y)).
  - destruct (cast x) as [r|]; [|done]. destruct (g r) as [y|]; [|done]. simpl.
    rewrite cast_box. by destruct (isNilAny (box y)).
Qed.

#[export] Instance CloneCodec_detaching f g : Detaching (CloneCodec (Some f) (Some g)) f g.
Proof. split; intros x; simpl; [by destruct (f x)|by destruct (g x)]. Qed.

Definition proto_request {T} `{ProtoMessage T} (args : list any) : result error (list any) :=
  match one (T := T) args with Some r => Ok [box r] | None => Err perror end.

Definition proto_response {T} `{ProtoMessage T} (v : any) : result error any :=
  match cast (T := T) v with
  | Some r => if isNilMessage r then Err perror else Ok (box r)
  | None => Err perror
  end.

#[export] Instance methodCodec_detaching {Req Resp} `{ProtoMessage Req, ProtoMessage Resp}
    (fp : string) (nq : option Req) (np : option Resp) :
  Detaching (base (methodCodec fp nq np)) (proto_request (T := Req)) (proto_response (T := Resp)).
Proof.
  split; intros x; unfold proto_request, proto_response; simpl.
  - unfold one. destruct (singleArg x) as [r|]; [|done]. destruct (isNilMessage r) eqn:E; [done|]. simpl.
    by rewrite clone_eq, cast_value by (by apply message_boxed).
  - destruct (cast x) as [r|]; [|done]. destruct (isNilMessage r) eqn:E; [done|]. simpl.
    by rewrite clone_eq, cast_value by (by apply message_boxed).
Qed.

(** ** Properties *)

(** The meaning of a call, whatever the codec: clone the arguments, run the
    handler, clone its value. *)
Definition call_meaning (creq : list any → result error (list any)) (cresp : any → result error any)
    (fn : list any → attempt any) (args : list any) : result error any :=
  match creq args with
  | Err e => Err (wrapCodec e)
  | Ok args' =>
      match fn args' with
      | Panics p => Err (ErrPanic p)
      | Fails e => Err (ErrUser e)
      | Value v => match cresp v with Ok x => Ok x | Err e => Err (wrapCodec e) end
      end
  end.

Lemma call_local_meaning c creq cresp `{!Detaching c creq cresp} fn args :
  call_local c fn args = call_meaning creq cresp fn args.
Proof.
  unfold call_local, call_meaning, runHandler, unpackCallResult.
  rewrite <-det_request. destruct (PackRequest c args) as [m|]; [|done].
  destruct (UnpackRequest c m) as [args'|]; [|done].
  destruct (fn args') as [v| |]; try done. rewrite <-det_response.
  destruct (PackResponse c v) as [m'|]; [|done]. simpl. by destruct (UnpackResponse c m').
Qed.

(** C15 (ownership transfer) For every codec of the actor package a call hands the
    handler the codec's clone of the caller's arguments and the caller the clone
    of the handler's value; a codec failure, a handler error and a handler panic
    reach the caller as the corresponding error and as nothing else. *)
Theorem call_transfers (Req Resp : Type) (GQ : GoType Req) (GP : GoType Resp)
    (f : Req → result error Req) (g : Resp → result error Resp)
    (f' : list any → result error (list any)) (g' : any → result error any)
    (fn : list any → attempt any) (args : list any) :
  call_local (typedCodec f g) fn args = call_meaning (typed_request f) (typed_response g) fn args ∧
  call_local (CloneCodec (Some f') (Some g')) fn args = call_meaning f' g' fn args.
Proof. split; apply call_local_meaning; apply _. Qed.

Lemma proto_request_idem {T} `{ProtoMessage T} args args' :
  proto_request (T := T) args = Ok args' → proto_request (T := T) args' = Ok args'.
Proof.
  unfold proto_request, one. destruct (singleArg args) as [q|]; [|done].
  destruct (isNilMessage q) eqn:E; [done|]. intros [= <-]. simpl.
  by rewrite cast_value, E by (by apply message_boxed).
Qed.

Lemma proto_response_idem {T} `{ProtoMessage T} v v' :
  proto_response (T := T) v = Ok v' → proto_response (T := T) v' = Ok v'.
Proof.
  unfold proto_response. destruct (cast v) as [q|]; [|done].
  destruct (isNilMessage q) eqn:E; [done|]. intros [= <-].
  by rewrite cast_value, E by (by apply message_boxed).
Qed.

Section wire.
Context {Req Resp : Type} {GQ : GoType Req} {GP : GoType Resp}.
Context {PQ : ProtoMessage Req} {PP : ProtoMessage Resp} (fp : string) (nq : Req) (np : Resp).
Context (Hq : isNilMessage nq = false) (Hp : isNilMessage np = false).
Let w := methodCodec fp (Some nq) (Some np).

Lemma wire_request args payload :
  MarshalRequest w args = Ok payload →
  ∃ args', UnmarshalRequest w payload = Ok args' ∧ proto_request (T := Req) args = Ok args'.
Proof using Hq.
  simpl. unfold proto_request, marshal, unmarshal. rewrite Hq.
  unfold one. destruct (singleArg args) as [q|]; [|done].
  destruct (isNilMessage q) eqn:E; [done|]. rewrite E.
  destruct (Marshal q) as [d|] eqn:Em; [|done]. intros [= <-].
  rewrite (unmarshal_marshal _ _ Em). eauto.
Qed.

Lemma wire_response v d :
  MarshalResponse w v = Ok d → UnmarshalResponse w d = proto_response (T := Resp) v.
Proof using Hp.
  simpl. unfold proto_response, marshal, unmarshal. rewrite Hp.
  destruct (cast v) as [x|]; [|done]. destruct (isNilMessage x); [done|].
  destruct (Marshal x) as [b|] eqn:Em; [|done]. intros [= <-]. by rewrite (unmarshal_marshal _ _ Em).
Qed.

Lemma local_again fn args args' r :
  proto_request (T := Req) args = Ok args' →
  call_local (base w) fn args' = Ok r →
  call_local (base w) fn args = Ok r ∧ proto_response (T := Resp) r = Ok r.
Proof.
  intros Ha. rewrite !(call_local_meaning (base w) proto_request proto_response). unfold call_meaning.
  rewrite (proto_request_idem _ _ Ha), Ha. destruct (fn args') as [v| |]; try done.
  destruct (proto_response v) as [x|] eqn:E; [|done]. intros [= <-].
  split; [done|]. by apply proto_response_idem with v.
Qed.
End wire.

(** A message type with one field; zero is the nil message. *)
#[local] Instance ex_type : GoType Z :=
  {| box z := AVal 1 z; cast a := match a with AVal 1 z => Some z | _ => None end;
     cast_nil := eq_refl; cast_value x _ := eq_refl |}.
#[local] Instance ex_proto : ProtoMessage Z.
Proof.
  refine {| isNilMessage z := bool_decide (z = 0); clone z := z; Marshal z := Some [z];
            Unmarshal d := match d with [z] => Some z | _ => None end |}; [done|done|].
  by intros m d [= <-].
Defined.
Definition ex_double (args : list any) : attempt any :=
  match singleArg (T := Z) args with Some z => Value (box (2 * z)) | None => Fails 1 end.

(** C16 (location transparency) A remote protobuf call that succeeds returns what
    the same call inside the process returns, and a call that succeeds inside
    the process succeeds remotely with the same value whenever its messages can
    be marshalled. *)
Theorem wire_matches_local (Req Resp : Type) (GQ : GoType Req) (GP : GoType Resp)
    (PQ : ProtoMessage Req) (PP : ProtoMessage Resp) (fp : string) (nq : Req) (np : Resp)
    (fn : list any → attempt any) (args : list any) (r : any) :
  isNilMessage nq = false → isNilMessage np = false →
  let w := methodCodec fp (Some nq) (Some np) in
  (call_wire w w fn args = Ok r → call_local (base w) fn args = Ok r) ∧
  (call_local (base w) fn args = Ok r →
   is_ok (MarshalRequest w args) = true → is_ok (MarshalResponse w r) = true →
   call_wire w w fn args = Ok r).
Proof.
  intros Hq Hp w. unfold call_wire. split.
  - destruct (MarshalRequest w args) as [payload|] eqn:Em; [|done].
    destruct (wire_request fp nq np Hq args payload Em) as (args' & Eu & Ha).
    fold w in Eu. rewrite Eu. destruct (call_local (base w) fn args') as [v|] eqn:Ec; [|done].
    destruct (local_again fp nq np fn args args' v Ha Ec) as [Hl Hr]. fold w in Hl.
    destruct (MarshalResponse w v) as [d|] eqn:Ed; [|done].
    pose proof (wire_response fp nq np Hp v d Ed) as Er. fold w in Er. rewrite Er, Hr. by intros [= <-].
  - intros Hl Hm Hr. destruct (MarshalRequest w args) as [payload|] eqn:Em; [|done].
    destruct (wire_request fp nq np Hq args payload Em) as (args' & Eu & Ha). fold w in Eu. rewrite Eu.
    assert (call_local (base w) fn args' = Ok r) as Ec.
    { rewrite (call_local_meaning (base w) proto_request proto_response) in *. unfold call_meaning in *.
      by rewrite Ha in Hl; rewrite (proto_request_idem _ _ Ha). }
    rewrite Ec. destruct (local_again fp nq np fn args args' r Ha Ec) as [_ Hid].
    destruct (MarshalResponse w r) as [d|] eqn:Ed; [|done].
    pose proof (wire_response fp nq np Hp r d Ed) as Er. fold w in Er. by rewrite Er, Hid.
Qed.

Lemma wire_matches_local_witness :
  call_wire (methodCodec "f" (Some 1) (Some 1)) (methodCodec "f" (Some 1) (Some 1)) ex_double [box 21] = Ok (box 42).
Proof.
  apply (wire_matches_local Z Z ex_type ex_type ex_proto ex_proto "f" 1 1 ex_double [box 21] (box 42));
    reflexivity.
Defined.

(** Every activation answers. Whatever the codec and the handler do, panics
    included, an activation reports the end of its work exactly once, answers a
    caller that waits exactly once and nobody else, reports the failure of a
    notification, and finally releases the service. *)
Theorem execute_answers (c : codec) (fn : list any → attempt any) (request : Message) (exp : bool) :
  let r := runHandler c fn request exp in
  ∃ mid, execute c fn request exp =
    FinishTracked (bool_decide (is_Some (cerr r))) :: mid ++ [EmitDone] ∧
    (exp = true → mid = [CompleteSession r] ∧ (cerr r = None → is_Some (message r))) ∧
    (exp = false → mid = match cerr r with Some e => [ReportAsyncError e] | None => [] end).
Proof.
  intros r. unfold execute. fold r. eexists. split; [done|]. split; intros ->; [|done].
  split; [done|]. subst r. unfold runHandler.
  destruct (UnpackRequest c request) as [args|]; [|done].
  destruct (fn args) as [v| |]; try done. destruct (PackResponse c v); simpl; eauto. done.
Qed.

End Codec.
