(* ===== verification/Method.v ===== *)
(** * Typed methods (src/actor/method.go)

    Go's type parameters are Coq types [El t] for the codes [t] of a universe, each with
    its boxing into [any]. A descriptor holds a pointer to a private token; services keep
    the token with the handler. The tables hold what the pointers of [System.handlerEntry]
    point to. *)

From S2P Require Import Prelude Runtime System Codec.

Module Method.
Import Codec.

Section method.
Context {type : Type} {El : type → Type} {HT : ∀ t, GoType (El t)} {HU : GoType unit}.

Notation CloneFunc T := (T → result error T).

(** What a type without an explicit clone function has: a provider's function, its Clone
    method or, if it is immutable, the identity ([Immutable.resolveClone]). *)
Context (defaultClone : ∀ t, option (CloneFunc (El t))) (unitClone : CloneFunc unit).

(** ** Descriptors *)

Inductive methodKind := methodCall | methodNotification.
#[global] Instance methodKind_eq_dec : EqDecision methodKind.
Proof. solve_decision. Defined.

(** [response] is nil for a notification. *)
Record methodToken := Token { tk_name : string; tk_kind : methodKind; tk_request : type; tk_response : option type }.

Record Method (q p : type) := MkMethod {
  m_name : string;
  m_token : option nat;
  m_cloneRequest : option (CloneFunc (El q));
  m_cloneResponse : option (CloneFunc (El p));
  m_wire : option wireCodec;
}.
Arguments MkMethod {q p}. Arguments m_name {q p}. Arguments m_token {q p}.
Arguments m_cloneRequest {q p}. Arguments m_cloneResponse {q p}. Arguments m_wire {q p}.

Record Notification (q : type) := MkNotification {
  n_name : string;
  n_token : option nat;
  n_cloneRequest : option (CloneFunc (El q));
  n_wire : option wireCodec;
}.
Arguments MkNotification {q}. Arguments n_name {q}. Arguments n_token {q}.
Arguments n_cloneRequest {q}. Arguments n_wire {q}.

(** The Codec of a HandlerOptions, with the type assertion to WireCodec. *)
Inductive handlerCodec := Plain (c : codec) | Wired (wc : wireCodec).
Definition codecOf (c : handlerCodec) : codec := match c with Plain c => c | Wired wc => base wc end.

(** The heap of tokens, and the codecs and functions of handlers. *)
Record world := World { tokens : list methodToken; codecs : list handlerCodec; fns : list (list any → attempt any) }.

Record methodConfig (q p : type) := Config {
  c_request : option (CloneFunc (El q)); c_response : option (CloneFunc (El p)); c_wire : option wireCodec }.
Arguments Config {q p}. Arguments c_request {q p}. Arguments c_response {q p}. Arguments c_wire {q p}.

Inductive MethodOption (q p : type) :=
  | WithMethodRequestClone (fn : option (CloneFunc (El q)))
  | WithMethodResponseClone (fn : option (CloneFunc (El p)))
  | WithMethodWireCodec (w : option wireCodec)
  | NilOption.
Arguments WithMethodRequestClone {q p}. Arguments WithMethodResponseClone {q p}.
Arguments WithMethodWireCodec {q p}. Arguments NilOption {q p}.

Definition applyOption {q p} (cfg : methodConfig q p) (o : MethodOption q p) : methodConfig q p :=
  match o with
  | WithMethodRequestClone fn => Config fn (c_response cfg) (c_wire cfg)
  | WithMethodResponseClone fn => Config (c_request cfg) fn (c_wire cfg)
  | WithMethodWireCodec w => Config (c_request cfg) (c_response cfg) w
  | NilOption => cfg
  end.

Definition NewMethod (w : world) (q p : type) (name : string) (options : list (MethodOption q p)) : world * Method q p :=
  let cfg := foldl applyOption (Config None None None) options in
  (World (tokens w ++ [Token name methodCall q (Some p)]) (codecs w) (fns w),
   MkMethod name (Some (length (tokens w))) (c_request cfg) (c_response cfg) (c_wire cfg)).

(** The options of a notification, in the order given: its clone function or its codec. *)
Definition NotificationOption (q : type) : Type := option (option (CloneFunc (El q)) + option wireCodec).

Definition applyNotification {q} (cfg : option (CloneFunc (El q)) * option wireCodec) (o : NotificationOption q) :=
  match o with
  | Some (inl fn) => (fn, cfg.2)
  | Some (inr w) => (cfg.1, w)
  | None => cfg
  end.

Definition NewNotification (w : world) (q : type) (name : string) (options : list (NotificationOption q)) : world * Notification q :=
  let cfg := foldl applyNotification (None, None) options in
  (World (tokens w ++ [Token name methodNotification q None]) (codecs w) (fns w),
   MkNotification name (Some (length (tokens w))) cfg.1 cfg.2).

(** ** Registration *)

Inductive merror :=
  | MInvalidArgs | MCodec
  | MTypeMismatch
  | MSystem (e : System.error)
  | MCall (e : error).

Definition resolveClone (t : type) (explicit : option (CloneFunc (El t))) : option (CloneFunc (El t)) :=
  match explicit with Some f => Some f | None => defaultClone t end.

(** The error of a handler that gets arguments of another type. *)
Definition wrongArgs : nat := 0.

(** The function literal given to svc.handle. *)
Definition typedHandler {q p} (fn : El q → attempt (El p)) (args : list any) : attempt any :=
  match singleArg (T := El q) args with
  | None => Fails wrongArgs
  | Some r => match fn r with Value v => Value (box v) | Fails c => Fails c | Panics c => Panics c end
  end.

Definition typedNotified {q} (fn : El q → attempt unit) (args : list any) : attempt any :=
  match singleArg (T := El q) args with
  | None => Fails wrongArgs
  | Some r => match fn r with Value _ => Value (box tt) | Fails c => Fails c | Panics c => Panics c end
  end.

(** svc.handle with a new codec and a new function. *)
Definition handle (w : world) (v : System.Service) (name : string) (c : handlerCodec) (f : list any → attempt any) (token : option nat)
    : result merror (world * System.Service) :=
  match System.handle v name (Some (length (codecs w))) (Some (length (fns w))) token with
  | Err e => Err (MSystem e)
  | Ok v' => Ok (World (tokens w) (codecs w ++ [c]) (fns w ++ [f]), v')
  end.

(** Service.Handle: no descriptor, any codec and function. *)
Definition Handle (w : world) (v : System.Service) (protocol : string) (c : option handlerCodec) (fn : option (list any → attempt any))
    : result merror (world * System.Service) :=
  match c, fn with
  | Some c, Some f => handle w v protocol c f None
  | _, _ => Err (MSystem System.ErrInvalidArgs)
  end.

Definition tokenKind (w : world) (token : option nat) : option methodKind := k ← token; tk_kind <$> tokens w !! k.

Definition Register {q p} (w : world) (v : System.Service) (m : Method q p) (fn : option (El q → attempt (El p)))
    : result merror (world * System.Service) :=
  match fn, m_token m with
  | Some fn, Some k =>
      if decide (m_name m = EmptyString ∨ tokenKind w (m_token m) ≠ Some methodCall) then Err MInvalidArgs
      else match m_wire m with
           | Some wc => handle w v (m_name m) (Wired wc) (typedHandler fn) (Some k)
           | None =>
               match resolveClone q (m_cloneRequest m), resolveClone p (m_cloneResponse m) with
               | Some cq, Some cp => handle w v (m_name m) (Plain (typedCodec cq cp)) (typedHandler fn) (Some k)
               | _, _ => Err MCodec
               end
           end
  | _, _ => Err MInvalidArgs
  end.

Definition RegisterNotification {q} (w : world) (v : System.Service) (n : Notification q) (fn : option (El q → attempt unit))
    : result merror (world * System.Service) :=
  match fn, n_token n with
  | Some fn, Some k =>
      if decide (n_name n = EmptyString ∨ tokenKind w (n_token n) ≠ Some methodNotification) then Err MInvalidArgs
      else match n_wire n with
           | Some wc => handle w v (n_name n) (Wired wc) (typedNotified fn) (Some k)
           | None =>
               match resolveClone q (n_cloneRequest n) with
               | Some cq => handle w v (n_name n) (Plain (typedCodec cq unitClone)) (typedNotified fn) (Some k)
               | None => Err MCodec
               end
           end
  | _, _ => Err MInvalidArgs
  end.

(** ** Calls *)

(** validateDescriptor once the service is found. *)
Definition validateDescriptor (v : System.Service) (name : string) (token : option nat) : result merror System.handlerEntry :=
  match token with
  | None => Err MTypeMismatch
  | Some k =>
      if decide (name = EmptyString) then Err MTypeMismatch
      else match System.handler v name with
           | Err e => Err (MSystem e)
           | Ok h => if decide (System.h_descriptor h ≠ Some k) then Err MTypeMismatch else Ok h
           end
  end.

Definition entryOf (w : world) (h : System.handlerEntry) : option (handlerCodec * (list any → attempt any)) :=
  c ← codecs w !! System.h_codec h; f ← fns w !! System.h_fn h; Some (c, f).

(** Method.Call on a local service: the call itself is [call_local]. *)
Definition Call {q p} (w : world) (v : System.Service) (m : Method q p) (request : El q) : result merror (El p) :=
  match validateDescriptor v (m_name m) (m_token m) with
  | Err e => Err e
  | Ok h =>
      match entryOf w h with
      | None => Err MTypeMismatch
      | Some (c, f) =>
          match call_local (codecOf c) f [box request] with
          | Err e => Err (MCall e)
          | Ok value => match cast (T := El p) value with Some r => Ok r | None => Err MTypeMismatch end
          end
      end
  end.

(** Notification.Send and TrySend up to the admission to the mailbox: the packed request
    and, for it, what the handler will do. *)
Definition Send {q} (w : world) (v : System.Service) (n : Notification q) (request : El q) : result merror callResult :=
  match validateDescriptor v (n_name n) (n_token n) with
  | Err e => Err e
  | Ok h =>
      match entryOf w h with
      | None => Err MTypeMismatch
      | Some (c, f) =>
          match PackRequest (codecOf c) [box request] with
          | Err e => Err (MCall (wrapCodec e))
          | Ok msg => Ok (runHandler (codecOf c) f msg false)
          end
      end
  end.

(** ** Well-typed worlds *)

(** What the program keeps to when it gives a codec for the wire to a descriptor. *)
Context (wireOk : methodToken → wireCodec → Prop).

(** A descriptor is the zero value or comes from NewMethod: its token has its types. *)
Definition made {q p} (w : world) (m : Method q p) : Prop :=
  ∀ k, m_token m = Some k → let tok := Token (m_name m) methodCall q (Some p) in
    tokens w !! k = Some tok ∧ ∀ wc, m_wire m = Some wc → wireOk tok wc.
Definition madeNotification {q} (w : world) (n : Notification q) : Prop :=
  ∀ k, n_token n = Some k → let tok := Token (n_name n) methodNotification q None in
    tokens w !! k = Some tok ∧ ∀ wc, n_wire n = Some wc → wireOk tok wc.

(** The programs: descriptors are made and handlers registered, in any order. *)
Inductive step : world * System.Service → world * System.Service → Prop :=
  | step_method w v q p name options : step (w, v) ((NewMethod w q p name options).1, v)
  | step_notification w v q name options : step (w, v) ((NewNotification w q name options).1, v)
  | step_register w v q p (m : Method q p) fn w' v' :
      made w m → Register w v m fn = Ok (w', v') → step (w, v) (w', v')
  | step_registerNotification w v q (n : Notification q) fn w' v' :
      madeNotification w n → RegisterNotification w v n fn = Ok (w', v') → step (w, v) (w', v')
  | step_handle w v protocol c fn w' v' :
      Handle w v protocol c fn = Ok (w', v') → step (w, v) (w', v')
  | step_service w v v' : System.handlers v' = System.handlers v → step (w, v) (w, v').

Definition fresh (v : System.Service) : world * System.Service := (World [] [] [], v).

(** What is behind an entry with token [tok]: the codec and the function of its types. *)
Definition entryTyped (tok : methodToken) (c : handlerCodec) (f : list any → attempt any) : Prop :=
  match tk_kind tok, tk_response tok with
  | methodCall, Some p =>
      ∃ fn : El (tk_request tok) → attempt (El p), f = typedHandler fn ∧
        ((∃ wc, c = Wired wc ∧ wireOk tok wc) ∨ ∃ cq cp, c = Plain (typedCodec (Req := El (tk_request tok)) (Resp := El p) cq cp))
  | methodNotification, None =>
      ∃ fn : El (tk_request tok) → attempt unit, f = typedNotified fn ∧
        ((∃ wc, c = Wired wc ∧ wireOk tok wc) ∨ ∃ cq, c = Plain (typedCodec (Req := El (tk_request tok)) (Resp := unit) cq unitClone))
  | _, _ => False
  end.

(** Every entry with a descriptor has the codec and the function of its token. *)
Definition wellTyped (x : world * System.Service) : Prop :=
  ∀ name h, System.handlers x.2 !! name = Some h → System.h_descriptor h ≠ None →
    ∃ k tok c f, System.h_descriptor h = Some k ∧ tokens x.1 !! k = Some tok ∧ tk_name tok = name ∧
      entryOf x.1 h = Some (c, f) ∧ entryTyped tok c f.

Lemma entryOf_more w h x ts cs fs : entryOf w h = Some x → entryOf (World ts (codecs w ++ cs) (fns w ++ fs)) h = Some x.
Proof.
  unfold entryOf. destruct (codecs w !! System.h_codec h) as [c|] eqn:Hc; [|done]. cbn [mbind option_bind].
  destruct (fns w !! System.h_fn h) as [f|] eqn:Hf; [|done]. intros [= <-]. cbn.
  by rewrite (lookup_app_l_Some _ _ _ _ Hc), (lookup_app_l_Some _ _ _ _ Hf).
Qed.

Lemma wellTyped_tokens w v ts : wellTyped (w, v) → wellTyped (World (tokens w ++ ts) (codecs w) (fns w), v).
Proof.
  intros H name h Hh Hd. destruct (H name h Hh Hd) as (k & tok & c & f & Hk & Ht & Hn & He & Hty).
  exists k, tok, c, f. split_and!; try done. by apply lookup_app_l_Some.
Qed.

Lemma wellTyped_handle w v name c f token w' v' :
  wellTyped (w, v) →
  (∀ k, token = Some k → ∃ tok, tokens w !! k = Some tok ∧ tk_name tok = name ∧ entryTyped tok c f) →
  handle w v name c f token = Ok (w', v') → wellTyped (w', v').
Proof.
  intros H Htok HE. unfold handle, System.handle in HE. case_decide; [done|]. case_decide; [done|].
  destruct (System.handlers v !! name) eqn:Hv; [done|]. injection HE as <- <-. intros name' h. cbn.
  intros [[<- <-]|[Hne Hh]]%lookup_insert_Some Hd.
  - destruct token as [k|]; [|done]. destruct (Htok k eq_refl) as (tok & Ht & Hn & Hty).
    exists k, tok, c, f. split_and!; try done. unfold entryOf. cbn. by rewrite !list_lookup_middle.
  - destruct (H name' h Hh Hd) as (k' & tok' & c' & f' & Hk & Ht' & Hn' & He & Hty'). exists k', tok', c', f'.
    split_and!; try done. by apply entryOf_more.
Qed.

Lemma wellTyped_step x x' : wellTyped x → step x x' → wellTyped x'.
Proof.
  intros H. inversion 1 as [w v q p name options|w v q name options|w v q p m fn w' v' Hm HE|w v q n fn w' v' Hm HE|w v name c fn w' v' HE|w v v' E]; subst.
  - by apply wellTyped_tokens.
  - by apply wellTyped_tokens.
  - unfold Register in HE. destruct fn as [fn|]; [|done]. destruct (m_token m) as [k|] eqn:Hk; [|done]. case_decide; [done|].
    destruct (Hm k Hk) as [Ht Hw]. destruct (m_wire m) as [wc|].
    + eapply wellTyped_handle; [done| |exact HE]. intros ? [= <-]. eexists. split_and!; [exact Ht|done|].
      exists fn. split; [done|]. left. exists wc. eauto.
    + destruct (resolveClone q _) as [cq|]; [|done]. destruct (resolveClone p _) as [cp|]; [|done].
      eapply wellTyped_handle; [done| |exact HE]. intros ? [= <-]. eexists. split_and!; [exact Ht|done|].
      exists fn. split; [done|]. right. by exists cq, cp.
  - unfold RegisterNotification in HE. destruct fn as [fn|]; [|done]. destruct (n_token n) as [k|] eqn:Hk; [|done]. case_decide; [done|].
    destruct (Hm k Hk) as [Ht Hw]. destruct (n_wire n) as [wc|].
    + eapply wellTyped_handle; [done| |exact HE]. intros ? [= <-]. eexists. split_and!; [exact Ht|done|].
      exists fn. split; [done|]. left. exists wc. eauto.
    + destruct (resolveClone q _) as [cq|]; [|done].
      eapply wellTyped_handle; [done| |exact HE]. intros ? [= <-]. eexists. split_and!; [exact Ht|done|].
      exists fn. split; [done|]. right. by exists cq.
  - unfold Handle in HE. destruct c as [c|], fn as [f|]; try done.
    eapply wellTyped_handle; [done| |exact HE]. done.
  - intros name h. cbn. rewrite E. apply H.
Qed.

Lemma reachable_typed v0 x : System.handlers v0 = ∅ → rtc step (fresh v0) x → wellTyped x.
Proof.
  intros H0 Hr. assert (wellTyped (fresh v0)) as Hw by (intros name h; cbn; by rewrite H0, lookup_empty).
  induction Hr as [|x y z Hxy Hyz IH]; [done|]. by eapply IH, wellTyped_step.
Qed.

(** A value that keeps its type in [any]: a nil interface does not, and gives
    ErrCodec wherever a codec meets it. *)
Definition present {t} (x : El t) : result merror (El t) :=
  if isNilAny (box x) then Err (MCall (ErrCodec None)) else Ok x.

Definition cloned {t} (c : CloneFunc (El t)) (x : El t) : result merror (El t) :=
  match present x with
  | Err e => Err e
  | Ok x => match c x with Err e => Err (MCall (wrapCodec e)) | Ok y => present y end
  end.

(** What a call means at the level of its types. *)
Definition callMeaning {q p} (cq : CloneFunc (El q)) (fn : El q → attempt (El p)) (cp : CloneFunc (El p)) (request : El q)
    : result merror (El p) :=
  match cloned cq request with
  | Err e => Err e
  | Ok r =>
      match fn r with
      | Panics c => Err (MCall (ErrPanic c))
      | Fails c => Err (MCall (ErrUser c))
      | Value x => cloned cp x
      end
  end.

Lemma cast_present {t} (x : El t) :
  cast (box x) = match present x with Ok y => Some y | Err _ => None end.
Proof. rewrite cast_box. unfold present. by destruct (isNilAny (box x)). Qed.

Lemma present_cases {t} (x : El t) :
  present x = Err (MCall (ErrCodec None)) ∨ (present x = Ok x ∧ cast (box x) = Some x).
Proof. rewrite cast_present. unfold present. destruct (isNilAny (box x)); auto. Qed.

Lemma typed_call_meaning {q p} cq (fn : El q → attempt (El p)) cp request :
  match call_local (typedCodec cq cp) (typedHandler fn) [box request] with
  | Err e => Err (MCall e)
  | Ok value => match cast (T := El p) value with Some r => Ok r | None => Err MTypeMismatch end
  end = callMeaning cq fn cp request.
Proof.
  unfold call_local, callMeaning, cloned. cbn [PackRequest typedCodec singleArg]. rewrite cast_present.
  destruct (present request) as [x|] eqn:E; [|unfold present in E; by destruct (isNilAny _); simplify_eq].
  destruct (cq x) as [r|e]; [|done]. unfold runHandler. cbn. rewrite cast_present.
  destruct (present_cases r) as [->|[-> Hr]]; [done|]. unfold typedHandler. cbn. rewrite Hr.
  destruct (fn r) as [y|c|c]; [|done..]. rewrite cast_present.
  destruct (present_cases y) as [->|[-> Hy]]; [done|]. destruct (cp y) as [z|e]; [|done]. cbn.
  rewrite cast_present. destruct (present_cases z) as [->|[-> Hz]]; [done|]. by rewrite Hz.
Qed.

(** C13 (type): typed calls are type-safe.  However descriptors are made and handlers
    registered, with a descriptor or, through Handle, without one, a call through a
    descriptor reaches a handler only if that handler was registered with a descriptor
    of the very same token, hence of the same types: any other one of that name, even of
    the same types, gives ErrProtocolTypeMismatch and runs nothing.  A handler that is
    reached gets a request of its type and gives a response of its type; without a codec
    for the wire the outcome is exactly that of the two clone functions and the handler:
    a nil interface value, which has no dynamic type, gives ErrCodec, and no other type
    error can occur. *)
Theorem typed_call_safe v0 w v {q p} (m : Method q p) (request : El q) h :
  System.handlers v0 = ∅ → rtc step (fresh v0) (w, v) → made w m → System.handlers v !! m_name m = Some h →
  (System.h_descriptor h ≠ m_token m ∨ m_token m = None → Call w v m request = Err MTypeMismatch) ∧
  (System.h_descriptor h = m_token m → m_token m ≠ None → m_name m ≠ EmptyString →
   ∃ (c : handlerCodec) (fn : El q → attempt (El p)), entryOf w h = Some (c, typedHandler fn) ∧
     ((∃ wc, c = Wired wc ∧ wireOk (Token (m_name m) methodCall q (Some p)) wc) ∨
      ∃ cq cp, c = Plain (typedCodec (Req := El q) (Resp := El p) cq cp) ∧ Call w v m request = callMeaning cq fn cp request)).
Proof.
  intros H0 Hr Hm Hh. unfold Call, validateDescriptor, System.handler. rewrite Hh. split.
  - intros Hd. destruct (m_token m) as [k'|]; [|done]. case_decide; [done|]. rewrite decide_True; [done|].
    by destruct Hd.
  - intros Hd Hsome Hne. rewrite <-Hd in Hsome.
    destruct (reachable_typed v0 _ H0 Hr _ _ Hh Hsome) as (k & tok & c & f & Hk & Ht & Hn & He & Hty). cbn in *.
    rewrite Hk in Hd. rewrite (proj1 (Hm k (eq_sym Hd))) in Ht. injection Ht as <-. unfold entryTyped in Hty. cbn in Hty.
    destruct Hty as (fn & -> & Hc). exists c, fn. split; [done|].
    destruct Hc as [?|(cq & cp & ->)]; [by left|]. right. exists cq, cp. split; [done|].
    rewrite <-Hd, decide_False, decide_False, He by (rewrite ?Hk; tauto). apply typed_call_meaning.
Qed.

(** The same for notifications: the handler gets the clone of the request. *)
Lemma typed_send_safe v0 w v {q} (n : Notification q) (request : El q) h :
  System.handlers v0 = ∅ → rtc step (fresh v0) (w, v) → madeNotification w n → System.handlers v !! n_name n = Some h →
  (System.h_descriptor h ≠ n_token n ∨ n_token n = None → Send w v n request = Err MTypeMismatch) ∧
  (System.h_descriptor h = n_token n → n_token n ≠ None → n_name n ≠ EmptyString →
   ∃ (c : handlerCodec) (fn : El q → attempt unit), entryOf w h = Some (c, typedNotified fn) ∧
     ((∃ wc, c = Wired wc ∧ wireOk (Token (n_name n) methodNotification q None) wc) ∨
      ∃ cq, c = Plain (typedCodec (Req := El q) cq unitClone) ∧
        Send w v n request =
          match present request with
          | Err e => Err e
          | Ok x =>
              match cq x with
              | Err e => Err (MCall (wrapCodec e))
              | Ok r =>
                  Ok (Result None
                        match present r with
                        | Err _ => Some (ErrCodec None)
                        | Ok r => match fn r with Value _ => None | Fails e => Some (ErrUser e) | Panics e => Some (ErrPanic e) end
                        end)
              end
          end)).
Proof.
  intros H0 Hr Hm Hh. unfold Send, validateDescriptor, System.handler. rewrite Hh. split.
  - intros Hd. destruct (n_token n) as [k'|]; [|done]. case_decide; [done|]. rewrite decide_True; [done|].
    by destruct Hd.
  - intros Hd Hsome Hne. rewrite <-Hd in Hsome.
    destruct (reachable_typed v0 _ H0 Hr _ _ Hh Hsome) as (k & tok & c & f & Hk & Ht & Hn & He & Hty). cbn in *.
    rewrite Hk in Hd. rewrite (proj1 (Hm k (eq_sym Hd))) in Ht. injection Ht as <-. unfold entryTyped in Hty. cbn in Hty.
    destruct Hty as (fn & -> & Hc). exists c, fn. split; [done|].
    destruct Hc as [?|(cq & ->)]; [by left|]. right. exists cq. split; [done|].
    rewrite <-Hd, decide_False, decide_False, He by (rewrite ?Hk; tauto). cbn [codecOf PackRequest typedCodec singleArg].
    rewrite cast_present. destruct (present_cases request) as [->|[-> _]]; [done|].
    destruct (cq request) as [r|e]; [|done]. unfold runHandler, typedNotified. cbn. rewrite cast_present.
    destruct (present_cases r) as [->|[-> Hr']]; [done|]. cbn. rewrite Hr'. by destruct (fn r).
Qed.

End method.
#[global] Arguments m_name {type El q p}.
#[global] Arguments m_token {type El q p}.
#[global] Arguments m_wire {type El q p}.
#[global] Arguments n_name {type El q}.
#[global] Arguments n_token {type El q}.
#[global] Arguments n_wire {type El q}.
#[global] Arguments WithMethodWireCodec {type El q p}.

(** ** Instances *)

(** A universe with the integers, the pairs of integers and an interface type. *)
Inductive exampleType := TInt | TPair | TIface.
Definition exampleEl (t : exampleType) : Type := match t with TInt => Z | TPair => Z * Z | TIface => option Z end.
#[local] Instance int_type : GoType Z.
Proof. refine {| box z := AVal 1 z; cast x := match x with AVal 1 z => Some z | _ => None end |}; done. Defined.
#[local] Instance pair_type : GoType (Z * Z).
Proof.
  refine {| box z := ASlice [AVal 1 z.1; AVal 1 z.2];
            cast x := match x with ASlice [AVal 1 a; AVal 1 b] => Some (a, b) | _ => None end |}; [done|by intros []].
Defined.
#[local] Instance unit_type : GoType unit.
Proof. refine {| box _ := AVal 2 0; cast x := match x with AVal 2 _ => Some tt | _ => None end |}; [done|by intros []]. Defined.
(** An interface type with integers as its dynamic type: [None] is nil. *)
#[local] Instance iface_type : GoType (option Z).
Proof.
  refine {| box o := match o with Some z => AVal 1 z | None => ANil end;
            cast x := match x with AVal 1 z => Some (Some z) | _ => None end |}; [done|by intros []].
Defined.
#[local] Instance exampleType_go (t : exampleType) : GoType (exampleEl t) := match t with TInt => int_type | TPair => pair_type | TIface => iface_type end.

Definition exampleClone (t : exampleType) : option (exampleEl t → result error (exampleEl t)) := Some Ok.
Definition exampleService : System.Service :=
  System.Svc "s" (System.MkRef 1 1 (Some 0%nat) None) (Runtime.Options 0 0 0 0 0 0 false) ∅ System.serviceReserved false false false System.NotBegun.
Definition exampleWorld1 : world (type := exampleType) := (NewMethod (El := exampleEl) (World [] [] []) TPair TInt "sum" []).1.
Definition exampleMethod : Method (El := exampleEl) TPair TInt := (NewMethod (El := exampleEl) (World [] [] []) TPair TInt "sum" []).2.
Definition exampleFn (x : Z * Z) : attempt Z := Value (x.1 + x.2).
Definition exampleWorld2 : world (type := exampleType) * System.Service :=
  match Register exampleClone exampleWorld1 exampleService exampleMethod (Some exampleFn) with Ok x => x | Err _ => (exampleWorld1, exampleService) end.

Definition anyWire (_ : methodToken (type := exampleType)) (_ : wireCodec) : Prop := True.

Lemma example_reachable : rtc (step exampleClone Ok anyWire) (fresh exampleService) (exampleWorld2.1, exampleWorld2.2).
Proof.
  eapply rtc_l; [apply (step_method exampleClone Ok anyWire (World [] [] []) exampleService TPair TInt "sum" [])|].
  eapply rtc_l; [|apply rtc_refl]. eapply (step_register exampleClone Ok anyWire _ _ TPair TInt exampleMethod (Some exampleFn)).
  - by intros k [= <-].
  - vm_compute. reflexivity.
Qed.

Lemma typed_call_safe_witness :
  Call exampleWorld2.1 exampleWorld2.2 exampleMethod (2, 3) = Ok 5 ∧
  ∃ (c : handlerCodec) (fn : Z * Z → attempt Z), entryOf exampleWorld2.1 (System.Handler 0 0 (Some 0%nat)) = Some (c, typedHandler (q := TPair) (p := TInt) fn) ∧
     ((∃ wc, c = Wired wc ∧ anyWire (Token "sum" methodCall TPair (Some TInt)) wc) ∨
      ∃ cq cp, c = Plain (typedCodec (Req := exampleEl TPair) (Resp := exampleEl TInt) cq cp) ∧
        Call exampleWorld2.1 exampleWorld2.2 exampleMethod (2, 3) = callMeaning (q := TPair) (p := TInt) cq fn cp (2, 3)).
Proof.
  split; [vm_compute; reflexivity|].
  refine (proj2 (typed_call_safe exampleClone Ok anyWire exampleService exampleWorld2.1 exampleWorld2.2 exampleMethod (2, 3)
    (System.Handler 0 0 (Some 0%nat)) _ _ _ _) _ _ _).
  - reflexivity.
  - apply example_reachable.
  - intros k [= <-]. split; [vm_compute; reflexivity|intros; exact I].
  - vm_compute. reflexivity.
  - reflexivity.
  - discriminate.
  - discriminate.
Defined.

(** A nil interface is refused by the codec, a value of it is not. *)
Example example_nil_interface :
  callMeaning (q := TIface) (p := TInt) Ok (λ o, Value (default 0 o)) Ok None = Err (MCall (ErrCodec None)) ∧
  callMeaning (q := TIface) (p := TInt) Ok (λ o, Value (default 0 o)) Ok (Some 4) = Ok 4.
Proof. split; reflexivity. Qed.

End Method.
