(* ===== verification/Clone.v ===== *)
(** * Clone functions (src/actor/clone_provider.go, src/actor/method.go: resolveClone,
    src/actor/protoclone/protoclone.go)

    Where the clone functions of a typed method come from when it names none:
    [resolveClone] gives the parameter [defaultClone] of [Method]. Providers work on boxed
    values; the adapter gives them their type back. *)

From S2P Require Import Prelude Runtime System Codec Method.

Module Clone.
Import Codec.

Section clone.
Context {type : Type} {El : type → Type} {HT : ∀ t, GoType (El t)}.
Notation CloneFunc t := (El t → result error (El t)).

(** isNil, and the zero value of a type, which is the nil pointer of a type that has one. *)
Context (isNil : ∀ t, El t → bool) (zero : ∀ t, El t).

(** A provider does not handle a type, or does, with or without a function. *)
Definition CloneProvider : Type := type → option (option (any → result error any)).

Definition RegisterCloneProvider (providers : list CloneProvider) (p : option CloneProvider) : list CloneProvider :=
  match p with None => providers | Some p => providers ++ [p] end.

(** The error of a provider that returns another type. *)
Definition cloneTypeError : error := ErrUser 1.

Definition adapt (t : type) (clone : any → result error any) : CloneFunc t := λ value,
  if isNil t value then Ok (zero t)
  else match clone (box value) with
       | Err e => Err e
       | Ok cloned => match cast cloned with Some typed => Ok typed | None => Err cloneTypeError end
       end.

Fixpoint providerClone (providers : list CloneProvider) (t : type) : option (CloneFunc t) :=
  match providers with
  | [] => None
  | p :: ps => match p t with Some (Some clone) => Some (adapt t clone) | _ => providerClone ps t end
  end.

(** The Clone methods of types, and transitivelyImmutable. *)
Context (cloneMethod : ∀ t, option (El t → El t)) (transitivelyImmutable : type → bool).

(** resolveClone without an explicit function; [None] is its error. *)
Definition resolveClone (providers : list CloneProvider) (t : type) : option (CloneFunc t) :=
  match providerClone providers t with
  | Some clone => Some clone
  | None =>
      match cloneMethod t with
      | Some Clone => Some (λ value, if isNil t value then Ok (zero t) else Ok (Clone value))
      | None => if transitivelyImmutable t then Some Ok else None
      end
  end.

(** protoclone.Provider: [message t] is the type's implementation of proto.Message. *)
Definition protoProvider (message : ∀ t, option (ProtoMessage (El t))) : CloneProvider := λ t,
  match message t with
  | None => None
  | Some H => Some (Some (λ value, match cast (T := El t) value with Some m => Ok (box (clone m)) | None => Err perror end))
  end.

(** ** What resolved functions do *)

Context (Hzero : ∀ t v, isNil t v = true → v = zero t).
(** A nil interface is nil. *)
Context (Hnil : ∀ t v, isNil t v = false → isNilAny (box v) = false).

(** The contract of a provider: its functions copy values that are not nil. *)
Definition copies (p : CloneProvider) : Prop :=
  ∀ t f v, p t = Some (Some f) → isNil t v = false → f (box v) = Ok (box v).

Lemma protoProvider_copies message : copies (protoProvider message).
Proof using Hnil.
  intros t f v. unfold protoProvider. destruct (message t) as [H|]; [|done]. intros [= <-] Hn.
  by rewrite cast_value, clone_eq by auto.
Qed.

Lemma providerClone_copies providers t c v : Forall copies providers → providerClone providers t = Some c → c v = Ok v.
Proof using Hzero Hnil.
  intros Hp. induction Hp as [|p ps Hp _ IH]; [done|]. cbn. destruct (p t) as [[f|]|] eqn:Hf; [|exact IH..].
  intros [= <-]. unfold adapt. destruct (isNil t v) eqn:Hn; [by rewrite (Hzero t v Hn)|].
  by rewrite (Hp t f v Hf Hn), cast_value by auto.
Qed.

(** Registration order decides, and nil is not registered. *)
Lemma first_provider providers p ps t f :
  providers = (foldl RegisterCloneProvider [] ps) → foldl RegisterCloneProvider [] (ps ++ [p]) = RegisterCloneProvider providers p ∧
  (providerClone providers t = Some f → providerClone (RegisterCloneProvider providers p) t = Some f).
Proof.
  intros ->. split; [by rewrite foldl_app|]. destruct p as [p|]; [|done]. cbn.
  induction (foldl RegisterCloneProvider [] ps) as [|p' l IH]; [done|]. cbn. by destruct (p' t) as [[?|]|].
Qed.

(** A resolved function of contract-abiding providers and Clone methods gives back an equal
    value, whatever was registered and in whatever order. *)
Theorem resolved_copies providers t c v :
  Forall copies providers → (∀ f, cloneMethod t = Some f → f v = v) → resolveClone providers t = Some c → c v = Ok v.
Proof using Hzero Hnil.
  intros Hp Hm. unfold resolveClone. destruct (providerClone providers t) as [c'|] eqn:Hc.
  - intros [= <-]. by eapply providerClone_copies.
  - destruct (cloneMethod t) as [f|]; [|destruct (transitivelyImmutable t); [|done]; by intros [= <-]].
    intros [= <-]. destruct (isNil t v) eqn:Hn; [by rewrite (Hzero t v Hn)|]. by rewrite (Hm f eq_refl).
Qed.

(** With resolved functions a typed call is the call of its handler. *)
Corollary default_call providers {q p} (cq : CloneFunc q) (cp : CloneFunc p) (fn : El q → attempt (El p)) request :
  Forall copies providers → (∀ t f (v : El t), cloneMethod t = Some f → f v = v) →
  resolveClone providers q = Some cq → resolveClone providers p = Some cp →
  Method.callMeaning cq fn cp request =
    match Method.present request with
    | Err e => Err e
    | Ok r =>
        match fn r with
        | Value x => Method.present x
        | Fails e => Err (Method.MCall (ErrUser e))
        | Panics e => Err (Method.MCall (ErrPanic e))
        end
    end.
Proof using Hzero Hnil.
  intros Hp Hm Hq Hr. unfold Method.callMeaning.
  assert (∀ t (c : CloneFunc t) v, resolveClone providers t = Some c → Method.cloned c v = Method.present v) as Hc.
  { intros t c v Hc. unfold Method.cloned. destruct (Method.present_cases v) as [E|[E _]]; rewrite E; [done|].
    by rewrite (resolved_copies _ _ _ v Hp (λ f, Hm t f v) Hc). }
  rewrite (Hc q cq) by done. destruct (Method.present request) as [r|]; [|done].
  destruct (fn r) as [x|e|e]; [|done..]. by apply Hc.
Qed.

End clone.
End Clone.
