(* ===== verification/Immutable.v ===== *)
(** * Clone resolution (src/actor/method.go, src/actor/clone_provider.go)

    [transitivelyImmutable] decides whether values of a type may be handed to
    another actor without copying.  Types are entries of a table (named types
    may refer to one another); [refs] are the references to shared mutable
    memory a value contains. *)

From S2P Require Import Prelude.

Module Immutable.

(** reflect.Kind, as far as the function distinguishes it.  [Reference] stands
    for pointer, slice, map, channel, function, interface and unsafe pointer. *)
Inductive kind :=
  | Scalar
  | Array (elem : nat)
  | Struct (fields : list nat)
  | Reference.

Notation types := (list kind).

(** [t.NumField] fields are visited in order until one is mutable.  The fuel is
    the number of types plus one; [None] would be running out of it. *)
Fixpoint transitivelyImmutable (fuel : nat) (env : types) (visiting : gset nat) (t : nat) : option bool :=
  match fuel with
  | O => None
  | S n =>
      match env !! t with
      | None => Some false     (* t == nil *)
      | Some k =>
          if decide (t ∈ visiting) then Some true
          else
            let fix all (l : list nat) : option bool :=
              match l with
              | [] => Some true
              | c :: l' =>
                  match transitivelyImmutable n env ({[t]} ∪ visiting) c with
                  | None => None
                  | Some false => Some false
                  | Some true => all l'
                  end
              end in
            match k with
            | Scalar => Some true
            | Array e => transitivelyImmutable n env ({[t]} ∪ visiting) e
            | Struct fs => all fs
            | Reference => Some false
            end
      end
  end.

Definition immutable (env : types) (t : nat) : option bool :=
  transitivelyImmutable (S (length env)) env ∅ t.

(** ** Clone resolution order *)

Inductive cloneSource := Explicit | Provider (i : nat) | CloneMethod | Identity.

(** The providers' answers for the type, in registration order: not handled, or
    handled with or without a function. *)
Fixpoint providerClone (i : nat) (l : list (option bool)) : option nat :=
  match l with
  | [] => None
  | Some true :: _ => Some i
  | _ :: l' => providerClone (S i) l'
  end.

Definition resolveClone (explicit : bool) (providers : list (option bool)) (hasClone : bool)
    (env : types) (t : nat) : option cloneSource :=
  if explicit then Some Explicit
  else match providerClone 0 providers with
       | Some i => Some (Provider i)
       | None =>
           if hasClone then Some CloneMethod
           else match immutable env t with Some true => Some Identity | _ => None end
       end.

(** ** Values *)

Inductive value :=
  | VScalar (z : Z)
  | VArray (l : list value)
  | VStruct (l : list value)
  | VRef (addr : nat).

Fixpoint refs (v : value) : list nat :=
  match v with
  | VScalar _ => []
  | VArray l | VStruct l => l ≫= refs
  | VRef a => [a]
  end.

Inductive has_type (env : types) : value → nat → Prop :=
  | t_scalar z t : env !! t = Some Scalar → has_type env (VScalar z) t
  | t_array l t e : env !! t = Some (Array e) → Forall (λ v, has_type env v e) l → has_type env (VArray l) t
  | t_struct l t fs : env !! t = Some (Struct fs) → Forall2 (has_type env) l fs → has_type env (VStruct l) t
  | t_ref a t : env !! t = Some Reference → has_type env (VRef a) t.

(** [c] is the type of an element or of a field of [t]. *)
Definition child (env : types) (t c : nat) : Prop :=
  env !! t = Some (Array c) ∨ ∃ fs, env !! t = Some (Struct fs) ∧ c ∈ fs.

Definition good (env : types) (t : nat) : Prop :=
  match env !! t with Some Reference | None => False | _ => True end.

(** ** Termination *)

Lemma fuel_enough n : ∀ env V t,
  V ⊆ list_to_set (seq 0 (length env)) → (length env < n + size V)%nat →
  is_Some (transitivelyImmutable n env V t).
Proof.
  induction n as [|n IH]; intros env V t HV Hn.
  { apply subseteq_size in HV. rewrite size_list_to_set in HV by apply NoDup_seq.
    rewrite length_seq in HV. lia. }
  simpl. destruct (env !! t) as [k|] eqn:Ht; [|by eexists]. case_decide as Hv; [by eexists|].
  assert (∀ c, is_Some (transitivelyImmutable n env ({[t]} ∪ V) c)) as Hc.
  { intros c. apply IH.
    - apply lookup_lt_Some in Ht. intros x [Hx%elem_of_singleton|Hx]%elem_of_union; [|by apply HV].
      subst. apply elem_of_list_to_set, elem_of_seq. lia.
    - rewrite size_add by done. lia. }
  destruct k as [|e|fs|]; [by eexists|apply Hc| |by eexists].
  clear Ht. induction fs as [|c fs IHf]; [by eexists|]. destruct (Hc c) as [[] ->]; [done|by eexists].
Qed.

(** ** Soundness *)

Lemma children_immutable n env V t c :
  transitivelyImmutable (S n) env V t = Some true → t ∉ V → child env t c →
  transitivelyImmutable n env ({[t]} ∪ V) c = Some true.
Proof.
  simpl. intros H Hv Hc. destruct (env !! t) as [k|] eqn:Ht; [|done]. rewrite decide_False in H by done.
  destruct Hc as [Hc|(fs & Hc & Hin)]; rewrite Ht in Hc; injection Hc as ->; [done|].
  clear Ht. induction fs as [|c' fs IHf]; [set_solver|]. destruct (transitivelyImmutable n env _ c') as [[]|] eqn:E; try done.
  apply elem_of_cons in Hin as [->|Hin]; auto.
Qed.

Lemma visit_good n env V t : transitivelyImmutable n env V t = Some true → t ∉ V → good env t.
Proof.
  destruct n as [|n]; [done|]. simpl. unfold good. destruct (env !! t) as [k|]; [|done].
  intros H Hv. rewrite decide_False in H by done. by destruct k.
Qed.

(** A type reached from [t] is good, or it is reached from a type on the
    recursion's stack in no more steps. *)
Lemma reach_good n : ∀ env V t k u,
  transitivelyImmutable n env V t = Some true → nsteps (child env) k t u →
  good env u ∨ ∃ w j, w ∈ V ∧ (j ≤ k)%nat ∧ nsteps (child env) j w u.
Proof.
  induction n as [|n IH]; intros env V t k u H; [done|]. revert u.
  induction k as [k IHk] using lt_wf_ind. intros u Hu.
  destruct (decide (t ∈ V)) as [Hv|Hv]; [right; by exists t, k|].
  destruct k as [|k]; inversion Hu as [|? ? c ? Hc Hcu]; subst; [left; by eapply visit_good|].
  pose proof (children_immutable _ _ _ _ _ H Hv Hc) as H'.
  destruct (IH env _ c k u H' Hcu) as [Hg|(w & j & Hw & Hj & Hwu)]; [by left|].
  apply elem_of_union in Hw as [->%elem_of_singleton|Hw].
  - destruct (IHk j ltac:(lia) u Hwu) as [Hg|(w' & j' & ? & ? & ?)]; [by left|].
    right. exists w', j'. split_and!; [done|lia|done].
  - right. exists w, j. split_and!; [done|lia|done].
Qed.

Lemma immutable_reach env t u : immutable env t = Some true → rtc (child env) t u → good env u.
Proof.
  intros H [k Hk]%rtc_nsteps. by destruct (reach_good _ _ _ _ _ _ H Hk) as [Hg|(w & j & Hw & _)]; [|set_solver].
Qed.

Fixpoint vsize (v : value) : nat :=
  match v with
  | VArray l | VStruct l => S (sum_list (vsize <$> l))
  | _ => 1
  end.

Lemma no_refs_list (l : list value) : (∀ v, v ∈ l → refs v = []) → l ≫= refs = [].
Proof.
  induction l as [|v l IH]; intros H; [done|]. simpl. rewrite (H v) by set_solver.
  apply IH. set_solver.
Qed.

Lemma vsize_elem v l : v ∈ l → (vsize v ≤ sum_list (vsize <$> l))%nat.
Proof.
  induction l as [|x l IH]; [set_solver|]. csimpl. intros [->|H%IH]%elem_of_cons; lia.
Qed.

Lemma no_refs env v : ∀ t, has_type env v t → (∀ u, rtc (child env) t u → good env u) → refs v = [].
Proof.
  induction v as [v IH] using (well_founded_induction (Wf_nat.well_founded_ltof _ vsize)).
  unfold ltof in IH. intros t Hv Hg.
  inversion Hv as [z ? Ht|l ? e Ht Hl|l ? fs Ht Hl|a ? Ht]; subst; simpl; [done| | |].
  - apply no_refs_list. intros x Hx. rewrite Forall_forall in Hl.
    apply (IH x) with e; [apply vsize_elem in Hx; simpl; lia|by apply Hl|].
    intros u Hu. apply Hg. eapply rtc_l; [by left|done].
  - apply no_refs_list. intros x Hx. apply list_elem_of_lookup in Hx as [i Hi].
    destruct (Forall2_lookup_l _ _ _ _ _ Hl Hi) as (f & Hf & Hxf).
    apply (IH x) with f; [apply list_elem_of_lookup_2, vsize_elem in Hi; simpl; lia|done|].
    intros u Hu. apply Hg. eapply rtc_l; [|done]. right. exists fs. split; [done|].
    by apply list_elem_of_lookup_2 in Hf.
  - specialize (Hg t (rtc_refl _ _)). unfold good in Hg. by rewrite Ht in Hg.
Qed.

(** C17 (sharing is safe) The recursion over a type always terminates, cycles
    between named types included, and when it answers that the type is
    transitively immutable no value of the type contains a reference to shared
    mutable memory. *)
Theorem immutable_sound (env : types) (t : nat) :
  is_Some (immutable env t) ∧
  (immutable env t = Some true → ∀ v, has_type env v t → refs v = []).
Proof.
  split.
  - apply fuel_enough; [set_solver|]. rewrite size_empty. lia.
  - intros H v Hv. apply (no_refs env v t Hv). intros u Hu. by apply (immutable_reach env t).
Qed.

(** A struct of a string and an array of such structs' first field. *)
Lemma immutable_sound_witness :
  immutable [Scalar; Array 0; Struct [0%nat; 1%nat]] 2 = Some true ∧
  refs (VStruct [VScalar 7; VArray [VScalar 1; VScalar 2]]) = [].
Proof.
  split; [vm_compute; reflexivity|].
  apply (immutable_sound [Scalar; Array 0; Struct [0%nat; 1%nat]] 2); [vm_compute; reflexivity|].
  eapply t_struct; [reflexivity|]. repeat constructor. eapply t_array; [reflexivity|]. repeat constructor.
Defined.

End Immutable.
