(* ===== verification/IdGen.v ===== *)
(** * Timer identifiers (src/timer/id_generator.go)

    A generator reads the wall clock through [now]; the readings (in Unix
    milliseconds) of successive calls are the list [clock], and [None] means the
    call still waits for the clock when the readings end. *)

From stdpp Require Import sorting.
From S2P Require Import Prelude.

Module IdGen.

Definition snowflakeEpochMs : Z := 1704067200000.
Definition snowflakeNodeBits : Z := 10.
Definition snowflakeSequenceBits : Z := 12.
Definition snowflakeMaxNodeID : Z := Z.shiftl 1 snowflakeNodeBits - 1.
Definition snowflakeMaxSequence : Z := Z.shiftl 1 snowflakeSequenceBits - 1.
Definition maxClockBackoff : Z := 5 * Millisecond.

Definition seqMask : Z := snowflakeMaxSequence.
Definition nodeShift : Z := snowflakeSequenceBits.
Definition timeShift : Z := snowflakeNodeBits + snowflakeSequenceBits.

Inductive error := ErrClockBackwards | ErrBeforeEpoch.

Record IDGenerator := Gen { nodeID : Z; lastMs : Z; sequence : Z }.

Definition NewIDGenerator (node : Z) : IDGenerator :=
  Gen (if decide (node > snowflakeMaxNodeID) then Z.land node snowflakeMaxNodeID else node) 0 0.

(** hash/fnv's 32-bit FNV-1a over the bytes of the name. *)
Definition fnv32a (bytes : list Z) : Z :=
  foldl (λ h b, u32 (Z.lxor h b * 16777619)) 2166136261 bytes.

(** The bytes of [nodeName]; the empty name is hashed as "default". *)
Definition NodeNameToSnowflakeNodeID (name : list Z) : Z :=
  let name := if decide (name = []) then [100; 101; 102; 97; 117; 108; 116] else name in
  u16 (Z.land (fnv32a name) snowflakeMaxNodeID).

Definition NewIDGeneratorFromNodeName (name : list Z) : IDGenerator :=
  NewIDGenerator (NodeNameToSnowflakeNodeID name).

(** [for nowMs <= g.lastMs { sleep; nowMs = now() }]. *)
Fixpoint spin (last : Z) (clock : list Z) : option (Z * list Z) :=
  match clock with
  | [] => None
  | n :: c => if decide (n ≤ last) then spin last c else Some (n, c)
  end.

(** The reading the identifier is made from, after a small step back of the clock. *)
Definition settle (g : IDGenerator) (now : Z) (clock : list Z) : option (result error Z * list Z) :=
  if decide (now < lastMs g) then
    let backoff := i64 (i64 (lastMs g - now) * Millisecond) in
    if decide (backoff > maxClockBackoff) then Some (Err ErrClockBackwards, clock)
    else match clock with
         | [] => None
         | now2 :: c => Some (Ok (if decide (now2 < lastMs g) then lastMs g else now2), c)
         end
  else Some (Ok now, clock).

(** The tail of [Next], from [g.lastMs = nowMs]. *)
Definition pack (g : IDGenerator) (now seq : Z) : result error Z * IDGenerator :=
  let g' := Gen (nodeID g) now seq in
  let elapsed := i64 (now - snowflakeEpochMs) in
  (if decide (elapsed < 0) then Err ErrBeforeEpoch
   else Ok (Z.lor (Z.lor (u64 (Z.shiftl (u64 elapsed) timeShift)) (u64 (Z.shiftl (nodeID g) nodeShift))) seq),
   g').

Definition Next (g : IDGenerator) (clock : list Z) : option (result error Z * IDGenerator * list Z) :=
  match clock with
  | [] => None
  | now :: c0 =>
      match settle g now c0 with
      | None => None
      | Some (Err e, c) => Some (Err e, g, c)
      | Some (Ok now, c) =>
          if decide (now = lastMs g) then
            let seq := Z.land (u16 (sequence g + 1)) seqMask in
            if decide (seq = 0) then
              match spin (lastMs g) c with
              | None => None
              | Some (now', c') => Some (pack g now' seq, c')
              end
            else Some (pack g now seq, c)
          else Some (pack g now 0, c)
      end
  end.

(** The identifiers of [k] successive calls, failed calls left out. *)
Fixpoint issue (k : nat) (g : IDGenerator) (clock : list Z) : option (list Z * IDGenerator) :=
  match k with
  | O => Some ([], g)
  | S k =>
      match Next g clock with
      | None => None
      | Some (r, g', c) =>
          match issue k g' c with
          | None => None
          | Some (ids, g'') => Some (match r with Ok id => id :: ids | Err _ => ids end, g'')
          end
      end
  end.

(** ** Well-formedness *)

Record wf (g : IDGenerator) : Prop := {
  wf_node : 0 ≤ nodeID g ≤ snowflakeMaxNodeID;
  wf_seq : 0 ≤ sequence g ≤ snowflakeMaxSequence;
}.

(** The generator's last reading fits the time field. *)
Definition in_range (g : IDGenerator) : Prop := lastMs g < snowflakeEpochMs + 2 ^ 42.

(** The identifier of a generator state, as a number. *)
Definition value (g : IDGenerator) : Z :=
  ((lastMs g - snowflakeEpochMs) * 2 ^ 10 + nodeID g) * 2 ^ 12 + sequence g.

Definition later (g g' : IDGenerator) : Prop :=
  nodeID g' = nodeID g ∧ (lastMs g < lastMs g' ∨ lastMs g = lastMs g' ∧ sequence g < sequence g').

Definition not_before (g g' : IDGenerator) : Prop :=
  nodeID g' = nodeID g ∧ (lastMs g < lastMs g' ∨ lastMs g = lastMs g' ∧ sequence g ≤ sequence g').

Lemma land_mask a n : 0 ≤ n → Z.land a (Z.shiftl 1 n - 1) = a mod 2 ^ n.
Proof.
  intros Hn. rewrite Z.shiftl_mul_pow2, Z.mul_1_l by lia.
  replace (2 ^ n - 1) with (Z.ones n) by (rewrite Z.ones_equiv; lia). by apply Z.land_ones.
Qed.

Lemma maxNode_eq : snowflakeMaxNodeID = 1023.
Proof. reflexivity. Qed.
Lemma maxSequence_eq : snowflakeMaxSequence = 4095.
Proof. reflexivity. Qed.

Lemma wf_new n : 0 ≤ n < 2 ^ 16 → wf (NewIDGenerator n).
Proof.
  intros Hn. split; simpl; [|done]. case_decide; [|rewrite maxNode_eq in *; lia].
  assert (Z.land n snowflakeMaxNodeID = n mod 2 ^ 10) as -> by (by apply (land_mask n 10)).
  rewrite maxNode_eq.
  pose proof (Z.mod_pos_bound n (2 ^ 10)). lia.
Qed.

Lemma pack_value g now seq :
  wf g → 0 ≤ seq ≤ snowflakeMaxSequence → now < snowflakeEpochMs + 2 ^ 42 →
  - 2 ^ 62 ≤ now →
  pack g now seq =
    (if decide (now < snowflakeEpochMs) then Err ErrBeforeEpoch else Ok (value (Gen (nodeID g) now seq)),
     Gen (nodeID g) now seq).
Proof.
  intros [Hn _] Hs Hb Hl. rewrite maxNode_eq in Hn. rewrite maxSequence_eq in Hs.
  unfold pack, snowflakeEpochMs in *.
  f_equal. unfold i64. rewrite wraps_small by lia.
  repeat case_decide; try lia; [done|]. f_equal. unfold value, timeShift, nodeShift,
    snowflakeNodeBits, snowflakeSequenceBits, snowflakeEpochMs. simpl lastMs. simpl nodeID. simpl sequence.
  rewrite (u64_small (now - _)) by lia. rewrite !Z.shiftl_mul_pow2 by lia.
  rewrite !u64_small by lia.
  rewrite <-(Z.shiftl_mul_pow2 (nodeID g)), <-(Z.shiftl_mul_pow2 (now - _)) by lia.
  change (10 + 12) with 22.
  replace (Z.shiftl (now - 1704067200000) 22) with (Z.shiftl (Z.shiftl (now - 1704067200000) 10) 12)
    by (by rewrite Z.shiftl_shiftl by lia).
  rewrite <-Z.shiftl_lor, lor_shiftl_add, lor_shiftl_add by lia. done.
Qed.

Lemma spin_spec last c n c' : spin last c = Some (n, c') → last < n.
Proof.
  induction c as [|x c IH]; simpl; [done|]. case_decide; [done|]. intros [= <- <-]. lia.
Qed.

Lemma settle_spec g now c n c' : settle g now c = Some (Ok n, c') → lastMs g ≤ n.
Proof.
  unfold settle. repeat case_decide; try done; [|intros [= <- <-]; lia].
  destruct c as [|x c]; [done|]. intros [= <- <-]. case_decide; lia.
Qed.

(** The state a call leaves: unchanged or [pack] of a later reading. *)
Lemma Next_state g c r g' c' :
  wf g → Next g c = Some (r, g', c') →
  (g' = g ∧ r = Err ErrClockBackwards) ∨
  ∃ now seq, later g (Gen (nodeID g) now seq) ∧ 0 ≤ seq ≤ snowflakeMaxSequence ∧
             (r, g') = pack g now seq.
Proof.
  intros [Hn Hs]. unfold Next. destruct c as [|x c0]; [done|].
  destruct (settle g x c0) as [[[now|e] c]|] eqn:E; [| |done].
  2: { unfold settle in E. repeat case_decide; simplify_eq; [|destruct c0; done].
       intros [= <- <- <-]. by left. }
  apply settle_spec in E. intros H. right.
  assert (0 ≤ 0 ≤ snowflakeMaxSequence) as H0 by done.
  case_decide as Hd; [case_decide as Hz|].
  - destruct (spin (lastMs g) c) as [[n c1]|] eqn:Es; [|done]. apply spin_spec in Es.
    exists n, 0. rewrite Hz in H. split; [split; [done|left; simpl; lia]|]. split; [done|congruence].
  - assert (Z.land (u16 (sequence g + 1)) seqMask = sequence g + 1) as Hq.
    { rewrite maxSequence_eq in Hs. unfold u16, seqMask, snowflakeMaxSequence, snowflakeSequenceBits in *.
      rewrite wrapu_small by lia. rewrite land_mask in * by lia. apply Z.mod_small.
      destruct (decide (sequence g = 4095)) as [E1|]; [|lia]. exfalso. apply Hz.
      by rewrite E1. }
    rewrite Hq in H. exists now, (sequence g + 1). split; [|split; [split; [lia|]|congruence]].
    + split; [done|]. right. simpl. lia.
    + rewrite <-Hq, maxSequence_eq. 
      assert (∀ z, Z.land z seqMask = z mod 2 ^ 12) as -> by (intros z; by apply (land_mask z 12)).
      pose proof (Z.mod_pos_bound (u16 (sequence g + 1)) (2 ^ 12)). lia.
  - exists now, 0. split; [split; [done|left; simpl; lia]|]. split; [done|congruence].
Qed.

Lemma Next_wf g c r g' c' :
  wf g → Next g c = Some (r, g', c') → wf g' ∧ not_before g g'.
Proof.
  intros W H. destruct (Next_state _ _ _ _ _ W H) as [[-> _]|(now & seq & [_ Hl] & Hs & Hp)].
  - split; [done|]. split; [done|]. right. lia.
  - unfold pack in Hp. injection Hp as _ ->. destruct W. split; [by split|].
    split; [done|]. simpl in *. lia.
Qed.

Lemma Next_id g c id g' c' :
  wf g → 0 ≤ lastMs g → in_range g' → Next g c = Some (Ok id, g', c') →
  later g g' ∧ id = value g' ∧ snowflakeEpochMs ≤ lastMs g'.
Proof.
  intros W H0 Hr H. destruct (Next_state _ _ _ _ _ W H) as [[_ ?]|(now & seq & Hl & Hs & Hp)]; [done|].
  assert (g' = Gen (nodeID g) now seq) as -> by (unfold pack in Hp; by injection Hp as _ ->).
  rewrite pack_value in Hp; [|done|done|done|destruct Hl; simpl in *; lia].
  injection Hp as Hp. case_decide; [done|]. injection Hp as ->. split_and!; [done|done|simpl; lia].
Qed.

Lemma value_later g g' :
  wf g → wf g' → later g g' → value g < value g'.
Proof.
  intros [N1 S1] [N2 S2] [Hn Hl]. rewrite maxNode_eq in *. rewrite maxSequence_eq in *.
  unfold value. rewrite Hn. lia.
Qed.

Lemma value_not_before g g' :
  wf g → wf g' → not_before g g' → value g ≤ value g'.
Proof.
  intros [N1 S1] [N2 S2] [Hn Hl]. rewrite maxNode_eq in *. rewrite maxSequence_eq in *.
  unfold value. rewrite Hn. lia.
Qed.

Lemma issue_spec k : ∀ g c ids g',
  wf g → 0 ≤ lastMs g → issue k g c = Some (ids, g') → in_range g' →
  not_before g g' ∧ wf g' ∧ StronglySorted Z.lt ids ∧
  Forall (λ id, value g < id ∧ ∃ h, wf h ∧ in_range h ∧ nodeID h = nodeID g ∧ id = value h ∧
                snowflakeEpochMs ≤ lastMs h) ids.
Proof.
  induction k as [|k IH]; simpl; intros g c ids g' W H0 H Hr.
  { injection H as <- <-. split_and!; [split; [done|lia]|done|constructor|constructor]. }
  destruct (Next g c) as [[[r g1] c1]|] eqn:E; [|done].
  destruct (issue k g1 c1) as [[ids1 g2]|] eqn:E1; [|done]. injection H as <- <-.
  destruct (Next_wf _ _ _ _ _ W E) as [W1 Hb].
  assert (0 ≤ lastMs g1) as H1 by (destruct Hb; lia).
  destruct (IH g1 c1 ids1 g2 W1 H1 E1 Hr) as (Hb2 & W2 & Hs & Hf).
  assert (in_range g1) as Hr1 by (unfold in_range in *; destruct Hb2; lia).
  assert (Forall (λ id, value g < id ∧ ∃ h, wf h ∧ in_range h ∧ nodeID h = nodeID g ∧ id = value h ∧
                snowflakeEpochMs ≤ lastMs h) ids1) as Hf'.
  { apply (Forall_impl _ _ _ Hf). simpl. intros id (Hv & h & ? & ? & Hn & ? & ?).
    split; [pose proof (value_not_before _ _ W W1 Hb); lia|]. exists h. destruct Hb as [Hb1 _]. split_and!; try done. congruence. }
  split_and!; [|done|..].
  - destruct Hb, Hb2. split; [congruence|]. lia.
  - destruct r as [id|]; [|done]. destruct (Next_id _ _ _ _ _ W H0 Hr1 E) as (_ & -> & _).
    apply StronglySorted_cons. split; [|done]. apply (Forall_impl _ _ _ Hf). simpl. by intros x [? _].
  - destruct r as [id|]; [|done]. destruct (Next_id _ _ _ _ _ W H0 Hr1 E) as (Hl & -> & He).
    constructor; [|done]. split; [by apply value_later|]. exists g1. destruct Hb as [Hb1 _]. by split_and!.
Qed.

Lemma field_div a b n : 0 ≤ b < 2 ^ n → 0 ≤ n → (a * 2 ^ n + b) / 2 ^ n = a.
Proof. intros. rewrite Z.div_add_l, Z.div_small by lia. lia. Qed.

Lemma field_mod a b n : 0 ≤ b < 2 ^ n → 0 ≤ n → (a * 2 ^ n + b) mod 2 ^ n = b.
Proof. intros. rewrite Z.add_comm, Z.mod_add, Z.mod_small by lia. done. Qed.

(** The three fields of an identifier. *)
Definition timeField (id : Z) : Z := Z.shiftr id timeShift.
Definition nodeField (id : Z) : Z := Z.land (Z.shiftr id nodeShift) snowflakeMaxNodeID.
Definition sequenceField (id : Z) : Z := Z.land id snowflakeMaxSequence.

Lemma value_fields g :
  wf g → timeField (value g) = lastMs g - snowflakeEpochMs ∧
         nodeField (value g) = nodeID g ∧ sequenceField (value g) = sequence g.
Proof.
  intros [Hn Hs]. rewrite maxNode_eq in Hn. rewrite maxSequence_eq in Hs.
  unfold timeField, nodeField, sequenceField, value.
  rewrite (land_mask _ 10), (land_mask _ 12), !Z.shiftr_div_pow2 by done.
  change (2 ^ nodeShift) with (2 ^ 12). change (2 ^ timeShift) with (2 ^ 12 * 2 ^ 10).
  rewrite <-Z.div_div by lia. rewrite !field_div, !field_mod by lia. done.
Qed.

(** C18 (unique identifiers) Whatever the wall clock does, stepping back included,
    the identifiers a generator issues are strictly increasing, carry its node
    number, and fit 64 bits, until the year 2163 (42 bits of milliseconds). *)
Theorem ids_increase (node : Z) (k : nat) (clock ids : list Z) (g : IDGenerator) :
  0 ≤ node < 2 ^ 16 → issue k (NewIDGenerator node) clock = Some (ids, g) → in_range g →
  StronglySorted Z.lt ids ∧
  Forall (λ id, 0 ≤ id < 2 ^ 64 ∧ nodeField id = nodeID (NewIDGenerator node)) ids.
Proof.
  intros Hn H Hr. pose proof (wf_new node Hn) as W.
  destruct (issue_spec k _ _ _ _ W ltac:(done) H Hr) as (_ & _ & Hs & Hf). split; [done|].
  eapply Forall_impl; [done|]. simpl. intros id (_ & h & Wh & Rh & Nh & -> & Eh).
  split; [|rewrite <-Nh; by apply value_fields].
  destruct Wh as [Hn' Hs']. rewrite maxNode_eq in Hn'. rewrite maxSequence_eq in Hs'.
  unfold value, in_range, snowflakeEpochMs in *. lia.
Qed.

(** Four readings of one millisecond, one a millisecond back, one later. *)
Lemma ids_increase_witness :
  StronglySorted Z.lt
    [Z.shiftl 1000 22 + Z.shiftl 5 12; Z.shiftl 1000 22 + Z.shiftl 5 12 + 1;
     Z.shiftl 1000 22 + Z.shiftl 5 12 + 2; Z.shiftl 1007 22 + Z.shiftl 5 12].
Proof.
  eapply (ids_increase 5 4 [1704067201000; 1704067201000; 1704067200999; 1704067201000; 1704067201007]).
  - lia.
  - vm_compute. reflexivity.
  - vm_compute. reflexivity.
Defined.

Lemma spin_terminates last c : Exists (λ x, last < x) c → is_Some (spin last c).
Proof.
  induction 1 as [x c Hx|x c _ IH]; simpl; case_decide; try lia; eauto.
Qed.

(** Next returns: a call waits for the clock only as long as the clock shows a
    time not after the last identifier: with two readings and a later one among
    the following it returns. *)
Theorem next_terminates (g : IDGenerator) (x y : Z) (c : list Z) :
  Exists (λ z, lastMs g < z) c → is_Some (Next g (x :: y :: c)).
Proof.
  intros Hc. pose proof (spin_terminates _ _ Hc) as [[n1 c1] E1].
  assert (is_Some (spin (lastMs g) (y :: c))) as [[n2 c2] E2]
    by (apply spin_terminates; by apply Exists_cons_tl).
  unfold Next, settle. repeat case_decide; simpl; rewrite ?E1, ?E2; try (by eexists).
  case_decide; by eexists.
Qed.

Lemma next_terminates_witness : is_Some (Next (Gen 1 10 4095) [10; 9; 10; 11]).
Proof. apply (next_terminates (Gen 1 10 4095) 10 9 [10; 11]). right. left. simpl. lia. Defined.

End IdGen.
