(* ===== verification/Heap.v ===== *)
(** * The indexed heap of the delay queue (src/timer/delay_queue.go)

    [indexedTaskHeap] with the operations container/heap performs on it through
    Len, Less, Swap, Push and Pop.  [None] is an out-of-range access or an
    exhausted loop bound; the specifications show that neither happens. *)

From S2P Require Import Prelude.

Module Heap.

Record Task := MkTask { ID : Z; ExpireTime : Z }.

#[global] Instance task_eq_dec : EqDecision Task.
Proof. solve_decision. Defined.

Record indexedTaskHeap := HeapOf { tasks : list Task; index : gmap Z nat }.

Definition newIndexedTaskHeap : indexedTaskHeap := HeapOf [] ∅.

(** ** heap.Interface *)

Definition Len (h : indexedTaskHeap) : nat := length (tasks h).

Definition Less (h : indexedTaskHeap) (i j : nat) : option bool :=
  a ← tasks h !! i; b ← tasks h !! j; Some (bool_decide (ExpireTime a < ExpireTime b)).

Definition Swap (h : indexedTaskHeap) (i j : nat) : option indexedTaskHeap :=
  a ← tasks h !! i; b ← tasks h !! j;
  Some (HeapOf (<[j := a]> (<[i := b]> (tasks h))) (<[ID a := j]> (<[ID b := i]> (index h)))).

Definition PushTask (h : indexedTaskHeap) (t : Task) : indexedTaskHeap :=
  HeapOf (tasks h ++ [t]) (<[ID t := length (tasks h)]> (index h)).

Definition PopTask (h : indexedTaskHeap) : option (indexedTaskHeap * Task) :=
  t ← last (tasks h);
  Some (HeapOf (take (length (tasks h) - 1) (tasks h)) (delete (ID t) (index h)), t).

(** ** container/heap *)

Fixpoint up (fuel : nat) (h : indexedTaskHeap) (j : nat) : option indexedTaskHeap :=
  match fuel with
  | O => None
  | S fuel =>
      let i := ((j - 1) / 2)%nat in
      if decide (i = j) then Some h
      else
        l ← Less h j i;
        if l : bool then h' ← Swap h i j; up fuel h' i else Some h
  end.

(** Returns the heap and whether the element moved. *)
Fixpoint down (fuel : nat) (h : indexedTaskHeap) (i n : nat) : option (indexedTaskHeap * bool) :=
  match fuel with
  | O => None
  | S fuel =>
      let j1 := (2 * i + 1)%nat in
      if decide (n ≤ j1)%nat then Some (h, false)
      else
        let j2 := S j1 in
        l2 ← (if decide (j2 < n)%nat then Less h j2 j1 else Some false);
        let j := if l2 : bool then j2 else j1 in
        l ← Less h j i;
        if l : bool then
          h' ← Swap h i j;
          '(h'', _) ← down fuel h' j n;
          Some (h'', true)
        else Some (h, false)
  end.

Definition Push (h : indexedTaskHeap) (t : Task) : option indexedTaskHeap :=
  let h := PushTask h t in up (Len h) h (Len h - 1).

Definition Pop (h : indexedTaskHeap) : option (indexedTaskHeap * Task) :=
  let n := (Len h - 1)%nat in
  h1 ← Swap h 0 n;
  '(h2, _) ← down (S n) h1 0 n;
  PopTask h2.

Definition Remove (h : indexedTaskHeap) (i : nat) : option (indexedTaskHeap * Task) :=
  let n := (Len h - 1)%nat in
  h1 ← (if decide (n = i) then Some h
        else
          h1 ← Swap h i n;
          '(h2, moved) ← down (S n) h1 i n;
          if moved : bool then Some h2 else up (S i) h2 i);
  PopTask h1.

Definition Fix (h : indexedTaskHeap) (i : nat) : option indexedTaskHeap :=
  '(h1, moved) ← down (S (Len h)) h i (Len h);
  if moved : bool then Some h1 else up (S i) h1 i.

(** [h.tasks[i].ExpireTime = e]. *)
Definition setExpire (h : indexedTaskHeap) (i : nat) (e : Z) : option indexedTaskHeap :=
  t ← tasks h !! i; Some (HeapOf (<[i := MkTask (ID t) e]> (tasks h)) (index h)).

(** ** Order *)

Definition key (l : list Task) (k : nat) : Z :=
  match l !! k with Some t => ExpireTime t | None => 0 end.

Definition child (p c : nat) : Prop := (c = 2 * p + 1 ∨ c = 2 * p + 2)%nat.

(** The first [n] tasks are heap ordered. *)
Definition ordered (n : nat) (l : list Task) : Prop :=
  ∀ p c, child p c → (c < n)%nat → key l p ≤ key l c.

(** Children of [i] are not smaller than its parent. *)
Definition bridge (n i : nat) (l : list Task) : Prop :=
  ∀ p c, child p i → child i c → (c < n)%nat → key l p ≤ key l c.

(** Ordered but for the pair above [i] (sift up), or for all pairs of [i]. *)
Definition ordered_up (n i : nat) (l : list Task) : Prop :=
  (∀ p c, child p c → (c < n)%nat → c ≠ i → key l p ≤ key l c) ∧ bridge n i l.

Definition ordered_but (n i : nat) (l : list Task) : Prop :=
  (∀ p c, child p c → (c < n)%nat → c ≠ i → p ≠ i → key l p ≤ key l c) ∧ bridge n i l.

(** The index map is the inverse of the task array. *)
Record indexed (h : indexedTaskHeap) : Prop := {
  ix_sound : ∀ i t, tasks h !! i = Some t → index h !! ID t = Some i;
  ix_complete : ∀ id i, index h !! id = Some i → ∃ t, tasks h !! i = Some t ∧ ID t = id;
}.

(** What sifting keeps: the index map, the tasks as a multiset, and everything
    from [n] on. *)
Record sifted (n : nat) (h h' : indexedTaskHeap) : Prop := {
  sf_indexed : indexed h';
  sf_perm : tasks h' ≡ₚ tasks h;
  sf_tail : ∀ k, (n ≤ k)%nat → tasks h' !! k = tasks h !! k;
}.

Lemma sifted_refl n h : indexed h → sifted n h h.
Proof. by split. Qed.

Lemma sifted_trans n h1 h2 h3 : sifted n h1 h2 → sifted n h2 h3 → sifted n h1 h3.
Proof.
  intros [? P1 T1] [? P2 T2]. split; [done|by rewrite P2|]. intros k Hk. by rewrite T2, T1.
Qed.

Lemma sifted_length n h h' : sifted n h h' → length (tasks h') = length (tasks h).
Proof. intros [_ P _]. by apply Permutation_length. Qed.

(** ** Swapping *)

Lemma swap_Permutation {A} (l : list A) i j a b :
  l !! i = Some a → l !! j = Some b → <[j := a]> (<[i := b]> l) ≡ₚ l.
Proof.
  intros Ha Hb. apply Permutation_inj. split; [by rewrite !length_insert|].
  exists (λ k, if decide (k = i) then j else if decide (k = j) then i else k).
  apply lookup_lt_Some in Ha as Hi. apply lookup_lt_Some in Hb as Hj. split.
  - intros x y. repeat case_decide; congruence.
  - intros k. destruct (decide (k = j)) as [->|Hkj].
    { rewrite list_lookup_insert_eq by (by rewrite length_insert).
      destruct (decide (j = i)) as [->|]; [congruence|done]. }
    rewrite list_lookup_insert_ne by done.
    destruct (decide (k = i)) as [->|Hki]; [by rewrite list_lookup_insert_eq|].
    by rewrite list_lookup_insert_ne by done.
Qed.

Lemma Swap_spec h i j n :
  indexed h → (i < length (tasks h))%nat → (j < length (tasks h))%nat → i ≠ j →
  ∃ h', Swap h i j = Some h' ∧ indexed h' ∧ tasks h' ≡ₚ tasks h ∧
    tasks h' !! i = tasks h !! j ∧ tasks h' !! j = tasks h !! i ∧
    (∀ k, k ≠ i → k ≠ j → tasks h' !! k = tasks h !! k) ∧
    ((i < n)%nat → (j < n)%nat → sifted n h h').
Proof.
  intros [I1 I2] Hi Hj Hij.
  apply lookup_lt_is_Some in Hi as [a Ha]. apply lookup_lt_is_Some in Hj as [b Hb].
  unfold Swap. rewrite Ha, Hb. simpl. eexists. split; [done|].
  assert (ID a ≠ ID b) as Hne by (intros E; apply I1 in Ha, Hb; congruence).
  assert (indexed (HeapOf (<[j := a]> (<[i := b]> (tasks h))) (<[ID a := j]> (<[ID b := i]> (index h)))))
    as Hix.
  { split; simpl.
    - intros k t Ht. destruct (decide (k = j)) as [->|Hkj].
      { rewrite list_lookup_insert_eq in Ht; [|rewrite length_insert; by eapply lookup_lt_Some].
        injection Ht as <-. by rewrite lookup_insert_eq. }
      rewrite list_lookup_insert_ne in Ht by done. destruct (decide (k = i)) as [->|Hki].
      { rewrite list_lookup_insert_eq in Ht by (by eapply lookup_lt_Some).
        injection Ht as <-. by rewrite lookup_insert_ne, lookup_insert_eq. }
      rewrite list_lookup_insert_ne in Ht by done. apply I1 in Ht as Hk.
      rewrite !lookup_insert_ne; [done|intros E|intros E]; apply I1 in Ha, Hb; congruence.
    - intros id k Hk. destruct (decide (id = ID a)) as [->|Ea].
      { rewrite lookup_insert_eq in Hk. injection Hk as <-. exists a. split; [|done].
        rewrite list_lookup_insert_eq; [done|]. rewrite length_insert. by eapply lookup_lt_Some. }
      rewrite lookup_insert_ne in Hk by done. destruct (decide (id = ID b)) as [->|Eb].
      { rewrite lookup_insert_eq in Hk. injection Hk as <-. exists b. split; [|done].
        rewrite list_lookup_insert_ne, list_lookup_insert_eq by (done || by eapply lookup_lt_Some). done. }
      rewrite lookup_insert_ne in Hk by done. apply I2 in Hk as (t & Ht & <-). exists t. split; [|done].
      rewrite !list_lookup_insert_ne; [done|intros ->|intros ->]; congruence. }
  assert (<[j := a]> (<[i := b]> (tasks h)) ≡ₚ tasks h) as Hp by (by apply swap_Permutation).
  apply lookup_lt_Some in Ha as Hi. apply lookup_lt_Some in Hb as Hj.
  split_and!; simpl; [done|done|..].
  - by rewrite list_lookup_insert_ne, list_lookup_insert_eq by done.
  - rewrite list_lookup_insert_eq by (by rewrite length_insert). done.
  - intros k Hki Hkj. by rewrite !list_lookup_insert_ne by done.
  - intros Hin Hjn. split; simpl; [done|done|]. intros k Hk. by rewrite !list_lookup_insert_ne by lia.
Qed.

Lemma Less_spec h i j :
  (i < length (tasks h))%nat → (j < length (tasks h))%nat →
  Less h i j = Some (bool_decide (key (tasks h) i < key (tasks h) j)).
Proof.
  intros [a Ha]%lookup_lt_is_Some [b Hb]%lookup_lt_is_Some.
  unfold Less, key. by rewrite Ha, Hb.
Qed.

(** Keys after a swap. *)
Lemma key_eq l l' i j : l !! i = l' !! j → key l i = key l' j.
Proof. unfold key. by intros ->. Qed.

Lemma key_unmoved l l' i j :
  (∀ k, k ≠ i → k ≠ j → l' !! k = l !! k) → ∀ k, k ≠ i → k ≠ j → key l' k = key l k.
Proof. intros H k ? ?. by apply key_eq, H. Qed.

(** ** Sifting *)

Lemma parent_child j : (0 < j)%nat → child ((j - 1) / 2) j ∧ ((j - 1) / 2 < j)%nat.
Proof.
  intros Hj. pose proof (Nat.div_mod_eq (j - 1) 2). pose proof (Nat.mod_upper_bound (j - 1) 2).
  unfold child. lia.
Qed.

Lemma child_parent p q c : child p c → child q c → p = q.
Proof. unfold child. lia. Qed.

Lemma up_spec fuel : ∀ h j n,
  (j < fuel)%nat → (j < n)%nat → (n ≤ length (tasks h))%nat → indexed h → ordered_up n j (tasks h) →
  ∃ h', up fuel h j = Some h' ∧ sifted n h h' ∧ ordered n (tasks h').
Proof.
  induction fuel as [|fuel IH]; intros h j n Hf Hj Hn Hix [Ho Hb]; [lia|]. cbn [up]. cbv zeta.
  destruct (decide (j = 0)%nat) as [->|Hj0].
  { rewrite decide_True by done. exists h. split_and!; [done|by apply sifted_refl|].
    intros p c Hc Hcn. apply Ho; [done|done|]. unfold child in Hc. lia. }
  destruct (parent_child j) as [Hch Hlt]; [lia|]. set (i := ((j - 1) / 2)%nat) in *.
  rewrite decide_False by lia. rewrite Less_spec by lia. cbn [mbind option_bind].
  case_bool_decide as Hless.
  - destruct (Swap_spec h i j n Hix) as (h' & E & Hix' & Hp & Hi & Hjj & Hk & Hs); [lia..|].
    rewrite E. cbn [mbind option_bind].
    pose proof (key_unmoved _ _ _ _ Hk) as Kk.
    pose proof (key_eq _ _ _ _ Hi) as Ki. pose proof (key_eq _ _ _ _ Hjj) as Kj.
    destruct (IH h' i n) as (h'' & E' & Hs' & Ho'); [lia|lia| |done| |].
    { apply Permutation_length in Hp. lia. }
    { split.
      - intros p c Hc Hcn Hci. destruct (decide (c = j)) as [->|Hcj].
        { rewrite (child_parent p i j Hc Hch), Ki, Kj. lia. }
        rewrite (Kk c) by done. destruct (decide (p = i)) as [->|Hpi].
        { rewrite Ki. pose proof (Ho i c Hc Hcn Hcj). lia. }
        destruct (decide (p = j)) as [->|Hpj]; [rewrite Kj; by apply Hb|].
        rewrite (Kk p) by done. by apply Ho.
      - intros p c Hpi Hic Hcn. assert (p ≠ i ∧ p ≠ j) as [? ?] by (unfold child in *; lia).
        rewrite (Kk p) by done. assert (key (tasks h) p ≤ key (tasks h) i) as Hpp.
        { apply Ho; [done|lia|lia]. }
        destruct (decide (c = j)) as [->|Hcj]; [by rewrite Kj|].
        rewrite (Kk c) by (unfold child in *; lia). pose proof (Ho i c Hic Hcn Hcj). lia. }
    exists h''. split_and!; [done| |done]. eapply sifted_trans; [apply Hs; lia|done].
  - exists h. split_and!; [done|by apply sifted_refl|]. intros p c Hc Hcn.
    destruct (decide (c = j)) as [->|]; [|by apply Ho]. rewrite (child_parent p i j Hc Hch). lia.
Qed.

(** The smaller child that [down] compares with. *)
Lemma min_child h i n :
  (2 * i + 1 < n)%nat → (n ≤ length (tasks h))%nat →
  ∃ l2, (if decide (S (2 * i + 1) < n)%nat then Less h (S (2 * i + 1)) (2 * i + 1) else Some false) = Some l2 ∧
    let j := if l2 : bool then S (2 * i + 1) else (2 * i + 1)%nat in
    child i j ∧ (j < n)%nat ∧ ∀ c, child i c → (c < n)%nat → key (tasks h) j ≤ key (tasks h) c.
Proof.
  assert (∀ c, child i c ↔ c = (2 * i + 1)%nat ∨ c = S (2 * i + 1)) as Hch by (unfold child; lia).
  intros H1 Hn. generalize dependent (2 * i + 1)%nat. intros a Hch H1.
  case_decide as H2; [rewrite Less_spec by lia|].
  - eexists. split; [done|]. case_bool_decide; cbv zeta iota; rewrite Hch; split_and!; try lia;
      intros c; rewrite Hch; intros [->| ->] Hc; lia.
  - eexists. split; [done|]. cbv zeta iota. rewrite Hch. split_and!; [lia|lia|].
    intros c. rewrite Hch. intros [->| ->] Hc; [done|lia].
Qed.

Lemma down_spec fuel : ∀ h i n,
  (n < fuel + i)%nat → (i < n)%nat ∨ (i = n)%nat → (n ≤ length (tasks h))%nat → indexed h →
  ordered_but n i (tasks h) →
  ∃ h' moved, down fuel h i n = Some (h', moved) ∧ sifted n h h' ∧
    ((moved = true ∨ ∀ p, child p i → key (tasks h) p ≤ key (tasks h) i) → ordered n (tasks h')) ∧
    (moved = false → h' = h ∧ ordered_up n i (tasks h)).
Proof.
  induction fuel as [|fuel IH]; intros h i n Hf Hi Hn Hix [Ho Hb]; [lia|]. cbn [down]. cbv zeta.
  assert (∀ b : bool, (∀ c, child i c → (c < n)%nat → key (tasks h) i ≤ key (tasks h) c) →
    ((b = true ∨ ∀ p, child p i → key (tasks h) p ≤ key (tasks h) i) → b = false → ordered n (tasks h)) ∧
    ordered_up n i (tasks h)) as Hstop.
  { intros b Hc. split.
    - intros [->|Hp] Hb'; [done|]. intros p c Hpc Hcn.
      destruct (decide (c = i)) as [->|]; [by apply Hp|].
      destruct (decide (p = i)) as [->|]; [by apply Hc|by apply Ho].
    - split; [|done]. intros p c Hpc Hcn Hci.
      destruct (decide (p = i)) as [->|]; [by apply Hc|by apply Ho]. }
  case_decide as Hleaf.
  { destruct (Hstop false) as [H1 H2]; [intros c Hc; unfold child in Hc; lia|].
    exists h, false. split_and!; [done|by apply sifted_refl|auto|auto]. }
  destruct (min_child h i n) as (l2 & -> & Hch & Hjn & Hmin); [lia|done|].
  cbn [mbind option_bind]. set (j := if l2 then _ else _) in *.
  assert (i < j)%nat as Hij by (unfold child in Hch; lia).
  rewrite Less_spec by lia. cbn [mbind option_bind]. case_bool_decide as Hless.
  - destruct (Swap_spec h i j n Hix) as (h' & E & Hix' & Hp & Hi' & Hjj & Hk & Hs); [lia..|].
    rewrite E. cbn [mbind option_bind].
    pose proof (key_unmoved _ _ _ _ Hk) as Kk.
    pose proof (key_eq _ _ _ _ Hi') as Ki. pose proof (key_eq _ _ _ _ Hjj) as Kj.
    destruct (IH h' j n) as (h'' & moved & E' & Hs' & Ho' & _); [lia|lia| |done| |].
    { apply Permutation_length in Hp. lia. }
    { split.
      - intros p c Hc Hcn Hcj Hpj. destruct (decide (c = i)) as [->|Hci].
        { rewrite Ki, (Kk p) by (unfold child in *; lia). by apply Hb. }
        rewrite (Kk c) by done. destruct (decide (p = i)) as [->|Hpi]; [rewrite Ki; by apply Hmin|].
        rewrite (Kk p) by done. by apply Ho.
      - intros p c Hpj Hjc Hcn. rewrite (child_parent p i j Hpj Hch), Ki.
        rewrite (Kk c) by (unfold child in *; lia). apply Ho; unfold child in *; lia. }
    rewrite E'. cbn [mbind option_bind]. exists h'', true. split_and!; [done| | |done].
    + eapply sifted_trans; [apply Hs; lia|done].
    + intros _. apply Ho'. right. intros p Hpj. rewrite (child_parent p i j Hpj Hch), Ki, Kj. lia.
  - destruct (Hstop false) as [H1 H2].
    { intros c Hc Hcn. pose proof (Hmin c Hc Hcn). lia. }
    exists h, false. split_and!; [done|by apply sifted_refl|auto|auto].
Qed.

(** ** The heap as a schedule *)

Record wf (h : indexedTaskHeap) : Prop := {
  wf_indexed : indexed h;
  wf_ordered : ordered (Len h) (tasks h);
}.

(** The deadline of every scheduled identifier. *)
Definition schedule (h : indexedTaskHeap) : gmap Z Z :=
  omap (λ i, ExpireTime <$> tasks h !! i) (index h).

Lemma schedule_task h id e :
  indexed h → schedule h !! id = Some e ↔ MkTask id e ∈ tasks h.
Proof.
  intros [I1 I2]. unfold schedule. rewrite lookup_omap, list_elem_of_lookup. split.
  - destruct (index h !! id) as [i|] eqn:Hi; [|done]. simpl.
    destruct (I2 id i Hi) as ([id' e'] & Ht & <-). rewrite Ht. simpl. intros [= <-]. eauto.
  - intros [i Hi]. pose proof (I1 i _ Hi) as Hx. simpl in Hx. by rewrite Hx; simpl; rewrite Hi.
Qed.

Lemma schedule_ext h m :
  indexed h → (∀ id e, m !! id = Some e ↔ MkTask id e ∈ tasks h) → schedule h = m.
Proof.
  intros I H. apply map_eq. intros id. apply option_eq. intros e.
  by rewrite (schedule_task h id e I), H.
Qed.

Lemma index_schedule h id : indexed h → index h !! id = None ↔ schedule h !! id = None.
Proof.
  intros [I1 I2]. unfold schedule. rewrite lookup_omap.
  destruct (index h !! id) as [i|] eqn:Hi; [|done]. destruct (I2 id i Hi) as (t & Ht & _).
  simpl. rewrite Ht. done.
Qed.

Lemma same_id h t u : indexed h → t ∈ tasks h → u ∈ tasks h → ID t = ID u → t = u.
Proof.
  intros [I1 _] [i Hi]%list_elem_of_lookup [j Hj]%list_elem_of_lookup E.
  pose proof (I1 i t Hi). pose proof (I1 j u Hj). congruence.
Qed.

Lemma indexed_NoDup h : indexed h → NoDup (tasks h).
Proof.
  intros [I1 _]. apply NoDup_alt. intros i j t Hi Hj. apply I1 in Hi, Hj. congruence.
Qed.

Lemma root_min n l : ordered n l → ∀ k, (k < n)%nat → key l 0 ≤ key l k.
Proof.
  intros Ho k. induction k as [k IH] using lt_wf_ind. intros Hk.
  destruct (decide (k = 0)%nat) as [->|]; [done|]. destruct (parent_child k) as [Hc Hlt]; [lia|].
  pose proof (Ho _ _ Hc Hk). pose proof (IH _ Hlt ltac:(lia)). lia.
Qed.

Lemma Swap_self h i : indexed h → (i < Len h)%nat → Swap h i i = Some h.
Proof.
  intros [I1 _] [a Ha]%lookup_lt_is_Some. unfold Swap. rewrite Ha. simpl.
  rewrite !list_insert_id by (by rewrite ?list_insert_id). rewrite !insert_id; [by destruct h|..]; auto.
  rewrite insert_id; auto.
Qed.

Lemma take_Permutation {A} (l : list A) n t :
  l !! n = Some t → length l = S n → l ≡ₚ t :: take n l.
Proof.
  intros Ht Hl. rewrite <-(take_drop_middle l n t Ht) at 1. rewrite drop_ge by lia.
  by rewrite Permutation_app_comm.
Qed.

Lemma PopTask_spec h n t :
  indexed h → Len h = S n → tasks h !! n = Some t → ordered n (tasks h) →
  ∃ h', PopTask h = Some (h', t) ∧ wf h' ∧ tasks h ≡ₚ t :: tasks h'.
Proof.
  intros Hix Hl Ht Ho. unfold Len in Hl. pose proof (take_Permutation _ _ _ Ht Hl) as Hp.
  unfold PopTask. rewrite last_lookup, Hl. simpl. rewrite Ht. simpl. rewrite Nat.sub_0_r.
  eexists. split; [done|]. split; [|done]. split.
  - destruct Hix as [I1 I2]. split; simpl.
    + intros i u [Hi Hin]%lookup_take_Some. rewrite lookup_delete_ne; [by apply I1|].
      intros E. apply I1 in Hi, Ht. rewrite E in Ht. assert (i = n) by congruence. lia.
    + intros id i [Hne Hi]%lookup_delete_Some. destruct (I2 id i Hi) as (u & Hu & <-).
      exists u. split; [|done]. rewrite lookup_take_lt; [done|].
      apply lookup_lt_Some in Hu as Hlt. assert (i ≠ n) by (intros ->; congruence). lia.
  - unfold Len. simpl. rewrite length_take_le by lia. intros p c Hc Hcn.
    assert (∀ k, (k < n)%nat → key (take n (tasks h)) k = key (tasks h) k) as Kt.
    { intros k Hk. apply key_eq. by apply lookup_take_lt. }
    rewrite !Kt by (unfold child in *; lia). by apply Ho.
Qed.

(** ** Operations *)

Lemma new_wf : wf newIndexedTaskHeap.
Proof. split; [split; simpl; intros ? ?; by rewrite ?lookup_nil, ?lookup_empty|]. intros p c _ H. cbn in H. lia. Qed.

Lemma Push_spec h t :
  wf h → index h !! ID t = None → ∃ h', Push h t = Some h' ∧ wf h' ∧ tasks h' ≡ₚ t :: tasks h.
Proof.
  intros [[I1 I2] Ho] Hn. unfold Push. set (h1 := PushTask h t).
  assert (Len h1 = S (Len h)) as Hl by (unfold Len; simpl; rewrite length_app; simpl; lia).
  assert (∀ k, (k < Len h)%nat → key (tasks h1) k = key (tasks h) k) as Kl.
  { intros k Hk. apply key_eq. by apply lookup_app_l. }
  assert (indexed h1) as Hix.
  { split; simpl.
    - intros i u [[_ Hi%I1]|[-> <-]]%lookup_snoc_Some; [|by rewrite lookup_insert_eq].
      rewrite lookup_insert_ne; [done|]. congruence.
    - intros id i Hi. destruct (decide (id = ID t)) as [->|].
      + rewrite lookup_insert_eq in Hi. injection Hi as <-. exists t. split; [|done].
        apply lookup_snoc_Some. auto.
      + rewrite lookup_insert_ne in Hi by done. destruct (I2 id i Hi) as (u & Hu & ?).
        exists u. split; [|done]. apply lookup_app_l_Some. done. }
  rewrite Hl. destruct (up_spec (S (Len h)) h1 (S (Len h) - 1) (S (Len h))) as (h' & E & [S1 S2 _] & Ho').
  - lia.
  - lia.
  - by rewrite <-Hl.
  - done.
  - split; [|intros p c _ Hc; unfold child in Hc; lia].
    intros p c Hc Hcn Hne. rewrite !Kl by (unfold child in *; lia). apply Ho; [done|lia].
  - exists h'. split_and!; [done| |rewrite S2; simpl; by rewrite Permutation_app_comm].
    split; [done|]. unfold Len. rewrite (Permutation_length S2). change (length (tasks h1)) with (Len h1).
    by rewrite Hl.
Qed.

Lemma Pop_spec h :
  wf h → (0 < Len h)%nat →
  ∃ h' t, Pop h = Some (h', t) ∧ wf h' ∧ tasks h ≡ₚ t :: tasks h' ∧ tasks h !! 0%nat = Some t ∧
          ∀ u, u ∈ tasks h → ExpireTime t ≤ ExpireTime u.
Proof.
  intros [Hix Ho] Hlen. unfold Pop. destruct (Len h) as [|n] eqn:Hl; [lia|].
  replace (S n - 1)%nat with n by lia.
  destruct (tasks h !! 0%nat) as [t|] eqn:Ht.
  2: { apply lookup_ge_None in Ht. unfold Len in Hl. lia. }
  assert (∀ u, u ∈ tasks h → ExpireTime t ≤ ExpireTime u) as Hmin.
  { intros u [k Hk]%list_elem_of_lookup. pose proof (root_min _ _ Ho k) as H.
    apply lookup_lt_Some in Hk as Hlt. unfold Len in Hl. rewrite <-Hl in H. specialize (H Hlt).
    unfold key in H. by rewrite Ht, Hk in H. }
  assert (∃ h1, Swap h 0 n = Some h1 ∧ indexed h1 ∧ tasks h1 ≡ₚ tasks h ∧ tasks h1 !! n = Some t ∧
            ordered_but n 0 (tasks h1)) as (h1 & -> & Hix1 & Hp1 & Hn1 & Ho1).
  { destruct (decide (n = 0)%nat) as [->|Hn0].
    - exists h. rewrite Swap_self by (done || lia). split_and!; try done. split; intros p c ? ?; lia.
    - destruct (Swap_spec h 0 n n Hix) as (h1 & E & ? & ? & H0 & Hn & Hk & _); [unfold Len in Hl; lia..|].
      exists h1. split_and!; try done; [congruence|].
      split; [|intros p c Hc; unfold child in Hc; lia]. intros p c Hc Hcn Hc0 Hp0.
      rewrite !(key_unmoved _ _ _ _ Hk) by (unfold child in Hc; lia). apply Ho; [done|lia]. }
  cbn [mbind option_bind]. pose proof (Permutation_length Hp1) as Hlen1. unfold Len in Hl.
  destruct (down_spec (S n) h1 0 n) as (h2 & moved & -> & [Hix2 Hp2 Ht2] & Ho2 & _); [lia|lia|lia|done|done|].
  cbn [mbind option_bind].
  destruct (PopTask_spec h2 n t) as (h' & -> & W & Hp); [done| | | |].
  - unfold Len. rewrite (Permutation_length Hp2). lia.
  - rewrite Ht2 by done. done.
  - apply Ho2. right. intros p Hc. unfold child in Hc. lia.
  - exists h', t. split_and!; try done. by rewrite <-Hp1, <-Hp2.
Qed.

Lemma sift_spec h i n :
  (i < n)%nat → (n ≤ Len h)%nat → indexed h → ordered_but n i (tasks h) →
  ∃ h' moved h'', down (S n) h i n = Some (h', moved) ∧
    (if moved : bool then Some h' else up (S i) h' i) = Some h'' ∧
    sifted n h h'' ∧ ordered n (tasks h'').
Proof.
  intros Hi Hn Hix Ho. unfold Len in Hn.
  destruct (down_spec (S n) h i n) as (h' & moved & E & Hs & Hm & Hnm); [lia|by left|done|done|done|].
  exists h', moved. destruct moved.
  - exists h'. split_and!; [done|done|done|auto].
  - destruct (Hnm eq_refl) as [-> Hu].
    destruct (up_spec (S i) h i n) as (h'' & E' & Hs' & Ho'); [lia|done|done|done|done|].
    by exists h''.
Qed.

Lemma Remove_spec h i t :
  wf h → tasks h !! i = Some t →
  ∃ h', Remove h i = Some (h', t) ∧ wf h' ∧ tasks h ≡ₚ t :: tasks h'.
Proof.
  intros [Hix Ho] Ht. apply lookup_lt_Some in Ht as Hi. unfold Remove.
  destruct (Len h) as [|n] eqn:Hl; [unfold Len in Hl; lia|]. replace (S n - 1)%nat with n by lia.
  unfold Len in Hl. case_decide as Hn; cbn [mbind option_bind].
  { subst i. apply (PopTask_spec h n t); [done|done|done|]. intros p c Hc Hcn. apply Ho; [done|lia]. }
  destruct (Swap_spec h i n n Hix) as (h1 & E & Hix1 & Hp1 & Hi1 & Hn1 & Hk & _); [lia..|].
  rewrite E. cbn [mbind option_bind]. pose proof (Permutation_length Hp1) as Hl1.
  destruct (sift_spec h1 i n) as (h2 & moved & h3 & -> & E3 & [Hix3 Hp3 Ht3] & Ho3);
    [lia|unfold Len; lia|done| |].
  { split.
    - intros p c Hc Hcn Hci Hpi. rewrite !(key_unmoved _ _ _ _ Hk) by (unfold child in Hc; lia).
      apply Ho; [done|lia].
    - intros p c Hpi Hic Hcn. rewrite !(key_unmoved _ _ _ _ Hk) by (unfold child in *; lia).
      pose proof (Ho _ _ Hpi ltac:(lia)). pose proof (Ho _ _ Hic ltac:(lia)). lia. }
  cbn [mbind option_bind]. rewrite E3. cbn [mbind option_bind].
  destruct (PopTask_spec h3 n t) as (h' & -> & W & Hp); [done| | |done|].
  - unfold Len. rewrite (Permutation_length Hp3). lia.
  - rewrite Ht3 by done. congruence.
  - exists h'. split_and!; [done|done|]. by rewrite <-Hp1, <-Hp3.
Qed.

Lemma Fix_spec h i t e :
  wf h → tasks h !! i = Some t →
  ∃ h1 h', setExpire h i e = Some h1 ∧ Fix h1 i = Some h' ∧ wf h' ∧
           tasks h' ≡ₚ <[i := MkTask (ID t) e]> (tasks h).
Proof.
  intros [Hix Ho] Ht. apply lookup_lt_Some in Ht as Hi. unfold setExpire. rewrite Ht. simpl.
  set (h1 := HeapOf (<[i := MkTask (ID t) e]> (tasks h)) (index h)). exists h1.
  assert (Len h1 = Len h) as Hl by (unfold Len; simpl; by rewrite length_insert).
  assert (indexed h1) as Hix1.
  { destruct Hix as [I1 I2]. split; simpl.
    - intros k u Hu. destruct (decide (k = i)) as [->|Hne].
      + rewrite list_lookup_insert_eq in Hu by done. injection Hu as <-. exact (I1 i t Ht).
      + rewrite list_lookup_insert_ne in Hu by done. by apply I1.
    - intros id k Hk. destruct (I2 id k Hk) as (u & Hu & <-). destruct (decide (k = i)) as [->|Hne].
      + rewrite list_lookup_insert_eq by done. eexists. split; [done|]. simpl. congruence.
      + rewrite list_lookup_insert_ne by done. eauto. }
  assert (∀ k, k ≠ i → key (tasks h1) k = key (tasks h) k) as Kk.
  { intros k Hk. apply key_eq. simpl. by apply list_lookup_insert_ne. }
  destruct (sift_spec h1 i (Len h1)) as (h2 & moved & h3 & E2 & E3 & [Hix3 Hp3 _] & Ho3).
  - rewrite Hl. unfold Len. lia.
  - done.
  - done.
  - rewrite Hl. split.
    + intros p c Hc Hcn Hci Hpi. rewrite !Kk by done. by apply Ho.
    + intros p c Hpi Hic Hcn. rewrite !Kk by (unfold child in *; lia).
      pose proof (Ho _ _ Hpi ltac:(unfold child in *; lia)). pose proof (Ho _ _ Hic ltac:(lia)). lia.
  - exists h3. split; [done|]. unfold Fix. rewrite E2. cbn [mbind option_bind]. rewrite E3.
    split; [done|]. split; [|done]. split; [done|]. unfold Len. by rewrite (Permutation_length Hp3).
Qed.

End Heap.
