(* ===== verification/Timer.v ===== *)
(** * The timer contract (src/timer/interface.go)

    What a scheduler promises to its clients: a schedule from identifiers to
    deadlines that Add, Remove and Reschedule edit and a tick empties of what is
    due.  [t_suppressed now id] tells which due identifiers deduplication drops. *)

From stdpp Require Import sorting.
From S2P Require Import Prelude.

Module Timer.

Class Timer (Q : Type) := {
  t_wf : Q → Prop;
  t_schedule : Q → gmap Z Z;
  t_suppressed : Q → Z → Z → bool;
  t_Add : Q → Z → Z → option Q;
  t_Remove : Q → Z → option Q;
  t_Reschedule : Q → Z → Z → option Q;
  t_tick : Q → Z → option (Q * list Z);
}.

(** The operations are total on well-formed schedulers and do what they say. *)
Class TimerLaws (Q : Type) `{Timer Q} : Prop := {
  law_add q id e : t_wf q →
    ∃ q', t_Add q id e = Some q' ∧ t_wf q' ∧ t_schedule q' = <[id := e]> (t_schedule q);
  law_remove q id : t_wf q →
    ∃ q', t_Remove q id = Some q' ∧ t_wf q' ∧ t_schedule q' = delete id (t_schedule q);
  law_reschedule q id e : t_wf q →
    ∃ q', t_Reschedule q id e = Some q' ∧ t_wf q' ∧ t_schedule q' = <[id := e]> (t_schedule q) ∧
          ∀ now, t_suppressed q' now id = false;
  law_tick q now : t_wf q →
    ∃ q' fired, t_tick q now = Some (q', fired) ∧ t_wf q' ∧
      t_schedule q' = filter (λ p, now < p.2) (t_schedule q) ∧
      NoDup fired ∧
      (∀ id, id ∈ fired ↔ (∃ e, t_schedule q !! id = Some e ∧ e ≤ now) ∧ t_suppressed q now id = false) ∧
      StronglySorted Z.le (omap (λ id, t_schedule q !! id) fired);
}.

(** ** Sequences of operations *)

Inductive op := OAdd (id e : Z) | ORemove (id : Z) | OReschedule (id e : Z) | OTick (now : Z).

(** What one operation does to a scheduler, with the list it fires if it is a tick. *)
Definition exec1 `{Timer Q} (q : Q) (o : op) : option (Q * list (list Z)) :=
  match o with
  | OAdd id e => q' ← t_Add q id e; Some (q', [])
  | ORemove id => q' ← t_Remove q id; Some (q', [])
  | OReschedule id e => q' ← t_Reschedule q id e; Some (q', [])
  | OTick now => '(q', f) ← t_tick q now; Some (q', [f])
  end.

Fixpoint exec `{Timer Q} (q : Q) (l : list op) : option (Q * list (list Z)) :=
  match l with
  | [] => Some (q, [])
  | o :: l => '(q1, f1) ← exec1 q o; '(q2, f2) ← exec q1 l; Some (q2, f1 ++ f2)
  end.

(** Schedulers whose deduplication is off, in a way their operations preserve. *)
Class NoDedup (Q : Type) `{Timer Q} := {
  off : Q → Prop;
  off_suppressed q now id : off q → t_suppressed q now id = false;
  off_exec1 q o q' f : t_wf q → off q → exec1 q o = Some (q', f) → off q';
}.

(** The same on the abstract schedule, with the entries due at each tick. *)
Definition spec1 (m : gmap Z Z) (o : op) : gmap Z Z * list (gmap Z Z) :=
  match o with
  | OAdd id e | OReschedule id e => (<[id := e]> m, [])
  | ORemove id => (delete id m, [])
  | OTick now => (filter (λ p, now < p.2) m, [filter (λ p, p.2 ≤ now) m])
  end.

Fixpoint spec (m : gmap Z Z) (l : list op) : gmap Z Z * list (gmap Z Z) :=
  match l with
  | [] => (m, [])
  | o :: l => let '(m1, d1) := spec1 m o in let '(m2, d2) := spec m1 l in (m2, d1 ++ d2)
  end.

(** [fs] fires the entries of [d], each once, by increasing deadline. *)
Definition fires (fs : list Z) (d : gmap Z Z) : Prop :=
  NoDup fs ∧ list_to_set fs = dom d ∧ StronglySorted Z.le (omap (λ id, d !! id) fs).

(** Such a scheduler runs like the abstract schedule. *)
Lemma exec_spec `{TimerLaws Q, !NoDedup Q} :
  ∀ l (q : Q), t_wf q → off q →
    ∃ q' f, exec q l = Some (q', f) ∧ t_wf q' ∧ t_schedule q' = (spec (t_schedule q) l).1 ∧
            Forall2 fires f (spec (t_schedule q) l).2.
Proof.
  induction l as [|o l IH]; intros q W O; cbn [exec spec].
  { eexists _, _. eauto using Forall2_nil. }
  assert (∃ q1 f1, exec1 q o = Some (q1, f1) ∧ t_wf q1 ∧ t_schedule q1 = (spec1 (t_schedule q) o).1 ∧
            Forall2 fires f1 (spec1 (t_schedule q) o).2) as (q1 & f1 & E1 & W1 & S1 & F1).
  { destruct o as [id e|id|id e|now]; simpl.
    - destruct (law_add q id e W) as (q1 & -> & ? & ?). simpl. eauto 10.
    - destruct (law_remove q id W) as (q1 & -> & ? & ?). simpl. eauto 10.
    - destruct (law_reschedule q id e W) as (q1 & -> & ? & ? & _). simpl. eauto 10.
    - destruct (law_tick q now W) as (q1 & f & -> & ? & ? & ND & Hin & Hs). simpl.
      eexists _, _. split_and!; [done..|]. constructor; [|constructor].
      assert (∀ id, id ∈ f ↔ is_Some (filter (λ p : Z * Z, p.2 ≤ now) (t_schedule q) !! id)) as Hf.
      { intros id. rewrite Hin. split.
        - intros [(e & He & Hle) _]. exists e. by apply map_lookup_filter_Some.
        - intros [e [He Hle]%map_lookup_filter_Some]. eauto using off_suppressed. }
      split_and!; [done| |].
      + apply set_eq. intros id. by rewrite elem_of_list_to_set, elem_of_dom, Hf.
      + rewrite (omap_ext_elem _ (λ id, t_schedule q !! id)); [exact Hs|]. intros id Hid.
        apply Hf in Hid as [e He]. rewrite He. by apply map_lookup_filter_Some in He as [-> _]. }
  rewrite E1. cbn [mbind option_bind]. destruct (IH q1 W1) as (q2 & f2 & -> & W2 & S2 & F2); [exact (off_exec1 q o q1 f1 W O E1)|].
  eexists _, _. split; [done|]. rewrite S1 in S2, F2.
  destruct (spec1 _ o) as [m1 d1]. simpl in *. destruct (spec m1 l) as [m2 d2]. simpl in *.
  auto using Forall2_app.
Qed.

End Timer.
