(* ===== verification/DelayQueue.v ===== *)
(** * The delay queue (src/timer/delay_queue.go)

    The state under [dq.mu].  [checkExpired] returns the identifiers whose
    callback it starts, in that order; [None] is an operation of [Heap] that
    failed, which the laws of [Timer] exclude. *)

From stdpp Require Import sorting.
From S2P Require Import Prelude Heap Timer.
Import Heap Timer.

Module DelayQueue.

Record DelayQueue := DQ {
  h : indexedTaskHeap;
  dedupWindow : Z;
  lastFired : option (gmap Z Z);
}.

Definition NewDelayQueue : DelayQueue := DQ newIndexedTaskHeap 0 (Some ∅).

Definition SetDedupWindow (dq : DelayQueue) (d : Z) : DelayQueue :=
  DQ (h dq) d (if decide (d ≤ 0) then None else Some ∅).

Definition set_heap (dq : DelayQueue) (h' : indexedTaskHeap) : DelayQueue :=
  DQ h' (dedupWindow dq) (lastFired dq).

Definition clearLastFiredLocked (dq : DelayQueue) (id : Z) : DelayQueue :=
  match lastFired dq with
  | None => dq
  | Some m => DQ (h dq) (dedupWindow dq) (Some (delete id m))
  end.

(** Insert or update, the body [Add] and [Reschedule] share. *)
Definition put (dq : DelayQueue) (id e : Z) : option DelayQueue :=
  match index (h dq) !! id with
  | Some idx =>
      h1 ← setExpire (h dq) idx e; h2 ← Fix h1 idx; Some (set_heap dq h2)
  | None => h1 ← Push (h dq) (MkTask id e); Some (set_heap dq h1)
  end.

Definition Add (dq : DelayQueue) (id e : Z) : option DelayQueue := put dq id e.

Definition Remove (dq : DelayQueue) (id : Z) : option DelayQueue :=
  let dq := clearLastFiredLocked dq id in
  match index (h dq) !! id with
  | None => Some dq
  | Some idx => '(h1, _) ← Heap.Remove (h dq) idx; Some (set_heap dq h1)
  end.

Definition Reschedule (dq : DelayQueue) (id e : Z) : option DelayQueue :=
  put (clearLastFiredLocked dq id) id e.

Definition isDedupedLocked (dq : DelayQueue) (id now : Z) : DelayQueue * bool :=
  if decide (dedupWindow dq ≤ 0) then (dq, false)
  else
    let m := match lastFired dq with None => ∅ | Some m => m end in
    let deduped := match m !! id with
                   | Some t => bool_decide (time_sub now t < dedupWindow dq)
                   | None => false
                   end in
    if deduped then (DQ (h dq) (dedupWindow dq) (Some m), true)
    else (DQ (h dq) (dedupWindow dq) (Some (<[id := now]> m)), false).

Definition cleanLastFiredLocked (dq : DelayQueue) (now : Z) : DelayQueue :=
  match lastFired dq with
  | Some m =>
      if decide (dedupWindow dq ≤ 0) then dq
      else DQ (h dq) (dedupWindow dq)
             (Some (filter (λ p, ¬ (time_sub now p.2 >= dedupWindow dq)) m))
  | None => dq
  end.

(** The loop of [checkExpired]; one iteration per task suffices. *)
Fixpoint expire (fuel : nat) (dq : DelayQueue) (now : Z) : option (DelayQueue * list Z) :=
  match fuel with
  | O => None
  | S fuel =>
      match tasks (h dq) !! 0%nat with
      | None => Some (dq, [])
      | Some task =>
          if decide (ExpireTime task > now) then Some (dq, [])
          else
            '(h1, _) ← Pop (h dq);
            let '(dq1, deduped) := isDedupedLocked (set_heap dq h1) (ID task) now in
            '(dq2, fired) ← expire fuel dq1 now;
            Some (dq2, if deduped then fired else ID task :: fired)
      end
  end.

Definition checkExpired (dq : DelayQueue) (now : Z) : option (DelayQueue * list Z) :=
  '(dq1, fired) ← expire (S (Len (h dq))) dq now;
  Some (cleanLastFiredLocked dq1 now, fired).

(** The run loop: one [checkExpired] per tick until stopped. *)
Fixpoint run (dq : DelayQueue) (ticks : list Z) : option (DelayQueue * list Z) :=
  match ticks with
  | [] => Some (dq, [])
  | now :: rest =>
      '(dq1, f1) ← checkExpired dq now;
      '(dq2, f2) ← run dq1 rest;
      Some (dq2, f1 ++ f2)
  end.

(** ** The schedule *)

Definition schedule (dq : DelayQueue) : gmap Z Z := Heap.schedule (h dq).
Definition wf (dq : DelayQueue) : Prop := Heap.wf (h dq).

(** Dropped by deduplication. *)
Definition suppressed (dq : DelayQueue) (now id : Z) : bool :=
  bool_decide (0 < dedupWindow dq) &&
  match lastFired dq ≫= (.!! id) with
  | Some t => bool_decide (time_sub now t < dedupWindow dq)
  | None => false
  end.

Lemma clear_keeps dq id :
  h (clearLastFiredLocked dq id) = h dq ∧ dedupWindow (clearLastFiredLocked dq id) = dedupWindow dq ∧
  ∀ now, suppressed (clearLastFiredLocked dq id) now id = false.
Proof.
  unfold clearLastFiredLocked, suppressed. destruct (lastFired dq) as [m|] eqn:E; simpl; rewrite ?E; simpl.
  - rewrite lookup_delete_eq. split_and!; try done. intros. apply andb_false_r.
  - split_and!; try done. intros. apply andb_false_r.
Qed.

Lemma put_spec dq id e :
  wf dq → ∃ dq', put dq id e = Some dq' ∧ wf dq' ∧ schedule dq' = <[id := e]> (schedule dq) ∧
                 dedupWindow dq' = dedupWindow dq ∧ lastFired dq' = lastFired dq.
Proof.
  unfold wf, schedule. intros W. destruct (Heap.wf_indexed _ W) as [I1 I2] eqn:HI. clear HI.
  unfold put. destruct (index (h dq) !! id) as [i|] eqn:Hi.
  - destruct (I2 id i Hi) as (t & Ht & <-).
    destruct (Fix_spec (h dq) i t e W Ht) as (h1 & h' & -> & E & W' & Hp). cbn [mbind option_bind].
    rewrite E. eexists. split; [done|]. split_and!; try done. simpl.
    apply schedule_ext; [apply W'|]. intros id' e'. rewrite Hp, list_elem_of_lookup.
    rewrite lookup_insert_Some, schedule_task, list_elem_of_lookup by apply W. split.
    + intros [[<- <-]|[Hne [k Hk]]].
      * exists i. rewrite list_lookup_insert_eq; [done|]. by eapply lookup_lt_Some.
      * exists k. rewrite list_lookup_insert_ne; [done|]. intros ->. rewrite Ht in Hk. by simplify_eq.
    + intros [k Hk]. destruct (decide (k = i)) as [->|Hne].
      * rewrite list_lookup_insert_eq in Hk by (by eapply lookup_lt_Some). injection Hk as <- <-. auto.
      * rewrite list_lookup_insert_ne in Hk by done. right. split; [|eauto].
        intros E'. apply I1 in Hk as Hk'. simpl in Hk'. congruence.
  - destruct (Push_spec (h dq) (MkTask id e) W Hi) as (h' & -> & W' & Hp). cbn [mbind option_bind].
    eexists. split; [done|]. split_and!; try done. simpl. apply schedule_ext; [apply W'|].
    intros id' e'. rewrite Hp, elem_of_cons, lookup_insert_Some, schedule_task by apply W. split.
    + intros [[<- <-]|[? ?]]; auto.
    + intros [[= -> ->]|Hin]; [auto|]. right. split; [|done]. intros <-.
      apply list_elem_of_lookup in Hin as [k Hk]. apply I1 in Hk. simpl in Hk. congruence.
Qed.

Lemma Remove_schedule dq id :
  wf dq → ∃ dq', Remove dq id = Some dq' ∧ wf dq' ∧ schedule dq' = delete id (schedule dq).
Proof.
  unfold wf, schedule. intros W. unfold Remove.
  destruct (clear_keeps dq id) as (Eh & _ & _). rewrite Eh.
  destruct (Heap.wf_indexed _ W) as [I1 I2].
  destruct (index (h dq) !! id) as [i|] eqn:Hi.
  - destruct (I2 id i Hi) as (t & Ht & <-).
    destruct (Heap.Remove_spec (h dq) i t W Ht) as (h' & -> & W' & Hp). cbn [mbind option_bind].
    eexists. split; [done|]. simpl. split; [done|]. apply schedule_ext; [apply W'|].
    intros id' e'. rewrite lookup_delete_Some, schedule_task, Hp, elem_of_cons by apply W.
    assert (t ∉ tasks h') as Hnt.
    { intros Hin. assert (NoDup (tasks (h dq))) as Hnd by (by apply indexed_NoDup).
      rewrite Hp in Hnd. by apply NoDup_cons in Hnd as [? _]. }
    split; [naive_solver|]. intros Hin. split; [|auto]. intros E.
    assert (MkTask id' e' = t) as <-; [|done].
    apply (same_id (h dq)); [apply W| | |done]; rewrite Hp; set_solver.
  - eexists. split; [done|]. rewrite Eh. split; [done|].
    rewrite delete_id; [done|]. by apply index_schedule.
Qed.

(** The popped task leaves the schedule. *)
Lemma pop_schedule hp h' t :
  Heap.wf hp → Heap.wf h' → tasks hp ≡ₚ t :: tasks h' →
  Heap.schedule hp = <[ID t := ExpireTime t]> (Heap.schedule h') ∧ Heap.schedule h' !! ID t = None.
Proof.
  intros W W' Hp. assert (NoDup (tasks hp)) as Hnd by (by apply indexed_NoDup, W).
  rewrite Hp in Hnd. apply NoDup_cons in Hnd as [Hnt _].
  assert (Heap.schedule h' !! ID t = None) as Hn.
  { apply eq_None_not_Some. intros [e He]. apply schedule_task in He; [|apply W'].
    assert (MkTask (ID t) e = t) as E; [|congruence].
    apply (same_id hp); [apply W| | |done]; rewrite Hp; set_solver. }
  split; [|done]. apply schedule_ext; [apply W|]. intros id e.
  rewrite Hp, elem_of_cons, lookup_insert_Some, schedule_task by apply W'. split.
  - intros [[<- <-]|[_ ?]]; [left; by destruct t|auto].
  - intros [<-|Hin]; [auto|]. right. split; [|done]. intros E.
    apply schedule_task in Hin; [|apply W']. simpl in *. congruence.
Qed.

Lemma dedup_keeps dq id now :
  h (isDedupedLocked dq id now).1 = h dq ∧ dedupWindow (isDedupedLocked dq id now).1 = dedupWindow dq ∧
  (isDedupedLocked dq id now).2 = suppressed dq now id ∧
  ∀ id', id' ≠ id → suppressed (isDedupedLocked dq id now).1 now id' = suppressed dq now id'.
Proof.
  unfold isDedupedLocked, suppressed. case_decide as Hd; simpl.
  { rewrite bool_decide_eq_false_2 by lia. done. }
  rewrite (bool_decide_eq_true_2 (0 < _)) by lia. simpl.
  destruct (lastFired dq) as [m|]; simpl.
  - destruct (m !! id) as [t|] eqn:Em; [case_bool_decide|]; simpl;
      rewrite ?bool_decide_eq_true_2 by lia; split_and!; try done; intros id' Hne;
      by rewrite lookup_insert_ne by done.
  - rewrite lookup_empty. simpl. rewrite bool_decide_eq_true_2 by lia.
    split_and!; try done. intros id' Hne. by rewrite lookup_insert_ne, lookup_empty by done.
Qed.

(** What one pass over the due tasks does. *)
Record passed (dq : DelayQueue) (now : Z) (dq' : DelayQueue) (fired : list Z) : Prop := {
  pa_wf : wf dq';
  pa_schedule : schedule dq' = filter (λ p, now < p.2) (schedule dq);
  pa_nodup : NoDup fired;
  pa_fired : ∀ id, id ∈ fired ↔
    (∃ e, schedule dq !! id = Some e ∧ e ≤ now) ∧ suppressed dq now id = false;
  pa_sorted : StronglySorted Z.le (omap (schedule dq !!.) fired);
}.

(** No task is due. *)
Lemma passed_none dq now :
  wf dq → (∀ id e, schedule dq !! id = Some e → now < e) → passed dq now dq [].
Proof.
  intros W Hlate. split; [done| |constructor| |constructor].
  - symmetry. apply map_filter_id. intros id e H. simpl. eauto.
  - intros id. split; [set_solver|]. intros [(e & He & Hle) _]. apply Hlate in He. lia.
Qed.

(** The earliest task is due. *)
Lemma passed_cons dq now h1 t dq1 deduped dq' fired :
  wf dq → Heap.wf h1 → tasks (h dq) ≡ₚ t :: tasks h1 → ExpireTime t ≤ now →
  (∀ u, u ∈ tasks (h dq) → ExpireTime t ≤ ExpireTime u) →
  isDedupedLocked (set_heap dq h1) (ID t) now = (dq1, deduped) →
  passed dq1 now dq' fired →
  passed dq now dq' (if deduped : bool then fired else ID t :: fired).
Proof.
  intros W W1 Hp Hle Hmin Ed [P1 P2 P3 P4 P5].
  destruct (pop_schedule _ _ _ W W1 Hp) as [Hs Hn].
  pose proof (dedup_keeps (set_heap dq h1) (ID t) now) as (K1 & _ & K2 & K3).
  rewrite Ed in K1, K2, K3. simpl in K1, K2, K3.
  change (suppressed (set_heap dq h1)) with (suppressed dq) in *.
  assert (schedule dq1 = Heap.schedule h1) as Hs1 by (unfold schedule; by rewrite K1).
  assert (schedule dq = <[ID t := ExpireTime t]> (schedule dq1)) as Hs2 by (by rewrite Hs1).
  rewrite <-Hs1 in Hn.
  assert (ID t ∉ fired) as Hnf by (rewrite P4; intros [(e & He & _) _]; congruence).
  assert (∀ id, id ∈ fired → schedule dq !! id = schedule dq1 !! id) as Hsame.
  { intros id Hid. rewrite Hs2, lookup_insert_ne; [done|]. by intros <-. }
  assert (∀ id, id ∈ (if deduped then fired else ID t :: fired) ↔
    (∃ e, schedule dq !! id = Some e ∧ e ≤ now) ∧ suppressed dq now id = false) as HF.
  { intros id. destruct (decide (id = ID t)) as [->|Hne].
    - rewrite Hs2, lookup_insert_eq, <-K2. destruct deduped; [naive_solver|].
      split; [intros _; split; eauto|set_solver].
    - rewrite Hs2, lookup_insert_ne, <-K3 by done. rewrite <-P4. destruct deduped; [done|set_solver]. }
  split; [done| | |done|].
  - rewrite P2, Hs2, map_filter_insert_False by (simpl; lia). by rewrite delete_id.
  - destruct deduped; [done|]. by constructor.
  - assert (StronglySorted Z.le (omap (schedule dq !!.) fired)) as Hsf
      by (by rewrite (omap_ext_elem _ (schedule dq1 !!.)) by done).
    destruct deduped; [done|]. simpl. rewrite Hs2 at 1. rewrite lookup_insert_eq.
    apply StronglySorted_cons. split; [|done]. apply Forall_forall. intros e.
    rewrite list_elem_of_omap. intros (id & _ & He).
    apply schedule_task in He; [|apply W]. by apply (Hmin _ He).
Qed.

Lemma expire_spec now fuel : ∀ dq,
  wf dq → (Len (h dq) < fuel)%nat →
  ∃ dq' fired, expire fuel dq now = Some (dq', fired) ∧ passed dq now dq' fired.
Proof.
  induction fuel as [|fuel IH]; intros dq W Hf; [lia|]. cbn [expire].
  destruct (tasks (h dq) !! 0%nat) as [t|] eqn:Ht.
  2: { apply lookup_ge_None in Ht. exists dq, []. split; [done|]. apply passed_none; [done|].
       intros id e He. apply schedule_task in He; [|apply W].
       destruct (tasks (h dq)); [set_solver|simpl in Ht; lia]. }
  destruct (Pop_spec (h dq) W) as (h1 & t' & E & W1 & Hp & Ht' & Hmin).
  { apply lookup_lt_Some in Ht. done. }
  assert (t' = t) as -> by congruence. case_decide as Hlate.
  { exists dq, []. split; [done|]. apply passed_none; [done|]. intros id e He.
    apply schedule_task in He; [|apply W]. apply Hmin in He. simpl in He. lia. }
  rewrite E. cbn [mbind option_bind].
  destruct (isDedupedLocked (set_heap dq h1) (ID t) now) as [dq1 deduped] eqn:Ed.
  pose proof (dedup_keeps (set_heap dq h1) (ID t) now) as (K1 & _). rewrite Ed in K1. simpl in K1.
  destruct (IH dq1) as (dq' & fired & E' & P).
  - unfold wf. by rewrite K1.
  - rewrite K1. unfold Len in *. rewrite Hp in Hf. simpl in Hf. lia.
  - rewrite E'. do 2 eexists. split; [done|]. eapply passed_cons; (done || lia).
Qed.

Lemma clean_keeps dq now : h (cleanLastFiredLocked dq now) = h dq.
Proof. unfold cleanLastFiredLocked. destruct (lastFired dq); [|done]. by case_decide. Qed.

Lemma checkExpired_spec dq now :
  wf dq → ∃ dq' fired, checkExpired dq now = Some (dq', fired) ∧ passed dq now dq' fired.
Proof.
  intros W. unfold checkExpired.
  destruct (expire_spec now (S (Len (h dq))) dq W) as (dq1 & fired & -> & [P1 P2 P3 P4 P5]); [lia|].
  do 2 eexists. split; [done|].
  split; [unfold wf; by rewrite clean_keeps|unfold schedule; by rewrite clean_keeps|done..].
Qed.

(** The time stamps a pass leaves: [now] for what fired, the rest unchanged. *)
Definition stamp (dq : DelayQueue) (id : Z) : option Z := lastFired dq ≫= (.!! id).

Lemma dedup_stamp dq id now id' :
  0 < dedupWindow dq →
  stamp (isDedupedLocked dq id now).1 id' =
    if decide (id' = id ∧ (isDedupedLocked dq id now).2 = false) then Some now else stamp dq id'.
Proof.
  intros Hw. unfold isDedupedLocked, stamp. rewrite decide_False by lia.
  assert (∀ m : gmap Z Z, <[id := now]> m !! id' = if decide (id' = id ∧ false = false) then Some now else m !! id') as Hins.
  { intros m. case_decide as H; [destruct H as [-> _]; by rewrite lookup_insert_eq|].
    rewrite lookup_insert_ne; [done|]. intros ->. tauto. }
  destruct (lastFired dq) as [m|]; simpl.
  - destruct (m !! id) as [t|] eqn:Em; [case_bool_decide|]; simpl; rewrite ?Hins; try done.
    rewrite decide_False; [done|]. naive_solver.
  - rewrite lookup_empty. simpl. rewrite Hins. case_decide; [done|]. by rewrite lookup_empty.
Qed.

Lemma expire_stamp now fuel : ∀ dq dq' fired,
  wf dq → 0 < dedupWindow dq → expire fuel dq now = Some (dq', fired) →
  dedupWindow dq' = dedupWindow dq ∧
  ∀ id, stamp dq' id = if decide (id ∈ fired) then Some now else stamp dq id.
Proof.
  induction fuel as [|fuel IH]; intros dq dq' fired W Hw; [done|]. cbn [expire].
  destruct (tasks (h dq) !! 0%nat) as [t|] eqn:Ht.
  2: { intros [= <- <-]. split; [done|]. intros id. by rewrite decide_False by set_solver. }
  case_decide. { intros [= <- <-]. split; [done|]. intros id. by rewrite decide_False by set_solver. }
  destruct (Pop_spec (h dq) W) as (h1 & t' & -> & W1 & Hp & Ht' & Hmin).
  { apply lookup_lt_Some in Ht. done. }
  assert (t' = t) as -> by congruence. cbn [mbind option_bind].
  destruct (isDedupedLocked (set_heap dq h1) (ID t) now) as [dq1 deduped] eqn:Ed.
  pose proof (dedup_keeps (set_heap dq h1) (ID t) now) as (K1 & K2 & _).
  pose proof (dedup_stamp (set_heap dq h1) (ID t) now) as K3. rewrite Ed in K1, K2, K3. simpl in K1, K2, K3.
  destruct (expire fuel dq1 now) as [[dq2 f2]|] eqn:E2; [|done]. intros [= <- <-].
  destruct (IH dq1 dq2 f2) as [Hw2 Hs2]; [unfold wf; by rewrite K1|by rewrite K2|done|].
  split; [congruence|]. intros id. rewrite Hs2, K3 by done.
  change (stamp (set_heap dq h1) id) with (stamp dq id).
  destruct deduped; repeat case_decide; try done; set_solver.
Qed.

Lemma checkExpired_stamp dq now dq' fired id :
  wf dq → 0 < dedupWindow dq → checkExpired dq now = Some (dq', fired) → id ∈ fired →
  dedupWindow dq' = dedupWindow dq ∧ stamp dq' id = Some now.
Proof.
  intros W Hw. unfold checkExpired.
  destruct (expire _ dq now) as [[dq1 f1]|] eqn:E; [|done]. intros [= <- <-] Hid.
  destruct (expire_stamp _ _ _ _ _ W Hw E) as [Hw1 Hs]. specialize (Hs id).
  rewrite decide_True in Hs by done. unfold stamp, cleanLastFiredLocked in *.
  destruct (lastFired dq1) as [m|] eqn:Em; [|done]. rewrite decide_False by lia. simpl in *.
  split; [done|]. apply map_lookup_filter_Some. split; [done|]. simpl.
  unfold time_sub, minDuration, maxDuration. lia.
Qed.

(** ** The delay queue is a timer *)

#[export] Instance delayQueue_timer : Timer DelayQueue := {|
  t_wf := wf; t_schedule := schedule; t_suppressed := suppressed;
  t_Add := Add; t_Remove := Remove; t_Reschedule := Reschedule; t_tick := checkExpired;
|}.

#[export] Instance delayQueue_laws : TimerLaws DelayQueue.
Proof.
  split; simpl.
  - intros q id e W. destruct (put_spec q id e W) as (q' & ? & ? & ? & _). eauto.
  - apply Remove_schedule.
  - intros q id e W. unfold Reschedule. destruct (clear_keeps q id) as (Eh & Ew & Es).
    destruct (put_spec (clearLastFiredLocked q id) id e) as (q' & E & W' & Hs & Hw & Hl).
    { unfold wf. by rewrite Eh. }
    exists q'. split_and!; [done|done|unfold schedule in *; by rewrite Hs, Eh|].
    intros now. rewrite <-(Es now). unfold suppressed. by rewrite Hw, Hl.
  - intros q now W. destruct (checkExpired_spec q now W) as (q' & f & ? & []). eauto 10.
Qed.

(** ** Queues without a window *)

Lemma suppressed_off dq now id : dedupWindow dq ≤ 0 → suppressed dq now id = false.
Proof. intros H. unfold suppressed. by rewrite bool_decide_eq_false_2 by lia. Qed.

Lemma expire_window now fuel : ∀ dq dq' fired,
  expire fuel dq now = Some (dq', fired) → dedupWindow dq' = dedupWindow dq.
Proof.
  induction fuel as [|fuel IH]; intros dq dq' fired; [done|]. cbn [expire].
  destruct (tasks (h dq) !! 0%nat) as [t|]; [|by intros [= <- _]].
  case_decide; [by intros [= <- _]|]. destruct (Pop (h dq)) as [[h1 t1]|]; [|done].
  cbn [mbind option_bind]. pose proof (dedup_keeps (set_heap dq h1) (ID t) now) as (_ & K & _).
  destruct (isDedupedLocked _ _ _) as [dq1 b]. simpl in K.
  destruct (expire fuel dq1 now) as [[dq2 f2]|] eqn:E; [|done]. intros [= <- _].
  by rewrite (IH _ _ _ E).
Qed.

Lemma op_window (dq : DelayQueue) o dq' f :
  wf dq → exec1 dq o = Some (dq', f) → dedupWindow dq' = dedupWindow dq.
Proof.
  intros W E. destruct o as [id e|id|id e|now]; simpl in E.
  - destruct (put_spec dq id e W) as (q & Eq & _ & _ & Hw & _). unfold Add in E. rewrite Eq in E. by injection E as <- _.
  - unfold Remove in E. destruct (clear_keeps dq id) as (_ & Hw & _).
    destruct (index _ !! id); [destruct (Heap.Remove _ _) as [[h1 ?]|]; [|done]|]; injection E as <- _; done.
  - destruct (clear_keeps dq id) as (Eh & Hw & _).
    destruct (put_spec (clearLastFiredLocked dq id) id e) as (q & Eq & _ & _ & Hw' & _); [unfold wf; by rewrite Eh|].
    unfold Reschedule in E. rewrite Eq in E. injection E as <- _. congruence.
  - unfold checkExpired in E. destruct (expire _ dq now) as [[dq1 f1]|] eqn:Ee; [|done]. injection E as <- _.
    apply expire_window in Ee. unfold cleanLastFiredLocked. destruct (lastFired dq1); [|done]. by case_decide.
Qed.

#[export] Instance delayQueue_nodedup : NoDedup DelayQueue.
Proof.
  refine {| off := λ dq : DelayQueue, dedupWindow dq ≤ 0 |}; [apply suppressed_off|].
  intros q o q' f W O E. by rewrite (op_window q o q' f W E).
Defined.

(** ** The delay queue against a plan *)

(** What a client may ask of a delay queue: the operations of a scheduler, and to
    set the deduplication window (also as the option of NewDelayQueue). *)
Inductive command := CDedupWindow (d : Z) | COp (o : op).

Definition command1 (dq : DelayQueue) (c : command) : option (DelayQueue * list (list Z)) :=
  match c with
  | CDedupWindow d => Some (SetDedupWindow dq d, [])
  | COp o => exec1 dq o
  end.

Fixpoint commands (dq : DelayQueue) (l : list command) : option (DelayQueue * list (list Z)) :=
  match l with
  | [] => Some (dq, [])
  | c :: l => '(dq1, f1) ← command1 dq c; '(dq2, f2) ← commands dq1 l; Some (dq2, f1 ++ f2)
  end.

(** The reference: deadlines by identifier, the window, and when an identifier
    fired last, remembered until a tick a window later. *)
Record plan := Plan { deadlines : gmap Z Z; window : Z; fired : gmap Z Z }.

Definition newPlan : plan := Plan ∅ 0 ∅.

(** [id] fired less than the window before [now]. *)
Definition recent (s : plan) (now id : Z) : bool :=
  match fired s !! id with Some t => bool_decide (time_sub now t < window s) | None => false end.

(** One command on the plan, with the entries a tick fires: those that are due and
    did not fire recently.  Removing or rescheduling an identifier forgets when it
    fired, setting the window forgets all. *)
Definition plan1 (s : plan) (c : command) : plan * list (gmap Z Z) :=
  match c with
  | CDedupWindow d => (Plan (deadlines s) d ∅, [])
  | COp (OAdd id e) => (Plan (<[id := e]> (deadlines s)) (window s) (fired s), [])
  | COp (OReschedule id e) =>
      (Plan (<[id := e]> (deadlines s)) (window s) (delete id (fired s)), [])
  | COp (ORemove id) => (Plan (delete id (deadlines s)) (window s) (delete id (fired s)), [])
  | COp (OTick now) =>
      let due := filter (λ p, p.2 ≤ now ∧ recent s now p.1 = false) (deadlines s) in
      (Plan (filter (λ p, now < p.2) (deadlines s)) (window s)
         (if decide (0 < window s)
          then filter (λ p, time_sub now p.2 < window s) (((λ _, now) <$> due) ∪ fired s)
          else fired s), [due])
  end.

Fixpoint plans (s : plan) (l : list command) : plan * list (gmap Z Z) :=
  match l with
  | [] => (s, [])
  | c :: l => let '(s1, d1) := plan1 s c in let '(s2, d2) := plans s1 l in (s2, d1 ++ d2)
  end.

Record follows (dq : DelayQueue) (s : plan) : Prop := {
  fo_wf : wf dq;
  fo_schedule : schedule dq = deadlines s;
  fo_window : dedupWindow dq = window s;
  fo_fired : ∀ id, stamp dq id = fired s !! id;
  fo_off : window s ≤ 0 → fired s = ∅;
}.

Lemma follows_recent dq s now id : follows dq s → suppressed dq now id = recent s now id.
Proof.
  intros [_ _ Hw Hf Ho]. unfold suppressed, recent. fold (stamp dq id). rewrite Hf, Hw.
  case_bool_decide; [done|]. simpl. by rewrite Ho by lia.
Qed.

Lemma clear_stamp dq id id' :
  stamp (clearLastFiredLocked dq id) id' = if decide (id = id') then None else stamp dq id'.
Proof.
  unfold stamp, clearLastFiredLocked. destruct (lastFired dq) as [m|] eqn:E; simpl; rewrite ?E; simpl.
  - rewrite lookup_delete. by case_decide.
  - by case_decide.
Qed.

(** Forgetting an identifier, with any heap. *)
Lemma follows_clear dq s id q m :
  follows dq s → wf q → schedule q = m → dedupWindow q = dedupWindow dq →
  lastFired q = lastFired (clearLastFiredLocked dq id) →
  follows q (Plan m (window s) (delete id (fired s))).
Proof.
  intros [_ _ Hw Hf Ho] W Hm Hwq Hl. split; simpl; [done|done|congruence| |].
  - intros id'. pose proof (clear_stamp dq id id') as Hc. unfold stamp in *.
    rewrite Hl, Hc, lookup_delete. by case_decide.
  - intros H. by rewrite Ho, delete_empty.
Qed.

Lemma expire_off now fuel : ∀ dq dq' f,
  wf dq → dedupWindow dq ≤ 0 → expire fuel dq now = Some (dq', f) → lastFired dq' = lastFired dq.
Proof.
  induction fuel as [|fuel IH]; intros dq dq1 f1 W Hw; [done|]. cbn [expire].
  destruct (tasks (h dq) !! 0%nat) as [t|] eqn:Ht; [|by intros [= <- _]].
  case_decide; [by intros [= <- _]|].
  destruct (Pop_spec (h dq) W) as (h1 & t' & -> & W1 & _); [by apply lookup_lt_Some in Ht|].
  cbn [mbind option_bind]. unfold isDedupedLocked. cbn [dedupWindow set_heap].
  rewrite decide_True by done. destruct (expire fuel _ now) as [[dq2 f2]|] eqn:E2; [|done].
  intros [= <- _]. by apply (IH (set_heap dq h1) dq2 f2).
Qed.

Lemma checkExpired_off dq now dq' f :
  wf dq → dedupWindow dq ≤ 0 → checkExpired dq now = Some (dq', f) → lastFired dq' = lastFired dq.
Proof.
  intros W Hw. unfold checkExpired. destruct (expire _ dq now) as [[dq1 f1]|] eqn:E; [|done].
  intros [= <- _]. pose proof (expire_window _ _ _ _ _ E) as Hw1.
  pose proof (expire_off _ _ _ _ _ W Hw E) as Hl. unfold cleanLastFiredLocked.
  destruct (lastFired dq1) eqn:El; [|congruence]. rewrite decide_True by lia. congruence.
Qed.

(** When an identifier fired last, after a tick. *)
Lemma checkExpired_stamps dq now dq' f id :
  wf dq → 0 < dedupWindow dq → checkExpired dq now = Some (dq', f) →
  stamp dq' id = t ← (if decide (id ∈ f) then Some now else stamp dq id);
                 if decide (time_sub now t < dedupWindow dq) then Some t else None.
Proof.
  intros W Hw. unfold checkExpired.
  destruct (expire _ dq now) as [[dq1 f1]|] eqn:E; [|done]. intros [= <- <-].
  destruct (expire_stamp _ _ _ _ _ W Hw E) as [Hw1 Hs]. rewrite <-Hs.
  unfold stamp, cleanLastFiredLocked in *. destruct (lastFired dq1) as [m|] eqn:Em; [|by rewrite Em].
  rewrite decide_False by lia. simpl. rewrite map_lookup_filter. destruct (m !! id) as [t|]; [|done].
  simpl. rewrite Hw1. repeat case_guard || case_decide; try done; lia.
Qed.

Lemma follows_tick dq s now :
  follows dq s →
  ∃ dq' f, checkExpired dq now = Some (dq', f) ∧
    follows dq' (plan1 s (COp (OTick now))).1 ∧
    Forall2 fires [f] (plan1 s (COp (OTick now))).2.
Proof.
  intros F. pose proof F as [W Hs Hw Hf Ho].
  destruct (checkExpired_spec dq now W) as (dq' & f & E & [P1 P2 P3 P4 P5]).
  set (due := filter (λ p, p.2 ≤ now ∧ recent s now p.1 = false) (deadlines s)).
  assert (∀ id, id ∈ f ↔ is_Some (due !! id)) as Hdue.
  { intros id. rewrite P4, Hs, (follows_recent dq s now id F). unfold due. split.
    - intros [(e & He & Hle) Hr]. exists e. by apply map_lookup_filter_Some.
    - intros [e [He [Hle Hr]]%map_lookup_filter_Some]. eauto. }
  exists dq', f. split; [done|]. split.
  - assert (dedupWindow dq' = dedupWindow dq) as Hw'
      by (apply (op_window dq (OTick now) dq' [f] W); simpl; by rewrite E).
    split; simpl; [done|by rewrite P2, Hs|congruence| |].
    + intros id. fold due. case_decide as Hpos.
      * rewrite (checkExpired_stamps dq now dq' f id W) by (done || lia). rewrite Hf, Hw.
        rewrite map_lookup_filter, lookup_union, lookup_fmap. specialize (Hdue id).
        destruct (due !! id) as [e|]; [rewrite decide_True by (by apply Hdue; eauto)|
          rewrite decide_False by (rewrite Hdue; by intros [])].
        -- destruct (fired s !! id); simpl; by repeat case_guard || case_decide.
        -- destruct (fired s !! id); simpl; by repeat case_guard || case_decide.
      * rewrite <-Hf. unfold stamp. by rewrite (checkExpired_off dq now dq' f W) by (done || lia).
    + intros Hle. rewrite decide_False by lia. auto.
  - constructor; [|constructor]. split_and!; [done| |].
    + apply set_eq. intros id. by rewrite elem_of_list_to_set, elem_of_dom, Hdue.
    + rewrite (omap_ext_elem _ (λ id, schedule dq !! id)); [exact P5|]. intros id Hid.
      apply Hdue in Hid as [e He]. fold due. rewrite He. unfold due in He.
      apply map_lookup_filter_Some in He as [He _]. by rewrite Hs.
Qed.

Lemma follows_command dq s c :
  follows dq s →
  ∃ dq' f, command1 dq c = Some (dq', f) ∧ follows dq' (plan1 s c).1 ∧
    Forall2 fires f (plan1 s c).2.
Proof.
  intros F. pose proof F as [W Hs Hw Hf Ho]. destruct c as [d|[id e|id|id e|now]]; cbn [command1 plan1 exec1 fst snd].
  - eexists _, _. split; [done|]. split; [|constructor]. split; try done. simpl. intros id.
    unfold stamp, SetDedupWindow. simpl. by case_decide.
  - change (t_Add dq id e) with (put dq id e). destruct (put_spec dq id e W) as (q & -> & W' & Hq & Hwq & Hl).
    eexists _, _. split; [done|]. split; [|constructor].
    split; simpl; [done|by rewrite Hq, Hs|congruence| |done]. intros id'. rewrite <-Hf. unfold stamp. by rewrite Hl.
  - destruct (Remove_schedule dq id W) as (q & E & W' & Hq). change (t_Remove dq id) with (Remove dq id).
    rewrite E. eexists _, _. split; [done|]. split; [|constructor].
    rewrite <-Hs. eapply follows_clear; try done.
    + apply (op_window dq (ORemove id) q [] W). simpl. by rewrite E.
    + unfold Remove in E. destruct (index _ !! id); [destruct (Heap.Remove _ _) as [[h1 ?]|]; [|done]|];
        by injection E as <-.
  - change (t_Reschedule dq id e) with (put (clearLastFiredLocked dq id) id e).
    destruct (clear_keeps dq id) as (Eh & Ew & _).
    destruct (put_spec (clearLastFiredLocked dq id) id e) as (q & -> & W' & Hq & Hwq & Hl);
      [unfold wf; by rewrite Eh|].
    eexists _, _. split; [done|]. split; [|constructor]. eapply follows_clear; try done; [|congruence].
    unfold schedule in *. by rewrite Hq, Eh, Hs.
  - destruct (follows_tick dq s now F) as (q & f & E & ? & ?).
    change (t_tick dq now) with (checkExpired dq now). rewrite E. simpl. eauto.
Qed.

Lemma follows_commands l : ∀ dq s,
  follows dq s →
  ∃ dq' f, commands dq l = Some (dq', f) ∧ follows dq' (plans s l).1 ∧ Forall2 fires f (plans s l).2.
Proof.
  induction l as [|c l IH]; intros dq s F; cbn [commands plans]; [by eauto using Forall2_nil|].
  destruct (follows_command dq s c F) as (q & f & -> & F1 & H1). cbn [mbind option_bind].
  destruct (plan1 s c) as [s1 d1]. destruct (IH q s1 F1) as (q2 & f2 & -> & F2 & H2).
  destruct (plans s1 l) as [s2 d2]. eexists _, _. split; [done|]. split; [done|]. by apply Forall2_app.
Qed.

(** C11 (refinement): a delay queue runs any sequence of Add, Remove, Reschedule,
    SetDedupWindow and ticks without a panic and like a plan, a map from identifiers
    to deadlines with the times at which identifiers fired: each tick fires exactly
    the entries that are due and did not fire less than the deduplication window
    before, each once, by increasing deadline; what is due leaves the schedule, fired
    or not, and the rest stays scheduled.  Removing or rescheduling an identifier
    forgets when it fired; without a window every due entry fires. *)
Theorem delay_queue_refines (l : list command) :
  ∃ (dq : DelayQueue) f, commands NewDelayQueue l = Some (dq, f) ∧
    schedule dq = deadlines (plans newPlan l).1 ∧ Forall2 fires f (plans newPlan l).2.
Proof.
  destruct (follows_commands l NewDelayQueue newPlan) as (dq & f & E & F & H).
  { by split. }
  exists dq, f. split; [done|]. split; [apply F|done].
Qed.

(** An identifier added twice inside the window fires once; rescheduled, it fires
    again. *)
Example dedup_commands :
  (plans newPlan [CDedupWindow 10; COp (OAdd 1 3); COp (OTick 4); COp (OAdd 1 5); COp (OTick 6);
                  COp (OReschedule 1 7); COp (OTick 8)]).2 = [{[1 := 3]}; ∅; {[1 := 7]}].
Proof. vm_compute. reflexivity. Qed.

(** What a tick does to an identifier that is due. *)
Lemma tick_due dq now id e :
  wf dq → schedule dq !! id = Some e → e ≤ now →
  ∃ dq' fired, checkExpired dq now = Some (dq', fired) ∧ schedule dq' !! id = None ∧
               (id ∈ fired ↔ suppressed dq now id = false).
Proof.
  intros W Hs He. destruct (law_tick dq now) as (dq' & fired & E & _ & Hs' & _ & Hf & _); [exact W|].
  exists dq', fired. split_and!; [done| |].
  - change (t_schedule dq' !! id = None). rewrite Hs'. apply map_lookup_filter_None. right.
    intros x Hx. change (schedule dq !! id = Some x) in Hx. simpl. assert (x = e) by congruence. lia.
  - rewrite Hf. simpl. naive_solver.
Qed.

(** Functional: the deduplication window.  An identifier that fired at [now]
    and is added again is dropped by a tick less than the window later and fires at
    a tick from the window on; one that is rescheduled instead fires in any case. *)
Theorem dedup_window dq now dq1 f id e now' :
  wf dq → 0 < dedupWindow dq ≤ maxDuration → checkExpired dq now = Some (dq1, f) → id ∈ f →
  e ≤ now' →
  (∃ dq2 dq3 f', Add dq1 id e = Some dq2 ∧ checkExpired dq2 now' = Some (dq3, f') ∧
     schedule dq3 !! id = None ∧ (id ∈ f' ↔ dedupWindow dq ≤ now' - now)) ∧
  (∃ dq2 dq3 f', Reschedule dq1 id e = Some dq2 ∧ checkExpired dq2 now' = Some (dq3, f') ∧
     schedule dq3 !! id = None ∧ id ∈ f').
Proof.
  intros W Hw E Hid He.
  destruct (checkExpired_stamp dq now dq1 f id W) as [Hw1 Hs1]; [lia|done..|].
  assert (wf dq1) as W1 by (destruct (law_tick dq now) as (x & y & E' & W1 & _); [exact W|]; change (checkExpired dq now = Some (x, y)) in E'; by simplify_eq).
  split.
  - destruct (put_spec dq1 id e W1) as (dq2 & E2 & W2 & S2 & Hw2 & Hl2).
    destruct (tick_due dq2 now' id e W2) as (dq3 & f' & E3 & S3 & Hf); [by rewrite S2, lookup_insert_eq|done|].
    exists dq2, dq3, f'. split_and!; [done..|]. rewrite Hf. unfold suppressed, stamp in *.
    rewrite Hw2, Hl2, Hs1, Hw1, bool_decide_eq_true_2, andb_true_l, bool_decide_eq_false, time_sub_lt by lia. lia.
  - destruct (law_reschedule dq1 id e) as (dq2 & E2 & W2 & S2 & Hsup); [exact W1|].
    destruct (tick_due dq2 now' id e W2) as (dq3 & f' & E3 & S3 & Hf); [|done|].
    { change (t_schedule dq2 !! id = Some e). by rewrite S2, lookup_insert_eq. }
    exists dq2, dq3, f'. split_and!; [done..|]. apply Hf, Hsup.
Qed.

Lemma dedup_window_witness :
  ∃ dq dq1, wf dq ∧ checkExpired dq 5 = Some (dq1, [1]) ∧
  (∃ dq2 dq3 f', Add dq1 1 8 = Some dq2 ∧ checkExpired dq2 9 = Some (dq3, f') ∧
     schedule dq3 !! 1 = None ∧ (1 ∈ f' ↔ 10 ≤ 9 - 5)).
Proof.
  destruct (put_spec (SetDedupWindow NewDelayQueue 10) 1 3 new_wf) as (dq & E & W & _).
  vm_compute in E. injection E as <-.
  eexists _, _. split; [exact W|]. split; [vm_compute; reflexivity|].
  refine (proj1 (dedup_window _ 5 _ [1] 1 8 9 W _ _ _ _)); [vm_compute; split; congruence|vm_compute; reflexivity|set_solver|lia].
Defined.

End DelayQueue.
