(* ===== verification/TimingWheel.v ===== *)
(** * The timing wheel (src/timer/timing_wheel.go)

    3600 slots of one second.  [Add], [Remove], [Reschedule] and [tick] are the
    operations; the steps of the section "Interleavings" are their critical
    sections, and sequences of steps are compared with a map from identifiers to
    the number of ticks left. *)

From S2P Require Import Prelude.

Module TimingWheel.

(** ** Code *)

Definition defaultCallbackTimeout : Z := 3 * Second.
Definition wheelSlots : Z := 3600.

Inductive error := ErrTimerOutOfRange.

Record TimingWheelOptions := Options {
  CallbackTimeout : Z;
  MetricsReportInterval : Z;
  DedupWindow : Z;
}.

(** Counters are [uint64] updated by atomic additions. *)
Record TimingWheelMetrics := Metrics {
  TasksSubmitted : Z;
  TasksExecuted : Z;
  TasksExecutionError : Z;
}.

(** [callback] tells whether there is a callback. *)
Record TimingWheel := Wheel {
  slots : list (list Z);
  current : Z;
  callback : bool;
  callbackTimeout : Z;
  metricsReportInterval : Z;
  metrics : TimingWheelMetrics;
  dedupWindow : Z;
  lastFired : gmap Z Z;
}.

Definition NewTimingWheel (callback : bool) (opts : TimingWheelOptions) : TimingWheel :=
  Wheel (replicate (Z.to_nat wheelSlots) []) 0 callback
        (if decide (CallbackTimeout opts ≤ 0) then defaultCallbackTimeout else CallbackTimeout opts)
        (MetricsReportInterval opts) (Metrics 0 0 0) (DedupWindow opts) ∅.

Definition set_slots (tw : TimingWheel) (s : list (list Z)) (cur : Z) : TimingWheel :=
  Wheel s cur (callback tw) (callbackTimeout tw) (metricsReportInterval tw) (metrics tw)
        (dedupWindow tw) (lastFired tw).
Definition set_metrics (tw : TimingWheel) (m : TimingWheelMetrics) : TimingWheel :=
  Wheel (slots tw) (current tw) (callback tw) (callbackTimeout tw) (metricsReportInterval tw) m
        (dedupWindow tw) (lastFired tw).
Definition set_dedup (tw : TimingWheel) (d : Z) (m : gmap Z Z) : TimingWheel :=
  Wheel (slots tw) (current tw) (callback tw) (callbackTimeout tw) (metricsReportInterval tw)
        (metrics tw) d m.

Definition SetDedupWindow (tw : TimingWheel) (d : Z) : TimingWheel := set_dedup tw d ∅.

Definition slotsAhead (delay : Z) : Z :=
  if decide (delay ≤ 0) then 0
  else let n := delay / Second in if decide (n = 0) then 1 else n.

Definition clearLastFired (tw : TimingWheel) (id : Z) : TimingWheel :=
  set_dedup tw (dedupWindow tw) (delete id (lastFired tw)).

Definition isDeduped (tw : TimingWheel) (id now : Z) : TimingWheel * bool :=
  if decide (dedupWindow tw ≤ 0) then (tw, false)
  else if match lastFired tw !! id with
          | Some last => bool_decide (time_sub now last < dedupWindow tw)
          | None => false
          end then (tw, true)
  else (set_dedup tw (dedupWindow tw) (<[id := now]> (lastFired tw)), false).

Definition cleanLastFired (tw : TimingWheel) (now : Z) : TimingWheel :=
  if decide (dedupWindow tw ≤ 0) then tw
  else set_dedup tw (dedupWindow tw)
         (filter (λ p, time_sub now p.2 < dedupWindow tw) (lastFired tw)).

(** The synchronous part of submitTask; [taskDone] is the deferred function of its
    goroutine, after the callback returned or panicked. *)
Definition submitTask (tw : TimingWheel) : TimingWheel :=
  let m := metrics tw in
  set_metrics tw (Metrics ((TasksSubmitted m + 1) mod 2 ^ 64) (TasksExecuted m) (TasksExecutionError m)).
Definition taskDone (tw : TimingWheel) (panicked : bool) : TimingWheel :=
  let m := metrics tw in
  set_metrics tw (if panicked
    then Metrics (TasksSubmitted m) (TasksExecuted m) ((TasksExecutionError m + 1) mod 2 ^ 64)
    else Metrics (TasksSubmitted m) ((TasksExecuted m + 1) mod 2 ^ 64) (TasksExecutionError m)).
Definition GetMetrics (tw : TimingWheel) : TimingWheelMetrics := metrics tw.

(** The guarded submission of Add and tick, with the identifier submitted. *)
Definition trySubmit (tw : TimingWheel) (id now : Z) : TimingWheel * list Z :=
  if callback tw then
    let '(tw1, deduped) := isDeduped tw id now in
    if deduped then (tw1, []) else (submitTask tw1, [id])
  else (tw, []).

(** The inner loop of removeFromSlotsLocked: [None] when [id] is not in the slot. *)
Fixpoint removeFromSlot (id : Z) (s : list Z) : option (list Z) :=
  match s with
  | [] => None
  | x :: s' => if decide (x = id) then Some s' else (x ::.) <$> removeFromSlot id s'
  end.

Fixpoint removeFromSlots (id : Z) (ss : list (list Z)) : list (list Z) :=
  match ss with
  | [] => []
  | s :: ss' =>
      match removeFromSlot id s with
      | Some s' => s' :: ss'
      | None => s :: removeFromSlots id ss'
      end
  end.

Definition removeFromSlotsLocked (tw : TimingWheel) (id : Z) : TimingWheel :=
  set_slots tw (removeFromSlots id (slots tw)) (current tw).

(** [now] is the reading of time.Until and [now'] that of time.Now.  The result has
    the error and the identifiers submitted. *)
Definition Add (tw : TimingWheel) (id expireTime now now' : Z) : TimingWheel * option error * list Z :=
  let delay := time_sub expireTime now in
  if decide (delay ≤ 0) then let '(tw1, f) := trySubmit tw id now' in (tw1, None, f)
  else if decide (Hour < delay) then (tw, Some ErrTimerOutOfRange, [])
  else
    let tw1 := removeFromSlotsLocked tw id in
    let slot := Z.to_nat ((current tw1 + slotsAhead delay) mod wheelSlots) in
    (set_slots tw1 (alter (λ s, s ++ [id]) slot (slots tw1)) (current tw1), None, []).

Definition Remove (tw : TimingWheel) (id : Z) : TimingWheel :=
  removeFromSlotsLocked (clearLastFired tw id) id.

Definition Reschedule (tw : TimingWheel) (id expireTime now now' : Z) : TimingWheel * option error * list Z :=
  Add (clearLastFired tw id) id expireTime now now'.

(** The critical section of tick, with the tasks taken from the slot. *)
Definition advance (tw : TimingWheel) : TimingWheel * list Z :=
  let cur := (current tw + 1) mod wheelSlots in
  let tasks := default [] (slots tw !! Z.to_nat cur) in
  (set_slots tw (<[Z.to_nat cur := []]> (slots tw)) cur, tasks).

(** Its loop. *)
Fixpoint fireAll (tw : TimingWheel) (tasks : list Z) (now : Z) : TimingWheel * list Z :=
  match tasks with
  | [] => (tw, [])
  | id :: rest =>
      let '(tw1, f1) := trySubmit tw id now in
      let '(tw2, f2) := fireAll tw1 rest now in
      (tw2, f1 ++ f2)
  end.

Definition tick (tw : TimingWheel) (now : Z) : TimingWheel * list Z :=
  let '(tw1, tasks) := advance tw in
  let '(tw2, fired) := fireAll tw1 tasks now in
  (cleanLastFired tw2 now, fired).

(** ** Interleavings

    The critical sections: Remove is [LClear] then [LUnlink], Reschedule [LClear]
    then [LAdd], and tick [LAdvance], one [LFire] per task and [LClean], with steps
    of other goroutines in between. *)

Inductive label :=
  | LSetWindow (d : Z)
  | LClear (id : Z)
  | LUnlink (id : Z)
  | LAdd (id expireTime now now' : Z)
  | LAdvance
  | LFire (now : Z)
  | LClean (now : Z)
  | LDone (panicked : bool).

(** [batch]: the tasks the ticking goroutine still has to submit, [None] between
    two ticks. *)
Record state := State { wheel : TimingWheel; batch : option (list Z) }.

(** [None] when the ticking goroutine is elsewhere; the list has the batch taken by
    an [LAdvance]. *)
Definition step (st : state) (a : label) : option (state * list (list Z)) :=
  let tw := wheel st in
  match a, batch st with
  | LSetWindow d, b => Some (State (SetDedupWindow tw d) b, [])
  | LClear id, b => Some (State (clearLastFired tw id) b, [])
  | LUnlink id, b => Some (State (removeFromSlotsLocked tw id) b, [])
  | LAdd id e now now', b => Some (State (Add tw id e now now').1.1 b, [])
  | LAdvance, None => let '(tw1, tasks) := advance tw in Some (State tw1 (Some tasks), [tasks])
  | LFire now, Some (id :: rest) => Some (State (trySubmit tw id now).1 (Some rest), [])
  | LClean now, Some [] => Some (State (cleanLastFired tw now) None, [])
  | LDone p, b => Some (State (taskDone tw p) b, [])
  | _, _ => None
  end.

Fixpoint steps (st : state) (l : list label) : option (state * list (list Z)) :=
  match l with
  | [] => Some (st, [])
  | a :: l => '(st1, f1) ← step st a; '(st2, f2) ← steps st1 l; Some (st2, f1 ++ f2)
  end.

Definition initial (callback : bool) (opts : TimingWheelOptions) : state :=
  State (NewTimingWheel callback opts) None.

(** The specification: how many ticks each identifier waits. *)
Definition spec1 (m : gmap Z Z) (a : label) : gmap Z Z * list (gset Z) :=
  match a with
  | LUnlink id => (delete id m, [])
  | LAdd id e now _ =>
      let delay := time_sub e now in
      (if decide (0 < delay ≤ Hour) then <[id := slotsAhead delay]> m else m, [])
  | LAdvance => ((λ k, k - 1) <$> filter (λ p, p.2 ≠ 1) m, [dom (filter (λ p, p.2 = 1) m)])
  | _ => (m, [])
  end.

Fixpoint spec (m : gmap Z Z) (l : list label) : gmap Z Z * list (gset Z) :=
  match l with
  | [] => (m, [])
  | a :: l => let '(m1, d1) := spec1 m a in let '(m2, d2) := spec m1 l in (m2, d1 ++ d2)
  end.

(** The specification that the comments on Add and Reschedule give: an existing schedule
    is replaced, whatever the new deadline, so that nothing is left of it when the new one
    is past (the callback is submitted at once) or beyond the hour (an error). *)
Definition documented1 (m : gmap Z Z) (a : label) : gmap Z Z * list (gset Z) :=
  match a with
  | LAdd id e now _ =>
      let delay := time_sub e now in
      (if decide (0 < delay ≤ Hour) then <[id := slotsAhead delay]> m else delete id m, [])
  | _ => spec1 m a
  end.

Fixpoint documented (m : gmap Z Z) (l : list label) : gmap Z Z * list (gset Z) :=
  match l with
  | [] => (m, [])
  | a :: l => let '(m1, d1) := documented1 m a in let '(m2, d2) := documented m1 l in (m2, d1 ++ d2)
  end.

(** An Add for a scheduled identifier with a deadline in the past or beyond the hour. *)
Definition lapse (m : gmap Z Z) (a : label) : bool :=
  match a with
  | LAdd id e now _ => negb (bool_decide (0 < time_sub e now ≤ Hour)) && bool_decide (is_Some (m !! id))
  | _ => false
  end.
Fixpoint lapses (m : gmap Z Z) (l : list label) : bool :=
  match l with
  | [] => false
  | a :: l => lapse m a || lapses (spec1 m a).1 l
  end.

(** ** The slots represent the ticks left *)

Definition dist (cur : Z) (i : nat) : Z := (Z.of_nat i - cur - 1) mod wheelSlots + 1.

Record represents (ss : list (list Z)) (cur : Z) (m : gmap Z Z) : Prop := {
  rp_len : length ss = Z.to_nat wheelSlots;
  rp_cur : 0 ≤ cur < wheelSlots;
  rp_nodup : Forall NoDup ss;
  rp_map id k : m !! id = Some k ↔ ∃ i s, ss !! i = Some s ∧ id ∈ s ∧ k = dist cur i;
}.

(** Each identifier is in one slot at most. *)
Definition unique (id : Z) (ss : list (list Z)) : Prop :=
  ∀ i j s s', ss !! i = Some s → ss !! j = Some s' → id ∈ s → id ∈ s' → i = j.

Lemma dist_inj cur i j :
  (i < Z.to_nat wheelSlots)%nat → (j < Z.to_nat wheelSlots)%nat → dist cur i = dist cur j → i = j.
Proof. unfold dist, wheelSlots. intros Hi Hj E. revert Hi Hj E. div_lia. Qed.

Lemma represents_unique ss cur m id : represents ss cur m → unique id ss.
Proof.
  intros R i j s s' Hi Hj Hs Hs'. apply (dist_inj cur).
  - rewrite <-(rp_len _ _ _ R). by eapply lookup_lt_Some.
  - rewrite <-(rp_len _ _ _ R). by eapply lookup_lt_Some.
  - assert (m !! id = Some (dist cur i)) by (apply (rp_map _ _ _ R); eauto).
    assert (m !! id = Some (dist cur j)) by (apply (rp_map _ _ _ R); eauto). congruence.
Qed.

Definition without (id : Z) (s : list Z) : list Z := filter (λ x, x ≠ id) s.

Lemma without_absent id s : id ∉ s → without id s = s.
Proof.
  induction s as [|x s IH]; [done|]. intros [Hx Hs]%not_elem_of_cons. unfold without in *.
  rewrite filter_cons_True by done. by rewrite IH.
Qed.

Lemma removeFromSlot_spec id s :
  NoDup s → removeFromSlot id s = if decide (id ∈ s) then Some (without id s) else None.
Proof.
  induction s as [|x s IH]; [done|]. intros [Hx Hs]%NoDup_cons. simpl.
  destruct (decide (x = id)) as [->|Hne].
  - rewrite decide_True by set_solver. unfold without. rewrite filter_cons_False by tauto.
    f_equal. symmetry. by apply without_absent.
  - rewrite IH by done. repeat case_decide; simpl; try set_solver.
    unfold without. by rewrite filter_cons_True.
Qed.

Lemma removeFromSlots_spec id ss :
  Forall NoDup ss → unique id ss → removeFromSlots id ss = without id <$> ss.
Proof.
  induction 1 as [|s ss Hs _ IH]; intros U; [done|]. simpl. rewrite removeFromSlot_spec by done.
  case_decide as Hin; f_equal.
  - rewrite <-(list_fmap_id ss) at 1. apply list_fmap_ext. intros i s' Hi. symmetry.
    apply without_absent. intros Hid. discriminate (U 0%nat (S i) s s' eq_refl Hi Hin Hid).
  - by rewrite without_absent.
  - apply IH. intros i j s1 s2 Hi Hj H1 H2. by injection (U (S i) (S j) s1 s2 Hi Hj H1 H2).
Qed.

Lemma represents_unlink ss cur m id :
  represents ss cur m → represents (removeFromSlots id ss) cur (delete id m).
Proof.
  intros R. rewrite removeFromSlots_spec; [|apply R|by eapply represents_unique].
  split; [rewrite length_fmap; apply R|apply R| |].
  - apply Forall_fmap, Forall_forall. intros s Hs. simpl. apply NoDup_filter.
    pose proof (rp_nodup _ _ _ R) as Hn. rewrite Forall_forall in Hn. by apply Hn.
  - intros id' k. rewrite lookup_delete_Some, (rp_map _ _ _ R). unfold without. split.
    + intros (Hne & i & s & Hi & Hid & ->). exists i, (without id s).
      rewrite list_lookup_fmap, Hi. split_and!; [done| |done]. unfold without. by apply list_elem_of_filter.
    + intros (i & s & Hi & Hid & ->). rewrite list_lookup_fmap_Some in Hi.
      destruct Hi as (s' & -> & Hi). apply list_elem_of_filter in Hid as [Hne Hid]. eauto 10.
Qed.

Lemma dist_ahead cur k :
  0 ≤ cur < wheelSlots → 1 ≤ k ≤ wheelSlots → dist cur (Z.to_nat ((cur + k) mod wheelSlots)) = k.
Proof.
  intros Hc Hk. unfold dist. rewrite Z2Nat.id by (apply Z.mod_pos_bound; done).
  unfold wheelSlots in *. div_lia.
Qed.

Lemma represents_add ss cur m id k :
  represents ss cur m → m !! id = None → 1 ≤ k ≤ wheelSlots →
  represents (alter (λ s, s ++ [id]) (Z.to_nat ((cur + k) mod wheelSlots)) ss) cur (<[id := k]> m).
Proof.
  intros R Hid Hk. pose proof (dist_ahead cur k (rp_cur _ _ _ R) Hk) as Hd.
  set (c := Z.to_nat ((cur + k) mod wheelSlots)) in *.
  assert (∀ i s, ss !! i = Some s → id ∉ s) as Habs.
  { intros i s Hi Hs. assert (m !! id = Some (dist cur i)) by (apply (rp_map _ _ _ R); eauto). congruence. }
  destruct (lookup_lt_is_Some_2 ss c) as [s0 Hs0].
  { rewrite (rp_len _ _ _ R). unfold c, wheelSlots. div_lia. }
  split; [rewrite length_alter; apply R|apply R| |].
  - apply Forall_alter; [apply R|]. intros s Hs Hn. apply NoDup_app. split_and!; [done| |apply NoDup_singleton].
    intros x Hx ->%list_elem_of_singleton. by eapply Habs.
  - intros id' k'. rewrite lookup_insert_Some, (rp_map _ _ _ R). split.
    + intros [[<- <-]|[Hne (i & s & Hi & Hin & ->)]].
      * exists c, (s0 ++ [id]). rewrite list_lookup_alter_eq, Hs0. split_and!; [done|set_solver|done].
      * exists i. destruct (decide (i = c)) as [->|Hic].
        -- exists (s ++ [id]). rewrite list_lookup_alter_eq, Hi. split_and!; [done|set_solver|done].
        -- exists s. rewrite list_lookup_alter_ne by done. done.
    + intros (i & s & Hi & Hin & ->). destruct (decide (i = c)) as [->|Hic].
      * rewrite list_lookup_alter_eq, Hs0 in Hi. injection Hi as <-.
        apply elem_of_app in Hin as [Hin| ->%list_elem_of_singleton]; [|by left; rewrite Hd].
        right. split; [intros <-; by eapply Habs|]. eauto.
      * rewrite list_lookup_alter_ne in Hi by done. right. split; [intros <-; by eapply Habs|]. eauto.
Qed.

Lemma slotsAhead_range d : 0 < d ≤ Hour → 1 ≤ slotsAhead d ≤ wheelSlots.
Proof.
  unfold slotsAhead, Hour, Minute, Second, Millisecond, wheelSlots. intros H.
  rewrite decide_False by lia. case_decide; [lia|]. div_lia.
Qed.

(** One tick takes what has one tick left and brings the rest one tick closer. *)
Lemma dist_next cur i :
  0 ≤ cur < wheelSlots → (i < Z.to_nat wheelSlots)%nat →
  (i = Z.to_nat ((cur + 1) mod wheelSlots) ↔ dist cur i = 1) ∧
  (dist cur i ≠ 1 → dist ((cur + 1) mod wheelSlots) i = dist cur i - 1).
Proof. unfold dist, wheelSlots. intros Hc Hi. split; [split|]; div_lia. Qed.

Lemma represents_advance ss cur m :
  represents ss cur m →
  let c := (cur + 1) mod wheelSlots in
  ∃ tasks, ss !! Z.to_nat c = Some tasks ∧ NoDup tasks ∧
    list_to_set tasks = dom (filter (λ p, p.2 = 1) m) ∧
    represents (<[Z.to_nat c := []]> ss) c ((λ k, k - 1) <$> filter (λ p, p.2 ≠ 1) m).
Proof.
  intros R c. pose proof (rp_len _ _ _ R) as Hlen. pose proof (rp_cur _ _ _ R) as Hcur.
  destruct (lookup_lt_is_Some_2 ss (Z.to_nat c)) as [tasks Ht].
  { rewrite Hlen. unfold c, wheelSlots. div_lia. }
  assert (∀ i s, ss !! i = Some s → (i = Z.to_nat c ↔ dist cur i = 1) ∧ (dist cur i ≠ 1 → dist c i = dist cur i - 1)) as HD.
  { intros i s Hi%lookup_lt_Some. apply dist_next; [done|]. by rewrite <-Hlen. }
  exists tasks. split_and!; [done|by eapply Forall_lookup_1; [apply R|]| |].
  - apply set_eq. intros id. rewrite elem_of_list_to_set, elem_of_dom. split.
    + intros Hid. exists 1. apply map_lookup_filter_Some. split; [|done].
      apply (rp_map _ _ _ R). exists (Z.to_nat c), tasks. split_and!; [done..|]. symmetry. by eapply HD.
    + intros [k [(i & s & Hi & Hid & ->)%(rp_map _ _ _ R) Hk]%map_lookup_filter_Some].
      apply (HD i s Hi) in Hk as ->. congruence.
  - split; [by rewrite length_insert|unfold c, wheelSlots; apply Z.mod_pos_bound; lia| |].
    + apply Forall_insert; [apply R|constructor].
    + intros id k. rewrite lookup_fmap_Some. split.
      * intros (k' & <- & [(i & s & Hi & Hid & ->)%(rp_map _ _ _ R) Hk]%map_lookup_filter_Some).
        exists i, s. rewrite list_lookup_insert_ne by (intros <-; apply Hk; by eapply HD).
        split_and!; [done..|]. symmetry. by eapply HD.
      * intros (i & s & Hi & Hid & ->). apply list_lookup_insert_Some in Hi as [(_ & <- & _)|[Hne Hi]]; [set_solver|].
        assert (dist cur i ≠ 1) as Hd by (intros E%(HD i s Hi); congruence).
        exists (dist cur i). split; [symmetry; by eapply HD|]. apply map_lookup_filter_Some. split; [|done].
        apply (rp_map _ _ _ R). eauto.
Qed.

(** ** Steps *)

Definition holds (tw : TimingWheel) (m : gmap Z Z) : Prop := represents (slots tw) (current tw) m.

(** A batch taken: exactly the identifiers of a set, each once. *)
Definition taken (b : list Z) (d : gset Z) : Prop := NoDup b ∧ list_to_set b = d.

Lemma dedup_slots tw id now :
  slots (isDeduped tw id now).1 = slots tw ∧ current (isDeduped tw id now).1 = current tw.
Proof. unfold isDeduped. case_decide; [done|]. by destruct (match _ with Some _ => _ | None => _ end). Qed.

Lemma submit_slots tw id now :
  slots (trySubmit tw id now).1 = slots tw ∧ current (trySubmit tw id now).1 = current tw.
Proof.
  unfold trySubmit. destruct (callback tw); [|done]. pose proof (dedup_slots tw id now) as H.
  destruct (isDeduped tw id now) as [tw1 []]; done.
Qed.

Lemma Add_holds tw m id e now now' :
  holds tw m → holds (Add tw id e now now').1.1 (spec1 m (LAdd id e now now')).1.
Proof.
  intros R. unfold Add, holds. cbn [spec1 fst]. case_decide as Hd.
  { pose proof (submit_slots tw id now') as [E1 E2]. destruct (trySubmit tw id now') as [tw1 f].
    simpl in *. rewrite decide_False by lia. by rewrite E1, E2. }
  case_decide as Hh; [rewrite decide_False by lia; done|]. rewrite decide_True by lia. simpl.
  rewrite <-insert_delete_eq. apply represents_add; [by apply represents_unlink|by rewrite lookup_delete_eq|].
  apply slotsAhead_range. lia.
Qed.

Lemma step_holds st a st' f m :
  holds (wheel st) m → step st a = Some (st', f) →
  holds (wheel st') (spec1 m a).1 ∧ Forall2 taken f (spec1 m a).2.
Proof.
  intros R E. unfold step in E.
  destruct a as [d|id|id|id e now now'| |now|now|p]; try (injection E as <- <-; split; [|constructor]).
  - done.
  - done.
  - by apply represents_unlink.
  - by apply Add_holds.
  - destruct (batch st); [done|]. unfold advance in E. injection E as <- <-.
    destruct (represents_advance _ _ _ R) as (tasks & Et & Hn & Hs & R'). cbn [spec1 fst snd].
    split; [done|]. constructor; [|constructor]. by rewrite Et.
  - destruct (batch st) as [[|id rest]|]; [done| |done]. injection E as <- <-. split; [|constructor].
    unfold holds. simpl. pose proof (submit_slots (wheel st) id now) as [-> ->]. done.
  - destruct (batch st) as [[|]|]; [|done..]. injection E as <- <-. split; [|constructor].
    unfold holds, cleanLastFired. simpl. by case_decide.
  - done.
Qed.

Lemma steps_holds l : ∀ st st' f m,
  holds (wheel st) m → steps st l = Some (st', f) →
  holds (wheel st') (spec m l).1 ∧ Forall2 taken f (spec m l).2.
Proof.
  induction l as [|a l IH]; intros st st' f m R E; cbn [steps spec] in *.
  { injection E as <- <-. eauto using Forall2_nil. }
  destruct (step st a) as [[st1 f1]|] eqn:E1; [|done]. cbn [mbind option_bind] in E.
  destruct (steps st1 l) as [[st2 f2]|] eqn:E2; [|done]. injection E as <- <-.
  destruct (step_holds _ _ _ _ _ R E1) as [R1 F1].
  destruct (spec1 m a) as [m1 d1]. destruct (IH _ _ _ _ R1 E2) as [R2 F2].
  simpl in *. destruct (spec m1 l) as [m2 d2]. simpl in *. auto using Forall2_app.
Qed.

Lemma new_holds cb opts : holds (NewTimingWheel cb opts) ∅.
Proof.
  split; [apply length_replicate|done|apply Forall_replicate; constructor|].
  intros id k. rewrite lookup_empty. split; [done|].
  intros (i & s & [-> _]%lookup_replicate & Hid & _). set_solver.
Qed.

Lemma documented1_eq m a : lapse m a = false → documented1 m a = spec1 m a.
Proof.
  destruct a as [| | |id e now now'| | | |]; try done. cbn. case_bool_decide; [by rewrite !decide_True by done|].
  case_bool_decide as Hs; [done|]. intros _. rewrite !decide_False by done. rewrite delete_id; [done|].
  by apply eq_None_not_Some.
Qed.

Lemma documented_eq l : ∀ m, lapses m l = false → documented m l = spec m l.
Proof.
  induction l as [|a l IH]; intros m; cbn [lapses documented spec]; [done|].
  intros [Ha Hl]%orb_false_iff. rewrite (documented1_eq _ _ Ha). destruct (spec1 m a) as [m1 d1]. cbn [fst] in Hl.
  by rewrite IH.
Qed.

(** C19 (refinement): the timing wheel under any interleaving of Add, Remove,
    Reschedule and ticks counts down a map from identifiers to ticks: an Add within
    the hour sets the number of ticks of its delay, in place of an earlier schedule,
    every tick takes exactly the identifiers with one tick left, each once, and brings
    the others one tick closer.  That is what the comments promise as long as no Add or
    Reschedule for a scheduled identifier has a deadline in the past or beyond the hour.
    One that has does not replace the schedule, against the comments on Add and
    Reschedule: the identifier keeps its old tick, which the second part states. *)
Theorem wheel_refines cb opts l st f :
  steps (initial cb opts) l = Some (st, f) →
  (lapses ∅ l = false → holds (wheel st) (documented ∅ l).1 ∧ Forall2 taken f (documented ∅ l).2) ∧
  holds (wheel st) (spec ∅ l).1 ∧ Forall2 taken f (spec ∅ l).2.
Proof.
  intros E. pose proof (steps_holds l (initial cb opts) st f ∅ (new_holds cb opts) E) as H. split; [|done].
  intros Hl. by rewrite documented_eq.
Qed.

Lemma wheel_refines_witness :
  ∃ st f, steps (initial true (Options 0 0 0)) [LAdd 7 (2 * Second) 0 0; LAdvance; LClean 1; LAdvance] = Some (st, f) ∧
  holds (wheel st) ∅ ∧ f = [[]; [7]].
Proof.
  eexists _, _. split; [vm_compute; reflexivity|]. split; [|reflexivity].
  refine (proj1 (proj1 (wheel_refines true (Options 0 0 0)
    [LAdd 7 (2 * Second) 0 0; LAdvance; LClean 1; LAdvance] _ _ _) _)); vm_compute; reflexivity.
Defined.

(** An identifier rescheduled to a time in the past: its callback is submitted at once,
    and it is taken again at its old deadline, which the comments exclude. *)
Example wheel_keeps_old :
  let tw := (Add (NewTimingWheel true (Options 0 0 0)) 7 (2 * Second) 0 0).1.1 in
  (Reschedule tw 7 0 1 1).2 = [7] ∧
  (advance (advance (Reschedule tw 7 0 1 1).1.1).1).2 = [7] ∧
  (documented ∅ [LAdd 7 (2 * Second) 0 0; LClear 7; LAdd 7 0 1 1; LAdvance; LAdvance]).2 = [∅; ∅].
Proof. vm_compute. auto. Qed.

(** ** Accuracy *)

Definition touches (id : Z) (a : label) : bool :=
  match a with
  | LUnlink id' | LAdd id' _ _ _ => bool_decide (id' = id)
  | _ => false
  end.

(** An identifier no step touches is taken when its count reaches zero, once. *)
Lemma spec_counts id l : ∀ m (k : Z),
  match m !! id with Some k' => 1 ≤ k' ∧ k = k' | None => k ≤ 0 end →
  forallb (λ a, negb (touches id a)) l = true →
  ∀ j d, (spec m l).2 !! j = Some d → id ∈ d ↔ Z.of_nat j + 1 = k.
Proof.
  induction l as [|a l IH]; intros m k Hm Hl j d; cbn [spec]; [done|].
  cbn [forallb] in Hl. apply andb_prop in Hl as [Ha Hl].
  assert (a = LAdvance ∨ ((spec1 m a).1 !! id = m !! id ∧ (spec1 m a).2 = [])) as [->|[E1 E2]].
  { destruct a as [| |id'|id' e now now'| | | |]; simpl in *; try (right; by split); [| |by left];
      apply negb_true_iff, bool_decide_eq_false in Ha; right; split; try done;
      repeat case_decide; by rewrite ?lookup_delete_ne, ?lookup_insert_ne by done. }
  2: { destruct (spec1 m a) as [m1 d1]. simpl in E1, E2. subst d1.
       destruct (spec m1 l) as [m2 d2] eqn:E. simpl. rewrite <-E1 in Hm.
       specialize (IH m1 k Hm Hl j d). by rewrite E in IH. }
  cbn [spec1]. set (m1 := (λ k, k - 1) <$> filter (λ p : Z * Z, p.2 ≠ 1) m).
  destruct (spec m1 l) as [m2 d2] eqn:E. cbn [snd app].
  assert (match m1 !! id with Some k' => 1 ≤ k' ∧ k - 1 = k' | None => k - 1 ≤ 0 end) as Hm1.
  { unfold m1. rewrite lookup_fmap. destruct (filter _ m !! id) as [k1|] eqn:Ef; simpl.
    - apply map_lookup_filter_Some in Ef as [Ek Hk]. rewrite Ek in Hm. simpl in Hk. lia.
    - destruct (m !! id) as [k1|] eqn:Ek; [|lia].
      apply map_lookup_filter_None in Ef as [Ef|Ef]; [congruence|]. specialize (Ef _ Ek). simpl in Ef. lia. }
  destruct j as [|j]; simpl.
  - intros [= <-]. rewrite elem_of_dom. split.
    + intros [k1 [Ek Hk]%map_lookup_filter_Some]. rewrite Ek in Hm. simpl in Hk. lia.
    + intros <-. destruct (m !! id) as [k1|] eqn:Ek; [|lia]. exists k1.
      apply map_lookup_filter_Some. split; [done|]. simpl. lia.
  - intros Hj. specialize (IH m1 (k - 1) Hm1 Hl j d). rewrite E in IH. rewrite (IH Hj). lia.
Qed.

(** C20 (bounds): an identifier added at time [t] with a deadline [e] within the
    hour, and not touched afterwards, is taken by exactly one later tick, the
    [slotsAhead (e - t)]-th; with ticks every second, the last one at [last] before
    the Add, that tick comes less than two seconds before the deadline and less
    than one second after it, and not after it when the delay is a second or more. *)
Theorem wheel_accuracy cb opts l0 st0 f0 id e t t' l st f last :
  steps (initial cb opts) l0 = Some (st0, f0) → 0 < e - t ≤ Hour →
  steps st0 (LAdd id e t t' :: l) = Some (st, f) →
  forallb (λ a, negb (touches id a)) l = true → last ≤ t < last + Second →
  let k := slotsAhead (e - t) in
  (∀ j b, f !! j = Some b → id ∈ b ↔ Z.of_nat j + 1 = k) ∧
  e - 2 * Second < last + k * Second < e + Second ∧
  (Second ≤ e - t → last + k * Second ≤ e).
Proof.
  intros E0 Hd E Hl Hlast k.
  assert (time_sub e t = e - t) as Ets
    by (unfold time_sub, minDuration, maxDuration, Hour, Minute, Second, Millisecond in *; lia).
  pose proof (slotsAhead_range _ Hd) as Hk. split.
  - destruct (steps_holds l0 (initial cb opts) st0 f0 ∅ (new_holds cb opts) E0) as [R0 _].
    destruct (steps_holds _ _ _ _ _ R0 E) as [_ F]. cbn [spec spec1] in F.
    rewrite Ets, decide_True in F by done. fold k in F, Hk.
    intros j b Hb. destruct (Forall2_lookup_l _ _ _ _ _ F Hb) as (d & Hdl & _ & Hset).
    rewrite <-(spec_counts id l (<[id := k]> (spec ∅ l0).1) k) with (j := j) (d := d);
      [by rewrite <-Hset, elem_of_list_to_set|by rewrite lookup_insert_eq; lia|done|].
    by destruct (spec (<[id := k]> (spec ∅ l0).1) l) as [m2 d2].
  - revert Hd Hlast. subst k. clear Ets Hk. unfold slotsAhead, Hour, Minute, Second, Millisecond.
    intros Hd Hlast. rewrite decide_False by lia. case_decide; div_lia.
Qed.

Lemma wheel_accuracy_witness :
  let e := 3 * Second / 2 in
  steps (initial true (Options 0 0 0)) [] = Some (initial true (Options 0 0 0), []) ∧ 0 < e - 5 ≤ Hour ∧
  e - 2 * Second < 0 + slotsAhead (e - 5) * Second < e + Second.
Proof.
  intros e. split; [reflexivity|]. split; [vm_compute; split; congruence|].
  refine (proj1 (proj2 (wheel_accuracy true (Options 0 0 0) [] (initial true (Options 0 0 0)) [] 7 e 5 5
    [LAdvance] _ [[7]] 0 eq_refl _ _ eq_refl _)));
    [vm_compute; split; congruence|vm_compute; reflexivity|vm_compute; split; congruence].
Defined.

End TimingWheel.
