(* ===== verification/Engine.v ===== *)
(** * The timer engine (src/timer/engine/engine.go)

    The engine keeps timers that are close in memory, in a scheduler ([Timer]) and
    two maps, and all of them in a persistent queue ([Queue]); a promotion loop
    moves timers from the queue to memory.  A goroutine is the list of critical
    sections it still has to run ([cont]); goroutines interleave at them. *)

From stdpp Require Import sorting.
From S2P Require Import Prelude IdGen Heap Timer DelayQueue.

Module Engine.
Export Timer.
Notation count f l := (sum_list_with f l).

(** The persistence contract: every operation may change the store or fail.  The
    last argument of an operation that reads the clock is the reading. *)
Class Queue (S T E : Type) := {
  q_Add : S → T → S * option E;
  q_Remove : S → Z → Z → S * option E;
  q_LoadAllInWindow : S → Z → Z → S * result E (list T);
  q_ClaimForProcessing : S → Z → Z → Z → Z → Z → S * result E bool;
  q_CompleteProcessing : S → Z → Z → Z → S * result E bool;
  q_RequeueExpiredProcessing : S → Z → S * result E Z;
}.

Record Accessor (T : Type) := Access {
  TaskID : T → Z;
  TimerID : T → Z;
  DueTimeMs : T → Z;
  UID : T → Z;
}.
Arguments Access {T}.
Arguments TaskID {T}.
Arguments TimerID {T}.
Arguments DueTimeMs {T}.
Arguments UID {T}.

Definition ModeClaimProcess : Z := 0.

Definition defaultHotWindow : Z := 30 * Minute.
Definition defaultProcessingLease : Z := 10 * Second.

Section engine.
Context {T S E Q : Type} `{Timer Q, Queue S T E}.

(** [fireSubmit] tells whether SetFireSubmit was called. *)
Record Engine := Eng {
  hotWindow : Z;
  idGen : IdGen.IDGenerator;
  inMem : gmap Z T;
  byTask : gmap Z Z;
  queue : option S;
  accessor : Accessor T;
  mode : Z;
  owner : Z;
  processingLease : Z;
  delayQ : Q;
  fireSubmit : bool;
}.

Definition New (q : option S) (mode owner lease hot : Z) (gen : option IdGen.IDGenerator)
    (acc : Accessor T) (newQ : Q) : Engine :=
  Eng (if decide (hot ≤ 0) then defaultHotWindow else hot)
      (default (IdGen.NewIDGenerator 0) gen) ∅ ∅ q acc mode owner
      (if decide (lease ≤ 0) then defaultProcessingLease else lease) newQ false.

Definition set_maps (e : Engine) (im : gmap Z T) (bt : gmap Z Z) : Engine :=
  Eng (hotWindow e) (idGen e) im bt (queue e) (accessor e) (mode e) (owner e)
      (processingLease e) (delayQ e) (fireSubmit e).
Definition set_queue (e : Engine) (s : S) : Engine :=
  Eng (hotWindow e) (idGen e) (inMem e) (byTask e) (Some s) (accessor e) (mode e) (owner e)
      (processingLease e) (delayQ e) (fireSubmit e).
Definition set_delayQ (e : Engine) (q : Q) : Engine :=
  Eng (hotWindow e) (idGen e) (inMem e) (byTask e) (queue e) (accessor e) (mode e) (owner e)
      (processingLease e) q (fireSubmit e).
Definition set_idGen (e : Engine) (g : IdGen.IDGenerator) : Engine :=
  Eng (hotWindow e) g (inMem e) (byTask e) (queue e) (accessor e) (mode e) (owner e)
      (processingLease e) (delayQ e) (fireSubmit e).
Definition SetFireSubmit (e : Engine) : Engine :=
  Eng (hotWindow e) (idGen e) (inMem e) (byTask e) (queue e) (accessor e) (mode e) (owner e)
      (processingLease e) (delayQ e) true.

Definition UnixMilli (ms : Z) : Z := ms * Millisecond.

(** The second reading of the clock is the generator's. *)
Definition EnsureTimerID (e : Engine) (taskID : Z) (clock : list Z) :
    option (result IdGen.error Z * Engine * list Z) :=
  let timerID := default 0 (byTask e !! taskID) in
  if decide (timerID ≠ 0) then Some (Ok timerID, e, clock)
  else '(r, g, c) ← IdGen.Next (idGen e) clock; Some (r, set_idGen e g, c).

Definition inHotWindow (e : Engine) (dueMs now : Z) : bool :=
  match queue e with
  | None => true
  | Some _ => bool_decide (time_sub (UnixMilli dueMs) now ≤ hotWindow e)
  end.

Definition forgetTask (e : Engine) (taskID : Z) : Engine * Z :=
  let timerID := default 0 (byTask e !! taskID) in
  (set_maps e (if decide (timerID ≠ 0) then delete timerID (inMem e) else inMem e)
            (delete taskID (byTask e)), timerID).

(** The interval of promotionLoop's ticker. *)
Definition promotionInterval (hot : Z) : Z :=
  let interval := hot / 10 in
  let interval := if decide (interval < 30 * Second) then 30 * Second else interval in
  if decide (interval > Minute) then Minute else interval.

(** What a goroutine still has to do. *)
Inductive cont :=
  | KAdd (task : T) | KAddMaps (task : T) (hot : bool) | KDelayAdd (timerID at_ : Z)
  | KReschedule (task : T) | KRescheduleHot (task : T) | KDelayReschedule (timerID at_ : Z)
  | KRescheduleCold (task : T) | KRescheduleColdMaps (task : T)
  | KCancel (uid taskID : Z) | KCancelDelay (timerID uid taskID : Z) | KCancelQueue (uid taskID : Z)
  | KForget (taskID : Z)
  | KRestore | KPromoteFromRedis | KPromoteLoad
  | KPromoteRecords (records : list T)
  | KPromote (records : list T) (now : Z) | KPromoteAdd (timerID at_ : Z) (rest : list T) (now : Z)
  | KFire (timerID : Z) | KSubmit (timerID : Z) (task : T) (uid : Z)
  | KDoFire (timerID : Z) (task : T) (uid : Z) | KHandle (timerID : Z) (task : T) (uid : Z)
  | KComplete (timerID uid : Z).

(** What can be observed: a record taken out of memory to fire, a claim granted,
    and a call of the handler. *)
Inductive event := EFire (timerID : Z) (task : T) | EClaim (timerID : Z) (task : T) | EHandle (timerID : Z) (task : T).

Definition outcome : Type := option (Engine * list cont * list event).
Definition done (e : Engine) : outcome := Some (e, [], []).
Definition next (e : Engine) (k : cont) : outcome := Some (e, [k], []).

(** Engine.Add. *)
Definition Add (e : Engine) (task : T) (now : Z) : outcome :=
  let go e := next e (KAddMaps task (inHotWindow e (DueTimeMs (accessor e) task) now)) in
  match queue e with
  | None => go e
  | Some s =>
      match q_Add s task with
      | (s', Some _) => done (set_queue e s')
      | (s', None) => go (set_queue e s')
      end
  end.

Definition AddMaps (e : Engine) (task : T) (hot : bool) : outcome :=
  let timerID := TimerID (accessor e) task in
  let bt := <[TaskID (accessor e) task := timerID]> (byTask e) in
  if hot then
    next (set_maps e (<[timerID := task]> (inMem e)) bt)
         (KDelayAdd timerID (UnixMilli (DueTimeMs (accessor e) task)))
  else done (set_maps e (inMem e) bt).

Definition DelayAdd (e : Engine) (timerID at_ : Z) : outcome :=
  q ← t_Add (delayQ e) timerID at_; done (set_delayQ e q).

(** Engine.Reschedule. *)
Definition Reschedule (e : Engine) (task : T) (now : Z) : outcome :=
  let go e := next e (if inHotWindow e (DueTimeMs (accessor e) task) now
                      then KRescheduleHot task else KRescheduleCold task) in
  match queue e with
  | None => go e
  | Some s =>
      match q_Add s task with
      | (s', Some _) => done (set_queue e s')
      | (s', None) => go (set_queue e s')
      end
  end.

Definition RescheduleHot (e : Engine) (task : T) : outcome :=
  let timerID := TimerID (accessor e) task in
  next (set_maps e (<[timerID := task]> (inMem e)) (<[TaskID (accessor e) task := timerID]> (byTask e)))
       (KDelayReschedule timerID (UnixMilli (DueTimeMs (accessor e) task))).

Definition DelayReschedule (e : Engine) (timerID at_ : Z) : outcome :=
  q ← t_Reschedule (delayQ e) timerID at_; done (set_delayQ e q).

Definition RescheduleCold (e : Engine) (task : T) : outcome :=
  q ← t_Remove (delayQ e) (TimerID (accessor e) task); next (set_delayQ e q) (KRescheduleColdMaps task).

Definition RescheduleColdMaps (e : Engine) (task : T) : outcome :=
  let timerID := TimerID (accessor e) task in
  done (set_maps e (delete timerID (inMem e)) (<[TaskID (accessor e) task := timerID]> (byTask e))).

(** Engine.Cancel. *)
Definition Cancel (e : Engine) (uid taskID : Z) : outcome :=
  let timerID := (forgetTask e taskID).2 in
  next (forgetTask e taskID).1 (if decide (timerID ≠ 0) then KCancelDelay timerID uid taskID else KCancelQueue uid taskID).

Definition CancelDelay (e : Engine) (timerID uid taskID : Z) : outcome :=
  q ← t_Remove (delayQ e) timerID; next (set_delayQ e q) (KCancelQueue uid taskID).

Definition CancelQueue (e : Engine) (uid taskID : Z) : outcome :=
  match queue e with
  | None => done e
  | Some s => done (set_queue e (q_Remove s uid taskID).1)
  end.

Definition Forget (e : Engine) (taskID : Z) : outcome := done (forgetTask e taskID).1.

(** Engine.RestoreHotZone, and the second half of promoteFromRedis. *)
Definition RestoreHotZone (e : Engine) (now : Z) : outcome :=
  match queue e with
  | None => done e
  | Some s =>
      match q_LoadAllInWindow s (hotWindow e) now with
      | (s', Err _) => done (set_queue e s')
      | (s', Ok records) => next (set_queue e s') (KPromoteRecords records)
      end
  end.

Definition promoteFromRedis (e : Engine) (now : Z) : outcome :=
  match queue e with
  | Some s =>
      next (if decide (mode e = ModeClaimProcess)
            then set_queue e (q_RequeueExpiredProcessing s now).1 else e) KPromoteLoad
  | None => None
  end.

(** One iteration of promoteRecords. *)
Definition promoteRecord (e : Engine) (rec : T) (rest : list T) (now : Z) : outcome :=
  let timerID := TimerID (accessor e) rec in
  if decide (timerID = 0) then next e (KPromote rest now)
  else
    let taskID := TaskID (accessor e) rec in
    match byTask e !! taskID with
    | Some _ => next e (KPromote rest now)
    | None =>
        let e1 := set_maps e (<[timerID := rec]> (inMem e)) (<[taskID := timerID]> (byTask e)) in
        let at_ := UnixMilli (DueTimeMs (accessor e) rec) in
        if decide (at_ < now) then Some (e1, [KFire timerID; KPromote rest now], [])
        else next e1 (KPromoteAdd timerID at_ rest now)
    end.

Definition promoteAdd (e : Engine) (timerID at_ : Z) (rest : list T) (now : Z) : outcome :=
  q ← t_Add (delayQ e) timerID at_; next (set_delayQ e q) (KPromote rest now).

(** Engine.onDelayTimerFire. *)
Definition onDelayTimerFire (e : Engine) (timerID : Z) : outcome :=
  match inMem e !! timerID with
  | None => done e
  | Some task =>
      let taskID := TaskID (accessor e) task in
      let uid := UID (accessor e) task in
      let e1 := set_maps e (delete timerID (inMem e)) (delete taskID (byTask e)) in
      Some (e1, [if fireSubmit e then KSubmit timerID task uid else KDoFire timerID task uid],
            [EFire timerID task])
  end.

(** The owner accepts the record and calls HandleSubmittedFire, or refuses it. *)
Definition submit (e : Engine) (timerID : Z) (task : T) (uid : Z) (accepted : bool) : outcome :=
  if accepted then next e (KDoFire timerID task uid) else done e.

(** Engine.doFire: the claim, the handler, the completion. *)
Definition doFire (e : Engine) (timerID : Z) (task : T) (uid now : Z) : outcome :=
  if decide (mode e = ModeClaimProcess) then
    match queue e with
    | None => next e (KHandle timerID task uid)
    | Some s =>
        match q_ClaimForProcessing s uid timerID (owner e) (processingLease e) now with
        | (s', Ok true) => Some (set_queue e s', [KHandle timerID task uid], [EClaim timerID task])
        | (s', _) => done (set_queue e s')
        end
    end
  else done e.

Definition handle (e : Engine) (timerID : Z) (task : T) (uid : Z) : outcome :=
  Some (e, match queue e with None => [] | Some _ => [KComplete timerID uid] end, [EHandle timerID task]).

Definition complete (e : Engine) (timerID uid : Z) : outcome :=
  match queue e with
  | None => done e
  | Some s => done (set_queue e (q_CompleteProcessing s uid timerID (owner e)).1)
  end.

(** The next critical section of a goroutine. *)
Definition resume (e : Engine) (k : cont) (now : Z) (accepted : bool) : outcome :=
  match k with
  | KAdd task => Add e task now
  | KAddMaps task hot => AddMaps e task hot
  | KDelayAdd timerID at_ => DelayAdd e timerID at_
  | KReschedule task => Reschedule e task now
  | KRescheduleHot task => RescheduleHot e task
  | KDelayReschedule timerID at_ => DelayReschedule e timerID at_
  | KRescheduleCold task => RescheduleCold e task
  | KRescheduleColdMaps task => RescheduleColdMaps e task
  | KCancel uid taskID => Cancel e uid taskID
  | KCancelDelay timerID uid taskID => CancelDelay e timerID uid taskID
  | KCancelQueue uid taskID => CancelQueue e uid taskID
  | KForget taskID => Forget e taskID
  | KRestore | KPromoteLoad => RestoreHotZone e now
  | KPromoteFromRedis => promoteFromRedis e now
  | KPromoteRecords records => next e (KPromote records now)
  | KPromote [] _ => done e
  | KPromote (rec :: rest) now' => promoteRecord e rec rest now'
  | KPromoteAdd timerID at_ rest now' => promoteAdd e timerID at_ rest now'
  | KFire timerID => onDelayTimerFire e timerID
  | KSubmit timerID task uid => submit e timerID task uid accepted
  | KDoFire timerID task uid => doFire e timerID task uid now
  | KHandle timerID task uid => handle e timerID task uid
  | KComplete timerID uid => complete e timerID uid
  end.

(** The calls a client or the promotion loop starts. *)
Definition entry (k : cont) : bool :=
  match k with
  | KAdd _ | KReschedule _ | KCancel _ _ | KForget _ | KRestore | KPromoteFromRedis => true
  | _ => false
  end.

Record state := State { engine : Engine; pending : list cont }.

(** A call starts; goroutine [i] runs its next critical section; the scheduler
    ticks and starts one goroutine for each timer it fires. *)
Inductive label := LCall (k : cont) | LRun (i : nat) (now : Z) (accepted : bool) | LTick (now : Z).

Definition step (st : state) (a : label) : option (state * list event) :=
  match a with
  | LCall k => if entry k then Some (State (engine st) (pending st ++ [k]), []) else None
  | LRun i now accepted =>
      k ← pending st !! i;
      '(e, ks, evs) ← resume (engine st) k now accepted;
      Some (State e (delete i (pending st) ++ ks), evs)
  | LTick now =>
      '(q, fired) ← t_tick (delayQ (engine st)) now;
      Some (State (set_delayQ (engine st) q) (pending st ++ (KFire <$> fired)), [])
  end.

Fixpoint steps (st : state) (l : list label) : option (state * list event) :=
  match l with
  | [] => Some (st, [])
  | a :: l => '(st1, ev1) ← step st a; '(st2, ev2) ← steps st1 l; Some (st2, ev1 ++ ev2)
  end.

(** ** Undisturbed timers *)

(** The sections of other calls about timer [t] or its task [k]: they change its
    record, cancel it or give it a deadline other than [at_]; or they promote another
    task under the same timer identifier. *)
Definition disturbs (acc : Accessor T) (t k at_ : Z) (c : cont) : bool :=
  match c with
  | KDelayAdd t' a | KDelayReschedule t' a | KPromoteAdd t' a _ _ =>
      bool_decide (t' = t ∧ a ≠ at_)
  | KAddMaps task _ | KRescheduleHot task | KRescheduleCold task | KRescheduleColdMaps task =>
      bool_decide (TimerID acc task = t ∨ TaskID acc task = k)
  | KCancel _ k' | KForget k' => bool_decide (k' = k)
  | KCancelDelay t' _ _ => bool_decide (t' = t)
  | KPromote (rec :: _) _ => bool_decide (TimerID acc rec = t ∧ TaskID acc rec ≠ k)
  | _ => false
  end.

Fixpoint calm (t k at_ : Z) (st : state) (l : list label) : bool :=
  match l with
  | [] => true
  | a :: l =>
      negb match a with
           | LRun i _ _ => if pending st !! i is Some c then disturbs (accessor (engine st)) t k at_ c else false
           | _ => false
           end &&
      match step st a with Some (st1, _) => calm t k at_ st1 l | None => true end
  end.

(** Timer [t] belongs to task [k] and to no other, with record [o] in memory. *)
Record tracked (acc : Accessor T) (im : gmap Z T) (bt : gmap Z Z) (t k : Z) (o : option T) : Prop := {
  tr_task : bt !! k = Some t;
  tr_mem : im !! t = o;
  tr_only k' : bt !! k' = Some t → k' = k;
  tr_uniq t' r : im !! t' = Some r → TaskID acc r = k → t' = t;
}.

Definition tracks (e : Engine) : Z → Z → option T → Prop := tracked (accessor e) (inMem e) (byTask e).

(** A record of another task under another timer. *)
Lemma tracked_insert acc im bt t k o t' r :
  tracked acc im bt t k o → t' ≠ t → TaskID acc r ≠ k →
  tracked acc (<[t' := r]> im) (<[TaskID acc r := t']> bt) t k o.
Proof.
  intros [H1 H2 H3 H4] Ht Hk. split.
  - by rewrite lookup_insert_ne.
  - by rewrite lookup_insert_ne.
  - intros k'. rewrite lookup_insert_Some. naive_solver.
  - intros t0 r0. rewrite lookup_insert_Some. naive_solver.
Qed.

Lemma tracked_bind acc im bt t k o t' k' :
  tracked acc im bt t k o → t' ≠ t → k' ≠ k → tracked acc im (<[k' := t']> bt) t k o.
Proof.
  intros [H1 H2 H3 H4] Ht Hk. split; [by rewrite lookup_insert_ne|done| |done].
  intros k0. rewrite lookup_insert_Some. naive_solver.
Qed.

Lemma tracked_unbind acc im bt t k o k' :
  tracked acc im bt t k o → k' ≠ k → tracked acc im (delete k' bt) t k o.
Proof.
  intros [H1 H2 H3 H4] Hk. split; [by rewrite lookup_delete_ne|done| |done].
  intros k0. rewrite lookup_delete_Some. naive_solver.
Qed.

Lemma tracked_drop acc im bt t k o t' :
  tracked acc im bt t k o → t' ≠ t → tracked acc (delete t' im) bt t k o.
Proof.
  intros [H1 H2 H3 H4] Ht. split; [done|by rewrite lookup_delete_ne|done|].
  intros t0 r0. rewrite lookup_delete_Some. naive_solver.
Qed.

Lemma forget_tracks e t k o k' : tracks e t k o → k' ≠ k → tracks (forgetTask e k').1 t k o.
Proof.
  intros Hi Hk. unfold forgetTask, tracks. simpl. case_decide as Ht.
  - apply tracked_unbind; [|done]. apply tracked_drop; [done|]. intros Et.
    apply Hk, (tr_only _ _ _ _ _ _ Hi). destruct (byTask e !! k') as [t'|]; simpl in *; congruence.
  - by apply tracked_unbind.
Qed.

Lemma fire_tracks e t k o t' r :
  tracks e t k o → inMem e !! t' = Some r → KFire t' ≠ KFire t ∨ o = None →
  tracked (accessor e) (delete t' (inMem e)) (delete (TaskID (accessor e) r) (byTask e)) t k o.
Proof.
  intros Hi Hr Hf. assert (t' ≠ t) as Ht.
  { intros ->. pose proof (tr_mem _ _ _ _ _ _ Hi). destruct Hf; congruence. }
  apply tracked_unbind; [by apply tracked_drop|]. intros Hk. by apply Ht, (tr_uniq _ _ _ _ _ _ Hi _ r).
Qed.

Ltac unfold_sections H :=
  unfold Add, AddMaps, DelayAdd, Reschedule, RescheduleHot, DelayReschedule, RescheduleCold, RescheduleColdMaps,
    Cancel, CancelDelay, CancelQueue, Forget, RestoreHotZone, promoteFromRedis, promoteRecord, promoteAdd,
    onDelayTimerFire, submit, doFire, handle, complete, next, done in H.

(** Every section that does not disturb the timer and is not its firing keeps it. *)
Lemma resume_tracks e c now ok e' ks evs t k at_ o :
  tracks e t k o → disturbs (accessor e) t k at_ c = false → c ≠ KFire t ∨ o = None →
  resume e c now ok = Some (e', ks, evs) → tracks e' t k o ∧ accessor e' = accessor e.
Proof.
  intros Hi Hc Hf HE.
  destruct c as [task|task hot|t' a|task|task|t' a|task|task|uid k'|t' uid k'|uid k'|k'| | | |rs|[|rec rs] n|t' a rs n|t'|t' r u|t' r u|t' r u|t' u];
    simpl in Hc, HE; try apply bool_decide_eq_false in Hc; unfold_sections HE;
    try apply bind_Some in HE as (q & Eq & HE); repeat case_match; simplify_eq/=; try done; split; try done;
    try (apply tracked_insert; tauto); try (by apply (forget_tracks e)).
  - apply tracked_bind; tauto.
  - apply tracked_bind; [apply tracked_drop|..]; tauto.
  - apply tracked_insert; [done| |]; pose proof (tr_task _ _ _ _ _ _ Hi); destruct (decide (TaskID (accessor e) rec = k)); naive_solver.
  - apply tracked_insert; [done| |]; pose proof (tr_task _ _ _ _ _ _ Hi); destruct (decide (TaskID (accessor e) rec = k)); naive_solver.
  - by apply (fire_tracks e).
  - by apply (fire_tracks e).
Qed.

(** A record fires only from memory, by its own goroutine. *)
Lemma resume_fires e c now ok e' ks evs t r :
  resume e c now ok = Some (e', ks, evs) → EFire t r ∈ evs → c = KFire t ∧ inMem e !! t = Some r.
Proof.
  intros HE Hin.
  destruct c as [task|task hot|t' a|task|task|t' a|task|task|uid k'|t' uid k'|uid k'|k'| | | |rs|[|rec rs] n|t' a rs n|t'|t' r' u|t' r' u|t' r' u|t' u];
    simpl in HE; unfold_sections HE;
    try apply bind_Some in HE as (q & Eq & HE); repeat case_match; simplify_eq/=; try (exfalso; set_solver); set_solver.
Qed.

Context {laws : TimerLaws Q} {nodedup : NoDedup Q}.

(** The scheduler is in order and keeps timers a section does not cancel. *)
Definition sound (q : Q) : Prop := t_wf q ∧ off q.

Lemma sound_exec1 q o : sound q → ∃ q' f,
  exec1 q o = Some (q', f) ∧ sound q' ∧ t_schedule q' = (spec1 (t_schedule q) o).1 ∧
  Forall2 fires f (spec1 (t_schedule q) o).2.
Proof.
  intros [W O]. destruct (exec_spec [o] q W O) as (q' & f & HE & W' & HS & HF). cbn [exec spec] in *.
  destruct (exec1 q o) as [[q1 f1]|] eqn:H1; [|done]. cbn [mbind option_bind] in HE. injection HE as <- <-.
  destruct (spec1 (t_schedule q) o) as [m d]. simpl in *. rewrite !app_nil_r in HF.
  exists q1, f1. split_and!; [done|split; [done|exact (off_exec1 q o q1 f1 W O H1)]|done..].
Qed.

Lemma sound_add q id a q' :
  sound q → t_Add q id a = Some q' → sound q' ∧ t_schedule q' = <[id := a]> (t_schedule q).
Proof. intros Hs Hq. destruct (sound_exec1 q (OAdd id a) Hs) as (x & f & HE & ? & ? & _). simpl in *. rewrite Hq in HE. by simplify_eq/=. Qed.

Lemma sound_reschedule q id a q' :
  sound q → t_Reschedule q id a = Some q' → sound q' ∧ t_schedule q' = <[id := a]> (t_schedule q).
Proof. intros Hs Hq. destruct (sound_exec1 q (OReschedule id a) Hs) as (x & f & HE & ? & ? & _). simpl in *. rewrite Hq in HE. by simplify_eq/=. Qed.

Lemma sound_remove q id q' :
  sound q → t_Remove q id = Some q' → sound q' ∧ t_schedule q' = delete id (t_schedule q).
Proof. intros Hs Hq. destruct (sound_exec1 q (ORemove id) Hs) as (x & f & HE & ? & ? & _). simpl in *. rewrite Hq in HE. by simplify_eq/=. Qed.

(** What a tick fires: the timers that are due. *)
Lemma sound_tick q now :
  sound q → ∃ q' fired, t_tick q now = Some (q', fired) ∧ sound q' ∧
  (∀ t, t ∈ fired ↔ ∃ a, t_schedule q !! t = Some a ∧ a ≤ now) ∧
  (∀ t a, t_schedule q' !! t = Some a ↔ t_schedule q !! t = Some a ∧ now < a).
Proof.
  intros Hs. destruct (sound_exec1 q (OTick now) Hs) as (q' & f & HE & Hs' & HS & HF). simpl in *.
  apply bind_Some in HE as ([q1 f1] & Hq & HE). simplify_eq/=. exists q', f1. split_and!; [done..| |].
  - intros t. inversion HF as [|? ? ? ? (_ & Hset & _) _]. subst.
    rewrite <-(elem_of_list_to_set (C := gset Z)), Hset, elem_of_dom. unfold is_Some.
    by setoid_rewrite map_lookup_filter_Some.
  - intros t a. rewrite HS. by rewrite map_lookup_filter_Some.
Qed.

(** The scheduler has [t] for [at_], or the section of Add that puts it there is
    still to run. *)
Definition scheduled (q : Q) (ks : list cont) (t at_ : Z) : Prop :=
  t_schedule q !! t = Some at_ ∨ KDelayAdd t at_ ∈ ks.

Lemma insert_at (m : gmap Z Z) t' a t at_ :
  ¬ (t' = t ∧ a ≠ at_) → m !! t = Some at_ → <[t' := a]> m !! t = Some at_.
Proof.
  intros Hc Hm. destruct (decide (t' = t)) as [->|]; [|by rewrite lookup_insert_ne].
  rewrite lookup_insert_eq. f_equal. destruct (decide (a = at_)); tauto.
Qed.

Lemma insert_only (m : gmap Z Z) t' a t at_ b :
  ¬ (t' = t ∧ a ≠ at_) → (∀ b, m !! t = Some b → b = at_) → <[t' := a]> m !! t = Some b → b = at_.
Proof.
  intros Hc Hm. rewrite lookup_insert_Some. intros [[-> ->]|[_ Hb]]; [|auto].
  destruct (decide (b = at_)); tauto.
Qed.

Lemma resume_sound e c now ok e' ks evs t k at_ :
  sound (delayQ e) → disturbs (accessor e) t k at_ c = false → resume e c now ok = Some (e', ks, evs) →
  sound (delayQ e') ∧ (t_schedule (delayQ e) !! t = Some at_ → t_schedule (delayQ e') !! t = Some at_) ∧
  (c = KDelayAdd t at_ → t_schedule (delayQ e') !! t = Some at_).
Proof.
  intros Hs Hc HE.
  destruct c as [task|task hot|t' a|task|task|t' a|task|task|uid k'|t' uid k'|uid k'|k'| | | |rs|[|rec rs] n|t' a rs n|t'|t' r u|t' r u|t' r u|t' u];
    simpl in Hc, HE; try apply bool_decide_eq_false in Hc; unfold_sections HE;
    try apply bind_Some in HE as (q & Eq & HE); repeat case_match; simplify_eq/=; try done.
  - apply sound_add in Eq as [? ->]; [|done]. split_and!; [done|by apply insert_at|].
    intros [= -> ->]. by rewrite lookup_insert_eq.
  - apply sound_reschedule in Eq as [? ->]; [|done]. split_and!; [done|by apply insert_at|done].
  - apply sound_remove in Eq as [? ->]; [|done]. split_and!; [done| |done]. rewrite lookup_delete_Some. tauto.
  - apply sound_remove in Eq as [? ->]; [|done]. split_and!; [done| |done]. rewrite lookup_delete_Some. tauto.
  - apply sound_add in Eq as [? ->]; [|done]. split_and!; [done|by apply insert_at|done].
Qed.

(** ** Timers that are registered fire *)

Record registered (st : state) (t k at_ : Z) (r : T) : Prop := {
  rg_tracks : tracks (engine st) t k (Some r);
  rg_sound : sound (delayQ (engine st));
  rg_alive : scheduled (delayQ (engine st)) (pending st) t at_ ∨ KFire t ∈ pending st;
}.

Lemma elem_of_delete_ne {A} (l : list A) i x y : x ∈ l → l !! i = Some y → y ≠ x → x ∈ delete i l.
Proof.
  intros Hx Hy Hne. apply delete_Permutation in Hy. rewrite Hy in Hx.
  apply elem_of_cons in Hx as [->|Hx]; done.
Qed.

Lemma elem_of_delete_1 {A} (l : list A) i x : x ∈ delete i l → x ∈ l.
Proof.
  intros Hx. eapply elem_of_submseteq; [exact Hx|]. apply sublist_submseteq, sublist_delete.
Qed.

Lemma is_fire c t : c = KFire t ∨ c ≠ KFire t.
Proof. destruct c as [| | | | | | | | | | | | | | | | | |t'| | | |]; try (by right). destruct (decide (t' = t)); [left|right]; congruence. Qed.

Lemma is_delayAdd c t a : c = KDelayAdd t a ∨ c ≠ KDelayAdd t a.
Proof.
  destruct c as [| |t' a'| | | | | | | | | | | | | | | | | | | |]; try (by right).
  destruct (decide (t' = t ∧ a' = a)) as [[-> ->]|]; [by left|right; naive_solver].
Qed.

(** A section that does not disturb the timer keeps it scheduled. *)
Lemma resume_scheduled st i c now ok e ks evs t k at_ :
  sound (delayQ (engine st)) → disturbs (accessor (engine st)) t k at_ c = false →
  pending st !! i = Some c → resume (engine st) c now ok = Some (e, ks, evs) →
  scheduled (delayQ (engine st)) (pending st) t at_ →
  scheduled (delayQ e) (delete i (pending st) ++ ks) t at_.
Proof.
  intros Hs Hc Hi HR Ha. destruct (resume_sound _ _ _ _ _ _ _ _ _ _ Hs Hc HR) as (_ & H1 & H2).
  destruct Ha as [Ha|Ha]; [left; auto|]. destruct (is_delayAdd c t at_) as [->|Hne]; [left; auto|].
  right. apply elem_of_app. left. by eapply elem_of_delete_ne.
Qed.

Lemma step_registered st a st' evs t k at_ r :
  registered st t k at_ r → calm t k at_ st [a] = true → step st a = Some (st', evs) →
  EFire t r ∈ evs ∨ registered st' t k at_ r.
Proof.
  intros [Ht Hs Ha] Hc HE. cbn [calm] in Hc. apply andb_prop in Hc as [Hc _]. apply negb_true_iff in Hc.
  destruct a as [c|i now ok|now]; simpl in HE.
  - destruct (entry c); [|done]. injection HE as <- <-. right. split; [done..|]. unfold scheduled in *. simpl. set_solver.
  - destruct (pending st !! i) as [c|] eqn:Hi; [|done]. simpl in HE.
    destruct (resume (engine st) c now ok) as [[[e ks] ev]|] eqn:HR; [|done]. injection HE as <- <-.
    destruct (is_fire c t) as [->|Hne].
    + left. simpl in HR. unfold onDelayTimerFire in HR. rewrite (tr_mem _ _ _ _ _ _ Ht) in HR.
      injection HR as <- <- <-. set_solver.
    + right. destruct (resume_tracks _ _ _ _ _ _ _ _ _ _ _ Ht Hc (or_introl Hne) HR) as [Ht' _].
      destruct (resume_sound _ _ _ _ _ _ _ _ _ _ Hs Hc HR) as [Hs' _].
      split; [done..|]. destruct Ha as [Ha|Ha]; [left; by eapply resume_scheduled|]. right.
      apply elem_of_app. left. by eapply elem_of_delete_ne.
  - destruct (sound_tick _ now Hs) as (q & fired & Hq & Hs' & Hdue & Hkeep). rewrite Hq in HE.
    injection HE as <- <-. right. split; [done..|]. unfold scheduled in *. cbn [engine pending delayQ set_delayQ].
    destruct Ha as [[Ha|Ha]|Ha]; [|set_solver..].
    destruct (decide (at_ ≤ now)); [right|left; left; apply Hkeep; split; [done|lia]].
    apply elem_of_app. right. apply list_elem_of_fmap. exists t. split; [done|]. apply Hdue. eauto.
Qed.

Lemma steps_registered l t k at_ r : ∀ st st' evs,
  registered st t k at_ r → calm t k at_ st l = true → steps st l = Some (st', evs) →
  EFire t r ∈ evs ∨ registered st' t k at_ r.
Proof.
  induction l as [|a l IH]; intros st st' evs Hr Hc HE; cbn [steps calm] in *.
  { injection HE as <- <-. by right. }
  destruct (step st a) as [[st1 ev1]|] eqn:H1; [|done]. cbn [mbind option_bind] in HE.
  destruct (steps st1 l) as [[st2 ev2]|] eqn:H2; [|done]. injection HE as <- <-.
  apply andb_prop in Hc as [Hc1 Hc2].
  destruct (step_registered st a st1 ev1 t k at_ r Hr) as [Hin|Hr1]; [|done|set_solver|].
  { cbn [calm]. rewrite Hc1, H1. done. }
  destruct (IH _ _ _ Hr1 Hc2 H2); [set_solver|by right].
Qed.

(** A registered timer fires at any tick from its deadline on. *)
Lemma registered_fires st t k at_ r :
  registered st t k at_ r → KDelayAdd t at_ ∉ pending st → ∀ now, at_ ≤ now →
  ∃ i st' evs, steps st [LTick now; LRun i now true] = Some (st', evs) ∧ EFire t r ∈ evs.
Proof.
  intros [Ht Hs Ha] Hret now Hle. destruct (sound_tick _ now Hs) as (q & fired & Hq & _ & Hdue & _).
  assert (KFire t ∈ pending st ++ (KFire <$> fired)) as Hin.
  { apply elem_of_app. destruct Ha as [[Ha|Ha]|Ha]; [|done|by left]. right.
    apply list_elem_of_fmap. exists t. split; [done|]. apply Hdue. eauto. }
  apply list_elem_of_lookup in Hin as [i Hi]. exists i.
  cbn [steps step]. rewrite Hq. cbn [mbind option_bind pending engine]. rewrite Hi. cbn [mbind option_bind resume].
  unfold onDelayTimerFire. cbn [inMem set_delayQ]. rewrite (tr_mem _ _ _ _ _ _ Ht).
  eexists _, _. split; [done|]. set_solver.
Qed.

(** ** Timers do not fire early *)

(** A section starts the firing of a timer only when it promotes its record. *)
Lemma resume_starts e c now ok e' ks evs t k at_ o :
  tracks e t k o → disturbs (accessor e) t k at_ c = false →
  resume e c now ok = Some (e', ks, evs) → KFire t ∉ ks.
Proof.
  intros Hi Hc HE Hin.
  destruct c as [task|task hot|t' a|task|task|t' a|task|task|uid k'|t' uid k'|uid k'|k'| | | |rs|[|rec rs] n|t' a rs n|t'|t' r' u|t' r' u|t' r' u|t' u];
    simpl in Hc, HE; try apply bool_decide_eq_false in Hc; unfold_sections HE;
    try apply bind_Some in HE as (q & Eq & HE); repeat case_match; simplify_eq/=; try (set_solver).
  assert (TimerID (accessor e) rec = t) as Et by set_solver.
  pose proof (tr_task _ _ _ _ _ _ Hi). destruct (decide (TaskID (accessor e) rec = k)); naive_solver.
Qed.

(** Nothing else gives the timer a deadline. *)
Lemma resume_at e c now ok e' ks evs t k at_ a :
  sound (delayQ e) → disturbs (accessor e) t k at_ c = false → resume e c now ok = Some (e', ks, evs) →
  (∀ a, t_schedule (delayQ e) !! t = Some a → a = at_) →
  t_schedule (delayQ e') !! t = Some a → a = at_.
Proof.
  intros Hs Hc HE Ha.
  destruct c as [task|task hot|t' a'|task|task|t' a'|task|task|uid k'|t' uid k'|uid k'|k'| | | |rs|[|rec rs] n|t' a' rs n|t'|t' r u|t' r u|t' r u|t' u];
    simpl in Hc, HE; try apply bool_decide_eq_false in Hc; unfold_sections HE;
    try apply bind_Some in HE as (q & Eq & HE); repeat case_match; simplify_eq/=; try (by apply Ha).
  - apply sound_add in Eq as [_ ->]; [|done]. by apply insert_only.
  - apply sound_reschedule in Eq as [_ ->]; [|done]. by apply insert_only.
  - apply sound_remove in Eq as [_ ->]; [|done]. rewrite lookup_delete_Some. naive_solver.
  - apply sound_remove in Eq as [_ ->]; [|done]. rewrite lookup_delete_Some. naive_solver.
  - apply sound_add in Eq as [_ ->]; [|done]. by apply insert_only.
Qed.

(** Registered, and nothing has started its firing. *)
Definition early (st : state) (t k at_ : Z) (r : T) : Prop :=
  registered st t k at_ r ∧ KFire t ∉ pending st ∧
  ∀ a, t_schedule (delayQ (engine st)) !! t = Some a → a = at_.

Lemma step_early st a st' evs t k at_ r :
  early st t k at_ r → calm t k at_ st [a] = true → step st a = Some (st', evs) →
  (∀ now, a = LTick now → now < at_) →
  early st' t k at_ r ∧ ∀ r', EFire t r' ∉ evs.
Proof.
  intros (Hr & Hf & Ha) Hc HE Hlate. destruct (step_registered st a st' evs t k at_ r Hr Hc HE) as [Hin|Hr'].
  - exfalso. destruct a as [c|i now ok|now]; simpl in HE; repeat case_match; simplify_eq/=; try set_solver.
    + destruct (pending st !! i) as [c|] eqn:Hi; [|done]. simpl in HE.
      destruct (resume (engine st) c now ok) as [[[e ks] ev]|] eqn:HR; [|done]. injection HE as <- <-.
      apply (resume_fires _ _ _ _ _ _ _ _ _ HR) in Hin as [-> _]. apply Hf. by eapply list_elem_of_lookup_2.
    + destruct (t_tick _ now) as [[q fs]|]; [|done]. injection HE as <- <-. set_solver.
  - cbn [calm] in Hc. apply andb_prop in Hc as [Hc _]. apply negb_true_iff in Hc.
    pose proof Hr as [Ht Hs _]. destruct a as [c|i now ok|now]; simpl in HE.
    + destruct (entry c) eqn:Hc'; [|done]. injection HE as <- <-. split; [|set_solver]. split_and!; [done| |done].
      simpl. rewrite elem_of_app, list_elem_of_singleton. intros [?|<-]; done.
    + destruct (pending st !! i) as [c|] eqn:Hi; [|done]. simpl in HE.
      destruct (resume (engine st) c now ok) as [[[e ks] ev]|] eqn:HR; [|done]. injection HE as <- <-. split.
      * split_and!; [done| |].
        -- simpl. rewrite elem_of_app. intros [Hx%elem_of_delete_1|Hx]; [done|].
           by eapply resume_starts.
        -- cbn [engine]. intros a Hx. by eapply resume_at.
      * intros r' Hin. apply (resume_fires _ _ _ _ _ _ _ _ _ HR) in Hin as [-> _]. apply Hf. by eapply list_elem_of_lookup_2.
    + specialize (Hlate now eq_refl). destruct (sound_tick _ now Hs) as (q & fs & Hq & Hs' & Hdue & Hkeep).
      rewrite Hq in HE. injection HE as <- <-. split; [|set_solver]. split_and!; [done| |].
      * simpl. rewrite elem_of_app, list_elem_of_fmap. intros [?|(t' & [= <-] & (a & Hx & Hle)%Hdue)]; [done|].
        apply Ha in Hx. lia.
      * cbn [engine delayQ set_delayQ]. intros a [Hx _]%Hkeep. by apply Ha.
Qed.

Lemma steps_early l t k at_ r : ∀ st st' evs,
  early st t k at_ r → calm t k at_ st l = true → steps st l = Some (st', evs) →
  (∀ now, LTick now ∈ l → now < at_) → ∀ r', EFire t r' ∉ evs.
Proof.
  induction l as [|a l IH]; intros st st' evs Hr Hc HE Hl r'; cbn [steps calm] in *.
  { injection HE as <- <-. set_solver. }
  destruct (step st a) as [[st1 ev1]|] eqn:H1; [|done]. cbn [mbind option_bind] in HE.
  destruct (steps st1 l) as [[st2 ev2]|] eqn:H2; [|done]. injection HE as <- <-.
  apply andb_prop in Hc as [Hc1 Hc2].
  destruct (step_early st a st1 ev1 t k at_ r Hr) as [Hr1 Hn]; [by cbn [calm]; rewrite Hc1, H1|done| |].
  { intros now ->. apply Hl. set_solver. }
  intros [Hin|Hin]%elem_of_app; [by eapply Hn|]. eapply IH; eauto. intros now Hx. apply Hl. set_solver.
Qed.

(** Timer [t] and task [k] are not in use for anything else. *)
Definition fresh (e : Engine) (t k : Z) : Prop :=
  (∀ k', byTask e !! k' = Some t → k' = k) ∧
  (∀ t' r, inMem e !! t' = Some r → TaskID (accessor e) r = k → t' = t).

(** The section of Add that records a task within the hot window. *)
Lemma addMaps_registers st r i now ok st1 evs :
  let acc := accessor (engine st) in
  sound (delayQ (engine st)) → fresh (engine st) (TimerID acc r) (TaskID acc r) →
  pending st !! i = Some (KAddMaps r true) → step st (LRun i now ok) = Some (st1, evs) →
  registered st1 (TimerID acc r) (TaskID acc r) (UnixMilli (DueTimeMs acc r)) r ∧
  delayQ (engine st1) = delayQ (engine st) ∧
  (KFire (TimerID acc r) ∉ pending st → KFire (TimerID acc r) ∉ pending st1).
Proof.
  intros acc Hs [Hf1 Hf2] Hi. cbn [step]. rewrite Hi. cbn. intros [= <- <-]. split_and!; [|done|].
  - split; cbn [engine pending delayQ set_maps]; [|done|left; right; set_solver].
    unfold tracks. simpl. split; [by rewrite lookup_insert_eq..| |].
    + intros k'. rewrite lookup_insert_Some. naive_solver.
    + intros t' r'. rewrite lookup_insert_Some. naive_solver.
  - cbn [pending]. intros Hn [Hx%elem_of_delete_1|Hx]%elem_of_app; [done|set_solver].
Qed.

Lemma Add_hot e r now e' hot :
  inHotWindow e (DueTimeMs (accessor e) r) now = true →
  Add e r now = next e' (KAddMaps r hot) → hot = true.
Proof.
  unfold Add, inHotWindow. destruct (queue e) as [s|] eqn:Hq.
  - destruct (q_Add s r) as [s' [x|]]; [done|]. simpl. intros ->. by intros [= _ <-].
  - by intros _ [= _ <-].
Qed.

(** A record that fires goes to the submit function, if one is set, or to doFire. *)
Definition handOver (e : Engine) (timerID : Z) (task : T) : cont :=
  let uid := UID (accessor e) task in
  if fireSubmit e then KSubmit timerID task uid else KDoFire timerID task uid.

Lemma fire_handed st a st' evs t r :
  step st a = Some (st', evs) → EFire t r ∈ evs → handOver (engine st) t r ∈ pending st'.
Proof.
  destruct a as [c|i now ok|now]; simpl; intros HE Hin.
  - destruct (entry c); [|done]. injection HE as <- <-. set_solver.
  - destruct (pending st !! i) as [c|] eqn:Hi; [|done]. simpl in HE.
    destruct (resume (engine st) c now ok) as [[[e ks] ev]|] eqn:HR; [|done]. injection HE as <- <-.
    destruct (resume_fires _ _ _ _ _ _ _ _ _ HR Hin) as [-> Hr]. cbn [resume] in HR. unfold onDelayTimerFire in HR.
    rewrite Hr in HR. injection HR as <- <- <-. cbn [pending]. unfold handOver. set_solver.
  - destruct (t_tick _ now) as [[q fs]|]; [|done]. injection HE as <- <-. set_solver.
Qed.

(** C12 (liveness): a timer added within the hot window fires at its due time, and
    not before.  Let an Add find its due time within the hot window and store its
    record, and take a moment at which it enters the record in the maps, with timer
    and task identifiers that no other record uses.  Afterwards any calls,
    promotions, ticks and firings may interleave, the rest of Add among them, as long
    as none is another call about this timer or its task ([calm]).  When Add has
    returned, either the record has fired or every tick at or after its due time
    fires it.  If the scheduler had nothing of this timer left over, the record does
    not fire before a tick at or after its due time.  Whenever it fires, it is handed to
    the submit function, or to doFire if none is set. *)
Theorem engine_delivers e0 now0 e1 hot st r i now ok st1 evs1 l st2 evs :
  let acc := accessor (engine st) in let t := TimerID acc r in let k := TaskID acc r in
  let due := UnixMilli (DueTimeMs acc r) in
  inHotWindow e0 (DueTimeMs (accessor e0) r) now0 = true →
  Add e0 r now0 = next e1 (KAddMaps r hot) →
  sound (delayQ (engine st)) → fresh (engine st) t k →
  pending st !! i = Some (KAddMaps r hot) → step st (LRun i now ok) = Some (st1, evs1) →
  calm t k due st1 l = true → steps st1 l = Some (st2, evs) →
  (KDelayAdd t due ∉ pending st2 →
   EFire t r ∈ evs ∨
   ∀ now', due ≤ now' →
     ∃ j st3 evs', steps st2 [LTick now'; LRun j now' true] = Some (st3, evs') ∧ EFire t r ∈ evs') ∧
  (t_schedule (delayQ (engine st)) !! t = None → KFire t ∉ pending st →
   (∀ now', LTick now' ∈ l → now' < due) → ∀ r', EFire t r' ∉ evs) ∧
  (∀ st3 a st4 evs', step st3 a = Some (st4, evs') → EFire t r ∈ evs' → handOver (engine st3) t r ∈ pending st4).
Proof.
  intros acc t k due Hh HA Hs Hf Hi H1 Hc H2. rewrite (Add_hot _ _ _ _ _ Hh HA) in Hi.
  destruct (addMaps_registers st r i now ok st1 evs1 Hs Hf Hi H1) as (Hr & Hd & Hn).
  fold acc t k due in Hr, Hn. split; [|split; [|intros ????; apply fire_handed]].
  - intros Hret. destruct (steps_registered l t k due r st1 st2 evs Hr Hc H2) as [|Hr2]; [by left|].
    right. by eapply registered_fires.
  - intros Hnone Hnf Hl. eapply steps_early; [|exact Hc|exact H2|exact Hl]. split_and!; [exact Hr|auto|].
    rewrite Hd, Hnone. done.
Qed.

(** ** Timers beyond the hot window *)

Lemma step_cold st a st' evs t k at_ :
  tracks (engine st) t k None → calm t k at_ st [a] = true → step st a = Some (st', evs) →
  tracks (engine st') t k None ∧ ∀ r, EFire t r ∉ evs.
Proof.
  intros Ht Hc HE. cbn [calm] in Hc. apply andb_prop in Hc as [Hc _]. apply negb_true_iff in Hc.
  destruct a as [c|i now ok|now]; simpl in HE.
  - destruct (entry c); [|done]. injection HE as <- <-. split; [done|]. set_solver.
  - destruct (pending st !! i) as [c|] eqn:Hi; [|done]. simpl in HE.
    destruct (resume (engine st) c now ok) as [[[e ks] ev]|] eqn:HR; [|done]. injection HE as <- <-.
    split; [by eapply resume_tracks; eauto|]. intros r Hin.
    apply (resume_fires _ _ _ _ _ _ _ _ _ HR) in Hin as [-> Hr].
    rewrite (tr_mem _ _ _ _ _ _ Ht) in Hr. done.
  - destruct (t_tick _ now) as [[q fired]|]; [|done]. injection HE as <- <-. split; [done|]. set_solver.
Qed.

(** Safety: a timer added beyond the hot window does not fire, at whatever
    time.  Add records its task, and the promotion loop skips recorded tasks: from
    then on, until a client call about the timer, no promotion registers it, however
    close its due time comes. *)
Theorem cold_timer_stuck st r now ok st1 evs1 at_ l st2 evs i :
  let acc := accessor (engine st) in let t := TimerID acc r in let k := TaskID acc r in
  pending st !! i = Some (KAddMaps r false) →
  inMem (engine st) !! t = None → fresh (engine st) t k →
  step st (LRun i now ok) = Some (st1, evs1) →
  calm t k at_ st1 l = true → steps st1 l = Some (st2, evs) →
  (∀ r', EFire t r' ∉ evs) ∧ inMem (engine st2) !! t = None.
Proof.
  intros acc t k Hi Hm [Hf1 Hf2] H1 Hc H2.
  assert (tracks (engine st1) t k None) as Ht.
  { cbn [step] in H1. rewrite Hi in H1. cbn in H1. injection H1 as <- _. unfold tracks. simpl. split.
    - by rewrite lookup_insert_eq.
    - done.
    - intros k'. rewrite lookup_insert_Some. naive_solver.
    - done. }
  clear H1 Hm Hf1 Hf2 Hi. revert st1 st2 evs Ht Hc H2.
  induction l as [|a l IH]; intros st1 st2 evs Ht Hc HE; cbn [steps calm] in *.
  { injection HE as <- <-. split; [set_solver|apply Ht]. }
  destruct (step st1 a) as [[st3 ev1]|] eqn:H1; [|done]. cbn [mbind option_bind] in HE.
  destruct (steps st3 l) as [[st4 ev2]|] eqn:H2; [|done]. injection HE as <- <-.
  apply andb_prop in Hc as [Hc1 Hc2].
  destruct (step_cold st1 a st3 ev1 t k at_ Ht) as [Ht3 Hn]; [cbn [calm]; by rewrite Hc1, H1|done|].
  destruct (IH _ _ _ Ht3 Hc2 H2) as [Hn2 Hm2]. split; [|done]. intros r' [?|?]%elem_of_app; [by eapply Hn|by eapply Hn2].
Qed.

(** ** Claims and handler calls *)

Definition fired (t : Z) (ev : event) : nat := match ev with EFire t' _ => if decide (t' = t) then 1 else 0 | _ => 0 end.
Definition claimed (t : Z) (ev : event) : nat := match ev with EClaim t' _ => if decide (t' = t) then 1 else 0 | _ => 0 end.
Definition handled (t : Z) (ev : event) : nat := match ev with EHandle t' _ => if decide (t' = t) then 1 else 0 | _ => 0 end.
(** Goroutines between the firing and the claim, and between the claim and the handler. *)
Definition firing (t : Z) (c : cont) : nat :=
  match c with KSubmit t' _ _ | KDoFire t' _ _ => if decide (t' = t) then 1 else 0 | _ => 0 end.
Definition handling (t : Z) (c : cont) : nat :=
  match c with KHandle t' _ _ => if decide (t' = t) then 1 else 0 | _ => 0 end.

Lemma count_delete {A} (f : A → nat) l i x :
  l !! i = Some x → count f l = (f x + count f (delete i l))%nat.
Proof. intros Hi. apply delete_Permutation in Hi. by rewrite Hi at 1. Qed.

Lemma resume_counts e c now ok e' ks evs t :
  is_Some (queue e) → resume e c now ok = Some (e', ks, evs) →
  is_Some (queue e') ∧
  (count (handling t) ks + count (handled t) evs = handling t c + count (claimed t) evs)%nat ∧
  (count (firing t) ks + count (claimed t) evs <= firing t c + count (fired t) evs)%nat.
Proof.
  intros [s Hq] HE.
  destruct c as [task|task hot|t' a|task|task|t' a|task|task|uid k'|t' uid k'|uid k'|k'| | | |rs|[|rec rs] n|t' a rs n|t'|t' r u|t' r u|t' r u|t' u];
    simpl in HE; unfold_sections HE; rewrite ?Hq in HE; try apply bind_Some in HE as (q & Eq & HE);
    repeat case_match; simplify_eq/=; split; try (by eexists); try lia; repeat case_decide; lia.
Qed.

Lemma count_fires (w : cont → nat) l : (∀ t, w (KFire t) = 0%nat) → count w (KFire <$> l) = 0%nat.
Proof. intros Hw. induction l as [|t l IH]; [done|]. cbn. by rewrite Hw, IH. Qed.

Lemma step_counts st a st' evs t :
  is_Some (queue (engine st)) → step st a = Some (st', evs) →
  is_Some (queue (engine st')) ∧
  (count (handling t) (pending st') + count (handled t) evs = count (handling t) (pending st) + count (claimed t) evs)%nat ∧
  (count (firing t) (pending st') + count (claimed t) evs <= count (firing t) (pending st) + count (fired t) evs)%nat.
Proof.
  intros Hq HE. destruct a as [c|i now ok|now]; simpl in HE.
  - destruct (entry c) eqn:Hc; [|done]. injection HE as <- <-. simpl.
    rewrite !sum_list_with_app. split; [done|]. destruct c; try done; simpl; lia.
  - destruct (pending st !! i) as [c|] eqn:Hi; [|done]. simpl in HE.
    destruct (resume (engine st) c now ok) as [[[e ks] ev]|] eqn:HR; [|done]. injection HE as <- <-.
    destruct (resume_counts _ _ _ _ _ _ _ t Hq HR) as (Hq' & H1 & H2). split; [done|]. cbn [pending].
    rewrite !sum_list_with_app, (count_delete (handling t) _ _ _ Hi), (count_delete (firing t) _ _ _ Hi). lia.
  - destruct (t_tick _ now) as [[q fs]|]; [|done]. injection HE as <- <-. split; [done|].
    cbn [pending]. rewrite !sum_list_with_app, !count_fires by done. simpl. lia.
Qed.

Lemma steps_counts l t : ∀ st st' evs,
  is_Some (queue (engine st)) → steps st l = Some (st', evs) →
  (count (handling t) (pending st') + count (handled t) evs = count (handling t) (pending st) + count (claimed t) evs)%nat ∧
  (count (firing t) (pending st') + count (claimed t) evs <= count (firing t) (pending st) + count (fired t) evs)%nat.
Proof.
  induction l as [|a l IH]; intros st st' evs Hq HE; cbn [steps] in HE.
  { injection HE as <- <-. simpl. lia. }
  destruct (step st a) as [[st1 ev1]|] eqn:H1; [|done]. cbn [mbind option_bind] in HE.
  destruct (steps st1 l) as [[st2 ev2]|] eqn:H2; [|done]. injection HE as <- <-.
  destruct (step_counts _ _ _ _ t Hq H1) as (Hq1 & ? & ?). destruct (IH _ _ _ Hq1 H2).
  rewrite !sum_list_with_app. lia.
Qed.

(** Safety: with a queue, the handler of a timer runs once for each claim the
    queue granted, and a claim is asked for once, by the goroutine of one firing:
    whatever interleaves, there are no more handler calls than claims granted and no
    more claims granted than records fired. *)
Theorem engine_handles_once e l st evs t :
  is_Some (queue e) → steps (State e []) l = Some (st, evs) →
  (count (handled t) evs <= count (claimed t) evs)%nat ∧
  (count (claimed t) evs <= count (fired t) evs)%nat ∧
  (pending st = [] → count (handled t) evs = count (claimed t) evs).
Proof.
  intros Hq HE. destruct (steps_counts l t (State e []) st evs Hq HE) as [H1 H2]. simpl in *.
  split_and!; [lia..|]. intros Hp. rewrite Hp in H1. simpl in H1. lia.
Qed.

End engine.

(** ** Instances on a concrete queue and scheduler *)

(** Records are (task, timer, due time, user); the store keeps the active ones and
    grants every claim of a record it has. *)
Definition record : Type := Z * Z * Z * Z.
Definition record_accessor : Accessor record :=
  Access (λ r, r.1.1.1) (λ r, r.1.1.2) (λ r, r.1.2) (λ r, r.2).

#[local] Instance list_queue : Queue (list record) record unit := {|
  q_Add s r := (r :: s, None);
  q_Remove s uid k := (filter (λ r : record, r.1.1.1 ≠ k) s, None);
  q_LoadAllInWindow s w now := (s, Ok (filter (λ r : record, UnixMilli r.1.2 ≤ now + w) s));
  q_ClaimForProcessing s uid t o lease now := (s, Ok (bool_decide (t ∈ (λ r : record, r.1.1.2) <$> s)));
  q_CompleteProcessing s uid t o := (filter (λ r : record, r.1.1.2 ≠ t) s, Ok true);
  q_RequeueExpiredProcessing s now := (s, Ok 0);
|}.

#[local] Existing Instances DelayQueue.delayQueue_timer DelayQueue.delayQueue_laws DelayQueue.delayQueue_nodedup.

Definition exampleEngine : Engine (T := record) (S := list record) (Q := DelayQueue.DelayQueue) :=
  New (Some []) ModeClaimProcess 1 0 0 None record_accessor DelayQueue.NewDelayQueue.

Lemma engine_handles_once_witness :
  ∃ st, steps (State exampleEngine [])
    [LCall (KAdd (1, 7, 5, 3)); LRun 0 0 true; LRun 0 0 true; LRun 0 0 true; LTick (UnixMilli 5);
     LRun 0 0 true; LRun 0 0 true; LRun 0 0 true; LRun 0 0 true] =
    Some (st, [EFire 7 (1, 7, 5, 3); EClaim 7 (1, 7, 5, 3); EHandle 7 (1, 7, 5, 3)]) ∧
  (count (handled 7) [EFire 7 (1, 7, 5, 3); EClaim 7 (1, 7, 5, 3); EHandle 7 (1, 7, 5, 3)] <= 1)%nat.
Proof.
  eexists. split; [vm_compute; reflexivity|].
  refine (proj1 (engine_handles_once exampleEngine
    [LCall (KAdd (1, 7, 5, 3)); LRun 0 0 true; LRun 0 0 true; LRun 0 0 true; LTick (UnixMilli 5);
     LRun 0 0 true; LRun 0 0 true; LRun 0 0 true; LRun 0 0 true] _
    [EFire 7 (1, 7, 5, 3); EClaim 7 (1, 7, 5, 3); EHandle 7 (1, 7, 5, 3)] 7 _ _));
    [by eexists|vm_compute; reflexivity].
Defined.

(** Add within the hot window, its last section after a tick that comes too early. *)
Lemma engine_delivers_witness :
  let r := (1, 7, 5, 3) : record in
  let st := State (set_queue exampleEngine [r]) [KAddMaps r true] in
  ∃ st1 st2, step st (LRun 0 0 true) = Some (st1, []) ∧
  steps st1 [LTick 4; LRun 0 0 true] = Some (st2, []) ∧
  (KDelayAdd 7 (UnixMilli 5) ∉ pending st2 →
   EFire 7 r ∈ @nil (@event record) ∨
   ∀ now', UnixMilli 5 ≤ now' → ∃ j st3 evs',
     steps st2 [LTick now'; LRun j now' true] = Some (st3, evs') ∧ EFire 7 r ∈ evs').
Proof.
  intros r st. eexists _, _. split; [vm_compute; reflexivity|]. split; [vm_compute; reflexivity|].
  refine (proj1 (engine_delivers exampleEngine 0 (set_queue exampleEngine [r]) true st r 0 0 true _ []
                   [LTick 4; LRun 0 0 true] _ [] _ _ _ _ _ _ _ _));
    try (vm_compute; reflexivity).
  - split; [apply Heap.new_wf|done].
  - split; intros ? *; by rewrite ?lookup_empty.
Defined.

Lemma cold_timer_stuck_witness :
  let r := (1, 7, 2000000000, 3) : record in
  let l := [LCall KPromoteFromRedis; LRun 0 (UnixMilli 2000000000) true; LRun 0 (UnixMilli 2000000000) true;
            LRun 0 (UnixMilli 2000000000) true; LRun 0 0 true; LTick (UnixMilli 2000000001)] in
  ∃ st st1 st2 evs, steps (State exampleEngine []) [LCall (KAdd r); LRun 0 0 true] = Some (st, []) ∧
    step st (LRun 0 0 true) = Some (st1, []) ∧ steps st1 l = Some (st2, evs) ∧
    ((∀ r', EFire 7 r' ∉ evs) ∧ inMem (engine st2) !! 7 = None).
Proof.
  intros r l. eexists _, _, _, _. split; [vm_compute; reflexivity|].
  split; [vm_compute; reflexivity|]. split; [vm_compute; reflexivity|].
  match goal with |- context [inMem (engine ?s2)] =>
    refine (cold_timer_stuck (State (set_queue exampleEngine [r]) [KAddMaps r false]) r 0 true _ [] 0 l s2 [] 0
      _ _ _ _ _ _) end; try (vm_compute; reflexivity).
  split; intros ? *; by rewrite ?lookup_empty.
Defined.

End Engine.
