(* ===== verification/RedisQueue.v ===== *)
(** * The Redis timer queue (src/timer/redisqueue/queue.go)

    The queue keeps, for each user, a hash of records, a sorted set of pending and
    one of processing timers, and an index from business to timer identifiers.  The
    Redis server and cjson are parameters ([Redis], [Cjson]) with their documented
    behaviour; scripts run atomically.  Failures of the connection are not modelled. *)

From Stdlib Require Import Ascii.
From stdpp Require Import pretty.
From S2P Require Import Prelude.

Module RedisQueue.

#[local] Open Scope string_scope.
#[local] Open Scope Z_scope.

(** ** Redis and cjson *)

Class Redis (R : Type) := {
  hget : R → string → string → option string;
  hset : R → string → string → string → R;
  hdel : R → string → string → R;
  hgetall : R → string → list (string * string);
  zscore : R → string → string → option Z;
  zadd : R → string → string → Z → R;
  zrem : R → string → string → R;
  zrange : R → string → list string;
  zrangebyscore : R → string → Z → list string;
}.

(** The commands act on the field or member they name. *)
Class RedisLaws (R : Type) `{Redis R} : Prop := {
  hget_hset r k f v k' f' : hget (hset r k f v) k' f' = if decide (k = k' ∧ f = f') then Some v else hget r k' f';
  hget_hdel r k f k' f' : hget (hdel r k f) k' f' = if decide (k = k' ∧ f = f') then None else hget r k' f';
  hget_zadd r k m s k' f' : hget (zadd r k m s) k' f' = hget r k' f';
  hget_zrem r k m k' f' : hget (zrem r k m) k' f' = hget r k' f';
  zscore_zadd r k m s k' m' : zscore (zadd r k m s) k' m' = if decide (k = k' ∧ m = m') then Some s else zscore r k' m';
  zscore_zrem r k m k' m' : zscore (zrem r k m) k' m' = if decide (k = k' ∧ m = m') then None else zscore r k' m';
  zscore_hset r k f v k' m' : zscore (hset r k f v) k' m' = zscore r k' m';
  zscore_hdel r k f k' m' : zscore (hdel r k f) k' m' = zscore r k' m';
  zrangebyscore_spec r k max m : m ∈ zrangebyscore r k max ↔ ∃ s, zscore r k m = Some s ∧ 0 ≤ s ≤ max;
}.

(** [cjson.decode(s)[name]] for the fields the scripts read; a field that is not
    there, or not a number where one is asked for, is [None]. *)
Class Cjson := {
  meta_encode : string → Z → string;
  json_string : string → string → option string;
  json_number : string → string → option Z;
}.
Class CjsonLaws `{Cjson} : Prop := {
  meta_owner o d : json_string (meta_encode o d) "owner" = Some o;
  meta_deadline o d : json_number (meta_encode o d) "deadline" = Some d;
}.

(** ** Code *)

Record Keys := MkKeys { Pending : string; Processing : string; Data : string; Index : string }.

(** [UnmarshalKeyed] is the optional method UnmarshalWithTimerIDAndBusinessID. *)
Record Codec (T : Type) := MkCodec {
  Marshal : T → option string;
  Unmarshal : string → option T;
  UnmarshalKeyed : option (string → string → string → option T);
  TimerID : T → Z;
  BusinessID : T → string;
  DueTimeMs : T → Z;
  MarkPending : T → T;
}.
Arguments Marshal {T}.
Arguments Unmarshal {T}.
Arguments UnmarshalKeyed {T}.
Arguments TimerID {T}.
Arguments BusinessID {T}.
Arguments DueTimeMs {T}.
Arguments MarkPending {T}.

Inductive error := ErrMarshal | ErrUnmarshal | ErrSyntax | ErrRange.

Definition FormatUint (id : Z) : string := pretty id.
Definition metaKey (id : string) : string := "__processing__:" +:+ id.

(** strconv.ParseUint in base 10 and 64 bits. *)
Fixpoint parseDigits (s : string) (acc : Z) : result error Z :=
  match s with
  | EmptyString => Ok acc
  | String c s' =>
      let d := Z.of_N (Ascii.N_of_ascii c) - 48 in
      if decide (0 ≤ d < 10) then
        if decide (acc * 10 + d < 2 ^ 64) then parseDigits s' (acc * 10 + d) else Err ErrRange
      else Err ErrSyntax
  end.
Definition ParseUint (s : string) : result error Z :=
  if decide (s = "") then Err ErrSyntax else parseDigits s 0.

Definition UnixMilli (t : Z) : Z := t / Millisecond.

Section scripts.
Context {R : Type} `{Redis R} `{Cjson}.

Definition claimScript (r : R) (data pending processing id owner : string) (deadline : Z) : R * Z :=
  match hget r data id with
  | None => (r, 0)
  | Some _ =>
      match zscore r pending id with
      | None => (r, 0)
      | Some _ =>
          let r := zrem r pending id in
          let r := hset r data (metaKey id) (meta_encode owner deadline) in
          (zadd r processing id deadline, 1)
      end
  end.

(** The owner check of completeScript. *)
Definition mayComplete (r : R) (data id val owner : string) : bool :=
  match hget r data (metaKey id) with
  | Some meta => bool_decide (json_string meta "owner" = Some owner)
  | None =>
      if decide (json_string val "timer_status" = Some "processing")
      then bool_decide (json_string val "processing_owner" = Some owner) else true
  end.

Definition completeScript (r : R) (data pending processing index id owner business : string) : R * Z :=
  match hget r data id with
  | None => (r, 0)
  | Some val =>
      if mayComplete r data id val owner then
        let r := hdel r data id in
        let r := hdel r data (metaKey id) in
        let r := zrem r pending id in
        let r := zrem r processing id in
        (if decide (business ≠ "") then
           if decide (hget r index business = Some id) then hdel r index business else r
         else r, 1)
      else (r, 0)
  end.

(** The deadline requeueScript compares with the time; [None] when the record is
    not processing. *)
Definition deadlineOf (r : R) (data id val : string) : option Z :=
  match hget r data (metaKey id) with
  | Some meta => Some (default 0 (json_number meta "deadline"))
  | None =>
      if decide (json_string val "timer_status" = Some "processing")
      then Some (default 0 (json_number val "processing_deadline")) else None
  end.

Definition requeueScript (r : R) (data pending processing id : string) (now due : Z) : R * Z :=
  match hget r data id with
  | None => (hdel (zrem r processing id) data (metaKey id), 0)
  | Some val =>
      match deadlineOf r data id val with
      | None => (r, 0)
      | Some deadline =>
          if decide (deadline > now) then (r, 0)
          else
            let r := hdel r data (metaKey id) in
            let r := zrem r processing id in
            (zadd r pending id due, 1)
      end
  end.
End scripts.

Section queue.
Context {R T : Type} `{Redis R} `{Cjson} (codec : Codec T) (keysOf : Z → Keys).

(** The last business identifier listed for each timer. *)
Definition businessIDsByTimerID (r : R) (keys : Keys) : gmap string string :=
  if decide (Index keys = "") then ∅
  else foldl (λ m p, <[p.2 := p.1]> m) ∅ (hgetall r (Index keys)).

Definition decode (r : R) (keys : Keys) (id val : string) : option T :=
  match UnmarshalKeyed codec with
  | Some f => f val id (default "" (businessIDsByTimerID r keys !! id))
  | None => Unmarshal codec val
  end.

Definition loadRecordByTimerID (r : R) (uid : Z) (id : string) : result error (option T) :=
  match hget r (Data (keysOf uid)) id with
  | None => Ok None
  | Some val => match decode r (keysOf uid) id val with Some rec => Ok (Some rec) | None => Err ErrUnmarshal end
  end.

(** The removal of the timer a business identifier was listed for. *)
Definition dropOld (r : R) (keys : Keys) (old : string) : R :=
  let r := zrem r (Pending keys) old in
  let r := zrem r (Processing keys) old in
  let r := hdel r (Data keys) old in
  hdel r (Data keys) (metaKey old).

Definition replaceOld (r : R) (keys : Keys) (business id : string) : R :=
  if decide (business ≠ "") then
    match hget r (Index keys) business with
    | Some old => if decide (old ≠ "" ∧ old ≠ id) then dropOld r keys old else r
    | None => r
    end
  else r.

Definition Add (r : R) (uid : Z) (rec : T) : R * option error :=
  let id := FormatUint (TimerID codec rec) in
  let business := BusinessID codec rec in
  let rec := MarkPending codec rec in
  match Marshal codec rec with
  | None => (r, Some ErrMarshal)
  | Some data =>
      let keys := keysOf uid in
      let r := replaceOld r keys business id in
      let r := zadd r (Pending keys) id (DueTimeMs codec rec) in
      let r := zrem r (Processing keys) id in
      let r := hset r (Data keys) id data in
      (if decide (business ≠ "") then hset r (Index keys) business id else r, None)
  end.

Definition TimerIDByBusinessID (r : R) (uid : Z) (business : string) : result error Z :=
  if decide (business = "") then Ok 0
  else
    let keys := keysOf uid in
    match hget r (Index keys) business with
    | None => match hget r (Data keys) business with Some _ => ParseUint business | None => Ok 0 end
    | Some val => ParseUint val
    end.

Definition RemoveByTimerID (r : R) (uid timerID : Z) : R * bool :=
  let id := FormatUint timerID in
  let keys := keysOf uid in
  let loaded := loadRecordByTimerID r uid id in
  let deleted := bool_decide (is_Some (hget r (Data keys) id)) in
  let r := hdel r (Data keys) id in
  let r := zrem r (Pending keys) id in
  let r := zrem r (Processing keys) id in
  (match loaded with
   | Ok (Some rec) => if decide (BusinessID codec rec ≠ "") then hdel r (Index keys) (BusinessID codec rec) else r
   | _ => r
   end, deleted).

Definition RemoveByBusinessID (r : R) (uid : Z) (business : string) : R * result error bool :=
  match TimerIDByBusinessID r uid business with
  | Err e => (r, Err e)
  | Ok timerID =>
      if decide (timerID = 0) then (r, Ok false)
      else let '(r', b) := RemoveByTimerID r uid timerID in (r', Ok b)
  end.

(** [None]: the panics on an empty owner or a lease that is not positive. *)
Definition ClaimForProcessing (r : R) (uid timerID : Z) (owner : string) (lease now : Z) : option (R * bool) :=
  if decide (owner = "") then None
  else if decide (lease ≤ 0) then None
  else
    let keys := keysOf uid in
    let '(r', res) := claimScript r (Data keys) (Pending keys) (Processing keys) (FormatUint timerID) owner
                        (UnixMilli (now + lease)) in
    Some (r', bool_decide (res = 1)).

Definition CompleteProcessing (r : R) (uid timerID : Z) (owner : string) : option (R * result error bool) :=
  if decide (owner = "") then None
  else
    let id := FormatUint timerID in
    let keys := keysOf uid in
    match loadRecordByTimerID r uid id with
    | Err e => Some (r, Err e)
    | Ok found =>
        let business := match found with Some rec => BusinessID codec rec | None => "" end in
        let '(r', res) := completeScript r (Data keys) (Pending keys) (Processing keys) (Index keys) id owner business in
        Some (r', Ok (bool_decide (res = 1)))
    end.

Definition requeueProcessingTimer (r : R) (uid : Z) (id : string) (now : Z) : R * result error bool :=
  let keys := keysOf uid in
  match loadRecordByTimerID r uid id with
  | Err e => (r, Err e)
  | Ok found =>
      let due := match found with Some rec => DueTimeMs codec rec | None => 0 end in
      let '(r', res) := requeueScript r (Data keys) (Pending keys) (Processing keys) id (UnixMilli now) due in
      (r', Ok (bool_decide (res = 1)))
  end.

Fixpoint requeueAll (r : R) (uid : Z) (ids : list string) (now total : Z) : R * Z * option error :=
  match ids with
  | [] => (r, total, None)
  | id :: ids =>
      match requeueProcessingTimer r uid id now with
      | (r', Err e) => (r', total, Some e)
      | (r', Ok b) => requeueAll r' uid ids now (if b then total + 1 else total)
      end
  end.

Fixpoint requeueUsers (r : R) (uids : list Z) (now total : Z) : R * Z * option error :=
  match uids with
  | [] => (r, total, None)
  | uid :: uids =>
      match requeueAll r uid (zrangebyscore r (Processing (keysOf uid)) (UnixMilli now)) now total with
      | (r', total', Some e) => (r', total', Some e)
      | (r', total', None) => requeueUsers r' uids now total'
      end
  end.

Definition RequeueExpiredProcessing (r : R) (uids : list Z) (now : Z) : R * Z * option error :=
  requeueUsers r uids now 0.

(** The loop of LoadByTimerIDs over the values HMGET returned, with the index read
    before it. *)
Fixpoint loadAll (r : R) (keys : Keys) (business : gmap string string)
    (vals : list (string * option string)) : R * result error (list T) :=
  match vals with
  | [] => (r, Ok [])
  | (id, None) :: rest => loadAll (zrem (zrem r (Pending keys) id) (Processing keys) id) keys business rest
  | (id, Some v) :: rest =>
      match (match UnmarshalKeyed codec with
             | Some f => f v id (default "" (business !! id))
             | None => Unmarshal codec v
             end) with
      | None => (r, Err ErrUnmarshal)
      | Some rec => let '(r', out) := loadAll r keys business rest in (r', l ← out; Ok (rec :: l))
      end
  end.

Definition LoadByTimerIDs (r : R) (uid : Z) (ids : list string) : R * result error (list T) :=
  let keys := keysOf uid in
  loadAll r keys (businessIDsByTimerID r keys) ((λ id, (id, hget r (Data keys) id)) <$> ids).

Definition LoadActiveByUID (r : R) (uid : Z) : R * result error (list T) :=
  LoadByTimerIDs r uid (zrange r (Pending (keysOf uid)) ++ zrange r (Processing (keysOf uid))).

Definition LoadWindowByUID (r : R) (uid window now : Z) : R * result error (list T) :=
  LoadByTimerIDs r uid (zrangebyscore r (Pending (keysOf uid)) (UnixMilli (now + window))).

Definition CountActiveByUID (r : R) (uid : Z) : Z :=
  Z.of_nat (length (zrange r (Pending (keysOf uid)))) + Z.of_nat (length (zrange r (Processing (keysOf uid)))).
End queue.

(** ** Identifiers *)

Lemma pretty_N_go_ne_low x s s' : s ≠ "_" +:+ s' → pretty_N_go x s ≠ "_" +:+ s'.
Proof.
  revert s. induction (N.lt_wf_0 x) as [x _ IH]; intros s Hs.
  assert (x = 0 ∨ 0 < x)%N as [->|Hx] by lia; [by rewrite pretty_N_go_0|].
  rewrite pretty_N_go_step by done. apply IH; [by apply N.div_lt|].
  unfold pretty_N_char. by repeat case_match.
Qed.

Lemma FormatUint_not_meta t s : FormatUint t ≠ metaKey s.
Proof.
  unfold FormatUint, metaKey, pretty, pretty_Z. destruct t as [|x|x]; try done.
  unfold pretty, pretty_positive, pretty, pretty_N. rewrite decide_False by done. by apply pretty_N_go_ne_low.
Qed.

Lemma metaKey_inj s s' : metaKey s = metaKey s' → s = s'.
Proof. unfold metaKey. intros E. by simplify_eq/=. Qed.

Lemma FormatUint_inj t t' : FormatUint t = FormatUint t' → t = t'.
Proof. apply (inj pretty). Qed.

(** ** Leases *)

Section lease.
Context {R T : Type} `{RedisLaws R} `{CjsonLaws} (codec : Codec T) (keysOf : Z → Keys) (uid : Z).
Notation keys := (keysOf uid).
Context (Hzset : Pending keys ≠ Processing keys) (Hhash : Data keys ≠ Index keys).

Ltac redis :=
  repeat (rewrite hget_hset || rewrite hget_hdel || rewrite hget_zadd || rewrite hget_zrem ||
          rewrite zscore_zadd || rewrite zscore_zrem || rewrite zscore_hset || rewrite zscore_hdel).

(** What one call of a client does, with what it answers. *)
Inductive op :=
  | OAdd (rec : T) | ORemove (t : Z)
  | OClaim (t : Z) (owner : string) (lease now : Z)
  | OComplete (t : Z) (owner : string)
  | ORequeue (t : Z) (now : Z).

Definition ok_true (x : result error bool) : bool := match x with Ok b => b | Err _ => false end.

Definition call (r : R) (o : op) : option (R * bool) :=
  match o with
  | OAdd rec => let '(r', e) := Add codec keysOf r uid rec in Some (r', bool_decide (e = None))
  | ORemove t => Some (RemoveByTimerID codec keysOf r uid t)
  | OClaim t owner lease now => ClaimForProcessing keysOf r uid t owner lease now
  | OComplete t owner => '(r', x) ← CompleteProcessing codec keysOf r uid t owner; Some (r', ok_true x)
  | ORequeue t now => let '(r', x) := requeueProcessingTimer codec keysOf r uid (FormatUint t) now in Some (r', ok_true x)
  end.

(** The calls that end the lease of [t] held by [owner] until [d]: they add, remove
    or replace the timer, complete it as its owner, or requeue it once it is over. *)
Definition releases (r : R) (t : Z) (owner : string) (d : Z) (o : op) : bool :=
  match o with
  | OAdd rec => bool_decide (TimerID codec rec = t ∨ hget r (Index keys) (BusinessID codec rec) = Some (FormatUint t))
  | ORemove t' => bool_decide (t' = t)
  | OClaim _ _ _ _ => false
  | OComplete t' owner' => bool_decide (t' = t ∧ owner' = owner)
  | ORequeue t' now => bool_decide (t' = t ∧ d ≤ UnixMilli now)
  end.

(** The answers to the calls that claim or complete [t]. *)
Fixpoint serve (r : R) (t : Z) (owner : string) (d : Z) (l : list op) : option (R * list bool) :=
  match l with
  | [] => Some (r, [])
  | o :: l =>
      if releases r t owner d o then None
      else
        '(r1, b) ← call r o; '(r2, bs) ← serve r1 t owner d l;
        Some (r2, match o with
                  | OClaim t' _ _ _ | OComplete t' _ => if decide (t' = t) then b :: bs else bs
                  | _ => bs
                  end)
  end.

Record leased (r : R) (t : Z) (owner : string) (d : Z) (val : string) : Prop := {
  ls_data : hget r (Data keys) (FormatUint t) = Some val;
  ls_pending : zscore r (Pending keys) (FormatUint t) = None;
  ls_meta : hget r (Data keys) (metaKey (FormatUint t)) = Some (meta_encode owner d);
  ls_index b v : hget r (Index keys) b = Some v → ∃ t', v = FormatUint t';
}.

(** Fields of one timer are not those of another. *)
Lemma other_fields t t' : t' ≠ t →
  FormatUint t' ≠ FormatUint t ∧ metaKey (FormatUint t') ≠ metaKey (FormatUint t) ∧
  FormatUint t' ≠ metaKey (FormatUint t) ∧ metaKey (FormatUint t') ≠ FormatUint t.
Proof.
  intros Hne. split_and!.
  - by intros ?%FormatUint_inj.
  - by intros ?%metaKey_inj%FormatUint_inj.
  - apply FormatUint_not_meta.
  - intros Heq. by eapply FormatUint_not_meta.
Qed.

(** What each command keeps of a lease. *)
Lemma leased_zrem r t o d val k m : leased r t o d val → leased (zrem r k m) t o d val.
Proof.
  intros [Hd Hp Hm Hx]. split; redis; try done; [by case_decide|].
  intros b v. redis. apply Hx.
Qed.

Lemma leased_zadd r t o d val k m sc :
  leased r t o d val → k ≠ Pending keys ∨ m ≠ FormatUint t → leased (zadd r k m sc) t o d val.
Proof.
  intros [Hd Hp Hm Hx] Hk. split; redis; try done; [case_decide; [tauto|done]|].
  intros b v. redis. apply Hx.
Qed.

Lemma leased_hdel r t o d val k f :
  leased r t o d val → k ≠ Data keys ∨ (f ≠ FormatUint t ∧ f ≠ metaKey (FormatUint t)) →
  leased (hdel r k f) t o d val.
Proof.
  intros [Hd Hp Hm Hx] Hk. split; redis; try done; [case_decide; [tauto|done]..|].
  intros b v. redis. case_decide; [done|]. apply Hx.
Qed.

Lemma leased_hset r t o d val k f v :
  leased r t o d val → k ≠ Data keys ∨ (f ≠ FormatUint t ∧ f ≠ metaKey (FormatUint t)) →
  k ≠ Index keys ∨ (∃ t', v = FormatUint t') → leased (hset r k f v) t o d val.
Proof.
  intros [Hd Hp Hm Hx] Hk Hi. split; redis; try done; [case_decide; [tauto|done]..|].
  intros b v'. redis. case_decide as Hc; [|apply Hx]. intros [= <-]. destruct Hi as [Hi|Hi]; [|done].
  exfalso. apply Hi. tauto.
Qed.

Lemma claim_leased r t o d t' o' l' n' r' b val :
  leased r t o d val → ClaimForProcessing keysOf r uid t' o' l' n' = Some (r', b) →
  leased r' t o d val ∧ (t' = t → b = false).
Proof.
  intros L. unfold ClaimForProcessing, claimScript. case_decide; [done|]. case_decide; [done|].
  destruct (decide (t' = t)) as [->|Hne].
  - rewrite (ls_data _ _ _ _ _ L), (ls_pending _ _ _ _ _ L). by intros [= <- <-].
  - destruct (other_fields t t' Hne) as (N1 & N2 & N3 & N4).
    destruct (hget r _ _); [|by intros [= <- <-]]. destruct (zscore r _ _); [|by intros [= <- <-]].
    intros [= <- <-]. split; [|done]. apply leased_zadd, or_intror, N1. apply leased_hset; auto. by apply leased_zrem.
Qed.

Lemma complete_leased r t o d t' o' r' x val :
  leased r t o d val → t' ≠ t ∨ o' ≠ o → CompleteProcessing codec keysOf r uid t' o' = Some (r', x) →
  leased r' t o d val ∧ (t' = t → ok_true x = false).
Proof.
  intros L Hr. unfold CompleteProcessing. case_decide; [done|].
  destruct (loadRecordByTimerID _ _ _ _ _) as [found|e]; [|by intros [= <- <-]]. unfold completeScript.
  destruct (decide (t' = t)) as [->|Hne].
  - rewrite (ls_data _ _ _ _ _ L). unfold mayComplete. rewrite (ls_meta _ _ _ _ _ L), meta_owner.
    rewrite bool_decide_eq_false_2 by naive_solver. by intros [= <- <-].
  - destruct (other_fields t t' Hne) as (N1 & N2 & N3 & N4).
    destruct (hget r _ _); [|by intros [= <- <-]]. destruct (mayComplete _ _ _ _ _); [|by intros [= <- <-]].
    intros [= <- <-]. split; [|done].
    repeat case_decide; repeat (apply leased_zrem || apply leased_hdel); auto.
Qed.

Lemma requeue_leased r t o d t' n val :
  leased r t o d val → t' ≠ t ∨ UnixMilli n < d →
  leased (requeueProcessingTimer codec keysOf r uid (FormatUint t') n).1 t o d val.
Proof.
  intros L Hr. unfold requeueProcessingTimer.
  destruct (loadRecordByTimerID _ _ _ _ _) as [found|e]; [|done]. unfold requeueScript.
  destruct (decide (t' = t)) as [->|Hne].
  - rewrite (ls_data _ _ _ _ _ L). unfold deadlineOf. rewrite (ls_meta _ _ _ _ _ L), meta_deadline. simpl.
    rewrite decide_True by (destruct Hr; [done|lia]). done.
  - destruct (other_fields t t' Hne) as (N1 & N2 & N3 & N4).
    repeat case_match; simplify_eq/=; try done; repeat (apply leased_zadd || apply leased_zrem || apply leased_hdel); auto.
Qed.

Lemma remove_leased r t o d t' val :
  leased r t o d val → t' ≠ t → leased (RemoveByTimerID codec keysOf r uid t').1 t o d val.
Proof.
  intros L Hne. destruct (other_fields t t' Hne) as (N1 & N2 & N3 & N4). unfold RemoveByTimerID.
  repeat case_match; simplify_eq/=; repeat (apply leased_zrem || apply leased_hdel); auto.
Qed.

Lemma add_leased r t o d rec val :
  leased r t o d val → TimerID codec rec ≠ t →
  hget r (Index keys) (BusinessID codec rec) ≠ Some (FormatUint t) →
  leased (Add codec keysOf r uid rec).1 t o d val.
Proof.
  intros L Hne Hi. destruct (other_fields t _ Hne) as (N1 & N2 & N3 & N4). unfold Add.
  destruct (Marshal _ _) as [v|]; [|done].
  assert (leased (replaceOld r keys (BusinessID codec rec) (FormatUint (TimerID codec rec))) t o d val) as L0.
  { unfold replaceOld. case_decide; [|done]. destruct (hget r _ _) as [old|] eqn:Ho; [|done]. case_decide; [|done].
    destruct (ls_index _ _ _ _ _ L _ _ Ho) as [told ->].
    destruct (other_fields t told) as (M1 & M2 & M3 & M4); [naive_solver|]. unfold dropOld.
    repeat (apply leased_zrem || apply leased_hdel); auto. }
  simpl. case_decide; repeat (apply leased_hset || apply leased_zrem || apply leased_zadd); eauto.
Qed.

Lemma call_leased r t o d val op r' b :
  leased r t o d val → releases r t o d op = false → call r op = Some (r', b) →
  leased r' t o d val ∧
  (match op with OClaim t' _ _ _ | OComplete t' _ => t' = t | _ => False end → b = false).
Proof.
  intros L Hr HE. destruct op as [rec|t'|t' o' l' n'|t' o'|t' n']; simpl in Hr, HE;
    try apply bool_decide_eq_false in Hr.
  - pose proof (add_leased r t o d rec val L) as La. destruct (Add _ _ _ _ _) as [r1 e]. injection HE as <- <-. split; [apply La|]; tauto.
  - pose proof (remove_leased r t o d t' val L Hr) as La. destruct (RemoveByTimerID _ _ _ _ _) as [r1 b1]. by injection HE as <- <-.
  - by eapply claim_leased.
  - apply bind_Some in HE as ([r1 x] & HC & [= <- <-]). eapply complete_leased; [done| |done].
    destruct (decide (t' = t)); [right|by left]. intros ->. by apply Hr.
  - pose proof (requeue_leased r t o d t' n' val L) as La.
    destruct (requeueProcessingTimer _ _ _ _ _ _) as [r1 x]. injection HE as <- <-. split; [|done]. apply La.
    destruct (decide (t' = t)); [right|by left]. destruct (decide (d ≤ UnixMilli n')); [exfalso; by apply Hr|lia].
Qed.

Lemma serve_leased t o d val l : ∀ r r' bs,
  leased r t o d val → serve r t o d l = Some (r', bs) →
  leased r' t o d val ∧ Forall (λ b, b = false) bs.
Proof.
  induction l as [|op l IH]; intros r r' bs L HE; cbn [serve] in HE; [injection HE as <- <-; auto|].
  destruct (releases r t o d op) eqn:Hr; [done|].
  destruct (call r op) as [[r1 b]|] eqn:HC; [|done]. cbn [mbind option_bind] in HE.
  destruct (serve r1 t o d l) as [[r2 bs2]|] eqn:HS; [|done]. injection HE as <- <-.
  destruct (call_leased _ _ _ _ _ _ _ _ L Hr HC) as [L1 Hb]. destruct (IH _ _ _ L1 HS) as [L2 Hf].
  split; [done|]. destruct op; repeat case_decide; auto.
Qed.

(** Nothing of the timer is left. *)
Definition erased (r : R) (t : Z) : Prop :=
  hget r (Data keys) (FormatUint t) = None ∧ hget r (Data keys) (metaKey (FormatUint t)) = None ∧
  zscore r (Pending keys) (FormatUint t) = None ∧ zscore r (Processing keys) (FormatUint t) = None.

Lemma erased_hdel r t k f : erased r t → erased (hdel r k f) t.
Proof. intros (E1 & E2 & E3 & E4). unfold erased. redis. rewrite E1, E2. by repeat case_decide. Qed.

Lemma erase_erased r t :
  let id := FormatUint t in
  erased (zrem (zrem (hdel (hdel r (Data keys) id) (Data keys) (metaKey id)) (Pending keys) id) (Processing keys) id) t.
Proof.
  unfold erased. redis. split_and!.
  - case_decide; [done|]. by rewrite decide_True.
  - by rewrite decide_True.
  - case_decide; [done|]. by rewrite decide_True.
  - by rewrite decide_True.
Qed.

Lemma owner_completes r t o d val :
  leased r t o d val → o ≠ "" → is_Some (decode codec r keys (FormatUint t) val) →
  ∃ r', CompleteProcessing codec keysOf r uid t o = Some (r', Ok true) ∧ erased r' t.
Proof.
  intros L Ho [rec Hrec]. unfold CompleteProcessing, loadRecordByTimerID. rewrite decide_False by done.
  rewrite (ls_data _ _ _ _ _ L), Hrec. unfold completeScript, mayComplete.
  rewrite (ls_data _ _ _ _ _ L), (ls_meta _ _ _ _ _ L), meta_owner, bool_decide_eq_true_2 by done.
  eexists. split; [done|]. set (r1 := zrem _ _ _).
  assert (erased r1 t) as He by apply erase_erased. repeat case_decide; auto using erased_hdel.
Qed.

(** A claim that is granted starts a lease. *)
Lemma claim_starts r t o lease now r' :
  (∀ b v, hget r (Index keys) b = Some v → ∃ t', v = FormatUint t') →
  ClaimForProcessing keysOf r uid t o lease now = Some (r', true) →
  ∃ val, hget r (Data keys) (FormatUint t) = Some val ∧ leased r' t o (UnixMilli (now + lease)) val ∧
         zscore r' (Processing keys) (FormatUint t) = Some (UnixMilli (now + lease)) ∧
         o ≠ "" ∧ ∀ f, hget r' (Index keys) f = hget r (Index keys) f.
Proof.
  intros Hx. unfold ClaimForProcessing, claimScript. case_decide; [done|]. case_decide; [done|].
  destruct (hget r _ _) as [val|] eqn:Hv; [|done]. destruct (zscore r _ _) eqn:Hz; [|done]. intros [= <-].
  exists val. split; [done|].
  assert (metaKey (FormatUint t) ≠ FormatUint t) by (intros E; by eapply FormatUint_not_meta).
  split_and!; [|redis; by rewrite decide_True|done|intros f; redis; rewrite decide_False by naive_solver; done].
  split; redis.
  - by rewrite decide_False by naive_solver.
  - rewrite decide_False by naive_solver. by rewrite decide_True.
  - by rewrite decide_True.
  - intros b v. redis. rewrite decide_False by naive_solver. apply Hx.
Qed.

(** C21 (safety): a claim is an exclusive lease.  After a claim of a timer was
    granted, through any sequence of calls that does not add, remove or replace the
    timer, complete it as its owner or requeue it after the deadline, every other
    claim of the timer and every completion by another owner is refused; and the
    owner can still complete it, which leaves nothing of the timer in the store. *)
Theorem claim_exclusive r t o lease now r1 l r2 bs :
  (∀ b v, hget r (Index keys) b = Some v → ∃ t', v = FormatUint t') →
  (∀ val r', hget r (Data keys) (FormatUint t) = Some val → is_Some (decode codec r' keys (FormatUint t) val)) →
  ClaimForProcessing keysOf r uid t o lease now = Some (r1, true) →
  serve r1 t o (UnixMilli (now + lease)) l = Some (r2, bs) →
  Forall (λ b, b = false) bs ∧
  ∃ r3, CompleteProcessing codec keysOf r2 uid t o = Some (r3, Ok true) ∧ erased r3 t.
Proof.
  intros Hx Hdec Hc Hs. destruct (claim_starts r t o lease now r1 Hx Hc) as (val & Hv & L & _ & Ho & _).
  destruct (serve_leased _ _ _ _ _ _ _ _ L Hs) as [L2 Hf]. split; [done|]. eapply owner_completes; eauto.
Qed.

(** Liveness: crash recovery.  Once the deadline of a claim has passed, the
    requeue finds the timer among the expired ones and makes it pending again at its
    due time, another owner can claim it, and a late completion by the first owner is
    then refused. *)
Theorem requeue_recovers r t o lease now r1 now1 o2 lease2 now2 rec :
  (∀ b v, hget r (Index keys) b = Some v → ∃ t', v = FormatUint t') →
  (∀ val r', hget r (Data keys) (FormatUint t) = Some val → decode codec r' keys (FormatUint t) val = Some rec) →
  ClaimForProcessing keysOf r uid t o lease now = Some (r1, true) →
  0 ≤ UnixMilli (now + lease) ≤ UnixMilli now1 → o2 ≠ "" → o2 ≠ o → 0 < lease2 →
  FormatUint t ∈ zrangebyscore r1 (Processing keys) (UnixMilli now1) ∧
  ∃ r2 r3, requeueProcessingTimer codec keysOf r1 uid (FormatUint t) now1 = (r2, Ok true) ∧
    zscore r2 (Pending keys) (FormatUint t) = Some (DueTimeMs codec rec) ∧
    zscore r2 (Processing keys) (FormatUint t) = None ∧
    ClaimForProcessing keysOf r2 uid t o2 lease2 now2 = Some (r3, true) ∧
    CompleteProcessing codec keysOf r3 uid t o = Some (r3, Ok false).
Proof.
  intros Hx Hdec Hc Hd Ho2 Hne Hl. destruct (claim_starts r t o lease now r1 Hx Hc) as (val & Hv & L & Hz & Ho & HI).
  split; [apply zrangebyscore_spec; eauto|].
  assert (metaKey (FormatUint t) ≠ FormatUint t) as Hmk by (intros E; by eapply FormatUint_not_meta).
  unfold requeueProcessingTimer, loadRecordByTimerID.
  rewrite (ls_data _ _ _ _ _ L), (Hdec val r1 Hv). unfold requeueScript, deadlineOf.
  rewrite (ls_data _ _ _ _ _ L), (ls_meta _ _ _ _ _ L), meta_deadline. simpl. rewrite decide_False by lia.
  set (r2 := zadd _ _ _ _).
  assert (hget r2 (Data keys) (FormatUint t) = Some val) as Hv2
    by (subst r2; redis; rewrite decide_False by naive_solver; apply (ls_data _ _ _ _ _ L)).
  assert (zscore r2 (Pending keys) (FormatUint t) = Some (DueTimeMs codec rec)) as Hp2
    by (subst r2; redis; by rewrite decide_True).
  eexists r2, _. split; [done|]. split; [done|].
  split; [subst r2; redis; rewrite decide_False by naive_solver; by rewrite decide_True|].
  split; [unfold ClaimForProcessing, claimScript; rewrite decide_False, decide_False, Hv2, Hp2 by (done || lia); done|].
  unfold CompleteProcessing, loadRecordByTimerID. rewrite decide_False by done. redis.
  rewrite decide_False by naive_solver. redis. rewrite Hv2, (Hdec val _ Hv).
  unfold completeScript, mayComplete. redis. rewrite decide_False by naive_solver. redis. rewrite Hv2, decide_True by done.
  rewrite meta_owner, bool_decide_eq_false_2 by naive_solver. done.
Qed.

End lease.

(** ** Instances on a concrete store *)

Notation table A := (list (string * string * A)).

Fixpoint assoc {A} (l : table A) (key : string * string) : option A :=
  match l with [] => None | (k, v) :: l => if decide (k = key) then Some v else assoc l key end.
Definition unset {A} (l : table A) (key : string * string) : table A := filter (λ p, p.1 ≠ key) l.
Definition members {A} (l : table A) (k : string) : list string :=
  omap (λ p : string * string * A, if decide (p.1.1 = k) then Some p.1.2 else None) l.

Lemma assoc_unset {A} (l : table A) key key' :
  assoc (unset l key) key' = if decide (key = key') then None else assoc l key'.
Proof.
  unfold unset. induction l as [|[k v] l IH]; simpl; [by case_decide|].
  destruct (decide (k = key)) as [->|Hne].
  - rewrite filter_cons_False by (simpl; tauto). rewrite IH. by repeat case_decide.
  - rewrite filter_cons_True by done. simpl. rewrite IH. repeat case_decide; congruence.
Qed.

Lemma assoc_members {A} (l : table A) k m v : assoc l (k, m) = Some v → m ∈ members l k.
Proof.
  unfold members. induction l as [|[[k' m'] v'] l IH]; [done|]. cbn [assoc omap list_omap fst snd].
  case_decide as E; intros Hv.
  - injection E as -> ->. rewrite decide_True by done. set_solver.
  - apply IH in Hv. case_decide; set_solver.
Qed.

Definition within (score : option Z) (max : Z) : bool :=
  match score with Some s => bool_decide (0 ≤ s ≤ max) | None => false end.

Definition memory : Type := table string * table Z.

#[local] Instance memory_redis : Redis memory := {|
  hget r k f := assoc r.1 (k, f);
  hset r k f v := (((k, f), v) :: r.1, r.2);
  hdel r k f := (unset r.1 (k, f), r.2);
  hgetall r k := omap (λ f, (f,.) <$> assoc r.1 (k, f)) (members r.1 k);
  zscore r k m := assoc r.2 (k, m);
  zadd r k m s := (r.1, ((k, m), s) :: r.2);
  zrem r k m := (r.1, unset r.2 (k, m));
  zrange r k := members r.2 k;
  zrangebyscore r k max := filter (λ m, within (assoc r.2 (k, m)) max = true) (members r.2 k);
|}.

#[local] Instance memory_laws : RedisLaws memory.
Proof.
  split; intros; simpl; rewrite ?assoc_unset; try done; try (repeat case_decide; naive_solver).
  rewrite list_elem_of_filter. split.
  - intros [Hs _]. destruct (assoc r.2 (k, m)) as [s'|]; [|done]. apply bool_decide_eq_true in Hs. eauto.
  - intros (s' & Hs & Hr). rewrite Hs. split; [by apply bool_decide_eq_true|]. by eapply assoc_members.
Qed.

(** Data written as the bits of its code. *)
Fixpoint bits (p : positive) : string :=
  match p with xH => "" | xO p => String "0"%char (bits p) | xI p => String "1"%char (bits p) end.
Fixpoint unbits (s : string) : positive :=
  match s with
  | EmptyString => xH
  | String c s => if decide (c = "1"%char) then xI (unbits s) else xO (unbits s)
  end.
Lemma unbits_bits p : unbits (bits p) = p.
Proof. by induction p as [p IH|p IH|]; simpl; rewrite ?IH. Qed.

#[local] Instance bits_cjson : Cjson := {|
  meta_encode o d := bits (countable.encode (o, d));
  json_string s name := if decide (name = "owner") then fst <$> countable.decode (A := string * Z) (unbits s) else None;
  json_number s name := if decide (name = "deadline") then snd <$> countable.decode (A := string * Z) (unbits s) else None;
|}.
#[local] Instance bits_cjson_laws : CjsonLaws.
Proof. split; intros; simpl; by rewrite unbits_bits, decode_encode. Qed.

(** Records: timer, business identifier, due time. *)
Definition exampleCodec : Codec (Z * string * Z) :=
  MkCodec _ (λ r, Some (bits (countable.encode r))) (λ s, countable.decode (unbits s)) None
    (λ r, r.1.1) (λ r, r.1.2) (λ r, r.2) id.
Definition exampleKeys (uid : Z) : Keys := MkKeys "p" "q" "d" "i".
Definition exampleStore : memory := (Add exampleCodec exampleKeys ([], []) 0 (7, "", 5)).1.

Lemma exampleStore_index b v : hget exampleStore (Index (exampleKeys 0)) b = Some v → ∃ t', v = FormatUint t'.
Proof. done. Qed.

Lemma exampleStore_decode val (r : memory) :
  hget exampleStore (Data (exampleKeys 0)) (FormatUint 7) = Some val →
  decode exampleCodec r (exampleKeys 0) (FormatUint 7) val = Some (7, "", 5).
Proof.
  intros [= <-]. vm_compute. reflexivity.
Qed.

Definition exampleLeased : memory :=
  from_option fst exampleStore (ClaimForProcessing exampleKeys exampleStore 0 7 "a" 1000000 0).
Definition exampleCalls : list (op (T := Z * string * Z)) := [OClaim 7 "b" 1 1; OComplete 7 "b"; ORequeue 7 0].
Definition exampleServed : memory :=
  from_option fst exampleStore (serve exampleCodec exampleKeys 0 exampleLeased 7 "a" 1 exampleCalls).

Lemma exampleStore_claim : ClaimForProcessing exampleKeys exampleStore 0 7 "a" 1000000 0 = Some (exampleLeased, true).
Proof. vm_compute. reflexivity. Qed.

Lemma claim_exclusive_witness :
  ∃ r3, CompleteProcessing exampleCodec exampleKeys exampleServed 0 7 "a" = Some (r3, Ok true) ∧ erased exampleKeys 0 r3 7.
Proof.
  refine (proj2 (claim_exclusive exampleCodec exampleKeys 0 _ _ exampleStore 7 "a" 1000000 0 exampleLeased
    exampleCalls exampleServed [false; false] exampleStore_index _ exampleStore_claim _)).
  - vm_compute. congruence.
  - vm_compute. congruence.
  - intros val r' Hv. rewrite (exampleStore_decode val r' Hv). by eexists.
  - vm_compute. reflexivity.
Defined.

Lemma requeue_recovers_witness :
  FormatUint 7 ∈ zrangebyscore exampleLeased "q" 2.
Proof.
  refine (proj1 (requeue_recovers exampleCodec exampleKeys 0 _ _ exampleStore 7 "a" 1000000 0 exampleLeased 2000000 "b" 1 3 (7, "", 5)
    exampleStore_index exampleStore_decode exampleStore_claim _ _ _ _)); vm_compute; try congruence.
  split; congruence.
Defined.

End RedisQueue.
