(* ===== verification/Wire.v ===== *)
(** * Envelopes and errors (src/cluster/internal/wire/wire.proto, io.go, errors.go and the
    conversions of node.go)

    Envelopes are the messages of wire.proto; their protobuf encoding is a
    parameter.  An error value is the set of sentinel errors it matches with
    errors.Is and its message. *)

From stdpp Require Import pretty.
From S2P Require Import Prelude Frame System Dispatch.

Module Wire.

#[local] Open Scope string_scope.
#[local] Open Scope list_scope.
#[local] Open Scope Z_scope.

(** ** Messages *)

Inductive Kind :=
  | KIND_UNSPECIFIED | KIND_HELLO | KIND_HELLO_ACK | KIND_RESOLVE_REQUEST | KIND_RESOLVE_RESPONSE
  | KIND_CALL | KIND_SEND | KIND_RESPONSE | KIND_PING | KIND_PONG | KIND_CANCEL
  | KIND_OTHER (n : Z).

#[global] Instance kind_eq_dec : EqDecision Kind.
Proof. solve_decision. Defined.

Definition kindNumber (k : Kind) : Z :=
  match k with
  | KIND_UNSPECIFIED => 0 | KIND_HELLO => 1 | KIND_HELLO_ACK => 2 | KIND_RESOLVE_REQUEST => 3
  | KIND_RESOLVE_RESPONSE => 4 | KIND_CALL => 5 | KIND_SEND => 6 | KIND_RESPONSE => 7
  | KIND_PING => 8 | KIND_PONG => 9 | KIND_CANCEL => 10 | KIND_OTHER n => n
  end.

Record wireTarget := WireTarget { wt_Node : string; wt_Incarnation : string; wt_Service : string; wt_Address : Z; wt_Generation : Z }.
Record wireFrame := WireFrame { wf_Node : string; wf_Service : string; wf_Protocol : string }.
Record wireError := WireError { we_Code : Z; we_Message : string }.

Record Envelope := Env {
  Version : Z;
  kind : Kind;
  RequestId : Z;
  SourceNode : string;
  Incarnation : string;
  TimestampUnixMilli : Z;
  Nonce : list Z;
  Mac : list Z;
  Target : option wireTarget;
  Service : string;
  Protocol : string;
  Fingerprint : string;
  DeadlineUnixNano : Z;
  CallPath : list wireFrame;
  Payload : list Z;
  Error : option wireError;
  TraceId : string;
}.

#[global] Instance wireTarget_eq_dec : EqDecision wireTarget.
Proof. solve_decision. Defined.
#[global] Instance wireFrame_eq_dec : EqDecision wireFrame.
Proof. solve_decision. Defined.
#[global] Instance wireError_eq_dec : EqDecision wireError.
Proof. solve_decision. Defined.
#[global] Instance envelope_eq_dec : EqDecision Envelope.
Proof. solve_decision. Defined.

Definition protocolVersion : Z := 1.

(** An envelope with only a kind, a request and a source. *)
Definition header (k : Kind) (source : string) (request : Z) : Envelope :=
  Env protocolVersion k request source "" 0 [] [] None "" "" "" 0 [] [] None "".

(** ** Conversions (node.go) *)

Definition toWireTarget (t : System.RemoteTarget) : wireTarget :=
  WireTarget (System.t_Node t) (System.t_Incarnation t) (System.t_Service t) (System.t_Address t) (System.t_Generation t).

(** The getters of a nil target return zero values. *)
Definition fromWireTarget (t : option wireTarget) : System.RemoteTarget :=
  match t with
  | Some t => System.Target (wt_Node t) (wt_Incarnation t) (wt_Service t) (wt_Address t) (wt_Generation t)
  | None => System.Target "" "" "" 0 0
  end.

Definition toWirePath (path : list Dispatch.CallFrame) : list wireFrame :=
  (λ f, WireFrame (Dispatch.Node f) (Dispatch.Service f) (Dispatch.Protocol f)) <$> path.
Definition fromWirePath (path : list wireFrame) : list Dispatch.CallFrame :=
  (λ f, Dispatch.Frame (wf_Node f) (wf_Service f) (wf_Protocol f)) <$> path.

Lemma target_roundtrip t : fromWireTarget (Some (toWireTarget t)) = t.
Proof. by destruct t. Qed.
Lemma path_roundtrip p : fromWirePath (toWirePath p) = p.
Proof. unfold fromWirePath, toWirePath. induction p as [|[n s q] p IH]; [done|]. simpl. f_equal. apply IH. Qed.

(** ** Errors (errors.go) *)

Inductive sentinel :=
  | ErrRemoteUnavailable | ErrStaleRef | ErrServiceNotFound | ErrServiceNotReady | ErrServiceStopping
  | ErrProtocolNotFound | ErrProtocolTypeMismatch | ErrCodec | ErrMailboxTimeout | ErrMailboxFull
  | ErrCallTimeout | ErrCallCycle | ErrTransportBackpressure
  | OtherSentinel (n : nat).

#[global] Instance sentinel_eq_dec : EqDecision sentinel.
Proof. solve_decision. Defined.

Record goError := GoError { matches : list sentinel; message : string }.

Definition Is (e : goError) (s : sentinel) : bool := bool_decide (s ∈ matches e).

(** The cases of encodeError, in order. *)
Definition encodeCases : list (sentinel * Z) :=
  [(ErrRemoteUnavailable, 1); (ErrStaleRef, 2); (ErrServiceNotFound, 3); (ErrServiceNotReady, 4);
   (ErrServiceStopping, 5); (ErrProtocolNotFound, 6); (ErrProtocolTypeMismatch, 7); (ErrCodec, 8);
   (ErrMailboxTimeout, 9); (ErrMailboxFull, 10); (ErrCallTimeout, 11); (ErrCallCycle, 12);
   (ErrTransportBackpressure, 13)].
Definition ERROR_CODE_OK : Z := 0.
Definition ERROR_CODE_HANDLER : Z := 14.

Fixpoint firstCode (e : goError) (cases : list (sentinel * Z)) : Z :=
  match cases with
  | [] => ERROR_CODE_HANDLER
  | (s, c) :: cases => if Is e s then c else firstCode e cases
  end.

Definition encodeError (err : option goError) : option wireError :=
  e ← err; Some (WireError (firstCode e encodeCases) (message e)).

(** The switch of decodeError. *)
Definition causeOf (code : Z) : option sentinel :=
  if decide (code = 1) then Some ErrRemoteUnavailable
  else if decide (code = 2) then Some ErrStaleRef
  else if decide (code = 3) then Some ErrServiceNotFound
  else if decide (code = 4) then Some ErrServiceNotReady
  else if decide (code = 5) then Some ErrServiceStopping
  else if decide (code = 6) then Some ErrProtocolNotFound
  else if decide (code = 7) then Some ErrProtocolTypeMismatch
  else if decide (code = 8) then Some ErrCodec
  else if decide (code = 9) then Some ErrMailboxTimeout
  else if decide (code = 10) then Some ErrMailboxFull
  else if decide (code = 11) then Some ErrCallTimeout
  else if decide (code = 12) then Some ErrCallCycle
  else if decide (code = 13) then Some ErrTransportBackpressure
  else None.

Record RemoteError := Remote { Code : Z; Message : string; cause : option sentinel }.

Definition decodeError (remote : option wireError) : option RemoteError :=
  match remote with
  | None => None
  | Some r =>
      if decide (we_Code r = ERROR_CODE_OK) then None
      else Some (Remote (we_Code r) (we_Message r) (causeOf (we_Code r)))
  end.

(** The error methods: Error formats code and message, Unwrap gives the cause. *)
Definition asError (e : RemoteError) : goError :=
  GoError (option_list (cause e)) ("cluster: remote error " +:+ pretty (Code e) +:+ ": " +:+ Message e).

(** ** Streams of envelopes (io.go) *)

Section io.
Context (Marshal : Envelope → option (list Z)) (Unmarshal : list Z → option Envelope).

Inductive ioError := IOFrame (e : Frame.io_error) | ErrProto.

Definition readEnvelope (r : Frame.reader) (max : Z) : result ioError Envelope * Frame.reader :=
  match Frame.ReadLimit r max with
  | (Err e, r') => (Err (IOFrame e), r')
  | (Ok payload, r') => (match Unmarshal payload with Some e => Ok e | None => Err ErrProto end, r')
  end.

Definition writeEnvelope (w : Frame.writer) (e : Envelope) (max : Z) : Frame.writer * option ioError :=
  match Marshal e with
  | None => (w, Some ErrProto)
  | Some payload => let '(w', err) := Frame.WriteLimit w payload max in (w', IOFrame <$> err)
  end.

(** An envelope that was written is read back, whatever follows it. *)
Lemma envelope_roundtrip w e max w' rest end_ :
  (∀ e' p, Marshal e' = Some p → Unmarshal p = Some e') →
  writeEnvelope w e max = (w', None) →
  ∃ image, Frame.wr_out w' = Frame.wr_out w ++ image ∧
    readEnvelope (Frame.Reader (image ++ rest) end_) max = (Ok e, Frame.Reader rest end_).
Proof.
  intros Hp. unfold writeEnvelope. destruct (Marshal e) as [p|] eqn:Hm; [|done].
  destruct (Frame.WriteLimit w p max) as [w1 [err|]] eqn:Hw; [done|]. intros [= <-].
  unfold Frame.WriteLimit in Hw. case_decide as Hl; [done|].
  apply Frame.write_unchecked_ok in Hw as [Hlen Hout]. exists (Frame.encode p). split; [done|].
  unfold readEnvelope. rewrite Frame.read_encode by lia. by rewrite (Hp _ _ Hm).
Qed.
End io.

(** ** Lemmas on errors *)

Lemma firstCode_range e : 1 ≤ firstCode e encodeCases ≤ 14.
Proof. unfold encodeCases, firstCode, ERROR_CODE_HANDLER. repeat case_match; lia. Qed.

(** An error of another node as it arrives on this one. *)
Definition overWire (e : goError) : RemoteError :=
  Remote (firstCode e encodeCases) (message e) (causeOf (firstCode e encodeCases)).

Lemma decode_encode e : decodeError (encodeError (Some e)) = Some (overWire e).
Proof.
  unfold encodeError, decodeError. cbn [mbind option_bind we_Code we_Message]. pose proof (firstCode_range e).
  rewrite decide_False; [done|]. unfold ERROR_CODE_OK. lia.
Qed.

(** The first sentinel of the table the error matches. *)
Definition dominant (e : goError) : option sentinel :=
  (λ x, x.2.1) <$> list_find (λ p, Is e p.1 = true) encodeCases.

Lemma causeOf_firstCode e : causeOf (firstCode e encodeCases) = dominant e.
Proof.
  unfold dominant. assert (Forall (λ p, causeOf p.2 = Some p.1) encodeCases) as Hc by (repeat constructor).
  induction Hc as [|[s c] cases Hc _ IH]; [done|]. cbn [firstCode list_find fst snd].
  destruct (Is e s); simpl; [done|]. rewrite IH. by destruct (list_find _ cases) as [[i p]|].
Qed.

Lemma dominant_self r : causeOf (Code r) = cause r → dominant (asError r) = cause r.
Proof.
  unfold causeOf. intros H. destruct (cause r) as [s|] eqn:Hc; unfold dominant, asError, Is; rewrite Hc.
  - repeat case_decide; simplify_eq; reflexivity.
  - done.
Qed.

(** C27 (round trip): errors across the wire.  A nil error stays nil, and only a nil
    error becomes nil.  Any other error arrives with its message and with the first
    sentinel of the table it matches as cause, so errors.Is finds it; an error that
    is forwarded by another node keeps that cause. *)
Theorem error_roundtrip (err : option goError) :
  match err, decodeError (encodeError err) with
  | None, None => True
  | Some e, Some r =>
      Message r = message e ∧ cause r = dominant e ∧
      (∀ s, Is (asError r) s = bool_decide (dominant e = Some s)) ∧
      (cause <$> decodeError (encodeError (Some (asError r)))) = Some (cause r)
  | _, _ => False
  end.
Proof.
  destruct err as [e|]; [|done]. cbn [encodeError mbind option_bind decodeError we_Code we_Message].
  pose proof (firstCode_range e) as Hr. rewrite decide_False by (unfold ERROR_CODE_OK; lia).
  cbn [Message cause]. rewrite causeOf_firstCode. split_and!; [done..| |].
  - intros s. unfold Is, asError. simpl. destruct (dominant e) as [s'|]; simpl; [apply bool_decide_ext; set_solver|done].
  - set (r := Remote _ _ _). pose proof (firstCode_range (asError r)) as Hr'.
    rewrite decide_False by (unfold ERROR_CODE_OK; lia). cbn [fmap option_fmap option_map cause]. f_equal. rewrite causeOf_firstCode.
    apply (dominant_self r). apply causeOf_firstCode.
Qed.

End Wire.
