(* ===== verification/Remote.v ===== *)
(** * Typed calls across processes (src/actor/remote.go, src/actor/method.go,
    src/actor/protowire/protowire.go)

    The remote halves of Method.Call and Notification.Send on one node and DispatchRemote
    on the other, on top of the checks of [Dispatch], the codecs of [Codec] and the
    descriptors of [Method]. The two processes share the message types, not the
    descriptors: what ties them together is the fingerprint. *)

From S2P Require Import Prelude Runtime System Dispatch Codec Method Wire.

Module Remote.
Import Codec Method.

Inductive rerror :=
  | RInvalidArgs | RAlreadyAttached | RUnavailable | RStaleRef
  | RNoWireCodec
  | RMismatch                        (* the response has another type *)
  | RDispatch (e : Dispatch.derror)
  | RCall (e : error)
  | RGo (e : Wire.goError)           (* any other error: of a wait, a timer, a connection *)
  | RRemote (e : Wire.RemoteError).  (* an error of the other node, from its answer *)

(** ** Errors as the cluster's encodeError sees them *)

Section errors.
(** The sentinels that a handler's own error matches, and the text of an error. *)
Context (userSentinels : nat → list Wire.sentinel) (text : rerror → string).

Definition registrySentinels (e : System.error) : list Wire.sentinel :=
  match e with
  | System.ErrServiceNotFound => [Wire.ErrServiceNotFound]
  | System.ErrServiceNotReady => [Wire.ErrServiceNotReady]
  | System.ErrServiceStopping => [Wire.ErrServiceStopping]
  | System.ErrStaleRef => [Wire.ErrStaleRef]
  | System.ErrProtocolNotFound => [Wire.ErrProtocolNotFound]
  | _ => []
  end.

Definition sentinels (e : rerror) : list Wire.sentinel :=
  match e with
  | RInvalidArgs | RAlreadyAttached => []
  | RUnavailable => [Wire.ErrRemoteUnavailable]
  | RStaleRef => [Wire.ErrStaleRef]
  | RNoWireCodec => [Wire.ErrCodec]
  | RMismatch => [Wire.ErrProtocolTypeMismatch]
  | RDispatch (Dispatch.Registry e) => registrySentinels e
  | RDispatch (Dispatch.ErrCallCycle _) => [Wire.ErrCallCycle]
  | RDispatch Dispatch.ErrYieldForbidden => []
  | RDispatch Dispatch.ErrProtocolTypeMismatch => [Wire.ErrProtocolTypeMismatch]
  | RDispatch Dispatch.ErrCodec => [Wire.ErrCodec]
  | RDispatch Dispatch.ErrRemoteUnavailable => [Wire.ErrRemoteUnavailable]
  | RCall (ErrCodec _) => [Wire.ErrCodec]
  | RCall (ErrUser c) => userSentinels c
  | RCall ErrInvalidArgs | RCall (ErrPanic _) => []
  | RGo e => Wire.matches e
  | RRemote e => option_list (Wire.cause e)
  end.

Definition asGo (e : rerror) : Wire.goError :=
  match e with
  | RGo e => e
  | RRemote e => Wire.asError e
  | _ => Wire.GoError (sentinels e) (text e)
  end.

(** ** Node.Call (src/cluster/node.go) *)

(** What becomes of a request to another node: it fails on this side (no connection,
    another incarnation, a full queue, a timeout, a cancellation), the other node refuses
    it before dispatching it, or the other node answers it with the result of
    DispatchRemote. *)
Inductive link := Lost (e : rerror) | Refused (e : Wire.goError) | Answered.

(** The payload and the error of the answer that Node.request gives, which
    writeResponse has encoded on the other node. *)
Definition request (l : link) (dispatched : result rerror (list Z)) : result rerror (option Wire.wireError * list Z) :=
  match l with
  | Lost e => Err e
  | Refused e => Ok (Wire.encodeError (Some e), [])
  | Answered =>
      match dispatched with
      | Ok payload => Ok (Wire.encodeError None, payload)
      | Err e => Ok (Wire.encodeError (Some (asGo e)), [])
      end
  end.

(** [self] and [incarnation] are the calling node's; [dispatched] is what DispatchRemote
    gives on the system of the node called, which is this one if it is the target. *)
Definition NodeCall (self incarnation : string) (l : link) (t : System.RemoteTarget) (dispatched : result rerror (list Z))
    : result rerror (list Z) :=
  if decide (System.t_Node t = self)
  then if decide (System.t_Incarnation t ≠ incarnation) then Err RStaleRef else dispatched
  else match request l dispatched with
       | Err e => Err e
       | Ok (err, payload) => match Wire.decodeError err with Some e => Err (RRemote e) | None => Ok payload end
       end.

(** What the caller's wait and its node make of the outcome on the node called. *)
Definition arrives {A} (self incarnation : string) (l : link) (t : System.RemoteTarget) (x : result rerror A) : result rerror A :=
  if decide (System.t_Node t = self)
  then if decide (System.t_Incarnation t ≠ incarnation) then Err RStaleRef else x
  else match l with
       | Lost e => Err e
       | Refused e => Err (RRemote (Wire.overWire e))
       | Answered => match x with Ok a => Ok a | Err e => Err (RRemote (Wire.overWire (asGo e))) end
       end.
Definition awaited {A} (md : Dispatch.awaitMode) (held : option rerror) (x : result rerror A) : result rerror A :=
  match md, held with Dispatch.Yield, Some e => Err e | _, _ => x end.

(** Decoding an answer that encodes the outcome [x] gives what arrives of [x]. *)
Lemma nodeCall_arrives {A} self incarnation l t d (x : result rerror A) (f : list Z → result rerror A) :
  match x with Err e => d = Err e | Ok a => ∃ b, d = Ok b ∧ f b = Ok a end →
  match NodeCall self incarnation l t d with Err e => Err e | Ok b => f b end = arrives self incarnation l t x.
Proof.
  intros H. unfold NodeCall, arrives. case_decide; [case_decide; [done|]|].
  - destruct x as [a|e]; [by destruct H as (b & -> & ?)|by rewrite H].
  - destruct l as [e|e|]; cbn [request]; [done|by rewrite Wire.decode_encode|].
    destruct x as [a|e]; [by destruct H as (b & -> & ?)|]. rewrite H. by rewrite Wire.decode_encode.
Qed.
End errors.

(** ** The transport of a system *)

Record transport := Transport {
  ResolveTarget : string → string → result rerror System.RemoteTarget;
  TCall : System.RemoteTarget → string → string → list Z → list Dispatch.CallFrame → result rerror (list Z);
  TSend : System.RemoteTarget → string → string → list Z → list Dispatch.CallFrame → bool → result rerror unit;
}.

(** The fields [node] and [remote] of a System. *)
Record attachment := Attached { nodeID : string; remoteTransport : option transport }.

Definition AttachRemoteTransport (s : attachment) (node : string) (t : option transport) : result rerror attachment :=
  match t with
  | None => Err RInvalidArgs
  | Some t =>
      if decide (node = EmptyString) then Err RInvalidArgs
      else match remoteTransport s with Some _ => Err RAlreadyAttached | None => Ok (Attached node (Some t)) end
  end.

(** [self] is the System pointer. *)
Definition ResolveRemote (self : nat) (s : attachment) (node service : string) : result rerror System.Ref :=
  match remoteTransport s with
  | None => Err RUnavailable
  | Some t =>
      match ResolveTarget t node service with
      | Err e => Err e
      | Ok target =>
          if decide (System.t_Node target = EmptyString ∨ System.t_Address target = 0 ∨ System.t_Generation target = 0)
          then Err RStaleRef
          else Ok (System.MkRef (System.t_Address target) (System.t_Generation target) (Some self) (Some target))
      end
  end.

(** A reference that ResolveRemote gives passes the checks that local use makes of it. *)
Lemma resolved_valid self s node service r :
  ResolveRemote self s node service = Ok r → System.valid r = true ∧ System.IsRemote r = true.
Proof.
  unfold ResolveRemote. destruct (remoteTransport s) as [t|]; [|done]. destruct (ResolveTarget t node service) as [target|]; [|done].
  case_decide as H; [done|]. intros [= <-]. unfold System.valid, System.IsRemote. cbn.
  rewrite !bool_decide_eq_true_2 by (try done; intros ?; apply H; tauto). done.
Qed.

(** The node's identity and transport are set once. *)
Lemma attached_once s node t s' node' t' :
  AttachRemoteTransport s node t = Ok s' → is_ok (AttachRemoteTransport s' node' t') = false.
Proof.
  unfold AttachRemoteTransport. destruct t as [t|]; [|done]. case_decide; [done|]. destruct (remoteTransport s); [done|].
  intros [= <-]. destruct t'; [|done]. cbn. by case_decide.
Qed.

(** ** The calling side *)

Section caller.
(** [held] is the error of an activation's wait, if its service refuses the yield or
    stops before it resumes. *)
Context (acts : nat → Dispatch.callerInfo) (s : attachment) (held : option rerror).

Definition attached (_ : nat) : bool := bool_decide (is_Some (remoteTransport s)).

Definition callRemote (ctx : option Dispatch.actorContextState) (r : System.Ref) (protocol : string) (wc : wireCodec) (args : list any)
    : result rerror any :=
  match Dispatch.callRemote acts attached ctx r (is_ok (MarshalRequest wc args)) with
  | Err e => Err (RDispatch e)
  | Ok (Dispatch.Remote t md path) =>
      match remoteTransport s, MarshalRequest wc args with
      | Some tr, Ok payload =>
          match md, held with
          | Dispatch.Yield, Some e => Err e
          | _, _ =>
              match TCall tr t protocol (Fingerprint wc) payload path with
              | Err e => Err e
              | Ok response => match UnmarshalResponse wc response with Ok v => Ok v | Err e => Err (RCall (wrapCodec e)) end
              end
          end
      | _, _ => Err RUnavailable
      end
  | Ok (Dispatch.Local _) => Err RUnavailable
  end.

Definition sendRemote (ctx : option Dispatch.actorContextState) (r : System.Ref) (protocol : string) (wc : wireCodec) (args : list any)
    (nonBlocking : bool) : result rerror unit :=
  if decide (ctx = None) then Err RInvalidArgs
  else match remoteTransport s, System.r_remote r with
       | Some tr, Some t =>
           match MarshalRequest wc args with
           | Err e => Err (RCall (wrapCodec e))
           | Ok payload => TSend tr t protocol (Fingerprint wc) payload (Dispatch.CallPath ctx) nonBlocking
           end
       | _, _ => Err RUnavailable
       end.
End caller.

(** ** The called side *)

Section callee.
Context {type : Type} (systems : gmap nat System.system) (nodes : nat → string) (w : world (type := type)).

(** The type assertion of a handler's codec to WireCodec. *)
Definition wireOf (c : nat) : option wireCodec :=
  match codecs w !! c with Some (Wired wc) => Some wc | _ => None end.
Definition fingerprintOf (c : nat) : option string := Fingerprint <$> wireOf c.
Definition decodes (c : nat) (payload : list Z) : bool :=
  match wireOf c with Some wc => is_ok (UnmarshalRequest wc payload) | None => false end.

(** DispatchRemote once the checks have passed: [interrupted] is the error of the
    admission, of the timer, of the context or of the service's stop, if one of them
    comes before the response. *)
Definition serve (h : System.handlerEntry) (payload : list Z) (notify : bool) (interrupted : option rerror) : result rerror (list Z) :=
  match wireOf (System.h_codec h), fns w !! System.h_fn h with
  | Some wc, Some f =>
      match UnmarshalRequest wc payload with
      | Err e => Err (RCall (wrapCodec e))
      | Ok args =>
          match PackRequest (base wc) args with
          | Err e => Err (RCall (wrapCodec e))
          | Ok _ =>
              match interrupted with
              | Some e => Err e
              | None =>
                  if notify then Ok []
                  else match call_local (base wc) f args with
                       | Err e => Err (RCall e)
                       | Ok v => match MarshalResponse wc v with Ok d => Ok d | Err e => Err (RCall (wrapCodec e)) end
                       end
              end
          end
      end
  | _, _ => Err (RDispatch Dispatch.ErrProtocolTypeMismatch)
  end.

Definition DispatchRemote (id : nat) (ctx : option Dispatch.actorContextState) (t : System.RemoteTarget) (protocol fp : string)
    (payload : list Z) (notify : bool) (interrupted : option rerror) : result rerror (list Z) :=
  match Dispatch.DispatchRemoteAsync systems nodes fingerprintOf decodes id ctx t protocol fp payload notify with
  | Err e => Err (RDispatch e)
  | Ok d => serve (Dispatch.entry d) payload notify interrupted
  end.
End callee.

(** ** Typed remote calls *)

Section typed.
Context {type : Type} {El : type → Type} {HT : ∀ t, GoType (El t)} {HU : GoType unit}.

(** The remote branches of Method.Call, Notification.Send and Notification.TrySend. *)
Definition Call {q p} (acts : nat → Dispatch.callerInfo) (s : attachment) (held : option rerror)
    (ctx : option Dispatch.actorContextState) (r : System.Ref) (m : Method (El := El) q p) (request : El q) : result rerror (El p) :=
  match m_token m, m_wire m with
  | Some _, Some wc =>
      match callRemote acts s held ctx r (m_name m) wc [box request] with
      | Err e => Err e
      | Ok value => match cast (T := El p) value with Some x => Ok x | None => Err RMismatch end
      end
  | _, _ => Err RNoWireCodec
  end.

Definition Send {q} (s : attachment) (ctx : option Dispatch.actorContextState) (r : System.Ref) (n : Notification (El := El) q)
    (request : El q) (nonBlocking : bool) : result rerror unit :=
  match n_token n, n_wire n with
  | Some _, Some wc => sendRemote s ctx r (n_name n) wc [box request] nonBlocking
  | _, _ => Err RNoWireCodec
  end.

(** ** Descriptors of protowire *)

Context {HP : ∀ t, ProtoMessage (El t)}.
(** The full name of a message type, and the hexadecimal SHA-256 of a text. *)
Context (fullName : type → string) (digest : string → string).

Definition noMessage : string := "<nil>".

Definition messageName {t} (factory : option (El t)) : string :=
  match factory with
  | None => noMessage
  | Some m => if isNilMessage m then noMessage else fullName t
  end.

Definition nul : string := String Ascii.zero EmptyString.
Definition fingerprintText (kind name request response : string) : string :=
  kind +:+ nul +:+ name +:+ nul +:+ request +:+ nul +:+ response.
Definition fingerprint (kind name request response : string) : string := digest (fingerprintText kind name request response).

Definition methodWire {q p} (name : string) (newRequest : option (El q)) (newResponse : option (El p)) : wireCodec :=
  methodCodec (fingerprint "call" name (messageName newRequest) (messageName newResponse)) newRequest newResponse.
Definition notificationWire {q} (name : string) (newRequest : option (El q)) : wireCodec :=
  notificationCodec (fingerprint "notification" name (messageName newRequest) "") newRequest.

Definition NewMethod (w : world) {q p} (name : string) (newRequest : option (El q)) (newResponse : option (El p))
    : world * Method (El := El) q p :=
  Method.NewMethod w q p name [WithMethodWireCodec (Some (methodWire name newRequest newResponse))].
Definition NewNotification (w : world) {q} (name : string) (newRequest : option (El q)) : world * Notification (El := El) q :=
  Method.NewNotification w q name [Some (inr (Some (notificationWire name newRequest)))].

(** The codecs for the wire that a program gets from protowire. *)
Definition protoWire (tok : methodToken) (wc : wireCodec) : Prop :=
  match tk_kind tok, tk_response tok with
  | methodCall, Some p => ∃ (nq : option (El (tk_request tok))) (np : option (El p)), wc = methodWire (tk_name tok) nq np
  | methodNotification, None => ∃ nq : option (El (tk_request tok)), wc = notificationWire (tk_name tok) nq
  | _, _ => False
  end.

(** What a caller gets from handler [fn]: exactly its outcome, if the response is a
    message that can be encoded. *)
Definition remoteMeaning {q p} (fn : El q → attempt (El p)) (request : El q) : result rerror (El p) :=
  match fn request with
  | Panics c => Err (RCall (ErrPanic c))
  | Fails c => Err (RCall (ErrUser c))
  | Value x => match marshal x with Ok _ => Ok x | Err e => Err (RCall (wrapCodec e)) end
  end.

(** The outcome on the other node: an interruption, or what the handler gives. *)
Definition served {q p} (interrupted : option rerror) (fn : El q → attempt (El p)) (request : El q) : result rerror (El p) :=
  match interrupted with Some e => Err e | None => remoteMeaning fn request end.

(** Full names of protobuf messages are unique, and made of identifiers and dots. *)
Fixpoint noNul (s : string) : bool :=
  match s with EmptyString => true | String c s' => negb (Ascii.eqb c Ascii.zero) && noNul s' end.
Context (HfullName : Inj (=) (=) fullName) (Hplain : ∀ t, noNul (fullName t) = true).

(** The texts that can be in use for a protocol name. *)
Definition possible (name : string) (text : string) : Prop :=
  ∃ kind q p, (kind = "call" ∨ kind = "notification") ∧
    (∀ s, s ∈ [q; p] → s = EmptyString ∨ s = noMessage ∨ ∃ t, s = fullName t) ∧ text = fingerprintText kind name q p.

Lemma nul_split a b x y : noNul a = true → noNul b = true → a +:+ nul +:+ x = b +:+ nul +:+ y → a = b ∧ x = y.
Proof.
  revert b. induction a as [|c a IH]; intros [|c' b] Ha Hb H; cbn in *.
  - by injection H.
  - injection H as <- _. done.
  - injection H as -> _. done.
  - apply andb_true_iff in Ha as [_ Ha], Hb as [_ Hb]. injection H as <- H. destruct (IH b Ha Hb H) as [-> ->]. done.
Qed.

Lemma name_plain {t} (f : option (El t)) : noNul (messageName f) = true.
Proof. destruct f as [m|]; cbn; [|done]. destruct (isNilMessage m); [done|]. apply Hplain. Qed.

Lemma texts_agree name q p q' p' :
  noNul q = true → noNul q' = true → fingerprintText "call" name q p = fingerprintText "call" name q' p' → q = q' ∧ p = p'.
Proof.
  intros Hq Hq' H. unfold fingerprintText in H. do 2 apply (inj (String.append _)) in H. 
  do 2 apply (inj (String.append _)) in H. by apply nul_split.
Qed.

Lemma marshal_ok {t} (x : El t) d : marshal x = Ok d → isNilMessage x = false ∧ Marshal x = Some d.
Proof. unfold marshal. destruct (isNilMessage x); [done|]. destruct (Marshal x); [|done]. by intros [= <-]. Qed.

(** What serve gives for the encoding of [request]: the failures of [remoteMeaning], or an
    encoding that the caller decodes to its value. *)
Lemma serve_meaning (w : world (type := type)) h {q p} name (nq nq' : option (El q)) (np np' : option (El p)) (fn : El q → attempt (El p)) request payload interrupted :
  wireOf w (System.h_codec h) = Some (methodWire name nq' np') → fns w !! System.h_fn h = Some (typedHandler fn) →
  MarshalRequest (methodWire name nq np) [box request] = Ok payload →
  decodes w (System.h_codec h) payload = true → messageName np ≠ noMessage →
  match served interrupted fn request with
  | Err e => serve w h payload false interrupted = Err e
  | Ok x => ∃ d, serve w h payload false interrupted = Ok d ∧ UnmarshalResponse (methodWire name nq np) d = Ok (box x) ∧ cast (box x) = Some x
  end.
Proof.
  intros Hw Hf Hm Hd Hp. unfold decodes, serve, served in *. rewrite Hw in *. rewrite Hf.
  cbn [MarshalRequest methodWire methodCodec] in Hm. unfold one in Hm. cbn [singleArg] in Hm.
  destruct (cast (box request)) as [request'|] eqn:Hb; [|done].
  assert (request' = request) as -> by (rewrite cast_box in Hb; destruct (isNilAny _); congruence).
  destruct (isNilMessage request) eqn:Hn; [done|]. apply marshal_ok in Hm as [_ Hm].
  assert (UnmarshalRequest (methodWire name nq' np') payload = Ok [box request]) as ->.
  { cbn in *. unfold unmarshal in *. destruct nq' as [x|]; [|done]. destruct (isNilMessage x); [done|].
    by rewrite (unmarshal_marshal _ _ Hm) in *. }
  cbn [base methodWire methodCodec PackRequest]. unfold one. cbn [singleArg]. rewrite Hb, Hn.
  destruct interrupted as [e|]; [done|].
  unfold call_local, typedHandler, remoteMeaning. cbn [base methodWire methodCodec PackRequest]. unfold one. cbn [singleArg]. rewrite Hb, Hn.
  unfold runHandler. cbn. rewrite clone_eq, Hb. cbn. rewrite Hb.
  destruct (fn request) as [x|c|c]; [|done..].
  destruct (isNilMessage x) eqn:Hx; [unfold marshal; rewrite Hx; rewrite cast_box; destruct (isNilAny _); [done|]; by rewrite Hx|].
  assert (cast (box x) = Some x) as Hbx by (apply cast_value, message_boxed, Hx).
  cbn. rewrite Hbx, Hx, clone_eq. cbn. rewrite Hbx. cbn. rewrite Hbx.
  destruct (marshal x) as [d|e] eqn:Hmx; [|done]. apply marshal_ok in Hmx as [_ Hmx].
  exists d. split_and!; [done| |done]. unfold unmarshal.
  destruct np as [y|]; [|done]. cbn in Hp. destruct (isNilMessage y); [done|]. by rewrite (unmarshal_marshal _ _ Hmx).
Qed.

Lemma dispatched_entry (w : world (type := type)) systems nodes id ctx t protocol fp payload d s ptr v :
  Dispatch.lookupService systems (System.MkRef (System.t_Address t) (System.t_Generation t) (Some id) None) = Ok (s, ptr, v) →
  Dispatch.DispatchRemoteAsync systems nodes (fingerprintOf w) (decodes w) id ctx t protocol fp payload false = Ok d →
  System.handlers v !! protocol = Some (Dispatch.entry d) ∧
  fingerprintOf w (System.h_codec (Dispatch.entry d)) = Some fp ∧ decodes w (System.h_codec (Dispatch.entry d)) payload = true.
Proof.
  intros Hl. unfold Dispatch.DispatchRemoteAsync. destruct (_ && _ && _); [done|]. rewrite Hl.
  unfold Dispatch.lookupHandler, System.handler. destruct (System.handlers v !! protocol) as [h|] eqn:Hh; [|done].
  case_decide as Hf; [done|]. destruct (decodes w (System.h_codec h) payload) eqn:Hd; [|done]. cbn [negb].
  destruct (_ && _); [done|]. intros [= <-]. cbn. split_and!; done.
Qed.

Lemma name_possible {t} (f : option (El t)) : messageName f = EmptyString ∨ messageName f = noMessage ∨ ∃ t', messageName f = fullName t'.
Proof. right. destruct f as [m|]; cbn; [|by left]. destruct (isNilMessage m); [by left|]. right. by exists t. Qed.

Lemma same_name {t t'} (f : option (El t)) (f' : option (El t')) : messageName f = messageName f' → messageName f ≠ noMessage → t = t'.
Proof.
  assert (∀ u (g : option (El u)), messageName g = noMessage ∨ messageName g = fullName u) as H.
  { intros u [m|]; cbn; [|by left]. destruct (isNilMessage m); auto. }
  intros E Hn. destruct (H t f) as [?|Ef]; [done|]. destruct (H t' f') as [Ef'|Ef']; [by rewrite Ef' in E|].
  apply HfullName. by rewrite <-Ef, <-Ef', E.
Qed.

(** A codec from protowire with the fingerprint of a method is that of a method of the
    same types, unless digests collide. *)
Lemma same_types tok {q p} (nq : option (El q)) (np : option (El p)) wc :
  protoWire tok wc → Fingerprint wc = Fingerprint (methodWire (tk_name tok) nq np) →
  (∀ x y, possible (tk_name tok) x → possible (tk_name tok) y → digest x = digest y → x = y) →
  messageName nq ≠ noMessage → messageName np ≠ noMessage →
  tok = Token (tk_name tok) methodCall q (Some p) ∧
  ∃ (nq' : option (El q)) (np' : option (El p)), wc = methodWire (tk_name tok) nq' np'.
Proof.
  intros Hp Hf Hd Hq Hnp. destruct tok as [name k q' p']. unfold protoWire in Hp. cbn [tk_name tk_kind tk_request tk_response] in *.
  assert (possible name (fingerprintText "call" name (messageName nq) (messageName np))) as Hm.
  { exists "call", (messageName nq), (messageName np). split_and!; [by left| |done].
    intros s Hs. rewrite !elem_of_cons, elem_of_nil in Hs. destruct Hs as [->|[->|[]]]; apply name_possible. }
  destruct k, p' as [p'|]; try done.
  - destruct Hp as (nq' & np' & ->). apply Hd in Hf; [|clear Hf|done].
    + apply texts_agree in Hf as [E1 E2]; [|apply name_plain..].
      pose proof (same_name nq nq' (eq_sym E1) Hq) as <-. pose proof (same_name np np' (eq_sym E2) Hnp) as <-.
      split; [done|]. by exists nq', np'.
    + exists "call", (messageName nq'), (messageName np'). split_and!; [by left| |done].
      intros s Hs. rewrite !elem_of_cons, elem_of_nil in Hs. destruct Hs as [->|[->|[]]]; apply name_possible.
  - destruct Hp as (nq' & ->). apply Hd in Hf; [|clear Hf|done]; [done|].
    exists "notification", (messageName nq'), EmptyString. split_and!; [by right| |done].
    intros s Hs. rewrite !elem_of_cons, elem_of_nil in Hs. destruct Hs as [->|[->|[]]]; [apply name_possible|by left].
Qed.

(** A remote call that gets to the transport. *)
Lemma call_eq acts a tr held ctx r {q p} (m : Method (El := El) q p) (nq : option (El q)) (np : option (El p)) t md path request payload :
  let wc := methodWire (m_name m) nq np in
  is_Some (m_token m) → m_wire m = Some wc → remoteTransport a = Some tr →
  Dispatch.callRemote acts (attached a) ctx r true = Ok (Dispatch.Remote t md path) → MarshalRequest wc [box request] = Ok payload →
  Call acts a held ctx r m request =
    awaited md held match TCall tr t (m_name m) (Fingerprint wc) payload path with
                    | Err e => Err e
                    | Ok b => match UnmarshalResponse wc b with
                              | Ok v => match cast (T := El p) v with Some x => Ok x | None => Err RMismatch end
                              | Err e => Err (RCall (wrapCodec e))
                              end
                    end.
Proof.
  intros wc [k Hk] Hw Htr Hs Hpl. unfold Call, callRemote. rewrite Hk, Hw, Hpl. cbn [is_ok]. rewrite Hs, Htr. unfold awaited.
  destruct md, held; try done; destruct (TCall _ _ _ _ _ _) as [b|e]; try done; by destruct (UnmarshalResponse _ b).
Qed.

(** The handler that DispatchRemoteAsync finds with the fingerprint of [m] is one for the
    types of [m]. *)
Lemma same_handler dc uc v0 (w : world (type := type)) v {q p} (m : Method (El := El) q p) (nq : option (El q)) (np : option (El p))
    systems nodes id sB ptr bctx t payload d :
  System.handlers v0 = ∅ → rtc (Method.step dc uc protoWire) (fresh v0) (w, v) →
  (∀ h, System.handlers v !! m_name m = Some h → System.h_descriptor h ≠ None) →
  messageName nq ≠ noMessage → messageName np ≠ noMessage →
  (∀ x y, possible (m_name m) x → possible (m_name m) y → digest x = digest y → x = y) →
  Dispatch.lookupService systems (System.MkRef (System.t_Address t) (System.t_Generation t) (Some id) None) = Ok (sB, ptr, v) →
  Dispatch.DispatchRemoteAsync systems nodes (fingerprintOf w) (decodes w) id bctx t (m_name m)
    (Fingerprint (methodWire (m_name m) nq np)) payload false = Ok d →
  ∃ (nq' : option (El q)) (np' : option (El p)) (fn : El q → attempt (El p)),
    wireOf w (System.h_codec (Dispatch.entry d)) = Some (methodWire (m_name m) nq' np') ∧
    fns w !! System.h_fn (Dispatch.entry d) = Some (typedHandler fn) ∧
    entryOf w (Dispatch.entry d) = Some (Wired (methodWire (m_name m) nq' np'), typedHandler fn).
Proof using HfullName Hplain.
  intros H0 Hr Hdesc Hq Hp Hc Hl Hd. destruct (dispatched_entry _ _ _ _ _ _ _ _ _ _ _ _ _ Hl Hd) as (Hh & Hfp & _).
  destruct (reachable_typed _ _ _ v0 _ H0 Hr _ _ Hh (Hdesc _ Hh)) as (k' & tok & c & f & _ & _ & Hn & He & Hty). cbn [fst snd] in *.
  assert (codecs w !! System.h_codec (Dispatch.entry d) = Some c ∧ fns w !! System.h_fn (Dispatch.entry d) = Some f) as [Hcod Hfn].
  { unfold entryOf in He. destruct (codecs w !! _) as [c'|]; [|done]. cbn in He. destruct (fns w !! _) as [f'|]; [|done]. by injection He as -> ->. }
  unfold fingerprintOf, wireOf in *. rewrite Hcod in *. destruct c as [c|wc']; [done|]. injection Hfp as Hfp.
  rewrite <-Hn in Hc, Hfp. 
  assert (protoWire tok wc') as Hpw.
  { unfold entryTyped in Hty. destruct (tk_kind tok), (tk_response tok) as [p'|]; try done;
      destruct Hty as (fn & _ & [(wc2 & [= <-] & ?)|H]); try done; [by destruct H as (? & ? & ?)|by destruct H as (? & ?)]. }
  destruct (same_types tok nq np wc' Hpw) as (Etok & nq' & np' & ->); try done.
  rewrite Etok in Hty. cbn in Hty. destruct Hty as (fn & -> & _). rewrite Hn in *. by exists nq', np', fn.
Qed.

(** C14 (type): typed calls are type-safe across processes.  Two processes share the
    message types; one calls through a method of protowire, the other has registered
    handlers with descriptors of its own, and has one with a descriptor, if any, under the
    called name.  Over the cluster's Node.Call, whatever happens to the request, the call
    ends with one of these: the error of the caller's own wait; the error of the caller's
    node (ErrStaleRef for another incarnation of itself, a request that is lost); the
    refusal of the other node; the error of the checks of DispatchRemote there (among them
    ErrProtocolTypeMismatch for any other fingerprint) or of an interruption there; or
    the handler that was found was registered for the very same request and response
    types, and the caller gets exactly that handler's outcome on its request, a response
    that cannot be encoded being an ErrCodec.  An error of another node arrives as the
    RemoteError that decodeError makes of its encoding, and no failure comes from
    decoding an answer or from the type of its value.  The only assumption on the digest
    is that the texts in use for this protocol name do not collide. *)
Theorem remote_typed_call userSentinels text dc uc v0 (w : world (type := type)) v {q p} (m : Method (El := El) q p)
    (nq : option (El q)) (np : option (El p))
    systems nodes id sB ptr acts a tr held ctx bctx r t md path request payload incarnation l interrupted :
  System.handlers v0 = ∅ → rtc (Method.step dc uc protoWire) (fresh v0) (w, v) →
  (∀ h, System.handlers v !! m_name m = Some h → System.h_descriptor h ≠ None) →
  is_Some (m_token m) → m_wire m = Some (methodWire (m_name m) nq np) → messageName nq ≠ noMessage → messageName np ≠ noMessage →
  (∀ x y, possible (m_name m) x → possible (m_name m) y → digest x = digest y → x = y) →
  Dispatch.lookupService systems (System.MkRef (System.t_Address t) (System.t_Generation t) (Some id) None) = Ok (sB, ptr, v) →
  let wc := methodWire (m_name m) nq np in
  remoteTransport a = Some tr → Dispatch.callRemote acts (attached a) ctx r true = Ok (Dispatch.Remote t md path) →
  MarshalRequest wc [box request] = Ok payload →
  TCall tr t (m_name m) (Fingerprint wc) payload path =
    NodeCall userSentinels text (nodeID a) incarnation l t
      (DispatchRemote systems nodes w id bctx t (m_name m) (Fingerprint wc) payload false interrupted) →
  ∃ outcome,
    Call acts a held ctx r m request = awaited md held (arrives userSentinels text (nodeID a) incarnation l t outcome) ∧
    match Dispatch.DispatchRemoteAsync systems nodes (fingerprintOf w) (decodes w) id bctx t (m_name m) (Fingerprint wc) payload false with
    | Err e => outcome = Err (RDispatch e)
    | Ok d => ∃ wc' fn, entryOf w (Dispatch.entry d) = Some (Wired wc', typedHandler fn) ∧
        outcome = served (q := q) (p := p) interrupted fn request
    end.
Proof using HfullName Hplain.
  intros H0 Hr Hdesc Hk Hw Hq Hp Hc Hl wc Htr Hs Hpl Hdel.
  set (f := λ b, match UnmarshalResponse wc b with
                 | Ok v => match cast (T := El p) v with Some x => Ok x | None => Err RMismatch end
                 | Err e => Err (RCall (wrapCodec e))
                 end : result rerror (El p)).
  set (dispatched := DispatchRemote _ _ _ _ _ _ _ _ _ _ _) in Hdel.
  assert (∀ x, match x with Err e => dispatched = Err e | Ok y => ∃ b, dispatched = Ok b ∧ f b = Ok y end → Call acts a held ctx r m request = awaited md held (arrives userSentinels text (nodeID a) incarnation l t x)) as Hgot.
  { intros x Hx. rewrite <-(nodeCall_arrives userSentinels text (nodeID a) incarnation l t dispatched x f Hx), <-Hdel.
    by apply (call_eq acts a tr held ctx r m nq np). }
  unfold dispatched, DispatchRemote in Hgot.
  destruct (Dispatch.DispatchRemoteAsync _ _ _ _ _ _ _ _ _ _ _) as [d|e] eqn:Hd; [|by exists (Err (RDispatch e)); auto].
  destruct (same_handler dc uc v0 w v m nq np systems nodes id sB ptr bctx t payload d) as (nq' & np' & fn & Hc' & Hf & He); [done..|].
  exists (served interrupted fn request). split; [|by eexists _, fn].
  apply Hgot. destruct (dispatched_entry _ _ _ _ _ _ _ _ _ _ _ _ _ Hl Hd) as (_ & _ & Hdec).
  pose proof (serve_meaning w (Dispatch.entry d) (m_name m) nq nq' np np' fn request payload interrupted Hc' Hf Hpl Hdec Hp) as Hm.
  destruct (served _ _ _) as [x|e]; [|done]. destruct Hm as (b & -> & Hb & Hx). exists b. split; [done|].
  unfold f, wc. by rewrite Hb, Hx.
Qed.

End typed.

(** ** Instances *)

(** Two message types with one field; zero is the nil message. *)
Inductive exampleType := Ping | Pong.
Definition exampleEl (t : exampleType) : Type := Z.
Definition exampleTag (t : exampleType) : nat := match t with Ping => 1 | Pong => 2 end.
#[local] Instance example_type (t : exampleType) : GoType (exampleEl t).
Proof.
  refine {| box z := AVal (exampleTag t) z; cast x := match x with AVal k z => if decide (k = exampleTag t) then Some z else None | _ => None end |};
    [done|]. intros z _. by rewrite decide_True.
Defined.
#[local] Instance example_proto (t : exampleType) : ProtoMessage (exampleEl t).
Proof.
  refine {| isNilMessage z := bool_decide (z = 0); clone z := z; Marshal z := Some [z];
            Unmarshal d := match d with [z] => Some z | _ => None end |}; [done..|].
  by intros m d [= <-].
Defined.
#[local] Instance example_unit : GoType unit.
Proof. refine {| box _ := AVal 3 0; cast x := match x with AVal 3 _ => Some tt | _ => None end |}; [done|by intros []]. Defined.
Definition exampleName (t : exampleType) : string := match t with Ping => "game.Ping" | Pong => "game.Pong" end.
#[local] Instance exampleName_inj : Inj (=) (=) exampleName.
Proof. by intros [] []. Qed.

Notation exampleNew w name := (NewMethod (El := exampleEl) exampleName id w (q := Ping) (p := Pong) name (Some 1) (Some 1)).

(** The process of the service: its method, its handler, its running service. *)
Definition exampleNone : world (type := exampleType) := World [] [] [].
Definition exampleReserved : System.Service :=
  System.Svc "s" (System.MkRef 1 1 (Some 0%nat) None) (Runtime.Options 0 0 0 0 0 0 false) ∅ System.serviceReserved false false false System.NotBegun.
Definition exampleHandler (z : Z) : attempt Z := Value (z + 1).
Definition noClone (t : exampleType) : option (exampleEl t → result error (exampleEl t)) := None.
Definition exampleRegistered : world * System.Service :=
  match Register noClone (exampleNew exampleNone "ping").1 exampleReserved (exampleNew exampleNone "ping").2 (Some exampleHandler) with
  | Ok x => x
  | Err _ => (exampleNone, exampleReserved)
  end.
Definition exampleWorld : world := exampleRegistered.1.
Definition exampleService : System.Service := match System.Start exampleRegistered.2 with Ok v => v | Err _ => exampleReserved end.
Definition exampleSystems : gmap nat System.system :=
  {[ 0%nat := System.Sys 0 {[ "s" := 0%nat ]} {[ 1 := 0%nat ]} 1 1 false {[ 0%nat := exampleService ]} 1 ]}.
Definition exampleNodes (_ : nat) : string := "b".

(** The process of the caller: a method of its own and a transport to the other one. *)
Definition exampleTarget : System.RemoteTarget := System.Target "b" "i" "s" 1 1.
Definition exampleRef : System.Ref := System.MkRef 1 1 (Some 7%nat) (Some exampleTarget).
Definition exampleSentinels (_ : nat) : list Wire.sentinel := [Wire.ErrCodec].
Definition exampleText (_ : rerror) : string := "failed".
Definition exampleTransport (l : link) : transport :=
  Transport (λ _ _, Ok exampleTarget)
    (λ t protocol fp payload path,
       NodeCall exampleSentinels exampleText "a" "j" l t
         (DispatchRemote exampleSystems exampleNodes exampleWorld 0 (Some (Dispatch.WithCallPath None path)) t protocol fp payload false None))
    (λ _ _ _ _ _ _, Ok tt).
Definition exampleAttached (l : link) : attachment := Attached "a" (Some (exampleTransport l)).
Definition exampleMethod : Method (El := exampleEl) Ping Pong := (exampleNew exampleNone "ping").2.
Definition exampleActs (_ : nat) : Dispatch.callerInfo := Dispatch.Caller 0 false.

Lemma example_served : rtc (Method.step noClone Ok (protoWire exampleName id)) (fresh exampleReserved) (exampleWorld, exampleService).
Proof.
  eapply rtc_l; [apply (step_method noClone Ok (protoWire exampleName id) exampleNone exampleReserved Ping Pong "ping"
    [WithMethodWireCodec (Some (methodWire exampleName id "ping" (q := Ping) (p := Pong) (Some 1) (Some 1)))])|].
  eapply rtc_l; [eapply (step_register noClone Ok (protoWire exampleName id) _ _ Ping Pong (exampleNew exampleNone "ping").2 (Some exampleHandler))|].
  - intros k [= <-]. split; [reflexivity|]. intros wc [= <-]. by exists (Some 1), (Some 1).
  - reflexivity.
  - eapply rtc_l; [|apply rtc_refl]. by apply step_service.
Qed.

Lemma remote_typed_call_witness : ∃ outcome,
  Call exampleActs (exampleAttached Answered) None (Some Dispatch.Background) exampleRef exampleMethod 41 =
    awaited Dispatch.External None (arrives exampleSentinels exampleText "a" "j" Answered exampleTarget outcome) ∧
  match Dispatch.DispatchRemoteAsync exampleSystems exampleNodes (fingerprintOf exampleWorld) (decodes exampleWorld) 0
          (Some (Dispatch.WithCallPath None [])) exampleTarget "ping"
          (Fingerprint (methodWire exampleName id "ping" (q := Ping) (p := Pong) (Some 1) (Some 1))) [41] false with
  | Err e => outcome = Err (RDispatch e)
  | Ok d => ∃ wc' fn, entryOf exampleWorld (Dispatch.entry d) = Some (Wired wc', typedHandler fn) ∧
      outcome = served (q := Ping) (p := Pong) None fn 41
  end.
Proof.
  refine (remote_typed_call exampleName id exampleName_inj _ exampleSentinels exampleText noClone Ok exampleReserved exampleWorld exampleService
    exampleMethod (Some 1) (Some 1) exampleSystems exampleNodes 0 _ _ exampleActs (exampleAttached Answered) (exampleTransport Answered) None
    (Some Dispatch.Background) _ exampleRef exampleTarget _ _ 41 [41] "j" Answered None _ example_served _ _ _ _ _ _ _ _ _ _ _);
    try reflexivity; try done.
  - by intros [].
  - by intros h [= <-].
Defined.

Example example_remote_call :
  Call exampleActs (exampleAttached Answered) None (Some Dispatch.Background) exampleRef exampleMethod 41 = Ok 42.
Proof. reflexivity. Qed.

(** The handler's nil response is an ErrCodec there, and a RemoteError with that cause here. *)
Example example_remote_error :
  Call exampleActs (exampleAttached Answered) None (Some Dispatch.Background) exampleRef exampleMethod (-1) =
    Err (RRemote (Wire.Remote 8 "failed" (Some Wire.ErrCodec))).
Proof. reflexivity. Qed.

End Remote.
