(* ===== verification/Config.v ===== *)
(** * Node configuration (src/cluster/config.go) *)

From S2P Require Import Prelude Frame.

Module Config.

Definition hardMaxPayload : Z := 64 * 1024 * 1024.

(** [Registry] tells whether a registry is set. *)
Record Config := Cfg {
  PeerSecrets : gmap string (list Z);
  NodeID : string;
  Listen : string;
  Secret : list Z;
  Registry : bool;
  MaxPayload : Z;
  SendQueue : Z;
  ConnectionsPerPeer : Z;
  InboundShards : Z;
  InboundQueue : Z;
  MaxInboundCalls : Z;
  DialTimeout : Z;
  HandshakeTimeout : Z;
  CallTimeout : Z;
  SendTimeout : Z;
  WriteTimeout : Z;
  ClockSkew : Z;
  NonceTTL : Z;
  ConnectBackoffMin : Z;
  ConnectBackoffMax : Z;
  PingInterval : Z;
  IdleTimeout : Z;
}.

Inductive error := ErrRequired | ErrPeerSecret | ErrMaxPayload | ErrConnections | ErrBackoff | ErrIdle.

Definition orDefault (x d : Z) : Z := if decide (x ≤ 0) then d else x.

Definition badSecret (node : string) (p : string * list Z) : bool :=
  bool_decide (p.1 = EmptyString ∨ p.1 = node ∨ (length p.2 < 16)%nat).

Definition defaults (c : Config) : result error Config :=
  if decide (NodeID c = EmptyString ∨ Listen c = EmptyString ∨ (length (Secret c) < 16)%nat ∨ Registry c = false)
  then Err ErrRequired
  else if existsb (badSecret (NodeID c)) (map_to_list (PeerSecrets c)) then Err ErrPeerSecret
  else
    let max := if decide (MaxPayload c = 0) then 16 * 1024 * 1024 else MaxPayload c in
    let max := if decide (max < Frame.MaxPayload) then Frame.MaxPayload else max in
    if decide (max > hardMaxPayload) then Err ErrMaxPayload
    else
      let conns := orDefault (ConnectionsPerPeer c) 1 in
      if decide (conns > 16) then Err ErrConnections
      else
        let bmin := orDefault (ConnectBackoffMin c) (100 * Millisecond) in
        let bmax := orDefault (ConnectBackoffMax c) (5 * Second) in
        if decide (bmax < bmin) then Err ErrBackoff
        else
          let ping := orDefault (PingInterval c) (10 * Second) in
          let idle := orDefault (IdleTimeout c) (30 * Second) in
          if decide (idle < i64 (2 * ping)) then Err ErrIdle
          else Ok (Cfg (PeerSecrets c) (NodeID c) (Listen c) (Secret c) (Registry c) max
                       (orDefault (SendQueue c) 1024) conns (orDefault (InboundShards c) 32)
                       (orDefault (InboundQueue c) 4096) (orDefault (MaxInboundCalls c) 1024)
                       (orDefault (DialTimeout c) (3 * Second)) (orDefault (HandshakeTimeout c) (5 * Second))
                       (orDefault (CallTimeout c) (5 * Second)) (orDefault (SendTimeout c) (5 * Millisecond))
                       (orDefault (WriteTimeout c) (5 * Second)) (orDefault (ClockSkew c) (30 * Second))
                       (orDefault (NonceTTL c) (5 * Minute)) bmin bmax ping idle).

(** What the rest of the node relies on. *)
Record valid (c : Config) : Prop := {
  v_node : NodeID c ≠ EmptyString;
  v_secret : (16 <= length (Secret c))%nat;
  v_peer p k : PeerSecrets c !! p = Some k → p ≠ NodeID c ∧ (16 <= length k)%nat;
  v_payload : Frame.MaxPayload ≤ MaxPayload c ≤ hardMaxPayload;
  v_conns : 1 ≤ ConnectionsPerPeer c ≤ 16;
  v_queues : 0 < SendQueue c ∧ 0 < InboundShards c ∧ 0 < InboundQueue c ∧ 0 < MaxInboundCalls c;
  v_times : 0 < DialTimeout c ∧ 0 < HandshakeTimeout c ∧ 0 < CallTimeout c ∧ 0 < SendTimeout c ∧
            0 < WriteTimeout c ∧ 0 < ClockSkew c ∧ 0 < NonceTTL c;
  v_backoff : 0 < ConnectBackoffMin c ≤ ConnectBackoffMax c;
  v_ping : 0 < PingInterval c ∧ 0 < IdleTimeout c ∧ i64 (2 * PingInterval c) ≤ IdleTimeout c;
}.

Lemma orDefault_pos x d : 0 < d → 0 < orDefault x d.
Proof. unfold orDefault. case_decide; lia. Qed.
Lemma orDefault_idem x d : 0 < d → orDefault (orDefault x d) d = orDefault x d.
Proof. unfold orDefault. intros. repeat case_decide; lia. Qed.

Lemma noBadSecret node m p k :
  existsb (badSecret node) (map_to_list m) = false → m !! p = Some k → p ≠ node ∧ (16 <= length k)%nat.
Proof.
  intros Hb Hp. assert (badSecret node (p, k) = false) as Hf.
  { destruct (badSecret node (p, k)) eqn:E; [|done]. exfalso. apply not_true_iff_false in Hb. apply Hb.
    apply existsb_exists. exists (p, k). split; [|done]. by apply list_elem_of_In, elem_of_map_to_list. }
  apply bool_decide_eq_false in Hf. simpl in Hf. split; [tauto|]. destruct (decide (length k < 16)%nat); [tauto|lia].
Qed.

(** A configuration defaults accepts is complete and consistent, and accepting it
    again changes nothing. *)
Theorem config_defaults c c' : defaults c = Ok c' → valid c' ∧ defaults c' = Ok c'.
Proof.
  unfold defaults. case_decide as Hreq; [done|]. destruct (existsb _ _) eqn:Hpeer; [done|].
  set (max0 := if decide (MaxPayload c = 0) then _ else _).
  set (max := if decide (max0 < Frame.MaxPayload) then _ else _).
  case_decide as Hmax; [done|]. case_decide as Hconns; [done|]. case_decide as Hback; [done|].
  case_decide as Hidle; [done|].
  assert (Frame.MaxPayload ≤ max) as Hlo by (subst max; case_decide; lia).
  assert (0 < Frame.MaxPayload) as Hfm by done.
  assert (0 < orDefault (ConnectionsPerPeer c) 1) by (by apply orDefault_pos).
  intros [= <-]. split.
  - split; simpl; try tauto; try lia; try done.
    + intros p k Hp. by eapply noBadSecret.
    + split_and!; by apply orDefault_pos.
    + split_and!; by apply orDefault_pos.
    + split; [by apply orDefault_pos|lia].
    + split_and!; [by apply orDefault_pos..|lia].
  - cbn [PeerSecrets NodeID Listen Secret Registry MaxPayload SendQueue ConnectionsPerPeer InboundShards
      InboundQueue MaxInboundCalls DialTimeout HandshakeTimeout CallTimeout SendTimeout WriteTimeout ClockSkew
      NonceTTL ConnectBackoffMin ConnectBackoffMax PingInterval IdleTimeout].
    rewrite (decide_False (P := _ ∨ _)) by done. rewrite Hpeer.
    rewrite (decide_False (P := max = 0)) by lia. rewrite (decide_False (P := max < Frame.MaxPayload)) by lia.
    rewrite !orDefault_idem by done. by rewrite !decide_False by done.
Qed.

End Config.
