(* ===== verification/Auth.v ===== *)
(** * Handshake authentication (src/cluster/auth.go)

    The keyed hash and the random source are parameters.  Strings are byte
    sequences. *)

From Stdlib Require Import Ascii.
From stdpp Require Import sorting.
From S2P Require Import Prelude Frame Wire Config.

Module Auth.
Import Wire.

(** ** Code *)

Definition bytesOf (s : string) : list Z := (λ c, Z.of_N (N_of_ascii c)) <$> String.list_ascii_of_string s.

Definition put_uint64 (v : Z) : list Z := Frame.put_uint32 (Z.shiftr v 32) ++ Frame.put_uint32 (v mod 2 ^ 32).

Definition writeMACString (value : string) : list Z :=
  Frame.put_uint32 (u32 (Z.of_nat (String.length value))) ++ bytesOf value.

(** The bytes signHandshake writes into the keyed hash. *)
Definition macInput (e : Envelope) : list Z :=
  Frame.put_uint32 (Version e) ++ Frame.put_uint32 (u32 (kindNumber (kind e))) ++
  writeMACString (SourceNode e) ++ writeMACString (Incarnation e) ++
  put_uint64 (u64 (TimestampUnixMilli e)) ++ Nonce e.

(** [fmt.Sprintf("%x", bytes)]. *)
Definition hexDigit (d : Z) : ascii := ascii_of_N (Z.to_N (if decide (d < 10) then 48 + d else 87 + d)).
Fixpoint hex (b : list Z) : string :=
  match b with
  | [] => EmptyString
  | x :: b => String (hexDigit (x / 16)) (String (hexDigit (x mod 16)) (hex b))
  end.

Definition nonceKey (e : Envelope) : string := SourceNode e +:+ String ":"%char (hex (Nonce e)).

Inductive handshakeError := ErrVersion | ErrIncomplete | ErrSkew | ErrAuthentication | ErrReplay.

Section auth.
Context (hmac : list Z → list Z → list Z).

Definition signHandshake (secret : list Z) (e : Envelope) : list Z := hmac secret (macInput e).

Definition peerSecret (cfg : Config.Config) (peer : string) : list Z :=
  default (Config.Secret cfg) (Config.PeerSecrets cfg !! peer).

(** [nonce] is what newNonce drew and [now] the clock. *)
Definition handshake (cfg : Config.Config) (incarnation : string) (k : Kind) (remote : option string)
    (nonce : list Z) (now : Z) : Envelope :=
  let e := Env protocolVersion k 0 (Config.NodeID cfg) incarnation (now / Millisecond) nonce [] None
               EmptyString EmptyString EmptyString 0 [] [] None EmptyString in
  let key := match remote with Some r => peerSecret cfg r | None => Config.Secret cfg end in
  Env protocolVersion k 0 (Config.NodeID cfg) incarnation (now / Millisecond) nonce (signHandshake key e) None
      EmptyString EmptyString EmptyString 0 [] [] None EmptyString.

(** The nonces still remembered at [now]. *)
Definition live (now : Z) (nonces : gmap string Z) : gmap string Z := filter (λ p, now ≤ p.2) nonces.

Definition verifyHandshake (cfg : Config.Config) (nonces : gmap string Z) (e : Envelope) (expected : Kind) (now : Z) :
    gmap string Z * option handshakeError :=
  if decide (Version e ≠ protocolVersion ∨ kind e ≠ expected) then (nonces, Some ErrVersion)
  else if decide (SourceNode e = EmptyString ∨ Incarnation e = EmptyString ∨ (length (Nonce e) < 16)%nat)
  then (nonces, Some ErrIncomplete)
  else
    let timestamp := TimestampUnixMilli e * Millisecond in
    if decide (timestamp < now - Config.ClockSkew cfg ∨ timestamp > now + Config.ClockSkew cfg)
    then (nonces, Some ErrSkew)
    else if decide (signHandshake (peerSecret cfg (SourceNode e)) e ≠ Mac e) then (nonces, Some ErrAuthentication)
    else
      let nonces := live now nonces in
      match nonces !! nonceKey e with
      | Some _ => (nonces, Some ErrReplay)
      | None => (<[nonceKey e := now + Config.NonceTTL cfg]> nonces, None)
      end.

(** A sequence of handshakes at a node, with which of them are accepted. *)
Fixpoint verifyAll (cfg : Config.Config) (nonces : gmap string Z) (l : list (Z * Envelope * Kind)) : list bool :=
  match l with
  | [] => []
  | (now, e, k) :: l =>
      let '(nonces, err) := verifyHandshake cfg nonces e k now in
      match err with None => true | Some _ => false end :: verifyAll cfg nonces l
  end.

(** ** Replays *)

(** [e], accepted at [t], is remembered at every time its timestamp is accepted. *)
Definition remembered (cfg : Config.Config) (nonces : gmap string Z) (t now : Z) (e : Envelope) : Prop :=
  TimestampUnixMilli e * Millisecond < now - Config.ClockSkew cfg ∨
  ∃ x, nonces !! nonceKey e = Some x ∧ t + Config.NonceTTL cfg ≤ x.

Lemma verify_accepts cfg nonces e k now nonces' :
  verifyHandshake cfg nonces e k now = (nonces', None) →
  now - Config.ClockSkew cfg ≤ TimestampUnixMilli e * Millisecond ≤ now + Config.ClockSkew cfg ∧
  live now nonces !! nonceKey e = None ∧ nonces' = <[nonceKey e := now + Config.NonceTTL cfg]> (live now nonces) ∧
  Mac e = signHandshake (peerSecret cfg (SourceNode e)) e.
Proof.
  unfold verifyHandshake. do 2 (case_decide; [done|]). case_decide; [done|]. case_decide as Hm; [done|].
  destruct (_ !! _) eqn:Hl; [done|]. intros [= <-]. split_and!; [lia|lia|done|done|].
  congruence.
Qed.

Lemma verify_nonces cfg nonces e k now nonces' err key x :
  verifyHandshake cfg nonces e k now = (nonces', err) → nonces !! key = Some x → now ≤ x →
  ∃ y, nonces' !! key = Some y ∧ x ≤ y ∨ nonces' !! key = Some y ∧ now + Config.NonceTTL cfg ≤ y.
Proof.
  intros HE Hx Hn. unfold verifyHandshake in HE.
  assert (live now nonces !! key = Some x) as Hl by (by apply map_lookup_filter_Some).
  repeat case_decide; try (injection HE as <- _; exists x; left; split; [done|lia]).
  destruct (live now nonces !! nonceKey e) eqn:He; injection HE as <- _; [exists x; left; split; [done|lia]|].
  rewrite lookup_insert_ne by congruence. exists x. left. split; [done|lia].
Qed.

Lemma verify_remembered cfg nonces e k now nonces' err t e0 :
  2 * Config.ClockSkew cfg ≤ Config.NonceTTL cfg →
  TimestampUnixMilli e0 * Millisecond ≤ t + Config.ClockSkew cfg → t ≤ now →
  remembered cfg nonces t now e0 → verifyHandshake cfg nonces e k now = (nonces', err) →
  remembered cfg nonces' t now e0.
Proof.
  intros Httl Hts Ht [Hr|(x & Hx & Hle)] HE; [by left|].
  destruct (decide (now ≤ x)).
  - right. destruct (verify_nonces _ _ _ _ _ _ _ _ _ HE Hx l) as (y & [[Hy ?]|[Hy ?]]); exists y; split; [done|lia|done|lia].
  - left. lia.
Qed.

Lemma remembered_rejects cfg nonces e k now nonces' t e0 :
  remembered cfg nonces t now e0 → t ≤ now →
  2 * Config.ClockSkew cfg ≤ Config.NonceTTL cfg →
  TimestampUnixMilli e0 * Millisecond ≤ t + Config.ClockSkew cfg →
  verifyHandshake cfg nonces e k now = (nonces', None) →
  nonceKey e = nonceKey e0 → TimestampUnixMilli e ≠ TimestampUnixMilli e0.
Proof.
  intros Hr Ht Httl Hts0 HE Hk Heq. apply verify_accepts in HE as (Hts & Hl & _).
  rewrite Heq in Hts. destruct Hr as [Hr|(x & Hx & Hle)]; [lia|].
  rewrite Hk in Hl. apply map_lookup_filter_None in Hl as [Hl|Hl]; [congruence|].
  specialize (Hl x Hx). simpl in Hl. lia.
Qed.

(** No later envelope of the sequence that repeats [e0] is accepted. *)
Lemma verifyAll_rejects cfg t e0 l : ∀ nonces last,
  2 * Config.ClockSkew cfg ≤ Config.NonceTTL cfg →
  TimestampUnixMilli e0 * Millisecond ≤ t + Config.ClockSkew cfg → t ≤ last →
  remembered cfg nonces t last e0 → Sorted Z.le (last :: (fst ∘ fst <$> l)) →
  ∀ j now e k, l !! j = Some (now, e, k) → verifyAll cfg nonces l !! j = Some true →
  nonceKey e = nonceKey e0 → TimestampUnixMilli e ≠ TimestampUnixMilli e0.
Proof.
  induction l as [|[[now1 e1] k1] l IH]; intros nonces last Httl Hts Ht Hr Hs j now e k Hj; [done|].
  cbn [fmap list_fmap] in Hs. inversion Hs as [|? ? Hs' Hle]. inversion Hle as [|? ? Hle']. subst. simpl in *.
  assert (remembered cfg nonces t now1 e0) as Hr1 by (destruct Hr as [Hr|Hr]; [left; lia|by right]).
  destruct (verifyHandshake cfg nonces e1 k1 now1) as [nonces' err] eqn:HV.
  destruct j as [|j]; simpl in *.
  - injection Hj as -> -> ->. destruct err as [err|]; [done|]. intros _.
    eapply remembered_rejects; eauto. lia.
  - eapply (IH nonces' now1); eauto; [lia|]. eapply verify_remembered; eauto. lia.
Qed.

(** C22 (safety): no handshake is accepted twice.  At a node whose nonces live at
    least twice the clock skew, in any sequence of handshakes at non-decreasing
    times, two accepted envelopes of one source never carry the same nonce and
    timestamp, however long they lie apart. *)
Theorem handshake_no_replay cfg nonces l i j now e k now' e' k' :
  2 * Config.ClockSkew cfg ≤ Config.NonceTTL cfg → Sorted Z.le (fst ∘ fst <$> l) → (i < j)%nat →
  l !! i = Some (now, e, k) → verifyAll cfg nonces l !! i = Some true →
  l !! j = Some (now', e', k') → verifyAll cfg nonces l !! j = Some true →
  SourceNode e' = SourceNode e → Nonce e' = Nonce e → TimestampUnixMilli e' ≠ TimestampUnixMilli e.
Proof.
  revert nonces i j. induction l as [|[[now1 e1] k1] l IH]; intros nonces i j Httl Hs Hij Hi HVi Hj HVj Hsrc Hn; [done|].
  destruct j as [|j]; [lia|]. simpl in *.
  destruct (verifyHandshake cfg nonces e1 k1 now1) as [nonces' err] eqn:HV. simpl in *.
  destruct i as [|i]; simpl in *; [|apply Sorted_inv in Hs as [Hs _]; by apply (IH nonces' i j); auto with lia].
  injection Hi as -> -> ->. destruct err as [err|]; [done|].
  apply verify_accepts in HV as (Hts & _ & -> & _).
  refine (verifyAll_rejects cfg now e l _ now Httl _ _ _ Hs j now' e' k' Hj HVj _);
    [lia..| |by unfold nonceKey; rewrite Hsrc, Hn].
  right. eexists. rewrite lookup_insert_eq. split; [done|lia].
Qed.

(** ** Acceptance *)

Lemma unix_milli_near now now' skew :
  Millisecond ≤ skew → now - (skew - Millisecond) ≤ now' ≤ now + (skew - Millisecond) →
  now' - skew ≤ now / Millisecond * Millisecond ≤ now' + skew.
Proof. unfold Millisecond. intros. div_lia. Qed.

(** A handshake a node makes for a peer is accepted by the peer when their secrets
    agree, their clocks differ by less than the skew and the nonce is new. *)
Lemma handshake_accepted cfg incarnation k remote nonce now cfg' nonces now' :
  Config.NodeID cfg ≠ EmptyString → incarnation ≠ EmptyString → (16 <= length nonce)%nat →
  peerSecret cfg remote = peerSecret cfg' (Config.NodeID cfg) →
  Millisecond ≤ Config.ClockSkew cfg' →
  now - (Config.ClockSkew cfg' - Millisecond) ≤ now' ≤ now + (Config.ClockSkew cfg' - Millisecond) →
  let e := handshake cfg incarnation k (Some remote) nonce now in
  live now' nonces !! nonceKey e = None → (verifyHandshake cfg' nonces e k now').2 = None.
Proof.
  intros Hid Hinc Hlen Hsec Hms Hnow e Hnew. unfold verifyHandshake.
  pose proof (unix_milli_near now now' _ Hms Hnow) as Hnear.
  rewrite (decide_False (P := Version e ≠ protocolVersion ∨ kind e ≠ k)) by (unfold e, handshake; simpl; tauto).
  rewrite decide_False by (unfold e, handshake; simpl; intros [?|[?|?]]; [done|done|lia]).
  rewrite decide_False by (unfold e, handshake; simpl; lia).
  rewrite decide_False; [by rewrite Hnew|]. unfold e, handshake. simpl. rewrite <-Hsec. intros Hne. by apply Hne.
Qed.

End auth.

(** ** What the signature covers *)

Lemma app_inv_length {A} (a b c d : list A) : length a = length c → a ++ b = c ++ d → a = c ∧ b = d.
Proof. apply app_inj_1. Qed.

Lemma put_uint32_inj v w : 0 ≤ v < 2 ^ 32 → 0 ≤ w < 2 ^ 32 → Frame.put_uint32 v = Frame.put_uint32 w → v = w.
Proof.
  intros Hv Hw E. pose proof (Frame.uint32_put v [] Hv) as E1. pose proof (Frame.uint32_put w [] Hw) as E2.
  rewrite E in E1. congruence.
Qed.

Lemma put_uint64_inj v w : 0 ≤ v < 2 ^ 64 → 0 ≤ w < 2 ^ 64 → put_uint64 v = put_uint64 w → v = w.
Proof.
  unfold put_uint64. intros Hv Hw [E1 E2]%app_inv_length; [|done]. rewrite !Z.shiftr_div_pow2 in E1 by lia.
  apply put_uint32_inj in E1, E2; div_lia.
Qed.

Lemma bytesOf_inj s s' : bytesOf s = bytesOf s' → s = s'.
Proof.
  unfold bytesOf. intros E. apply list_fmap_eq_inj in E.
  - rewrite <-(String.string_of_list_ascii_of_string s), <-(String.string_of_list_ascii_of_string s'). by f_equal.
  - intros c c' H. apply N2Z.inj in H. rewrite <-(ascii_N_embedding c), <-(ascii_N_embedding c'). by f_equal.
Qed.

Lemma length_bytesOf s : length (bytesOf s) = String.length s.
Proof. unfold bytesOf. rewrite length_fmap. induction s as [|c s IH]; simpl; congruence. Qed.

Lemma writeMACString_inj s s' rest rest' :
  Z.of_nat (String.length s) < 2 ^ 32 → Z.of_nat (String.length s') < 2 ^ 32 →
  writeMACString s ++ rest = writeMACString s' ++ rest' → s = s' ∧ rest = rest'.
Proof.
  intros Hs Hs' E. unfold writeMACString, u32 in E. rewrite !wrapu_small, <-!app_assoc in E by lia.
  apply app_inv_length in E as [El E]; [|done]. apply put_uint32_inj in El; [|lia..].
  apply app_inv_length in E as [Eb E]; [|rewrite !length_bytesOf; lia]. split; [by apply bytesOf_inj|done].
Qed.

(** The fields of an envelope that fit their wire types. *)
Definition sized (e : Envelope) : Prop :=
  0 ≤ Version e < 2 ^ 32 ∧ 0 ≤ kindNumber (kind e) < 2 ^ 31 ∧ - 2 ^ 63 ≤ TimestampUnixMilli e < 2 ^ 63 ∧
  Z.of_nat (String.length (SourceNode e)) < 2 ^ 32 ∧ Z.of_nat (String.length (Incarnation e)) < 2 ^ 32.

(** Safety: the signed bytes determine the handshake.  Two envelopes with the
    same input to the keyed hash agree in version, kind, source, incarnation,
    timestamp and nonce: no field can be moved into another or cut short. *)
Theorem mac_binding e e' :
  sized e → sized e' → macInput e = macInput e' →
  Version e = Version e' ∧ kindNumber (kind e) = kindNumber (kind e') ∧ SourceNode e = SourceNode e' ∧
  Incarnation e = Incarnation e' ∧ TimestampUnixMilli e = TimestampUnixMilli e' ∧ Nonce e = Nonce e'.
Proof.
  intros (V & K & T & S & I) (V' & K' & T' & S' & I') E. unfold macInput in E.
  apply app_inv_length in E as [Ev E]; [|done]. apply app_inv_length in E as [Ek E]; [|done].
  apply writeMACString_inj in E as [Es E]; [|done..]. apply writeMACString_inj in E as [Ei E]; [|done..].
  apply app_inv_length in E as [Et En]; [|done].
  apply put_uint32_inj in Ev; [|done..].
  apply put_uint32_inj in Ek; [|by apply wrapu_range..]. unfold u32 in Ek. rewrite !wrapu_small in Ek by lia.
  apply put_uint64_inj in Et; [|by apply u64_range..]. split_and!; try done.
  revert T T' Et. unfold u64, wrapu. div_lia.
Qed.

(** ** Instances *)

Definition exampleHmac (key data : list Z) : list Z := key ++ data.
Definition exampleConfig : Config.Config :=
  Config.Cfg ∅ "a" "l" (replicate 16 7) true 0 0 0 0 0 0 0 0 0 0 0 (30 * Second) Minute 0 0 0 0.
(** Two handshakes with one nonce, two minutes apart. *)
Definition exampleHello (now : Z) : Envelope :=
  handshake exampleHmac exampleConfig "i" KIND_HELLO None (replicate 24 5) now.
Definition exampleRun : list (Z * Envelope * Kind) :=
  [(0, exampleHello 0, KIND_HELLO); (2 * Minute, exampleHello (2 * Minute), KIND_HELLO)].

Lemma handshake_no_replay_witness :
  TimestampUnixMilli (exampleHello (2 * Minute)) ≠ TimestampUnixMilli (exampleHello 0).
Proof.
  refine (handshake_no_replay exampleHmac exampleConfig ∅ exampleRun 0 1 0 (exampleHello 0) KIND_HELLO
    (2 * Minute) (exampleHello (2 * Minute)) KIND_HELLO _ _ _ eq_refl _ eq_refl _ eq_refl eq_refl);
    try (vm_compute; reflexivity).
  - vm_compute. congruence.
  - repeat constructor. vm_compute. congruence.
Defined.

Lemma mac_binding_witness :
  let e := exampleHello 0 in let e' := handshake exampleHmac exampleConfig "i" KIND_HELLO (Some "b") (replicate 24 5) 0 in
  macInput e = macInput e' ∧ SourceNode e = SourceNode e'.
Proof.
  intros e e'. split; [reflexivity|].
  refine (proj1 (proj2 (proj2 (mac_binding e e' _ _ eq_refl)))); repeat split; vm_compute; congruence.
Defined.

End Auth.
