(* ===== verification/Inbound.v ===== *)
(** * The receiving side of a node (src/cluster/inbound.go, dispatcher.go, drain.go)

    Connections read frames and hand calls and notifications to sharded workers;
    admissions are counted per connection so that a barrier can wait for them.
    Every step is a critical section or a channel operation of one goroutine: the
    reader of a connection, a worker, the goroutine waiting for an answer, or the
    one of a barrier.  How much of an envelope a write puts on an open connection is
    an input of the step. *)

From S2P Require Import Prelude System Dispatch Wire.

Module Inbound.
Import Wire.

(** ** State *)

Record job := Job { j_conn : nat; j_seq : Z; j_env : Envelope; j_canceled : bool }.

(** What a write put on the connection: the whole frame, a part of it before an error
    (a timeout), or nothing (an envelope that is too large). *)
Inductive wrote := Whole | Part | Nothing.

(** [out]: the frames written, newest first, with whether they are complete. *)
Record inboundConn := Conn {
  remoteNode : string;
  admissionNext : Z;
  admissionDone : Z;
  admissionFinished : gset Z;
  barrierPending : bool;
  calls : gmap Z nat;
  closed : bool;
  out : list (Envelope * bool);
}.

(** What the node reports: rejected frames, dropped notifications, protocol errors
    and cancellations are counted; asynchronous errors name service and protocol. *)
Inductive event :=
  | EvSubmit (shard : nat) (j : nat)
  | EvTake (shard : nat) (j : nat)
  | EvAnswer (j : nat)
  | EvRejected | EvDropped | EvProtocolError | EvCancel
  | EvAsync (service protocol : string) (e : goError).

(** [workers]: the job each shard's worker dispatches; [running]: the jobs whose
    goroutine waits for the actor's answer; [active] is [len(d.calls)] and [slots]
    [len(d.slots)]; [log] has the newest event first. *)
Record node := Node {
  nodeID : string;
  incarnation : string;
  inboundQueue : Z;
  maxInboundCalls : Z;
  conns : gmap nat inboundConn;
  jobs : list job;
  shards : list (list nat);
  workers : list (option nat);
  slots : Z;
  active : Z;
  running : list nat;
  barriers : list (nat * Z * Envelope);
  log : list event;
}.

Definition set_conns (n : node) (c : gmap nat inboundConn) : node :=
  Node (nodeID n) (incarnation n) (inboundQueue n) (maxInboundCalls n) c (jobs n) (shards n) (workers n)
       (slots n) (active n) (running n) (barriers n) (log n).
Definition set_jobs (n : node) (js : list job) : node :=
  Node (nodeID n) (incarnation n) (inboundQueue n) (maxInboundCalls n) (conns n) js (shards n) (workers n)
       (slots n) (active n) (running n) (barriers n) (log n).
Definition set_dispatcher (n : node) (ss : list (list nat)) (ws : list (option nat)) (sl : Z) : node :=
  Node (nodeID n) (incarnation n) (inboundQueue n) (maxInboundCalls n) (conns n) (jobs n) ss ws
       sl (active n) (running n) (barriers n) (log n).
Definition set_running (n : node) (a : Z) (r : list nat) : node :=
  Node (nodeID n) (incarnation n) (inboundQueue n) (maxInboundCalls n) (conns n) (jobs n) (shards n) (workers n)
       (slots n) a r (barriers n) (log n).
Definition set_barriers (n : node) (b : list (nat * Z * Envelope)) : node :=
  Node (nodeID n) (incarnation n) (inboundQueue n) (maxInboundCalls n) (conns n) (jobs n) (shards n) (workers n)
       (slots n) (active n) (running n) b (log n).
Definition emit (n : node) (e : event) : node :=
  Node (nodeID n) (incarnation n) (inboundQueue n) (maxInboundCalls n) (conns n) (jobs n) (shards n) (workers n)
       (slots n) (active n) (running n) (barriers n) (e :: log n).

Definition upd_conn (n : node) (c : nat) (f : inboundConn → inboundConn) : node :=
  set_conns n (alter f c (conns n)).

Definition newInboundDispatcher (id inc : string) (shardCount : nat) (queue maxCalls : Z) : node :=
  Node id inc queue maxCalls ∅ [] (replicate shardCount []) (replicate shardCount None) 0 0 [] [] [].

(** ** Admissions (drain.go) *)

Definition set_admission (c : inboundConn) (next done : Z) (fin : gset Z) : inboundConn :=
  Conn (remoteNode c) next done fin (barrierPending c) (calls c) (closed c) (out c).
Definition set_barrier (c : inboundConn) (b : bool) : inboundConn :=
  Conn (remoteNode c) (admissionNext c) (admissionDone c) (admissionFinished c) b (calls c) (closed c) (out c).
Definition set_calls (c : inboundConn) (m : gmap Z nat) : inboundConn :=
  Conn (remoteNode c) (admissionNext c) (admissionDone c) (admissionFinished c) (barrierPending c) m (closed c) (out c).
Definition set_out (c : inboundConn) (b : bool) (o : list (Envelope * bool)) : inboundConn :=
  Conn (remoteNode c) (admissionNext c) (admissionDone c) (admissionFinished c) (barrierPending c) (calls c) b o.

Definition beginAdmission (c : inboundConn) : inboundConn :=
  set_admission c (admissionNext c + 1) (admissionDone c) (admissionFinished c).

(** The loop of finishAdmission. *)
Fixpoint advanceDone (fuel : nat) (done : Z) (fin : gset Z) : Z * gset Z :=
  match fuel with
  | O => (done, fin)
  | S fuel => if decide (done + 1 ∈ fin) then advanceDone fuel (done + 1) (fin ∖ {[done + 1]}) else (done, fin)
  end.

Definition finishAdmission (c : inboundConn) (sequence : Z) : inboundConn :=
  if decide (sequence = 0) then c
  else
    let fin := {[sequence]} ∪ admissionFinished c in
    let '(done, fin) := advanceDone (size fin) (admissionDone c) fin in
    set_admission c (admissionNext c) done fin.

Definition admissionBarrierProtocol : string := "__skygo_admission_barrier_v1".

(** ** Connections (inbound.go) *)

Definition write (c : inboundConn) (e : Envelope) (w : wrote) : inboundConn :=
  if closed c then c
  else match w with
       | Whole => set_out c false ((e, true) :: out c)
       | Part => set_out c false ((e, false) :: out c)
       | Nothing => c
       end.

Definition pong (id : string) (request : Envelope) (protocol : string) : Envelope :=
  Env protocolVersion KIND_PONG (RequestId request) id "" 0 [] [] None "" protocol "" 0 [] [] None "".

Definition response (id : string) (request : Z) (payload : list Z) (err : option goError) : Envelope :=
  Env protocolVersion KIND_RESPONSE request id "" 0 [] [] None "" "" "" 0 [] payload (encodeError err) "".

Definition forgetCall (c : inboundConn) (request : Z) : inboundConn := set_calls c (delete request (calls c)).

Definition cancelJobs (js : list job) (ids : list nat) : list job :=
  foldr (λ i js, alter (λ j, Job (j_conn j) (j_seq j) (j_env j) true) i js) js ids.

Definition closeConn (n : node) (c : nat) : node :=
  match conns n !! c with
  | Some conn =>
      if closed conn then n
      else set_jobs (upd_conn n c (λ x, set_out x true (out x)))
                    (cancelJobs (jobs n) (snd <$> map_to_list (calls conn)))
  | None => n
  end.

(** A write whose error closes the connection. *)
Definition closeUnless (w : wrote) (n : node) (c : nat) : node :=
  match w with Whole => n | _ => closeConn n c end.

(** The answer of resolve, from what the system resolved. *)
Definition resolveResponse (n : node) (e : Envelope) (r : result goError (Z * Z)) : Envelope :=
  match r with
  | Err err => Env protocolVersion KIND_RESOLVE_RESPONSE (RequestId e) (nodeID n) "" 0 [] [] None "" "" "" 0 [] [] (encodeError (Some err)) ""
  | Ok (address, generation) =>
      Env protocolVersion KIND_RESOLVE_RESPONSE (RequestId e) (nodeID n) "" 0 [] []
        (Some (WireTarget (nodeID n) (incarnation n) (Service e) address generation)) "" "" "" 0 [] [] None ""
  end.

Definition errBackpressure : goError := GoError [ErrTransportBackpressure] "actor: remote transport backpressure".
Definition errStaleRef : goError := GoError [ErrStaleRef] "actor: stale service ref".

(** ** The dispatcher (dispatcher.go) *)

(** [None] when the job is refused. *)
Definition submit (n : node) (j : nat) (e : Envelope) : option node :=
  match Target e with
  | None => None
  | Some t =>
      if decide (length (shards n) = 0)%nat then None
      else
        let i := Z.to_nat (wt_Address t mod Z.of_nat (length (shards n))) in
        let queue := default [] (shards n !! i) in
        if decide (inboundQueue n ≤ slots n) then None
        else if decide (inboundQueue n ≤ Z.of_nat (length queue)) then None
        else Some (emit (set_dispatcher n (<[i := queue ++ [j]]> (shards n)) (workers n) (slots n + 1)) (EvSubmit i j))
  end.

(** The admission of a call or notification read from connection [c]. *)
Definition admitFrame (n : node) (c : nat) (e : Envelope) (w : wrote) : node :=
  let n1 := upd_conn n c beginAdmission in
  let seq := from_option admissionNext 0 (conns n1 !! c) in
  let j := length (jobs n) in
  let n2 := set_jobs n1 (jobs n ++ [Job c seq e false]) in
  let n3 := if decide (kind e = KIND_CALL) then upd_conn n2 c (λ x, set_calls x (<[RequestId e := j]> (calls x))) else n2 in
  match submit n3 j e with
  | Some n4 => n4
  | None =>
      let n4 := emit (upd_conn n3 c (λ x, finishAdmission x seq)) EvRejected in
      if decide (kind e = KIND_CALL) then
        emit (upd_conn n4 c (λ x, write (forgetCall x (RequestId e)) (response (nodeID n) (RequestId e) [] (Some errBackpressure)) w))
             (EvAnswer j)
      else
        emit (emit n4 EvDropped) (EvAsync (from_option wt_Service "" (Target e)) (Protocol e) errBackpressure)
  end.

Definition barrier (n : node) (c : nat) (conn : inboundConn) (e : Envelope) (w : wrote) : node :=
  if barrierPending conn then upd_conn n c (λ x, write x (pong (nodeID n) e "barrier_busy") w)
  else set_barriers (upd_conn n c (λ x, set_barrier x true)) (barriers n ++ [(c, admissionNext conn, e)]).

(** One iteration of the read loop of acceptConn; [resolved] is what the system
    answers to a resolve request, [w] what the answer to this frame puts out. *)
Definition onFrame (n : node) (c : nat) (e : Envelope) (resolved : result goError (Z * Z)) (w : wrote) : option node :=
  conn ← conns n !! c;
  if closed conn then None
  else if decide (Version e ≠ protocolVersion ∨ SourceNode e ≠ remoteNode conn)
  then Some (closeConn (emit n EvProtocolError) c)
  else
    Some match kind e with
         | KIND_RESOLVE_REQUEST => closeUnless w (upd_conn n c (λ x, write x (resolveResponse n e resolved) w)) c
         | KIND_CALL | KIND_SEND => admitFrame n c e w
         | KIND_CANCEL =>
             let n1 := emit n EvCancel in
             match calls conn !! RequestId e with
             | Some j => set_jobs n1 (cancelJobs (jobs n1) [j])
             | None => n1
             end
         | KIND_PING =>
             if decide (Protocol e = admissionBarrierProtocol) then barrier n c conn e w
             else upd_conn n c (λ x, write x (header KIND_PONG (nodeID n) (RequestId e)) w)
         | KIND_PONG => n
         | _ => emit n EvProtocolError
         end.

(** run: the worker of shard [i] takes the next job. *)
Definition take (n : node) (i : nat) : option node :=
  w ← workers n !! i;
  q ← shards n !! i;
  match w, q with
  | None, j :: q' => Some (emit (set_dispatcher n (<[i := q']> (shards n)) (<[i := Some j]> (workers n)) (slots n - 1)) (EvTake i j))
  | _, _ => None
  end.

Definition validateInboundTarget (n : node) (t : System.RemoteTarget) : bool :=
  bool_decide (System.t_Node t = nodeID n ∧ System.t_Incarnation t = incarnation n).

(** dispatch without its deferred finishAdmission; [sys] is the error of
    DispatchRemoteAsync. *)
Definition dispatchBody (n : node) (id : nat) (j : job) (sys : option goError) (w : wrote) : node :=
  let e := j_env j in
  let c := j_conn j in
  let answer n err :=
    emit (upd_conn n c (λ x, write (forgetCall x (RequestId e)) (response (nodeID n) (RequestId e) [] (Some err)) w)) (EvAnswer id) in
  if j_canceled j then upd_conn n c (λ x, forgetCall x (RequestId e))
  else if negb (validateInboundTarget n (fromWireTarget (Target e))) then
    if decide (kind e = KIND_SEND)
    then emit (emit n EvRejected) (EvAsync (System.t_Service (fromWireTarget (Target e))) (Protocol e) errStaleRef)
    else answer n errStaleRef
  else if decide (kind e = KIND_SEND) then
    match sys with
    | Some err => emit (emit n EvRejected) (EvAsync (from_option wt_Service "" (Target e)) (Protocol e) err)
    | None => n
    end
  else if decide (maxInboundCalls n ≤ active n) then answer (emit n EvRejected) errBackpressure
  else
    match sys with
    | Some err => answer n err
    | None => set_running n (active n + 1) (id :: running n)
    end.

Definition dispatch (n : node) (i : nat) (sys : option goError) (w : wrote) : option node :=
  x ← workers n !! i;
  id ← x;
  j ← jobs n !! id;
  let n1 := upd_conn (dispatchBody n id j sys w) (j_conn j) (λ x, finishAdmission x (j_seq j)) in
  Some (set_dispatcher n1 (shards n1) (<[i := None]> (workers n1)) (slots n1)).

(** The goroutine of a call once the actor has answered, or once the node stops. *)
Definition finishCall (n : node) (k : nat) (res : option (list Z * option goError)) (w : wrote) : option node :=
  id ← running n !! k;
  j ← jobs n !! id;
  let e := j_env j in
  let n1 := set_running n (active n - 1) (delete k (running n)) in
  let n2 := upd_conn n1 (j_conn j) (λ x, forgetCall x (RequestId e)) in
  match res with
  | None => Some (set_jobs n2 (cancelJobs (jobs n2) [id]))
  | Some (payload, err) =>
      if j_canceled j then Some n2
      else Some (closeUnless w (emit (upd_conn n2 (j_conn j) (λ x, write x (response (nodeID n) (RequestId e) payload err) w))
                                     (EvAnswer id)) (j_conn j))
  end.

(** The goroutine of a barrier: it answers when the admissions are done, or gives up. *)
Definition barrierReply (n : node) (k : nat) (w : wrote) : option node :=
  '(c, sequence, request) ← barriers n !! k;
  conn ← conns n !! c;
  if decide (sequence ≤ admissionDone conn) then
    Some (set_barriers (upd_conn n c (λ x, set_barrier (write x (pong (nodeID n) request admissionBarrierProtocol) w) false))
                       (delete k (barriers n)))
  else None.

Definition barrierGiveUp (n : node) (k : nat) : option node :=
  '(c, _, _) ← barriers n !! k;
  Some (set_barriers (upd_conn n c (λ x, set_barrier x false)) (delete k (barriers n))).

(** ** Runs *)

Inductive label :=
  | LAccept (c : nat) (remote : string)
  | LFrame (c : nat) (e : Envelope) (resolved : result goError (Z * Z)) (w : wrote)
  | LTake (i : nat)
  | LDispatch (i : nat) (sys : option goError) (w : wrote)
  | LFinish (k : nat) (res : option (list Z * option goError)) (w : wrote)
  | LBarrier (k : nat) (w : wrote)
  | LBarrierGiveUp (k : nat)
  | LClose (c : nat).

Definition step (n : node) (a : label) : option node :=
  match a with
  | LAccept c remote =>
      match conns n !! c with
      | None => Some (set_conns n (<[c := Conn remote 0 0 ∅ false ∅ false []]> (conns n)))
      | Some _ => None
      end
  | LFrame c e r w => onFrame n c e r w
  | LTake i => take n i
  | LDispatch i sys w => dispatch n i sys w
  | LFinish k res w => finishCall n k res w
  | LBarrier k w => barrierReply n k w
  | LBarrierGiveUp k => barrierGiveUp n k
  | LClose c => Some (closeConn n c)
  end.

Notation steps := (runs step).

End Inbound.
