(* ===== verification/InboundProps.v ===== *)
(** * Invariants of the receiving side

    Admissions are accounted for, queues stay bounded and ordered, and calls are
    answered once, whatever the order of the steps. *)

From S2P Require Import Prelude System Dispatch Wire Inbound.

Module InboundProps.
Import Wire Inbound.

(** ** Admissions of one connection *)

Notation triple := (Z * Z * gset Z)%type.

Definition admission (c : inboundConn) : triple := (admissionNext c, admissionDone c, admissionFinished c).
Definition begin3 (t : triple) : triple := (t.1.1 + 1, t.1.2, t.2).
Definition finish3 (s : Z) (t : triple) : triple :=
  let fin := {[s]} ∪ t.2 in let r := advanceDone (size fin) t.1.2 fin in (t.1.1, r.1, r.2).

Lemma advance_spec fuel : ∀ dn fin, (size fin <= fuel)%nat →
  ∃ dn' fin', advanceDone fuel dn fin = (dn', fin') ∧ dn ≤ dn' ∧ dn' + 1 ∉ fin' ∧
    (∀ s, s ∈ fin' ↔ s ∈ fin ∧ ¬ (dn < s ≤ dn')) ∧ (∀ s, dn < s ≤ dn' → s ∈ fin).
Proof.
  induction fuel as [|fuel IH]; intros dn fin Hsz; cbn [advanceDone].
  { exists dn, fin. assert (fin = ∅) as -> by (apply leibniz_equiv, size_empty_inv; lia).
    split_and!; [done|lia|set_solver|intros s; split; [set_solver|tauto]|lia]. }
  case_decide as Hin.
  - destruct (IH (dn + 1) (fin ∖ {[dn + 1]})) as (dn' & fin' & -> & Hle & Hn & Hf & Hc).
    { rewrite (size_remove (dn + 1) fin) in Hsz by done. lia. }
    exists dn', fin'. split_and!; [done|lia|done| |].
    + intros s. rewrite Hf, elem_of_difference, elem_of_singleton. split.
      * intros [[Hs Hne] Hr]. split; [done|]. lia.
      * intros [Hs Hr]. split; [split; [done|]|]; lia.
    + intros s Hs. destruct (decide (s = dn + 1)) as [->|Hne]; [done|].
      assert (s ∈ fin ∖ {[dn + 1]}) as Hx by (apply Hc; lia). set_solver.
  - exists dn, fin. split_and!; [done|lia|done|intros s; split; [intros ?; split; [done|lia]|tauto]|lia].
Qed.

Lemma admission_begin c : admission (beginAdmission c) = begin3 (admission c).
Proof. done. Qed.
Lemma admission_finish c s : s ≠ 0 → admission (finishAdmission c s) = finish3 s (admission c).
Proof.
  intros Hs. unfold finishAdmission, finish3, admission. rewrite decide_False by done. cbn [fst snd].
  by destruct (advanceDone _ _ _).
Qed.

(** ** Admissions of the node *)

Definition admissions (n : node) : gmap nat triple := admission <$> conns n.
Definition owner (j : job) : nat * Z := (j_conn j, j_seq j).
Definition owners (n : node) : list (nat * Z) := owner <$> jobs n.
(** The jobs whose admission is not finished. *)
Definition outstanding (n : node) : list nat := concat (shards n) ++ omap id (workers n).

Record accounted (A : gmap nat triple) (O : list (nat * Z)) (outs : list nat) : Prop := {
  ac_range c nx dn fin : A !! c = Some (nx, dn, fin) →
    0 ≤ dn ≤ nx ∧ dn + 1 ∉ fin ∧ ∀ s, s ∈ fin → dn < s ≤ nx;
  ac_cover c nx dn fin s : A !! c = Some (nx, dn, fin) → dn < s ≤ nx →
    s ∈ fin ∨ ∃ j, j ∈ outs ∧ O !! j = Some (c, s);
  ac_out j : j ∈ outs → ∃ c s nx dn fin, O !! j = Some (c, s) ∧ A !! c = Some (nx, dn, fin) ∧ dn < s ≤ nx ∧ s ∉ fin;
  ac_inj j j' p : j ∈ outs → j' ∈ outs → O !! j = Some p → O !! j' = Some p → j = j';
  ac_nodup : NoDup outs;
  ac_owner j c s : O !! j = Some (c, s) → ∃ nx dn fin, A !! c = Some (nx, dn, fin) ∧ s ≤ nx;
}.

#[global] Instance accounted_perm A O : Proper ((≡ₚ) ==> iff) (accounted A O).
Proof.
  assert (∀ l l', l ≡ₚ l' → accounted A O l → accounted A O l') as H.
  { intros l l' Hp [H1 H2 H3 H4 H5 H6]. split.
    - done.
    - intros c nx dn fin s Hc Hs. destruct (H2 c nx dn fin s Hc Hs) as [?|(j & Hj & ?)]; [by left|].
      right. exists j. by rewrite <-Hp.
    - intros j Hj. apply H3. by rewrite Hp.
    - intros j j' p Hj Hj'. apply H4; by rewrite Hp.
    - by rewrite <-Hp.
    - done. }
  intros l l' Hp. split; apply H; [done|by symmetry].
Qed.

Lemma accounted_empty : accounted ∅ [] [].
Proof.
  split; try (intros *; by rewrite lookup_empty); try (intros *; set_solver); constructor.
Qed.

(** A connection is accepted. *)
Lemma accounted_accept A O outs c : accounted A O outs → A !! c = None → accounted (<[c := (0, 0, ∅)]> A) O outs.
Proof.
  intros [H1 H2 H3 H4 H5 H6] Hc. split; [| | |done|done|].
  - intros c' nx dn fin. rewrite lookup_insert_Some. intros [[<- [= <- <- <-]]|[Hne Hl]]; [|by eapply H1].
    split_and!; [lia..|set_solver|set_solver].
  - intros c' nx dn fin s. rewrite lookup_insert_Some. intros [[<- [= <- <- <-]]|[Hne Hl]]; [lia|by eapply H2].
  - intros j Hj. destruct (H3 j Hj) as (c' & s & nx & dn & fin & ? & Hl & ?).
    exists c', s, nx, dn, fin. rewrite lookup_insert_ne by congruence. done.
  - intros j c' s Hj. destruct (H6 j c' s Hj) as (nx & dn & fin & Hl & Hs).
    exists nx, dn, fin. rewrite lookup_insert_ne by congruence. done.
Qed.

(** An admission begins: the new job holds the next sequence number. *)
Lemma accounted_begin A O outs c nx dn fin :
  accounted A O outs → A !! c = Some (nx, dn, fin) →
  accounted (<[c := (nx + 1, dn, fin)]> A) (O ++ [(c, nx + 1)]) (length O :: outs).
Proof.
  intros [H1 H2 H3 H4 H5 H6] Hc. destruct (H1 _ _ _ _ Hc) as (Hr & Hd & Hf).
  assert (∀ j, j ∈ outs → (j < length O)%nat ∧ (O ++ [(c, nx + 1)]) !! j = O !! j) as Hold.
  { intros j Hj. destruct (H3 j Hj) as (c' & s & ? & ? & ? & Ho & _). apply lookup_lt_Some in Ho as Hl.
    split; [done|]. by rewrite lookup_app_l. }
  assert ((O ++ [(c, nx + 1)]) !! length O = Some (c, nx + 1)) as Hnew by (by apply list_lookup_middle).
  split.
  - intros c' nx' dn' fin'. rewrite lookup_insert_Some. intros [[<- [= <- <- <-]]|[Hne Hl]]; [|by eapply H1].
    split_and!; [lia..|done|]. intros s Hs. specialize (Hf s Hs). lia.
  - intros c' nx' dn' fin' s. rewrite lookup_insert_Some. intros [[<- [= <- <- <-]]|[Hne Hl]] Hs.
    + destruct (decide (s = nx + 1)) as [->|]; [right; exists (length O); set_solver|].
      destruct (H2 c nx dn fin s Hc) as [?|(j & Hj & Ho)]; [lia|by left|]. right. exists j.
      destruct (Hold j Hj) as [_ ->]. set_solver.
    + destruct (H2 c' nx' dn' fin' s Hl Hs) as [?|(j & Hj & Ho)]; [by left|]. right. exists j.
      destruct (Hold j Hj) as [_ ->]. set_solver.
  - intros j [->|Hj]%elem_of_cons.
    + exists c, (nx + 1), (nx + 1), dn, fin. rewrite lookup_insert_eq. split_and!; [done..|lia|lia|].
      intros Hin. specialize (Hf _ Hin). lia.
    + destruct (Hold j Hj) as [_ ->]. destruct (H3 j Hj) as (c' & s & nx' & dn' & fin' & Ho & Hl & Hs & Hn).
      destruct (decide (c' = c)) as [->|Hne].
      * simplify_eq. exists c, s, (nx + 1), dn, fin. rewrite lookup_insert_eq. split_and!; [done..|lia|lia|done].
      * exists c', s, nx', dn', fin'. rewrite lookup_insert_ne by done. done.
  - assert (∀ j, j ∈ outs → O !! j ≠ Some (c, nx + 1)) as Hfresh.
    { intros j Hj Ho. destruct (H3 j Hj) as (c' & s & nx' & dn' & fin' & Ho' & Hl & Hs & _). simplify_eq. lia. }
    intros j j' p [->|Hj]%elem_of_cons [->|Hj']%elem_of_cons; rewrite ?Hnew; [done| | |].
    + intros [= <-]. destruct (Hold j' Hj') as [_ ->]. intros Ho. by destruct (Hfresh j' Hj').
    + destruct (Hold j Hj) as [_ ->]. intros Ho [= <-]. by destruct (Hfresh j Hj).
    + destruct (Hold j Hj) as [_ ->], (Hold j' Hj') as [_ ->]. by apply H4.
  - constructor; [|done]. intros Hj. destruct (Hold _ Hj). lia.
  - intros j c' s. rewrite lookup_app_Some, list_lookup_singleton_Some. intros [Hj|(_ & _ & [= <- <-])].
    + destruct (H6 j c' s Hj) as (nx' & dn' & fin' & Hl & Hs). destruct (decide (c' = c)) as [->|Hne].
      * simplify_eq. exists (nx + 1), dn, fin. rewrite lookup_insert_eq. split; [done|lia].
      * exists nx', dn', fin'. by rewrite lookup_insert_ne.
    + exists (nx + 1), dn, fin. rewrite lookup_insert_eq. split; [done|lia].
Qed.

(** An admission ends: its sequence number is finished, and the prefix of finished
    ones moves [admissionDone]. *)
Lemma accounted_finish A O outs j c s t :
  accounted A O (j :: outs) → O !! j = Some (c, s) → A !! c = Some t →
  accounted (<[c := finish3 s t]> A) O outs.
Proof.
  intros [H1 H2 H3 H4 H5 H6] Hj Ht. destruct t as [[nx dn] fin]. unfold finish3. cbn [fst snd].
  destruct (H3 j ltac:(set_solver)) as (c0 & s0 & nx0 & dn0 & fin0 & Ho & Hl & Hs & Hn). simplify_eq.
  destruct (H1 _ _ _ _ Ht) as (Hr & Hd & Hf). apply NoDup_cons in H5 as [Hjn H5].
  destruct (advance_spec (size ({[s]} ∪ fin)) dn ({[s]} ∪ fin)) as (dn' & fin' & -> & Hle & Hn' & Hf' & Hc'); [done|].
  assert (∀ x, x ∈ ({[s]} ∪ fin : gset Z) → dn < x ≤ nx) as Hall.
  { intros x [->%elem_of_singleton|Hx]%elem_of_union; [done|by apply Hf]. }
  assert (dn' ≤ nx) as Hle'.
  { destruct (decide (dn < dn')); [|lia]. apply (Hall dn'), Hc'. lia. }
  assert (∀ j', j' ∈ outs → O !! j' ≠ Some (c, s)) as Hother.
  { intros j' Hj' Ho'. rewrite (H4 j' j (c, s)) in Hj'; [done|set_solver..|done|done]. }
  split.
  - intros c' nx' dn1 fin1. rewrite lookup_insert_Some. intros [[<- [= <- <- <-]]|[Hne Hl']]; [|by eapply H1].
    split_and!; [lia..|done|]. intros x [Hx Hnr]%Hf'. specialize (Hall x Hx). lia.
  - intros c' nx' dn1 fin1 x. rewrite lookup_insert_Some. intros [[<- [= <- <- <-]]|[Hne Hl']] Hx.
    + destruct (H2 c nx dn fin x Ht) as [Hin|(j' & Hj' & Ho')]; [lia|left; apply Hf'; split; [set_solver|lia]|].
      apply elem_of_cons in Hj' as [->|Hj']; [|by eauto].
      left. rewrite Hj in Ho'. injection Ho' as <-. apply Hf'. split; [set_solver|lia].
    + destruct (H2 _ _ _ _ _ Hl' Hx) as [Hin|(j' & Hj' & Ho')]; [by left|].
      apply elem_of_cons in Hj' as [->|Hj']; [|by eauto]. congruence.
  - intros j' Hj'. destruct (H3 j' ltac:(set_solver)) as (c' & x & nx' & dn1 & fin1 & Ho' & Hl' & Hx & Hxn).
    destruct (decide (c' = c)) as [->|Hne].
    + simplify_eq. exists c, x, nx, dn', fin'. rewrite lookup_insert_eq.
      assert (x ≠ s) as Hxs by (intros ->; by apply (Hother j')).
      assert (x ∉ ({[s]} ∪ fin : gset Z)) as Hxu by set_solver.
      split_and!; [done..| |lia|intros [Hx' _]%Hf'; done].
      destruct (decide (x ≤ dn')); [|lia]. exfalso. apply Hxu, Hc'. lia.
    + exists c', x, nx', dn1, fin1. rewrite lookup_insert_ne by done. done.
  - intros j1 j2 p Hj1 Hj2. apply H4; set_solver.
  - done.
  - intros j' c' x Hj'. destruct (H6 j' c' x Hj') as (nx' & dn1 & fin1 & Hl' & Hx). destruct (decide (c' = c)) as [->|Hne].
    + simplify_eq. exists nx, dn', fin'. by rewrite lookup_insert_eq.
    + exists nx', dn1, fin1. by rewrite lookup_insert_ne.
Qed.

(** ** The views of a node under its updates *)

Lemma admissions_upd n c f g :
  (∀ x, admission (f x) = g (admission x)) → admissions (upd_conn n c f) = alter g c (admissions n).
Proof.
  intros Hf. unfold admissions, upd_conn. simpl. apply map_eq. intros i. rewrite lookup_fmap.
  destruct (decide (i = c)) as [->|Hne].
  - rewrite !lookup_alter_eq, lookup_fmap. destruct (conns n !! c); simpl; [by rewrite Hf|done].
  - by rewrite !lookup_alter_ne, lookup_fmap by done.
Qed.

Lemma admissions_same n c f : (∀ x, admission (f x) = admission x) → admissions (upd_conn n c f) = admissions n.
Proof.
  intros Hf. rewrite (admissions_upd n c f id) by done. apply map_eq. intros i.
  destruct (decide (i = c)) as [->|Hne]; [rewrite lookup_alter_eq; by destruct (_ !! c)|by rewrite lookup_alter_ne].
Qed.

Lemma admission_write x e w : admission (write x e w) = admission x.
Proof. unfold write. by destruct (closed x), w. Qed.

Lemma owner_cancel js ids : owner <$> cancelJobs js ids = owner <$> js.
Proof.
  induction ids as [|i ids IH]; [done|]. cbn [cancelJobs foldr]. rewrite <-IH. apply list_eq. intros k.
  rewrite !list_lookup_fmap. destruct (decide (k = i)) as [->|Hne].
  - rewrite list_lookup_alter_eq. unfold cancelJobs. by destruct (foldr _ _ _ !! i).
  - by rewrite list_lookup_alter_ne.
Qed.

(** What a step leaves alone when it is not about admissions. *)
Definition views (n : node) := (admissions n, owners n, shards n, workers n).

Lemma views_upd n c f : (∀ x, admission (f x) = admission x) → views (upd_conn n c f) = views n.
Proof. intros Hf. unfold views. by rewrite admissions_same. Qed.

Lemma views_emit n e : views (emit n e) = views n.
Proof. done. Qed.
Lemma views_cancel n ids : views (set_jobs n (cancelJobs (jobs n) ids)) = views n.
Proof. unfold views, owners. cbn [jobs set_jobs]. by rewrite owner_cancel. Qed.

Lemma admission_answer x r e w : admission (write (forgetCall x r) e w) = admission x.
Proof. by rewrite admission_write. Qed.

Lemma views_close n c : views (closeConn n c) = views n.
Proof.
  unfold closeConn. destruct (conns n !! c) as [conn|]; [|done]. destruct (closed conn); [done|].
  change (jobs n) with (jobs (upd_conn n c (λ x, set_out x true (out x)))). by rewrite views_cancel, views_upd.
Qed.

Lemma views_closeUnless w n c : views (closeUnless w n c) = views n.
Proof. destruct w; [done|apply views_close..]. Qed.

Ltac solve_views :=
  repeat first
    [ done
    | rewrite views_closeUnless
    | rewrite views_emit
    | rewrite views_upd by (intros; rewrite ?admission_write; done)
    | rewrite views_cancel ].

Lemma views_body n id j sys w : views (dispatchBody n id j sys w) = views n.
Proof.
  unfold dispatchBody. destruct (j_canceled j); [by solve_views|].
  destruct (negb _); [case_decide; by solve_views|]. case_decide; [destruct sys; by solve_views|].
  case_decide; [by solve_views|]. destruct sys; by solve_views.
Qed.

Lemma concat_insert {A} (ss : list (list A)) i q q' :
  ss !! i = Some q → concat (<[i := q']> ss) ++ q ≡ₚ q' ++ concat ss.
Proof.
  revert i. induction ss as [|s ss IH]; intros [|i]; simpl; [done|done| |].
  - intros [= ->]. rewrite <-app_assoc. f_equiv. apply Permutation_app_comm.
  - intros Hi. rewrite <-app_assoc, (IH i Hi). solve_Permutation.
Qed.

Lemma concat_push {A} (ss : list (list A)) i q j :
  ss !! i = Some q → concat (<[i := q ++ [j]]> ss) ≡ₚ j :: concat ss.
Proof. intros Hq. apply (Permutation_app_inv_r q). rewrite (concat_insert _ _ _ _ Hq). solve_Permutation. Qed.

Lemma concat_pop {A} (ss : list (list A)) i j q :
  ss !! i = Some (j :: q) → j :: concat (<[i := q]> ss) ≡ₚ concat ss.
Proof.
  intros Hq. apply (Permutation_app_inv_r q). pose proof (concat_insert _ _ _ q Hq) as Hp.
  rewrite (Permutation_app_comm (concat ss) q), <-Hp. solve_Permutation.
Qed.

Lemma omap_insert {A} (ws : list (option A)) i w w' :
  ws !! i = Some w → omap id (<[i := w']> ws) ++ option_list w ≡ₚ option_list w' ++ omap id ws.
Proof.
  revert i. induction ws as [|x ws IH]; intros [|i]; simpl; [done|done| |].
  - intros [= ->]. destruct w as [a|], w' as [b|]; simpl; rewrite ?app_nil_r; try done;
      try (rewrite (Permutation_app_comm _ [_]); done); by rewrite <-Permutation_cons_append.
  - intros Hi. destruct x; simpl; [|by apply IH]. rewrite (IH i Hi). by rewrite Permutation_middle.
Qed.

Definition adm_inv (n : node) : Prop := accounted (admissions n) (owners n) (outstanding n).

Lemma adm_views n n' : views n' = views n → adm_inv n → adm_inv n'.
Proof. unfold views, adm_inv, outstanding. by intros [= -> -> -> ->]. Qed.

Lemma submit_outstanding n j e n' :
  submit n j e = Some n' →
  outstanding n' ≡ₚ j :: outstanding n ∧ admissions n' = admissions n ∧ owners n' = owners n.
Proof.
  unfold submit. destruct (Target e) as [t|]; [|done]. case_decide as Hlen; [done|].
  set (i := Z.to_nat _). assert (i < length (shards n))%nat as Hi.
  { subst i. pose proof (Z.mod_pos_bound (wt_Address t) (Z.of_nat (length (shards n)))). lia. }
  destruct (lookup_lt_is_Some_2 _ _ Hi) as [q Hq]. rewrite Hq. cbn [default from_option].
  case_decide; [done|]. case_decide; [done|]. intros [= <-]. split_and!; [|done..].
  unfold outstanding. cbn [shards workers emit set_dispatcher].
  by rewrite (concat_push (shards n) i q j Hq).
Qed.

Lemma admissions_lookup n c conn : conns n !! c = Some conn → admissions n !! c = Some (admission conn).
Proof. intros Hc. unfold admissions. by rewrite lookup_fmap, Hc. Qed.

Lemma alter_insert_eq {A} (m : gmap nat A) i f x : m !! i = Some x → alter f i m = <[i := f x]> m.
Proof.
  intros Hi. apply map_eq. intros k. destruct (decide (k = i)) as [->|Hne].
  - by rewrite lookup_alter_eq, lookup_insert_eq, Hi.
  - by rewrite lookup_alter_ne, lookup_insert_ne.
Qed.

(** The end of an admission, as a job that is no longer outstanding. *)
Lemma adm_finish n n1 j c s outs :
  accounted (admissions n) (owners n) (j :: outs) → owners n !! j = Some (c, s) →
  admissions n1 = admissions (upd_conn n c (λ x, finishAdmission x s)) → owners n1 = owners n →
  accounted (admissions n1) (owners n1) outs.
Proof.
  intros Ha Hj -> ->.
  destruct (ac_out _ _ _ Ha j ltac:(set_solver)) as (c' & s' & nx & dn & fin & Ho & Hl & Hs & _). simplify_eq.
  destruct (ac_range _ _ _ Ha _ _ _ _ Hl) as (Hr & _).
  rewrite (admissions_upd n c _ (finish3 s)) by (intros; apply admission_finish; lia).
  rewrite (alter_insert_eq _ _ _ _ Hl). by eapply accounted_finish.
Qed.

Lemma admit_inv n c e w conn : adm_inv n → conns n !! c = Some conn → adm_inv (admitFrame n c e w).
Proof.
  intros Ha Hc. unfold admitFrame.
  set (n1 := upd_conn n c beginAdmission). set (seq := from_option admissionNext 0 (conns n1 !! c)).
  assert (seq = admissionNext conn + 1) as Hseq.
  { subst seq n1. cbn [conns upd_conn set_conns]. by rewrite lookup_alter_eq, Hc. }
  set (n2 := set_jobs n1 _).
  assert (accounted (admissions n2) (owners n2) (length (jobs n) :: outstanding n2)) as H2.
  { change (admissions n2) with (admissions n1). change (outstanding n2) with (outstanding n).
    unfold owners, n2. cbn [jobs set_jobs]. rewrite fmap_app, Hseq. subst n1.
    rewrite (admissions_upd n c _ begin3) by done. rewrite (alter_insert_eq _ _ _ _ (admissions_lookup _ _ _ Hc)).
    replace (length (jobs n)) with (length (owners n)) by (unfold owners; by rewrite length_fmap).
    eapply accounted_begin; [exact Ha|]. by apply admissions_lookup. }
  assert (owners n2 !! length (jobs n) = Some (c, seq)) as Hj.
  { unfold owners, n2. cbn [jobs set_jobs]. rewrite fmap_app. apply list_lookup_middle. by rewrite length_fmap. }
  set (n3 := if decide (kind e = KIND_CALL) then _ else n2).
  assert (views n3 = views n2) as Hv3 by (subst n3; case_decide; by solve_views).
  injection Hv3 as HA HO HS HW.
  destruct (submit n3 _ e) as [n4|] eqn:Hsub.
  - apply submit_outstanding in Hsub as (Hp & HA4 & HO4). unfold adm_inv. rewrite Hp, HA4, HO4.
    unfold outstanding. rewrite HA, HO, HS, HW. exact H2.
  - set (n4 := emit (upd_conn n3 c (λ x, finishAdmission x seq)) EvRejected).
    assert (adm_inv n4) as H4.
    { unfold adm_inv. replace (outstanding n4) with (outstanding n2) by (unfold outstanding; simpl; by rewrite HS, HW).
      eapply (adm_finish n3 n4); [rewrite HA, HO; exact H2|by rewrite HO|done..]. }
    case_decide; eapply adm_views; [|exact H4| |exact H4]; by solve_views.
Qed.

Lemma onFrame_inv n c e r w n' : adm_inv n → onFrame n c e r w = Some n' → adm_inv n'.
Proof.
  intros Ha. unfold onFrame. destruct (conns n !! c) as [conn|] eqn:Hc; [|done]. cbn [mbind option_bind].
  destruct (closed conn); [done|]. case_decide.
  { intros [= <-]. eapply adm_views; [|exact Ha]. by rewrite views_close. }
  intros [= <-]. destruct (kind e);
    try (eapply adm_views; [|exact Ha]; by solve_views); try (by eapply admit_inv).
  - case_decide; [|eapply adm_views; [|exact Ha]; by solve_views].
    unfold barrier. destruct (barrierPending conn); eapply adm_views; [|exact Ha| |exact Ha]; [by solve_views|].
    by rewrite <-(views_upd n c (λ x, set_barrier x true)).
  - destruct (calls conn !! RequestId e) as [j|]; eapply adm_views; [exact (views_cancel (emit n EvCancel) [j])|exact Ha|done|exact Ha].
Qed.

Lemma take_inv n i n' : adm_inv n → take n i = Some n' → adm_inv n'.
Proof.
  unfold adm_inv, take. intros Ha. destruct (workers n !! i) as [[|]|] eqn:Hw; [by destruct (shards n !! i)| |done].
  cbn [mbind option_bind]. destruct (shards n !! i) as [[|j q]|] eqn:Hq; [done| |done]. intros [= <-].
  unfold outstanding in *. cbn [shards workers emit set_dispatcher].
  pose proof (omap_insert (workers n) i None (Some j) Hw) as Hp. simpl in Hp. rewrite app_nil_r in Hp.
  rewrite Hp, <-Permutation_middle, app_comm_cons, (concat_pop _ _ _ _ Hq). exact Ha.
Qed.

Lemma dispatch_inv n i sys w n' : adm_inv n → dispatch n i sys w = Some n' → adm_inv n'.
Proof.
  unfold dispatch. intros Ha. destruct (workers n !! i) as [[id|]|] eqn:Hw; [|done..]. cbn [mbind option_bind].
  destruct (jobs n !! id) as [j|] eqn:Hj; [|done]. cbn [mbind option_bind]. intros [= <-].
  set (n1 := dispatchBody n id j sys w). assert (views n1 = views n) as Hv by apply views_body.
  injection Hv as HA HO HS HW.
  pose proof (omap_insert (workers n) i (Some id) None Hw) as Hp. cbn [option_list app] in Hp.
  unfold adm_inv. refine (adm_finish n1 _ id (j_conn j) (j_seq j) _ _ _ _ _); [|rewrite HO; unfold owners; by rewrite list_lookup_fmap, Hj|done..].
  unfold outstanding. cbn [shards workers set_dispatcher upd_conn set_conns]. rewrite HA, HO, HS, HW.
  unfold adm_inv, outstanding in Ha. rewrite <-Hp in Ha.
  rewrite app_assoc, (Permutation_app_comm _ [id]) in Ha. exact Ha.
Qed.

Lemma step_adm n a n' : adm_inv n → step n a = Some n' → adm_inv n'.
Proof.
  intros Ha HE. destruct a as [c remote|c e r w|i|i sys w|k res w|k w|k|c]; simpl in HE.
  - destruct (conns n !! c) eqn:Hc; [done|]. injection HE as <-. unfold adm_inv, admissions in *. cbn [conns set_conns].
    rewrite fmap_insert. apply accounted_accept; [exact Ha|]. by rewrite lookup_fmap, Hc.
  - by eapply onFrame_inv.
  - by eapply take_inv.
  - by eapply dispatch_inv.
  - unfold finishCall in HE. destruct (running n !! k) as [id|]; [|done]. cbn [mbind option_bind] in HE.
    destruct (jobs n !! id) as [j|]; [|done]. cbn [mbind option_bind] in HE.
    destruct res as [[p err]|]; [destruct (j_canceled j)|]; injection HE as <-; (eapply adm_views; [|exact Ha]); solve_views.
    etrans; [|exact (views_upd (set_running n (active n - 1) (delete k (running n))) (j_conn j)
                      (λ x, forgetCall x (RequestId (j_env j))) (λ _, eq_refl))].
    exact (views_cancel (upd_conn (set_running n (active n - 1) (delete k (running n))) (j_conn j)
             (λ x, forgetCall x (RequestId (j_env j)))) [id]).
  - unfold barrierReply in HE. destruct (barriers n !! k) as [[[c s] rq]|]; [|done]. cbn [mbind option_bind] in HE.
    destruct (conns n !! c); [|done]. cbn [mbind option_bind] in HE. case_decide; [|done]. injection HE as <-.
    eapply adm_views; [|exact Ha].
    rewrite <-(views_upd n c (λ x, set_barrier (write x (pong (nodeID n) rq admissionBarrierProtocol) w) false)); [done|].
    intros x. apply (admission_write x _ w).
  - unfold barrierGiveUp in HE. destruct (barriers n !! k) as [[[c s] rq]|]; [|done]. injection HE as <-.
    eapply adm_views; [|exact Ha]. by rewrite <-(views_upd n c (λ x, set_barrier x false)).
  - injection HE as <-. eapply adm_views; [|exact Ha]. apply views_close.
Qed.


End InboundProps.
