(* ===== verification/InboundServe.v ===== *)
(** * Bounds, order and answers of the receiving side *)

From S2P Require Import Prelude System Dispatch Wire Inbound InboundProps.

Module InboundServe.
Import Wire Inbound InboundProps.

Definition submitted (i : nat) (lg : list event) : list nat :=
  omap (λ e, match e with EvSubmit i' j => if decide (i' = i) then Some j else None | _ => None end) (reverse lg).
Definition taken (i : nat) (lg : list event) : list nat :=
  omap (λ e, match e with EvTake i' j => if decide (i' = i) then Some j else None | _ => None end) (reverse lg).
Definition answered (lg : list event) : list nat :=
  omap (λ e, match e with EvAnswer j => Some j | _ => None end) lg.

(** Where a job is, once it has been read: answered, queued, at a worker, or
    waiting for the actor. *)
Definition places (ss : list (list nat)) (ws : list (option nat)) (rn : list nat) (lg : list event) : list nat :=
  answered lg ++ (concat ss ++ omap id ws) ++ rn.

Record served (q mx sl ac : Z) (ss : list (list nat)) (ws : list (option nat)) (rn : list nat)
    (lg : list event) (js : list job) : Prop := {
  sv_slots : sl = Z.of_nat (length (concat ss)) ∧ sl ≤ q;
  sv_active : ac = Z.of_nat (length rn) ∧ ac ≤ mx;
  sv_fifo i : submitted i lg = taken i lg ++ default [] (ss !! i);
  sv_nodup : NoDup (places ss ws rn lg);
  sv_jobs j : j ∈ places ss ws rn lg → (j < length js)%nat;
  sv_calls j x : js !! j = Some x → kind (j_env x) = KIND_CALL → j_canceled x = false → j ∈ places ss ws rn lg;
}.

Definition silent (e : event) : Prop :=
  match e with EvSubmit _ _ | EvTake _ _ | EvAnswer _ => False | _ => True end.

Lemma submitted_cons i e lg : submitted i (e :: lg) = submitted i lg ++ submitted i [e].
Proof. unfold submitted. by rewrite reverse_cons, omap_app. Qed.
Lemma taken_cons i e lg : taken i (e :: lg) = taken i lg ++ taken i [e].
Proof. unfold taken. by rewrite reverse_cons, omap_app. Qed.




Lemma served_silent q mx sl ac ss ws rn lg js e :
  silent e → served q mx sl ac ss ws rn lg js → served q mx sl ac ss ws rn (e :: lg) js.
Proof.
  intros He [H1 H2 H3 H4 H5 H6]. assert (places ss ws rn (e :: lg) = places ss ws rn lg) as Hp by (by destruct e).
  split; rewrite ?Hp; try done.
  intros i. rewrite submitted_cons, taken_cons, (H3 i).
  assert (submitted i [e] = [] ∧ taken i [e] = []) as [-> ->] by (by destruct e). by rewrite !app_nil_r.
Qed.

(** A job is read and queued. *)
Lemma served_submit q mx sl ac ss ws rn lg js x i qu :
  served q mx sl ac ss ws rn lg js → ss !! i = Some qu → sl < q →
  served q mx (sl + 1) ac (<[i := qu ++ [length js]]> ss) ws rn (EvSubmit i (length js) :: lg) (js ++ [x]).
Proof.
  intros [H1 H2 H3 H4 H5 H6] Hi Hq. pose proof (concat_push ss i qu (length js) Hi) as Hc.
  assert (places (<[i := qu ++ [length js]]> ss) ws rn (EvSubmit i (length js) :: lg) ≡ₚ length js :: places ss ws rn lg) as Hp.
  { unfold places. change (answered (EvSubmit i (length js) :: lg)) with (answered lg). rewrite Hc. simpl. by rewrite <-Permutation_middle. }
  split.
  - rewrite Hc. simpl. lia.
  - done.
  - intros i'. rewrite submitted_cons, taken_cons. unfold submitted at 2, taken at 2. simpl. rewrite app_nil_r.
    destruct (decide (i = i')) as [<-|Hne].
    + rewrite list_lookup_insert_eq by (by eapply lookup_lt_Some). simpl. rewrite (H3 i), Hi. simpl. by rewrite app_assoc.
    + rewrite list_lookup_insert_ne by done. by rewrite app_nil_r.
  - rewrite Hp. constructor; [|done]. intros Hin%H5. lia.
  - intros j. rewrite Hp, length_app. simpl. intros [->|Hin%H5]%elem_of_cons; lia.
  - intros j y. rewrite Hp, lookup_app_Some. intros [Hj|[Hle Hj]] Hk Hn; [right; by eapply H6|].
    apply list_lookup_singleton_Some in Hj as [Hj _]. assert (j = length js) as -> by lia. left.
Qed.

(** A job is read and refused. *)
Lemma served_refuse q mx sl ac ss ws rn lg js x :
  served q mx sl ac ss ws rn lg js → served q mx sl ac ss ws rn (EvAnswer (length js) :: lg) (js ++ [x]).
Proof.
  intros [H1 H2 H3 H4 H5 H6].
  assert (places ss ws rn (EvAnswer (length js) :: lg) = length js :: places ss ws rn lg) as Hp by done.
  split; [done..| | | |].
  - intros i. rewrite submitted_cons, taken_cons. unfold submitted at 2, taken at 2. simpl. by rewrite !app_nil_r.
  - rewrite Hp. constructor; [|done]. intros Hin%H5. lia.
  - intros j. rewrite Hp, length_app. simpl. intros [->|Hin%H5]%elem_of_cons; lia.
  - intros j y. rewrite Hp, lookup_app_Some. intros [Hj|[Hle Hj]] Hk Hn; [right; by eapply H6|].
    apply list_lookup_singleton_Some in Hj as [Hj _]. assert (j = length js) as -> by lia. left.
Qed.

Lemma served_drop q mx sl ac ss ws rn lg js x :
  kind (j_env x) ≠ KIND_CALL → served q mx sl ac ss ws rn lg js → served q mx sl ac ss ws rn lg (js ++ [x]).
Proof.
  intros Hk [H1 H2 H3 H4 H5 H6]. split; [done..| |].
  - intros j Hin%H5. rewrite length_app. lia.
  - intros j y. rewrite lookup_app_Some. intros [Hj|[Hle Hj]] Hky Hn; [by eapply H6|].
    apply list_lookup_singleton_Some in Hj as [_ <-]. done.
Qed.

(** A worker takes a job. *)
Lemma served_take q mx sl ac ss ws rn lg js i j qu :
  served q mx sl ac ss ws rn lg js → ws !! i = Some None → ss !! i = Some (j :: qu) →
  served q mx (sl - 1) ac (<[i := qu]> ss) (<[i := Some j]> ws) rn (EvTake i j :: lg) js.
Proof.
  intros [H1 H2 H3 H4 H5 H6] Hw Hs. pose proof (concat_pop ss i j qu Hs) as Hc.
  pose proof (omap_insert ws i None (Some j) Hw) as Ho. simpl in Ho. rewrite app_nil_r in Ho.
  assert (places (<[i := qu]> ss) (<[i := Some j]> ws) rn (EvTake i j :: lg) ≡ₚ places ss ws rn lg) as Hp.
  { unfold places. change (answered (EvTake i j :: lg)) with (answered lg).
    by rewrite Ho, <-Permutation_middle, app_comm_cons, Hc. }
  split.
  - rewrite <-Hc in H1. simpl in H1. lia.
  - done.
  - intros i'. rewrite submitted_cons, taken_cons. unfold submitted at 2, taken at 2. simpl. rewrite app_nil_r.
    destruct (decide (i = i')) as [<-|Hne].
    + rewrite list_lookup_insert_eq by (by eapply lookup_lt_Some). simpl. rewrite (H3 i), Hs, <-app_assoc. done.
    + rewrite list_lookup_insert_ne by done. by rewrite app_nil_r.
  - by rewrite Hp.
  - intros j' Hj'. apply H5. by rewrite <-Hp.
  - intros j' x Hx Hk Hn. rewrite Hp. by eapply H6.
Qed.

(** Jobs change place, or one that is canceled or not a call is dropped. *)
Lemma served_move q mx sl ac ss ws rn lg js ac' ws' rn' lg' :
  served q mx sl ac ss ws rn lg js → ac' = Z.of_nat (length rn') → ac' ≤ mx →
  (∀ i, submitted i lg' = submitted i lg ∧ taken i lg' = taken i lg) →
  (places ss ws rn lg ≡ₚ places ss ws' rn' lg' ∨
   ∃ id, places ss ws rn lg ≡ₚ id :: places ss ws' rn' lg' ∧
         ∀ x, js !! id = Some x → kind (j_env x) = KIND_CALL → j_canceled x = true) →
  served q mx sl ac' ss ws' rn' lg' js.
Proof.
  intros [H1 H2 H3 H4 H5 H6] Hac Hmx Hl Hp. split; [done|done|intros i; destruct (Hl i) as [-> ->]; apply H3|..].
  - destruct Hp as [Hp|(id & Hp & _)]; rewrite Hp in H4; [done|by apply NoDup_cons in H4 as [_ ?]].
  - intros j Hj. apply H5. destruct Hp as [Hp|(id & Hp & _)]; rewrite Hp; [done|by right].
  - intros j x Hx Hk Hn. specialize (H6 j x Hx Hk Hn). destruct Hp as [Hp|(id & Hp & Hd)]; rewrite Hp in H6; [done|].
    apply elem_of_cons in H6 as [->|]; [|done]. specialize (Hd x Hx Hk). congruence.
Qed.

Lemma served_cancel q mx sl ac ss ws rn lg js ids :
  served q mx sl ac ss ws rn lg js → served q mx sl ac ss ws rn lg (cancelJobs js ids).
Proof.
  intros Hs. induction ids as [|i ids IH]; [done|]. destruct IH as [H1 H2 H3 H4 H5 H6]. cbn [cancelJobs foldr].
  split; [done..| |].
  - intros j Hj. rewrite length_alter. by apply H5.
  - intros j x Hx Hk Hn. destruct (decide (i = j)) as [->|Hne].
    + rewrite list_lookup_alter_eq in Hx. apply fmap_Some in Hx as (y & Hy & ->). done.
    + rewrite list_lookup_alter_ne in Hx by done. by eapply H6.
Qed.

Lemma workers_clear (ws : list (option nat)) i j :
  ws !! i = Some (Some j) → omap id ws ≡ₚ j :: omap id (<[i := None]> ws).
Proof.
  intros Hw. pose proof (omap_insert ws i (Some j) None Hw) as Ho. simpl in Ho.
  rewrite <-Ho. by rewrite (Permutation_app_comm _ [j]).
Qed.

(** ** Steps *)

Definition serves (n : node) : Prop :=
  served (inboundQueue n) (maxInboundCalls n) (slots n) (active n) (shards n) (workers n) (running n) (log n) (jobs n).

Lemma serves_emit n e : silent e → serves n → serves (emit n e).
Proof. apply served_silent. Qed.
Lemma serves_upd n c f : serves n → serves (upd_conn n c f).
Proof. done. Qed.

(** The refusal of a frame that was read. *)
Lemma refuse_serves n n1 c e w x :
  serves n → j_env x = e → kind e = KIND_CALL ∨ kind e = KIND_SEND →
  inboundQueue n1 = inboundQueue n → maxInboundCalls n1 = maxInboundCalls n → slots n1 = slots n →
  active n1 = active n → shards n1 = shards n → workers n1 = workers n → running n1 = running n →
  log n1 = log n → jobs n1 = jobs n ++ [x] →
  serves (let n4 := emit n1 EvRejected in
          if decide (kind e = KIND_CALL) then emit (upd_conn n4 c (λ y, write (forgetCall y (RequestId e))
            (response (nodeID n) (RequestId e) [] (Some errBackpressure)) w)) (EvAnswer (length (jobs n)))
          else emit (emit n4 EvDropped) (EvAsync (from_option wt_Service "" (Target e)) (Protocol e) errBackpressure)).
Proof.
  intros Hs Hx Hk E1 E2 E3 E4 E5 E6 E7 E8 E9. cbv zeta. unfold serves.
  destruct (decide (kind e = KIND_CALL)) as [Hc|Hc]; cbn [inboundQueue maxInboundCalls slots active shards workers running log jobs emit upd_conn set_conns];
    rewrite E1, E2, E3, E4, E5, E6, E7, E8, E9.
  - apply served_refuse, served_silent; done.
  - repeat (apply served_silent; [done|]). apply served_drop; [by rewrite Hx|done].
Qed.

Lemma admit_serves n c e w : kind e = KIND_CALL ∨ kind e = KIND_SEND → serves n → serves (admitFrame n c e w).
Proof.
  intros Hk Hs. unfold admitFrame.
  set (n1 := upd_conn n c beginAdmission). set (seq := from_option admissionNext 0 (conns n1 !! c)).
  set (x := Job c seq e false). set (n2 := set_jobs n1 (jobs n ++ [x])).
  set (n3 := if decide (kind e = KIND_CALL) then _ else n2).
  assert (∃ cs, n3 = set_conns n2 cs) as [cs ->] by (subst n3; case_decide; eauto; exists (conns n2); by destruct n).
  destruct (submit (set_conns n2 cs) (length (jobs n)) e) as [n4|] eqn:Hsub.
  - unfold submit in Hsub. destruct (Target e) as [t|]; [|done]. case_decide as Hlen; [done|].
    cbn [shards set_conns n2 set_jobs n1 upd_conn] in Hsub.
    set (i := Z.to_nat _) in Hsub. assert (i < length (shards n))%nat as Hi.
    { subst i. cbn in Hlen |- *. pose proof (Z.mod_pos_bound (wt_Address t) (Z.of_nat (length (shards n)))). lia. }
    destruct (lookup_lt_is_Some_2 _ _ Hi) as [q Hq]. cbn in Hsub. rewrite Hq in Hsub. cbn [default from_option] in Hsub.
    case_decide as Hsl; [done|]. case_decide; [done|]. injection Hsub as <-.
    apply (served_submit _ _ _ _ _ _ _ _ _ x i q); [done..|]. cbn in Hsl |- *. lia.
  - eapply (refuse_serves n (upd_conn (set_conns n2 cs) c _) c e w x); try done.
Qed.

Lemma close_serves n c : serves n → serves (closeConn n c).
Proof.
  intros Hs. unfold closeConn. destruct (conns n !! c) as [conn|]; [|done]. destruct (closed conn); [done|].
  by apply served_cancel.
Qed.

Lemma closeUnless_serves w n c : serves n → serves (closeUnless w n c).
Proof. destruct w; [done|apply close_serves..]. Qed.

Lemma onFrame_serves n c e r w n' : serves n → onFrame n c e r w = Some n' → serves n'.
Proof.
  intros Hs. unfold onFrame. destruct (conns n !! c) as [conn|]; [|done]. cbn [mbind option_bind].
  destruct (closed conn); [done|]. case_decide.
  { intros [= <-]. by apply close_serves, serves_emit. }
  intros [= <-]. destruct (kind e) eqn:Hk; try (by apply serves_emit); try done; try (apply admit_serves; auto).
  - by apply closeUnless_serves.
  - case_decide; [|done]. unfold barrier. by destruct (barrierPending conn).
  - destruct (calls conn !! RequestId e) as [j|]; [|by apply serves_emit].
    by apply (served_cancel _ _ _ _ _ _ _ _ _ [j]), (serves_emit n EvCancel).
Qed.

Lemma take_serves n i n' : serves n → take n i = Some n' → serves n'.
Proof.
  unfold take. intros Hs. destruct (workers n !! i) as [[|]|] eqn:Hw; [by destruct (shards n !! i)| |done].
  cbn [mbind option_bind]. destruct (shards n !! i) as [[|j q]|] eqn:Hq; [done| |done]. intros [= <-].
  by apply served_take.
Qed.

(** The three ways a worker leaves a job. *)
Lemma leave_serves n i id : serves n → workers n !! i = Some (Some id) →
  served (inboundQueue n) (maxInboundCalls n) (slots n) (active n) (shards n) (<[i := None]> (workers n)) (running n)
         (EvAnswer id :: log n) (jobs n) ∧
  (active n < maxInboundCalls n →
   served (inboundQueue n) (maxInboundCalls n) (slots n) (active n + 1) (shards n) (<[i := None]> (workers n))
          (id :: running n) (log n) (jobs n)) ∧
  ((∀ x, jobs n !! id = Some x → kind (j_env x) = KIND_CALL → j_canceled x = true) →
   served (inboundQueue n) (maxInboundCalls n) (slots n) (active n) (shards n) (<[i := None]> (workers n)) (running n)
          (log n) (jobs n)).
Proof.
  intros Hs Hw. pose proof (workers_clear _ _ _ Hw) as Ho. destruct (sv_active _ _ _ _ _ _ _ _ _ Hs) as [Ha Hm].
  assert (∀ k e, match e with EvAnswer _ => True | _ => False end →
            submitted k (e :: log n) = submitted k (log n) ∧ taken k (e :: log n) = taken k (log n)) as Hl.
  { intros k e He. rewrite submitted_cons, taken_cons. destruct e; try done. by rewrite !app_nil_r. }
  split_and!.
  - eapply served_move; [exact Hs|done|done|intros k; by apply Hl|]. left. unfold places. rewrite Ho.
    change (answered (EvAnswer id :: log n)) with (id :: answered (log n)). solve_Permutation.
  - intros Hlt. eapply served_move; [exact Hs|simpl; lia|lia|done|]. left. unfold places. rewrite Ho. solve_Permutation.
  - intros Hd. eapply served_move; [exact Hs|done|done|done|]. right. exists id. split; [|done]. unfold places. rewrite Ho. solve_Permutation.
Qed.

Lemma dispatch_serves n i sys w n' :
  (∀ x, x ∈ jobs n → kind (j_env x) = KIND_CALL ∨ kind (j_env x) = KIND_SEND) →
  serves n → dispatch n i sys w = Some n' → serves n'.
Proof.
  unfold dispatch. intros Hkinds Hs. destruct (workers n !! i) as [[id|]|] eqn:Hw; [|done..]. cbn [mbind option_bind].
  destruct (jobs n !! id) as [j|] eqn:Hj; [|done]. cbn [mbind option_bind]. intros [= <-].
  destruct (leave_serves n i id Hs Hw) as (HA & HR & HD). unfold serves, dispatchBody.
  assert (kind (j_env j) = KIND_CALL ∨ kind (j_env j) = KIND_SEND) as Hk by (eapply Hkinds, list_elem_of_lookup_2, Hj).
  destruct (j_canceled j) eqn:Hcan; [apply HD; intros x Hx; congruence|].
  destruct (negb _).
  { case_decide as Hsend; [|exact HA]. do 2 (apply served_silent; [done|]). apply HD. intros x Hx. congruence. }
  case_decide as Hsend.
  { destruct sys; [do 2 (apply served_silent; [done|])|]; apply HD; intros x Hx; congruence. }
  case_decide as Hmax.
  - apply (leave_serves (emit n EvRejected) i id); [by apply serves_emit|done].
  - destruct sys; [exact HA|]. apply HR. lia.
Qed.

(** The two ways the goroutine of a call ends. *)
Lemma served_leave q mx sl ac ss ws rn lg js k id :
  served q mx sl ac ss ws rn lg js → rn !! k = Some id →
  served q mx sl (ac - 1) ss ws (delete k rn) (EvAnswer id :: lg) js ∧
  ((∀ x, js !! id = Some x → kind (j_env x) = KIND_CALL → j_canceled x = true) →
   served q mx sl (ac - 1) ss ws (delete k rn) lg js).
Proof.
  intros Hs Hk. destruct (sv_active _ _ _ _ _ _ _ _ _ Hs) as [Ha Hm]. pose proof (delete_Permutation _ _ _ Hk) as Hp.
  assert (length rn = S (length (delete k rn))) as Hlen by (by rewrite Hp at 1).
  set (rn' := delete k rn) in *. split.
  - eapply served_move; [exact Hs|lia|lia|intros i; by rewrite submitted_cons, taken_cons, !app_nil_r|].
    left. unfold places. rewrite Hp. change (answered (EvAnswer id :: lg)) with (id :: answered lg). solve_Permutation.
  - intros Hd. eapply served_move; [exact Hs|lia|lia|done|]. right. exists id. split; [|done].
    unfold places. rewrite Hp. solve_Permutation.
Qed.

Lemma finishCall_serves n k res w n' : serves n → finishCall n k res w = Some n' → serves n'.
Proof.
  unfold finishCall. intros Hs. destruct (running n !! k) as [id|] eqn:Hk; [|done]. cbn [mbind option_bind].
  destruct (jobs n !! id) as [j|] eqn:Hj; [|done]. cbn [mbind option_bind].
  destruct (served_leave _ _ _ _ _ _ _ _ _ _ _ Hs Hk) as [HA HD].
  destruct res as [[p err]|]; [destruct (j_canceled j) eqn:Hcan|]; intros [= <-]; [|by apply closeUnless_serves|].
  - apply HD. intros x Hx. congruence.
  - apply (served_leave _ _ _ _ _ _ _ _ _ k id (served_cancel _ _ _ _ _ _ _ _ _ [id] Hs) Hk). simpl.
    intros x. rewrite list_lookup_alter_eq, Hj. by intros [= <-].
Qed.

Definition framed (n : node) : Prop := ∀ x, x ∈ jobs n → kind (j_env x) = KIND_CALL ∨ kind (j_env x) = KIND_SEND.

Lemma framed_cancel n js ids : (∀ x, x ∈ js → kind (j_env x) = KIND_CALL ∨ kind (j_env x) = KIND_SEND) →
  framed (set_jobs n (cancelJobs js ids)).
Proof.
  intros Hf. unfold framed. cbn [jobs set_jobs]. induction ids as [|i ids IH]; [done|]. cbn [cancelJobs foldr].
  intros x [k Hk]%list_elem_of_lookup. destruct (decide (k = i)) as [->|Hne].
  - rewrite list_lookup_alter_eq in Hk. apply fmap_Some in Hk as (y & Hy & ->). simpl.
    eapply IH, list_elem_of_lookup_2, Hy.
  - rewrite list_lookup_alter_ne in Hk by done. eapply IH, list_elem_of_lookup_2, Hk.
Qed.

Lemma submit_jobs n j e n' : submit n j e = Some n' → jobs n' = jobs n.
Proof.
  unfold submit. destruct (Target e); [|done]. do 3 (case_decide; [done|]). by intros [= <-].
Qed.

Lemma admit_jobs n c e w : ∃ s, jobs (admitFrame n c e w) = jobs n ++ [Job c s e false].
Proof.
  unfold admitFrame. eexists. destruct (submit _ _ _) as [n4|] eqn:Hs.
  - apply submit_jobs in Hs as ->. by case_decide.
  - by case_decide.
Qed.

Lemma framed_close n c : framed n → framed (closeConn n c).
Proof. intros Hf. unfold closeConn. destruct (conns n !! c) as [conn|]; [|done]. destruct (closed conn); [done|]. by apply framed_cancel. Qed.

Lemma framed_closeUnless w n c : framed n → framed (closeUnless w n c).
Proof. destruct w; [done|apply framed_close..]. Qed.

Lemma step_framed n a n' : framed n → step n a = Some n' → framed n'.
Proof.
  intros Hf HE.
  destruct a as [c remote|c e r w|i|i sys w|k res w|k w|k|c]; simpl in HE.
  - destruct (conns n !! c); [done|]. by injection HE as <-.
  - unfold onFrame in HE. destruct (conns n !! c) as [conn|] eqn:Hc; [|done]. cbn [mbind option_bind] in HE.
    destruct (closed conn); [done|]. case_decide.
    { injection HE as <-. by apply framed_close. }
    injection HE as <-. destruct (kind e) eqn:Hk; try done.
    + by apply framed_closeUnless.
    + destruct (admit_jobs n c e w) as [s Hj]. unfold framed. rewrite Hj. intros x [?| ->%list_elem_of_singleton]%elem_of_app; auto.
    + destruct (admit_jobs n c e w) as [s Hj]. unfold framed. rewrite Hj. intros x [?| ->%list_elem_of_singleton]%elem_of_app; auto.
    + case_decide; [|done]. unfold barrier. by destruct (barrierPending conn).
    + destruct (calls conn !! RequestId e) as [j|]; [|done]. by apply (framed_cancel (emit n EvCancel) (jobs n) [j]).
  - unfold take in HE. destruct (workers n !! i) as [[|]|]; [by destruct (shards n !! i)| |done].
    simpl in HE. destruct (shards n !! i) as [[|]|]; [done| |done]. by injection HE as <-.
  - unfold dispatch in HE. destruct (workers n !! i) as [[id|]|]; [|done..]. simpl in HE.
    destruct (jobs n !! id) as [j|]; [|done]. injection HE as <-.
    assert (jobs (dispatchBody n id j sys w) = jobs n) as Hj by (unfold dispatchBody; repeat case_match; done).
    unfold framed. cbn. by rewrite Hj.
  - unfold finishCall in HE. destruct (running n !! k) as [id|]; [|done]. simpl in HE.
    destruct (jobs n !! id) as [j|]; [|done]. simpl in HE.
    destruct res as [[p err]|]; [destruct (j_canceled j)|]; injection HE as <-; [done|by apply framed_closeUnless|].
    by apply (framed_cancel n (jobs n) [id]).
  - unfold barrierReply in HE. destruct (barriers n !! k) as [[[c s] rq]|]; [|done]. simpl in HE.
    destruct (conns n !! c); [|done]. simpl in HE. case_decide; [|done]. by injection HE as <-.
  - unfold barrierGiveUp in HE. destruct (barriers n !! k) as [[[c s] rq]|]; [|done]. by injection HE as <-.
  - injection HE as <-. by apply framed_close.
Qed.

Lemma step_serves n a n' : framed n → serves n → step n a = Some n' → serves n'.
Proof.
  intros Hf Hs HE. destruct a as [c remote|c e r w|i|i sys w|k res w|k w|k|c]; simpl in HE.
  - destruct (conns n !! c); [done|]. by injection HE as <-.
  - by eapply onFrame_serves.
  - by eapply take_serves.
  - by eapply dispatch_serves.
  - by eapply finishCall_serves.
  - unfold barrierReply in HE. destruct (barriers n !! k) as [[[c s] rq]|]; [|done]. simpl in HE.
    destruct (conns n !! c); [|done]. simpl in HE. case_decide; [|done]. by injection HE as <-.
  - unfold barrierGiveUp in HE. destruct (barriers n !! k) as [[[c s] rq]|]; [|done]. by injection HE as <-.
  - injection HE as <-. by apply close_serves.
Qed.

(** ** Reachable states *)

Section reachable.
Context (id inc : string) (shardCount : nat) (queue maxCalls : Z).
Context (Hqueue : 0 ≤ queue) (Hcalls : 0 ≤ maxCalls).

Definition start : node := newInboundDispatcher id inc shardCount queue maxCalls.

Lemma concat_replicate_nil {A} k : concat (replicate k (@nil A)) = [].
Proof. by induction k. Qed.
Lemma omap_replicate_none {A} k : omap Datatypes.id (replicate k (@None A)) = [].
Proof. by induction k. Qed.

Lemma start_serves : serves start.
Proof.
  unfold serves, start, newInboundDispatcher. split; cbn [shards running log jobs slots active inboundQueue maxInboundCalls workers].
  - by rewrite concat_replicate_nil.
  - done.
  - intros i. unfold submitted, taken. simpl. destruct (replicate shardCount [] !! i) as [q|] eqn:Hq; [|done].
    by apply lookup_replicate in Hq as [-> _].
  - unfold places. rewrite concat_replicate_nil, omap_replicate_none. constructor.
  - intros j. unfold places. rewrite concat_replicate_nil, omap_replicate_none. set_solver.
  - done.
Qed.

Lemma start_adm : adm_inv start.
Proof.
  unfold adm_inv, outstanding, start, newInboundDispatcher. cbn. rewrite concat_replicate_nil, omap_replicate_none.
  unfold admissions. cbn. rewrite fmap_empty. apply accounted_empty.
Qed.

Lemma serves_steps l : ∀ n n', framed n → serves n → adm_inv n → steps n l = Some n' → serves n' ∧ adm_inv n'.
Proof.
  intros n n' Hf Hs Ha. intros HE. apply (runs_inv step (λ n, framed n ∧ serves n ∧ adm_inv n) l n n'); [|done..].
  intros n1 a n2 (? & ? & ?) E. split_and!; [by eapply step_framed|by eapply step_serves|by eapply step_adm].
Qed.

Lemma serves_reachable l n : steps start l = Some n → serves n ∧ adm_inv n.
Proof. apply serves_steps; [|apply start_serves|apply start_adm]. intros x. cbn. set_solver. Qed.

(** C23 (invariant): admission is bounded and ordered.  However frames arrive and
    workers run, at most the configured number of frames is queued over all shards
    and at most the configured number of calls is active, and every worker takes the
    frames of its shard exactly in the order they were queued, none lost or
    repeated. *)
Theorem inbound_bounded_ordered l n :
  steps start l = Some n →
  Z.of_nat (length (concat (shards n))) ≤ inboundQueue n ∧ Z.of_nat (length (running n)) ≤ maxInboundCalls n ∧
  ∀ i, submitted i (log n) = taken i (log n) ++ default [] (shards n !! i).
Proof.
  intros [Hs _]%serves_reachable. destruct (sv_slots _ _ _ _ _ _ _ _ _ Hs), (sv_active _ _ _ _ _ _ _ _ _ Hs).
  split_and!; [lia..|]. apply (sv_fifo _ _ _ _ _ _ _ _ _ Hs).
Qed.

(** C24 (safety): a call is answered once.  No call gets two answers, none is
    answered while it is still queued, dispatched or running, and a call that was
    not cancelled has been answered or is on its way. *)
Theorem inbound_answers_once l n :
  steps start l = Some n →
  NoDup (answered (log n)) ∧
  (∀ j, j ∈ answered (log n) → j ∉ outstanding n ∧ j ∉ running n) ∧
  (∀ j x, jobs n !! j = Some x → kind (j_env x) = KIND_CALL → j_canceled x = false →
     j ∈ answered (log n) ∨ j ∈ outstanding n ∨ j ∈ running n).
Proof.
  intros [Hs _]%serves_reachable. pose proof (sv_nodup _ _ _ _ _ _ _ _ _ Hs) as Hn. unfold places in Hn.
  apply NoDup_app in Hn as (Hn & Hd & _). split_and!; [done| |].
  - intros j Hj. specialize (Hd j Hj). unfold outstanding. set_solver.
  - intros j x Hj Hk Hc. pose proof (sv_calls _ _ _ _ _ _ _ _ _ Hs j x Hj Hk Hc) as Hin.
    unfold places in Hin. apply elem_of_app in Hin as [?|[?|?]%elem_of_app]; auto.
Qed.

(** C25 (liveness): the admission barrier is exact.  A barrier read on a connection
    gets a number that covers every call and notification read on it before; its
    goroutine can answer if and only if none of those is still queued or being
    dispatched. *)
Theorem barrier_admission l n k c s request conn w :
  steps start l = Some n → conns n !! c = Some conn →
  (∀ j s', owners n !! j = Some (c, s') → s' ≤ admissionNext conn) ∧
  (barriers n !! k = Some (c, s, request) → s ≤ admissionNext conn →
   is_Some (barrierReply n k w) ↔ ∀ j s', j ∈ outstanding n → owners n !! j = Some (c, s') → s < s').
Proof.
  intros [_ Ha]%serves_reachable Hc. pose proof (admissions_lookup n c conn Hc) as HA.
  destruct (ac_range _ _ _ Ha _ _ _ _ HA) as (Hr & Hd & Hf). split.
  - intros j s' Hj. destruct (ac_owner _ _ _ Ha j c s' Hj) as (nx & dn & fin & Hl & Hs).
    rewrite HA in Hl. by injection Hl as <- <- <-.
  - intros Hk Hle. unfold barrierReply. rewrite Hk. cbn [mbind option_bind]. rewrite Hc. cbn [mbind option_bind].
    case_decide as Hdone; (split; [|try (intros; by eexists)]).
    + intros _ j s' Hj Ho. destruct (ac_out _ _ _ Ha j Hj) as (c' & x & nx & dn & fin & Ho' & Hl & Hx & _).
      rewrite Ho in Ho'. injection Ho' as <- <-. rewrite HA in Hl. injection Hl as <- <- <-. lia.
    + by intros [? ?].
    + intros Hall. exfalso. destruct (ac_cover _ _ _ Ha c _ _ _ (admissionDone conn + 1) HA) as [Hin|(j & Hj & Ho)]; [lia|done|].
      specialize (Hall j _ Hj Ho). lia.
Qed.

End reachable.

(** ** Instances *)

Definition exampleTarget : wireTarget := WireTarget "n" "i" "s" 1 1.
Definition exampleFrame (k : Kind) (protocol : string) : Envelope :=
  Env protocolVersion k 9 "peer" "" 0 [] [] (Some exampleTarget) "" protocol "" 0 [] [] None "".
Definition exampleLabels : list label :=
  [LAccept 0 "peer"; LFrame 0 (exampleFrame KIND_CALL "p") (Err errStaleRef) Whole;
   LFrame 0 (exampleFrame KIND_PING admissionBarrierProtocol) (Err errStaleRef) Whole;
   LTake 1; LDispatch 1 None Whole; LFinish 0 (Some ([], None)) Whole].
Definition exampleNode : node := default (start "n" "i" 2 4 4) (steps (start "n" "i" 2 4 4) exampleLabels).

Lemma inbound_bounded_ordered_witness : submitted 1 (log exampleNode) = taken 1 (log exampleNode) ++ default [] (shards exampleNode !! 1%nat).
Proof.
  refine (proj2 (proj2 (inbound_bounded_ordered "n" "i" 2 4 4 _ _ exampleLabels exampleNode _)) 1%nat); [lia..|].
  vm_compute. reflexivity.
Defined.

Lemma inbound_answers_once_witness : NoDup (answered (log exampleNode)) ∧ answered (log exampleNode) = [0%nat].
Proof.
  split; [|vm_compute; reflexivity].
  refine (proj1 (inbound_answers_once "n" "i" 2 4 4 _ _ exampleLabels exampleNode _)); [lia..|vm_compute; reflexivity].
Defined.

Lemma barrier_admission_witness :
  is_Some (barrierReply exampleNode 0 Whole) ↔ ∀ j s', j ∈ outstanding exampleNode → owners exampleNode !! j = Some (0%nat, s') → 1 < s'.
Proof.
  refine (proj2 (barrier_admission "n" "i" 2 4 4 _ _ exampleLabels exampleNode 0 0 1
    (exampleFrame KIND_PING admissionBarrierProtocol) (default (Conn "" 0 0 ∅ false ∅ false []) (conns exampleNode !! 0%nat)) Whole _ _) _ _);
    [lia..|vm_compute; reflexivity|vm_compute; reflexivity|vm_compute; reflexivity|vm_compute; congruence].
Defined.

(** The answer to a call that is refused is written without looking at the error: when
    only a part of it gets out, the connection stays open and the next frame is written
    behind that part, where the peer takes it for the rest of the first. *)
Definition brokenLabels : list label :=
  [LAccept 0 "peer"; LFrame 0 (exampleFrame KIND_CALL "p") (Err errStaleRef) Whole; LTake 1; LDispatch 1 (Some errStaleRef) Part;
   LFrame 0 (exampleFrame KIND_PING "") (Err errStaleRef) Whole].

Example partial_answer_keeps_connection :
  let n := default (start "n" "i" 2 4 4) (steps (start "n" "i" 2 4 4) brokenLabels) in
  (λ c, (closed c, snd <$> out c)) <$> conns n !! 0%nat = Some (false, [true; false]).
Proof. vm_compute. reflexivity. Qed.

End InboundServe.
