(* ===== verification/InboundLink.v ===== *)
(** * One connection of the receiving side, as a function of the frames it got

    The work a connection admits is exactly the work frames it got, in their order, and
    every frame written on it answers one of the frames it got. *)

From S2P Require Import Prelude System Dispatch Wire Inbound InboundProps InboundServe.

Module InboundLink.
Import Wire Inbound InboundProps.
#[local] Open Scope string_scope.
#[local] Open Scope list_scope.
#[local] Open Scope Z_scope.

Definition work (e : Envelope) : Prop := kind e = KIND_CALL ∨ kind e = KIND_SEND.
#[global] Instance work_dec e : Decision (work e).
Proof. unfold work. apply _. Defined.

Notation card := (nat * Z * Envelope)%type.
Definition cardOf (j : job) : card := (j_conn j, j_seq j, j_env j).
Definition cards (n : node) : list card := cardOf <$> jobs n.

Lemma cards_cancel js ids : cardOf <$> cancelJobs js ids = cardOf <$> js.
Proof.
  induction ids as [|i ids IH]; [done|]. cbn [cancelJobs foldr]. rewrite <-IH. apply list_eq. intros k.
  rewrite !list_lookup_fmap. destruct (decide (k = i)) as [->|Hne].
  - rewrite list_lookup_alter_eq. unfold cancelJobs. by destruct (foldr _ _ _ !! i).
  - by rewrite list_lookup_alter_ne.
Qed.

Section link.
Context (link : nat) (id inc remote : string).

Definition resolveAnswer (f : Envelope) (r : result goError (Z * Z)) : Envelope :=
  resolveResponse (newInboundDispatcher id inc 0 0 0) f r.

(** The errors with which the node itself refuses a call. *)
Definition refusal (err : option goError) : Prop := err = Some errBackpressure ∨ err = Some errStaleRef.

(** The reason of a frame [e] the connection wrote: an answer of the actor or a refusal
    to a call, the resolution of a service, or the pong of a ping; the pong of a barrier
    needs the work that came before to be admitted. *)
Inductive explained (js : list card) (dn : Z) (D : list Envelope) (res : list (nat * (list Z * option goError)))
    (rsv : list (string * result goError (Z * Z))) : Envelope → Prop :=
  | ex_response j s f payload err :
      js !! j = Some (link, s, f) → kind f = KIND_CALL →
      (j, (payload, err)) ∈ res ∨ (payload = [] ∧ refusal err) →
      explained js dn D res rsv (response id (RequestId f) payload err)
  | ex_resolve f r : f ∈ D → kind f = KIND_RESOLVE_REQUEST → (Service f, r) ∈ rsv → explained js dn D res rsv (resolveAnswer f r)
  | ex_pong f protocol : f ∈ D → kind f = KIND_PING → protocol ≠ admissionBarrierProtocol → explained js dn D res rsv (pong id f protocol)
  | ex_barrier m f :
      D !! m = Some f → kind f = KIND_PING → Protocol f = admissionBarrierProtocol →
      Z.of_nat (length (filter work (firstn m D))) ≤ dn → explained js dn D res rsv (pong id f admissionBarrierProtocol).

Record inv (conn : inboundConn) (js : list card) (bs : list (nat * Z * Envelope)) (rn : list nat)
    (D : list Envelope) (res : list (nat * (list Z * option goError))) (rsv : list (string * result goError (Z * Z))) : Prop := {
  iv_remote : remoteNode conn = remote;
  iv_next : admissionNext conn = Z.of_nat (length (filter work D));
  iv_jobs : filter (λ x, x.1.1 = link) js = imap (λ i e, (link, Z.of_nat (S i), e)) (filter work D);
  iv_out x : x ∈ out conn → explained js (admissionDone conn) D res rsv x.1;
  iv_barriers s f : (link, s, f) ∈ bs →
    ∃ m, D !! m = Some f ∧ kind f = KIND_PING ∧ Protocol f = admissionBarrierProtocol ∧ s = Z.of_nat (length (filter work (firstn m D)));
  iv_running j : j ∈ rn → ∃ c s f, js !! j = Some (c, s, f) ∧ kind f = KIND_CALL;
}.

Lemma explained_mono js js' dn dn' D E res res' rsv rsv' e :
  explained js dn D res rsv e → js `prefix_of` js' → dn ≤ dn' → (∀ x, x ∈ res → x ∈ res') → (∀ x, x ∈ rsv → x ∈ rsv') →
  explained js' dn' (D ++ E) res' rsv' e.
Proof.
  intros H Hj Hd Hr Hv. destruct H as [j s f payload err Hf Hk Ha|f r Hf Hk Ha|f protocol Hf Hk Hp|m f Hf Hk Hp Hm].
  - eapply ex_response; [by eapply prefix_lookup_Some|done|]. destruct Ha; [left; auto|by right].
  - apply ex_resolve; [set_solver|done|auto].
  - apply ex_pong; [set_solver|done..].
  - apply (ex_barrier _ _ _ _ _ m); [by apply lookup_app_l_Some|done..|].
    rewrite take_app_le by (apply lookup_lt_Some in Hf; lia). lia.
Qed.

(** A step on which no frame is got. *)
Lemma link_inv_step conn js bs rn D res rsv conn' js' bs' rn' res' rsv' :
  inv conn js bs rn D res rsv →
  remoteNode conn' = remoteNode conn → admissionNext conn' = admissionNext conn → admissionDone conn ≤ admissionDone conn' →
  (∀ x, x ∈ out conn' → x ∈ out conn ∨ explained js' (admissionDone conn') D res' rsv' x.1) →
  js' = js ∨ (∃ x, js' = js ++ [x] ∧ x.1.1 ≠ link) →
  (∀ b, b ∈ bs' → b ∈ bs ∨ b.1.1 ≠ link) →
  (∀ j, j ∈ rn' → j ∈ rn ∨ ∃ c s f, js' !! j = Some (c, s, f) ∧ kind f = KIND_CALL) →
  (∀ x, x ∈ res → x ∈ res') → (∀ x, x ∈ rsv → x ∈ rsv') →
  inv conn' js' bs' rn' D res' rsv'.
Proof.
  intros [I1 I2 I3 I4 I5 I6] E1 E2 E3 Ho Hj Hb Hr Hres Hrsv.
  assert (js `prefix_of` js') as Hpre by (destruct Hj as [->|(x & -> & _)]; [done|by apply prefix_app_r]).
  split.
  - by rewrite E1.
  - by rewrite E2.
  - destruct Hj as [->|(x & -> & Hx)]; [done|]. by rewrite filter_app, filter_cons_False, filter_nil, app_nil_r.
  - intros x [Hx|Hx]%Ho; [|done]. rewrite <-(app_nil_r D). by eapply explained_mono; [by apply I4|..].
  - intros s f [Hx|Hx]%Hb; [by apply I5|done].
  - intros j [(c & s & f & Hl & Hk)%I6|Hx]%Hr; [|done]. exists c, s, f. split; [|done]. by eapply prefix_lookup_Some.
Qed.

(** A frame is got. *)
Lemma inv_got conn js bs rn D res rsv e conn' js' bs' rn' rsv' :
  inv conn js bs rn D res rsv →
  remoteNode conn' = remoteNode conn → admissionDone conn ≤ admissionDone conn' →
  admissionNext conn' = admissionNext conn + (if decide (work e) then 1 else 0) →
  (∀ x, x ∈ out conn' → x ∈ out conn ∨ explained js' (admissionDone conn') (D ++ [e]) res rsv' x.1) →
  js' = js ++ (if decide (work e) then [(link, admissionNext conn + 1, e)] else []) →
  (∀ b, b ∈ bs' → b ∈ bs ∨ (b = (link, admissionNext conn, e) ∧ kind e = KIND_PING ∧ Protocol e = admissionBarrierProtocol)) →
  rn' = rn → (∀ x, x ∈ rsv → x ∈ rsv') →
  inv conn' js' bs' rn' (D ++ [e]) res rsv'.
Proof.
  intros [I1 I2 I3 I4 I5 I6] E1 E3 E2 Ho -> Hb -> Hrsv. split.
  - by rewrite E1.
  - rewrite E2, filter_app, length_app, I2. rewrite filter_cons, filter_nil. case_decide; cbn; lia.
  - rewrite !filter_app, I3, (filter_cons work). destruct (decide (work e)).
    + rewrite filter_cons_True, !filter_nil by done. rewrite imap_app. cbn. f_equal. f_equal. f_equal. f_equal. rewrite I2. lia.
    + by rewrite !filter_nil, !app_nil_r.
  - intros x [Hx|Hx]%Ho; [|done]. eapply explained_mono; [by apply I4|..]; try done. by apply prefix_app_r.
  - intros s f [Hx|([= -> ->] & Hk & Hp)]%Hb.
    + destruct (I5 s f Hx) as (m & Hm & ? & ? & ->). exists m. split_and!; [by apply lookup_app_l_Some|done..|].
      rewrite take_app_le by (apply lookup_lt_Some in Hm; lia). done.
    + exists (length D). rewrite take_app_length. split_and!; [by apply list_lookup_middle|done..].
  - intros j (c & s & f & Hl & Hk)%I6. exists c, s, f. split; [|done]. by apply lookup_app_l_Some.
Qed.

(** ** Primitive effects on the connection *)

Lemma conns_upd n c f : conns (upd_conn n c f) !! link = if decide (c = link) then f <$> conns n !! link else conns n !! link.
Proof.
  unfold upd_conn. cbn. case_decide as Hc; [rewrite <-Hc; apply lookup_alter_eq|by apply lookup_alter_ne].
Qed.

Lemma finish_facts conn s :
  remoteNode (finishAdmission conn s) = remoteNode conn ∧ admissionNext (finishAdmission conn s) = admissionNext conn ∧
  admissionDone conn ≤ admissionDone (finishAdmission conn s) ∧ out (finishAdmission conn s) = out conn.
Proof.
  unfold finishAdmission. case_decide; [split_and!; [done..|lia|done]|].
  destruct (advance_spec (size ({[s]} ∪ admissionFinished conn)) (admissionDone conn) ({[s]} ∪ admissionFinished conn))
    as (dn & fin & -> & Hle & _); [done|]. done.
Qed.

Lemma write_facts conn e w :
  remoteNode (write conn e w) = remoteNode conn ∧ admissionNext (write conn e w) = admissionNext conn ∧
  admissionDone (write conn e w) = admissionDone conn ∧ ∀ x, x ∈ out (write conn e w) → x ∈ out conn ∨ x.1 = e.
Proof. unfold write. destruct (closed conn), w; split_and!; try done; cbn; auto; intros x [->|?]%elem_of_cons; auto. Qed.

(** What closing a connection keeps. *)
Lemma close_facts n c conn : conns n !! link = Some conn →
  nodeID (closeConn n c) = nodeID n ∧ incarnation (closeConn n c) = incarnation n ∧ cards (closeConn n c) = cards n ∧
  barriers (closeConn n c) = barriers n ∧ running (closeConn n c) = running n ∧
  ∃ b, conns (closeConn n c) !! link = Some (set_out conn b (out conn)).
Proof.
  intros Hc. unfold closeConn. assert (conn = set_out conn (closed conn) (out conn)) as Hid by (by destruct conn).
  destruct (conns n !! c) as [x|] eqn:Hx; [|split_and!; [done..|exists (closed conn); by rewrite Hc, <-Hid]].
  destruct (closed x); [split_and!; [done..|exists (closed conn); by rewrite Hc, <-Hid]|].
  split_and!; [done..|apply cards_cancel|done|done|]. cbn [conns set_jobs]. rewrite conns_upd, Hc.
  case_decide; [by exists true|exists (closed conn); by rewrite <-Hid].
Qed.

Definition linkInv (n : node) (D : list Envelope) (res : list (nat * (list Z * option goError)))
    (rsv : list (string * result goError (Z * Z))) : Prop :=
  nodeID n = id ∧ incarnation n = inc ∧
  ∃ conn, conns n !! link = Some conn ∧ inv conn (cards n) (barriers n) (running n) D res rsv.

Lemma link_close n c D res rsv : linkInv n D res rsv → linkInv (closeConn n c) D res rsv.
Proof.
  intros (H1 & H2 & conn & Hc & Hi). destruct (close_facts n c conn Hc) as (E1 & E2 & E3 & E4 & E5 & b & E6).
  split_and!; [congruence..|]. eexists. split; [exact E6|]. rewrite E3, E4, E5.
  eapply link_inv_step; [exact Hi|..]; try done; auto.
Qed.

Lemma link_closeUnless w n c D res rsv : linkInv n D res rsv → linkInv (closeUnless w n c) D res rsv.
Proof. destruct w; [done|apply link_close..]. Qed.

(** A change of one connection that keeps its admissions. *)
Lemma link_upd n c f D res rsv js :
  linkInv n D res rsv →
  (∀ x, remoteNode (f x) = remoteNode x ∧ admissionNext (f x) = admissionNext x ∧ admissionDone x ≤ admissionDone (f x)) →
  (c = link → ∀ x y, conns n !! link = Some x → y ∈ out (f x) → y ∈ out x ∨ explained js (admissionDone (f x)) D res rsv y.1) →
  js = cards n →
  linkInv (upd_conn n c f) D res rsv.
Proof.
  intros (H1 & H2 & conn & Hc & Hi) Hf Ho ->. split_and!; [done..|]. rewrite conns_upd, Hc.
  case_decide as Hl; [|by eauto]. eexists. split; [done|]. destruct (Hf conn) as (? & ? & ?).
  eapply link_inv_step; [exact Hi|..]; try done; auto.
Qed.

Lemma link_finish n c s D res rsv : linkInv n D res rsv → linkInv (upd_conn n c (λ x, finishAdmission x s)) D res rsv.
Proof.
  intros H. eapply link_upd; [exact H|..]; [| |done].
  - intros x. destruct (finish_facts x s) as (? & ? & ? & _). done.
  - intros _ x y _. destruct (finish_facts x s) as (_ & _ & _ & ->). auto.
Qed.

Lemma link_forget n c r D res rsv : linkInv n D res rsv → linkInv (upd_conn n c (λ x, forgetCall x r)) D res rsv.
Proof. intros H. eapply link_upd; [exact H|..]; [done|cbn; auto|done]. Qed.

(** The answer to a job. *)
Lemma link_answer n c s f j payload err w D res rsv :
  linkInv n D res rsv → cards n !! j = Some (c, s, f) → kind f = KIND_CALL →
  (j, (payload, err)) ∈ res ∨ (payload = [] ∧ refusal err) →
  linkInv (upd_conn n c (λ x, write (forgetCall x (RequestId f)) (response (nodeID n) (RequestId f) payload err) w)) D res rsv.
Proof.
  intros H Hj Hk Ha. pose proof H as (Hid & _). eapply link_upd; [exact H|..]; [| |done].
  - intros x. destruct (write_facts (forgetCall x (RequestId f)) (response (nodeID n) (RequestId f) payload err) w) as (-> & -> & -> & _). done.
  - intros -> x y _. destruct (write_facts (forgetCall x (RequestId f)) (response (nodeID n) (RequestId f) payload err) w) as (_ & _ & -> & Ho).
    intros [?| ->]%Ho; [by left|]. right. rewrite Hid. by eapply ex_response.
Qed.

(** Nodes that agree on what matters. *)
Lemma link_same n n' D res rsv :
  nodeID n' = nodeID n → incarnation n' = incarnation n → conns n' = conns n → cards n' = cards n →
  barriers n' = barriers n → running n' = running n → linkInv n D res rsv → linkInv n' D res rsv.
Proof. unfold linkInv. by intros -> -> -> -> -> ->. Qed.

(** ** Steps without a frame of the connection *)

Lemma link_emit n e D res rsv : linkInv n D res rsv → linkInv (emit n e) D res rsv.
Proof. by apply link_same. Qed.

Lemma cards_lookup n j x : jobs n !! j = Some x → cards n !! j = Some (cardOf x).
Proof. intros Hj. unfold cards. by rewrite list_lookup_fmap, Hj. Qed.

(** What the actor system answers to a job: an error at once, or a result later. *)
Definition finished (n : node) (a : Inbound.label) : list (nat * (list Z * option goError)) :=
  match a with
  | LDispatch i (Some err) _ => match workers n !! i with Some (Some j) => [(j, ([], Some err))] | _ => [] end
  | LFinish k (Some r) _ => match running n !! k with Some j => [(j, r)] | None => [] end
  | _ => []
  end.

Lemma link_more n D res res' rsv rsv' :
  (∀ x, x ∈ res → x ∈ res') → (∀ x, x ∈ rsv → x ∈ rsv') → linkInv n D res rsv → linkInv n D res' rsv'.
Proof.
  intros Hr Hv (H1 & H2 & conn & Hc & Hi). split_and!; [done..|]. exists conn. split; [done|].
  eapply link_inv_step; [exact Hi|..]; try done; auto.
Qed.

Lemma link_body n i j sys w D res rsv :
  jobs n !! i = Some j → InboundServe.framed n → linkInv n D res rsv →
  (∀ err, sys = Some err → (i, ([], Some err)) ∈ res) → linkInv (dispatchBody n i j sys w) D res rsv.
Proof.
  intros Hj Hf H Hsys. pose proof (cards_lookup _ _ _ Hj) as Hc. unfold dispatchBody.
  destruct (j_canceled j); [by apply link_forget|].
  assert (kind (j_env j) ≠ KIND_SEND → kind (j_env j) = KIND_CALL) as Hk
    by (destruct (Hf j ltac:(by eapply list_elem_of_lookup_2)); done).
  assert (kind (j_env j) ≠ KIND_SEND → ∀ n0 err, (n0 = n ∨ n0 = emit n EvRejected) →
    (i, ([], Some err)) ∈ res ∨ refusal (Some err) → linkInv (emit (upd_conn n0 (j_conn j)
    (λ x, write (forgetCall x (RequestId (j_env j))) (response (nodeID n0) (RequestId (j_env j)) [] (Some err)) w)) (EvAnswer i)) D res rsv) as Ha.
  { intros Hs n0 err [->| ->] Herr; apply link_emit; (eapply link_answer; [|exact Hc|by apply Hk|destruct Herr; auto]); [done|by apply link_emit]. }
  destruct (negb _).
  { case_decide; [by do 2 apply link_emit|]. apply Ha; [done|by left|]. right. by right. }
  case_decide as Hs; [destruct sys; [by do 2 apply link_emit|done]|].
  case_decide; [apply Ha; [done|by right|]; right; by left|]. destruct sys; [apply Ha; [done|by left|left; auto]|].
  destruct H as (H1 & H2 & conn & Hcn & Hi). split_and!; [done..|]. exists conn. split; [done|].
  eapply link_inv_step; [exact Hi|..]; try done; auto.
  intros x [->|Hx]%elem_of_cons; [right|by left]. exists (j_conn j), (j_seq j), (j_env j). split; [exact Hc|auto].
Qed.

Lemma link_dispatch n i sys w n' D res rsv :
  InboundServe.framed n → linkInv n D res rsv → dispatch n i sys w = Some n' →
  linkInv n' D (finished n (LDispatch i sys w) ++ res) rsv.
Proof.
  unfold dispatch. intros Hf H HE. cbn [finished]. destruct (workers n !! i) as [[k|]|]; [|done..]. cbn [mbind option_bind] in HE.
  destruct (jobs n !! k) as [j|] eqn:Hj; [|done]. injection HE as <-.
  eapply link_same; [done..|]. apply link_finish, link_body; [done..| |].
  - eapply link_more; [|done|exact H]. set_solver.
  - intros err ->. set_solver.
Qed.

Lemma link_leave n a rn D res rsv : (∀ x, x ∈ rn → x ∈ running n) → linkInv n D res rsv → linkInv (set_running n a rn) D res rsv.
Proof.
  intros Hr (H1 & H2 & conn & Hc & Hi). split_and!; [done..|]. exists conn. split; [done|].
  eapply link_inv_step; [exact Hi|..]; try done; auto.
Qed.

Lemma link_finishCall n k r w n' D res rsv :
  linkInv n D res rsv → finishCall n k r w = Some n' → linkInv n' D (finished n (LFinish k r w) ++ res) rsv.
Proof.
  intros H HE. unfold finishCall in HE. destruct (running n !! k) as [i|] eqn:Hk; [|done]. cbn [mbind option_bind] in HE.
  destruct (jobs n !! i) as [j|] eqn:Hj; [|done]. cbn [mbind option_bind] in HE. cbn [finished]. rewrite Hk.
  pose proof (cards_lookup _ _ _ Hj) as Hc. pose proof H as (_ & _ & conn & _ & Hi).
  destruct (iv_running _ _ _ _ _ _ _ Hi i ltac:(by eapply list_elem_of_lookup_2)) as (c & s & f & Hl & Hkd).
  rewrite Hc in Hl. injection Hl as Hcn Hs Hf. rewrite <-Hf in Hkd.
  assert (linkInv (set_running n (active n - 1) (delete k (running n))) D res rsv) as H1.
  { apply link_leave; [|done]. intros x Hx. rewrite (delete_Permutation _ _ _ Hk). by right. }
  destruct r as [[p err]|].
  - destruct (j_canceled j); injection HE as <-.
    { eapply (link_more _ _ res _ rsv); [set_solver|done|]. by apply link_forget. }
    assert (∀ x, upd_conn (upd_conn x (j_conn j) (λ y, forgetCall y (RequestId (j_env j)))) (j_conn j)
        (λ y, write y (response (nodeID n) (RequestId (j_env j)) p err) w) =
      upd_conn x (j_conn j) (λ y, write (forgetCall y (RequestId (j_env j))) (response (nodeID n) (RequestId (j_env j)) p err) w)) as Hcomp.
    { intros x. unfold upd_conn. cbn. f_equal. apply map_eq. intros i'. destruct (decide (i' = j_conn j)) as [->|Hne].
      - rewrite !lookup_alter_eq. by destruct (conns x !! j_conn j).
      - by rewrite !lookup_alter_ne. }
    apply link_closeUnless, link_emit. rewrite Hcomp.
    eapply (link_answer (set_running n (active n - 1) (delete k (running n)))); [|exact Hc|done|left; set_solver].
    eapply (link_more _ _ res _ rsv); [set_solver|done|exact H1].
  - injection HE as <-. eapply (link_more _ _ res _ rsv); [set_solver|done|].
    refine (link_same (upd_conn (set_running n (active n - 1) (delete k (running n))) (j_conn j)
      (λ x, forgetCall x (RequestId (j_env j)))) _ D res rsv _ _ _ _ _ _ _); try done; [apply (cards_cancel _ [i])|].
    by apply link_forget.
Qed.

Lemma link_barrierReply n k w n' D res rsv : linkInv n D res rsv → barrierReply n k w = Some n' → linkInv n' D res rsv.
Proof.
  intros H HE. unfold barrierReply in HE. destruct (barriers n !! k) as [[[c s] rq]|] eqn:Hb; [|done]. cbn [mbind option_bind] in HE.
  destruct (conns n !! c) as [x|] eqn:Hx; [|done]. cbn [mbind option_bind] in HE. case_decide as Hd; [|done]. injection HE as <-.
  set (f := λ x, set_barrier (write x (pong (nodeID n) rq admissionBarrierProtocol) w) false).
  assert (linkInv (upd_conn n c f) D res rsv) as (H1 & H2 & conn & Hc & Hi).
  { pose proof H as (Hid & _ & conn & Hc & Hi). eapply link_upd; [exact H|..]; [| |done].
    - intros y. destruct (write_facts y (pong (nodeID n) rq admissionBarrierProtocol) w) as (E1 & E2 & E3 & _).
      subst f. cbn. rewrite E1, E2, E3. done.
    - intros -> y z Hy. destruct (write_facts y (pong (nodeID n) rq admissionBarrierProtocol) w) as (_ & _ & E3 & Ho).
      subst f. cbn. intros [?| ->]%Ho; [by left|]. right. rewrite E3, Hid. simplify_eq.
      destruct (iv_barriers _ _ _ _ _ _ _ Hi s rq) as (m & Hm & Hk & Hp & ->); [by eapply list_elem_of_lookup_2|].
      by apply (ex_barrier _ _ _ _ _ m). }
  split_and!; [done..|]. exists conn. split; [done|]. eapply link_inv_step; [exact Hi|..]; try done; auto.
  intros b Hb'. left. cbn in Hb' |- *. rewrite (delete_Permutation _ _ _ Hb). by right.
Qed.

Lemma link_giveUp n k n' D res rsv : linkInv n D res rsv → barrierGiveUp n k = Some n' → linkInv n' D res rsv.
Proof.
  intros H HE. unfold barrierGiveUp in HE. destruct (barriers n !! k) as [[[c s] rq]|] eqn:Hb; [|done]. injection HE as <-.
  assert (linkInv (upd_conn n c (λ x, set_barrier x false)) D res rsv) as (H1 & H2 & conn & Hc & Hi)
    by (eapply link_upd; [exact H|..]; [done|cbn; auto|done]).
  split_and!; [done..|]. exists conn. split; [done|]. eapply link_inv_step; [exact Hi|..]; try done; auto.
  intros b Hb'. left. cbn in Hb' |- *. rewrite (delete_Permutation _ _ _ Hb). by right.
Qed.

(** ** A frame is got *)

Lemma submit_facts n j e n' : submit n j e = Some n' →
  nodeID n' = nodeID n ∧ incarnation n' = incarnation n ∧ conns n' = conns n ∧ jobs n' = jobs n ∧
  barriers n' = barriers n ∧ running n' = running n.
Proof. unfold submit. destruct (Target e); [|done]. do 3 (case_decide; [done|]). by intros [= <-]. Qed.

(** The connection after its part of admitFrame; [refused] if the job is not queued. *)
Definition admitted (conn : inboundConn) (nid : string) (j : nat) (e : Envelope) (w : wrote) (refused : bool) : inboundConn :=
  let x := beginAdmission conn in
  let x := if decide (kind e = KIND_CALL) then set_calls x (<[RequestId e := j]> (calls x)) else x in
  if refused then
    let x := finishAdmission x (admissionNext conn + 1) in
    if decide (kind e = KIND_CALL) then write (forgetCall x (RequestId e)) (response nid (RequestId e) [] (Some errBackpressure)) w else x
  else x.

Lemma admit_facts n c e w conn : conns n !! c = Some conn →
  nodeID (admitFrame n c e w) = nodeID n ∧ incarnation (admitFrame n c e w) = incarnation n ∧
  barriers (admitFrame n c e w) = barriers n ∧ running (admitFrame n c e w) = running n ∧
  jobs (admitFrame n c e w) = jobs n ++ [Job c (admissionNext conn + 1) e false] ∧
  ∃ r, conns (admitFrame n c e w) = <[c := admitted conn (nodeID n) (length (jobs n)) e w r]> (conns n).
Proof.
  intros Hc. unfold admitFrame.
  set (n1 := upd_conn n c beginAdmission).
  assert (conns n1 = <[c := beginAdmission conn]> (conns n)) as Hn1 by (by apply alter_insert_eq).
  rewrite Hn1, lookup_insert_eq. cbn [from_option].
  set (n2 := set_jobs n1 _). set (n3 := if decide (kind e = KIND_CALL) then _ else n2).
  assert (conns n3 = <[c := admitted conn (nodeID n) (length (jobs n)) e w false]> (conns n) ∧ jobs n3 = jobs n2 ∧
    nodeID n3 = nodeID n ∧ incarnation n3 = incarnation n ∧ barriers n3 = barriers n ∧ running n3 = running n) as (Hn3 & Hj3 & E1 & E2 & E3 & E4).
  { subst n3. unfold admitted. case_decide; [|by split_and!]. split_and!; try done. cbn [conns upd_conn set_conns].
    change (conns n2) with (conns n1). rewrite Hn1.
    rewrite (alter_insert_eq _ _ _ _ (lookup_insert_eq _ _ _)). by rewrite insert_insert_eq. }
  destruct (submit n3 (length (jobs n)) e) as [n4|] eqn:Hs.
  - destruct (submit_facts _ _ _ _ Hs) as (-> & -> & -> & -> & -> & ->). split_and!; try done. by exists false.
  - assert (∀ f, alter f c (conns n3) = <[c := f (admitted conn (nodeID n) (length (jobs n)) e w false)]> (conns n)) as Hal.
    { intros f. rewrite (alter_insert_eq _ _ _ (admitted conn (nodeID n) (length (jobs n)) e w false)); rewrite Hn3;
        [by rewrite insert_insert_eq|by rewrite lookup_insert_eq]. }
    destruct (decide (kind e = KIND_CALL)) as [Hk|Hk]; cbn [nodeID incarnation barriers running jobs emit upd_conn set_conns conns];
      (split_and!; try done); exists true; rewrite Hal; unfold admitted.
    + rewrite (alter_insert_eq _ _ _ _ (lookup_insert_eq _ _ _)), insert_insert_eq. by rewrite !decide_True.
    + by rewrite !decide_False.
Qed.

Lemma admitted_facts conn nid j e w r :
  remoteNode (admitted conn nid j e w r) = remoteNode conn ∧ admissionNext (admitted conn nid j e w r) = admissionNext conn + 1 ∧
  admissionDone conn ≤ admissionDone (admitted conn nid j e w r) ∧
  ∀ x, x ∈ out (admitted conn nid j e w r) → x ∈ out conn ∨ (kind e = KIND_CALL ∧ x.1 = response nid (RequestId e) [] (Some errBackpressure)).
Proof.
  unfold admitted. set (x := if decide (kind e = KIND_CALL) then set_calls _ _ else _).
  assert (remoteNode x = remoteNode conn ∧ admissionNext x = admissionNext conn + 1 ∧ admissionDone x = admissionDone conn ∧ out x = out conn)
    as (E1 & E2 & E3 & E4) by (subst x; by case_decide).
  destruct r; [|rewrite E1, E2, E3, E4; split_and!; [done..|auto]].
  destruct (finish_facts x (admissionNext conn + 1)) as (F1 & F2 & F3 & F4).
  case_decide as Hk; [|rewrite F1, F2, F4, E1, E2, E4; split_and!; [done..|lia|auto]].
  destruct (write_facts (forgetCall (finishAdmission x (admissionNext conn + 1)) (RequestId e))
              (response nid (RequestId e) [] (Some errBackpressure)) w) as (-> & -> & -> & Ho).
  cbn. rewrite F1, F2, E1, E2. split_and!; [done..|lia|]. intros y [Hy|Hy]%Ho; [left|by right]. cbn in Hy. by rewrite F4, E4 in Hy.
Qed.

(** A frame of another connection. *)
Lemma link_other n c e r w n' D res rsv :
  c ≠ link → linkInv n D res rsv → onFrame n c e r w = Some n' → linkInv n' D res rsv.
Proof.
  intros Hne H HE. unfold onFrame in HE. destruct (conns n !! c) as [x|] eqn:Hx; [|done]. cbn [mbind option_bind] in HE.
  destruct (closed x); [done|]. case_decide; [injection HE as <-; by apply link_close, link_emit|].
  assert (∀ f, linkInv (upd_conn n c f) D res rsv) as Hupd.
  { intros f. destruct H as (H1 & H2 & conn & Hc & Hi). split_and!; [done..|]. exists conn. by rewrite conns_upd, decide_False. }
  assert (linkInv (admitFrame n c e w) D res rsv) as Hadm.
  { destruct H as (H1 & H2 & conn & Hc & Hi). destruct (admit_facts n c e w x Hx) as (E1 & E2 & E3 & E4 & E5 & rf & E6).
    split_and!; [congruence..|]. exists conn. rewrite E3, E4, E6, lookup_insert_ne by done. split; [done|].
    unfold cards. rewrite E5, fmap_app. eapply link_inv_step; [exact Hi|..]; try done; auto. right. eexists. done. }
  injection HE as <-. destruct (kind e); try (by apply link_emit); try done.
  - apply link_closeUnless, Hupd.
  - case_decide; [|apply Hupd]. unfold barrier. destruct (barrierPending x); [apply Hupd|].
    destruct (Hupd (λ x, set_barrier x true)) as (G1 & G2 & conn & Hc & Hi). split_and!; [done..|]. exists conn. split; [done|].
    eapply link_inv_step; [exact Hi|..]; try done; auto. intros b [?| ->%list_elem_of_singleton]%elem_of_app; auto.
  - destruct (calls x !! RequestId e) as [j|]; [|by apply link_emit].
    apply (link_same n); try done. apply (cards_cancel _ [j]).
Qed.

(** A frame of the connection itself. *)
Definition resolved (e : Envelope) (r : result goError (Z * Z)) : list (string * result goError (Z * Z)) :=
  if decide (kind e = KIND_RESOLVE_REQUEST) then [(Service e, r)] else [].

(** A frame that is no work: what it changes is one write. *)
Lemma link_got n e f D res rsv rsv' :
  linkInv n D res rsv → ¬ work e → (∀ x, x ∈ rsv → x ∈ rsv') →
  (∀ x, remoteNode (f x) = remoteNode x ∧ admissionNext (f x) = admissionNext x ∧ admissionDone (f x) = admissionDone x ∧
        ∀ y, y ∈ out (f x) → y ∈ out x ∨ explained (cards n) (admissionDone x) (D ++ [e]) res rsv' y.1) →
  linkInv (upd_conn n link f) (D ++ [e]) res rsv'.
Proof.
  intros (H1 & H2 & conn & Hc & Hi) Hw Hv Hf. split_and!; [done..|]. exists (f conn). rewrite conns_upd, decide_True, Hc by done.
  split; [done|]. destruct (Hf conn) as (E1 & E2 & E3 & Ho).
  eapply inv_got; [exact Hi|..]; try done; auto.
  - lia.
  - rewrite decide_False by done. lia.
  - by rewrite E3.
  - by rewrite decide_False, app_nil_r.
Qed.

Lemma link_skip n e D res rsv : linkInv n D res rsv → ¬ work e → linkInv n (D ++ [e]) res rsv.
Proof.
  intros H Hw. pose proof H as (H1 & H2 & conn & Hc & Hi).
  destruct (link_got n e (λ x, x) D res rsv rsv H Hw) as (G1 & G2 & conn' & Hc' & Hi'); [done|by auto|].
  rewrite conns_upd, decide_True in Hc' by done. rewrite Hc in Hc'. injection Hc' as <-.
  split_and!; [done..|]. by exists conn.
Qed.

Lemma link_write n e a w D res rsv rsv' :
  linkInv n D res rsv → ¬ work e → (∀ x, x ∈ rsv → x ∈ rsv') →
  (∀ dn, explained (cards n) dn (D ++ [e]) res rsv' a) → linkInv (upd_conn n link (λ x, write x a w)) (D ++ [e]) res rsv'.
Proof.
  intros H Hw Hv Ha. eapply link_got; try done. intros x. destruct (write_facts x a w) as (E1 & E2 & E3 & Ho).
  split_and!; [done..|]. intros y [?| ->]%Ho; auto.
Qed.

Lemma link_admit n e w D res rsv :
  linkInv n D res rsv → work e → linkInv (admitFrame n link e w) (D ++ [e]) res rsv.
Proof.
  intros (H1 & H2 & conn & Hc & Hi) Hw. destruct (admit_facts n link e w conn Hc) as (E1 & E2 & E3 & E4 & E5 & rf & E6).
  split_and!; [congruence..|]. eexists. rewrite E6, lookup_insert_eq. split; [done|]. rewrite E3, E4.
  destruct (admitted_facts conn (nodeID n) (length (jobs n)) e w rf) as (F1 & F2 & F3 & F4).
  unfold cards. rewrite E5, fmap_app. eapply inv_got; [exact Hi|..]; try done; auto.
  - rewrite decide_True by done. lia.
  - intros x [?|[Hk ->]]%F4; [by left|]. right. rewrite H1.
    eapply ex_response; [apply (list_lookup_middle _ []); by rewrite length_fmap|done|]. right. split; [done|by left].
  - by rewrite decide_True.
Qed.

Lemma link_frame n e r w n' D res rsv :
  linkInv n D res rsv → Version e = protocolVersion → SourceNode e = remote → onFrame n link e r w = Some n' →
  linkInv n' (D ++ [e]) res (resolved e r ++ rsv).
Proof.
  intros H Hv Hs HE. unfold onFrame in HE. destruct (conns n !! link) as [x|] eqn:Hx; [|done]. cbn [mbind option_bind] in HE.
  destruct (closed x); [done|]. pose proof H as (H1 & H2 & conn & Hc & Hi). rewrite Hx in Hc. injection Hc as <-.
  rewrite decide_False in HE by (rewrite (iv_remote _ _ _ _ _ _ _ Hi); naive_solver).
  injection HE as <-. unfold resolved. destruct (kind e) eqn:Hk; cbn [app];
    try (apply link_emit, link_skip; [done|unfold work; rewrite Hk; naive_solver]);
    try (by apply link_admit; [|unfold work; auto]).
  - rewrite decide_True by done. apply link_closeUnless. eapply link_write; [exact H|unfold work; rewrite Hk; naive_solver|set_solver|].
    intros dn. replace (resolveResponse n e r) with (resolveAnswer e r) by (unfold resolveAnswer, resolveResponse; cbn; by rewrite H1, H2).
    apply ex_resolve; [set_solver|done|set_solver].
  - case_decide as Hp.
    + unfold barrier. destruct (barrierPending x).
      { eapply link_write; [exact H|unfold work; rewrite Hk; naive_solver|done|]. intros dn. rewrite H1. apply ex_pong; [set_solver|done|done]. }
      destruct (link_got n e (λ x, set_barrier x true) D res rsv rsv H) as (G1 & G2 & conn' & Hc' & Hi');
        [unfold work; rewrite Hk; naive_solver|done|by cbn; auto|].
      split_and!; [done..|]. exists conn'. split; [done|]. split; try apply Hi'. intros s f [Hb| [= -> ->]%list_elem_of_singleton]%elem_of_app;
        [by apply (iv_barriers _ _ _ _ _ _ _ Hi')|].
      exists (length D). rewrite take_app_length. split_and!; [by apply list_lookup_middle|done..|]. apply (iv_next _ _ _ _ _ _ _ Hi).
    + eapply link_write; [exact H|unfold work; rewrite Hk; naive_solver|done|]. intros dn. rewrite H1. apply (ex_pong _ _ _ _ _ e ""); [set_solver|done|done].
  - apply link_skip; [done|unfold work; rewrite Hk; naive_solver].
  - destruct (calls x !! RequestId e) as [j|]; [|apply link_emit, link_skip; [done|unfold work; rewrite Hk; naive_solver]].
    apply (link_same n); try done; [apply (cards_cancel _ [j])|]. apply link_skip; [done|unfold work; rewrite Hk; naive_solver].
Qed.

(** ** Every other step of the node *)

Lemma link_step n a n' D res rsv :
  match a with LAccept c _ | LFrame c _ _ _ => c ≠ link | _ => True end →
  InboundServe.framed n → linkInv n D res rsv → step n a = Some n' → linkInv n' D (finished n a ++ res) rsv.
Proof.
  intros Ha Hf H HE. destruct a as [c rm|c e r w|i|i sys w|k r w|k w|k|c]; cbn [step] in HE;
    try (by apply link_finishCall); try (by apply link_dispatch); cbn [finished app].
  - destruct (conns n !! c) eqn:Hc; [done|]. injection HE as <-. destruct H as (H1 & H2 & conn & Hl & Hi).
    split_and!; [done..|]. exists conn. cbn. by rewrite lookup_insert_ne.
  - by eapply link_other.
  - unfold take in HE. destruct (workers n !! i) as [[|]|]; [by destruct (shards n !! i)| |done].
    cbn in HE. destruct (shards n !! i) as [[|]|]; [done| |done]. injection HE as <-. by apply (link_same n).
  - by eapply link_barrierReply.
  - by eapply link_giveUp.
  - injection HE as <-. by apply link_close.
Qed.

(** ** What is written stays written *)

Definition grows (n n' : node) : Prop :=
  ∀ conn, conns n !! link = Some conn → ∃ conn', conns n' !! link = Some conn' ∧ out conn `suffix_of` out conn'.

Lemma grows_same n n' : conns n' = conns n → grows n n'.
Proof. intros E conn Hc. exists conn. by rewrite E. Qed.
Lemma grows_trans n1 n2 n3 : grows n1 n2 → grows n2 n3 → grows n1 n3.
Proof. intros H1 H2 c1 (c2 & (c3 & ? & ?)%H2 & ?)%H1. exists c3. split; [done|]. by etrans. Qed.
Lemma grows_upd n c f : (∀ x, out x `suffix_of` out (f x)) → grows n (upd_conn n c f).
Proof. intros Hf conn Hc. rewrite conns_upd, Hc. case_decide; cbn; eauto. Qed.
Lemma grows_close n c : grows n (closeConn n c).
Proof. intros conn Hc. destruct (close_facts n c conn Hc) as (_ & _ & _ & _ & _ & b & ->). eauto. Qed.
Lemma grows_closeUnless w n c : grows n (closeUnless w n c).
Proof. destruct w; [by apply grows_same|apply grows_close..]. Qed.

Lemma out_write x e w : out x `suffix_of` out (write x e w).
Proof. unfold write. destruct (closed x), w; cbn; try done; by apply suffix_cons_r. Qed.
Lemma out_finish x s : out x `suffix_of` out (finishAdmission x s).
Proof. by destruct (finish_facts x s) as (_ & _ & _ & ->). Qed.

Lemma grows_admit n c e w : grows n (admitFrame n c e w).
Proof.
  intros conn Hc. destruct (conns n !! c) as [x|] eqn:Hx.
  - destruct (admit_facts n c e w x Hx) as (_ & _ & _ & _ & _ & r & E). rewrite E.
    destruct (decide (c = link)) as [->|Hne]; [|rewrite lookup_insert_ne by done; eauto].
    rewrite lookup_insert_eq. simplify_eq. eexists. split; [done|]. unfold admitted.
    destruct r, (decide (kind e = KIND_CALL)); cbn; try done; [|exact (out_finish (beginAdmission conn) _)].
    etrans; [|apply out_write]. apply (out_finish (set_calls (beginAdmission conn) _) _).
  - exists conn. split; [|done]. unfold admitFrame.
    assert (∀ m f, conns m = conns n → conns (upd_conn m c f) = conns n) as Hal.
    { intros m f E. unfold upd_conn. cbn. rewrite E. apply map_eq. intros i. destruct (decide (i = c)) as [->|];
        [by rewrite lookup_alter_eq, Hx|by rewrite lookup_alter_ne]. }
    destruct (submit _ _ _) as [n4|] eqn:Hs; [apply submit_facts in Hs as (_ & _ & -> & _)|].
    + rewrite <-Hc. f_equal. case_decide; repeat apply Hal; done.
    + rewrite <-Hc. f_equal. case_decide; cbn [conns emit]; repeat apply Hal; done.
Qed.

Lemma grows_frame n c e r w n' : onFrame n c e r w = Some n' → grows n n'.
Proof.
  unfold onFrame. destruct (conns n !! c) as [x|]; [|done]. cbn [mbind option_bind]. destruct (closed x); [done|].
  case_decide; [intros [= <-]; apply (grows_close (emit n EvProtocolError))|]. intros [= <-].
  destruct (kind e); try (by apply grows_same); try apply grows_admit.
  - eapply grows_trans; [|apply grows_closeUnless]. apply grows_upd. intros y. apply out_write.
  - case_decide; [|apply grows_upd; intros y; apply out_write]. unfold barrier. destruct (barrierPending x).
    + apply grows_upd. intros y. apply out_write.
    + eapply grows_trans; [|by apply grows_same]. by apply grows_upd.
  - destruct (calls x !! _); by apply grows_same.
Qed.

Lemma grows_step n a n' : step n a = Some n' → grows n n'.
Proof.
  destruct a as [c rm|c e r w|i|i sys w|k r w|k w|k|c]; cbn [step]; intros HE.
  - destruct (conns n !! c) eqn:Hc; [done|]. injection HE as <-. intros conn Hl. exists conn. cbn.
    rewrite lookup_insert_ne by congruence. done.
  - by eapply grows_frame.
  - unfold take in HE. destruct (workers n !! i) as [[|]|]; [by destruct (shards n !! i)| |done].
    cbn in HE. destruct (shards n !! i) as [[|]|]; [done| |done]. injection HE as <-. by apply grows_same.
  - unfold dispatch in HE. destruct (workers n !! i) as [[j|]|]; [|done..]. cbn [mbind option_bind] in HE.
    destruct (jobs n !! j) as [x|]; [|done]. injection HE as <-. eapply grows_trans; [|by apply grows_same].
    eapply grows_trans; [|apply grows_upd; intros y; apply out_finish]. unfold dispatchBody.
    repeat case_match; try (by apply grows_same); (eapply grows_trans; [|by apply grows_same]).
    all: apply (grows_upd n); intros y; try done; apply (out_write (forgetCall y _)).
  - unfold finishCall in HE. destruct (running n !! k) as [j|]; [|done]. cbn [mbind option_bind] in HE.
    destruct (jobs n !! j) as [x|]; [|done]. cbn [mbind option_bind] in HE.
    assert (grows n (upd_conn (set_running n (active n - 1) (delete k (running n))) (j_conn x) (λ y, forgetCall y (RequestId (j_env x))))) as Hg
      by (by apply (grows_upd n)).
    destruct r as [[p err]|]; [destruct (j_canceled x)|]; injection HE as <-; [done| |].
    + eapply grows_trans; [|apply grows_closeUnless]. eapply grows_trans; [exact Hg|].
      eapply grows_trans; [|by apply grows_same]. apply grows_upd. intros y. apply out_write.
    + eapply grows_trans; [exact Hg|by apply grows_same].
  - unfold barrierReply in HE. destruct (barriers n !! k) as [[[c s] rq]|]; [|done]. cbn [mbind option_bind] in HE.
    destruct (conns n !! c); [|done]. cbn [mbind option_bind] in HE. case_decide; [|done]. injection HE as <-.
    eapply grows_trans; [|by apply grows_same]. apply grows_upd. intros y. apply (out_write y).
  - unfold barrierGiveUp in HE. destruct (barriers n !! k) as [[[c s] rq]|]; [|done]. injection HE as <-.
    eapply grows_trans; [|by apply grows_same]. by apply grows_upd.
  - injection HE as <-. apply grows_close.
Qed.

End link.
End InboundLink.
