(* ===== verification/Peer.v ===== *)
(** * Outgoing connections (src/cluster/peer.go)

    A peer has a send queue, fed by senders and emptied by the write loop, and a
    table of requests that wait for an answer.  Closing the peer stops new senders,
    waits for the ones that are sending, fails the waiting requests and reports what
    is left in the queue.  Steps are critical sections and channel operations. *)

From S2P Require Import Prelude System Wire.

Module Peer.
Import Wire.

(** ** State *)

Record outbound := Out {
  o_envelope : Envelope;
  o_target : System.RemoteTarget;
  o_protocol : string;
  o_notify : bool;
}.

(** What ReportAsyncError is given, at stage transport_write. *)
Record AsyncError := AsyncErr { a_Service : string; a_Protocol : string; a_RemoteNode : string }.

Inductive peerResult := ResultEnvelope (e : Envelope) | ResultError (e : sentinel).

(** Where [close] is: waiting for the senders, failing the requests, draining the
    queue, or done. *)
Inductive stage := Waiting | Failing (rest : list nat) | Draining | Finished.

(** [senders]: the items of the goroutines between beginEnqueue and enqueueWG.Done;
    [writing]: the item the write loop holds; [stopped]: the write loop has
    returned.  Channels of requests hold one result.  [reported] is what went to
    ReportAsyncError.  The last four fields record what happened to items (accepted by
    enqueue, written, given up) and all that was written to the connection. *)
Record peer := MkPeer {
  localNode : string;
  remoteNode : string;
  sendCap : nat;
  send : list outbound;
  control : list Envelope;
  enqueueClosed : bool;
  senders : list outbound;
  writing : option outbound;
  stopped : bool;
  closing : option stage;
  pending : gmap Z nat;
  chans : gmap nat (list peerResult);
  reported : list AsyncError;
  accepted : list outbound;
  written : list outbound;
  failed : list outbound;
  wire : list Envelope;
}.

Definition newPeer (node remote : string) (cap : nat) : peer :=
  MkPeer node remote cap [] [] false [] None false None ∅ ∅ [] [] [] [] [].

Definition set_send (p : peer) (s senders' : list outbound) (acc : list outbound) : peer :=
  MkPeer (localNode p) (remoteNode p) (sendCap p) s (control p) (enqueueClosed p) senders' (writing p) (stopped p) (closing p)
         (pending p) (chans p) (reported p) acc (written p) (failed p) (wire p).
Definition set_writer (p : peer) (s : list outbound) (w : option outbound) (st : bool) (wr fl : list outbound) : peer :=
  MkPeer (localNode p) (remoteNode p) (sendCap p) s (control p) (enqueueClosed p) (senders p) w st (closing p)
         (pending p) (chans p) (reported p) (accepted p) wr fl (wire p).
Definition set_closing (p : peer) (closed : bool) (c : option stage) : peer :=
  MkPeer (localNode p) (remoteNode p) (sendCap p) (send p) (control p) closed (senders p) (writing p) (stopped p) c
         (pending p) (chans p) (reported p) (accepted p) (written p) (failed p) (wire p).
Definition set_pending (p : peer) (m : gmap Z nat) (c : gmap nat (list peerResult)) : peer :=
  MkPeer (localNode p) (remoteNode p) (sendCap p) (send p) (control p) (enqueueClosed p) (senders p) (writing p) (stopped p) (closing p)
         m c (reported p) (accepted p) (written p) (failed p) (wire p).
Definition set_control (p : peer) (c : list Envelope) : peer :=
  MkPeer (localNode p) (remoteNode p) (sendCap p) (send p) c (enqueueClosed p) (senders p) (writing p) (stopped p) (closing p)
         (pending p) (chans p) (reported p) (accepted p) (written p) (failed p) (wire p).

Definition set_reported (p : peer) (r : list AsyncError) : peer :=
  MkPeer (localNode p) (remoteNode p) (sendCap p) (send p) (control p) (enqueueClosed p) (senders p) (writing p) (stopped p) (closing p)
         (pending p) (chans p) r (accepted p) (written p) (failed p) (wire p).

Definition put (p : peer) (e : Envelope) : peer :=
  MkPeer (localNode p) (remoteNode p) (sendCap p) (send p) (control p) (enqueueClosed p) (senders p) (writing p) (stopped p) (closing p)
         (pending p) (chans p) (reported p) (accepted p) (written p) (failed p) (wire p ++ [e]).

(** ** Senders *)

Definition isClosed (p : peer) : bool := enqueueClosed p.

(** beginEnqueue; the result tells whether the sender may go on. *)
Definition beginEnqueue (p : peer) (item : outbound) : peer * bool :=
  if enqueueClosed p then (p, false)
  else (set_send p (send p) (senders p ++ [item]) (accepted p), true).

(** The select of enqueue, with the deferred enqueueWG.Done: the item goes into the
    queue when there is room ... *)
Definition enqueueSend (p : peer) (i : nat) : option peer :=
  item ← senders p !! i;
  if decide (length (send p) < sendCap p)%nat
  then Some (set_send p (send p ++ [item]) (delete i (senders p)) (accepted p ++ [item])) else None.

(** ... or enqueue returns an error: the peer is closed, the context is done, or the
    queue of a non-blocking send is full. *)
Definition enqueueFail (p : peer) (i : nat) : option peer :=
  _ ← senders p !! i; Some (set_send p (send p) (delete i (senders p)) (accepted p)).

(** ** Closing *)

(** The critical section at the start of close. *)
Definition closeStart (p : peer) : peer :=
  if enqueueClosed p then p else set_closing p true (Some Waiting).

Definition controlCap : nat := 32.

Definition enqueueControl (p : peer) (e : Envelope) : peer :=
  if enqueueClosed p then p
  else if decide (length (control p) < controlCap)%nat then set_control p (control p ++ [e])
  else closeStart p.

(** Only the failure of a notification is reported. *)
Definition asyncError (item : outbound) : AsyncError :=
  AsyncErr (System.t_Service (o_target item)) (o_protocol item) (System.t_Node (o_target item)).

Definition reportSendFailure (p : peer) (item : outbound) : peer :=
  if negb (o_notify item) then p else set_reported p (reported p ++ [asyncError item]).

(** enqueueWG.Wait returns, and the table of requests is taken. *)
Definition closeWaited (p : peer) : option peer :=
  match closing p, senders p with
  | Some Waiting, [] =>
      Some (set_closing (set_pending p ∅ (chans p)) true (Some (Failing (snd <$> map_to_list (pending p)))))
  | _, _ => None
  end.

(** A result is sent to a channel of capacity one; [None] when that blocks. *)
Definition deliver (p : peer) (ch : nat) (r : peerResult) : option peer :=
  match chans p !! ch with
  | Some [] => Some (set_pending p (pending p) (<[ch := [r]]> (chans p)))
  | _ => None
  end.

Definition closeFail (p : peer) : option peer :=
  match closing p with
  | Some (Failing []) => Some (set_closing p true (Some Draining))
  | Some (Failing (ch :: rest)) =>
      p' ← deliver p ch (ResultError ErrRemoteUnavailable); Some (set_closing p' true (Some (Failing rest)))
  | _ => None
  end.

Definition closeDrain (p : peer) : option peer :=
  match closing p, send p with
  | Some Draining, item :: rest =>
      Some (reportSendFailure (set_writer p rest (writing p) (stopped p) (written p) (failed p ++ [item])) item)
  | Some Draining, [] => Some (set_closing p true (Some Finished))
  | _, _ => None
  end.

(** ** The write loop *)

(** close closes the connection before it waits for the senders, so a write that
    succeeds comes before the end of that wait. *)
Definition connected (p : peer) : bool :=
  match closing p with None | Some Waiting => true | _ => false end.

Definition writeTake (p : peer) : option peer :=
  if stopped p then None
  else match writing p, send p with
       | None, item :: rest => Some (set_writer p rest (Some item) false (written p) (failed p))
       | _, _ => None
       end.

(** write: on failure the item is reported, the peer closed and the loop left. *)
Definition write (p : peer) (ok : bool) : option peer :=
  item ← writing p;
  if ok then
    if connected p then Some (put (set_writer p (send p) None (stopped p) (written p ++ [item]) (failed p)) (o_envelope item)) else None
  else Some (closeStart (reportSendFailure (set_writer p (send p) None true (written p) (failed p ++ [item])) item)).

(** The write of a control message. *)
Definition writeControl (p : peer) (ok : bool) : option peer :=
  if stopped p then None
  else match writing p, control p with
       | None, e :: rest =>
           let p1 := set_control p rest in
           if ok then if connected p then Some (put p1 e) else None
           else Some (closeStart (set_writer p1 (send p1) None true (written p1) (failed p1)))
       | _, _ => None
       end.

(** The ticker fires and the peer is not idle: a ping with a new request number. *)
Definition writePing (p : peer) (id : Z) (ok : bool) : option peer :=
  if stopped p then None
  else match writing p with
       | None => if ok then if connected p then Some (put p (header KIND_PING (localNode p) id)) else None
                 else Some (closeStart (set_writer p (send p) None true (written p) (failed p)))
       | Some _ => None
       end.

(** The loop sees [done], or the heartbeat fails. *)
Definition writeStop (p : peer) : option peer :=
  match writing p with
  | None => if stopped p then None
            else Some (closeStart (set_writer p (send p) None true (written p) (failed p)))
  | Some _ => None
  end.

(** ** Requests *)

(** addPending with a new channel. *)
Definition addPending (p : peer) (id : Z) (ch : nat) : option peer :=
  match chans p !! ch with
  | None => Some (set_pending p (<[id := ch]> (pending p)) (<[ch := []]> (chans p)))
  | Some _ => None
  end.

Definition removePending (p : peer) (id : Z) : peer := set_pending p (delete id (pending p)) (chans p).

(** complete: the entry is removed, then the envelope sent. *)
Definition complete (p : peer) (e : Envelope) : option peer :=
  match pending p !! RequestId e with
  | None => Some p
  | Some ch => deliver (removePending p (RequestId e)) ch (ResultEnvelope e)
  end.

(** One iteration of readLoop; [None] only when a send would block. *)
Definition onRead (p : peer) (e : Envelope) : option peer :=
  if decide (Version e ≠ protocolVersion ∨ SourceNode e ≠ remoteNode p) then Some (closeStart p)
  else match kind e with
       | KIND_RESOLVE_RESPONSE | KIND_RESPONSE => complete p e
       | KIND_PING => Some (enqueueControl p (header KIND_PONG (localNode p) (RequestId e)))
       | KIND_PONG => if decide (is_Some (pending p !! RequestId e)) then complete p e else Some p
       | _ => Some p
       end.

(** ** Runs *)

Inductive label :=
  | LBegin (item : outbound) | LSend (i : nat) | LSendFail (i : nat)
  | LTake | LWrite (ok : bool) | LControl (ok : bool) | LPing (id : Z) (ok : bool) | LStop
  | LClose | LWaited | LFail | LDrain
  | LAddPending (id : Z) (ch : nat) | LRemovePending (id : Z) | LRead (e : Envelope)
  | LCancel (e : Envelope).

Definition step (p : peer) (a : label) : option peer :=
  match a with
  | LBegin item => Some (beginEnqueue p item).1
  | LSend i => enqueueSend p i
  | LSendFail i => enqueueFail p i
  | LTake => writeTake p
  | LWrite ok => write p ok
  | LControl ok => writeControl p ok
  | LPing id ok => writePing p id ok
  | LStop => writeStop p
  | LClose => Some (closeStart p)
  | LWaited => closeWaited p
  | LFail => closeFail p
  | LDrain => closeDrain p
  | LAddPending id ch => addPending p id ch
  | LRemovePending id => Some (removePending p id)
  | LRead e => onRead p e
  | LCancel e => Some (enqueueControl p e)
  end.

Notation steps := (runs step).

(** ** Every accepted item is accounted for *)

(** Senders that may still send keep [close] waiting. *)
Record ledger (p : peer) : Prop := {
  lg_items : accepted p ≡ₚ send p ++ option_list (writing p) ++ written p ++ failed p;
  lg_closed : is_Some (closing p) ↔ enqueueClosed p = true;
  lg_senders : match closing p with Some (Failing _) | Some Draining | Some Finished => senders p = [] | _ => True end;
  lg_finished : closing p = Some Finished → send p = [];
  lg_stopped : stopped p = true → writing p = None ∧ enqueueClosed p = true;
  lg_reported : reported p = asyncError <$> List.filter o_notify (failed p);
}.

Lemma ledger_new node remote cap : ledger (newPeer node remote cap).
Proof. split; simpl; done. Qed.

Lemma closeStart_ledger p : 
  accepted p ≡ₚ send p ++ option_list (writing p) ++ written p ++ failed p →
  (is_Some (closing p) ↔ enqueueClosed p = true) →
  match closing p with Some (Failing _) | Some Draining | Some Finished => senders p = [] | _ => True end →
  (closing p = Some Finished → send p = []) → (stopped p = true → writing p = None) →
  reported p = asyncError <$> List.filter o_notify (failed p) →
  ledger (closeStart p).
Proof.
  intros H1 H2 H3 H4 H5 H6. unfold closeStart. destruct (enqueueClosed p) eqn:Hc; split; simpl; try done.
  - by rewrite Hc.
  - auto.
  - auto.
Qed.

Lemma open_closing (c : option stage) b : (is_Some c ↔ b = true) → b = false → c = None.
Proof. intros H ->. destruct c; [|done]. by discriminate (proj1 H (ex_intro _ _ eq_refl)). Qed.

Lemma enqueueControl_ledger p e : ledger p → ledger (enqueueControl p e).
Proof.
  intros [H1 H2 H3 H4 H5 H6]. unfold enqueueControl. destruct (enqueueClosed p) eqn:Hc; [by split; rewrite ?Hc|].
  case_decide; [by split; simpl; rewrite ?Hc|]. apply closeStart_ledger; try done; [by rewrite Hc|]. naive_solver.
Qed.

Lemma deliver_ledger p ch r p' : deliver p ch r = Some p' → ledger p → ledger p' ∧ closing p' = closing p ∧ senders p' = senders p.
Proof. unfold deliver. destruct (chans p !! ch) as [[|]|]; try done. intros [= <-] [H1 H2 H3 H4 H5 H6]. by split. Qed.

Lemma complete_ledger p e p' : complete p e = Some p' → ledger p → ledger p'.
Proof.
  unfold complete. destruct (pending p !! RequestId e); [|by intros [= <-]]. intros HE [H1 H2 H3 H4 H5 H6].
  eapply deliver_ledger; [exact HE|]. by split.
Qed.

(** Giving up an item changes the reports only, by the item's error if it is a
    notification. *)
Lemma reportSendFailure_eq p item :
  reportSendFailure p item = set_reported p (reported p ++ (asyncError <$> List.filter o_notify [item])).
Proof.
  unfold reportSendFailure. simpl. destruct (o_notify item); [done|]. simpl. rewrite app_nil_r. by destruct p.
Qed.

Lemma reported_snoc (l : list outbound) item :
  asyncError <$> List.filter o_notify (l ++ [item]) =
  (asyncError <$> List.filter o_notify l) ++ (asyncError <$> List.filter o_notify [item]).
Proof. by rewrite List.filter_app, fmap_app. Qed.

Lemma write_ledger p ok p' : ledger p → write p ok = Some p' → ledger p'.
Proof.
  intros [H1 H2 H3 H4 H5 H6] HE. unfold write in HE. destruct (writing p) as [item|] eqn:Hw; [|done]. cbn [mbind option_bind] in HE.
  destruct ok; [destruct (connected p); [|done]|]; injection HE as <-.
  - split; simpl; try done; [rewrite H1; simpl; solve_Permutation|]. naive_solver.
  - rewrite reportSendFailure_eq. apply closeStart_ledger; simpl; try done.
    + rewrite H1. simpl. solve_Permutation.
    + rewrite H6. symmetry. apply reported_snoc.
Qed.

Lemma step_ledger p a p' : ledger p → step p a = Some p' → ledger p'.
Proof.
  intros L HE. pose proof L as [H1 H2 H3 H4 H5 H6].
  destruct a as [item|i|i| |ok|ok|id ok| | | | | |id ch|id|e|e]; simpl in HE.
  - injection HE as <-. unfold beginEnqueue. destruct (enqueueClosed p) eqn:Hc; [done|].
    pose proof (open_closing _ _ H2 eq_refl) as Hn. by split; simpl; rewrite ?Hn, ?Hc; try done; rewrite <-Hn.
  - unfold enqueueSend in HE. destruct (senders p !! i) as [item|] eqn:Hi; [|done]. cbn [mbind option_bind] in HE.
    case_decide; [|done]. injection HE as <-. split; simpl; try done.
    + rewrite H1. solve_Permutation.
    + destruct (closing p) as [[| | |]|]; try done; by rewrite H3 in Hi.
    + intros Hf. rewrite Hf in H3. by rewrite H3 in Hi.
  - unfold enqueueFail in HE. destruct (senders p !! i) as [item|] eqn:Hi; [|done]. injection HE as <-.
    split; simpl; try done. destruct (closing p) as [[| | |]|]; try done; by rewrite H3.
  - unfold writeTake in HE. destruct (stopped p) eqn:Hst; [done|]. destruct (writing p) eqn:Hw; [done|].
    destruct (send p) as [|item rest] eqn:Hs; [done|]. injection HE as <-. split; simpl; try done.
    + rewrite H1. simpl. solve_Permutation.
    + intros Hf. by specialize (H4 Hf).
  - by eapply write_ledger.
  - unfold writeControl in HE. destruct (stopped p) eqn:Hst; [done|]. destruct (writing p) eqn:Hw; [done|].
    destruct (control p) as [|c rest]; [done|].
    destruct ok; [destruct (connected p); [|done]; injection HE as <-; by split; simpl; rewrite ?Hw, ?Hst|]. injection HE as <-.
    apply closeStart_ledger; simpl; try done.
  - unfold writePing in HE. destruct (stopped p) eqn:Hst; [done|]. destruct (writing p) eqn:Hw; [done|].
    destruct ok; [destruct (connected p); [|done]; injection HE as <-; by split; simpl; rewrite ?Hw, ?Hst|]. injection HE as <-.
    apply closeStart_ledger; simpl; done.
  - unfold writeStop in HE. destruct (writing p) eqn:Hw; [done|]. destruct (stopped p) eqn:Hst; [done|]. injection HE as <-.
    apply closeStart_ledger; simpl; try done.
  - injection HE as <-. apply closeStart_ledger; try done. naive_solver.
  - unfold closeWaited in HE. destruct (closing p) as [[| | |]|] eqn:Hc; try done. destruct (senders p) eqn:Hs; [|done].
    injection HE as <-. split; simpl; try done. naive_solver.
  - unfold closeFail in HE. destruct (closing p) as [[|[|ch rest]| |]|] eqn:Hc; try done.
    + injection HE as <-. split; simpl; try done. naive_solver.
    + destruct (deliver p ch _) as [p1|] eqn:Hd; [|done]. injection HE as <-.
      destruct (deliver_ledger _ _ _ _ Hd L) as ([G1 G2 G3 G4 G5 G6] & Ec & Es).
      split; simpl; try done; [by rewrite Es|naive_solver].
  - unfold closeDrain in HE. destruct (closing p) as [[| | |]|] eqn:Hc; try done.
    destruct (send p) as [|item rest] eqn:Hs; injection HE as <-; rewrite ?reportSendFailure_eq;
      split; simpl; rewrite ?Hs, ?Hc; try done.
    + naive_solver.
    + rewrite H1. solve_Permutation.
    + rewrite H6. symmetry. apply reported_snoc.
  - unfold addPending in HE. destruct (chans p !! ch); [done|]. injection HE as <-. by split.
  - injection HE as <-. by split.
  - unfold onRead in HE. case_decide; [injection HE as <-; apply closeStart_ledger; try done; naive_solver|].
    destruct (kind e); try (by injection HE as <-); try (by eapply complete_ledger).
    + injection HE as <-. by apply enqueueControl_ledger.
    + case_decide; [by eapply complete_ledger|by injection HE as <-].
  - injection HE as <-. by apply enqueueControl_ledger.
Qed.

(** ** Results never block and come once *)

(** The channels close still has to fail. *)
Definition failing (p : peer) : list nat := match closing p with Some (Failing l) => l | _ => [] end.

Record waits (p : peer) : Prop := {
  wt_pending id ch : pending p !! id = Some ch → chans p !! ch = Some [];
  wt_inj id id' ch : pending p !! id = Some ch → pending p !! id' = Some ch → id = id';
  wt_failing ch : ch ∈ failing p → chans p !! ch = Some [];
  wt_nodup : NoDup (failing p);
  wt_disj id ch : pending p !! id = Some ch → ch ∉ failing p;
  wt_chans ch l : chans p !! ch = Some l → (length l <= 1)%nat;
}.

(** Steps that leave requests alone. *)
Lemma waits_same p p' :
  pending p' = pending p → chans p' = chans p → failing p' = failing p → waits p → waits p'.
Proof. intros E1 E2 E3 [H1 H2 H3 H4 H5 H6]. by split; rewrite ?E1, ?E2, ?E3. Qed.

Lemma waits_closeStart p :
  (is_Some (closing p) ↔ enqueueClosed p = true) → waits p → waits (closeStart p).
Proof.
  intros L. unfold closeStart. destruct (enqueueClosed p) eqn:Hc; [done|].
  apply waits_same; try done. unfold failing. simpl. by rewrite (open_closing _ _ L eq_refl).
Qed.

Lemma waits_control p e : ledger p → waits p → waits (enqueueControl p e).
Proof.
  intros L W. unfold enqueueControl. destruct (enqueueClosed p); [done|]. case_decide; [by apply (waits_same p)|].
  apply waits_closeStart; [apply (lg_closed p L)|done].
Qed.

(** A result for a request that waits: its channel takes it. *)
Lemma waits_deliver p ch r :
  waits p → chans p !! ch = Some [] → (∀ id, pending p !! id ≠ Some ch) → ch ∉ failing p →
  ∃ p', deliver p ch r = Some p' ∧ waits p' ∧ pending p' = pending p ∧ failing p' = failing p ∧ closing p' = closing p.
Proof.
  intros [H1 H2 H3 H4 H5 H6] Hch Hp Hf. unfold deliver. rewrite Hch. eexists. split; [done|].
  split_and!; [|done..]. split; simpl.
  - intros id c Hc. rewrite lookup_insert_ne; [by eapply H1|]. intros <-. by apply (Hp id).
  - done.
  - intros c Hc. rewrite lookup_insert_ne; [by apply H3|]. by intros <-.
  - done.
  - done.
  - intros c l. rewrite lookup_insert_Some. intros [[<- <-]|[_ Hl]]; [simpl; lia|by eapply H6].
Qed.

Lemma waits_complete p e : waits p → ∃ p', complete p e = Some p' ∧ waits p'.
Proof.
  intros W. pose proof W as [H1 H2 H3 H4 H5 H6]. unfold complete.
  destruct (pending p !! RequestId e) as [ch|] eqn:Hp; [|by eauto].
  assert (waits (removePending p (RequestId e))) as W'.
  { split; simpl; try done.
    - intros id c. rewrite lookup_delete_Some. intros [_ Hc]. by eapply H1.
    - intros id id' c. rewrite !lookup_delete_Some. intros [_ ?] [_ ?]. by eapply H2.
    - intros id c. rewrite lookup_delete_Some. intros [_ ?]. by eapply H5. }
  destruct (waits_deliver _ ch (ResultEnvelope e) W') as (p' & HE & W2 & _).
  - simpl. by eapply H1.
  - intros id. simpl. rewrite lookup_delete_Some. intros [Hne Hid]. by apply Hne, (H2 _ _ ch).
  - by eapply H5.
  - eauto.
Qed.

Lemma waits_fail p : waits p → match closing p with Some (Failing _) => ∃ p', closeFail p = Some p' ∧ waits p' | _ => True end.
Proof.
  intros W. pose proof W as [H1 H2 H3 H4 H5 H6]. unfold closeFail, failing in *.
  destruct (closing p) as [[|[|ch rest]| |]|] eqn:Hc; try done.
  - eexists. split; [done|]. eapply waits_same; [..|exact W]; try done. unfold failing. simpl. by rewrite Hc.
  - apply NoDup_cons in H4 as [Hn H4].
    set (q := set_closing p true (Some (Failing rest))).
    assert (waits q) as Wq by (split; unfold failing; simpl; try done; set_solver).
    destruct (waits_deliver q ch (ResultError ErrRemoteUnavailable) Wq) as (q' & HE & W' & _).
    + apply H3. set_solver.
    + intros id Hid. apply (H5 id ch Hid). set_solver.
    + done.
    + assert (chans p !! ch = Some []) as Hch by (apply H3; set_solver).
      unfold deliver in HE |- *. simpl in HE. rewrite Hch in HE |- *. injection HE as <-. eexists. split; [done|exact W'].
Qed.

Lemma NoDup_fmap_snd_inj (m : gmap Z nat) :
  (∀ i i' c, m !! i = Some c → m !! i' = Some c → i = i') → NoDup (snd <$> map_to_list m).
Proof.
  intros Hm. apply NoDup_fmap_2_strong; [|apply NoDup_map_to_list].
  intros [i c] [i' c'] Hi%elem_of_map_to_list Hi'%elem_of_map_to_list. simpl. intros ->. f_equal. by eapply Hm.
Qed.

Lemma waits_add p id ch :
  waits p → chans p !! ch = None → waits (set_pending p (<[id := ch]> (pending p)) (<[ch := []]> (chans p))).
Proof.
  intros [H1 H2 H3 H4 H5 H6] Hch.
  assert (∀ i c, pending p !! i = Some c → c ≠ ch) as Hne by (intros i c Hc ->; apply H1 in Hc; congruence).
  assert (∀ c, c ∈ failing p → c ≠ ch) as Hnf by (intros c Hc ->; apply H3 in Hc; congruence).
  split; simpl.
  - intros i c. rewrite lookup_insert_Some. intros [[_ <-]|[_ Hc]]; [by rewrite lookup_insert_eq|].
    rewrite lookup_insert_ne by (intros ->; by eapply Hne). by eapply H1.
  - intros i i' c. rewrite !lookup_insert_Some.
    intros [[<- <-]|[Hi Hc]] [[<- Hc']|[Hi' Hc']]; subst; try done; try (by destruct (Hne _ _ Hc)); try (by destruct (Hne _ _ Hc')).
    by eapply H2.
  - intros c Hc. rewrite lookup_insert_ne by (intros ->; by eapply Hnf). by apply H3.
  - done.
  - intros i c. rewrite lookup_insert_Some. intros [[_ <-]|[_ Hc]] Hin; [by eapply Hnf|by eapply H5].
  - intros c l. rewrite lookup_insert_Some. intros [[_ <-]|[_ Hl]]; [simpl; lia|by eapply H6].
Qed.

Lemma step_waits p a p' : ledger p → waits p → step p a = Some p' → waits p'.
Proof.
  intros L W HE. pose proof W as [H1 H2 H3 H4 H5 H6].
  destruct a as [item|i|i| |ok|ok|id ok| | | | | |id ch|id|e|e]; simpl in HE.
  - injection HE as <-. unfold beginEnqueue. by destruct (enqueueClosed p).
  - unfold enqueueSend in HE. destruct (senders p !! i); [|done]. simpl in HE. case_decide; [|done]. by injection HE as <-.
  - unfold enqueueFail in HE. destruct (senders p !! i); [|done]. by injection HE as <-.
  - unfold writeTake in HE. destruct (stopped p); [done|]. destruct (writing p); [done|]. destruct (send p); [done|]. by injection HE as <-.
  - unfold write in HE. destruct (writing p) as [item|] eqn:Hw; [|done]. cbn [mbind option_bind] in HE.
    destruct ok; [destruct (connected p); [|done]; by injection HE as <-|]. injection HE as <-.
    rewrite reportSendFailure_eq.
    apply waits_closeStart; [apply (lg_closed p L)|done].
  - unfold writeControl in HE. destruct (stopped p); [done|]. destruct (writing p); [done|]. destruct (control p); [done|].
    destruct ok; [destruct (connected p); [|done]; by injection HE as <-|]. injection HE as <-.
    apply waits_closeStart; [apply (lg_closed p L)|done].
  - unfold writePing in HE. destruct (stopped p); [done|]. destruct (writing p); [done|].
    destruct ok; [destruct (connected p); [|done]; by injection HE as <-|]. injection HE as <-.
    apply waits_closeStart; [apply (lg_closed p L)|done].
  - unfold writeStop in HE. destruct (writing p); [done|]. destruct (stopped p); [done|]. injection HE as <-.
    apply waits_closeStart; [apply (lg_closed p L)|done].
  - injection HE as <-. apply waits_closeStart; [apply (lg_closed p L)|done].
  - unfold closeWaited in HE. destruct (closing p) as [[| | |]|] eqn:Hc; try done. destruct (senders p); [|done].
    injection HE as <-. split; unfold failing; simpl; try done.
    + intros c Hin. apply list_elem_of_fmap in Hin as ([i c'] & -> & Hin). apply elem_of_map_to_list in Hin. by eapply H1.
    + apply NoDup_fmap_snd_inj. intros i i' c Hi Hi'. by eapply H2.
  - pose proof (waits_fail p W) as Hw. unfold closeFail in *. destruct (closing p) as [[|l| |]|]; try done.
    destruct Hw as (p1 & Hw & W1). rewrite HE in Hw. by injection Hw as <-.
  - unfold closeDrain in HE. unfold failing in *. destruct (closing p) as [[| | |]|] eqn:Hc; try done.
    destruct (send p); injection HE as <-; rewrite ?reportSendFailure_eq; (eapply waits_same; [..|exact W]); try done;
      unfold failing; simpl; by rewrite Hc.
  - unfold addPending in HE. destruct (chans p !! ch) eqn:Hch; [done|]. injection HE as <-. by apply waits_add.
  - injection HE as <-. split; simpl; try done.
    + intros i c. rewrite lookup_delete_Some. intros [_ Hc]. by eapply H1.
    + intros i i' c. rewrite !lookup_delete_Some. intros [_ ?] [_ ?]. by eapply H2.
    + intros i c. rewrite lookup_delete_Some. intros [_ ?]. by eapply H5.
  - unfold onRead in HE. case_decide; [injection HE as <-; apply waits_closeStart; [apply (lg_closed p L)|done]|].
    destruct (waits_complete p e W) as (p1 & HC & W1).
    destruct (kind e); try (by injection HE as <-); try (rewrite HC in HE; by injection HE as <-).
    + injection HE as <-. by apply waits_control.
    + case_decide; [rewrite HC in HE|]; by injection HE as <-.
  - injection HE as <-. by apply waits_control.
Qed.

(** ** Reachable states *)

Lemma peer_steps l : ∀ p p', ledger p → waits p → steps p l = Some p' → ledger p' ∧ waits p'.
Proof.
  intros p p' L W. apply (runs_inv step (λ p, ledger p ∧ waits p)); [|done].
  intros p1 a p2 [? ?] E. split; [by eapply step_ledger|by eapply step_waits].
Qed.

Lemma waits_new node remote cap : waits (newPeer node remote cap).
Proof. split; simpl; try (intros *; by rewrite lookup_empty); unfold failing; simpl; [set_solver|constructor]. Qed.

Lemma peer_reachable node remote cap l p : steps (newPeer node remote cap) l = Some p → ledger p ∧ waits p.
Proof. apply peer_steps; [apply ledger_new|apply waits_new]. Qed.

(** Every stage of close can be run to its end. *)
Lemma drain_finishes n : ∀ p, ledger p → length (send p) = n → closing p = Some Draining →
  ∃ l p', steps p l = Some p' ∧ closing p' = Some Finished.
Proof.
  induction n as [|n IH]; intros p L Hn Hc; destruct (send p) as [|item rest] eqn:Hs; simplify_eq/=.
  - exists [LDrain]. simpl. unfold closeDrain. rewrite Hc, Hs. simpl. eauto.
  - assert (∃ p1, step p LDrain = Some p1 ∧ send p1 = rest ∧ closing p1 = Some Draining) as (p1 & H1 & Hr & Hc1).
    { simpl. unfold closeDrain. rewrite Hc, Hs, reportSendFailure_eq. eauto. }
    destruct (IH p1) as (l & p' & Hl & Hf); [by eapply step_ledger|by rewrite Hr|done|].
    exists (LDrain :: l), p'. split; [|done]. cbn [runs]. by rewrite H1.
Qed.

Lemma fail_finishes r : ∀ p, ledger p → waits p → closing p = Some (Failing r) →
  ∃ l p', steps p l = Some p' ∧ closing p' = Some Finished.
Proof.
  induction r as [|ch r IH]; intros p L W Hc; pose proof (waits_fail p W) as Hw; rewrite Hc in Hw;
    destruct Hw as (p1 & HE & W1); assert (ledger p1) as L1 by (by eapply (step_ledger p LFail)).
  - assert (closing p1 = Some Draining) as Hc1 by (unfold closeFail in HE; rewrite Hc in HE; by injection HE as <-).
    destruct (drain_finishes _ p1 L1 eq_refl Hc1) as (l & p' & Hl & Hf).
    exists (LFail :: l), p'. split; [|done]. cbn [runs step]. by rewrite HE.
  - assert (closing p1 = Some (Failing r)) as Hc1.
    { unfold closeFail in HE. rewrite Hc in HE. apply bind_Some in HE as (q & _ & [= <-]). done. }
    destruct (IH p1 L1 W1 Hc1) as (l & p' & Hl & Hf).
    exists (LFail :: l), p'. split; [|done]. cbn [runs step]. by rewrite HE.
Qed.

Lemma wait_finishes n : ∀ p, ledger p → waits p → length (senders p) = n → closing p = Some Waiting →
  ∃ l p', steps p l = Some p' ∧ closing p' = Some Finished.
Proof.
  induction n as [|n IH]; intros p L W Hn Hc; destruct (senders p) as [|item rest] eqn:Hs; simplify_eq/=.
  - assert (∃ p1 r, step p LWaited = Some p1 ∧ closing p1 = Some (Failing r)) as (p1 & r & H1 & Hc1).
    { simpl. unfold closeWaited. rewrite Hc, Hs. eauto. }
    destruct (fail_finishes r p1) as (l & p' & Hl & Hf); [by eapply step_ledger|by eapply step_waits|done|].
    exists (LWaited :: l), p'. split; [|done]. cbn [runs]. by rewrite H1.
  - assert (∃ p1, step p (LSendFail 0) = Some p1 ∧ senders p1 = rest ∧ closing p1 = Some Waiting) as (p1 & H1 & Hr & Hc1).
    { simpl. unfold enqueueFail. rewrite Hs. simpl. eauto. }
    destruct (IH p1) as (l & p' & Hl & Hf); [by eapply step_ledger|by eapply step_waits|by rewrite Hr|done|].
    exists (LSendFail 0 :: l), p'. split; [|done]. cbn [runs]. by rewrite H1.
Qed.

(** C26 (safety): every accepted item is accounted for, and failures of
    notifications are reported.  Whatever senders, the write loop, the read loop and
    close do, the items enqueue accepted are exactly those in the queue, in the write
    loop's hands, written, or given up; ReportAsyncError was given, in order and
    nothing else, one error for every notification among the given up, naming its
    service, protocol and node; once close has finished, nothing is left in the
    queue and no sender can add to it. *)
Theorem peer_accounts node remote cap l p :
  steps (newPeer node remote cap) l = Some p →
  accepted p ≡ₚ send p ++ option_list (writing p) ++ written p ++ failed p ∧
  reported p = asyncError <$> List.filter o_notify (failed p) ∧
  (closing p = Some Finished →
   send p = [] ∧ senders p = [] ∧ (∀ item, beginEnqueue p item = (p, false)) ∧
   accepted p ≡ₚ option_list (writing p) ++ written p ++ failed p).
Proof.
  intros [L _]%peer_reachable. pose proof L as [H1 H2 H3 H4 H5 H6]. split; [done|]. split; [done|]. intros Hf.
  rewrite Hf in H3. split_and!; [auto|done| |by rewrite H1, (H4 Hf)].
  intros item. unfold beginEnqueue. by rewrite (proj1 H2) by (rewrite Hf; by eexists).
Qed.

(** Liveness: requests get at most one result and close always finishes.  A
    result never blocks the goroutine that delivers it, no channel gets two, and from
    every state in which the peer is closed close can run to its end. *)
Theorem peer_results node remote cap l p :
  steps (newPeer node remote cap) l = Some p →
  (∀ e, is_Some (complete p e)) ∧ (∀ ch rs, chans p !! ch = Some rs → (length rs <= 1)%nat) ∧
  (enqueueClosed p = true → ∃ l' p', steps p l' = Some p' ∧ closing p' = Some Finished).
Proof.
  intros [L W]%peer_reachable. split_and!.
  - intros e. destruct (waits_complete p e W) as (p' & -> & _). by eexists.
  - apply (wt_chans p W).
  - intros Hc. apply (lg_closed p L) in Hc as [[|r| |] Hs].
    + by eapply wait_finishes.
    + by eapply fail_finishes.
    + by eapply drain_finishes.
    + by exists [], p.
Qed.

Definition exampleItem : outbound := Out (header KIND_SEND "a" 0) (System.Target "b" "i" "s" 1 1) "p" true.
Definition exampleLabels : list label :=
  [LBegin exampleItem; LSend 0; LAddPending 4 0; LBegin exampleItem; LClose; LSendFail 0; LWaited; LFail; LFail; LDrain; LDrain].
Definition examplePeer : peer := default (newPeer "a" "b" 2) (steps (newPeer "a" "b" 2) exampleLabels).

Lemma peer_accounts_witness :
  reported examplePeer = [AsyncErr "s" "p" "b"] ∧ accepted examplePeer ≡ₚ [exampleItem].
Proof.
  split; [vm_compute; reflexivity|].
  refine (proj1 (peer_accounts "a" "b" 2 exampleLabels examplePeer _)). vm_compute. reflexivity.
Defined.

Lemma peer_results_witness : is_Some (complete examplePeer (header KIND_RESPONSE "b" 4)).
Proof. refine (proj1 (peer_results "a" "b" 2 exampleLabels examplePeer _) _). vm_compute. reflexivity. Defined.

End Peer.
