(* ===== verification/PeerWire.v ===== *)
(** * What an outgoing connection writes, and in which order

    The frames of a connection are those its senders, queues and write loop hold and
    those it has written.  The written items are a prefix of the accepted ones, and
    every result comes from a frame that was read. *)

From S2P Require Import Prelude Wire Peer.

Module PeerWire.
Import Wire Peer.

(** ** Frames come from senders, the ticker and the read loop *)

Definition items (p : peer) : list outbound := option_list (writing p) ++ send p ++ senders p.
Definition frames (p : peer) : list Envelope := wire p ++ control p ++ (o_envelope <$> items p).

(** What a step may add. *)
Definition adds (p : peer) (a : label) : list Envelope :=
  match a with
  | LBegin item => [o_envelope item]
  | LPing id _ => [header KIND_PING (localNode p) id]
  | LCancel e => [e]
  | LRead e => [header KIND_PONG (localNode p) (RequestId e)]
  | _ => []
  end.

Lemma frames_closeStart p : frames (closeStart p) = frames p ∧ localNode (closeStart p) = localNode p.
Proof. unfold closeStart. by destruct (enqueueClosed p). Qed.
Lemma frames_deliver p ch r p' : deliver p ch r = Some p' → frames p' = frames p ∧ localNode p' = localNode p.
Proof. unfold deliver. destruct (chans p !! ch) as [[|]|]; try done. by intros [= <-]. Qed.
Lemma frames_complete p e p' : complete p e = Some p' → frames p' = frames p ∧ localNode p' = localNode p.
Proof. unfold complete. destruct (pending p !! _); [|by intros [= <-]]. apply (frames_deliver (removePending p (RequestId e))). Qed.

Lemma frames_control p e : frames (enqueueControl p e) ⊆+ e :: frames p ∧ localNode (enqueueControl p e) = localNode p.
Proof.
  unfold enqueueControl. destruct (enqueueClosed p); [split; [by apply submseteq_cons|done]|]. case_decide.
  - split; [|done]. unfold frames. cbn [wire control set_control items]. apply Permutation_submseteq. solve_Permutation.
  - destruct (frames_closeStart p) as [-> ->]. split; [by apply submseteq_cons|done].
Qed.

Lemma frames_closeFail p p' : closeFail p = Some p' → frames p' = frames p ∧ localNode p' = localNode p.
Proof.
  unfold closeFail. destruct (closing p) as [[|[|ch rest]| |]|]; try done; [by intros [= <-]|].
  intros (q & Hq & [= <-])%bind_Some. by apply frames_deliver in Hq as [? ?].
Qed.

Lemma frames_onRead p e p' : onRead p e = Some p' →
  frames p' ⊆+ header KIND_PONG (localNode p) (RequestId e) :: frames p ∧ localNode p' = localNode p.
Proof.
  assert (∀ q, frames q = frames p ∧ localNode q = localNode p →
    frames q ⊆+ header KIND_PONG (localNode p) (RequestId e) :: frames p ∧ localNode q = localNode p) as Hsame.
  { intros q [-> ->]. split; [by apply submseteq_cons|done]. }
  unfold onRead. case_decide; [intros [= <-]; apply Hsame, frames_closeStart|].
  destruct (kind e); try (intros [= <-]; by apply Hsame); try (intros HE; by eapply Hsame, frames_complete).
  - intros [= <-]. apply frames_control.
  - case_decide; [intros HE; by eapply Hsame, frames_complete|intros [= <-]; by apply Hsame].
Qed.

(** The steps of the write loop. *)
Lemma frames_loop p a p' :
  match a with LTake | LWrite _ | LControl _ | LPing _ _ | LStop => True | _ => False end →
  step p a = Some p' → frames p' ⊆+ adds p a ++ frames p ∧ localNode p' = localNode p.
Proof.
  intros Ha HE. destruct a as [| | | |ok|ok|id ok| | | | | | | | |]; try done; simpl in HE |- *.
  - unfold writeTake in HE. destruct (stopped p); [done|]. destruct (writing p) eqn:Hw; [done|].
    destruct (send p) as [|item rest] eqn:Hs; [done|]. injection HE as <-. split; [|done].
    unfold frames, items. cbn. by rewrite Hw, Hs.
  - unfold write in HE. destruct (writing p) as [item|] eqn:Hw; [|done]. cbn [mbind option_bind] in HE. destruct ok.
    + destruct (connected p); [|done]. injection HE as <-. split; [|done]. unfold frames, items. cbn. rewrite Hw. cbn.
      apply Permutation_submseteq. solve_Permutation.
    + injection HE as <-. destruct (frames_closeStart (reportSendFailure (set_writer p (send p) None true (written p) (failed p ++ [item])) item)) as [-> ->].
      rewrite reportSendFailure_eq.
      split; [|done]. unfold frames, items. cbn. rewrite Hw. cbn. do 2 (apply submseteq_app; [done|]). by apply submseteq_cons.
  - unfold writeControl in HE. destruct (stopped p); [done|]. destruct (writing p) eqn:Hw; [done|].
    destruct (control p) as [|c rest] eqn:Hc; [done|]. destruct ok.
    + destruct (connected p); [|done]. injection HE as <-. split; [|done]. unfold frames, items. cbn. rewrite Hw, Hc. cbn.
      apply Permutation_submseteq. solve_Permutation.
    + injection HE as <-. match goal with |- context [closeStart ?q] => destruct (frames_closeStart q) as [-> ->] end.
      split; [|done]. unfold frames, items. cbn. rewrite Hw, Hc. apply submseteq_app; [done|]. by apply submseteq_cons.
  - unfold writePing in HE. destruct (stopped p); [done|]. destruct (writing p) eqn:Hw; [done|]. destruct ok.
    + destruct (connected p); [|done]. injection HE as <-. split; [|done]. unfold frames, items. cbn.
      apply Permutation_submseteq. solve_Permutation.
    + injection HE as <-. match goal with |- context [closeStart ?q] => destruct (frames_closeStart q) as [-> ->] end.
      split; [|done]. unfold frames, items. cbn. rewrite Hw. by apply submseteq_cons.
  - unfold writeStop in HE. destruct (writing p) eqn:Hw; [done|]. destruct (stopped p); [done|]. injection HE as <-.
    match goal with |- context [closeStart ?q] => destruct (frames_closeStart q) as [-> ->] end.
    split; [|done]. unfold frames, items. cbn. by rewrite Hw.
Qed.

Lemma step_frames p a p' : step p a = Some p' → frames p' ⊆+ adds p a ++ frames p ∧ localNode p' = localNode p.
Proof.
  destruct a as [item|i|i| |ok|ok|id ok| | | | | |id ch|id|e|e];
    try (by apply frames_loop); simpl; intros HE; try (injection HE as <-).
  - unfold beginEnqueue. destruct (enqueueClosed p); [split; [by apply submseteq_cons|done]|]. split; [|done].
    unfold frames, items. cbn. rewrite !fmap_app. apply Permutation_submseteq. solve_Permutation.
  - unfold enqueueSend in HE. destruct (senders p !! i) as [item|] eqn:Hi; [|done]. cbn [mbind option_bind] in HE.
    case_decide; [|done]. injection HE as <-. split; [|done]. unfold frames, items. cbn. rewrite !fmap_app.
    rewrite (delete_Permutation (senders p) i item Hi) at 2. cbn. apply Permutation_submseteq. solve_Permutation.
  - unfold enqueueFail in HE. destruct (senders p !! i) as [item|] eqn:Hi; [|done]. injection HE as <-. split; [|done].
    unfold frames, items. cbn. do 2 (apply submseteq_app; [done|]). apply fmap_submseteq, submseteq_app; [done|].
    apply submseteq_app; [done|]. rewrite (delete_Permutation (senders p) i item Hi) at 2. by apply submseteq_cons.
  - destruct (frames_closeStart p) as [-> ->]. done.
  - unfold closeWaited in HE. destruct (closing p) as [[| | |]|]; try done. destruct (senders p) eqn:Hs; [|done].
    injection HE as <-. split; [|done]. unfold frames, items. cbn. by rewrite Hs.
  - destruct (frames_closeFail _ _ HE) as [-> ->]. done.
  - unfold closeDrain in HE. destruct (closing p) as [[| | |]|]; try done.
    destruct (send p) as [|item rest] eqn:Hs; injection HE as <-; rewrite ?reportSendFailure_eq;
      (split; [|done]); unfold frames, items; cbn; rewrite Hs; [done|].
    do 2 (apply submseteq_app; [done|]). apply fmap_submseteq, submseteq_app; [done|]. by apply submseteq_cons.
  - unfold addPending in HE. destruct (chans p !! ch); [done|]. by injection HE as <-.
  - done.
  - by apply frames_onRead.
  - apply frames_control.
Qed.

(** ** Written items are a prefix of the accepted ones *)

Record fifo (p : peer) : Prop := {
  ff_prefix : written p `prefix_of` accepted p;
  ff_open : connected p = true → stopped p = false → accepted p = written p ++ option_list (writing p) ++ send p;
}.

Lemma fifo_new node remote cap : fifo (newPeer node remote cap).
Proof. split; done. Qed.

(** Steps that leave the queue alone. *)
Lemma fifo_same p p' : fifo p →
  written p' = written p → accepted p' = accepted p → 
  (connected p' = true → stopped p' = false → connected p = true ∧ stopped p = false ∧ writing p' = writing p ∧ send p' = send p) →
  fifo p'.
Proof.
  intros [H1 H2] E1 E2 E3. split; rewrite ?E1, ?E2; [done|]. intros Hc Hs. destruct (E3 Hc Hs) as (? & ? & -> & ->). auto.
Qed.

Lemma fifo_closeStart p : (is_Some (closing p) ↔ enqueueClosed p = true) → fifo p → fifo (closeStart p).
Proof.
  intros L F. unfold closeStart. destruct (enqueueClosed p) eqn:Hc; [done|]. apply (fifo_same p); try done.
  unfold connected. by rewrite (open_closing _ _ L eq_refl).
Qed.

Lemma fifo_stop p fl : (is_Some (closing p) ↔ enqueueClosed p = true) → fifo p →
  fifo (closeStart (set_writer p (send p) None true (written p) fl)).
Proof. intros L F. apply fifo_closeStart; [done|]. by apply (fifo_same p). Qed.

Lemma fifo_deliver p ch r p' : deliver p ch r = Some p' → fifo p → fifo p'.
Proof. unfold deliver. destruct (chans p !! ch) as [[|]|]; try done. intros [= <-] F. by apply (fifo_same p). Qed.
Lemma fifo_complete p e p' : complete p e = Some p' → fifo p → fifo p'.
Proof.
  unfold complete. destruct (pending p !! _); [|by intros [= <-]]. intros HE F. eapply fifo_deliver; [exact HE|]. by apply (fifo_same p).
Qed.
Lemma fifo_control p e : ledger p → fifo p → fifo (enqueueControl p e).
Proof.
  intros L F. unfold enqueueControl. destruct (enqueueClosed p); [done|]. case_decide; [by apply (fifo_same p)|].
  apply fifo_closeStart; [apply (lg_closed p L)|done].
Qed.

Lemma fifo_write p ok p' : ledger p → fifo p → write p ok = Some p' → fifo p'.
Proof.
  intros L F HE. unfold write in HE. destruct (writing p) as [item|] eqn:Hw; [|done]. cbn [mbind option_bind] in HE.
  destruct ok; [|injection HE as <-; rewrite reportSendFailure_eq; apply (fifo_closeStart); [apply (lg_closed p L)|by apply (fifo_same p)]].
  destruct (connected p) eqn:Hc; [|done]. injection HE as <-.
  assert (stopped p = false) as Hst by (destruct (stopped p) eqn:Hs; [|done]; destruct (lg_stopped p L Hs); congruence).
  pose proof (ff_open p F Hc Hst) as Ha. rewrite Hw in Ha. simpl in Ha.
  split; cbn; [exists (send p)|intros _ _]; by rewrite Ha, <-app_assoc.
Qed.

Lemma step_fifo p a p' : ledger p → fifo p → step p a = Some p' → fifo p'.
Proof.
  intros L F HE. pose proof L as [L1 L2 L3 L4 L5 L6].
  destruct a as [item|i|i| |ok|ok|id ok| | | | | |id ch|id|e|e]; simpl in HE.
  - injection HE as <-. unfold beginEnqueue. destruct (enqueueClosed p); [done|]. by apply (fifo_same p).
  - unfold enqueueSend in HE. destruct (senders p !! i) as [item|]; [|done]. cbn [mbind option_bind] in HE.
    case_decide; [|done]. injection HE as <-. destruct F as [F1 F2]. split; cbn.
    + destruct F1 as [k ->]. exists (k ++ [item]). by rewrite app_assoc.
    + intros Hc Hs. rewrite (F2 Hc Hs). by rewrite <-!app_assoc.
  - unfold enqueueFail in HE. destruct (senders p !! i); [|done]. injection HE as <-. by apply (fifo_same p).
  - unfold writeTake in HE. destruct (stopped p) eqn:Hst; [done|]. destruct (writing p) eqn:Hw; [done|].
    destruct (send p) as [|item rest] eqn:Hs; [done|]. injection HE as <-. destruct F as [F1 F2]. split; cbn; [done|].
    intros Hc _. by rewrite (F2 Hc Hst), Hw, Hs.
  - by eapply fifo_write.
  - unfold writeControl in HE. destruct (stopped p) eqn:Hst; [done|]. destruct (writing p) eqn:Hw; [done|].
    destruct (control p) as [|c rest]; [done|]. destruct ok.
    + destruct (connected p); [|done]. injection HE as <-. by apply (fifo_same p).
    + injection HE as <-. apply (fifo_stop (set_control p rest)); [done|by apply (fifo_same p)].
  - unfold writePing in HE. destruct (stopped p) eqn:Hst; [done|]. destruct (writing p) eqn:Hw; [done|]. destruct ok.
    + destruct (connected p); [|done]. injection HE as <-. by apply (fifo_same p).
    + injection HE as <-. by apply fifo_stop.
  - unfold writeStop in HE. destruct (writing p); [done|]. destruct (stopped p); [done|]. injection HE as <-. by apply fifo_stop.
  - injection HE as <-. by apply fifo_closeStart.
  - unfold closeWaited in HE. destruct (closing p) as [[| | |]|]; try done. destruct (senders p); [|done].
    injection HE as <-. by apply (fifo_same p).
  - unfold closeFail in HE. destruct (closing p) as [[|[|ch rest]| |]|]; try done; [injection HE as <-; by apply (fifo_same p)|].
    apply bind_Some in HE as (q & Hq & [= <-]). apply (fifo_same q); try done. by eapply fifo_deliver.
  - unfold closeDrain in HE. destruct (closing p) as [[| | |]|] eqn:Hc; try done.
    destruct (send p); injection HE as <-; rewrite ?reportSendFailure_eq; apply (fifo_same p); unfold connected; cbn; try done; by rewrite Hc.
  - unfold addPending in HE. destruct (chans p !! ch); [done|]. injection HE as <-. by apply (fifo_same p).
  - injection HE as <-. by apply (fifo_same p).
  - unfold onRead in HE. case_decide; [injection HE as <-; by apply fifo_closeStart|].
    destruct (kind e); try (by injection HE as <-); try (by eapply fifo_complete).
    + injection HE as <-. by apply fifo_control.
    + case_decide; [by eapply fifo_complete|by injection HE as <-].
  - injection HE as <-. by apply fifo_control.
Qed.

(** ** The frames of the queue among those written *)

(** [Q] tells the frames of the queue from those of the control channel and of the
    ticker. *)
Section queue.
Context (Q : Envelope → Prop) `{!∀ e, Decision (Q e)}.

Record split (p : peer) : Prop := {
  sp_items : Forall (λ i, Q (o_envelope i)) (items p);
  sp_control : Forall (λ e, ¬ Q e) (control p);
  sp_wire : filter Q (wire p) = o_envelope <$> written p;
}.

Lemma split_new node remote cap : split (newPeer node remote cap).
Proof. split; constructor. Qed.

Lemma split_same p p' : split p → items p' ⊆+ items p → control p' ⊆+ control p →
  wire p' = wire p → written p' = written p → split p'.
Proof.
  intros [H1 H2 H3] Hi Hc E1 E2. split; rewrite ?E1, ?E2; [| |done]; apply Forall_forall; intros x Hx.
  - rewrite Forall_forall in H1. apply H1. by eapply elem_of_submseteq.
  - rewrite Forall_forall in H2. apply H2. by eapply elem_of_submseteq.
Qed.

Lemma split_closeStart p : split p → split (closeStart p).
Proof. intros S. apply (split_same p _ S); unfold closeStart; by destruct (enqueueClosed p). Qed.

Lemma split_deliver p ch r p' : deliver p ch r = Some p' → split p → split p'.
Proof. unfold deliver. destruct (chans p !! ch) as [[|]|]; try done. intros [= <-] S. by apply (split_same p _ S). Qed.
Lemma split_complete p e p' : complete p e = Some p' → split p → split p'.
Proof.
  unfold complete. destruct (pending p !! _); [|by intros [= <-]]. intros HE S. eapply split_deliver; [exact HE|]. by apply (split_same p _ S).
Qed.
Lemma split_control p e : ¬ Q e → split p → split (enqueueControl p e).
Proof.
  intros He [S1 S2 S3]. unfold enqueueControl. destruct (enqueueClosed p); [done|]. case_decide; [|by apply split_closeStart].
  split; [done| |done]. apply Forall_app; auto.
Qed.

(** What a step must respect. *)
Definition keeps (p : peer) (a : label) : Prop :=
  match a with
  | LBegin item => Q (o_envelope item)
  | LPing id _ => ¬ Q (header KIND_PING (localNode p) id)
  | LCancel e => ¬ Q e
  | LRead e => ¬ Q (header KIND_PONG (localNode p) (RequestId e))
  | _ => True
  end.

(** The steps of the write loop. *)
Lemma split_loop p a p' :
  match a with LTake | LWrite _ | LControl _ | LPing _ _ | LStop => True | _ => False end →
  split p → keeps p a → step p a = Some p' → split p'.
Proof.
  intros Ha S K HE. destruct a as [| | | |ok|ok|id ok| | | | | | | | |]; try done; simpl in HE, K.
  - unfold writeTake in HE. destruct (stopped p); [done|]. destruct (writing p) eqn:Hw; [done|].
    destruct (send p) as [|item rest] eqn:Hs; [done|]. injection HE as <-. apply (split_same p _ S); try done.
    unfold items. cbn. by rewrite Hw, Hs.
  - unfold write in HE. destruct (writing p) as [item|] eqn:Hw; [|done]. cbn [mbind option_bind] in HE.
    pose proof S as [S1 S2 S3]. unfold items in S1. rewrite Hw in S1. apply Forall_cons in S1 as [Hq S1]. destruct ok.
    + destruct (connected p); [|done]. injection HE as <-. split; cbn; [done..|].
      rewrite filter_app, S3, fmap_app. by rewrite filter_cons_True.
    + injection HE as <-. rewrite reportSendFailure_eq. apply split_closeStart. by split.
  - unfold writeControl in HE. destruct (stopped p); [done|]. destruct (writing p) eqn:Hw; [done|].
    destruct (control p) as [|c rest] eqn:Hc; [done|]. pose proof S as [S1 S2 S3]. rewrite Hc in S2.
    apply Forall_cons in S2 as [Hq S2]. destruct ok.
    + destruct (connected p); [|done]. injection HE as <-. split; cbn; [done..|].
      by rewrite filter_app, S3, filter_cons_False, filter_nil, app_nil_r.
    + injection HE as <-. apply split_closeStart. split; [|done..]. unfold items in *. cbn. by rewrite Hw in S1.
  - unfold writePing in HE. destruct (stopped p); [done|]. destruct (writing p) eqn:Hw; [done|]. pose proof S as [S1 S2 S3]. destruct ok.
    + destruct (connected p); [|done]. injection HE as <-. split; cbn; [done..|].
      by rewrite filter_app, S3, filter_cons_False, filter_nil, app_nil_r.
    + injection HE as <-. apply split_closeStart, (split_same p _ S); try done. unfold items. cbn. by rewrite Hw.
  - unfold writeStop in HE. destruct (writing p) eqn:Hw; [done|]. destruct (stopped p); [done|]. injection HE as <-.
    apply split_closeStart, (split_same p _ S); try done. unfold items. cbn. by rewrite Hw.
Qed.

Lemma step_split p a p' : split p → keeps p a → step p a = Some p' → split p'.
Proof.
  intros S K. destruct a as [item|i|i| |ok|ok|id ok| | | | | |id ch|id|e|e]; try (by apply split_loop); simpl in K |- *; intros HE.
  - injection HE as <-. unfold beginEnqueue. destruct (enqueueClosed p); [done|]. destruct S as [S1 S2 S3].
    split; [|done..]. unfold items in *. cbn. rewrite app_assoc in S1. rewrite app_assoc. rewrite app_assoc. apply Forall_app; auto.
  - unfold enqueueSend in HE. destruct (senders p !! i) as [item|] eqn:Hi; [|done]. cbn [mbind option_bind] in HE.
    case_decide; [|done]. injection HE as <-. apply (split_same p _ S); try done. unfold items. cbn.
    rewrite (delete_Permutation (senders p) i item Hi) at 2. apply Permutation_submseteq. solve_Permutation.
  - unfold enqueueFail in HE. destruct (senders p !! i) as [item|] eqn:Hi; [|done]. injection HE as <-.
    apply (split_same p _ S); try done. unfold items. cbn. do 2 (apply submseteq_app; [done|]).
    rewrite (delete_Permutation (senders p) i item Hi) at 2. by apply submseteq_cons.
  - injection HE as <-. by apply split_closeStart.
  - unfold closeWaited in HE. destruct (closing p) as [[| | |]|]; try done. destruct (senders p) eqn:Hs; [|done].
    injection HE as <-. apply (split_same p _ S); try done.
  - unfold closeFail in HE. destruct (closing p) as [[|[|ch rest]| |]|]; try done; [injection HE as <-; by apply (split_same p _ S)|].
    apply bind_Some in HE as (q & Hq & [= <-]). apply (split_same q); try done. by eapply split_deliver.
  - unfold closeDrain in HE. destruct (closing p) as [[| | |]|]; try done.
    destruct (send p) as [|item rest] eqn:Hs; injection HE as <-; rewrite ?reportSendFailure_eq; apply (split_same p _ S); try done.
    unfold items. cbn. rewrite Hs. apply submseteq_app; [done|]. by apply submseteq_cons.
  - unfold addPending in HE. destruct (chans p !! ch); [done|]. injection HE as <-. by apply (split_same p _ S).
  - injection HE as <-. by apply (split_same p _ S).
  - unfold onRead in HE. case_decide; [injection HE as <-; by apply split_closeStart|].
    destruct (kind e); try (by injection HE as <-); try (by eapply split_complete).
    + injection HE as <-. by apply split_control.
    + case_decide; [by eapply split_complete|by injection HE as <-].
  - injection HE as <-. by apply split_control.
Qed.
End queue.

(** ** Results come from frames that were read *)

Lemma step_pending p a p' id ch : step p a = Some p' → pending p' !! id = Some ch →
  pending p !! id = Some ch ∨ a = LAddPending id ch.
Proof.
  assert (∀ q, pending (closeStart q) = pending q) as Hcs by (intros q; unfold closeStart; by destruct (enqueueClosed q)).
  assert (∀ e, pending (enqueueControl p e) = pending p) as Hec
    by (intros e; unfold enqueueControl; destruct (enqueueClosed p); [done|]; case_decide; [done|apply Hcs]).
  assert (∀ q c r q', deliver q c r = Some q' → pending q' = pending q) as Hd
    by (intros q c r q'; unfold deliver; destruct (chans q !! c) as [[|]|]; try done; by intros [= <-]).
  assert (∀ e q', complete p e = Some q' → pending q' !! id = Some ch → pending p !! id = Some ch) as Hco.
  { intros e q'. unfold complete. destruct (pending p !! RequestId e); [|by intros [= <-]].
    intros ->%Hd. cbn. by intros [_ ?]%lookup_delete_Some. }
  destruct a as [item|i|i| |ok|ok|id' ok| | | | | |id' ch'|id'|e|e]; simpl; intros HE; try (injection HE as <-).
  - unfold beginEnqueue. destruct (enqueueClosed p); auto.
  - unfold enqueueSend in HE. destruct (senders p !! i); [|done]. simpl in HE. case_decide; [|done]. injection HE as <-. auto.
  - unfold enqueueFail in HE. destruct (senders p !! i); [|done]. injection HE as <-. auto.
  - unfold writeTake in HE. repeat case_match; try done. injection HE as <-. auto.
  - unfold write in HE. destruct (writing p); [|done]. cbn [mbind option_bind] in HE. destruct ok; [destruct (connected p); [|done]|];
      injection HE as <-; rewrite ?reportSendFailure_eq, ?Hcs; auto.
  - unfold writeControl in HE. destruct (stopped p); [done|]. destruct (writing p); [done|]. destruct (control p); [done|].
    destruct ok; [destruct (connected p); [|done]|]; injection HE as <-; rewrite ?Hcs; auto.
  - unfold writePing in HE. destruct (stopped p); [done|]. destruct (writing p); [done|].
    destruct ok; [destruct (connected p); [|done]|]; injection HE as <-; rewrite ?Hcs; auto.
  - unfold writeStop in HE. destruct (writing p); [done|]. destruct (stopped p); [done|]. injection HE as <-. rewrite Hcs. auto.
  - rewrite Hcs. auto.
  - unfold closeWaited in HE. repeat case_match; try done. injection HE as <-. cbn. by rewrite lookup_empty.
  - unfold closeFail in HE. destruct (closing p) as [[|[|c rest]| |]|]; try done; [injection HE as <-; auto|].
    apply bind_Some in HE as (q & Hq%Hd & [= <-]). cbn. rewrite Hq. auto.
  - unfold closeDrain in HE. repeat case_match; try done; injection HE as <-; rewrite ?reportSendFailure_eq; auto.
  - unfold addPending in HE. destruct (chans p !! ch'); [done|]. injection HE as <-. cbn.
    intros [[-> ->]|[_ ?]]%lookup_insert_Some; auto.
  - cbn. intros [_ ?]%lookup_delete_Some. auto.
  - unfold onRead in HE. case_decide; [injection HE as <-; rewrite Hcs; auto|].
    destruct (kind e); try (injection HE as <-; rewrite ?Hec; by auto); try (left; by eapply Hco).
    case_decide; [left; by eapply Hco|injection HE as <-; auto].
  - rewrite Hec. auto.
Qed.

(** Where a result in a channel comes from. *)
Definition origin (p : peer) (a : label) (k : nat) (r : peerResult) : Prop :=
  (∃ rs, chans p !! k = Some rs ∧ r ∈ rs) ∨ (∃ s, r = ResultError s) ∨
  ∃ e, a = LRead e ∧ r = ResultEnvelope e ∧ pending p !! RequestId e = Some k.

Definition chansFrom (p : peer) (a : label) (p' : peer) : Prop :=
  ∀ k rs, chans p' !! k = Some rs →
    (is_Some (chans p !! k) ∨ ∃ id, a = LAddPending id k) ∧ ∀ r, r ∈ rs → origin p a k r.

Lemma chansFrom_same p a p' : chans p' = chans p → chansFrom p a p'.
Proof. intros E k rs. rewrite E. intros Hk. split; [left; by eexists|]. intros r Hr. left. eauto. Qed.

Lemma chansFrom_deliver p q a ch r q' :
  chans q = chans p → deliver q ch r = Some q' → origin p a ch r → chansFrom p a q'.
Proof.
  intros E Hd Hr k rs. unfold deliver in Hd. destruct (chans q !! ch) as [[|]|] eqn:Hc; try done. injection Hd as <-.
  cbn. rewrite E. intros [[<- <-]|[_ Hk]]%lookup_insert_Some.
  - split; [left; exists []; by rewrite <-E|]. by intros r' ->%list_elem_of_singleton.
  - split; [left; by eexists|]. intros r' Hr'. left. eauto.
Qed.

Lemma chansFrom_complete p e p' : complete p e = Some p' → chansFrom p (LRead e) p'.
Proof.
  unfold complete. destruct (pending p !! RequestId e) as [ch|] eqn:Hp; [|intros [= <-]; by apply chansFrom_same].
  intros Hd. eapply chansFrom_deliver; [|exact Hd|]; [done|]. right; right. eauto.
Qed.

Lemma step_chans p a p' : step p a = Some p' → chansFrom p a p'.
Proof.
  assert (∀ q, chans (closeStart q) = chans q) as Hcs by (intros q; unfold closeStart; by destruct (enqueueClosed q)).
  assert (∀ e, chans (enqueueControl p e) = chans p) as Hec
    by (intros e; unfold enqueueControl; destruct (enqueueClosed p); [done|]; case_decide; [done|apply Hcs]).
  destruct a as [item|i|i| |ok|ok|id ok| | | | | |id ch|id|e|e]; simpl; intros HE;
    try (injection HE as <-; apply chansFrom_same; rewrite ?Hcs, ?Hec; done).
  - injection HE as <-. apply chansFrom_same. unfold beginEnqueue. by destruct (enqueueClosed p).
  - unfold enqueueSend in HE. destruct (senders p !! i); [|done]. simpl in HE. case_decide; [|done]. injection HE as <-. by apply chansFrom_same.
  - unfold enqueueFail in HE. destruct (senders p !! i); [|done]. injection HE as <-. by apply chansFrom_same.
  - unfold writeTake in HE. repeat case_match; try done. injection HE as <-. by apply chansFrom_same.
  - unfold write in HE. destruct (writing p); [|done]. cbn [mbind option_bind] in HE. destruct ok; [destruct (connected p); [|done]|];
      injection HE as <-; rewrite ?reportSendFailure_eq; apply chansFrom_same; by rewrite ?Hcs.
  - unfold writeControl in HE. destruct (stopped p); [done|]. destruct (writing p); [done|]. destruct (control p); [done|].
    destruct ok; [destruct (connected p); [|done]|]; injection HE as <-; apply chansFrom_same; by rewrite ?Hcs.
  - unfold writePing in HE. destruct (stopped p); [done|]. destruct (writing p); [done|].
    destruct ok; [destruct (connected p); [|done]|]; injection HE as <-; apply chansFrom_same; by rewrite ?Hcs.
  - unfold writeStop in HE. destruct (writing p); [done|]. destruct (stopped p); [done|]. injection HE as <-.
    apply chansFrom_same. by rewrite Hcs.
  - unfold closeWaited in HE. repeat case_match; try done. injection HE as <-. by apply chansFrom_same.
  - unfold closeFail in HE. destruct (closing p) as [[|[|c rest]| |]|]; try done; [injection HE as <-; by apply chansFrom_same|].
    apply bind_Some in HE as (q & Hq & [= <-]).
    pose proof (chansFrom_deliver p p LFail c _ q eq_refl Hq) as Hf. apply Hf. right; left. eauto.
  - unfold closeDrain in HE. repeat case_match; try done; injection HE as <-; rewrite ?reportSendFailure_eq; by apply chansFrom_same.
  - unfold addPending in HE. destruct (chans p !! ch) eqn:Hch; [done|]. injection HE as <-. intros k rs. cbn.
    intros [[<- <-]|[_ Hk]]%lookup_insert_Some; [split; [right; eauto|set_solver]|].
    split; [left; by eexists|]. intros r Hr. left. eauto.
  - unfold onRead in HE. case_decide; [injection HE as <-; apply chansFrom_same, Hcs|].
    destruct (kind e); try (injection HE as <-; apply chansFrom_same; rewrite ?Hec; done); try (by apply chansFrom_complete).
    case_decide; [by apply chansFrom_complete|injection HE as <-; by apply chansFrom_same].
Qed.

(** ** What is written stays written *)

Lemma step_wire p a p' : step p a = Some p' → wire p `prefix_of` wire p'.
Proof.
  assert (∀ q, wire (closeStart q) = wire q) as Hcs by (intros q; unfold closeStart; by destruct (enqueueClosed q)).
  assert (∀ e, wire (enqueueControl p e) = wire p) as Hec
    by (intros e; unfold enqueueControl; destruct (enqueueClosed p); [done|]; case_decide; [done|apply Hcs]).
  assert (∀ q c r q', deliver q c r = Some q' → wire q' = wire q) as Hd
    by (intros q c r q'; unfold deliver; destruct (chans q !! c) as [[|]|]; try done; by intros [= <-]).
  assert (∀ e q', complete p e = Some q' → wire q' = wire p) as Hco
    by (intros e q'; unfold complete; destruct (pending p !! _); [intros Hq; by rewrite (Hd _ _ _ _ Hq)|by intros [= <-]]).
  destruct a as [item|i|i| |ok|ok|id ok| | | | | |id ch|id|e|e]; simpl; intros HE;
    try (injection HE as <-; rewrite ?Hcs, ?Hec; done).
  - injection HE as <-. unfold beginEnqueue. by destruct (enqueueClosed p).
  - unfold enqueueSend in HE. destruct (senders p !! i); [|done]. simpl in HE. case_decide; [|done]. by injection HE as <-.
  - unfold enqueueFail in HE. destruct (senders p !! i); [|done]. by injection HE as <-.
  - unfold writeTake in HE. repeat case_match; try done. by injection HE as <-.
  - unfold write in HE. destruct (writing p); [|done]. cbn [mbind option_bind] in HE.
    destruct ok; [destruct (connected p); [|done]|]; injection HE as <-; rewrite ?reportSendFailure_eq, ?Hcs; [by apply prefix_app_r|done].
  - unfold writeControl in HE. destruct (stopped p); [done|]. destruct (writing p); [done|]. destruct (control p); [done|].
    destruct ok; [destruct (connected p); [|done]|]; injection HE as <-; rewrite ?Hcs; [by apply prefix_app_r|done].
  - unfold writePing in HE. destruct (stopped p); [done|]. destruct (writing p); [done|].
    destruct ok; [destruct (connected p); [|done]|]; injection HE as <-; rewrite ?Hcs; [by apply prefix_app_r|done].
  - unfold writeStop in HE. destruct (writing p); [done|]. destruct (stopped p); [done|]. injection HE as <-. by rewrite Hcs.
  - unfold closeWaited in HE. repeat case_match; try done. by injection HE as <-.
  - unfold closeFail in HE. destruct (closing p) as [[|[|c rest]| |]|]; try done; [by injection HE as <-|].
    apply bind_Some in HE as (q & Hq & [= <-]). cbn. by rewrite (Hd _ _ _ _ Hq).
  - unfold closeDrain in HE. repeat case_match; try done; injection HE as <-; by rewrite ?reportSendFailure_eq.
  - unfold addPending in HE. destruct (chans p !! ch); [done|]. by injection HE as <-.
  - unfold onRead in HE. case_decide; [injection HE as <-; by rewrite Hcs|].
    destruct (kind e); try (injection HE as <-; rewrite ?Hec; done); try (by rewrite (Hco _ _ HE)).
    case_decide; [by rewrite (Hco _ _ HE)|by injection HE as <-].
Qed.

End PeerWire.
