(* ===== verification/Client.v ===== *)
(** * The sending side of a node (src/cluster/node.go: Call, Send, ResolveTarget,
    request, sendCancel; drain.go: FlushOutgoing; context.go)

    A task is a goroutine in one of these functions that was given a connection: it
    registers a request, hands its envelope to the write loop and waits. Steps are its
    critical sections and channel operations; they interleave with those of [Peer]. *)

From S2P Require Import Prelude System Dispatch Wire Peer.

Module Client.
Import Wire.
#[local] Open Scope string_scope.
#[local] Open Scope list_scope.
#[local] Open Scope Z_scope.

(** ** Commands and their envelopes *)

(** What the functions read of their context: the trace identifier (empty if there is
    none) and the deadline. *)
Record context := Ctx { traceID : string; deadline : option Z }.

(** WithTraceID and TraceIDFromContext. *)
Definition WithTraceID (ctx : context) (trace : string) : context := Ctx trace (deadline ctx).
Definition TraceIDFromContext (ctx : context) : option string :=
  if decide (traceID ctx = "") then None else Some (traceID ctx).

Inductive command :=
  | CallCommand (target : System.RemoteTarget) (protocol fingerprint : string) (payload : list Z) (path : list Dispatch.CallFrame)
  | ResolveCommand (service : string)
  | SendCommand (target : System.RemoteTarget) (protocol fingerprint : string) (payload : list Z) (path : list Dispatch.CallFrame) (nonBlocking : bool)
  | FlushCommand.

Definition admissionBarrierProtocol : string := "__skygo_admission_barrier_v1".

(** Version, source and number are set by request for a call, by the function itself
    otherwise; [id] is zero for a notification. *)
Definition envelopeOf (node : string) (ctx : context) (id : Z) (cmd : command) : Envelope :=
  let due := default 0 (deadline ctx) in
  let trace := default "" (TraceIDFromContext ctx) in
  match cmd with
  | CallCommand t protocol fp payload path =>
      Env protocolVersion KIND_CALL id node "" 0 [] [] (Some (toWireTarget t)) "" protocol fp due (toWirePath path) payload None trace
  | ResolveCommand service =>
      Env protocolVersion KIND_RESOLVE_REQUEST id node "" 0 [] [] None service "" "" 0 [] [] None trace
  | SendCommand t protocol fp payload path _ =>
      Env protocolVersion KIND_SEND 0 node "" 0 [] [] (Some (toWireTarget t)) "" protocol fp due (toWirePath path) payload None trace
  | FlushCommand =>
      Env protocolVersion KIND_PING id node "" 0 [] [] None "" admissionBarrierProtocol "" 0 [] [] None ""
  end.

Definition isSend (cmd : command) : bool := match cmd with SendCommand _ _ _ _ _ _ => true | _ => false end.
Definition isFlush (cmd : command) : bool := match cmd with FlushCommand => true | _ => false end.

(** The item given to enqueue. *)
Definition itemOf (cmd : command) (e : Envelope) : Peer.outbound :=
  match cmd with
  | SendCommand t protocol _ _ _ _ => Peer.Out e t protocol true
  | _ => Peer.Out e (System.Target "" "" "" 0 0) "" false
  end.

(** The incarnation a command insists on; the empty one of a request matches any. *)
Definition rightIncarnation (cmd : command) (remote : string) : bool :=
  match cmd with
  | CallCommand t _ _ _ _ => bool_decide (System.t_Incarnation t = "" ∨ System.t_Incarnation t = remote)
  | SendCommand t _ _ _ _ _ => bool_decide (System.t_Incarnation t = remote)
  | _ => true
  end.

(** ** Errors and results *)

Inductive error :=
  | EUnavailable | EStale | ETimeout | EBackpressure
  | EContext (deadline : bool)
  | ENotFound | ENoBarrier | EDisconnected.

(** An error of this node, or one the other node answered. *)
Inductive callError := ELocal (e : error) | ERemote (e : RemoteError).

(** A notification returns no envelope. *)
Notation outcome := (result error (option Envelope)).

(** What the caller makes of the envelope of the answer. *)
Definition callResult (o : outcome) : result callError (list Z) :=
  match o with
  | Err e => Err (ELocal e)
  | Ok None => Ok []
  | Ok (Some r) => match decodeError (Error r) with Some e => Err (ERemote e) | None => Ok (Payload r) end
  end.

Definition resolveResult (o : outcome) : result callError System.RemoteTarget :=
  match o with
  | Err e => Err (ELocal e)
  | Ok None => Err (ELocal ENotFound)
  | Ok (Some r) =>
      match decodeError (Error r) with
      | Some e => Err (ERemote e)
      | None => match Target r with Some t => Ok (fromWireTarget (Some t)) | None => Err (ELocal ENotFound) end
      end
  end.

(** Call and Send of a target on the node itself do not use the network: they go to
    DispatchRemote if the incarnation is the present one. *)
Inductive route := Local | Remote.
Definition routeOf (node incarnation : string) (t : System.RemoteTarget) : result error route :=
  if decide (System.t_Node t = node)
  then if decide (System.t_Incarnation t = incarnation) then Ok Local else Err EStale
  else Ok Remote.

(** ** Tasks *)

Inductive phase :=
  | Added
  | Enqueuing
  | Waiting
  | Removing (o : outcome) (cancel : bool)
  | Canceling (o : outcome)
  | Returned (o : outcome).

Record task := Task { t_cmd : command; t_id : Z; t_env : Envelope; t_phase : phase }.

(** [requests] counts the calls of nextRequest.Add; the channel of a task has the
    number of the task; [reads] records what the read loop was given. *)
Record client := Client {
  remoteIncarnation : string;
  requests : Z;
  tasks : list task;
  peer : Peer.peer;
  reads : list Envelope;
}.

Definition newClient (node remote incarnation : string) (cap : nat) : client :=
  Client incarnation 0 [] (Peer.newPeer node remote cap) [].

Definition set_task (c : client) (k : nat) (t : task) (f : phase) (p : Peer.peer) : client :=
  Client (remoteIncarnation c) (requests c) (<[k := Task (t_cmd t) (t_id t) (t_env t) f]> (tasks c)) p (reads c).
Definition add_task (c : client) (n : Z) (t : task) (p : Peer.peer) : client :=
  Client (remoteIncarnation c) n (tasks c ++ [t]) p (reads c).
Definition set_peer (c : client) (p : Peer.peer) (n : Z) (rs : list Envelope) : client :=
  Client (remoteIncarnation c) n (tasks c) p rs.

(** A task gets its connection: it checks the incarnation, takes a number and
    registers its channel. *)
Definition start (c : client) (cmd : command) (ctx : context) : option client :=
  let node := Peer.localNode (peer c) in
  if negb (rightIncarnation cmd (remoteIncarnation c))
  then Some (add_task c (requests c) (Task cmd 0 (envelopeOf node ctx 0 cmd) (Returned (Err EStale))) (peer c))
  else if isSend cmd
  then Some (add_task c (requests c) (Task cmd 0 (envelopeOf node ctx 0 cmd) Added) (peer c))
  else
    let n := requests c + 1 in
    let id := u64 n in
    p ← Peer.addPending (peer c) id (length (tasks c));
    Some (add_task c n (Task cmd id (envelopeOf node ctx id cmd) Added) p).

(** enqueue: beginEnqueue. *)
Definition begin (c : client) (k : nat) (t : task) : option client :=
  match t_phase t with
  | Added =>
      let '(p, ok) := Peer.beginEnqueue (peer c) (itemOf (t_cmd t) (t_env t)) in
      Some (set_task c k t (if ok then Enqueuing
                            else if isSend (t_cmd t) then Returned (Err EUnavailable)
                            else Removing (Err EUnavailable) false) p)
  | _ => None
  end.

(** enqueue: the item at place [i] of the senders goes into the queue. *)
Definition enqueue (c : client) (k : nat) (t : task) (i : nat) : option client :=
  match t_phase t with
  | Enqueuing =>
      item ← Peer.senders (peer c) !! i;
      if decide (Peer.o_envelope item = t_env t) then
        p ← Peer.enqueueSend (peer c) i;
        Some (set_task c k t (if isSend (t_cmd t) then Returned (Ok None) else Waiting) p)
      else None
  | _ => None
  end.

(** enqueue returns an error: the peer is closed, the context is done, or the queue is
    full and the sender does not wait. *)
Inductive refusal := PeerClosed | ContextDone (deadline : bool) | QueueFull.

Definition refused (c : client) (cmd : command) (why : refusal) : option error :=
  let nonBlocking := match cmd with SendCommand _ _ _ _ _ b => b | _ => false end in
  match why with
  | PeerClosed => if Peer.isClosed (peer c) then Some EUnavailable else None
  | ContextDone d => if nonBlocking then None else Some (if d && isSend cmd then EBackpressure else EContext d)
  | QueueFull => if nonBlocking then Some EBackpressure else None
  end.

Definition enqueueFail (c : client) (k : nat) (t : task) (i : nat) (why : refusal) : option client :=
  match t_phase t with
  | Enqueuing =>
      item ← Peer.senders (peer c) !! i;
      if decide (Peer.o_envelope item = t_env t) then
        e ← refused c (t_cmd t) why;
        p ← Peer.enqueueFail (peer c) i;
        Some (set_task c k t (if isSend (t_cmd t) then Returned (Err e) else Removing (Err e) false) p)
      else None
  | _ => None
  end.

(** The select of request and of FlushOutgoing: a result has come, ... *)
Definition outcomeOf (cmd : command) (r : Peer.peerResult) : outcome :=
  match r with
  | Peer.ResultError _ => Err EUnavailable
  | Peer.ResultEnvelope e =>
      if isFlush cmd && bool_decide (Protocol e ≠ admissionBarrierProtocol) then Err ENoBarrier else Ok (Some e)
  end.

Definition receive (c : client) (k : nat) (t : task) : option client :=
  match t_phase t, Peer.chans (peer c) !! k with
  | Waiting, Some (r :: _) => Some (set_task c k t (Returned (outcomeOf (t_cmd t) r)) (peer c))
  | _, _ => None
  end.

(** ... the context or the timer is done, ... *)
Definition giveUp (c : client) (k : nat) (t : task) (timeout : bool) : option client :=
  match t_phase t with
  | Waiting =>
      Some (set_task c k t (if isFlush (t_cmd t) then Removing (Err (EContext timeout)) false
                            else Removing (Err (if timeout then ETimeout else EContext false)) true) (peer c))
  | _ => None
  end.

(** ... or the peer is closed, which FlushOutgoing does not look at. *)
Definition peerDone (c : client) (k : nat) (t : task) : option client :=
  match t_phase t with
  | Waiting =>
      if Peer.isClosed (peer c) && negb (isFlush (t_cmd t))
      then Some (set_task c k t (Removing (Err EUnavailable) false) (peer c)) else None
  | _ => None
  end.

(** removePending, then sendCancel if a call is given up. *)
Definition remove (c : client) (k : nat) (t : task) : option client :=
  match t_phase t with
  | Removing o cancel =>
      Some (set_task c k t (if cancel then Canceling o else Returned o) (Peer.removePending (peer c) (t_id t)))
  | _ => None
  end.

Definition sendCancel (c : client) (k : nat) (t : task) : option client :=
  match t_phase t with
  | Canceling o =>
      let p := peer c in
      Some (set_task c k t (Returned o) (Peer.enqueueControl p (header KIND_CANCEL (Peer.localNode p) (t_id t))))
  | _ => None
  end.

(** The other goroutines of the connection. *)
Inductive inner := Take | Write (ok : bool) | Control (ok : bool) | Ping (ok : bool) | Stop | Close | Waited | Fail | Drain | Read (e : Envelope).

Definition innerStep (c : client) (a : inner) : option client :=
  let go a := p ← Peer.step (peer c) a; Some (set_peer c p (requests c) (reads c)) in
  match a with
  | Take => go Peer.LTake
  | Write ok => go (Peer.LWrite ok)
  | Control ok => go (Peer.LControl ok)
  | Ping ok =>
      let n := requests c + 1 in
      p ← Peer.writePing (peer c) (u64 n) ok; Some (set_peer c p n (reads c))
  | Stop => go Peer.LStop
  | Close => go Peer.LClose
  | Waited => go Peer.LWaited
  | Fail => go Peer.LFail
  | Drain => go Peer.LDrain
  | Read e => p ← Peer.onRead (peer c) e; Some (set_peer c p (requests c) (reads c ++ [e]))
  end.

Inductive label :=
  | LStart (cmd : command) (ctx : context)
  | LBegin (k : nat)
  | LEnqueue (k i : nat)
  | LEnqueueFail (k i : nat) (why : refusal)
  | LReceive (k : nat)
  | LGiveUp (k : nat) (timeout : bool)
  | LPeerDone (k : nat)
  | LRemove (k : nat)
  | LSendCancel (k : nat)
  | LNumber
  | LInner (a : inner).

(** [LNumber]: a request on another connection takes a number. *)
Definition step (c : client) (a : label) : option client :=
  match a with
  | LStart cmd ctx => start c cmd ctx
  | LBegin k => t ← tasks c !! k; begin c k t
  | LEnqueue k i => t ← tasks c !! k; enqueue c k t i
  | LEnqueueFail k i why => t ← tasks c !! k; enqueueFail c k t i why
  | LReceive k => t ← tasks c !! k; receive c k t
  | LGiveUp k timeout => t ← tasks c !! k; giveUp c k t timeout
  | LPeerDone k => t ← tasks c !! k; peerDone c k t
  | LRemove k => t ← tasks c !! k; remove c k t
  | LSendCancel k => t ← tasks c !! k; sendCancel c k t
  | LNumber => Some (set_peer c (peer c) (requests c + 1) (reads c))
  | LInner a => innerStep c a
  end.

Notation steps := (runs step).

(** FlushOutgoing collects the connections of the slots; a lane that was used and has
    lost its connection cannot be flushed. *)
Fixpoint flushPeers (slots : list (option nat * bool)) : result error (list nat) :=
  match slots with
  | [] => Ok []
  | (None, true) :: _ => Err EDisconnected
  | (None, false) :: slots => flushPeers slots
  | (Some p, _) :: slots => ps ← flushPeers slots; Ok (p :: ps)
  end.

Lemma flushPeers_spec slots :
  flushPeers slots = if existsb (λ x, bool_decide (x = (None, true))) slots then Err EDisconnected else Ok (omap fst slots).
Proof.
  induction slots as [|[[p|] used] slots IH]; [done|..]; cbn [flushPeers existsb].
  - rewrite IH. cbn. by destruct (existsb _ slots).
  - destruct used; cbn; [done|]. rewrite IH. done.
Qed.

End Client.
