(* ===== verification/ClientProps.v ===== *)
(** * Requests of a connection and their results

    Request numbers are unique, every numbered frame of a connection belongs to one
    task or is a heartbeat, and a task only gets the answer with its own number. *)

From S2P Require Import Prelude System Dispatch Wire Peer PeerWire Client.

Module ClientProps.
Import Wire Client.

(** ** Frames with a number *)

Definition numbered (e : Envelope) : Prop :=
  kind e = KIND_CALL ∨ kind e = KIND_RESOLVE_REQUEST ∨ kind e = KIND_PING.
#[global] Instance numbered_dec e : Decision (numbered e).
Proof. unfold numbered. apply _. Defined.

(** The frames that go through the send queue. *)
Definition queued (e : Envelope) : Prop :=
  kind e = KIND_CALL ∨ kind e = KIND_RESOLVE_REQUEST ∨ kind e = KIND_SEND ∨
  (kind e = KIND_PING ∧ Protocol e = admissionBarrierProtocol).
#[global] Instance queued_dec e : Decision (queued e).
Proof. unfold queued. apply _. Defined.

Lemma envelope_queued node ctx id cmd : queued (envelopeOf node ctx id cmd).
Proof. unfold queued. destruct cmd; cbn; auto. Qed.
Lemma envelope_id node ctx id cmd : (isSend cmd = true → id = 0) → RequestId (envelopeOf node ctx id cmd) = id.
Proof. destruct cmd; cbn; auto. intros ->; done. Qed.
Lemma envelope_numbered node ctx id cmd : numbered (envelopeOf node ctx id cmd) ↔ isSend cmd = false.
Proof. unfold numbered. destruct cmd; cbn; naive_solver. Qed.

(** ** Tasks *)

Record tasksOk (node : string) (n : Z) (ts : list task) : Prop := {
  tk_env k t : ts !! k = Some t →
    (∃ ctx, t_env t = envelopeOf node ctx (t_id t) (t_cmd t)) ∧ 0 ≤ t_id t ≤ n ∧ (isSend (t_cmd t) = true → t_id t = 0);
  tk_inj k k' t t' : ts !! k = Some t → ts !! k' = Some t' → t_id t = t_id t' → t_id t ≠ 0 → k = k';
}.

Lemma task_id node n ts k t : tasksOk node n ts → ts !! k = Some t → RequestId (t_env t) = t_id t.
Proof. intros [H _] Ht. destruct (H k t Ht) as ([ctx ->] & _ & Hs). by apply envelope_id. Qed.
Lemma task_queued node n ts k t : tasksOk node n ts → ts !! k = Some t → queued (t_env t).
Proof. intros [H _] Ht. destruct (H k t Ht) as ([ctx ->] & _). apply envelope_queued. Qed.

Lemma task_sourced node n ts k t : tasksOk node n ts → ts !! k = Some t → Version (t_env t) = protocolVersion ∧ SourceNode (t_env t) = node.
Proof. intros [H _] Ht. destruct (H k t Ht) as ([ctx ->] & _). by destruct (t_cmd t). Qed.

(** A task with another phase. *)
Definition with_phase (t : task) (f : phase) : task := Task (t_cmd t) (t_id t) (t_env t) f.

Lemma lookup_phase (ts : list task) k t f k' t' :
  ts !! k = Some t → <[k := with_phase t f]> ts !! k' = Some t' →
  ∃ t0, ts !! k' = Some t0 ∧ t_cmd t' = t_cmd t0 ∧ t_id t' = t_id t0 ∧ t_env t' = t_env t0 ∧
        ((k' = k ∧ t_phase t' = f) ∨ (k' ≠ k ∧ t' = t0)).
Proof.
  intros Hk. rewrite list_lookup_insert_Some. intros [(-> & <- & _)|[Hne Hk']].
  - exists t. split_and!; auto.
  - exists t'. split_and!; auto.
Qed.

Lemma tasksOk_phase node n ts k t f : ts !! k = Some t → tasksOk node n ts → tasksOk node n (<[k := with_phase t f]> ts).
Proof.
  intros Hk [H1 H2]. split.
  - intros k' t' (t0 & Ht & -> & -> & -> & _)%(lookup_phase _ _ _ _ _ _ Hk). by eapply H1.
  - intros k1 k2 t1 t2 (t1' & Ht1 & _ & -> & _)%(lookup_phase _ _ _ _ _ _ Hk) (t2' & Ht2 & _ & -> & _)%(lookup_phase _ _ _ _ _ _ Hk).
    by eapply H2.
Qed.

Lemma tasksOk_more node n n' ts : n ≤ n' → tasksOk node n ts → tasksOk node n' ts.
Proof. intros Hn [H1 H2]. split; [|done]. intros k t (? & ? & ?)%H1. split_and!; [done|lia..|done]. Qed.

Lemma tasksOk_new node n n' ts t ctx :
  tasksOk node n ts → t_env t = envelopeOf node ctx (t_id t) (t_cmd t) →
  t_id t = 0 ∨ (n < t_id t ≤ n' ∧ isSend (t_cmd t) = false) → 0 ≤ n ≤ n' →
  tasksOk node n' (ts ++ [t]).
Proof.
  intros [H1 H2] He Hid Hn. split.
  - intros k t'. rewrite lookup_app_Some, list_lookup_singleton_Some. intros [(? & ? & ?)%H1|(_ & _ & <-)].
    + split_and!; [done|lia..|done].
    + split_and!; [by eexists|lia..|]. intros Hs. destruct Hid as [?|[_ ?]]; congruence.
  - assert (∀ k t', ts !! k = Some t' → t_id t' = t_id t → t_id t' ≠ 0 → False) as Hno by (intros k t' (_ & ? & _)%H1; lia).
    intros k k' t1 t2. rewrite !lookup_app_Some, !list_lookup_singleton_Some.
    intros [Hk|(? & ? & <-)] [Hk'|(? & ? & <-)] Hi Hz; [by eapply H2| | |lia].
    + by destruct (Hno k t1 Hk Hi Hz).
    + destruct (Hno k' t2 Hk'); congruence.
Qed.

(** ** Frames *)

Definition heartbeat (n : Z) (ts : list task) (e : Envelope) : Prop :=
  kind e = KIND_PING ∧ Protocol e = "" ∧ 0 < RequestId e ≤ n ∧ ∀ k t, ts !! k = Some t → t_id t ≠ RequestId e.

Record tracked (n : Z) (ts : list task) (fs : list Envelope) : Prop := {
  tr_source e : e ∈ fs → numbered e → heartbeat n ts e ∨ ∃ k t, ts !! k = Some t ∧ t_env t = e ∧ t_id t ≠ 0;
  tr_nodup : NoDup (RequestId <$> filter numbered fs);
  tr_fresh k t e : ts !! k = Some t → t_phase t = Added → t_id t ≠ 0 → e ∈ fs → numbered e → RequestId e ≠ t_id t;
}.

Lemma NoDup_submseteq {A} (l k : list A) : l ⊆+ k → NoDup k → NoDup l.
Proof. intros (m & Hk)%submseteq_Permutation. rewrite Hk. by intros (? & _)%NoDup_app. Qed.

Lemma filter_submseteq_mono {A} (P : A → Prop) `{!∀ x, Decision (P x)} (l k : list A) : l ⊆+ k → filter P l ⊆+ filter P k.
Proof. intros (m & Hk)%submseteq_Permutation. rewrite Hk, filter_app. by apply submseteq_inserts_r. Qed.

Lemma tracked_sub n ts fs fs' : fs' ⊆+ fs → tracked n ts fs → tracked n ts fs'.
Proof.
  intros Hs [H1 H2 H3]. split.
  - intros e He. apply H1. by eapply elem_of_submseteq.
  - eapply NoDup_submseteq; [|exact H2]. by apply fmap_submseteq, filter_submseteq_mono.
  - intros k t e Ht Ha Hz He. eapply H3; try done. by eapply elem_of_submseteq.
Qed.

Lemma tracked_plain n ts e fs : ¬ numbered e → tracked n ts fs → tracked n ts (e :: fs).
Proof.
  intros Hn [H1 H2 H3]. split.
  - intros x [->|Hx]%elem_of_cons; [done|auto].
  - by rewrite filter_cons_False.
  - intros k t x Ht Ha Hz [->|Hx]%elem_of_cons; [done|]. by apply (H3 k t x).
Qed.

Lemma tracked_phase n ts fs k t f : ts !! k = Some t → f ≠ Added → tracked n ts fs → tracked n (<[k := with_phase t f]> ts) fs.
Proof.
  intros Hk Hf [H1 H2 H3]. split; [|done|].
  - intros e He Hn. destruct (H1 e He Hn) as [(? & ? & ? & Hb)|(k' & t' & Ht' & He' & Hz)].
    + left. split_and!; try done; try lia. intros k' t' (t0 & Ht0 & _ & -> & _)%(lookup_phase _ _ _ _ _ _ Hk). by eapply Hb.
    + right. destruct (decide (k' = k)) as [->|Hne].
      * simplify_eq. exists k, (with_phase t f). rewrite list_lookup_insert_eq by (by eapply lookup_lt_Some). done.
      * exists k', t'. by rewrite list_lookup_insert_ne.
  - intros k' t' e (t0 & Ht0 & _ & -> & _ & [[-> Hp]|[Hne ->]])%(lookup_phase _ _ _ _ _ _ Hk) Ha; [congruence|]. by eapply H3.
Qed.

(** A task that has not sent its frame does so. *)
Lemma tracked_begin node n ts fs k t :
  tasksOk node n ts → ts !! k = Some t → t_phase t = Added → t_id t ≠ 0 → numbered (t_env t) → tracked n ts fs →
  ∀ f, f ≠ Added → tracked n (<[k := with_phase t f]> ts) (t_env t :: fs).
Proof.
  intros Hok Hk Ha Hz Hnum [H1 H2 H3] f Hf. pose proof (task_id _ _ _ _ _ Hok Hk) as Hid.
  pose proof (tracked_phase n ts fs k t f Hk Hf (Build_tracked _ _ _ H1 H2 H3)) as [G1 G2 G3]. split.
  - intros e [->|He]%elem_of_cons Hn; [|auto]. right. exists k, (with_phase t f).
    rewrite list_lookup_insert_eq by (by eapply lookup_lt_Some). done.
  - rewrite filter_cons_True by done. cbn. constructor; [|done].
    intros (e & He & [Hn Hin]%list_elem_of_filter)%list_elem_of_fmap. apply (H3 k t e Hk Ha Hz Hin Hn). congruence.
  - intros k' t' e Ht' Ha' Hz' [->|He]%elem_of_cons Hn; [|by eapply G3].
    apply (lookup_phase _ _ _ _ _ _ Hk) in Ht' as (t0 & Ht0 & _ & Ei & _ & [[-> Hp]|[Hne ->]]); [congruence|].
    intros Heq. apply Hne. symmetry. eapply (tk_inj _ _ _ Hok k k' t t0); congruence.
Qed.

Lemma tracked_bound node n ts fs e : tasksOk node n ts → tracked n ts fs → e ∈ fs → numbered e → RequestId e ≤ n.
Proof.
  intros Hok [H1 _ _] He Hn. destruct (H1 e He Hn) as [(_ & _ & ? & _)|(k & t & Ht & <- & _)]; [lia|].
  rewrite (task_id _ _ _ _ _ Hok Ht). destruct (tk_env _ _ _ Hok k t Ht) as (_ & ? & _). lia.
Qed.

Lemma tracked_more n n' ts fs : n ≤ n' → tracked n ts fs → tracked n' ts fs.
Proof.
  intros Hn [H1 H2 H3]. split; [|done|done]. intros e He Hnum.
  destruct (H1 e He Hnum) as [(? & ? & ? & ?)|?]; [left|by right]. split_and!; [done|done|lia..|done].
Qed.

Lemma tracked_ping node n ts fs e :
  tasksOk node n ts → tracked n ts fs → 0 ≤ n → kind e = KIND_PING → Protocol e = "" → RequestId e = n + 1 → tracked (n + 1) ts (e :: fs).
Proof.
  intros Hok Htr Hn Hk Hp Hid. pose proof (tracked_more n (n + 1) ts fs ltac:(lia) Htr) as [H1 H2 H3].
  assert (numbered e) as Hnum by (unfold numbered; auto). split.
  - intros x [->|Hx]%elem_of_cons Hx'; [|auto]. left. split_and!; try done; try lia.
    intros k t (_ & ? & _)%(tk_env _ _ _ Hok). lia.
  - rewrite filter_cons_True by done. cbn. constructor; [|done].
    intros (x & Hx & [Hxn Hxi]%list_elem_of_filter)%list_elem_of_fmap. pose proof (tracked_bound _ _ _ _ _ Hok Htr Hxi Hxn). lia.
  - intros k t x Ht Ha Hz [->|Hx]%elem_of_cons Hxn; [|by eapply H3]. destruct (tk_env _ _ _ Hok k t Ht) as (_ & ? & _). lia.
Qed.

Lemma tracked_new node n n' ts fs t :
  tasksOk node n ts → tracked n ts fs → n ≤ n' → t_id t = 0 ∨ n < t_id t → tracked n' (ts ++ [t]) fs.
Proof.
  intros Hok Htr Hn Hid. pose proof (tracked_more n n' ts fs ltac:(lia) Htr) as [H1 H2 H3]. split; [|done|].
  - intros e He Hnum. pose proof (tracked_bound _ _ _ _ _ Hok Htr He Hnum) as Hb. destruct (H1 e He Hnum) as [(? & ? & ? & Hx)|(k & t' & Ht & ? & ?)].
    + left. split_and!; try done; try lia. intros k t' [Hk|[_ Hk]]%lookup_app_Some; [by eapply Hx|].
      apply list_lookup_singleton_Some in Hk as [_ <-]. lia.
    + right. exists k, t'. split; [|done]. by apply lookup_app_l_Some.
  - intros k t' e [Hk|[_ Hk]]%lookup_app_Some Ha Hz He Hnum; [by eapply H3|].
    apply list_lookup_singleton_Some in Hk as [_ <-]. pose proof (tracked_bound _ _ _ _ _ Hok Htr He Hnum). lia.
Qed.

(** ** Results *)

Record linked (ts : list task) (p : Peer.peer) (rs : list Envelope) : Prop := {
  lk_pending id k : Peer.pending p !! id = Some k → ∃ t, ts !! k = Some t ∧ t_id t = id ∧ id ≠ 0;
  lk_chans k l : Peer.chans p !! k = Some l →
    ∃ t, ts !! k = Some t ∧ ∀ e, Peer.ResultEnvelope e ∈ l → RequestId e = t_id t ∧ t_id t ≠ 0 ∧ e ∈ rs;
}.

Definition extends (ts ts' : list task) : Prop := ∀ k t, ts !! k = Some t → ∃ t', ts' !! k = Some t' ∧ t_id t' = t_id t.

Lemma extends_phase ts k t f : ts !! k = Some t → extends ts (<[k := with_phase t f]> ts).
Proof.
  intros Hk k' t' Hk'. destruct (decide (k' = k)) as [->|Hne].
  - simplify_eq. exists (with_phase t f). split; [|done]. apply list_lookup_insert_eq. by eapply lookup_lt_Some.
  - exists t'. by rewrite list_lookup_insert_ne.
Qed.
Lemma extends_app ts t : extends ts (ts ++ [t]).
Proof. intros k t' Hk. exists t'. split; [|done]. by apply lookup_app_l_Some. Qed.
Lemma extends_refl ts : extends ts ts.
Proof. intros k t Hk. eauto. Qed.

Lemma linked_same ts ts' p rs : extends ts ts' → linked ts p rs → linked ts' p rs.
Proof.
  intros He [H1 H2]. split.
  - intros id k (t & (t' & ? & <-)%He & <- & ?)%H1. eauto.
  - intros k l (t & (t' & ? & <-)%He & ?)%H2. eauto.
Qed.

Lemma linked_step ts ts' p b p' rs rs' :
  linked ts p rs → Peer.step p b = Some p' → extends ts ts' → (∀ e, e ∈ rs → e ∈ rs') →
  match b with
  | Peer.LAddPending id k => ∃ t, ts' !! k = Some t ∧ t_id t = id ∧ id ≠ 0
  | Peer.LRead e => e ∈ rs'
  | _ => True
  end →
  linked ts' p' rs'.
Proof.
  intros L HE He Hrs Hb. pose proof (linked_same ts ts' p rs He L) as [H1 H2]. split.
  - intros id k Hk. destruct (PeerWire.step_pending _ _ _ _ _ HE Hk) as [Hp| ->]; [by apply H1|done].
  - intros k l Hk. destruct (PeerWire.step_chans _ _ _ HE k l Hk) as [Hold Hl].
    assert (∃ t, ts' !! k = Some t) as [t Ht].
    { destruct Hold as [[l0 (t & ? & _)%H2]|[id ->]]; [by eauto|]. destruct Hb as (t & ? & _). eauto. }
    exists t. split; [done|]. intros e He'. destruct (Hl _ He') as [(l0 & Hl0 & Hin)|[[? ?]|(x & -> & [= <-] & Hp)]]; [|done|].
    + destruct (H2 k l0 Hl0) as (t0 & Ht0 & Hr). simplify_eq. destruct (Hr e Hin) as (? & ? & ?). auto.
    + destruct (H1 _ _ Hp) as (t0 & Ht0 & Hid & Hz). simplify_eq. split_and!; congruence.
Qed.

(** ** The invariant *)

Definition yields (f : phase) (e : Envelope) : Prop :=
  match f with
  | Removing (Ok (Some x)) _ | Canceling (Ok (Some x)) | Returned (Ok (Some x)) => x = e
  | _ => False
  end.

Definition outcomeIn (f : phase) : option outcome :=
  match f with Removing o _ | Canceling o | Returned o => Some o | _ => None end.

Record answersOk (ts : list task) (rs : list Envelope) : Prop := {
  an_yields k t e : ts !! k = Some t → yields (t_phase t) e →
    RequestId e = t_id t ∧ t_id t ≠ 0 ∧ e ∈ rs ∧ (isFlush (t_cmd t) = true → Protocol e = admissionBarrierProtocol);
  an_none k t : ts !! k = Some t → outcomeIn (t_phase t) = Some (Ok None) → isSend (t_cmd t) = true;
  an_added k t : ts !! k = Some t → t_phase t = Added → isSend (t_cmd t) = false → t_id t ≠ 0;
}.

Definition sourced (node : string) (e : Envelope) : Prop := Version e = protocolVersion ∧ SourceNode e = node.

Record good (c : client) : Prop := {
  gd_number : 0 ≤ requests c;
  gd_tasks : tasksOk (Peer.localNode (peer c)) (requests c) (tasks c);
  gd_frames : tracked (requests c) (tasks c) (PeerWire.frames (peer c));
  gd_linked : linked (tasks c) (peer c) (reads c);
  gd_answers : answersOk (tasks c) (reads c);
  gd_ledger : Peer.ledger (peer c);
  gd_fifo : PeerWire.fifo (peer c);
  gd_split : PeerWire.split queued (peer c);
  gd_source e : e ∈ PeerWire.frames (peer c) → sourced (Peer.localNode (peer c)) e;
}.

Lemma good_new node remote inc cap : good (newClient node remote inc cap).
Proof. split; try done; [|apply Peer.ledger_new|cbn; set_solver]. split; cbn; [set_solver|constructor|done]. Qed.

(** A step of the client that is a step [b] of its connection. *)
Lemma good_step c c' b :
  good c → Peer.step (peer c) b = Some (peer c') → requests c ≤ requests c' →
  tasksOk (Peer.localNode (peer c)) (requests c') (tasks c') →
  tracked (requests c') (tasks c') (PeerWire.adds (peer c) b ++ PeerWire.frames (peer c)) →
  extends (tasks c) (tasks c') → (∀ e, e ∈ reads c → e ∈ reads c') →
  match b with
  | Peer.LAddPending id k => ∃ t, tasks c' !! k = Some t ∧ t_id t = id ∧ id ≠ 0
  | Peer.LRead e => e ∈ reads c'
  | _ => True
  end →
  PeerWire.keeps queued (peer c) b → answersOk (tasks c') (reads c') →
  (∀ e, e ∈ PeerWire.adds (peer c) b → sourced (Peer.localNode (peer c)) e) → good c'.
Proof.
  intros [G1 G2 G3 G4 G5 G6 G7 G8 G9] HE Hn Ht Htr Hx Hr Hb Hk Ha Hs.
  destruct (PeerWire.step_frames _ _ _ HE) as [Hf Hl]. split; try done.
  - lia.
  - by rewrite Hl.
  - by eapply tracked_sub.
  - by eapply linked_step.
  - by eapply Peer.step_ledger.
  - by eapply PeerWire.step_fifo.
  - by eapply PeerWire.step_split.
  - intros e He. rewrite Hl. apply (elem_of_submseteq _ _ _ He), elem_of_app in Hf as [?|?]; auto.
Qed.

(** A step that leaves the connection alone. *)
Lemma good_still c c' :
  good c → peer c' = peer c → requests c ≤ requests c' →
  tasksOk (Peer.localNode (peer c)) (requests c') (tasks c') →
  tracked (requests c') (tasks c') (PeerWire.frames (peer c)) →
  extends (tasks c) (tasks c') → reads c' = reads c → answersOk (tasks c') (reads c') → good c'.
Proof.
  intros [G1 G2 G3 G4 G5 G6 G7 G8 G9] HE Hn Ht Htr Hx Hr Ha. split; rewrite ?HE; try done; [lia|].
  rewrite Hr. by eapply linked_same.
Qed.

Lemma answers_phase ts rs k t f :
  ts !! k = Some t → f ≠ Added → answersOk ts rs → (outcomeIn f = Some (Ok None) → isSend (t_cmd t) = true) →
  (∀ e, yields f e → RequestId e = t_id t ∧ t_id t ≠ 0 ∧ e ∈ rs ∧ (isFlush (t_cmd t) = true → Protocol e = admissionBarrierProtocol)) →
  answersOk (<[k := with_phase t f]> ts) rs.
Proof.
  intros Hk Hne [Ha Hc Hb] Ho Hf. split.
  - intros k' t' e Ht'. apply (lookup_phase _ _ _ _ _ _ Hk) in Ht' as (t0 & Ht0 & Ec & Ei & _ & [[-> Hp]|[_ ->]]).
    + rewrite Hp, Ec, Ei. simplify_eq. apply Hf.
    + by eapply Ha.
  - intros k' t' Ht'. apply (lookup_phase _ _ _ _ _ _ Hk) in Ht' as (t0 & Ht0 & Ec & Ei & _ & [[-> Hp]|[_ ->]]); [|by eapply Hc].
    rewrite Hp, Ec. by simplify_eq.
  - intros k' t' Ht'. apply (lookup_phase _ _ _ _ _ _ Hk) in Ht' as (t0 & Ht0 & Ec & Ei & _ & [[-> Hp]|[_ ->]]); [congruence|by eapply Hb].
Qed.

Lemma answers_new ts rs t :
  answersOk ts rs → (∀ e, ¬ yields (t_phase t) e) → outcomeIn (t_phase t) ≠ Some (Ok None) → (t_phase t = Added → isSend (t_cmd t) = false → t_id t ≠ 0) →
  answersOk (ts ++ [t]) rs.
Proof.
  intros [Ha Hc Hb] Ht Ho Hd. split; intros k t'; [intros e|..]; rewrite lookup_app_Some, list_lookup_singleton_Some;
    intros [Hk|(_ & _ & <-)]; [by eapply Ha| |by eapply Hc|done|by eapply Hb|done].
  intros Hy. by destruct (Ht e).
Qed.

(** A task goes to another phase while the connection makes step [b]. *)
Lemma good_phase c k t f p b :
  good c → tasks c !! k = Some t → Peer.step (peer c) b = Some p → f ≠ Added →
  match b with
  | Peer.LBegin item => item = itemOf (t_cmd t) (t_env t) ∧ t_phase t = Added
  | Peer.LCancel e => kind e = KIND_CANCEL ∧ sourced (Peer.localNode (peer c)) e
  | Peer.LSend _ | Peer.LSendFail _ | Peer.LRemovePending _ => True
  | _ => False
  end →
  (∀ e, yields f e → yields (t_phase t) e) →
  (outcomeIn f = Some (Ok None) → isSend (t_cmd t) = true ∨ outcomeIn (t_phase t) = Some (Ok None)) → good (set_task c k t f p).
Proof.
  intros G Hk HE Hf Hb Hy Ho. pose proof G as [G1 G2 G3 G4 G5 _ _ _ _].
  assert (o_item : Peer.o_envelope (itemOf (t_cmd t) (t_env t)) = t_env t) by (by destruct (t_cmd t)).
  eapply (good_step c _ b); try done; cbn [requests tasks peer reads set_task].
  - by apply tasksOk_phase.
  - pose proof (tracked_phase _ _ _ _ _ f Hk Hf G3) as Htr.
    destruct b as [item|i|i| |ok|ok|id ok| | | | | |id ch|id|e|e]; try done; cbn [PeerWire.adds app]; [|].
    + destruct Hb as (-> & Ha). pose proof (an_added _ _ G5 k t Hk Ha) as Hz. rewrite o_item.
      destruct (tk_env _ _ _ G2 k t Hk) as ([ctx Hctx] & _ & Hs). destruct (isSend (t_cmd t)) eqn:His.
      * apply tracked_plain; [|done]. rewrite Hctx, envelope_numbered. congruence.
      * eapply tracked_begin; try done; [auto|]. by rewrite Hctx, envelope_numbered.
    + apply tracked_plain; [|done]. unfold numbered. rewrite (proj1 Hb). naive_solver.
  - by apply extends_phase.
  - by destruct b.
  - destruct b as [item|i|i| |ok|ok|id ok| | | | | |id ch|id|e|e]; try done; cbn [PeerWire.keeps].
    + destruct Hb as (-> & _). rewrite o_item. by eapply task_queued.
    + unfold queued. rewrite (proj1 Hb). naive_solver.
  - apply answers_phase; [done..|intros [?|?]%Ho; [done|by eapply (an_none _ _ G5)]|]. intros e He. by apply (an_yields _ _ G5 k t e Hk), Hy.
  - destruct b as [item|i|i| |ok|ok|id ok| | | | | |id ch|id|e|e]; try done; cbn [PeerWire.adds]; try (by intros x Hx; set_solver).
    destruct Hb as (-> & _). rewrite o_item. intros x ->%list_elem_of_singleton. by eapply task_sourced.
Qed.

(** ** Every step preserves it *)

Lemma u64_next n : 0 ≤ n → n + 1 < 2 ^ 64 → u64 (n + 1) = n + 1.
Proof. intros ? ?. apply u64_small. lia. Qed.

Lemma start_good c cmd ctx c' : good c → start c cmd ctx = Some c' → requests c' < 2 ^ 64 → good c'.
Proof.
  intros G HE Hb. pose proof G as [G1 G2 G3 G4 G5 _ _ _ _]. unfold start in HE.
  destruct (negb _) eqn:Hi; [|destruct (isSend cmd) eqn:Hs].
  - injection HE as <-. apply (good_still c); try done; cbn [requests tasks reads add_task].
    + eapply tasksOk_new; [exact G2|done|by left|lia].
    + eapply tracked_new; [exact G2|done|lia|by left].
    + apply extends_app.
    + apply answers_new; [done|by intros e []|done|done].
  - injection HE as <-. apply (good_still c); try done; cbn [requests tasks reads add_task].
    + eapply tasksOk_new; [exact G2|done|by left|lia].
    + eapply tracked_new; [exact G2|done|lia|by left].
    + apply extends_app.
    + apply answers_new; [done|by intros e []|done|]. cbn. congruence.
  - apply bind_Some in HE as (p & HE & [= <-]). cbn [requests add_task] in Hb.
    assert (u64 (requests c + 1) = requests c + 1) as Hu by (by apply u64_next).
    apply (good_step c _ (Peer.LAddPending (u64 (requests c + 1)) (length (tasks c)))); try done; cbn [requests tasks reads add_task PeerWire.adds app].
    + lia.
    + eapply tasksOk_new; [exact G2|done| |lia]. right. cbn. rewrite Hu. split; [lia|done].
    + eapply tracked_new; [exact G2|done|lia|]. right. cbn. lia.
    + apply extends_app.
    + eexists. split; [by apply list_lookup_middle|]. cbn. split; [done|lia].
    + apply answers_new; [done|by intros e []|done|]. cbn. intros _ _. lia.
    + set_solver.
Qed.

Lemma receive_good c k t c' : good c → tasks c !! k = Some t → receive c k t = Some c' → good c'.
Proof.
  intros G Hk HE. pose proof G as [G1 G2 G3 G4 G5 _ _ _ _]. unfold receive in HE.
  destruct (t_phase t) eqn:Hp; try done. destruct (Peer.chans (peer c) !! k) as [[|r rest]|] eqn:Hc; try done. injection HE as <-.
  apply (good_still c); try done; cbn [requests tasks reads set_task].
  - by apply tasksOk_phase.
  - by apply tracked_phase.
  - by apply extends_phase.
  - apply answers_phase; [done..|unfold outcomeOf; destruct r; cbn; [by destruct (_ && _)|done]|].
    intros e. destruct (lk_chans _ _ _ G4 k _ Hc) as (t' & Ht' & Hr). simplify_eq.
    destruct r as [x|]; [|done]. cbn. destruct (isFlush (t_cmd t) && _) eqn:Hf; [done|]. cbn. intros ->.
    destruct (Hr e ltac:(set_solver)) as (? & ? & ?). split_and!; try done. intros Hfl. rewrite Hfl in Hf. cbn in Hf.
    by apply bool_decide_eq_false, dec_stable in Hf.
Qed.

(** The select of a waiting task without a result. *)
Lemma wait_good c k t f : good c → tasks c !! k = Some t → f ≠ Added → (∀ e, ¬ yields f e) → outcomeIn f ≠ Some (Ok None) →
  good (set_task c k t f (peer c)).
Proof.
  intros G Hk Hf Hy Ho. pose proof G as [G1 G2 G3 G4 G5 _ _ _ _].
  apply (good_still c); try done; cbn [requests tasks reads set_task].
  - by apply tasksOk_phase.
  - by apply tracked_phase.
  - by apply extends_phase.
  - apply answers_phase; [done..|intros ?; by destruct Ho|]. intros e He. by destruct (Hy e).
Qed.

Lemma inner_good c a c' : good c → innerStep c a = Some c' → requests c' < 2 ^ 64 → good c'.
Proof.
  intros G HE Hb. pose proof G as [G1 G2 G3 G4 G5 _ _ _ _].
  assert (∀ b p, Peer.step (peer c) b = Some p →
    match b with Peer.LTake | Peer.LWrite _ | Peer.LControl _ | Peer.LStop | Peer.LClose | Peer.LWaited | Peer.LFail | Peer.LDrain => True | _ => False end →
    good (set_peer c p (requests c) (reads c))) as Hgo.
  { intros b p Hs Hl. apply (good_step c _ b); try done;
      [by destruct b|apply extends_refl|by destruct b|by destruct b|destruct b; cbn; set_solver]. }
  destruct a as [|ok|ok|ok| | | | | |e]; unfold innerStep in HE; apply bind_Some in HE as (p & HE & [= <-]); try (by eapply Hgo).
  - cbn in Hb. pose proof (u64_next _ G1 Hb) as Hu. apply (good_step c _ (Peer.LPing (u64 (requests c + 1)) ok)); try done; cbn [requests tasks reads set_peer PeerWire.adds PeerWire.keeps app].
    + lia.
    + eapply tasksOk_more; [|exact G2]. lia.
    + eapply tracked_ping; try done.
    + apply extends_refl.
    + unfold queued. cbn. naive_solver.
    + by intros e ->%list_elem_of_singleton.
  - apply (good_step c _ (Peer.LRead e)); try done; cbn [requests tasks reads set_peer PeerWire.adds PeerWire.keeps app].
    + apply tracked_plain; [|done]. unfold numbered. cbn. naive_solver.
    + apply extends_refl.
    + set_solver.
    + set_solver.
    + unfold queued. cbn. naive_solver.
    + destruct G5 as [G5 ? ?]. split; [|done..]. intros k t x Ht Hx. destruct (G5 k t x Ht Hx) as (? & ? & ? & ?). set_solver.
    + by intros x ->%list_elem_of_singleton.
Qed.

Lemma task_good c a k t c' : good c → tasks c !! k = Some t →
  match a with
  | LBegin _ => begin c k t | LEnqueue _ i => enqueue c k t i | LEnqueueFail _ i why => enqueueFail c k t i why
  | LRemove _ => remove c k t | LSendCancel _ => sendCancel c k t
  | LGiveUp _ timeout => giveUp c k t timeout | LPeerDone _ => peerDone c k t
  | _ => None
  end = Some c' → good c'.
Proof.
  intros G Hk. destruct a as [|k'|k' i|k' i why| |k' timeout|k'|k'|k'| |]; try done.
  - unfold begin. destruct (t_phase t) eqn:Hp; try done.
    destruct (Peer.beginEnqueue _ _) as [p ok] eqn:HE. intros [= <-].
    apply (good_phase c k t _ p (Peer.LBegin (itemOf (t_cmd t) (t_env t)))); try done.
    + cbn. by rewrite HE.
    + by destruct ok, (isSend (t_cmd t)).
    + intros e. destruct ok, (isSend (t_cmd t)); by intros [].
    + by destruct ok, (isSend (t_cmd t)).
  - unfold enqueue. destruct (t_phase t) eqn:Hp; try done. intros (item & Hi & HE)%bind_Some. case_decide; [|done].
    apply bind_Some in HE as (p & HE & [= <-]). apply (good_phase c k t _ p (Peer.LSend i)); try done; [by destruct (isSend _)|..].
    + intros e. destruct (isSend (t_cmd t)); by intros [].
    + destruct (isSend (t_cmd t)); [by left|done].
  - unfold enqueueFail. destruct (t_phase t) eqn:Hp; try done. intros (item & Hi & HE)%bind_Some. case_decide; [|done].
    apply bind_Some in HE as (er & Her & HE). apply bind_Some in HE as (p & HE & [= <-]).
    apply (good_phase c k t _ p (Peer.LSendFail i)); try done; [by destruct (isSend _)|..].
    + intros e. destruct (isSend (t_cmd t)); by intros [].
    + by destruct (isSend (t_cmd t)).
  - unfold giveUp. destruct (t_phase t); try done. intros [= <-]. apply wait_good; [done..|by destruct (isFlush _)| |by destruct (isFlush _)].
    intros e. destruct (isFlush (t_cmd t)); by intros [].
  - unfold peerDone. destruct (t_phase t); try done. destruct (_ && _); [|done]. intros [= <-]. apply wait_good; try done.
    by intros e [].
  - unfold remove. destruct (t_phase t) as [| | |o cancel| |] eqn:Hp; try done. intros [= <-].
    apply (good_phase c k t _ _ (Peer.LRemovePending (t_id t))); try done; [by destruct cancel|..].
    + intros e. rewrite Hp. by destruct cancel.
    + rewrite Hp. destruct cancel; by right.
  - unfold sendCancel. destruct (t_phase t) as [| | | |o|] eqn:Hp; try done. intros [= <-].
    apply (good_phase c k t _ _ (Peer.LCancel (header KIND_CANCEL (Peer.localNode (peer c)) (t_id t)))); try done.
    + intros e. by rewrite Hp.
    + rewrite Hp. by right.
Qed.

Lemma step_good c a c' : good c → step c a = Some c' → requests c' < 2 ^ 64 → good c'.
Proof.
  intros G HE Hb. pose proof G as [G1 G2 G3 G4 G5 _ _ _ _].
  destruct a as [cmd ctx|k|k i|k i why|k|k timeout|k|k|k| |a]; cbn [step] in HE;
    try (apply bind_Some in HE as (t & Hk & HE)).
  - by eapply start_good.
  - by eapply (task_good c (LBegin k)).
  - by eapply (task_good c (LEnqueue k i)).
  - by eapply (task_good c (LEnqueueFail k i why)).
  - by eapply receive_good.
  - by eapply (task_good c (LGiveUp k timeout)).
  - by eapply (task_good c (LPeerDone k)).
  - by eapply (task_good c (LRemove k)).
  - by eapply (task_good c (LSendCancel k)).
  - injection HE as <-. apply (good_still c); try done; cbn [requests tasks reads set_peer].
    + lia.
    + eapply tasksOk_more; [|exact G2]. lia.
    + eapply tracked_more; [|exact G3]. lia.
    + apply extends_refl.
  - by eapply inner_good.
Qed.

Lemma step_requests c a c' : step c a = Some c' → requests c ≤ requests c'.
Proof.
  destruct a as [cmd ctx|k|k i|k i why|k|k timeout|k|k|k| |a]; cbn [step]; intros HE;
    try (apply bind_Some in HE as (t & _ & HE)).
  - unfold start in HE. destruct (negb _); [injection HE as <-; cbn; lia|]. destruct (isSend cmd); [injection HE as <-; cbn; lia|].
    apply bind_Some in HE as (p & _ & [= <-]). cbn. lia.
  - unfold begin in HE. destruct (t_phase t); try done. destruct (Peer.beginEnqueue _ _). by injection HE as <-.
  - unfold enqueue in HE. destruct (t_phase t); try done. apply bind_Some in HE as (? & _ & HE). case_decide; [|done].
    by apply bind_Some in HE as (p & _ & [= <-]).
  - unfold enqueueFail in HE. destruct (t_phase t); try done. apply bind_Some in HE as (? & _ & HE). case_decide; [|done].
    apply bind_Some in HE as (? & _ & HE). by apply bind_Some in HE as (p & _ & [= <-]).
  - unfold receive in HE. destruct (t_phase t); try done. destruct (Peer.chans _ !! k) as [[|]|]; try done. by injection HE as <-.
  - unfold giveUp in HE. destruct (t_phase t); try done. by injection HE as <-.
  - unfold peerDone in HE. destruct (t_phase t); try done. destruct (_ && _); [|done]. by injection HE as <-.
  - unfold remove in HE. destruct (t_phase t); try done. by injection HE as <-.
  - unfold sendCancel in HE. destruct (t_phase t); try done. by injection HE as <-.
  - injection HE as <-. cbn. lia.
  - destruct a as [|ok|ok|ok| | | | | |e]; unfold innerStep in HE; apply bind_Some in HE as (p & _ & [= <-]); cbn; lia.
Qed.

(** The connection only makes its own steps, and only the read loop reads. *)
Definition readOf (a : label) : list Envelope := match a with LInner (Read e) => [e] | _ => [] end.

Lemma step_peer c a c' : step c a = Some c' →
  (peer c' = peer c ∨ ∃ b, Peer.step (peer c) b = Some (peer c')) ∧ reads c' = reads c ++ readOf a.
Proof.
  destruct a as [cmd ctx|k|k i|k i why|k|k timeout|k|k|k| |a]; cbn [step readOf]; rewrite ?app_nil_r; intros HE;
    try (apply bind_Some in HE as (t & _ & HE)).
  - unfold start in HE. destruct (negb _); [injection HE as <-; by auto|]. destruct (isSend cmd); [injection HE as <-; by auto|].
    apply bind_Some in HE as (p & Hp & [= <-]). split; [|done]. right. by exists (Peer.LAddPending (u64 (requests c + 1)) (length (tasks c))).
  - unfold begin in HE. destruct (t_phase t); try done. destruct (Peer.beginEnqueue _ _) as [p ok] eqn:Hp. injection HE as <-.
    split; [|done]. right. exists (Peer.LBegin (itemOf (t_cmd t) (t_env t))). cbn. by rewrite Hp.
  - unfold enqueue in HE. destruct (t_phase t); try done. apply bind_Some in HE as (? & _ & HE). case_decide; [|done].
    apply bind_Some in HE as (p & Hp & [= <-]). split; [|done]. right. by exists (Peer.LSend i).
  - unfold enqueueFail in HE. destruct (t_phase t); try done. apply bind_Some in HE as (? & _ & HE). case_decide; [|done].
    apply bind_Some in HE as (? & _ & HE). apply bind_Some in HE as (p & Hp & [= <-]). split; [|done]. right. by exists (Peer.LSendFail i).
  - unfold receive in HE. destruct (t_phase t); try done. destruct (Peer.chans _ !! k) as [[|]|]; try done. injection HE as <-. auto.
  - unfold giveUp in HE. destruct (t_phase t); try done. injection HE as <-. auto.
  - unfold peerDone in HE. destruct (t_phase t); try done. destruct (_ && _); [|done]. injection HE as <-. auto.
  - unfold remove in HE. destruct (t_phase t); try done. injection HE as <-. split; [|done]. right. by exists (Peer.LRemovePending (t_id t)).
  - unfold sendCancel in HE. destruct (t_phase t); try done. injection HE as <-. split; [|done]. right.
    by exists (Peer.LCancel (header KIND_CANCEL (Peer.localNode (peer c)) (t_id t))).
  - injection HE as <-. auto.
  - destruct a as [|ok|ok|ok| | | | | |e]; unfold innerStep in HE; apply bind_Some in HE as (p & Hp & [= <-]); cbn [readOf];
      rewrite ?app_nil_r; (split; [right; eauto|done]).
    + by exists (Peer.LPing (u64 (requests c + 1)) ok).
    + by exists (Peer.LRead e).
Qed.

Lemma step_client_wire c a c' : step c a = Some c' →
  Peer.wire (peer c) `prefix_of` Peer.wire (peer c') ∧ Peer.localNode (peer c') = Peer.localNode (peer c).
Proof.
  intros [[->|[b Hb]] _]%step_peer; [done|]. split; [by eapply PeerWire.step_wire|by eapply PeerWire.step_frames].
Qed.

End ClientProps.
