(* ===== verification/Rpc.v ===== *)
(** * Remote calls from end to end

    The sending side of one node ([Client]) and the receiving side of another
    ([Inbound]) joined by a connection: the frames the write loop wrote reach the read
    loop of acceptConn in their order, the frames the other node wrote reach readLoop.
    A connection may stop delivering at any point.  After a frame of which only a part
    was written the reader takes the next bytes for the rest of it: what it then reads
    is arbitrary. *)

From S2P Require Import Prelude System Dispatch Wire Inbound InboundProps InboundServe InboundLink Peer PeerWire Client ClientProps.

Module Rpc.
Import Wire.
#[local] Open Scope string_scope.
#[local] Open Scope list_scope.
#[local] Open Scope Z_scope.

(** The connection at the receiving node. *)
Definition link : nat := 0.

(** [delivered] and [received] count the frames read on either side; [results] records
    what actors answered to which job, [resolutions] what the system resolved. *)
Record net := Net {
  cl : Client.client;
  sv : Inbound.node;
  delivered : nat;
  received : nat;
  results : list (nat * (list Z * option goError));
  resolutions : list (string * result goError (Z * Z));
}.

(** The frames written by the receiving node, oldest first. *)
Definition stream (n : Inbound.node) : list (Envelope * bool) :=
  from_option (λ c, reverse (Inbound.out c)) [] (Inbound.conns n !! link).

(** The next frame readLoop gets; [other] if a part of a frame came before. *)
Definition nextFrame (s : list (Envelope * bool)) (i : nat) (other : Envelope) : option Envelope :=
  if forallb snd (take (S i) s) then fst <$> s !! i else Some other.

Inductive label :=
  | Sender (a : Client.label)
  | Deliver (resolved : result goError (Z * Z)) (w : Inbound.wrote)
  | Server (a : Inbound.label)
  | Receive (other : Envelope).

(** The steps of either node that are not about the frames of this connection. *)
Definition ownSender (a : Client.label) : bool := match a with Client.LInner (Client.Read _) => false | _ => true end.
Definition ownServer (a : Inbound.label) : bool :=
  match a with Inbound.LAccept c _ | Inbound.LFrame c _ _ _ => negb (Nat.eqb c link) | _ => true end.

Definition step (n : net) (a : label) : option net :=
  match a with
  | Sender a =>
      if ownSender a then c ← Client.step (cl n) a; Some (Net c (sv n) (delivered n) (received n) (results n) (resolutions n)) else None
  | Deliver r w =>
      e ← Peer.wire (Client.peer (cl n)) !! delivered n;
      s ← Inbound.onFrame (sv n) link e r w;
      Some (Net (cl n) s (S (delivered n)) (received n) (results n) (InboundLink.resolved e r ++ resolutions n))
  | Server a =>
      if ownServer a then
        s ← Inbound.step (sv n) a;
        Some (Net (cl n) s (delivered n) (received n) (InboundLink.finished (sv n) a ++ results n) (resolutions n))
      else None
  | Receive other =>
      e ← nextFrame (stream (sv n)) (received n) other;
      c ← Client.step (cl n) (Client.LInner (Client.Read e));
      Some (Net c (sv n) (delivered n) (S (received n)) (results n) (resolutions n))
  end.

Notation steps := (runs step).

(** The handshake is over: the receiving node [remote] knows who the sender is. *)
Definition start (node remote inc : string) (cap shards : nat) (queue calls : Z) : net :=
  let s := Inbound.newInboundDispatcher remote inc shards queue calls in
  Net (Client.newClient node remote inc cap)
      (Inbound.set_conns s {[ link := Inbound.Conn node 0 0 ∅ false ∅ false [] ]}) 0 0 [] [].

(** The caller has read no frame behind one that was written in part.  The other node can
    go on writing after a failed write (the refusals of the dispatcher and the pongs do
    not look at the error), so it is a condition and not a fact. *)
Definition intact (n : net) : Prop := forallb snd (take (received n) (stream (sv n))) = true.

(** The jobs a request became. *)
Definition jobOf (n : net) (t : Client.task) (j : nat) : Prop :=
  ∃ x, Inbound.jobs (sv n) !! j = Some x ∧ Inbound.j_conn x = link ∧ Inbound.j_env x = Client.t_env t.

(** ** The invariant *)

Section proofs.
Context (node remote inc : string) (cap shards : nat) (queue calls : Z).

Record ok (n : net) : Prop := {
  ok_client : ClientProps.good (cl n);
  ok_node : Peer.localNode (Client.peer (cl n)) = node;
  ok_framed : InboundServe.framed (sv n);
  ok_adm : InboundProps.adm_inv (sv n);
  ok_delivered : (delivered n <= length (Peer.wire (Client.peer (cl n))))%nat;
  ok_link : InboundLink.linkInv link remote inc node (sv n) (take (delivered n) (Peer.wire (Client.peer (cl n)))) (results n) (resolutions n);
  ok_reads e : intact n → e ∈ Client.reads (cl n) → (e, true) ∈ stream (sv n);
}.

Lemma stream_grows s s' : InboundLink.grows link s s' → is_Some (Inbound.conns s !! link) →
  stream s `prefix_of` stream s'.
Proof.
  intros Hg [conn Hc]. destruct (Hg conn Hc) as (conn' & Hc' & [k Hk]). unfold stream. rewrite Hc, Hc'. cbn.
  exists (reverse k). by rewrite Hk, reverse_app.
Qed.

Lemma intact_prefix (s s' : list (Envelope * bool)) i j : s `prefix_of` s' → (i <= j)%nat →
  forallb snd (take j s') = true → forallb snd (take i s) = true.
Proof.
  intros [m ->] Hij. rewrite !forallb_forall. intros H x Hx. apply H. apply list_elem_of_In in Hx. apply list_elem_of_In.
  apply elem_of_take in Hx as (k & Hk & ?). apply elem_of_take. exists k. split; [by apply lookup_app_l_Some|lia].
Qed.

Lemma nextFrame_intact s i other e : forallb snd (take (S i) s) = true → nextFrame s i other = Some e → (e, true) ∈ s.
Proof.
  intros Hs. unfold nextFrame. rewrite Hs. intros ([e' b] & Hi & ->)%fmap_Some. apply list_elem_of_lookup_2 in Hi as Hin.
  rewrite forallb_forall in Hs. specialize (Hs (e', b)). cbn in Hs |- *. rewrite Hs in Hin; [done|].
  apply list_elem_of_In, elem_of_take. exists i. split; [done|lia].
Qed.

Lemma ok_start : 0 ≤ queue → 0 ≤ calls → ok (start node remote inc cap shards queue calls).
Proof.
  intros Hq Hc. set (s := Inbound.newInboundDispatcher remote inc shards queue calls).
  split; cbn [cl sv delivered received results resolutions start].
  - apply ClientProps.good_new.
  - done.
  - intros x. cbn. set_solver.
  - apply (InboundProps.step_adm s (Inbound.LAccept link node)); [apply InboundServe.start_adm|]. done.
  - cbn. lia.
  - split_and!; [done..|]. eexists. split; [by apply lookup_insert_eq|]. split; cbn; try done; set_solver.
  - cbn. set_solver.
Qed.

(** A step of the sender. *)
Lemma ok_sender n c a k : ok n → Client.step (cl n) a = Some c → Client.requests c < 2 ^ 64 → (received n <= k)%nat →
  (∀ e, e ∈ ClientProps.readOf a → forallb snd (take k (stream (sv n))) = true → (e, true) ∈ stream (sv n)) →
  ok (Net c (sv n) (delivered n) k (results n) (resolutions n)).
Proof.
  intros [O1 O2 O3 O4 O5 O6 O7] HE Hb Hk Hr. destruct (ClientProps.step_client_wire _ _ _ HE) as [Hw Hl].
  destruct (ClientProps.step_peer _ _ _ HE) as [_ Hrd].
  split; cbn [cl sv delivered received results resolutions]; try done.
  - by eapply ClientProps.step_good.
  - congruence.
  - apply prefix_length in Hw. lia.
  - destruct Hw as [m ->]. by rewrite take_app_le.
  - intros e Hw'. rewrite Hrd. intros [?|?]%elem_of_app; [|by apply Hr]. apply O7; [|done]. by apply (intact_prefix _ (stream (sv n)) _ k).
Qed.

Lemma ok_step n a n' : ok n → step n a = Some n' → Client.requests (cl n') < 2 ^ 64 → ok n'.
Proof.
  intros O HE Hb. pose proof O as [O1 O2 O3 O4 O5 O6 O7]. pose proof O6 as (_ & _ & conn & Hconn & _).
  destruct a as [a|r w|a|other]; cbn [step] in HE.
  - destruct (ownSender a) eqn:Ha; [|done]. apply bind_Some in HE as (c & HE & [= <-]). eapply ok_sender; try done.
    intros e He. destruct a as [| | | | | | | | | |[]]; set_solver.
  - apply bind_Some in HE as (e & He & HE). apply bind_Some in HE as (s & HE & [= <-]).
    assert (stream (sv n) `prefix_of` stream s) as Hst by (apply stream_grows; [by eapply InboundLink.grows_frame|by eexists]).
    destruct (ClientProps.gd_source _ O1 e) as [Hv Hs].
    { unfold PeerWire.frames. apply elem_of_app. left. by eapply list_elem_of_lookup_2. }
    split; cbn [cl sv delivered received results resolutions]; try done.
    + by apply (InboundServe.step_framed (sv n) (Inbound.LFrame link e r w)).
    + by eapply InboundProps.onFrame_inv.
    + apply lookup_lt_Some in He. lia.
    + rewrite (take_S_r _ _ e) by done. eapply InboundLink.link_frame; try done. congruence.
    + intros x Hw Hx. assert ((x, true) ∈ stream (sv n)) as Hin by (apply O7; [by apply (intact_prefix _ (stream s) _ (received n))|done]).
      destruct Hst as [m ->]. apply elem_of_app. by left.
  - destruct (ownServer a) eqn:Ha; [|done]. apply bind_Some in HE as (s & HE & [= <-]).
    assert (stream (sv n) `prefix_of` stream s) as Hst by (apply stream_grows; [by eapply InboundLink.grows_step|by eexists]).
    split; cbn [cl sv delivered received results resolutions]; try done.
    + by eapply InboundServe.step_framed.
    + by eapply InboundProps.step_adm.
    + eapply InboundLink.link_step; try done. destruct a; try done; cbn in Ha; by apply negb_true_iff, Nat.eqb_neq in Ha.
    + intros x Hw Hx. assert ((x, true) ∈ stream (sv n)) as Hin by (apply O7; [by apply (intact_prefix _ (stream s) _ (received n))|done]).
      destruct Hst as [m ->]. apply elem_of_app. by left.
  - apply bind_Some in HE as (e & He & HE). apply bind_Some in HE as (c & HE & [= <-]). eapply ok_sender; try done; [lia|].
    cbn. intros x ->%list_elem_of_singleton Hw. by eapply nextFrame_intact.
Qed.

Lemma net_step_requests n a n' : step n a = Some n' → Client.requests (cl n) ≤ Client.requests (cl n').
Proof.
  destruct a as [a|r w|a|other]; cbn [step].
  - destruct (ownSender a); [|done]. intros (c & HE & [= <-])%bind_Some. by eapply ClientProps.step_requests.
  - intros (e & _ & HE)%bind_Some. by apply bind_Some in HE as (s & _ & [= <-]).
  - destruct (ownServer a); [|done]. by intros (s & _ & [= <-])%bind_Some.
  - intros (e & _ & HE)%bind_Some. apply bind_Some in HE as (c & HE & [= <-]). by eapply ClientProps.step_requests.
Qed.

Lemma ok_steps l n n' : ok n → steps n l = Some n' → Client.requests (cl n') < 2 ^ 64 → ok n'.
Proof.
  revert n. induction l as [|a l IH]; intros n O; cbn [runs]; [by intros [= <-]|].
  intros (n1 & HE & Hl)%bind_Some Hb. eapply IH; [|done..]. eapply ok_step; [done..|].
  enough (Client.requests (cl n1) ≤ Client.requests (cl n')) by lia.
  clear -Hl. revert n1 Hl. induction l as [|b l IH]; intros n1; cbn [runs]; [by intros [= <-]|].
  intros (n2 & HE & Hl)%bind_Some. apply net_step_requests in HE. specialize (IH _ Hl). lia.
Qed.

(** ** Answers *)

Lemma delivered_frame n f : f ∈ take (delivered n) (Peer.wire (Client.peer (cl n))) → f ∈ PeerWire.frames (Client.peer (cl n)).
Proof.
  intros (i & Hi & _)%elem_of_take. unfold PeerWire.frames. apply elem_of_app. left. by eapply list_elem_of_lookup_2.
Qed.

(** A numbered frame with the number of a task is the request of that task. *)
Lemma request_frame n k t f : ok n → Client.tasks (cl n) !! k = Some t → Client.t_id t ≠ 0 →
  f ∈ PeerWire.frames (Client.peer (cl n)) → ClientProps.numbered f → RequestId f = Client.t_id t → f = Client.t_env t.
Proof.
  intros O Ht Hz Hf Hn Hid. pose proof (ok_client n O) as G.
  destruct (ClientProps.tr_source _ _ _ (ClientProps.gd_frames _ G) f Hf Hn) as [(_ & _ & _ & Hno)|(k' & t' & Ht' & He & Hz')].
  - destruct (Hno k t Ht). done.
  - pose proof (ClientProps.task_id _ _ _ _ _ (ClientProps.gd_tasks _ G) Ht') as Hid'.
    assert (k' = k) as -> by (eapply (ClientProps.tk_inj _ _ _ (ClientProps.gd_tasks _ G)); try done; congruence).
    congruence.
Qed.

(** The work the receiving node knows of came over the connection. *)
Lemma job_frame n j s f : ok n → InboundLink.cards (sv n) !! j = Some (link, s, f) →
  f ∈ take (delivered n) (Peer.wire (Client.peer (cl n))) ∧ InboundLink.work f.
Proof.
  intros O Hj. pose proof (ok_link n O) as (_ & _ & conn & _ & Hi).
  assert ((link, s, f) ∈ filter (λ x, x.1.1 = link) (InboundLink.cards (sv n))) as Hin
    by (apply list_elem_of_filter; split; [done|by eapply list_elem_of_lookup_2]).
  rewrite (InboundLink.iv_jobs _ _ _ _ _ _ _ _ _ _ _ Hi) in Hin. apply elem_of_lookup_imap in Hin as (i & e & [= -> ->] & He).
  by apply list_elem_of_lookup_2, list_elem_of_filter in He as [? ?].
Qed.

Lemma card_job n t j s : InboundLink.cards (sv n) !! j = Some (link, s, Client.t_env t) → jobOf n t j.
Proof.
  unfold InboundLink.cards. rewrite list_lookup_fmap. intros (x & Hx & [= Hc Hs He])%fmap_Some. exists x. auto.
Qed.

(** The frame a task got is explained by the other node. *)
Lemma answer_explained n k t e : ok n → intact n → Client.tasks (cl n) !! k = Some t → ClientProps.yields (Client.t_phase t) e →
  RequestId e = Client.t_id t ∧ Client.t_id t ≠ 0 ∧
  (Client.isFlush (Client.t_cmd t) = true → Protocol e = Client.admissionBarrierProtocol) ∧
  ∃ conn, Inbound.conns (sv n) !! link = Some conn ∧
    InboundLink.explained link remote inc (InboundLink.cards (sv n)) (Inbound.admissionDone conn)
      (take (delivered n) (Peer.wire (Client.peer (cl n)))) (results n) (resolutions n) e.
Proof.
  intros O Hw Ht He. destruct (ClientProps.an_yields _ _ (ClientProps.gd_answers _ (ok_client n O)) k t e Ht He) as (Hid & Hz & Hr & Hf).
  split_and!; [done..|]. pose proof (ok_link n O) as (_ & _ & conn & Hc & Hi). exists conn. split; [done|].
  apply (InboundLink.iv_out _ _ _ _ _ _ _ _ _ _ _ Hi (e, true)).
  pose proof (ok_reads n O e Hw Hr) as Hin. unfold stream in Hin. rewrite Hc in Hin. cbn [from_option] in Hin. exact (proj1 (elem_of_reverse _ _) Hin).
Qed.

Lemma nodup_filter_inj {A B} (P : A → Prop) `{!∀ x, Decision (P x)} (f : A → B) (l : list A) i j x y :
  NoDup (f <$> filter P l) → l !! i = Some x → l !! j = Some y → P x → P y → f x = f y → i = j.
Proof.
  revert i j. induction l as [|a l IH]; intros i j Hn Hi Hj Hx Hy Hf; [done|]. rewrite filter_cons in Hn.
  assert (∀ z, P a → z ∈ l → P z → f a ≠ f z) as Hhd.
  { intros z Ha Hz Hpz E. rewrite decide_True in Hn by done. apply NoDup_cons in Hn as [Hn _]. apply Hn.
    apply list_elem_of_fmap. exists z. split; [done|]. by apply list_elem_of_filter. }
  destruct i as [|i], j as [|j]; simplify_eq/=; [done|..].
  - destruct (Hhd y); try done. by eapply list_elem_of_lookup_2.
  - destruct (Hhd x); try done. by eapply list_elem_of_lookup_2.
  - f_equal. eapply IH; try done. case_decide; [|done]. by apply NoDup_cons in Hn as [_ ?].
Qed.

Lemma filter_impl {A} (P Q : A → Prop) `{!∀ x, Decision (P x), !∀ x, Decision (Q x)} (l : list A) :
  (∀ x, P x → Q x) → filter P l ⊆+ filter Q l.
Proof.
  intros HPQ. induction l as [|a l IH]; [done|]. rewrite !filter_cons. destruct (decide (P a)) as [HP|].
  - rewrite decide_True by auto. by apply submseteq_skip.
  - case_decide; [by apply submseteq_cons|done].
Qed.

Lemma cards_calls es m :
  (λ y : nat * Z * Envelope, RequestId y.2) <$> filter (λ y : nat * Z * Envelope, kind y.2 = KIND_CALL)
    (imap (λ i e, (link, Z.of_nat (S (m + i)), e)) es) = RequestId <$> filter (λ e, kind e = KIND_CALL) es.
Proof.
  revert m. induction es as [|e es IH]; intros m; [done|]. rewrite imap_cons, !filter_cons.
  rewrite (imap_ext _ (λ i e, (link, Z.of_nat (S (S m + i)), e))) by (intros; cbn; repeat f_equal; lia).
  case_decide as H1; case_decide as H2; cbn [snd] in H1; try done; by rewrite ?fmap_cons, IH.
Qed.

(** A request becomes at most one job. *)
Lemma job_once n k t j j' : ok n → Client.tasks (cl n) !! k = Some t → kind (Client.t_env t) = KIND_CALL → jobOf n t j → jobOf n t j' → j = j'.
Proof.
  intros O Ht Hk (x & Hx & Hc & He) (x' & Hx' & Hc' & He'). pose proof (ok_link n O) as (_ & _ & conn & _ & Hi).
  set (P := λ y : nat * Z * Envelope, y.1.1 = link ∧ kind y.2 = KIND_CALL).
  eapply (nodup_filter_inj P (λ y, RequestId y.2) (InboundLink.cards (sv n)) j j' (InboundLink.cardOf x) (InboundLink.cardOf x'));
    [|by apply InboundLink.cards_lookup|by apply InboundLink.cards_lookup|split; cbn; congruence|split; cbn; congruence|cbn; congruence].
  assert (filter P (InboundLink.cards (sv n)) = filter (λ y, kind y.2 = KIND_CALL) (filter (λ y, y.1.1 = link) (InboundLink.cards (sv n)))) as ->.
  { rewrite list_filter_filter. apply list_filter_iff. unfold P. tauto. }
  rewrite (InboundLink.iv_jobs _ _ _ _ _ _ _ _ _ _ _ Hi). set (D := take _ _).
  rewrite (cards_calls (filter InboundLink.work D) 0).
  pose proof (ClientProps.tr_nodup _ _ _ (ClientProps.gd_frames _ (ok_client n O))) as Hn.
  eapply ClientProps.NoDup_submseteq; [|exact Hn]. apply fmap_submseteq.
  rewrite list_filter_filter.
  assert (D ⊆+ PeerWire.frames (Client.peer (cl n))) as HD
    by (etrans; [apply sublist_submseteq, sublist_take|]; unfold PeerWire.frames; by apply submseteq_inserts_r).
  etrans; [|by apply ClientProps.filter_submseteq_mono, HD]. apply filter_impl. intros e [He0 _]. by left.
Qed.

(** The kinds of frame a task can get. *)
Lemma call_answer n k t e : ok n → intact n → Client.tasks (cl n) !! k = Some t → ClientProps.yields (Client.t_phase t) e →
  kind (Client.t_env t) = KIND_CALL →
  ∃ j payload err, jobOf n t j ∧ e = Inbound.response remote (Client.t_id t) payload err ∧
    ((j, (payload, err)) ∈ results n ∨ (payload = [] ∧ InboundLink.refusal err)).
Proof.
  intros O Hw Ht He Hk. destruct (answer_explained n k t e O Hw Ht He) as (Hid & Hz & _ & conn & _ & Hx).
  destruct Hx as [j s f payload err Hf Hkf Ha|f r Hf Hkf _|f protocol Hf Hkf _|m f Hf Hkf _ _].
  - cbn in Hid. destruct (job_frame n j s f O Hf) as [Hd _]. 
    assert (f = Client.t_env t) as -> by (eapply request_frame; try done; [by apply delivered_frame|by left]).
    exists j, payload, err. split_and!; [by eapply card_job|by rewrite Hid|done].
  - assert (f = Client.t_env t); [|congruence]. eapply request_frame; try done; [by apply delivered_frame|by right; left|].
    unfold InboundLink.resolveAnswer, Inbound.resolveResponse in Hid. by destruct r as [[]|].
  - assert (f = Client.t_env t); [|congruence]. eapply request_frame; try done; [by apply delivered_frame|by right; right].
  - assert (f = Client.t_env t); [|congruence]. apply list_elem_of_lookup_2 in Hf.
    eapply request_frame; try done; [by apply delivered_frame|by right; right].
Qed.

Lemma resolve_answer n k t e : ok n → intact n → Client.tasks (cl n) !! k = Some t → ClientProps.yields (Client.t_phase t) e →
  kind (Client.t_env t) = KIND_RESOLVE_REQUEST →
  ∃ r, e = InboundLink.resolveAnswer remote inc (Client.t_env t) r ∧ (Service (Client.t_env t), r) ∈ resolutions n.
Proof.
  intros O Hw Ht He Hk. destruct (answer_explained n k t e O Hw Ht He) as (Hid & Hz & _ & conn & _ & Hx).
  destruct Hx as [j s f payload err Hf Hkf _|f r Hf Hkf Ha|f protocol Hf Hkf _|m f Hf Hkf _ _].
  - cbn in Hid. destruct (job_frame n j s f O Hf) as [Hd _].
    assert (f = Client.t_env t); [|congruence]. eapply request_frame; try done; [by apply delivered_frame|by left].
  - assert (f = Client.t_env t) as ->; [|by eauto]. eapply request_frame; try done; [by apply delivered_frame|by right; left|].
    unfold InboundLink.resolveAnswer, Inbound.resolveResponse in Hid. by destruct r as [[]|].
  - assert (f = Client.t_env t); [|congruence]. eapply request_frame; try done; [by apply delivered_frame|by right; right].
  - assert (f = Client.t_env t); [|congruence]. apply list_elem_of_lookup_2 in Hf.
    eapply request_frame; try done; [by apply delivered_frame|by right; right].
Qed.

Lemma ok_reachable l n : 0 ≤ queue → 0 ≤ calls → steps (start node remote inc cap shards queue calls) l = Some n →
  Client.requests (cl n) < 2 ^ 64 → ok n.
Proof. intros ? ? HE Hb. eapply ok_steps; [by apply ok_start|done..]. Qed.

(** C1 (functional): a remote call returns the answer of the actor to that very
    request.  However the goroutines of both nodes interleave, whatever other calls,
    notifications, cancellations, timeouts, refusals and disconnections there are, a
    request carries the target, the protocol, the payload and the call path of the caller
    and reaches the actor as at most one job.  As long as the caller has read no frame
    behind one that the other node wrote in part, bytes that Call returns are what the
    actor answered to that job without error, a remote error is the decoded error of that
    job or of a refusal of it, and a resolved target is what the other node resolved for
    the service asked for, with that node's name and incarnation.  Behind a frame written
    in part the other node may write more, which the caller takes for its rest: that is
    the one case the condition leaves out. *)
Theorem rpc_correct l n k t o :
  0 ≤ queue → 0 ≤ calls → steps (start node remote inc cap shards queue calls) l = Some n →
  Client.requests (cl n) < 2 ^ 64 →
  Client.tasks (cl n) !! k = Some t → Client.t_phase t = Client.Returned o →
  (∃ ctx, Client.t_env t = Client.envelopeOf node ctx (Client.t_id t) (Client.t_cmd t)) ∧
  (kind (Client.t_env t) = KIND_CALL → ∀ j j', jobOf n t j → jobOf n t j' → j = j') ∧
  (intact n →
   match Client.t_cmd t with
   | Client.CallCommand _ _ _ _ _ =>
       match Client.callResult o with
       | Ok payload => ∃ j, jobOf n t j ∧ (j, (payload, None)) ∈ results n
       | Err (Client.ERemote e) =>
           ∃ j err, jobOf n t j ∧ decodeError (encodeError (Some err)) = Some e ∧
             ((∃ payload, (j, (payload, Some err)) ∈ results n) ∨ err = Inbound.errBackpressure ∨ err = Inbound.errStaleRef)
       | Err _ => True
       end
   | Client.ResolveCommand service =>
       match Client.resolveResult o with
       | Ok target =>
           System.t_Node target = remote ∧ System.t_Incarnation target = inc ∧ System.t_Service target = service ∧
           (service, Ok (System.t_Address target, System.t_Generation target)) ∈ resolutions n
       | Err _ => True
       end
   | _ => True
   end).
Proof.
  intros Hq Hc HE Hb Ht Hp. pose proof (ok_reachable l n Hq Hc HE Hb) as O.
  destruct (ClientProps.tk_env _ _ _ (ClientProps.gd_tasks _ (ok_client n O)) k t Ht) as ([ctx Henv] & _). rewrite (ok_node n O) in Henv.
  split_and!; [by exists ctx|intros Hk j j'; by eapply job_once|]. intros Hw.
  pose proof (ClientProps.an_none _ _ (ClientProps.gd_answers _ (ok_client n O)) k t Ht) as Hnone. rewrite Hp in Hnone.
  destruct (Client.t_cmd t) as [target protocol fp payload path|service| |] eqn:Hcmd; try done.
  - destruct o as [[e|]|e]; [|by discriminate (Hnone eq_refl)|done].
    destruct (call_answer n k t e O Hw Ht) as (j & p & err & Hj & -> & Hr); [by rewrite Hp|by rewrite Henv|]. cbn [Client.callResult Error Inbound.response].
    destruct err as [err|]; [|destruct Hr as [?|[_ [?|?]]]; [by exists j|done..]].
    rewrite decode_encode. exists j, err. split_and!; [done|apply decode_encode|].
    destruct Hr as [?|[_ [[= ->]|[= ->]]]]; eauto.
  - destruct o as [[e|]|e]; [|by discriminate (Hnone eq_refl)|done].
    destruct (resolve_answer n k t e O Hw Ht) as (r & -> & Hr); [by rewrite Hp|by rewrite Henv|]. rewrite Henv in Hr. cbn [Service Client.envelopeOf] in Hr.
    unfold Client.resolveResult, InboundLink.resolveAnswer, Inbound.resolveResponse. destruct r as [[address generation]|err].
    + cbn. by rewrite Henv.
    + cbn [Error]. by rewrite decode_encode.
Qed.

(** ** The admission barrier *)

(** The marker of a flush that got its pong is on the wire, and what was written before
    it is admitted. *)
Lemma flush_marker n k t e : ok n → intact n → Client.tasks (cl n) !! k = Some t → ClientProps.yields (Client.t_phase t) e →
  Client.t_cmd t = Client.FlushCommand →
  ∃ m conn, Peer.wire (Client.peer (cl n)) !! m = Some (Client.t_env t) ∧ (m < delivered n)%nat ∧
    Inbound.conns (sv n) !! link = Some conn ∧
    Z.of_nat (length (filter InboundLink.work (take m (Peer.wire (Client.peer (cl n)))))) ≤ Inbound.admissionDone conn.
Proof.
  intros O Hw Ht He Hcmd. destruct (answer_explained n k t e O Hw Ht He) as (Hid & Hz & Hproto & conn & Hc & Hx).
  rewrite Hcmd in Hproto. specialize (Hproto eq_refl).
  destruct Hx as [j s f payload err Hf Hkf _|f r Hf Hkf _|f protocol Hf Hkf Hp|m f Hf Hkf Hp Hm]; try done.
  - unfold InboundLink.resolveAnswer, Inbound.resolveResponse in Hproto. by destruct r as [[]|].
  - assert (m < delivered n)%nat as Hlt by (apply lookup_lt_Some in Hf; rewrite length_take in Hf; lia).
    assert (f = Client.t_env t) as ->.
    { eapply request_frame; try done; [|by right; right]. apply delivered_frame. by eapply list_elem_of_lookup_2. }
    exists m, conn. rewrite lookup_take_lt in Hf by done. rewrite take_take, Nat.min_l in Hm by lia. done.
Qed.

(** The items accepted before a frame of the queue that was written. *)
Lemma written_before p m f : PeerWire.fifo p → PeerWire.split ClientProps.queued p →
  Peer.wire p !! m = Some f → ClientProps.queued f →
  ∃ before item after, Peer.accepted p = before ++ item :: after ∧ Peer.o_envelope item = f ∧
    Peer.o_envelope <$> before = filter ClientProps.queued (take m (Peer.wire p)).
Proof.
  intros [[rest Hpre] _] [_ _ Hw] Hm Hq. rewrite <-(take_drop_middle _ _ _ Hm), filter_app, filter_cons_True in Hw by done.
  symmetry in Hw. apply fmap_app_inv in Hw as (before & later & Hb & Hw & Hl).
  destruct later as [|item later]; [done|]. rewrite fmap_cons in Hw. injection Hw as Hi _.
  exists before, item, (later ++ rest). split_and!; [|done..]. by rewrite Hpre, Hl, <-app_assoc.
Qed.

(** C2 (safety): flushing proves admission.  If the marker that FlushOutgoing puts on
    a connection is answered, the caller having read no frame behind one that the other
    node wrote in part, then every call and notification that was accepted for
    that connection before it has reached the other node, in the order it was accepted,
    and none of them is still waiting there to be handed to its actor. *)
Theorem flush_proves_admission l n k t r :
  0 ≤ queue → 0 ≤ calls → steps (start node remote inc cap shards queue calls) l = Some n →
  Client.requests (cl n) < 2 ^ 64 → intact n →
  Client.tasks (cl n) !! k = Some t → Client.t_cmd t = Client.FlushCommand → Client.t_phase t = Client.Returned (Ok r) →
  ∃ before marker after,
    Peer.accepted (Client.peer (cl n)) = before ++ marker :: after ∧ Peer.o_envelope marker = Client.t_env t ∧
    ∀ i e, filter InboundLink.work (Peer.o_envelope <$> before) !! i = Some e →
      ∃ j x, Inbound.jobs (sv n) !! j = Some x ∧ Inbound.j_conn x = link ∧ Inbound.j_seq x = Z.of_nat (S i) ∧
        Inbound.j_env x = e ∧ j ∉ InboundProps.outstanding (sv n).
Proof.
  intros Hq Hc HE Hb Hw Ht Hcmd Hp. pose proof (ok_reachable l n Hq Hc HE Hb) as O. pose proof (ok_client n O) as G.
  destruct r as [e|]; [|pose proof (ClientProps.an_none _ _ (ClientProps.gd_answers _ G) k t Ht) as Hn; rewrite Hp, Hcmd in Hn; by discriminate (Hn eq_refl)].
  destruct (flush_marker n k t e O Hw Ht) as (m & conn & Hm & Hlt & Hconn & Hdone); [by rewrite Hp|done|].
  destruct (written_before _ m _ (ClientProps.gd_fifo _ G) (ClientProps.gd_split _ G) Hm) as (before & marker & after & Hacc & Hmk & Hbef);
    [by eapply ClientProps.task_queued; [apply (ClientProps.gd_tasks _ G)|]|].
  exists before, marker, after. split_and!; [done..|]. rewrite Hbef. intros i f Hi.
  assert (filter InboundLink.work (filter ClientProps.queued (take m (Peer.wire (Client.peer (cl n))))) =
          filter InboundLink.work (take m (Peer.wire (Client.peer (cl n))))) as Hwq.
  { rewrite list_filter_filter. apply list_filter_iff. intros x. unfold InboundLink.work, ClientProps.queued. tauto. }
  rewrite Hwq in Hi. apply lookup_lt_Some in Hi as Hil.
  pose proof (ok_link n O) as (_ & _ & conn' & Hconn' & Iv). rewrite Hconn in Hconn'. injection Hconn' as <-.
  assert (filter InboundLink.work (take (delivered n) (Peer.wire (Client.peer (cl n)))) !! i = Some f) as Hi'.
  { replace (take (delivered n) (Peer.wire (Client.peer (cl n)))) with
      (take m (Peer.wire (Client.peer (cl n))) ++ drop m (take (delivered n) (Peer.wire (Client.peer (cl n))))).
    - rewrite filter_app. by apply lookup_app_l_Some.
    - rewrite <-(take_drop m (take (delivered n) (Peer.wire (Client.peer (cl n))))) at 2. rewrite take_take, Nat.min_l by lia. done. }
  assert ((link, Z.of_nat (S i), f) ∈ filter (λ x, x.1.1 = link) (InboundLink.cards (sv n))) as Hin.
  { rewrite (InboundLink.iv_jobs _ _ _ _ _ _ _ _ _ _ _ Iv). eapply (list_elem_of_lookup_2 _ i). by rewrite list_lookup_imap, Hi'. }
  apply list_elem_of_filter in Hin as [_ Hin]. apply list_elem_of_fmap in Hin as (x & [= Hxc Hxs Hxe] & [j Hj]%list_elem_of_lookup).
  exists j, x. split_and!; [done..|]. intros Hout.
  destruct (InboundProps.ac_out _ _ _ (ok_adm n O) j Hout) as (c & s & nx & dn & fin & Ho & Hl & Hs & _).
  unfold InboundProps.owners in Ho. rewrite list_lookup_fmap, Hj in Ho. injection Ho as <- <-. rewrite <-Hxc in Hl.
  rewrite (InboundProps.admissions_lookup _ _ _ Hconn) in Hl. injection Hl as <- <- <-. lia.
Qed.

End proofs.

(** ** Instances *)

Definition exampleTarget : System.RemoteTarget := System.Target "b" "i" "s" 1 1.
Definition exampleCtx : Client.context := Client.Ctx "" None.
Definition exampleCall : Client.command := Client.CallCommand exampleTarget "p" "f" [4] [].
Definition exampleSend : Client.command := Client.SendCommand exampleTarget "q" "g" [5] [] false.
Definition exampleLabels : list label :=
  Sender <$> [Client.LStart exampleCall exampleCtx; Client.LBegin 0; Client.LEnqueue 0 0;
              Client.LStart exampleSend exampleCtx; Client.LBegin 1; Client.LEnqueue 1 0;
              Client.LStart Client.FlushCommand exampleCtx; Client.LBegin 2; Client.LEnqueue 2 0;
              Client.LInner Client.Take; Client.LInner (Client.Write true); Client.LInner (Client.Ping true);
              Client.LInner Client.Take; Client.LInner (Client.Write true); Client.LInner Client.Take; Client.LInner (Client.Write true)].
Definition exampleAnswers : list label :=
  [Deliver (Err Inbound.errStaleRef) Inbound.Whole; Deliver (Err Inbound.errStaleRef) Inbound.Whole;
   Server (Inbound.LTake 1); Server (Inbound.LDispatch 1 None Inbound.Whole);
   Deliver (Err Inbound.errStaleRef) Inbound.Whole; Deliver (Err Inbound.errStaleRef) Inbound.Whole;
   Server (Inbound.LTake 1); Server (Inbound.LDispatch 1 None Inbound.Whole);
   Server (Inbound.LFinish 0 (Some ([7], None)) Inbound.Whole); Server (Inbound.LBarrier 0 Inbound.Whole);
   Receive (header KIND_PONG "b" 0); Receive (header KIND_PONG "b" 0); Receive (header KIND_PONG "b" 0);
   Sender (Client.LReceive 0); Sender (Client.LReceive 2)].
Definition exampleStart : net := start "a" "b" "i" 4 2 8 8.
Definition exampleNet : net := default exampleStart (steps exampleStart (exampleLabels ++ exampleAnswers)).
Definition exampleTask (k : nat) : Client.task :=
  default (Client.Task Client.FlushCommand 0 (header KIND_PING "" 0) Client.Added) (Client.tasks (cl exampleNet) !! k).

Lemma rpc_correct_witness :
  (Client.t_phase <$> Client.tasks (cl exampleNet)) !! 0%nat =
    Some (Client.Returned (Ok (Some (Inbound.response "b" 1 [7] None)))) ∧
  ∃ j, jobOf exampleNet (exampleTask 0) j ∧ (j, ([7], None)) ∈ results exampleNet.
Proof.
  split; [vm_compute; reflexivity|].
  refine (proj2 (proj2 (rpc_correct "a" "b" "i" 4 2 8 8 (exampleLabels ++ exampleAnswers) exampleNet 0 (exampleTask 0)
    (Ok (Some (Inbound.response "b" 1 [7] None))) _ _ _ _ _ _)) _); [lia..| | | | |]; vm_compute; reflexivity.
Defined.

Lemma flush_proves_admission_witness :
  ∃ before marker after,
    Peer.accepted (Client.peer (cl exampleNet)) = before ++ marker :: after ∧ Peer.o_envelope marker = Client.t_env (exampleTask 2) ∧
    ∀ i e, filter InboundLink.work (Peer.o_envelope <$> before) !! i = Some e →
      ∃ j x, Inbound.jobs (sv exampleNet) !! j = Some x ∧ Inbound.j_conn x = link ∧ Inbound.j_seq x = Z.of_nat (S i) ∧
        Inbound.j_env x = e ∧ j ∉ InboundProps.outstanding (sv exampleNet).
Proof.
  refine (flush_proves_admission "a" "b" "i" 4 2 8 8 (exampleLabels ++ exampleAnswers) exampleNet 2 (exampleTask 2)
    (Some (Inbound.pong "b" (Client.t_env (exampleTask 2)) Client.admissionBarrierProtocol)) _ _ _ _ _ _ _ _); [lia..| | | | | |].
  all: vm_compute; reflexivity.
Defined.

End Rpc.
