(* ===== verification/Registry.v ===== *)
(** * Registries (src/cluster/registry.go)

    A registry gives validated snapshots of the nodes: a list of endpoints with a
    revision, the digest of the list once it is trimmed and sorted. sort.Slice and the
    digest (JSON, SHA-256, hex) are parameters with what the code relies on. *)

From S2P Require Import Prelude Text.

Module Registry.
Import Text.
#[local] Open Scope string_scope.
#[local] Open Scope list_scope.
#[local] Open Scope Z_scope.

Definition RegistrySchemaVersion : Z := 1.

Record Endpoint := MkEndpoint { NodeID : string; Address : string }.
Record Snapshot := MkSnapshot { SchemaVersion : Z; Revision : string; Nodes : list Endpoint }.

#[global] Instance endpoint_eq_dec : EqDecision Endpoint.
Proof. solve_decision. Defined.

Inductive registryError :=
  | ErrRead | ErrParse
  | ErrSchema (got : Z)
  | ErrIncomplete (i : nat)
  | ErrDuplicate (node : string)
  | ErrRevision (got want : string).

Section registry.
Context (sortNodes : list Endpoint → list Endpoint) (digest : list Endpoint → string).

(** ** Snapshots *)

Definition trimmed (e : Endpoint) : Endpoint := MkEndpoint (TrimSpace (NodeID e)) (TrimSpace (Address e)).

Definition normalized (s : Snapshot) : Snapshot :=
  MkSnapshot (SchemaVersion s) (Revision s) (sortNodes (trimmed <$> Nodes s)).

Definition computedRevision (s : Snapshot) : string := digest (Nodes (normalized s)).

(** The loop of Validate, at node [i] with the names seen. *)
Fixpoint checkNodes (i : nat) (seen : gset string) (nodes : list Endpoint) : option registryError :=
  match nodes with
  | [] => None
  | e :: nodes =>
      let node := TrimSpace (NodeID e) in
      if decide (node = "" ∨ TrimSpace (Address e) = "") then Some (ErrIncomplete i)
      else if decide (node ∈ seen) then Some (ErrDuplicate node)
      else checkNodes (S i) ({[node]} ∪ seen) nodes
  end.

Definition Validate (s : Snapshot) : option registryError :=
  if decide (SchemaVersion s ≠ RegistrySchemaVersion) then Some (ErrSchema (SchemaVersion s))
  else
    match checkNodes 0 ∅ (Nodes s) with
    | Some e => Some e
    | None =>
        let want := computedRevision (normalized s) in
        if decide (Revision s = "" ∨ Revision s ≠ want) then Some (ErrRevision (Revision s) want) else None
    end.

(** The map of endpoints; a later entry of the same name wins. *)
Definition endpoints (s : Snapshot) : gmap string string :=
  foldl (λ m e, <[NodeID e := Address e]> m) ∅ (Nodes s).

(** ** Registries *)

(** FileRegistry.Load, for what the file holds: [None] if it cannot be read, then the
    snapshot json.Unmarshal finds in it. *)
Definition fileLoad (file : option (option Snapshot)) : result registryError Snapshot :=
  match file with
  | None => Err ErrRead
  | Some None => Err ErrParse
  | Some (Some s) => match Validate s with Some e => Err e | None => Ok (normalized s) end
  end.

(** StaticRegistry: Replace, then Load. *)
Definition Replace (nodes : list Endpoint) : Snapshot :=
  let s := normalized (MkSnapshot RegistrySchemaVersion "" nodes) in
  MkSnapshot (SchemaVersion s) (computedRevision s) (Nodes s).

Definition Load (r : Snapshot) : result registryError Snapshot :=
  match Validate r with Some e => Err e | None => Ok r end.

(** ** What validation means *)

Definition complete (e : Endpoint) : Prop := TrimSpace (NodeID e) ≠ "" ∧ TrimSpace (Address e) ≠ "".
Definition names (nodes : list Endpoint) : list string := (λ e, TrimSpace (NodeID e)) <$> nodes.
Definition wellFormed (nodes : list Endpoint) : Prop := Forall complete nodes ∧ NoDup (names nodes).

#[global] Instance complete_dec e : Decision (complete e).
Proof. unfold complete. apply _. Defined.

Lemma checkNodes_spec nodes : ∀ i seen,
  checkNodes i seen nodes = None ↔ Forall complete nodes ∧ NoDup (names nodes) ∧ ∀ n, n ∈ names nodes → n ∉ seen.
Proof.
  induction nodes as [|e nodes IH]; intros i seen; cbn [checkNodes names fmap list_fmap].
  - split; [|done]. intros _. split_and!; [constructor..|set_solver].
  - rewrite Forall_cons, NoDup_cons. fold (names nodes). case_decide as Hc.
    + split; [done|]. unfold complete. intros ([[? ?] _] & _). tauto.
    + case_decide as Hs; [split; [done|]; intros (_ & _ & H); by destruct (H (TrimSpace (NodeID e)) ltac:(left))|].
      rewrite IH. unfold complete. split.
      * intros (H1 & H2 & H3). split_and!; [tauto|tauto|done| |done|set_solver]. intros Hin. apply (H3 _ Hin). set_solver.
      * intros ((_ & H1) & (H2 & H3) & H4). split_and!; [done..|]. intros n Hn. set_solver.
Qed.

Lemma trimmed_idem e : trimmed (trimmed e) = trimmed e.
Proof. unfold trimmed. cbn. by rewrite !TrimSpace_idem. Qed.

Lemma fmap_trimmed (nodes : list Endpoint) : trimmed <$> (trimmed <$> nodes) = trimmed <$> nodes.
Proof. rewrite <-list_fmap_compose. apply list_fmap_ext. intros i e _. apply trimmed_idem. Qed.

Lemma names_trimmed nodes : names (trimmed <$> nodes) = names nodes.
Proof. unfold names. rewrite <-list_fmap_compose. apply list_fmap_ext. intros i e _. apply TrimSpace_idem. Qed.
Lemma names_ids nodes : NodeID <$> (trimmed <$> nodes) = names nodes.
Proof. by rewrite <-list_fmap_compose. Qed.

#[global] Instance names_perm : Proper ((≡ₚ) ==> (≡ₚ)) names.
Proof. intros l l' Hl. unfold names. by rewrite Hl. Qed.

Lemma wellFormed_perm nodes nodes' : trimmed <$> nodes ≡ₚ trimmed <$> nodes' → wellFormed nodes → wellFormed nodes'.
Proof.
  intros Hp [Hc Hn]. split.
  - assert (∀ l, Forall complete l ↔ Forall complete (trimmed <$> l)) as Hf.
    { intros l. rewrite Forall_fmap. apply Forall_iff. intros e. unfold complete. cbn. by rewrite !TrimSpace_idem. }
    by rewrite (Hf nodes'), <-Hp, <-(Hf nodes).
  - by rewrite <-names_trimmed, <-Hp, names_trimmed.
Qed.

Context (Hsort : SortSlice (λ x y, strLt (NodeID x) (NodeID y)) sortNodes) (Hdigest : ∀ nodes, digest nodes ≠ "").

(** The list behind a snapshot: trimmed and sorted. *)
Definition canonical (nodes : list Endpoint) : list Endpoint := sortNodes (trimmed <$> nodes).

Lemma canonical_perm nodes : canonical nodes ≡ₚ trimmed <$> nodes.
Proof. unfold canonical. apply sort_perm. Qed.

Lemma canonical_same nodes nodes' : wellFormed nodes → trimmed <$> nodes ≡ₚ trimmed <$> nodes' → canonical nodes = canonical nodes'.
Proof. intros [_ Hn] Hp. unfold canonical. eapply (sort_unique NodeID); [done..| |done]. by rewrite names_ids. Qed.

Lemma trimmed_canonical nodes : trimmed <$> canonical nodes = canonical nodes.
Proof.
  pose proof (canonical_perm nodes) as Hp. rewrite <-(list_fmap_id (canonical nodes)) at 2. apply list_fmap_ext. intros i e Hi.
  assert (e ∈ trimmed <$> nodes) as Hin by (rewrite <-Hp; by eapply list_elem_of_lookup_2).
  apply list_elem_of_fmap in Hin as (x & -> & _). apply trimmed_idem.
Qed.

Lemma canonical_idem nodes : wellFormed nodes → canonical (canonical nodes) = canonical nodes.
Proof.
  intros Hw. symmetry. apply canonical_same; [done|]. rewrite trimmed_canonical. by rewrite canonical_perm.
Qed.

Lemma canonical_wellFormed nodes : wellFormed nodes ↔ wellFormed (canonical nodes).
Proof. split; apply wellFormed_perm; by rewrite trimmed_canonical, canonical_perm. Qed.

Lemma Validate_spec s :
  Validate s = None ↔ SchemaVersion s = RegistrySchemaVersion ∧ wellFormed (Nodes s) ∧ Revision s = digest (canonical (Nodes s)).
Proof.
  unfold Validate. case_decide as Hv; [naive_solver|].
  destruct (checkNodes 0 ∅ (Nodes s)) as [err|] eqn:Hc.
  - split; [done|]. intros (_ & [H1 H2] & _). assert (checkNodes 0 ∅ (Nodes s) = None) as Hn; [|congruence].
    apply checkNodes_spec. set_solver.
  - apply checkNodes_spec in Hc as (H1 & H2 & _). assert (wellFormed (Nodes s)) as Hw by done.
    assert (computedRevision (normalized s) = digest (canonical (Nodes s))) as -> by (change (computedRevision (normalized s)) with (digest (canonical (canonical (Nodes s)))); by rewrite canonical_idem).
    pose proof (Hdigest (canonical (Nodes s))). case_decide as Hr; [split; [done|]; intros (_ & _ & E); rewrite E in Hr; by destruct Hr|].
    split; [|done]. intros _. split; [destruct (decide (SchemaVersion s = RegistrySchemaVersion)); tauto|]. split; [done|].
    destruct (decide (Revision s = digest (canonical (Nodes s)))); tauto.
Qed.

(** ** Endpoints *)

Lemma foldl_insert_lookup (nodes : list Endpoint) : ∀ (m : gmap string string) id a, NoDup (NodeID <$> nodes) → (∀ e, e ∈ nodes → m !! NodeID e = None) →
  foldl (λ m e, <[NodeID e := Address e]> m) m nodes !! id = Some a ↔ m !! id = Some a ∨ MkEndpoint id a ∈ nodes.
Proof.
  induction nodes as [|[n ad] nodes IH]; intros m id a Hn Hm; cbn [foldl]; [set_solver|].
  rewrite fmap_cons, NoDup_cons in Hn. destruct Hn as [Hni Hn]. cbn [NodeID Address] in *.
  pose proof (Hm (MkEndpoint n ad) ltac:(left)) as Hmn. cbn in Hmn.
  rewrite IH; [|done|].
  - rewrite lookup_insert_Some, elem_of_cons. split.
    + intros [[[-> ->]|[_ ?]]|?]; auto.
    + intros [?|[[= -> ->]|?]]; auto. left. right. split; [congruence|done].
  - intros e He. rewrite lookup_insert_ne; [apply Hm; by right|]. intros ->. apply Hni, list_elem_of_fmap. eauto.
Qed.

Lemma endpoints_spec v rev nodes id a : wellFormed nodes →
  endpoints (MkSnapshot v rev (canonical nodes)) !! id = Some a ↔
  ∃ e, e ∈ nodes ∧ TrimSpace (NodeID e) = id ∧ TrimSpace (Address e) = a.
Proof.
  intros [_ Hn]. unfold endpoints. cbn [Nodes].
  rewrite foldl_insert_lookup; [|by rewrite canonical_perm, names_ids|intros; apply lookup_empty].
  rewrite lookup_empty, canonical_perm, list_elem_of_fmap. split.
  - intros [?|(e & [= -> ->] & He)]; [done|]. eauto.
  - intros (e & He & <- & <-). right. by exists e.
Qed.

(** C28 (equivalence): registries agree.  A set of nodes is accepted exactly if every
    name and address is more than white space and no two names are equal once trimmed;
    then the loaded snapshot has the trimmed endpoints, is valid again, and depends
    neither on the order of the nodes nor on white space around them; a file that
    states these nodes with the right revision loads as the same snapshot as a static
    registry that was given them. *)
Theorem registries_agree nodes :
  (is_ok (Load (Replace nodes)) = true ↔ wellFormed nodes) ∧
  (∀ s, Load (Replace nodes) = Ok s →
     Load s = Ok s ∧
     (∀ id a, endpoints s !! id = Some a ↔ ∃ e, e ∈ nodes ∧ TrimSpace (NodeID e) = id ∧ TrimSpace (Address e) = a) ∧
     (∀ nodes', trimmed <$> nodes ≡ₚ trimmed <$> nodes' → Load (Replace nodes') = Ok s) ∧
     (∀ rev s', fileLoad (Some (Some (MkSnapshot RegistrySchemaVersion rev nodes))) = Ok s' ↔ rev = Revision s ∧ s' = s)).
Proof.
  assert (∀ l, wellFormed l → Replace l = MkSnapshot RegistrySchemaVersion (digest (canonical l)) (canonical l)) as HR.
  { intros l Hw. change (Replace l) with (MkSnapshot RegistrySchemaVersion (digest (canonical (canonical l))) (canonical l)). by rewrite canonical_idem. }
  assert (∀ l, wellFormed l → Load (Replace l) = Ok (Replace l)) as HL.
  { intros l Hw. unfold Load. replace (Validate (Replace l)) with (@None registryError); [done|]. symmetry. apply Validate_spec.
    rewrite (HR l Hw). cbn. split; [done|]. split; [exact (proj1 (canonical_wellFormed l) Hw)|by rewrite canonical_idem]. }
  assert (∀ l s, Load (Replace l) = Ok s → wellFormed l ∧ s = Replace l) as HI.
  { intros l s. unfold Load. destruct (Validate (Replace l)) eqn:Hv; [done|]. intros [= <-]. split; [|done].
    apply Validate_spec in Hv as (_ & Hw & _). exact (proj2 (canonical_wellFormed l) Hw). }
  split.
  - split; [|intros Hw; by rewrite (HL nodes Hw)]. destruct (Load (Replace nodes)) as [s|] eqn:E; [|done]. by apply HI in E as [? _].
  - intros s [Hw ->]%HI. rewrite (HR nodes Hw). split_and!.
    + rewrite <-(HR nodes Hw). by apply HL.
    + intros id a. by apply endpoints_spec.
    + intros nodes' Hp. pose proof (wellFormed_perm _ _ Hp Hw) as Hw'. rewrite (HL nodes' Hw'), (HR nodes' Hw').
      by rewrite (canonical_same nodes nodes').
    + intros rev s'. cbn. pose proof (Validate_spec (MkSnapshot RegistrySchemaVersion rev nodes)) as Hv. cbn in Hv.
      destruct (Validate _); [split; [done|]; intros [-> _]; by discriminate (proj2 Hv (conj eq_refl (conj Hw eq_refl)))|].
      destruct (proj1 Hv eq_refl) as (_ & _ & ->). split; [by intros [= <-]|by intros [_ ->]].
Qed.

End registry.

(** ** Instances *)

Definition exampleSort : list Endpoint → list Endpoint := mergeSort NodeID.
(** An injective digest of short lists. *)
Definition exampleDigest (nodes : list Endpoint) : string :=
  foldr (λ e s, NodeID e +:+ "=" +:+ Address e +:+ ";" +:+ s) "#" nodes.

Lemma exampleDigest_nonempty nodes : exampleDigest nodes ≠ "".
Proof. destruct nodes as [|[[|] a] nodes]; done. Qed.

Definition exampleNodes : list Endpoint := [MkEndpoint " b" "h:2"; MkEndpoint "a" "h:1 "].

Lemma registries_agree_witness :
  Load exampleSort exampleDigest (Replace exampleSort exampleDigest (reverse exampleNodes)) =
    Ok (MkSnapshot 1 "a=h:1;b=h:2;#" [MkEndpoint "a" "h:1"; MkEndpoint "b" "h:2"]).
Proof.
  refine (proj1 (proj2 (proj2 (proj2 (registries_agree exampleSort exampleDigest _ _ exampleNodes) _ _))) (reverse exampleNodes) _).
  - apply exampleDigest_nonempty.
  - vm_compute. reflexivity.
  - apply Permutation_swap.
Defined.

End Registry.
