(* ===== verification/Slots.v ===== *)
(** * Connection slots (src/cluster/node.go: peerFor, connectSlot; managers.go;
    peer.go: peerClosed, backoff)

    For each node and lane the manager keeps a slot that holds the current
    connection, the dial in progress, and the time before which no new dial is made.
    Steps are the critical sections of callers of peerFor, of the goroutines that
    dial and close, and of Reload and Stop, so that they interleave as in the code. *)

From S2P Require Import Prelude.

Create HintDb slots.

Module Slots.
#[local] Open Scope string_scope.
#[local] Open Scope list_scope.
#[local] Open Scope Z_scope.

Inductive PeerState := PeerDisconnected | PeerConnecting | PeerReady | PeerBackoff | PeerClosing.
#[global] Instance state_eq_dec : EqDecision PeerState.
Proof. solve_decision. Defined.

(** [connecting] names the channel that is closed when the dial has ended. *)
Record peerSlot := Slot {
  s_peer : option nat;
  s_state : PeerState;
  s_endpoint : string;
  connecting : option nat;
  backoffUntil : Z;
  failures : Z;
  connectFailures : Z;
  handshakeFailures : Z;
  reconnects : Z;
  everConnected : bool;
}.

Definition newSlot : peerSlot := Slot None PeerDisconnected EmptyString None 0 0 0 0 0 false.

(** A connection: the slot it was dialed for, its endpoint, whether it is closed. *)
Record conn := Conn { c_slot : nat; c_endpoint : string; c_closed : bool }.

(** [asked], [resolved] and [callers] are the goroutines in peerFor: before the read
    of the registry, before the slot is taken from the manager, and in the loop.
    [starts] have claimed a slot and not yet started the dial, [dials] are the dials
    in progress. A goroutine is about to close each peer of [closing], and about to
    tell the slot of each peer of [notifying] that it is closed. [pendingReload] is
    what a Reload has installed and not yet closed. [claims] records the dials
    that were ever claimed. *)
Record node := Node {
  localNode : string;
  connectionsPerPeer : nat;
  backoffMin : Z;
  backoffMax : Z;
  registry : gmap string string;
  manager : gmap string (list nat);
  pendingReload : option (gset string);
  stopping : bool;
  closedAll : bool;
  slots : list peerSlot;
  peers : list conn;
  closing : list nat;
  notifying : list nat;
  asked : list (string * Z);
  resolved : list (string * Z * string);
  callers : list (nat * string);
  starts : list (nat * string * nat);
  dials : list (nat * string * nat);
  nextDone : nat;
  claims : list (nat * string);
}.

Definition set_slots (n : node) (ss : list peerSlot) : node :=
  Node (localNode n) (connectionsPerPeer n) (backoffMin n) (backoffMax n) (registry n) (manager n)
       (pendingReload n) (stopping n) (closedAll n) ss (peers n) (closing n) (notifying n) (asked n)
       (resolved n) (callers n) (starts n) (dials n) (nextDone n) (claims n).
Definition set_registry (n : node) (reg : gmap string string) (p : option (gset string)) : node :=
  Node (localNode n) (connectionsPerPeer n) (backoffMin n) (backoffMax n) reg (manager n) p (stopping n)
       (closedAll n) (slots n) (peers n) (closing n) (notifying n) (asked n) (resolved n) (callers n)
       (starts n) (dials n) (nextDone n) (claims n).
Definition set_manager (n : node) (m : gmap string (list nat)) : node :=
  Node (localNode n) (connectionsPerPeer n) (backoffMin n) (backoffMax n) (registry n) m (pendingReload n)
       (stopping n) (closedAll n) (slots n) (peers n) (closing n) (notifying n) (asked n) (resolved n)
       (callers n) (starts n) (dials n) (nextDone n) (claims n).
Definition set_stop (n : node) (st cl : bool) : node :=
  Node (localNode n) (connectionsPerPeer n) (backoffMin n) (backoffMax n) (registry n) (manager n)
       (pendingReload n) st cl (slots n) (peers n) (closing n) (notifying n) (asked n) (resolved n)
       (callers n) (starts n) (dials n) (nextDone n) (claims n).
Definition set_peers (n : node) (ps : list conn) (cl nt : list nat) : node :=
  Node (localNode n) (connectionsPerPeer n) (backoffMin n) (backoffMax n) (registry n) (manager n)
       (pendingReload n) (stopping n) (closedAll n) (slots n) ps cl nt (asked n) (resolved n) (callers n)
       (starts n) (dials n) (nextDone n) (claims n).
Definition set_callers (n : node) (aq : list (string * Z)) (rs : list (string * Z * string)) (cs : list (nat * string)) : node :=
  Node (localNode n) (connectionsPerPeer n) (backoffMin n) (backoffMax n) (registry n) (manager n)
       (pendingReload n) (stopping n) (closedAll n) (slots n) (peers n) (closing n) (notifying n) aq rs cs
       (starts n) (dials n) (nextDone n) (claims n).
Definition set_dials (n : node) (st dl : list (nat * string * nat)) (next : nat) (cm : list (nat * string)) : node :=
  Node (localNode n) (connectionsPerPeer n) (backoffMin n) (backoffMax n) (registry n) (manager n)
       (pendingReload n) (stopping n) (closedAll n) (slots n) (peers n) (closing n) (notifying n) (asked n)
       (resolved n) (callers n) st dl next cm.
Definition upd_slot (n : node) (s : nat) (f : peerSlot → peerSlot) : node := set_slots n (alter f s (slots n)).

Definition newNode (id : string) (reg : gmap string string) (lanes : nat) (min max : Z) : node :=
  Node id lanes min max reg ∅ None false false [] [] [] [] [] [] [] [] [] 0 [].

(** ** Backoff *)

(** The loop of backoff: [i] counts up to [fails]. *)
Fixpoint doubled (k : nat) (delay max : Z) : Z :=
  match k with
  | O => delay
  | S k => if decide (delay < max / 2) then doubled k (delay * 2) max else delay
  end.

Definition backoffBase (n : node) (fails : Z) : Z :=
  let delay := doubled (Z.to_nat (fails - 1)) (backoffMin n) (backoffMax n) in
  if decide (delay > backoffMax n) then backoffMax n else delay.

(** [jitter] is the random factor in thousandths, from 800 to 1200. *)
Definition backoff (n : node) (fails jitter : Z) : Z := backoffBase n fails * jitter / 1000.

(** ** Slots *)

Definition fail (n : node) (now jitter : Z) (s : peerSlot) : peerSlot :=
  Slot None PeerBackoff (s_endpoint s) (connecting s) (now + backoff n (failures s + 1) jitter) (failures s + 1)
       (connectFailures s) (handshakeFailures s) (reconnects s) (everConnected s).

(** peerSlot.peerClosed. *)
Definition peerClosed (n : node) (p : nat) (now jitter : Z) (s : peerSlot) : peerSlot :=
  if decide (s_peer s = Some p) then fail n now jitter s else s.

Definition set_connecting (s : peerSlot) (c : option nat) (st : PeerState) (ep : string) : peerSlot :=
  Slot (s_peer s) st ep c (backoffUntil s) (failures s) (connectFailures s) (handshakeFailures s) (reconnects s) (everConnected s).

(** detachSlot. *)
Definition detachSlot (s : peerSlot) : peerSlot :=
  Slot None PeerClosing EmptyString (connecting s) (backoffUntil s) (failures s) (connectFailures s)
       (handshakeFailures s) (reconnects s) (everConnected s).

(** peerManager.slot: the slots of [id], made at the first use. *)
Definition slotsOf (n : node) (id : string) : node * list nat :=
  match manager n !! id with
  | Some (s :: ss) => (n, s :: ss)
  | _ =>
      let new := seq (length (slots n)) (connectionsPerPeer n) in
      (set_manager (set_slots n (slots n ++ replicate (connectionsPerPeer n) newSlot)) (<[id := new]> (manager n)), new)
  end.

(** ** peerFor *)

(** Node.endpoint: the caller goes on if the node is not stopping ... *)
Definition ask (n : node) (id : string) (shard : Z) : option node :=
  if decide (pendingReload n ≠ None) then None
  else if stopping n then Some n
  else Some (set_callers n (asked n ++ [(id, shard)]) (resolved n) (callers n)).

(** ... and the registry has an endpoint. *)
Definition endpoint (n : node) (j : nat) : option node :=
  '(id, shard) ← asked n !! j;
  let rest := delete j (asked n) in
  Some match registry n !! id with
       | None | Some EmptyString => set_callers n rest (resolved n) (callers n)
       | Some ep => set_callers n rest (resolved n ++ [(id, shard, ep)]) (callers n)
       end.

(** The caller takes its slot from the manager. *)
Definition takeSlot (n : node) (j : nat) : option node :=
  '(id, shard, ep) ← resolved n !! j;
  let '(n1, ss) := slotsOf n id in
  s ← ss !! Z.to_nat (shard mod Z.of_nat (connectionsPerPeer n));
  Some (set_callers n1 (asked n1) (delete j (resolved n1)) (callers n1 ++ [(s, ep)])).

Definition isClosed (n : node) (p : nat) : bool := from_option c_closed true (peers n !! p).
Definition endpointOf (n : node) (p : nat) : option string := c_endpoint <$> peers n !! p.

(** The slot once a closed peer has been dropped from it. *)
Definition dropClosed (n : node) (now jitter : Z) (s : peerSlot) : peerSlot :=
  match s_peer s with
  | Some p =>
      if isClosed n p then
        if decide (s_state s = PeerBackoff)
        then Slot None (s_state s) (s_endpoint s) (connecting s) (backoffUntil s) (failures s) (connectFailures s)
                  (handshakeFailures s) (reconnects s) (everConnected s)
        else fail n now jitter s
      else s
  | None => s
  end.

Inductive outcome := Ready (p : nat) | Wait (d : nat) | BackingOff | Claimed.

(** The slot's peer, if the caller can use it. *)
Definition usable (n : node) (sl : peerSlot) (ep : string) : option nat :=
  p ← s_peer sl; if negb (isClosed n p) && bool_decide (endpointOf n p = Some ep) then Some p else None.

(** One iteration of the loop of peerFor for a caller with endpoint [ep]. *)
Definition visit (n : node) (sl : peerSlot) (ep : string) (now jitter : Z) : outcome * peerSlot :=
  match usable n sl ep with
  | Some p => (Ready p, sl)
  | None =>
      let sl := dropClosed n now jitter sl in
      match connecting sl with
      | Some d => (Wait d, sl)
      | None =>
          if decide (s_state sl = PeerBackoff ∧ now < backoffUntil sl ∧ s_endpoint sl = ep) then (BackingOff, sl)
          else (Claimed, set_connecting sl (Some (nextDone n)) PeerConnecting ep)
      end
  end.

Definition callerVisits (n : node) (k : nat) (now jitter : Z) : option node :=
  '(s, ep) ← callers n !! k;
  sl ← slots n !! s;
  let '(o, sl') := visit n sl ep now jitter in
  let n1 := upd_slot n s (λ _, sl') in
  Some match o with
       | Ready _ | BackingOff => set_callers n1 (asked n1) (resolved n1) (delete k (callers n1))
       | Wait _ => n1
       | Claimed =>
           set_callers (set_dials n1 (starts n1 ++ [(s, ep, nextDone n)]) (dials n1) (S (nextDone n1)) (claims n1 ++ [(s, ep)]))
             (asked n1) (resolved n1) (delete k (callers n1))
       end.

(** The caller that claimed a slot starts the dial, unless the node is stopping. *)
Definition abandon (d : nat) (sl : peerSlot) : peerSlot :=
  if decide (connecting sl = Some d) then set_connecting sl None PeerClosing (s_endpoint sl) else sl.

Definition startDial (n : node) (i : nat) : option node :=
  '(s, ep, d) ← starts n !! i;
  if decide (pendingReload n ≠ None) then None
  else if stopping n then
    Some (set_dials (upd_slot n s (abandon d)) (delete i (starts n)) (dials n) (nextDone n) (claims n))
  else Some (set_callers (set_dials n (delete i (starts n)) (dials n ++ [(s, ep, d)]) (nextDone n) (claims n))
               (asked n) (resolved n) (callers n ++ [(s, ep)])).

(** ** connectSlot *)

Definition installed (sl : peerSlot) (p : nat) : peerSlot :=
  Slot (Some p) PeerReady (s_endpoint sl) None 0 0 (connectFailures sl) (handshakeFailures sl)
       (if everConnected sl then reconnects sl + 1 else reconnects sl) true.

Definition dialFailed (n : node) (now jitter : Z) (handshake : bool) (sl : peerSlot) : peerSlot :=
  Slot None PeerBackoff (s_endpoint sl) None (now + backoff n (failures sl + 1) jitter) (failures sl + 1)
       (connectFailures sl + 1) (if handshake then handshakeFailures sl + 1 else handshakeFailures sl)
       (reconnects sl) (everConnected sl).

(** The dial was overtaken by a detach of the slot. *)
Definition giveUp (d : nat) (sl : peerSlot) : peerSlot :=
  if decide (connecting sl = Some d) then set_connecting sl None (s_state sl) (s_endpoint sl) else sl.

(** What dialPeer returns: an error, of the dial or of the handshake, or a peer,
    which may have been closed by its own goroutines in the meantime. *)
Inductive dialed := DialError (handshake : bool) | Dialed (closed : bool).

Definition connectSlot (n : node) (i : nat) (res : dialed) (now jitter : Z) : option node :=
  '(s, ep, d) ← dials n !! i;
  sl ← slots n !! s;
  let p := length (peers n) in
  let n1 := set_dials n (starts n) (delete i (dials n)) (nextDone n) (claims n) in
  Some
    (if decide (connecting sl ≠ Some d ∨ s_endpoint sl ≠ ep ∨ s_state sl = PeerClosing) then
       let n2 := upd_slot n1 s (giveUp d) in
       match res with
       | DialError _ => n2
       | Dialed closed => set_peers n2 (peers n2 ++ [Conn s ep closed]) (closing n2 ++ [p]) (notifying n2)
       end
     else
       match res with
       | DialError handshake => upd_slot n1 s (dialFailed n now jitter handshake)
       | Dialed closed =>
           set_peers (upd_slot n1 s (λ sl, installed sl p)) (peers n1 ++ [Conn s ep closed]) (closing n1) (notifying n1)
       end).

(** ** Closing *)

Definition closeConn (c : conn) : conn := Conn (c_slot c) (c_endpoint c) true.

(** peer.close closes [done] once; the slot is told later, by peerClosed. *)
Definition closePeer (n : node) (p : nat) : node :=
  match peers n !! p with
  | Some (Conn _ _ false) => set_peers n (alter closeConn p (peers n)) (closing n) (notifying n ++ [p])
  | _ => n
  end.

(** The close of a peer that a goroutine took from its slot. *)
Definition closeTaken (n : node) (i : nat) : option node :=
  p ← closing n !! i;
  let n1 := closePeer n p in
  Some (set_peers n1 (peers n1) (delete i (closing n1)) (notifying n1)).

Definition notifySlot (n : node) (i : nat) (now jitter : Z) : option node :=
  p ← notifying n !! i;
  c ← peers n !! p;
  Some (upd_slot (set_peers n (peers n) (closing n) (delete i (notifying n))) (c_slot c) (peerClosed n p now jitter)).

(** A slot is detached: its peer is to be closed. *)
Definition detach (s : nat) (n : node) : node :=
  upd_slot (set_peers n (peers n) (closing n ++ option_list (slots n !! s ≫= s_peer)) (notifying n)) s detachSlot.

Definition detachAll (n : node) (ss : list nat) : node := foldr detach n ss.

(** An absent entry of a Go map of strings reads as the empty string. *)
Definition get (m : gmap string string) (id : string) : string := default EmptyString (m !! id).

(** registryManager.install: the nodes of which the endpoint changes. *)
Definition changed (old next : gmap string string) : gset string :=
  dom (filter (λ p, get next p.1 = EmptyString ∨ get next p.1 ≠ p.2) old)
  ∪ dom (filter (λ p, get old p.1 ≠ EmptyString ∧ get old p.1 ≠ p.2) next).

Definition install (n : node) (next : gmap string string) : option node :=
  if decide (pendingReload n ≠ None) then None
  else if decide (get next (localNode n) = EmptyString) then Some n
  else Some (set_registry n next (Some (changed (registry n) next))).

Definition closeChanged (n : node) : option node :=
  ch ← pendingReload n;
  let n1 := detachAll n (concat (default [] ∘ (λ id, manager n !! id) <$> elements ch)) in
  Some (set_registry (set_manager n1 (filter (λ p, p.1 ∉ ch) (manager n1))) (registry n1) None).

(** Stop: no new dials, then every slot of the manager is detached. *)
Definition stop (n : node) : option node :=
  if decide (pendingReload n ≠ None) then None else Some (set_stop n true (closedAll n)).

Definition closeAll (n : node) : option node :=
  if stopping n && negb (closedAll n) then
    let n1 := detachAll n (concat (snd <$> map_to_list (manager n))) in
    Some (set_stop (set_manager n1 ∅) (stopping n1) true)
  else None.

(** ** Runs *)

Inductive label :=
  | LAsk (id : string) (shard : Z)
  | LEndpoint (j : nat)
  | LTakeSlot (j : nat)
  | LVisit (k : nat) (now jitter : Z)
  | LCancel (k : nat)
  | LStart (i : nat)
  | LDialed (i : nat) (res : dialed) (now jitter : Z)
  | LFails (p : nat)
  | LCloseTaken (i : nat)
  | LNotify (i : nat) (now jitter : Z)
  | LInstall (reg : gmap string string)
  | LCloseChanged
  | LStop
  | LCloseAll.

Definition step (n : node) (a : label) : option node :=
  match a with
  | LAsk id shard => ask n id shard
  | LEndpoint j => endpoint n j
  | LTakeSlot j => takeSlot n j
  | LVisit k now jitter => callerVisits n k now jitter
  | LCancel k => _ ← callers n !! k; Some (set_callers n (asked n) (resolved n) (delete k (callers n)))
  | LStart i => startDial n i
  | LDialed i res now jitter => connectSlot n i res now jitter
  | LFails p => Some (closePeer n p)
  | LCloseTaken i => closeTaken n i
  | LNotify i now jitter => notifySlot n i now jitter
  | LInstall reg => install n reg
  | LCloseChanged => closeChanged n
  | LStop => stop n
  | LCloseAll => closeAll n
  end.

Notation steps := (runs step).

(** ** Connections have an owner *)

Notation flights n := (starts n ++ dials n).

(** Another endpoint than that of [c] was dialed for the same slot. *)
Definition displaced (n : node) (c : conn) : Prop := ∃ e, e ≠ c_endpoint c ∧ (c_slot c, e) ∈ claims n.

(** An open connection is held by its slot, or about to be closed, or displaced. *)
Definition accounted (n : node) (p : nat) (c : conn) : Prop :=
  (∃ sl, slots n !! c_slot c = Some sl ∧ s_peer sl = Some p) ∨ p ∈ closing n ∨ displaced n c.

(** The peer of the slot is not one that a dial of [e] would find usable. *)
Definition unusable (n : node) (sl : peerSlot) (e : string) : Prop :=
  ∀ p c, s_peer sl = Some p → peers n !! p = Some c → c_closed c = false → c_endpoint c ≠ e.

Record owned (n : node) : Prop := {
  ow_flights s e d : (s, e, d) ∈ flights n → (d < nextDone n)%nat ∧ (s, e) ∈ claims n;
  ow_nodup : NoDup (snd <$> flights n);
  ow_slot s sl p : slots n !! s = Some sl → s_peer sl = Some p → ∃ c, peers n !! p = Some c ∧ c_slot c = s;
  ow_current s sl d : slots n !! s = Some sl → connecting sl = Some d →
    ∃ e, (s, e, d) ∈ flights n ∧ unusable n sl e;
  ow_open p c : peers n !! p = Some c → c_closed c = false → accounted n p c;
  ow_claimed p c : peers n !! p = Some c → (c_slot c, c_endpoint c) ∈ claims n;
  ow_notify p : p ∈ notifying n → ∃ c, peers n !! p = Some c ∧ c_closed c = true;
}.

(** A slot whose peer stays or goes: it goes only when it is closed, to be closed,
    or displaced. *)
Definition releases (n : node) (sl sl' : peerSlot) : Prop :=
  s_peer sl' = s_peer sl ∨
  s_peer sl' = None ∧ ∀ p c, s_peer sl = Some p → peers n !! p = Some c → c_closed c = false → p ∈ closing n ∨ displaced n c.

Lemma lookup_upd (l : list peerSlot) f s i x :
  alter f s l !! i = Some x → (i = s ∧ ∃ y, l !! s = Some y ∧ x = f y) ∨ i ≠ s ∧ l !! i = Some x.
Proof.
  destruct (decide (i = s)) as [->|Hne]; [rewrite list_lookup_alter_eq|rewrite list_lookup_alter_ne by done]; [|by right].
  destruct (l !! s) as [y|] eqn:E; [|done]. intros [= <-]. left. eauto.
Qed.

Lemma owned_slot n s f :
  owned n → (∀ sl, slots n !! s = Some sl → releases n sl (f sl) ∧
    (connecting (f sl) = connecting sl ∨ connecting (f sl) = None)) →
  owned (upd_slot n s f).
Proof.
  intros [H1 H2 H3 H4 H5 H7 H6] Hf. split; simpl; try done.
  - intros i x p [(-> & y & Hy & ->)|[_ Hi]]%lookup_upd Hx; [|by eapply H3].
    destruct (Hf y Hy) as [[Hp|[Hp _]] _]; rewrite Hp in Hx; [by eapply H3|done].
  - intros i x d [(-> & y & Hy & ->)|[_ Hi]]%lookup_upd Hx; [|by eapply H4].
    destruct (Hf y Hy) as [Hr [Hc|Hc]]; rewrite Hc in Hx; [|done].
    destruct (H4 s y d Hy Hx) as (e & He & Hu). exists e. split; [done|]. intros p c Hp.
    destruct Hr as [Hr|[Hr _]]; rewrite Hr in Hp; [by apply Hu|done].
  - intros p c Hp Ho. destruct (H5 p c Hp Ho) as [(sl & Hs & Hsp)|?]; [|by right].
    destruct (decide (c_slot c = s)) as [E|Hne].
    + rewrite E in Hs. destruct (Hf sl Hs) as [[Hr|[_ Hr]] _]; [|right; by apply Hr].
      left. exists (f sl). unfold upd_slot. simpl. by rewrite E, list_lookup_alter_eq, Hs, Hr.
    + left. exists sl. unfold upd_slot. simpl. by rewrite list_lookup_alter_ne.
Qed.

(** Steps that keep the slots and peers, and only add to what is to be closed. *)
Lemma owned_closing n cl nt : owned n → closing n ⊆ cl → nt ⊆ notifying n → owned (set_peers n (peers n) cl nt).
Proof.
  intros [H1 H2 H3 H4 H5 H7 H6] Hcl Hnt. split; try done; [|by intros p Hp%Hnt; apply H6].
  intros p c Hp Ho. destruct (H5 p c Hp Ho) as [?|[?|?]]; [by left|right; left; by apply Hcl|by right; right].
Qed.

(** Who waits where, the registry and the manager do not matter. *)
Lemma owned_callers n aq rs cs : owned n → owned (set_callers n aq rs cs).
Proof. intros [H1 H2 H3 H4 H5 H7 H6]. by split. Qed.
Lemma owned_registry n reg pr : owned n → owned (set_registry n reg pr).
Proof. intros [H1 H2 H3 H4 H5 H7 H6]. by split. Qed.
Lemma owned_manager n m : owned n → owned (set_manager n m).
Proof. intros [H1 H2 H3 H4 H5 H7 H6]. by split. Qed.
Lemma owned_stop n st cl : owned n → owned (set_stop n st cl).
Proof. intros [H1 H2 H3 H4 H5 H7 H6]. by split. Qed.
#[local] Hint Resolve owned_callers owned_registry owned_manager owned_stop : slots.

Lemma owned_detach s n : owned n → owned (detach s n).
Proof.
  intros H. unfold detach.
  set (n1 := set_peers n (peers n) (closing n ++ option_list (slots n !! s ≫= s_peer)) (notifying n)).
  assert (owned n1) as H1 by (apply owned_closing; [done|set_solver|done]).
  change (slots n) with (slots n1). apply owned_slot; [done|]. intros sl Hs. split; [|by left].
  right. split; [done|]. intros p c Hp _ _. left. simpl in *. rewrite Hs. simpl. rewrite Hp. set_solver.
Qed.

Lemma owned_detachAll ss n : owned n → owned (detachAll n ss).
Proof. intros H. induction ss as [|s ss IH]; [done|]. by apply owned_detach. Qed.

Lemma owned_closePeer n p : owned n → owned (closePeer n p).
Proof.
  intros H. unfold closePeer. destruct (peers n !! p) as [[s e []]|] eqn:Hp; [done| |done].
  destruct H as [H1 H2 H3 H4 H5 H7 H6].
  assert (∀ q c, alter closeConn p (peers n) !! q = Some c → c_closed c = false → q ≠ p ∧ peers n !! q = Some c) as Hq.
  { intros q c. destruct (decide (q = p)) as [->|Hne].
    - rewrite list_lookup_alter_eq, Hp. intros [= <-]. done.
    - by rewrite list_lookup_alter_ne. }
  split; simpl; try done.
  - intros i sl q Hs Hsq. destruct (H3 i sl q Hs Hsq) as (c & Hc & <-). destruct (decide (q = p)) as [->|Hne].
    + exists (closeConn c). by rewrite list_lookup_alter_eq, Hc.
    + exists c. by rewrite list_lookup_alter_ne.
  - intros i sl d Hs Hd. destruct (H4 i sl d Hs Hd) as (e' & He & Hu). exists e'. split; [done|].
    intros q c Hsq Hc Ho. destruct (Hq q c Hc Ho) as [_ Hc']. by eapply Hu.
  - intros q c Hc Ho. destruct (Hq q c Hc Ho) as [_ Hc']. by apply H5.
  - intros q c Hc. destruct (decide (q = p)) as [->|Hne].
    + rewrite list_lookup_alter_eq, Hp in Hc. injection Hc as <-. exact (H7 p _ Hp).
    + rewrite list_lookup_alter_ne in Hc by done. by apply (H7 q).
  - intros q [Hn| ->%list_elem_of_singleton]%elem_of_app.
    + destruct (H6 q Hn) as (c & Hc & Ho). destruct (decide (q = p)) as [->|]; [by simplify_eq|].
      exists c. by rewrite list_lookup_alter_ne.
    + eexists. by rewrite list_lookup_alter_eq, Hp.
Qed.

Lemma closePeer_closed n p c : peers (closePeer n p) !! p = Some c → c_closed c = true.
Proof.
  unfold closePeer. destruct (peers n !! p) as [[s e []]|] eqn:Hp; simpl; rewrite ?list_lookup_alter_eq, ?Hp;
    by intros [= <-].
Qed.

Lemma owned_closeTaken n i n' : owned n → closeTaken n i = Some n' → owned n'.
Proof.
  unfold closeTaken. intros H. destruct (closing n !! i) as [p|] eqn:Hi; [|done]. intros [= <-].
  pose proof (owned_closePeer n p H) as [H1 H2 H3 H4 H5 H7 H6].
  assert (closing (closePeer n p) = closing n) as Hcl.
  { unfold closePeer. by destruct (peers n !! p) as [[s e []]|]. }
  split; try done. intros q c Hq Ho. destruct (H5 q c Hq Ho) as [?|[Hc|?]]; [by left| |by right; right].
  right. left. simpl. rewrite Hcl in *. rewrite (delete_Permutation _ _ _ Hi) in Hc.
  apply elem_of_cons in Hc as [->|Hc]; [|done]. by rewrite (closePeer_closed n p c Hq) in Ho.
Qed.

Lemma owned_notify n i now jitter n' : owned n → notifySlot n i now jitter = Some n' → owned n'.
Proof.
  unfold notifySlot. intros H Hn. pose proof (ow_notify n H) as Hc. destruct (notifying n !! i) as [p|] eqn:Hi; [|done]. simpl in Hn.
  destruct (peers n !! p) as [c|] eqn:Hp; [|done]. injection Hn as <-. apply owned_slot.
  - apply (owned_closing n (closing n) (delete i (notifying n))); [done..|].
    intros q Hq. rewrite (delete_Permutation _ _ _ Hi). by right.
  - intros sl Hs. simpl in Hs. unfold peerClosed. case_decide as Hd; [|split; by left]. split; [|by left].
    right. split; [done|]. intros q c' Hq Hqc Ho. simpl in Hqc. simplify_eq.
    destruct (Hc p) as (? & ? & ?); [by eapply list_elem_of_lookup_2|]. congruence.
Qed.

(** dropClosed only drops a closed peer. *)
Lemma dropClosed_releases n now jitter sl :
  releases n sl (dropClosed n now jitter sl) ∧ connecting (dropClosed n now jitter sl) = connecting sl.
Proof.
  unfold dropClosed. destruct (s_peer sl) as [p|] eqn:Hp; [|split; [by left|done]].
  destruct (isClosed n p) eqn:Hc; [|split; [by left|done]].
  assert (∀ sl', s_peer sl' = None → releases n sl sl') as Hr.
  { intros sl' H'. right. split; [done|]. intros q c Hq Hqc Ho. unfold isClosed in Hc. simplify_eq.
    rewrite Hqc in Hc. simpl in Hc. congruence. }
  case_decide; split; try done; by apply Hr.
Qed.

Lemma dropClosed_open n now jitter sl p c :
  s_peer (dropClosed n now jitter sl) = Some p → peers n !! p = Some c → s_peer sl = Some p ∧ c_closed c = false.
Proof.
  unfold dropClosed. destruct (s_peer sl) as [q|] eqn:Hq; [|intros; congruence].
  destruct (isClosed n q) eqn:Hc; [by case_decide|]. intros Hp Hpc. unfold isClosed in Hc. simplify_eq.
  by rewrite Hpc in Hc.
Qed.

(** A dial is claimed: the slot has no usable peer. *)
Lemma owned_claim n s sl ep rest :
  owned n → slots n !! s = Some sl → unusable n sl ep →
  owned (set_callers (set_dials (upd_slot n s (λ _, set_connecting sl (Some (nextDone n)) PeerConnecting ep))
           (starts n ++ [(s, ep, nextDone n)]) (dials n) (S (nextDone n)) (claims n ++ [(s, ep)]))
           (asked n) (resolved n) rest).
Proof.
  intros [H1 H2 H3 H4 H5 H7 H6] Hs Hu. split; simpl.
  - intros i e d Hi. assert ((i, e, d) ∈ flights n ∨ (i, e, d) = (s, ep, nextDone n)) as [H|[= -> -> ->]] by set_solver.
    + destruct (H1 i e d H). split; [lia|set_solver].
    + split; [lia|set_solver].
  - rewrite <-app_assoc, fmap_app. simpl.
    rewrite <-Permutation_middle, <-fmap_app. apply NoDup_cons. split; [|done].
    intros ([[i e] d] & Hd & Hi)%list_elem_of_fmap. simpl in Hd. destruct (H1 i e d Hi). lia.
  - intros i x p [(-> & y & Hy & ->)|[_ Hi]]%lookup_upd Hx; [|by eapply H3]. by apply (H3 s sl).
  - intros i x d [(-> & y & Hy & ->)|[_ Hi]]%lookup_upd Hx.
    + simpl in Hx. simplify_eq. exists ep. split; [set_solver|done].
    + destruct (H4 i x d Hi Hx) as (e & He & ?). exists e. split; [|done]. set_solver.
  - intros p c Hp Ho. destruct (H5 p c Hp Ho) as [(x & Hx & Hxp)|[?|(e & ? & ?)]]; [|by right; left|].
    2: right; right; exists e; split; [done|]; simpl; set_solver.
    left. simpl. destruct (decide (c_slot c = s)) as [E|]; [|exists x; by rewrite list_lookup_alter_ne].
    rewrite E in Hx. simplify_eq. rewrite list_lookup_alter_eq, Hs. by eexists.
  - intros p c Hp. pose proof (H7 p c Hp). set_solver.
  - done.
Qed.

Lemma usable_none n sl ep : usable n sl ep = None → unusable n sl ep.
Proof.
  unfold usable, isClosed, endpointOf. intros Hu p c Hp Hc Ho He. rewrite Hp in Hu. simpl in Hu. rewrite Hc in Hu.
  simpl in Hu. rewrite Ho in Hu. simpl in Hu. by rewrite bool_decide_true in Hu by congruence.
Qed.

Lemma alter_twice (l : list peerSlot) s f g h :
  (∀ x, f (g x) = h x) → alter f s (alter g s l) = alter h s l.
Proof.
  intros Hh. revert s. induction l as [|x l IH]; intros [|s]; [done..| |].
  - change (f (g x) :: l = h x :: l). by rewrite Hh.
  - change (x :: alter f s (alter g s l) = x :: alter h s l). by rewrite IH.
Qed.

Lemma flight_unique (l : list (nat * string * nat)) x y : NoDup (snd <$> l) → x ∈ l → y ∈ l → snd x = snd y → x = y.
Proof.
  induction l as [|z l IH]; [by intros _ ?%not_elem_of_nil|]. cbn [fmap list_fmap].
  intros [Hz Hnd]%NoDup_cons [->|Hx]%elem_of_cons [->|Hy]%elem_of_cons Hxy; [done| | |by apply IH].
  - destruct Hz. rewrite Hxy. by apply list_elem_of_fmap_2.
  - destruct Hz. rewrite <-Hxy. by apply list_elem_of_fmap_2.
Qed.

Lemma owned_visit n k now jitter n' : owned n → callerVisits n k now jitter = Some n' → owned n'.
Proof.
  unfold callerVisits. intros H Hn. destruct (callers n !! k) as [[s ep]|]; [|done]. simpl in Hn.
  destruct (slots n !! s) as [sl|] eqn:Hs; [|done]. simpl in Hn. unfold visit in Hn.
  assert (∀ sl', releases n sl sl' ∧ connecting sl' = connecting sl → owned (upd_slot n s (λ _, sl'))) as Hrel.
  { intros sl' [Hr Hc]. apply owned_slot; [done|]. intros x Hx. simplify_eq. split; [done|by left]. }
  destruct (usable n sl ep) as [p|] eqn:Hu; [injection Hn as <-; apply owned_callers, Hrel; split; [by left|done]|].
  pose proof (Hrel _ (dropClosed_releases n now jitter sl)) as Hd. cbv zeta in Hn.
  destruct (connecting (dropClosed n now jitter sl)); [by injection Hn as <-|].
  case_decide; injection Hn as <-; [by apply owned_callers|].
  pose proof (owned_claim _ s (dropClosed n now jitter sl) ep (delete k (callers n)) Hd) as Hcl.
  unfold upd_slot, set_slots, set_dials, set_callers in *. simpl in *. erewrite alter_twice in Hcl by done. apply Hcl.
  - by rewrite list_lookup_alter_eq, Hs.
  - intros p c Hp Hc Ho. by apply (usable_none n sl ep Hu p c); [apply (dropClosed_open n now jitter sl p c)|..].
Qed.

(** The end of a dial: its channel is no longer the slot's. *)
Lemma owned_land n st dl s e d f :
  owned n → flights n ≡ₚ (s, e, d) :: (st ++ dl) →
  (∀ sl, slots n !! s = Some sl → releases n sl (f sl) ∧
    (connecting (f sl) = None ∨ connecting (f sl) = connecting sl ∧ connecting sl ≠ Some d)) →
  owned (set_dials (upd_slot n s f) st dl (nextDone n) (claims n)).
Proof.
  intros H Hfl Hf. pose proof (owned_slot n s f H) as [H1 H2 H3 H4 H5 H7 H6].
  { intros sl Hs. destruct (Hf sl Hs) as [? [?|[? ?]]]; split; auto. }
  simpl in H1, H2. rewrite Hfl in H2. apply NoDup_cons in H2 as [Hd Hnd].
  split; try done.
  - intros i e' d' Hi. apply H1. rewrite Hfl. by right.
  - intros i x d' Hx Hc. destruct (H4 i x d' Hx Hc) as (e' & He & Hu). exists e'. split; [|done].
    simpl in He. rewrite Hfl in He. apply elem_of_cons in He as [[= -> -> ->]|?]; [|done].
    simpl in Hx. rewrite list_lookup_alter_eq in Hx. destruct (slots n !! s) as [sl|] eqn:Hs; [|done].
    injection Hx as <-. destruct (Hf sl eq_refl) as [_ [?|[? ?]]]; congruence.
Qed.

Lemma owned_start n i n' : owned n → startDial n i = Some n' → owned n'.
Proof.
  unfold startDial. intros H Hn. destruct (starts n !! i) as [[[s ep] d]|] eqn:Hi; [|done]. simpl in Hn.
  case_decide; [done|]. apply delete_Permutation in Hi. generalize dependent (delete i (starts n)). intros st Hi Hn.
  destruct (stopping n); injection Hn as <-.
  - apply (owned_land n _ _ s ep d); [done|by rewrite Hi|].
    intros sl _. unfold abandon. case_decide; split; [by left|by left|by left|by right].
  - apply owned_callers.
    assert (st ++ dials n ++ [(s, ep, d)] ≡ₚ flights n) as Hp by (rewrite Hi; solve_Permutation).
    destruct H as [H1 H2 H3 H4 H5 H7 H6]. split; try done.
    + intros a e x Ha. apply H1. simpl in Ha. by rewrite Hp in Ha.
    + simpl. by rewrite Hp.
    + intros a sl x Ha Hx. destruct (H4 a sl x Ha Hx) as (e & ? & ?). exists e. simpl. by rewrite Hp.
Qed.

(** A new connection of which the slot is not the owner yet. *)
Lemma owned_dialed n s ep closed :
  owned n → (s, ep) ∈ claims n → owned (set_peers n (peers n ++ [Conn s ep closed]) (closing n ++ [length (peers n)]) (notifying n)).
Proof.
  intros [H1 H2 H3 H4 H5 H7 H6] Hcm.
  assert (∀ i sl p, slots n !! i = Some sl → s_peer sl = Some p → (p < length (peers n))%nat) as Hlt.
  { intros i sl p Hi Hp. destruct (H3 i sl p Hi Hp) as (c & Hc & _). by eapply lookup_lt_Some. }
  assert (∀ p c, (peers n ++ [Conn s ep closed]) !! p = Some c → (p < length (peers n))%nat → peers n !! p = Some c) as Hold.
  { intros p c Hp Hl. by rewrite lookup_app_l in Hp. }
  split; simpl; try done.
  - intros i sl p Hi Hp. destruct (H3 i sl p Hi Hp) as (c & Hc & Hs). exists c. split; [by apply lookup_app_l_Some|done].
  - intros i sl d Hi Hd. destruct (H4 i sl d Hi Hd) as (e & He & Hu). exists e. split; [done|].
    intros p c Hp Hc. apply (Hu p c Hp). apply Hold; [done|by eapply Hlt].
  - intros p c Hc Ho. destruct (decide (p < length (peers n))%nat) as [Hl|Hl].
    + destruct (H5 p c (Hold p c Hc Hl) Ho) as [?|[?|?]]; [by left|right; left; simpl; set_solver|by right; right].
    + right. left. apply lookup_lt_Some in Hc. rewrite length_app in Hc. simpl in Hc.
      replace p with (length (peers n)) by lia. simpl. set_solver.
  - intros p c [Hc|[_ [_ <-]%list_lookup_singleton_Some]]%lookup_app_Some; [by apply (H7 p)|done].
  - intros p Hp. destruct (H6 p Hp) as (c & Hc & Ho). exists c. split; [by apply lookup_app_l_Some|done].
Qed.

(** The new connection gets its slot; the one that was there, if open, is displaced. *)
Lemma owned_installed n s p c f cl :
  owned n → (∀ q, q ∈ closing n → q ≠ p → q ∈ cl) → peers n !! p = Some c → c_slot c = s →
  (∀ sl, slots n !! s = Some sl → s_peer (f sl) = Some p ∧ connecting (f sl) = None ∧
    ∀ q c, s_peer sl = Some q → peers n !! q = Some c → c_closed c = false → displaced n c) →
  (∃ sl, slots n !! s = Some sl) →
  owned (set_peers (upd_slot n s f) (peers n) cl (notifying n)).
Proof.
  intros [H1 H2 H3 H4 H5 H7 H6] Hcl' Hp Hs Hf [y Hy]. destruct (Hf y Hy) as (Hf1 & Hf2 & Hf3). split; simpl; try done.
  - intros i x q [(-> & z & Hz & ->)|[_ Hi]]%lookup_upd Hx; [|by eapply H3]. simplify_eq. exists c. eauto.
  - intros i x d [(-> & z & Hz & ->)|[_ Hi]]%lookup_upd Hx; [simplify_eq|by eapply H4].
  - intros q c' Hq Ho. destruct (decide (q = p)) as [->|Hne].
    { simplify_eq. left. exists (f y). simpl. by rewrite list_lookup_alter_eq, Hy. }
    destruct (H5 q c' Hq Ho) as [(x & Hx & Hxq)|[Hcl|?]]; [| |by right; right].
    + destruct (decide (c_slot c' = s)) as [E|Hns].
      * rewrite E in Hx. simplify_eq. right; right. by eapply Hf3.
      * left. exists x. simpl. by rewrite list_lookup_alter_ne.
    + right; left. by apply Hcl'.
Qed.

Lemma installed_giveUp d p sl : installed (giveUp d sl) p = installed sl p.
Proof. unfold giveUp. by case_decide. Qed.

Lemma giveUp_peer d sl : s_peer (giveUp d sl) = s_peer sl.
Proof. unfold giveUp. by case_decide. Qed.

(** An open peer of a slot that is being dialed has another endpoint than the dial. *)
Lemma dial_displaces n s sl ep d :
  owned n → slots n !! s = Some sl → connecting sl = Some d → (s, ep, d) ∈ flights n →
  ∀ q c, s_peer sl = Some q → peers n !! q = Some c → c_closed c = false → displaced n c.
Proof.
  intros H Hs Hc Hin q c Hq Hqc Ho. destruct (ow_current n H s sl d Hs Hc) as (e & He & Hu).
  pose proof (flight_unique (flights n) _ _ (ow_nodup n H) He Hin eq_refl) as [= ->].
  exists ep. split; [by apply not_eq_sym, (Hu q c)|].
  destruct (ow_slot n H s sl q Hs Hq) as (c' & Hc' & <-). rewrite Hqc in Hc'. injection Hc' as <-.
  by destruct (ow_flights n H (c_slot c) ep d He).
Qed.

Lemma owned_connect n i res now jitter n' : owned n → connectSlot n i res now jitter = Some n' → owned n'.
Proof.
  unfold connectSlot. intros H Hn. destruct (dials n !! i) as [[[s ep] d]|] eqn:Hi; [|done]. simpl in Hn.
  destruct (slots n !! s) as [sl|] eqn:Hs; [|done]. cbn [mbind option_bind] in Hn. apply delete_Permutation in Hi.
  generalize dependent (delete i (dials n)). intros dl Hi Hn. injection Hn as <-.
  assert (flights n ≡ₚ (s, ep, d) :: (starts n ++ dl)) as Hfl by (rewrite Hi; solve_Permutation). clear Hi.
  assert ((s, ep, d) ∈ flights n) as Hin by (rewrite Hfl; left). destruct (ow_flights n H s ep d Hin) as [_ Hcm].
  assert (owned (set_dials (upd_slot n s (giveUp d)) (starts n) dl (nextDone n) (claims n))) as Hg.
  { apply (owned_land n _ _ s ep d); [done..|]. intros x _. unfold giveUp.
    case_decide; split; [by left|by left|by left|by right]. }
  case_decide as Hd.
  - destruct res as [b|closed]; [exact Hg|]. exact (owned_dialed _ s ep closed Hg Hcm).
  - destruct (decide (connecting sl = Some d)) as [Hc|]; [|tauto].
    pose proof (dial_displaces n s sl ep d H Hs Hc Hin) as Hdis.
    destruct res as [b|closed].
    + apply (owned_land n _ _ s ep d); [done..|]. intros x Hx. simplify_eq. split; [|by left]. right. split; [done|].
      intros. right. by eapply Hdis.
    + pose proof (owned_dialed _ s ep closed Hg Hcm) as Hn.
      pose proof (owned_installed _ s (length (peers n)) (Conn s ep closed) (λ sl, installed sl (length (peers n)))
        (closing n) Hn) as Hown. simpl in Hown. unfold upd_slot, set_slots, set_dials, set_peers in *. simpl in *.
      erewrite alter_twice in Hown by apply installed_giveUp. apply Hown.
      * set_solver.
      * by rewrite lookup_app_r, Nat.sub_diag by done.
      * done.
      * intros x Hx. rewrite list_lookup_alter_eq, Hs in Hx. injection Hx as <-. split_and!; [done..|].
        intros q c Hq Hqc. apply (Hdis q c); [by rewrite <-(giveUp_peer d)|].
        destruct (ow_slot n H s sl q) as (c' & Hc' & _); [done|by rewrite <-(giveUp_peer d)|].
        rewrite lookup_app_l in Hqc by (by eapply lookup_lt_Some). done.
      * rewrite list_lookup_alter_eq, Hs. by eexists.
Qed.

Lemma lookup_fresh (l : list peerSlot) k i x : (l ++ replicate k newSlot) !! i = Some x →
  l !! i = Some x ∨ x = newSlot ∧ (length l ≤ i < length l + k)%nat.
Proof. intros [?|[? [-> ?]%lookup_replicate]]%lookup_app_Some; [by left|right; split; [done|lia]]. Qed.

Lemma owned_takeSlot n j n' : owned n → takeSlot n j = Some n' → owned n'.
Proof.
  unfold takeSlot. intros H Hn. destruct (resolved n !! j) as [[[id shard] ep]|]; [|done]. simpl in Hn.
  destruct (slotsOf n id) as [n1 ss] eqn:E. destruct (ss !! _); [|done]. injection Hn as <-.
  apply owned_callers.
  assert (owned (set_slots n (slots n ++ replicate (connectionsPerPeer n) newSlot))) as Hf.
  { destruct H as [H1 H2 H3 H4 H5 H7 H6]. split; simpl; try done.
    - intros i x p [Hi|[-> _]]%lookup_fresh Hp; [by eapply H3|done].
    - intros i x d [Hi|[-> _]]%lookup_fresh Hp; [by eapply H4|done].
    - intros p c Hp Ho. destruct (H5 p c Hp Ho) as [(x & Hx & Hxp)|?]; [|by right].
      left. exists x. split; [by apply lookup_app_l_Some|done]. }
  unfold slotsOf in E. destruct (manager n !! id) as [[|]|]; injection E as <- _; [|done|];
    by apply owned_manager.
Qed.

#[local] Hint Resolve owned_closePeer owned_detachAll : slots.

Lemma owned_step n a n' : owned n → step n a = Some n' → owned n'.
Proof.
  intros H. destruct a; simpl; intros Hn.
  3: by eapply owned_takeSlot.
  3: by eapply owned_visit.
  4: by eapply owned_start.
  4: by eapply owned_connect.
  5: by eapply owned_closeTaken.
  5: by eapply owned_notify.
  all: unfold ask, endpoint, install, closeChanged, stop, closeAll in Hn.
  - case_decide; [done|]. destruct (stopping n); simplify_eq; auto with slots.
  - destruct (asked n !! j) as [[id shard]|]; [|done]. injection Hn as <-.
    destruct (registry n !! id) as [[|]|]; auto with slots.
  - destruct (callers n !! k); [|done]. injection Hn as <-. auto with slots.
  - injection Hn as <-. auto with slots.
  - repeat case_decide; simplify_eq; auto with slots.
  - destruct (pendingReload n) as [ch|]; [|done]. injection Hn as <-. auto with slots.
  - case_decide; [done|]. injection Hn as <-. auto with slots.
  - destruct (stopping n && _); [|done]. injection Hn as <-. auto with slots.
Qed.

Lemma owned_init id reg lanes min max : owned (newNode id reg lanes min max).
Proof. split; simpl; try done; [set_solver|constructor|set_solver]. Qed.

Lemma owned_steps n l n' : owned n → steps n l = Some n' → owned n'.
Proof. apply runs_inv. intros n1 a n2. apply owned_step. Qed.

(** ** Without a Reload *)

(** As long as the registry is not reloaded, all the callers of a slot want the
    same endpoint, [ep] of the slot. *)
Record static (reg : gmap string string) (ep : nat → string) (n : node) : Prop := {
  sc_registry : registry n = reg ∧ pendingReload n = None;
  sc_resolved id shard e : (id, shard, e) ∈ resolved n → reg !! id = Some e;
  sc_manager id ss s : manager n !! id = Some ss → s ∈ ss → (s < length (slots n))%nat ∧ reg !! id = Some (ep s);
  sc_callers s e : (s, e) ∈ callers n → (s < length (slots n))%nat ∧ e = ep s;
  sc_claims s e : (s, e) ∈ claims n → (s < length (slots n))%nat ∧ e = ep s;
}.

(** What the steps other than takeSlot do to callers and claims. *)
Record moves (n n' : node) : Prop := {
  mv_registry : registry n' = registry n ∧ pendingReload n' = pendingReload n;
  mv_resolved x : x ∈ resolved n' → x ∈ resolved n ∨ registry n !! x.1.1 = Some x.2;
  mv_manager id ss : manager n' !! id = Some ss → manager n !! id = Some ss;
  mv_callers x : x ∈ callers n' → x ∈ callers n ∨ x ∈ claims n;
  mv_claims x : x ∈ claims n' → x ∈ callers n ∨ x ∈ claims n;
  mv_length : length (slots n') = length (slots n);
}.

Lemma static_moves reg ep n n' : static reg ep n → moves n n' → static reg ep n'.
Proof.
  intros [[H1 H1'] H2 H3 H4 H5] [[Hr Hp] Hrs Hm Hc Hcl Hl]. split; rewrite ?Hl.
  - by rewrite Hr, Hp.
  - intros id shard e [?|?]%Hrs; [by eapply H2|by rewrite <-H1].
  - intros id ss s Hss%Hm. by apply H3.
  - intros s e [?|?]%Hc; eauto.
  - intros s e [?|?]%Hcl; eauto.
Qed.

Lemma delete_sub {A} (l : list A) i x : x ∈ delete i l → x ∈ l.
Proof.
  intros (j & Hj)%list_elem_of_lookup. destruct (decide (j < i)%nat).
  - rewrite list_lookup_delete_lt in Hj by done. by eapply list_elem_of_lookup_2.
  - rewrite list_lookup_delete_ge in Hj by lia. by eapply list_elem_of_lookup_2.
Qed.

(** The easy cases: lists shrink or stay, slots are updated in place. *)
Ltac moving := split; simpl; rewrite ?length_alter; eauto using delete_sub.

Lemma closePeer_moves n p : moves n (closePeer n p).
Proof. unfold closePeer. destruct (peers n !! p) as [[? ? []]|]; moving. Qed.

Lemma visit_moves n k now jitter n' : callerVisits n k now jitter = Some n' → moves n n'.
Proof.
  unfold callerVisits. destruct (callers n !! k) as [[s ep]|] eqn:Hk; [|done]. simpl.
  destruct (slots n !! s) as [sl|]; [|done]. simpl. destruct (visit n sl ep now jitter) as [[] sl'];
    intros [= <-]; moving.
  intros x [?| ->%list_elem_of_singleton]%elem_of_app; [by right|left]. by eapply list_elem_of_lookup_2.
Qed.

Lemma start_moves n i n' : owned n → startDial n i = Some n' → moves n n'.
Proof.
  unfold startDial. intros H. destruct (starts n !! i) as [[[s ep] d]|] eqn:Hi; [|done]. simpl.
  case_decide; [done|]. destruct (stopping n); intros [= <-]; moving.
  intros x [?| ->%list_elem_of_singleton]%elem_of_app; [by left|right].
  apply (ow_flights n H s ep d). apply elem_of_app. left. by eapply list_elem_of_lookup_2.
Qed.

Lemma connect_moves n i res now jitter n' : connectSlot n i res now jitter = Some n' → moves n n'.
Proof.
  unfold connectSlot. destruct (dials n !! i) as [[[s ep] d]|]; [|done]. simpl.
  destruct (slots n !! s) as [sl|]; [|done]. simpl. case_decide; destruct res; intros [= <-]; moving.
Qed.

Lemma detachAll_admin n ss :
  let n' := detachAll n ss in
  registry n' = registry n ∧ pendingReload n' = pendingReload n ∧ resolved n' = resolved n ∧ manager n' = manager n ∧
  callers n' = callers n ∧ claims n' = claims n ∧ length (slots n') = length (slots n) ∧ dials n' = dials n ∧
  stopping n' = stopping n.
Proof.
  induction ss as [|s ss IH]; [by split_and!|]. cbn [detachAll foldr] in *. unfold detach, upd_slot.
  simpl. by rewrite length_alter.
Qed.

Lemma static_takeSlot reg ep n j n' :
  static reg ep n → takeSlot n j = Some n' → ∃ ep', static reg ep' n'.
Proof.
  unfold takeSlot. intros H Hn. destruct (resolved n !! j) as [[[id shard] e]|] eqn:Hj; [|done]. simpl in Hn.
  assert (reg !! id = Some e) as He by (by eapply sc_resolved, list_elem_of_lookup_2).
  assert (∀ x, x ∈ delete j (resolved n) → x ∈ resolved n) as Hdel.
  { intros x Hx. rewrite (delete_Permutation _ _ _ Hj). by right. }
  destruct H as [H1 H2 H3 H4 H5]. destruct (slotsOf n id) as [n1 ss] eqn:E.
  destruct (ss !! _) as [s|] eqn:Hs; [|done]. injection Hn as <-. apply list_elem_of_lookup_2 in Hs.
  assert (n1 = n ∧ manager n !! id = Some ss ∨
    n1 = set_manager (set_slots n (slots n ++ replicate (connectionsPerPeer n) newSlot)) (<[id:=ss]> (manager n)) ∧
    ss = seq (length (slots n)) (connectionsPerPeer n)) as [[-> Hm]|[-> ->]].
  { unfold slotsOf in E. destruct (manager n !! id) as [[|]|]; injection E as <- <-; auto. }
  - exists ep. split; simpl; try done; [intros; by eapply H2, Hdel|].
    intros i x [?|[= -> ->]%list_elem_of_singleton]%elem_of_app; [by apply H4|]. destruct (H3 id ss s Hm Hs). split; congruence.
  - set (k := connectionsPerPeer n) in *. apply elem_of_seq in Hs.
    exists (λ i, if decide (i < length (slots n))%nat then ep i else e).
    split; simpl; try done; rewrite ?length_app, ?length_replicate; [intros; by eapply H2, Hdel|..].
    + intros id' ss i. rewrite lookup_insert_Some. intros [[<- <-]|[_ Hm]] Hi.
      * apply elem_of_seq in Hi. rewrite decide_False by lia. split; [lia|done].
      * destruct (H3 id' ss i Hm Hi). rewrite decide_True by done. split; [lia|done].
    + intros i x [Hi|[= -> ->]%list_elem_of_singleton]%elem_of_app; [|rewrite decide_False by lia; split; [lia|done]].
      destruct (H4 i x Hi). rewrite decide_True by done. split; [lia|done].
    + intros i x Hi. destruct (H5 i x Hi). rewrite decide_True by done. split; [lia|done].
Qed.

Definition reloads (a : label) : bool := match a with LInstall _ => true | _ => false end.

Lemma step_moves n a n' :
  owned n → pendingReload n = None → reloads a = false → (∀ j, a ≠ LTakeSlot j) → step n a = Some n' → moves n n'.
Proof.
  intros Ho Hp Ha Hj Hn. destruct a; simpl in Hn; try done.
  - unfold ask in Hn. case_decide; [done|]. destruct (stopping n); injection Hn as <-; moving.
  - unfold endpoint in Hn. destruct (asked n !! j) as [[id shard]|]; [|done]. injection Hn as <-.
    destruct (registry n !! id) as [[|]|] eqn:Hid; moving.
    intros x [?| ->%list_elem_of_singleton]%elem_of_app; [by left|by right].
  - by destruct (Hj j).
  - by eapply visit_moves.
  - destruct (callers n !! k); [|done]. injection Hn as <-. moving.
  - by eapply start_moves.
  - by eapply connect_moves.
  - injection Hn as <-. apply closePeer_moves.
  - unfold closeTaken in Hn. destruct (closing n !! i) as [p|]; [|done]. injection Hn as <-.
    destruct (closePeer_moves n p). moving.
  - unfold notifySlot in Hn. destruct (notifying n !! i) as [p|]; [|done]. simpl in Hn.
    destruct (peers n !! p); [|done]. injection Hn as <-. moving.
  - unfold closeChanged in Hn. by rewrite Hp in Hn.
  - unfold stop in Hn. case_decide; [done|]. injection Hn as <-. moving.
  - unfold closeAll in Hn. destruct (stopping n && _); [|done]. injection Hn as <-.
    destruct (detachAll_admin n (concat (snd <$> map_to_list (manager n)))) as (E1 & E2 & E3 & E4 & E5 & E6 & E7 & _).
    split; simpl; rewrite ?E1, ?E2, ?E3, ?E5, ?E6, ?E7; auto. intros id ss. by rewrite lookup_empty.
Qed.

Lemma static_step reg ep n a n' :
  owned n → static reg ep n → reloads a = false → step n a = Some n' → ∃ ep', static reg ep' n'.
Proof.
  intros Ho H Ha Hn. assert ((∃ j, a = LTakeSlot j) ∨ ∀ j, a ≠ LTakeSlot j) as [[j ->]|Hj].
  { destruct a; try (by right); left. eauto. }
  - by eapply static_takeSlot.
  - exists ep. eapply static_moves; [done|]. eapply step_moves; [done|apply H|done..].
Qed.

(** ** Stop *)

(** Before closeAll every slot is in the manager; after it no slot has a peer, and
    the dials in progress find their slots closing. *)
Record settled (n : node) : Prop := {
  st_pending : pendingReload n = None;
  st_covered : closedAll n = false → ∀ s, (s < length (slots n))%nat → ∃ id ss, manager n !! id = Some ss ∧ s ∈ ss;
  st_closed : closedAll n = true → stopping n = true ∧ ∀ s sl, slots n !! s = Some sl →
    s_peer sl = None ∧ ∀ e d, (s, e, d) ∈ dials n → connecting sl = Some d → s_state sl = PeerClosing;
}.

Lemma detachAll_slots n ss s :
  slots (detachAll n ss) !! s = (if decide (s ∈ ss) then detachSlot else id) <$> slots n !! s.
Proof.
  induction ss as [|i ss IH]; [rewrite decide_False by apply not_elem_of_nil; change (detachAll n []) with n; by destruct (slots n !! s)|].
  change (slots (detachAll n (i :: ss))) with (alter detachSlot i (slots (detachAll n ss))).
  destruct (decide (s = i)) as [->|Hne].
  - rewrite list_lookup_alter_eq, IH, (decide_True (P := i ∈ i :: ss)) by left.
    destruct (slots n !! i); [|done]. simpl. by case_decide.
  - rewrite list_lookup_alter_ne, IH by done.
    destruct (decide (s ∈ ss)), (decide (s ∈ i :: ss)); set_solver.
Qed.

Lemma settled_closeAll n n' : settled n → closeAll n = Some n' → settled n'.
Proof.
  intros [H1 H2 H3]. unfold closeAll. destruct (stopping n) eqn:Hst; [|done].
  destruct (closedAll n) eqn:Hcl; [done|]. intros [= <-]. set (ss := concat _).
  destruct (detachAll_admin n ss) as (_ & E2 & _ & _ & _ & _ & E7 & _ & E9).
  split; simpl; rewrite ?E2, ?E9; try done. intros _. split; [done|]. intros s sl.
  rewrite detachAll_slots. destruct (slots n !! s) as [x|] eqn:Hx; [|done]. simpl.
  rewrite decide_True; [intros [= <-]; split; done|].
  destruct (H2 eq_refl s) as (id & l & Hm & Hs); [by eapply lookup_lt_Some|].
  apply list_elem_of_In, in_concat. exists l. split; [|by apply list_elem_of_In].
  apply list_elem_of_In, list_elem_of_fmap. exists (id, l). split; [done|]. by apply elem_of_map_to_list.
Qed.

(** A step that keeps slots without peers so, and does not touch manager or flags. *)
Lemma settled_quiet n n' :
  settled n → pendingReload n' = pendingReload n → closedAll n' = closedAll n → stopping n' = stopping n →
  (closedAll n = false → manager n' = manager n ∧ length (slots n') = length (slots n)) →
  (closedAll n = true → (∀ x, x ∈ dials n' → x ∈ dials n) ∧
     ∀ s sl', slots n' !! s = Some sl' → ∃ sl, slots n !! s = Some sl ∧ s_peer sl' = s_peer sl ∧
       ((connecting sl' = connecting sl ∧ s_state sl' = s_state sl) ∨
        ∀ e d, (s, e, d) ∈ dials n' → connecting sl' ≠ Some d)) →
  settled n'.
Proof.
  intros [H1 H2 H3] Hp Hc Hst Hb Ha. split; rewrite ?Hp, ?Hc, ?Hst; [done| |].
  - intros Hcl. destruct (Hb Hcl) as [-> ->]. by apply H2.
  - intros Hcl. destruct (H3 Hcl) as [? Hs]. destruct (Ha Hcl) as [Hd Hsl]. split; [done|].
    intros s sl' Hs'. destruct (Hsl s sl' Hs') as (sl & Hx & Hpe & Hcon). destruct (Hs s sl Hx) as [Hn Hclo].
    split; [congruence|]. intros e d He Hcd. destruct Hcon as [[E1 E2]|Hcon]; [|by destruct (Hcon e d)].
    rewrite E2. eapply Hclo; [by apply Hd|congruence].
Qed.

Lemma quiet_alter (n : node) (dl : list (nat * string * nat)) s f :
  (∀ sl, slots n !! s = Some sl → s_peer (f sl) = s_peer sl ∧
       ((connecting (f sl) = connecting sl ∧ s_state (f sl) = s_state sl) ∨
        ∀ e d, (s, e, d) ∈ dl → connecting (f sl) ≠ Some d)) →
  ∀ i sl', alter f s (slots n) !! i = Some sl' → ∃ sl, slots n !! i = Some sl ∧ s_peer sl' = s_peer sl ∧
       ((connecting sl' = connecting sl ∧ s_state sl' = s_state sl) ∨
        ∀ e d, (i, e, d) ∈ dl → connecting sl' ≠ Some d).
Proof.
  intros Hf i sl' [(-> & sl & Hs & ->)|[_ Hs]]%lookup_upd; [|by eauto 6]. exists sl. split; [done|]. by apply Hf.
Qed.

Lemma settled_visit n k now jitter n' : owned n → settled n → callerVisits n k now jitter = Some n' → settled n'.
Proof.
  unfold callerVisits. intros Ho H Hn. destruct (callers n !! k) as [[s ep]|]; [|done]. simpl in Hn.
  destruct (slots n !! s) as [sl|] eqn:Hs; [|done]. simpl in Hn. destruct (visit n sl ep now jitter) as [o sl'] eqn:Hv.
  apply (settled_quiet n); [done|by destruct o; injection Hn as <-..| |].
  { intros _. destruct o; injection Hn as <-; simpl; by rewrite length_alter. }
  intros Hcl. destruct (st_closed n H Hcl) as [_ Hsl]. destruct (Hsl s sl Hs) as [Hp _].
  assert (dials n' = dials n ∧ slots n' = alter (λ _, sl') s (slots n)) as [Hd ->] by (by destruct o; injection Hn as <-).
  rewrite Hd. split; [done|]. apply quiet_alter. intros x Hx. rewrite Hs in Hx. injection Hx as <-.
  unfold visit, usable in Hv. rewrite Hp in Hv. cbn [mbind option_bind] in Hv. cbv zeta in Hv. unfold dropClosed in Hv. rewrite Hp in Hv.
  destruct (connecting sl) eqn:Hc; [injection Hv as <- <-; auto|]. case_decide; injection Hv as <- <-; [auto|].
  split; [done|]. right. intros e d Hin [= <-].
  destruct (ow_flights n Ho s e (nextDone n)); [apply elem_of_app; by right|]. lia.
Qed.

Lemma settled_start n i n' : settled n → startDial n i = Some n' → settled n'.
Proof.
  unfold startDial. intros H Hn. destruct (starts n !! i) as [[[s ep] d]|]; [|done]. simpl in Hn.
  case_decide; [done|]. destruct (stopping n) eqn:Hst; injection Hn as <-; apply (settled_quiet n); try done.
  - intros _. simpl. by rewrite length_alter.
  - intros _. split; [done|]. apply quiet_alter. intros sl _. unfold abandon. case_decide; auto.
  - intros Hcl. destruct (st_closed n H Hcl). congruence.
Qed.

Lemma settled_connect n i res now jitter n' : settled n → connectSlot n i res now jitter = Some n' → settled n'.
Proof.
  unfold connectSlot. intros H Hn. destruct (dials n !! i) as [[[s ep] d]|] eqn:Hi; [|done]. simpl in Hn.
  destruct (slots n !! s) as [sl|] eqn:Hs; [|done]. cbn [mbind option_bind] in Hn.
  apply (settled_quiet n); [done|by repeat case_decide || destruct res; injection Hn as <-..| |].
  { intros _. case_decide; destruct res; injection Hn as <-; simpl; by rewrite length_alter. }
  intros Hcl. destruct (st_closed n H Hcl) as [_ Hsl]. destruct (Hsl s sl Hs) as [Hp Hc].
  rewrite decide_True in Hn; cycle 1.
  { destruct (decide (connecting sl = Some d)) as [E|]; [|by left]. right. right.
    eapply Hc; [by eapply list_elem_of_lookup_2|done]. }
  assert (dials n' = delete i (dials n) ∧ slots n' = alter (giveUp d) s (slots n)) as [-> ->]
    by (by destruct res; injection Hn as <-).
  split; [by intros x ?%delete_sub|]. apply quiet_alter. intros x _. unfold giveUp. case_decide; auto.
Qed.

Lemma settled_takeSlot n j n' : settled n → takeSlot n j = Some n' → settled n'.
Proof.
  intros [H1 H2 H3]. unfold takeSlot. destruct (resolved n !! j) as [[[id shard] ep]|]; [|done]. simpl.
  destruct (slotsOf n id) as [n1 ss] eqn:E. destruct (ss !! _); [|done]. intros [= <-].
  assert (n1 = n ∨ n1 = set_manager (set_slots n (slots n ++ replicate (connectionsPerPeer n) newSlot))
      (<[id := seq (length (slots n)) (connectionsPerPeer n)]> (manager n)) ∧
    ∀ l, manager n !! id = Some l → l = []) as [->|[-> Hid]]; [|by split|].
  { unfold slotsOf in E. destruct (manager n !! id) as [[|]|]; injection E as <- _; [right|by left|right];
      (split; [done|]); intros l [= ->] || done. done. }
  split; simpl; [done| |].
  - intros Hcl s Hs. rewrite length_app, length_replicate in Hs.
    destruct (decide (s < length (slots n))%nat) as [Hlt|].
    + destruct (H2 Hcl s Hlt) as (id' & l & Hm & Hin). exists id', l. split; [|done].
      rewrite lookup_insert_ne; [done|]. intros <-. rewrite (Hid l Hm) in Hin. by apply not_elem_of_nil in Hin.
    + eexists id, _. rewrite lookup_insert_eq. split; [done|]. apply elem_of_seq. lia.
  - intros Hcl. destruct (H3 Hcl) as [? Hs]. split; [done|].
    intros s sl [Hi|[-> _]]%lookup_fresh; [by apply Hs|]. split; done.
Qed.

Lemma settled_notify n i now jitter n' : settled n → notifySlot n i now jitter = Some n' → settled n'.
Proof.
  intros H. unfold notifySlot. destruct (notifying n !! i) as [p|]; [|done]. simpl.
  destruct (peers n !! p) as [c|]; [|done]. intros [= <-]. apply (settled_quiet n); try done.
  - intros _. simpl. by rewrite length_alter.
  - intros Hcl. destruct (st_closed n H Hcl) as [_ Hsl]. split; [done|].
    refine (quiet_alter n (dials n) (c_slot c) _ _). intros sl Hs. unfold peerClosed.
    destruct (Hsl _ _ Hs) as [Hp _]. case_decide; [congruence|auto].
Qed.

Lemma settled_callers n aq rs cs : settled n → settled (set_callers n aq rs cs).
Proof. intros [H1 H2 H3]. by split. Qed.

Lemma settled_peers n ps cl nt : settled n → settled (set_peers n ps cl nt).
Proof. intros [H1 H2 H3]. by split. Qed.
#[local] Hint Resolve settled_callers settled_peers : slots.

Lemma settled_step n a n' : owned n → settled n → reloads a = false → step n a = Some n' → settled n'.
Proof.
  intros Ho H Ha Hn. destruct a; simpl in Hn; try done.
  3: by eapply settled_takeSlot.
  3: by eapply settled_visit.
  4: by eapply settled_start.
  4: by eapply settled_connect.
  6: by eapply settled_notify.
  8: by eapply settled_closeAll.
  all: unfold ask, endpoint, closePeer, closeTaken, closeChanged, stop in Hn.
  - case_decide; [done|]. destruct (stopping n); simplify_eq; auto with slots.
  - destruct (asked n !! j) as [[id shard]|]; [|done]. injection Hn as <-.
    destruct (registry n !! id) as [[|]|]; auto with slots.
  - destruct (callers n !! k); [|done]. injection Hn as <-. auto with slots.
  - injection Hn as <-. destruct (peers n !! p) as [[? ? []]|]; auto with slots.
  - destruct (closing n !! i) as [p|]; [|done]. injection Hn as <-. unfold closePeer.
    destruct (peers n !! p) as [[? ? []]|]; auto with slots.
  - by rewrite (st_pending n H) in Hn.
  - case_decide; [done|]. injection Hn as <-. destruct H as [H1 H2 H3]. split; simpl; [done..|].
    intros Hcl. by destruct (H3 Hcl).
Qed.

(** The runs without a Reload. *)
Lemma quiet_steps n l n' :
  (∃ reg ep, owned n ∧ static reg ep n ∧ settled n) → Forall (λ a, reloads a = false) l → steps n l = Some n' →
  ∃ reg ep, owned n' ∧ static reg ep n' ∧ settled n'.
Proof.
  intros H Hl. revert H. apply (runs_inv_label step (λ n, ∃ reg ep, owned n ∧ static reg ep n ∧ settled n) (λ a, reloads a = false)); [|done]. clear.
  intros n a n1 Ha (reg & ep & Ho & Hst & Hse) E. destruct (static_step reg ep n a n1) as [ep' ?]; [done..|].
  exists reg, ep'. split_and!; [by eapply owned_step|done|by eapply settled_step].
Qed.

Lemma quiet_init id reg lanes min max :
  ∃ reg' ep, owned (newNode id reg lanes min max) ∧ static reg' ep (newNode id reg lanes min max) ∧
    settled (newNode id reg lanes min max).
Proof.
  exists reg, (λ _, EmptyString). split_and!; [apply owned_init|split; simpl; try done; set_solver|split; simpl; try done; lia].
Qed.

Lemma static_owner reg ep n p c :
  owned n → static reg ep n → peers n !! p = Some c → c_closed c = false →
  (∃ sl, slots n !! c_slot c = Some sl ∧ s_peer sl = Some p) ∨ p ∈ closing n.
Proof.
  intros Ho H Hp Hc. destruct (ow_open n Ho p c Hp Hc) as [?|[?|(e & Hne & He)]]; [by left|by right|].
  destruct (sc_claims _ _ _ H _ _ (ow_claimed n Ho p c Hp)), (sc_claims _ _ _ H _ _ He). congruence.
Qed.

(** C30 (no connection is lost): at every moment each open connection of a node is
    held by the slot it was dialed for, or is about to be closed by the goroutine
    that took it out, or another endpoint was dialed for the slot. Without a
    Reload the third never happens, so a slot has one open connection at most. *)
Theorem connections_owned id reg lanes min max l n :
  steps (newNode id reg lanes min max) l = Some n →
  (∀ p c, peers n !! p = Some c → c_closed c = false → accounted n p c) ∧
  (Forall (λ a, reloads a = false) l →
   ∀ p q c c', peers n !! p = Some c → peers n !! q = Some c' → c_closed c = false → c_closed c' = false →
     p ∉ closing n → q ∉ closing n → c_slot c = c_slot c' → p = q).
Proof.
  intros Hn. split.
  - apply ow_open. by eapply owned_steps; [apply owned_init|].
  - intros Hl. destruct (quiet_steps _ _ _ (quiet_init id reg lanes min max) Hl Hn) as (reg' & ep & Ho & Hs & _).
    intros p q c c' Hp Hq Hc Hc' Hnp Hnq Heq.
    destruct (static_owner reg' ep n p c Ho Hs Hp Hc) as [(x & Hx & Hxp)|]; [|done].
    destruct (static_owner reg' ep n q c' Ho Hs Hq Hc') as [(y & Hy & Hyq)|]; [|done]. rewrite Heq in Hx. congruence.
Qed.

(** Stop closes the connections: in a run without a Reload, once Stop has
    detached the slots of the manager, every open connection is about to be closed,
    also those of dials that were in progress and of callers still in peerFor. *)
Theorem stop_closes id reg lanes min max l n p c :
  steps (newNode id reg lanes min max) l = Some n → Forall (λ a, reloads a = false) l → closedAll n = true →
  peers n !! p = Some c → c_closed c = false → p ∈ closing n.
Proof.
  intros Hn Hl Hcl Hp Hc.
  destruct (quiet_steps _ _ _ (quiet_init id reg lanes min max) Hl Hn) as (reg' & ep & Ho & Hs & Hst).
  destruct (static_owner reg' ep n p c Ho Hs Hp Hc) as [(x & Hx & Hxp)|]; [|done].
  destruct (st_closed n Hst Hcl) as [_ Hsl]. destruct (Hsl _ x Hx). congruence.
Qed.

(** ** Examples *)

Definition exReg (ep : string) : gmap string string := <["a" := "a:1"]> (<["b" := ep]> ∅).
Definition exNode : node := newNode "a" (exReg "b:1") 1 100 1000.

(** A caller of node b dials; Stop comes while a second caller is in the loop. *)
Definition exRun : list label :=
  [LAsk "b" 7; LEndpoint 0; LTakeSlot 0; LVisit 0 0 1000; LStart 0; LAsk "b" 7; LEndpoint 0; LTakeSlot 0;
   LVisit 1 0 1000; LDialed 0 (Dialed false) 5 1000; LStop; LCloseAll; LVisit 0 6 1000].

Lemma connections_owned_witness :
  accounted (default exNode (steps exNode (take 10 exRun))) 0 (Conn 0 "b:1" false).
Proof.
  destruct (connections_owned "a" (exReg "b:1") 1 100 1000 (take 10 exRun) (default exNode (steps exNode (take 10 exRun))))
    as [H _]; [vm_compute; reflexivity|]. apply H; vm_compute; reflexivity.
Defined.

Lemma stop_closes_witness : 0%nat ∈ closing (default exNode (steps exNode exRun)).
Proof.
  apply (stop_closes "a" (exReg "b:1") 1 100 1000 exRun _ 0 (Conn 0 "b:1" false)).
  - vm_compute; reflexivity.
  - repeat constructor.
  - vm_compute; reflexivity.
  - vm_compute; reflexivity.
  - reflexivity.
Defined.

(** A Reload moves b to another endpoint while a caller has read the old one and
    not yet taken a slot; that caller dials the old endpoint for the new slot. *)
Definition raceRun (res : dialed) : list label :=
  [LAsk "b" 7; LEndpoint 0; LInstall (exReg "b:2"); LCloseChanged;
   LAsk "b" 7; LEndpoint 0; LTakeSlot 1; LVisit 0 0 1000; LStart 0; LDialed 0 (Dialed false) 5 1000;
   LTakeSlot 0; LVisit 1 6 1000; LStart 0; LDialed 0 res 7 1000; LStop; LCloseAll].

(** The connection at index [p] is open, no slot holds it and nobody will close it. *)
Definition leaked (n : node) (p : nat) : bool :=
  negb (isClosed n p) && bool_decide (p ∉ closing n) && forallb (λ sl, bool_decide (s_peer sl ≠ Some p)) (slots n).

(** A Reload can lose a connection: a caller that read the endpoint before the
    Reload and takes its slot after it replaces the slot's connection to the new
    endpoint, whether its own dial succeeds or not; the old connection stays open
    without an owner, and Stop does not close it. *)
Theorem reload_race_leaks res :
  closedAll (default exNode (steps exNode (raceRun res))) = true ∧ leaked (default exNode (steps exNode (raceRun res))) 0 = true.
Proof. destruct res as [[]|[]]; vm_compute; by split. Qed.

(** A caller in the loop redials for a slot that a Reload has detached: the
    connection is in a slot the manager has forgotten, and Stop does not close it. *)
Definition orphanRun : list label :=
  [LAsk "b" 7; LEndpoint 0; LTakeSlot 0; LInstall (exReg "b:2"); LCloseChanged; LVisit 0 0 1000; LStart 0;
   LDialed 0 (Dialed false) 5 1000; LStop; LCloseAll].

Example orphan_survives_stop :
  let n := default exNode (steps exNode orphanRun) in
  closedAll n = true ∧ isClosed n 0 = false ∧ closing n = [].
Proof. vm_compute. by split_and!. Qed.

End Slots.
