(* ===== verification/NodeLife.v ===== *)
(** * The life of a node (src/cluster/node.go: Start, Reload, Stop; inbound.go: acceptLoop,
    acceptConn; managers.go: registryManager)

    Start installs a snapshot of the registry and accepts connections, Reload installs
    another one and closes the connections of the nodes that changed, Stop closes them
    all. Steps are critical sections and the waits between them; [Slots] has the outgoing
    connections. *)

From S2P Require Import Prelude Slots.

Module NodeLife.

(** Where acceptConn is: before the hello is checked, before the answer is written, before
    the connection is registered, in the read loop, after its close, or over. *)
Inductive phase := Handshaking | Verified | Answered | Serving | Ending | Gone.
#[global] Instance phase_eq_dec : EqDecision phase.
Proof. solve_decision. Defined.

(** [seen] records the endpoint of the remote node when the hello was checked, [moved]
    whether an endpoint was installed since without closing this connection. *)
Record iconn := IConn { remote : string; ph : phase; open : bool; seen : string; moved : bool }.

(** A goroutine in Start: before the snapshot is installed, with a listener. *)
Inductive starter := Loaded (next : gmap string string) | Listening (l : nat).

(** [listeners]: which listeners are open; [listener]: that of the node; [looping]: the
    accept loop runs; [closing]: the connections Reload or Stop is about to close. *)
Record node := Node {
  localNode : string;
  registry : gmap string string;
  started : bool;
  stopping : bool;
  starters : list starter;
  listeners : list bool;
  listener : option nat;
  looping : bool;
  conns : list iconn;
  closing : list nat;
}.

Definition New (id : string) : node := Node id ∅ false false [] [] None false [] [].

Definition set_start (n : node) (reg : gmap string string) (st : bool) (ss : list starter) (ls : list bool) (l : option nat) (lp : bool) (cs : list iconn) : node :=
  Node (localNode n) reg st (stopping n) ss ls l lp cs (closing n).
Definition set_conns (n : node) (cs : list iconn) : node :=
  Node (localNode n) (registry n) (started n) (stopping n) (starters n) (listeners n) (listener n) (looping n) cs (closing n).
Definition set_closing (n : node) (reg : gmap string string) (st : bool) (cs : list iconn) (cl : list nat) : node :=
  Node (localNode n) reg (started n) st (starters n) (listeners n) (listener n) (looping n) cs cl.
Definition set_loop (n : node) (ls : list bool) (lp : bool) : node :=
  Node (localNode n) (registry n) (started n) (stopping n) (starters n) ls (listener n) lp (conns n) (closing n).

(** Whether the connection is in Node.inbound. *)
Definition registered (c : iconn) : bool := match ph c with Serving | Ending => true | _ => false end.

Definition with_phase (c : iconn) (f : phase) : iconn := IConn (remote c) f (open c) (seen c) (moved c).
Definition closed (c : iconn) (f : phase) : iconn := IConn (remote c) f false (seen c) (moved c).
Definition move (ch : gset string) (c : iconn) : iconn :=
  IConn (remote c) (ph c) (open c) (seen c) (moved c || bool_decide (remote c ∈ ch)).

(** ** Start *)

(** registryManager.install; the second component tells which nodes changed. *)
Definition install (n : node) (next : gmap string string) : option (gmap string string * gset string) :=
  if decide (Slots.get next (localNode n) = EmptyString) then None else Some (next, Slots.changed (registry n) next).

(** Load returned a snapshot. *)
Definition load (n : node) (next : gmap string string) : node :=
  set_start n (registry n) (started n) (starters n ++ [Loaded next]) (listeners n) (listener n) (looping n) (conns n).

(** install and net.Listen, which may fail. *)
Definition startInstall (n : node) (i : nat) (listens : bool) : option node :=
  match starters n !! i with
  | Some (Loaded next) =>
      let rest := delete i (starters n) in
      Some match install n next with
           | None => set_start n (registry n) (started n) rest (listeners n) (listener n) (looping n) (conns n)
           | Some (reg, ch) =>
               let cs := move ch <$> conns n in
               if listens
               then set_start n reg (started n) (rest ++ [Listening (length (listeners n))]) (listeners n ++ [true]) (listener n) (looping n) cs
               else set_start n reg (started n) rest (listeners n) (listener n) (looping n) cs
           end
  | _ => None
  end.

(** The critical section of Start. *)
Definition startCommit (n : node) (i : nat) : option node :=
  match starters n !! i with
  | Some (Listening l) =>
      let rest := delete i (starters n) in
      Some (if started n || stopping n
            then set_start n (registry n) (started n) rest (<[l := false]> (listeners n)) (listener n) (looping n) (conns n)
            else set_start n (registry n) true rest (listeners n) (Some l) true (conns n))
  | _ => None
  end.

(** ** acceptLoop and acceptConn *)

Definition accept (n : node) : option node :=
  l ← listener n;
  if looping n && default false (listeners n !! l)
  then Some (set_conns n (conns n ++ [IConn EmptyString Handshaking true EmptyString false])) else None.

(** The loop returns when the node stops. *)
Definition loopEnds (n : node) : option node :=
  if looping n && stopping n then Some (set_loop n (listeners n) false) else None.

(** The hello is read and verified; [source] is the node it names, [None] if it fails. *)
Definition hello (n : node) (k : nat) (source : option string) : option node :=
  c ← conns n !! k;
  match ph c with
  | Handshaking =>
      Some (set_conns n (<[k := match source with
                                | Some s =>
                                    if decide (Slots.get (registry n) s = EmptyString ∨ s = localNode n) then closed c Gone
                                    else IConn s Verified (open c) (Slots.get (registry n) s) false
                                | None => closed c Gone
                                end]> (conns n)))
  | _ => None
  end.

Definition answer (n : node) (k : nat) (written : bool) : option node :=
  c ← conns n !! k;
  match ph c with
  | Verified => Some (set_conns n (<[k := if written then with_phase c Answered else closed c Gone]> (conns n)))
  | _ => None
  end.

(** The critical section in which the connection is registered. *)
Definition register (n : node) (k : nat) : option node :=
  c ← conns n !! k;
  match ph c with
  | Answered => Some (set_conns n (<[k := if stopping n then closed c Gone else with_phase c Serving]> (conns n)))
  | _ => None
  end.

(** The read loop returns: close, then the connection leaves Node.inbound. *)
Definition serveEnds (n : node) (k : nat) : option node :=
  c ← conns n !! k;
  match ph c with Serving => Some (set_conns n (<[k := closed c Ending]> (conns n))) | _ => None end.

Definition unregister (n : node) (k : nat) : option node :=
  c ← conns n !! k;
  match ph c with Ending => Some (set_conns n (<[k := with_phase c Gone]> (conns n))) | _ => None end.

(** ** Reload and Stop *)

Definition inbound (n : node) (P : iconn → bool) : list nat :=
  filter (λ k, from_option (λ c, registered c && P c) false (conns n !! k) = true) (seq 0 (length (conns n))).

Definition reload (n : node) (next : gmap string string) : node :=
  match install n next with
  | None => n
  | Some (reg, ch) =>
      set_closing n reg (stopping n) ((λ c, if registered c then c else move ch c) <$> conns n)
        (closing n ++ inbound n (λ c, bool_decide (remote c ∈ ch)))
  end.

Definition stop (n : node) : node :=
  if stopping n then n else set_closing n (registry n) true (conns n) (closing n ++ inbound n (λ _, true)).

Definition closeListener (n : node) : option node :=
  if stopping n then Some match listener n with Some l => set_loop n (<[l := false]> (listeners n)) (looping n) | None => n end else None.

(** conn.close by Reload or Stop. *)
Definition closeOne (n : node) (i : nat) : option node :=
  k ← closing n !! i;
  c ← conns n !! k;
  Some (set_closing n (registry n) (stopping n) (<[k := closed c (ph c)]> (conns n)) (delete i (closing n))).

Inductive label :=
  | LLoad (next : gmap string string) | LInstall (i : nat) (listens : bool) | LCommit (i : nat)
  | LAccept | LLoopEnds
  | LHello (k : nat) (source : option string) | LAnswer (k : nat) (written : bool) | LRegister (k : nat)
  | LServeEnds (k : nat) | LUnregister (k : nat)
  | LReload (next : gmap string string) | LStop | LCloseListener | LCloseOne (i : nat).

Definition step (n : node) (a : label) : option node :=
  match a with
  | LLoad next => Some (load n next)
  | LInstall i listens => startInstall n i listens
  | LCommit i => startCommit n i
  | LAccept => accept n
  | LLoopEnds => loopEnds n
  | LHello k source => hello n k source
  | LAnswer k written => answer n k written
  | LRegister k => register n k
  | LServeEnds k => serveEnds n k
  | LUnregister k => unregister n k
  | LReload next => Some (reload n next)
  | LStop => Some (stop n)
  | LCloseListener => closeListener n
  | LCloseOne i => closeOne n i
  end.

Notation steps := (runs step).

(** ** The invariant *)

Record connOk (n : node) (k : nat) (c : iconn) : Prop := {
  co_gone : ph c = Gone ∨ ph c = Ending → open c = false;
  co_known : ph c = Verified ∨ ph c = Answered ∨ registered c = true → seen c ≠ EmptyString ∧ remote c ≠ localNode n;
  co_current : ph c = Verified ∨ ph c = Answered ∨ ph c = Serving → open c = true → moved c = false → k ∉ closing n →
    Slots.get (registry n) (remote c) = seen c;
  co_stopping : stopping n = true → ph c = Serving → open c = true → k ∈ closing n;
}.

Record inv (n : node) : Prop := {
  iv_conns k c : conns n !! k = Some c → connOk n k c;
  iv_closing k : k ∈ closing n → (k < length (conns n))%nat;
  iv_listener : is_Some (listener n) ↔ started n = true;
  iv_loop : looping n = true → started n = true;
}.

Lemma node_inv_new id : inv (New id).
Proof. split; cbn; [intros k c; by rewrite lookup_nil|set_solver|split; [by intros []|done]|done]. Qed.

(** One connection changes. *)
Lemma inv_conn n k c c' : inv n → conns n !! k = Some c → (connOk n k c → connOk n k c') → inv (set_conns n (<[k := c']> (conns n))).
Proof.
  intros [I1 I2 I3 I4] Hk Hc. split; cbn; try done.
  - intros k' x. rewrite list_lookup_insert_Some. intros [(-> & <- & _)|[_ Hx]].
    + destruct (Hc (I1 _ _ Hk)) as [C1 C2 C3 C4]. by split.
    + destruct (I1 _ _ Hx) as [C1 C2 C3 C4]. by split.
  - intros k' Hk'. rewrite length_insert. auto.
Qed.

(** The connection is closed and over. *)
Lemma connOk_gone n k c : connOk n k (closed c Gone).
Proof. split; cbn; try done; naive_solver. Qed.

Lemma get_unchanged old next r : Slots.get old r ≠ EmptyString → r ∉ Slots.changed old next → Slots.get next r = Slots.get old r.
Proof.
  intros Hg Hn. unfold Slots.changed in Hn. apply not_elem_of_union in Hn as [Hn _]. unfold Slots.get in Hg |- *.
  destruct (old !! r) as [v|] eqn:Hv; [|done]. cbn. apply dec_stable. intros Hne. apply Hn.
  apply elem_of_dom. exists v. apply map_lookup_filter_Some. split; [done|]. by right.
Qed.

Lemma inbound_elem n P k c : conns n !! k = Some c → registered c = true → P c = true → k ∈ inbound n P.
Proof.
  intros Hk Hr HP. unfold inbound. apply list_elem_of_filter. rewrite Hk. cbn. rewrite Hr, HP. split; [done|].
  apply elem_of_seq. apply lookup_lt_Some in Hk. lia.
Qed.
Lemma inbound_lt n P k : k ∈ inbound n P → (k < length (conns n))%nat.
Proof. unfold inbound. intros [_ Hk]%list_elem_of_filter. apply elem_of_seq in Hk. lia. Qed.

(** An installed snapshot, with the connections that are marked or closed for it. *)
Lemma connOk_install n n' k c c' ch next :
  connOk n k c → ch = Slots.changed (registry n) next → registry n' = next → stopping n' = stopping n → localNode n' = localNode n →
  (∀ x, x ∈ closing n → x ∈ closing n') →
  c' = c ∧ (registered c = true → remote c ∈ ch → k ∈ closing n') ∧ registered c = true ∨ c' = move ch c →
  connOk n' k c'.
Proof.
  intros [C1 C2 C3 C4] -> Hr Hs Hl Hcl Hc.
  assert (remote c' = remote c ∧ ph c' = ph c ∧ open c' = open c ∧ seen c' = seen c ∧ registered c' = registered c ∧ (moved c' = false → moved c = false))
    as (E1 & E2 & E3 & E4 & E5 & E6).
  { destruct Hc as [(-> & _ & _)| ->]; [by split_and!|]. split_and!; try done. cbn. by intros [? _]%orb_false_iff. }
  split; rewrite ?E1, ?E2, ?E3, ?E4, ?E5, ?Hs, ?Hl; try done.
  - intros Hp Ho Hm Hk. rewrite Hr. assert (k ∉ closing n) as Hk' by auto.
    pose proof (C3 Hp Ho (E6 Hm) Hk') as Hcur. assert (seen c ≠ EmptyString) as Hse.
    { apply C2. unfold registered. destruct Hp as [->|[->| ->]]; auto. }
    rewrite <-Hcur. apply get_unchanged; [congruence|]. intros Hin. destruct Hc as [(-> & Hcc & Hreg)| ->].
    + by apply Hk, Hcc.
    + cbn in Hm. apply orb_false_iff in Hm as [_ Hm]. by apply bool_decide_eq_false in Hm.
  - auto.
Qed.

Lemma reload_inv n next : inv n → inv (reload n next).
Proof.
  intros [I1 I2 I3 I4]. unfold reload, install. case_decide; [done|]. split; cbn; try done.
  - intros k c'. rewrite list_lookup_fmap. intros (c & Hk & ->)%fmap_Some.
    eapply (connOk_install n); [by apply I1|done..|cbn; set_solver|]. destruct (registered c) eqn:Hr; [left|by right].
    split_and!; [done| |done]. intros _ Hin. cbn. apply elem_of_app. right. eapply inbound_elem; [done..|]. by apply bool_decide_eq_true.
  - intros k. rewrite length_fmap. intros [?|?]%elem_of_app; [auto|by eapply inbound_lt].
Qed.

Lemma start_inv n i listens n' : inv n → startInstall n i listens = Some n' → inv n'.
Proof.
  intros [I1 I2 I3 I4] HE. unfold startInstall in HE. destruct (starters n !! i) as [[next|]|]; [|done..]. injection HE as <-.
  unfold install. case_decide; [split; cbn; try done; intros k c Hk; destruct (I1 k c Hk); by split|].
  destruct listens; (split; cbn; try done; [|intros k; rewrite length_fmap; auto]).
  all: intros k c'; rewrite list_lookup_fmap; intros (c & Hk & ->)%fmap_Some; eapply (connOk_install n); [by apply I1|done..|by right].
Qed.

(** The step leaves the connections alone. *)
Ltac same_conns H := match goal with |- ∀ k c, _ → connOk ?m k c => exact (H m eq_refl eq_refl eq_refl eq_refl eq_refl) end.

Lemma node_step_inv n a n' : inv n → step n a = Some n' → inv n'.
Proof.
  intros I HE. pose proof I as [I1 I2 I3 I4].
  assert (∀ m, localNode m = localNode n → registry m = registry n → stopping m = stopping n → conns m = conns n → closing m = closing n →
    ∀ k c, conns m !! k = Some c → connOk m k c) as Hsame.
  { intros m E1 E2 E3 E4 E5 k c. rewrite E4. intros Hk. destruct (I1 k c Hk) as [C1 C2 C3 C4]. by split; rewrite ?E1, ?E2, ?E3, ?E5. }
  destruct a as [next|i listens|i| | |k source|k written|k|k|k|next| | |i]; cbn [step] in HE.
  - injection HE as <-. split; cbn; try done. same_conns Hsame.
  - by eapply start_inv.
  - unfold startCommit in HE. destruct (starters n !! i) as [[|l]|]; try done. injection HE as <-.
    destruct (started n || stopping n) eqn:Hs; split; cbn; try done; same_conns Hsame.
  - unfold accept in HE. apply bind_Some in HE as (l & Hl & HE). destruct (_ && _); [|done]. injection HE as <-. split; cbn; try done.
    + intros k c. rewrite lookup_app_Some, list_lookup_singleton_Some. intros [Hk|(_ & _ & <-)].
      * destruct (I1 k c Hk). by split.
      * split; cbn; try done; naive_solver.
    + intros k Hk. rewrite length_app. specialize (I2 k Hk). lia.
  - unfold loopEnds in HE. destruct (_ && _); [|done]. injection HE as <-. split; cbn; try done. same_conns Hsame.
  - unfold hello in HE. apply bind_Some in HE as (c & Hk & HE). destruct (ph c) eqn:Hp; try done. injection HE as <-.
    eapply inv_conn; [done..|]. intros [C1 C2 C3 C4]. destruct source as [s|]; [|apply connOk_gone].
    case_decide as Hd; [apply connOk_gone|]. split; cbn; try done; [naive_solver|]. intros _. tauto.
  - unfold answer in HE. apply bind_Some in HE as (c & Hk & HE). destruct (ph c) eqn:Hp; try done. injection HE as <-.
    eapply inv_conn; [done..|]. intros [C1 C2 C3 C4]. destruct written; [|apply connOk_gone].
    split; cbn; try done; [naive_solver|auto|auto].
  - unfold register in HE. apply bind_Some in HE as (c & Hk & HE). destruct (ph c) eqn:Hp; try done. injection HE as <-.
    eapply inv_conn; [done..|]. intros [C1 C2 C3 C4]. destruct (stopping n) eqn:Hst; [apply connOk_gone|].
    split; cbn; try done; [naive_solver|auto|auto|congruence].
  - unfold serveEnds in HE. apply bind_Some in HE as (c & Hk & HE). destruct (ph c) eqn:Hp; try done. injection HE as <-.
    eapply inv_conn; [done..|]. intros [C1 C2 C3 C4]. split; cbn; try done. intros _. apply C2. unfold registered. rewrite Hp. auto.
  - unfold unregister in HE. apply bind_Some in HE as (c & Hk & HE). destruct (ph c) eqn:Hp; try done. injection HE as <-.
    eapply inv_conn; [done..|]. intros [C1 C2 C3 C4]. split; cbn; try done; [intros _; auto|naive_solver|naive_solver].
  - injection HE as <-. by apply reload_inv.
  - injection HE as <-. unfold stop. destruct (stopping n) eqn:Hs; [done|]. split; cbn; try done.
    + intros k c Hk. destruct (I1 k c Hk) as [C1 C2 C3 C4]. split; cbn; try done.
      * intros Hp Ho Hm Hcl. apply C3; try done. set_solver.
      * intros _ Hp Ho. apply elem_of_app. right. eapply inbound_elem; [done|by unfold registered; rewrite Hp|done].
    + intros k [?|?]%elem_of_app; [auto|by eapply inbound_lt].
  - unfold closeListener in HE. destruct (stopping n) eqn:Hst in HE; [|done]. injection HE as <-. destruct (listener n) as [l|] eqn:Hl; [|done].
    split; cbn; rewrite ?Hl; try done. same_conns Hsame.
  - unfold closeOne in HE. apply bind_Some in HE as (k & Hk & HE). apply bind_Some in HE as (c & Hc & [= <-]).
    pose proof (delete_Permutation _ _ _ Hk) as Hp. split; cbn; try done.
    + intros k' x. rewrite list_lookup_insert_Some. intros [(-> & <- & _)|[Hne Hx]].
      * destruct (I1 k' c Hc) as [C1 C2 C3 C4]. by split.
      * destruct (I1 k' x Hx) as [C1 C2 C3 C4]. split; cbn; try done.
        -- intros H1 H2 H3 H4. apply C3; try done. rewrite Hp. set_solver.
        -- intros H1 H2 H3. specialize (C4 H1 H2 H3). rewrite Hp in C4. set_solver.
    + intros k' Hk'. rewrite length_insert. apply I2. rewrite Hp. by right.
Qed.

Lemma node_inv_reachable id l n : steps (New id) l = Some n → inv n.
Proof. apply (runs_inv step inv); [apply node_step_inv|apply node_inv_new]. Qed.

(** All goroutines of the node have returned. *)
Definition quiet (n : node) : Prop := looping n = false ∧ Forall (λ c, ph c = Gone) (conns n).

(** C32 (safety): connections of other nodes are owned.  A connection serves only a node
    other than this one that the registry named when its hello was checked; unless it is
    about to be closed, or a snapshot was installed by Start or during the handshake, it
    still has the endpoint it had then. Once the node is stopping and has closed what it
    is about to close, no registered connection is open, and none can be registered;
    when the goroutines Stop waits for have returned, every connection is closed. *)
Theorem inbound_owned id l n :
  steps (New id) l = Some n →
  (∀ k c, conns n !! k = Some c → registered c = true → open c = true →
     remote c ≠ localNode n ∧ seen c ≠ EmptyString ∧
     (k ∈ closing n ∨ moved c = true ∨ Slots.get (registry n) (remote c) = seen c)) ∧
  (stopping n = true → closing n = [] → ∀ k c, conns n !! k = Some c → registered c = true → open c = false) ∧
  (stopping n = true → ∀ k n' c, register n k = Some n' → conns n' !! k = Some c → open c = false) ∧
  (quiet n → Forall (λ c, open c = false) (conns n)).
Proof.
  intros I%node_inv_reachable. pose proof I as [I1 I2 I3 I4]. split_and!.
  - intros k c Hk Hr Ho. destruct (I1 k c Hk) as [C1 C2 C3 C4]. destruct (C2 ltac:(auto)) as [? ?]. split_and!; [done..|].
    destruct (decide (k ∈ closing n)); [by left|]. destruct (moved c) eqn:Hm; [auto|]. right. right. apply C3; try done.
    unfold registered in Hr. destruct (ph c); auto; try done. by rewrite (C1 ltac:(auto)) in Ho.
  - intros Hs Hcl k c Hk Hr. destruct (I1 k c Hk) as [C1 C2 C3 C4]. unfold registered in Hr.
    destruct (open c) eqn:Ho; [|done]. destruct (ph c) eqn:Hp; try done; [|by apply C1; auto].
    specialize (C4 Hs eq_refl eq_refl). rewrite Hcl in C4. by apply not_elem_of_nil in C4.
  - intros Hs k n' c HE Hc. unfold register in HE. apply bind_Some in HE as (c0 & Hk & HE). destruct (ph c0); try done.
    injection HE as <-. rewrite Hs in Hc. cbn in Hc. rewrite list_lookup_insert_eq in Hc by (by eapply lookup_lt_Some). by injection Hc as <-.
  - intros [_ Hg]. rewrite Forall_forall in Hg |- *. intros c [k Hk]%list_elem_of_lookup.
    apply (co_gone _ _ _ (I1 k c Hk)). left. apply Hg. by eapply list_elem_of_lookup_2.
Qed.

(** ** Instances *)

Definition exampleRegistry : gmap string string := {[ "a" := "h:1"; "b" := "h:2" ]}.
Definition exampleReload : gmap string string := {[ "a" := "h:1"; "b" := "h:3" ]}.
Definition exampleServe : list label :=
  [LLoad exampleRegistry; LInstall 0 true; LCommit 0; LAccept; LHello 0 (Some "b"); LAnswer 0 true; LRegister 0].
Definition exampleNode : node := default (New "a") (steps (New "a") exampleServe).
Definition exampleStopped : node := default (New "a") (steps (New "a") (exampleServe ++ [LStop; LCloseOne 0])).

Lemma inbound_owned_witness :
  (stopping exampleStopped = true ∧ closing exampleStopped = []) ∧
  ∀ k c, conns exampleStopped !! k = Some c → registered c = true → open c = false.
Proof.
  split; [vm_compute; done|].
  refine (proj1 (proj2 (inbound_owned "a" (exampleServe ++ [LStop; LCloseOne 0]) exampleStopped _)) _ _); vm_compute; reflexivity.
Defined.

(** A Reload while a connection is between the check of its hello and its registration
    does not close it: the connection of a node that left the registry is served. *)
Example reload_during_handshake :
  let n := default (New "a") (steps (New "a")
    [LLoad exampleRegistry; LInstall 0 true; LCommit 0; LAccept; LHello 0 (Some "b"); LReload {[ "a" := "h:1" ]}; LAnswer 0 true; LRegister 0]) in
  (λ c, (registered c, open c, Slots.get (registry n) (remote c))) <$> conns n = [(true, true, EmptyString)] ∧ closing n = [].
Proof. vm_compute. done. Qed.

(** A second Start fails, but its snapshot stays installed and no connection of a node
    that changed is closed. *)
Example second_start_installs :
  let n := default (New "a") (steps (New "a") (exampleServe ++ [LLoad exampleReload; LInstall 0 true; LCommit 0])) in
  Slots.get (registry n) "b" = "h:3" ∧ (λ c, (open c, seen c)) <$> conns n = [(true, "h:2"%string)] ∧ closing n = [] ∧ listeners n = [true; false].
Proof. vm_compute. done. Qed.

End NodeLife.
