(* ===== verification/TcpSync.v ===== *)
(** * The synchronous connection pool (src/tcpsync)

    Clients of Pool.Do, the maintenance loop and Close share the channel of idle
    connections and the counter of live ones. Steps are what a goroutine does between
    two points at which others can interfere; closing a connection and taking it off
    the counter is one step, since nobody else can see the connection any more. *)

From S2P Require Import Prelude Frame.

Module TcpSync.
#[local] Open Scope list_scope.
#[local] Open Scope Z_scope.

(** ** Options *)

Record Options := Opts {
  MaxSize : Z;
  DialTimeout : Z;
  RequestTimeout : Z;
  RetryCount : Z;
  RetryDelays : list Z;
  HeartbeatInterval : Z;
  HeartbeatRequestTimeout : Z;
  Pinger : bool;
  IdleTimeout : Z;
  MaintenanceTick : Z;
}.

Definition atLeastSecond (t : Z) : Z := if decide (t < Second) then Second else t.

Definition setDefaults (o : Options) : Options :=
  let request := if decide (RequestTimeout o ≤ 0) then 5 * Second else RequestTimeout o in
  Opts (if decide (MaxSize o ≤ 0) then 100 else MaxSize o)
       (if decide (DialTimeout o ≤ 0) then request else DialTimeout o)
       request
       (if decide (RetryCount o < 0) then 0 else RetryCount o)
       (match RetryDelays o with [] => [10 * Millisecond; 30 * Millisecond; 60 * Millisecond] | ds => ds end)
       (HeartbeatInterval o)
       (if decide (HeartbeatRequestTimeout o ≤ 0) then 3 * Second else HeartbeatRequestTimeout o)
       (Pinger o)
       (IdleTimeout o)
       (if decide (MaintenanceTick o ≤ 0) then
          if decide (HeartbeatInterval o > 0) then atLeastSecond (Z.quot (HeartbeatInterval o) 2)
          else if decide (IdleTimeout o > 0) then atLeastSecond (Z.quot (IdleTimeout o) 10)
          else Minute
        else MaintenanceTick o).

Definition retryDelay (o : Options) (attemptIndex : nat) : Z :=
  match RetryDelays o with
  | [] => 60 * Millisecond
  | d :: ds => default (List.last (d :: ds) d) ((d :: ds) !! attemptIndex)
  end.

(** ** State *)

Inductive error := ErrPoolExhausted | ErrClosed | ErrContext | ErrDial | ErrDeadline | ErrConn | ErrIO (e : Frame.io_error) | ErrAttempts.
#[global] Instance error_eq_dec : EqDecision error.
Proof. solve_decision. Defined.

(** [netConn] tells whether the connection is not yet closed. *)
Record conn := Conn { netConn : bool; lastUsed : Z; lastPinged : option Z }.

(** Where a client is in Do, acquire, release and sleepRetry. *)
Inductive phase :=
  | Acquire | Select | Lock | Dial
  | Using (c : nat)
  | Releasing (c : nat) (r : result error (list Z))
  | Sleeping (d : Z)
  | Done (r : result error (list Z)).

(** [failures] records the errors of the attempts, the last one first; the head is
    the lastErr of Do. [attempt] counts them. *)
Record client := Client { request : list Z; attempt : nat; failures : list error; ph : phase }.

(** The maintenance loop collects the idle connections, then looks at each. *)
Inductive sweep := Collecting (batch : list nat) | Checking (batch : list nat).

Record pool := Pool {
  opts : Options;
  conns : list conn;
  idle : list nat;
  total : Z;
  closed : bool;
  closer : bool;
  sweeper : option sweep;
  clients : list client;
}.

Definition set_idle (p : pool) (l : list nat) : pool :=
  Pool (opts p) (conns p) l (total p) (closed p) (closer p) (sweeper p) (clients p).
Definition set_conns (p : pool) (cs : list conn) (t : Z) : pool :=
  Pool (opts p) cs (idle p) t (closed p) (closer p) (sweeper p) (clients p).
Definition set_closed (p : pool) (b cl : bool) : pool :=
  Pool (opts p) (conns p) (idle p) (total p) b cl (sweeper p) (clients p).
Definition set_sweeper (p : pool) (s : option sweep) : pool :=
  Pool (opts p) (conns p) (idle p) (total p) (closed p) (closer p) s (clients p).
Definition set_clients (p : pool) (cs : list client) : pool :=
  Pool (opts p) (conns p) (idle p) (total p) (closed p) (closer p) (sweeper p) cs.

(** New, without the logging: the maintenance loop runs if there is a heartbeat or
    an idle timeout. *)
Definition New (o : Options) : result unit pool :=
  let o := setDefaults o in
  if decide (MaxSize o ≤ 0) then Err tt else Ok (Pool o [] [] 0 false false None []).

Definition maintained (o : Options) : bool := bool_decide (HeartbeatInterval o > 0 ∨ IdleTimeout o > 0).

(** ** Connections *)

Definition closeConn (c : conn) : conn := Conn false (lastUsed c) (lastPinged c).
Definition used (now : Z) (c : conn) : conn := Conn (netConn c) now (lastPinged c).
Definition pinged (now : Z) (c : conn) : conn := Conn (netConn c) (lastUsed c) (Some now).

(** A connection is closed and taken off the counter. *)
Definition drop (p : pool) (c : nat) : pool := set_conns p (alter closeConn c (conns p)) (total p - 1).

(** The deadline of sendRecv. *)
Definition deadline (now timeout : Z) (ctx : option Z) : Z :=
  match ctx with Some dl => if decide (dl < now + timeout) then dl else now + timeout | None => now + timeout end.

(** [w] and [r] are the two directions of the connection until the deadline. *)
Definition sendRecv (c : conn) (req : list Z) (setDeadline : bool) (w : Frame.writer) (r : Frame.reader) : result error (list Z) :=
  if negb (netConn c) then Err ErrConn
  else if negb setDeadline then Err ErrDeadline
  else
    match snd (Frame.Write w req) with
    | Some e => Err (ErrIO e)
    | None => match fst (Frame.Read r) with Ok b => Ok b | Err e => Err (ErrIO e) end
    end.

(** ** Do *)

Definition maxAttempts (o : Options) : Z := 1 + RetryCount o.

Definition newClient (o : Options) (req : list Z) : client :=
  Client req 0 [] (if decide (0 < maxAttempts o) then Acquire else Done (Err ErrAttempts)).

Definition go (cl : client) (f : phase) : client := Client (request cl) (attempt cl) (failures cl) f.

(** An attempt has failed: the loop of Do goes on or ends. *)
Definition failAttempt (o : Options) (cl : client) (e : error) : client :=
  Client (request cl) (S (attempt cl)) (e :: failures cl)
    (if decide (Z.of_nat (S (attempt cl)) < maxAttempts o) then Sleeping (retryDelay o (attempt cl)) else Done (Err e)).

Definition afterRelease (o : Options) (cl : client) (r : result error (list Z)) : client :=
  match r with Ok resp => go cl (Done (Ok resp)) | Err e => failAttempt o cl e end.

(** What the outside world contributes to a step of a client: which ready case a
    select takes, the outcome of a dial, the two directions of a connection. *)
Inductive input :=
  | IGo | ICtx | IClosed
  | IDial (ok : bool) (now : Z)
  | ISend (setDeadline : bool) (w : Frame.writer) (r : Frame.reader)
  | IRelease (now : Z) (takeClosed : bool).

(** The end of release and of sweepIdle: back to the idle channel if there is room. *)
Definition putBack (p : pool) (c : nat) (takeClosed : bool) : pool :=
  if closed p && takeClosed then drop p c
  else if decide (Z.of_nat (length (idle p)) < MaxSize (opts p)) then set_idle p (idle p ++ [c])
  else drop p c.

Definition release (p : pool) (c : nat) (broken : bool) (now : Z) (takeClosed : bool) : pool :=
  if broken then drop p c
  else putBack (set_conns p (alter (used now) c (conns p)) (total p)) c takeClosed.

Definition clientStep (p : pool) (cl : client) (i : input) : option (pool * client) :=
  let o := opts p in
  match ph cl, i with
  | Acquire, IGo => Some (p, if closed p then failAttempt o cl ErrClosed else go cl Select)
  | Select, ICtx => Some (p, failAttempt o cl ErrContext)
  | Select, IGo =>
      match idle p with
      | c :: l => Some (set_idle p l, go cl (Using c))
      | [] => Some (p, go cl Lock)
      end
  | Lock, IGo =>
      if closed p then Some (p, failAttempt o cl ErrClosed)
      else if decide (MaxSize o ≤ total p) then Some (p, go cl (Done (Err ErrPoolExhausted)))
      else Some (set_conns p (conns p) (total p + 1), go cl Dial)
  | Dial, IDial ok now =>
      if ok then Some (set_conns p (conns p ++ [Conn true now None]) (total p), go cl (Using (length (conns p))))
      else Some (set_conns p (conns p) (total p - 1), failAttempt o cl ErrDial)
  | Using c, ISend sd w r =>
      x ← conns p !! c;
      Some (p, go cl (Releasing c (sendRecv x (request cl) sd w r)))
  | Releasing c r, IRelease now takeClosed =>
      Some (release p c (negb (is_ok r)) now takeClosed, afterRelease o cl r)
  | Sleeping d, ICtx => Some (p, go cl (Done (Err ErrContext)))
  | Sleeping d, IClosed => if closed p then Some (p, go cl (Done (Err ErrClosed))) else None
  | Sleeping d, IGo => Some (p, go cl Acquire)
  | _, _ => None
  end.

(** ** Maintenance and Close *)

Definition lastActivity (c : conn) : Z :=
  match lastPinged c with Some t => if decide (lastUsed c < t) then t else lastUsed c | None => lastUsed c end.

(** One connection of the batch of sweepIdle; [pingOK] is the answer of the Pinger. *)
Definition sweepConn (p : pool) (c : nat) (x : conn) (now : Z) (pingOK takeClosed : bool) : pool :=
  let o := opts p in
  if decide (IdleTimeout o > 0 ∧ now - lastUsed x > IdleTimeout o) then drop p c
  else if decide (HeartbeatInterval o > 0 ∧ Pinger o = true ∧ HeartbeatInterval o ≤ now - lastActivity x) then
    if pingOK then putBack (set_conns p (alter (pinged now) c (conns p)) (total p)) c takeClosed
    else drop p c
  else putBack p c takeClosed.

Inductive label :=
  | LDo (req : list Z)
  | LClient (k : nat) (i : input)
  | LTick
  | LSweep (now : Z) (pingOK takeClosed : bool)
  | LClose
  | LDrain.

Definition step (p : pool) (a : label) : option pool :=
  match a with
  | LDo req => Some (set_clients p (clients p ++ [newClient (opts p) req]))
  | LClient k i =>
      cl ← clients p !! k;
      '(p1, cl1) ← clientStep p cl i;
      Some (set_clients p1 (<[k := cl1]> (clients p1)))
  | LTick =>
      match sweeper p with
      | None => if maintained (opts p) then Some (if closed p then p else set_sweeper p (Some (Collecting []))) else None
      | Some _ => None
      end
  | LSweep now pingOK takeClosed =>
      match sweeper p with
      | Some (Collecting b) =>
          Some match idle p with
               | c :: l => set_sweeper (set_idle p l) (Some (Collecting (b ++ [c])))
               | [] => set_sweeper p (Some (Checking b))
               end
      | Some (Checking (c :: b)) =>
          x ← conns p !! c;
          Some (set_sweeper (sweepConn p c x now pingOK takeClosed) (Some (Checking b)))
      | Some (Checking []) => Some (set_sweeper p None)
      | None => None
      end
  | LClose => Some (if closed p then p else set_closed p true true)
  | LDrain =>
      if closer p then
        Some match idle p with
             | c :: l => drop (set_idle p l) c
             | [] => set_closed p (closed p) false
             end
      else None
  end.

Notation steps := (runs step).

(** ** Every live connection has one owner *)

Definition batch (p : pool) : list nat :=
  match sweeper p with Some (Collecting b) | Some (Checking b) => b | None => [] end.

Definition leased (cl : client) : option nat :=
  match ph cl with Using c | Releasing c _ => Some c | _ => None end.
Definition dialing (cl : client) : bool := match ph cl with Dial => true | _ => false end.

Definition dialed (cl : client) : nat := if dialing cl then 1 else 0.

(** The connections held by the channel, by the maintenance loop and by clients. *)
Definition owners (p : pool) : list nat := idle p ++ batch p ++ omap leased (clients p).

Definition isOpen (cs : list conn) (c : nat) : Prop := netConn <$> cs !! c = Some true.

Record owned (p : pool) (own : list nat) (dials : nat) : Prop := {
  ow_nodup : NoDup own;
  ow_open c : isOpen (conns p) c ↔ c ∈ own;
  ow_total : total p = Z.of_nat (length own + dials);
  ow_max : total p ≤ MaxSize (opts p);
}.

Definition inv (p : pool) : Prop := owned p (owners p) (sum_list_with dialed (clients p)).

Lemma owned_perm p own own' d : own ≡ₚ own' → owned p own d → owned p own' d.
Proof.
  intros Hp [H1 H2 H3 H4]. split; [by rewrite <-Hp| |by rewrite <-Hp|done]. intros c. by rewrite <-Hp.
Qed.

(** An operation on a connection that keeps it open. *)
Lemma isOpen_alter cs f c i : (∀ x, netConn (f x) = netConn x) → isOpen (alter f c cs) i ↔ isOpen cs i.
Proof.
  intros Hf. unfold isOpen. destruct (decide (i = c)) as [->|].
  - rewrite list_lookup_alter_eq. destruct (cs !! c); simpl; [|done]. by rewrite Hf.
  - by rewrite list_lookup_alter_ne.
Qed.

Lemma isOpen_close cs c i : isOpen (alter closeConn c cs) i ↔ isOpen cs i ∧ i ≠ c.
Proof.
  unfold isOpen. destruct (decide (i = c)) as [->|].
  - rewrite list_lookup_alter_eq. destruct (cs !! c); simpl; naive_solver.
  - rewrite list_lookup_alter_ne by done. naive_solver.
Qed.

Lemma owned_touch p own d f c t :
  (∀ x, netConn (f x) = netConn x) → t = total p → owned p own d → owned (set_conns p (alter f c (conns p)) t) own d.
Proof.
  intros Hf -> [H1 H2 H3 H4]. split; try done. intros i. simpl. by rewrite isOpen_alter.
Qed.

Lemma owned_drop p own d c : owned p (c :: own) d → owned (drop p c) own d.
Proof.
  intros [[Hc H1]%NoDup_cons H2 H3 H4]. split; simpl in *; [done| |lia..].
  intros i. rewrite isOpen_close, H2, elem_of_cons. split; [by intros [[?|?] ?]|]. intros Hi. split; [by right|]. by intros ->.
Qed.

Lemma owned_same p p' own d :
  conns p' = conns p → total p' = total p → opts p' = opts p → owned p own d → owned p' own d.
Proof. intros E1 E2 E3 [H1 H2 H3 H4]. split; rewrite ?E1, ?E2, ?E3; done. Qed.

(** putBack gives the connection to the channel or closes it. *)
Lemma owned_putBack p rest d c b :
  owned p (c :: idle p ++ rest) d → owned (putBack p c b) (idle (putBack p c b) ++ rest) d.
Proof.
  intros H. unfold putBack. destruct (closed p && b); [by apply owned_drop|]. case_decide; [|by apply owned_drop].
  apply (owned_same p); [done..|]. eapply owned_perm; [|done]. simpl. solve_Permutation.
Qed.

Lemma owned_release p rest d c broken now b :
  owned p (c :: idle p ++ rest) d → owned (release p c broken now b) (idle (release p c broken now b) ++ rest) d.
Proof.
  intros H. unfold release. destruct broken; [by apply owned_drop|]. apply owned_putBack. by apply owned_touch.
Qed.

Lemma owned_sweep p rest d c x now pk b :
  owned p (c :: idle p ++ rest) d → owned (sweepConn p c x now pk b) (idle (sweepConn p c x now pk b) ++ rest) d.
Proof.
  intros H. unfold sweepConn. case_decide; [by apply owned_drop|]. case_decide; [|by apply owned_putBack].
  destruct pk; [|by apply owned_drop]. apply owned_putBack. by apply owned_touch.
Qed.

Lemma delete_insert_same {A} (l : list A) k x : delete k (<[k := x]> l) = delete k l.
Proof. revert k. induction l as [|y l IH]; intros [|k]; [done..|]. change (y :: delete k (<[k := x]> l) = y :: delete k l). by rewrite IH. Qed.

(** One client among the others. *)
Lemma leased_split cls k cl : cls !! k = Some cl →
  omap leased cls ≡ₚ option_list (leased cl) ++ omap leased (delete k cls) ∧
  sum_list_with dialed cls = (dialed cl + sum_list_with dialed (delete k cls))%nat.
Proof.
  intros Hk. apply delete_Permutation in Hk. revert Hk. generalize (delete k cls). intros l Hk. rewrite Hk. split.
  - simpl. by destruct (leased cl).
  - done.
Qed.

Lemma leased_insert cls k cl cl' : cls !! k = Some cl →
  omap leased (<[k := cl']> cls) ≡ₚ option_list (leased cl') ++ omap leased (delete k cls) ∧
  sum_list_with dialed (<[k := cl']> cls) = (dialed cl' + sum_list_with dialed (delete k cls))%nat.
Proof.
  intros Hk. destruct (leased_split (<[k := cl']> cls) k cl') as [-> ->].
  { apply list_lookup_insert_eq. by eapply lookup_lt_Some. }
  by rewrite delete_insert_same.
Qed.

(** A failed attempt holds nothing. *)
Lemma fail_idle o cl e : leased (failAttempt o cl e) = None ∧ dialing (failAttempt o cl e) = false.
Proof. unfold leased, dialing, failAttempt. simpl. by case_decide. Qed.

Lemma after_idle o cl r : leased (afterRelease o cl r) = None ∧ dialing (afterRelease o cl r) = false.
Proof. destruct r; [done|apply fail_idle]. Qed.

(** What a step of a client does to its connections. *)
Lemma clientStep_owned p cl i p' cl' rest d :
  owned p (option_list (leased cl) ++ idle p ++ rest) (dialed cl + d) → clientStep p cl i = Some (p', cl') →
  owned p' (option_list (leased cl') ++ idle p' ++ rest) (dialed cl' + d).
Proof.
  unfold clientStep, dialed. intros H Hs.
  destruct (ph cl) eqn:Hph, i; try done; unfold leased, dialing in H; rewrite Hph in H; simpl in H.
  - destruct (closed p); injection Hs as <- <-; [|done].
    destruct (fail_idle (opts p) cl ErrClosed) as [-> ->]. done.
  - destruct (idle p) as [|c l] eqn:Hi; injection Hs as <- <-; simpl; [by rewrite Hi|]. by apply (owned_same p).
  - injection Hs as <- <-. destruct (fail_idle (opts p) cl ErrContext) as [-> ->]. done.
  - destruct (closed p); [injection Hs as <- <-; destruct (fail_idle (opts p) cl ErrClosed) as [-> ->]; done|].
    case_decide; injection Hs as <- <-; [done|]. destruct H as [H1 H2 H3 H4]. split; simpl; [done..|lia|lia].
  - destruct ok; injection Hs as <- <-.
    + destruct H as [H1 H2 H3 H4]. assert (length (conns p) ∉ idle p ++ rest) as Hn.
      { intros Hx%H2. unfold isOpen in Hx. rewrite lookup_ge_None_2 in Hx; done. }
      split; simpl in *; [by apply NoDup_cons| |lia..]. intros c. rewrite elem_of_cons, <-H2. unfold isOpen.
      destruct (decide (c < length (conns p))%nat) as [Hc|Hc]; [rewrite lookup_app_l by done; naive_solver lia|].
      rewrite (lookup_ge_None_2 (conns p)) by lia. rewrite lookup_app_r by lia.
      destruct (decide (c = length (conns p))) as [->|]; [rewrite Nat.sub_diag; naive_solver|].
      rewrite lookup_ge_None_2 by (simpl; lia). naive_solver.
    + destruct (fail_idle (opts p) cl ErrDial) as [-> ->]. destruct H as [H1 H2 H3 H4]. split; simpl in *; [done..|lia|lia].
  - destruct (conns p !! c); [|done]. simpl in Hs. by injection Hs as <- <-.
  - injection Hs as <- <-. destruct (after_idle (opts p) cl r) as [-> ->]. simpl. by apply owned_release.
  - injection Hs as <- <-. done.
  - injection Hs as <- <-. done.
  - destruct (closed p); [|done]. injection Hs as <- <-. done.
Qed.

Lemma clientStep_frame p cl i p' cl' :
  clientStep p cl i = Some (p', cl') → clients p' = clients p ∧ sweeper p' = sweeper p ∧ opts p' = opts p.
Proof.
  unfold clientStep, release, putBack, drop. intros Hs. destruct (ph cl) as [| | | |c| | |], i; try done.
  6: by destruct (conns p !! c); simplify_eq/=.
  all: repeat case_match; by simplify_eq/=.
Qed.

Lemma pool_step_inv p a p' : inv p → step p a = Some p' → inv p'.
Proof.
  unfold inv, owners. intros H Hs. destruct a; simpl in Hs.
  - injection Hs as <-. simpl. rewrite omap_app, sum_list_with_app. simpl.
    assert (leased (newClient (opts p) req) = None ∧ dialed (newClient (opts p) req) = 0%nat) as [-> ->]
      by (unfold leased, dialed, dialing, newClient; simpl; by case_decide).
    rewrite app_nil_r, !Nat.add_0_r. by apply (owned_same p).
  - destruct (clients p !! k) as [cl|] eqn:Hk; [|done]. simpl in Hs.
    destruct (clientStep p cl i) as [[p1 cl1]|] eqn:Hc; [|done]. injection Hs as <-. simpl.
    destruct (clientStep_frame p cl i p1 cl1 Hc) as (E1 & E2 & _). rewrite E1.
    destruct (leased_split _ _ _ Hk) as [L1 S1]. rewrite S1 in H. destruct (leased_insert _ _ _ cl1 Hk) as [L2 ->].
    eapply owned_perm in H; [|by rewrite L1].
    apply (owned_same p1); [done..|].
    assert (batch (set_clients p1 (<[k := cl1]> (clients p))) = batch p) as -> by (unfold batch; simpl; by rewrite E2).
    eapply owned_perm; [by rewrite L2|].
    eapply (owned_perm _ (option_list (leased cl1) ++ idle p1 ++ batch p ++ omap leased (delete k (clients p)))); [solve_Permutation|].
    eapply clientStep_owned; [|done]. eapply owned_perm; [|done]. solve_Permutation.
  - unfold batch in *. destruct (sweeper p) eqn:Hsw; [done|]. destruct (maintained (opts p)); [|done]. injection Hs as <-.
    destruct (closed p); [by rewrite Hsw|]. simpl. by apply (owned_same p).
  - unfold batch in *. destruct (sweeper p) as [[b|[|c b]]|] eqn:Hsw; [| | |done].
    + injection Hs as <-. destruct (idle p) as [|c l] eqn:Hi; simpl; rewrite ?Hi; apply (owned_same p); try done.
      eapply owned_perm; [|done]. simpl. solve_Permutation.
    + injection Hs as <-. by apply (owned_same p).
    + destruct (conns p !! c) as [x|] eqn:Hx; [|done]. injection Hs as <-. simpl.
      set (q := sweepConn _ _ _ _ _ _). assert (clients q = clients p) as ->.
      { unfold q, sweepConn, putBack. repeat case_match; done. }
      apply (owned_same q); [done..|]. apply owned_sweep. eapply owned_perm; [|done]. simpl. solve_Permutation.
  - injection Hs as <-. destruct (closed p); [done|]. by apply (owned_same p).
  - destruct (closer p); [|done]. injection Hs as <-. destruct (idle p) as [|c l] eqn:Hi; simpl; rewrite ?Hi.
    + by apply (owned_same p).
    + apply (owned_same (drop p c)); [done..|]. by apply owned_drop.
Qed.

(** ** Retries *)

(** What the phase of a client says about its attempts. *)
Definition phaseOK (o : Options) (cl : client) : Prop :=
  match ph cl with
  | Sleeping d => ∃ k, attempt cl = S k ∧ d = retryDelay o k ∧ Z.of_nat (attempt cl) < maxAttempts o
  | Done (Err e) =>
      e = ErrPoolExhausted ∧ Z.of_nat (attempt cl) < maxAttempts o ∨
      (e = ErrContext ∨ e = ErrClosed) ∧ (0 < attempt cl)%nat ∨
      head (failures cl) = Some e ∧ Z.of_nat (attempt cl) = maxAttempts o
  | Releasing _ r => r ≠ Err ErrPoolExhausted ∧ Z.of_nat (attempt cl) < maxAttempts o
  | _ => Z.of_nat (attempt cl) < maxAttempts o
  end.

Record tried (o : Options) (cl : client) : Prop := {
  tr_count : length (failures cl) = attempt cl ∧ Z.of_nat (attempt cl) ≤ maxAttempts o;
  tr_exhausted : ErrPoolExhausted ∉ failures cl;
  tr_phase : phaseOK o cl;
}.

Lemma tried_fail o cl e :
  e ≠ ErrPoolExhausted → Z.of_nat (attempt cl) < maxAttempts o → tried o cl → tried o (failAttempt o cl e).
Proof.
  intros He Hlt [[H1 H2] H3 _]. unfold failAttempt. split; simpl; [split; [by rewrite H1|lia]|set_solver|].
  unfold phaseOK. simpl. case_decide; [eauto|]. right; right. split; [done|lia].
Qed.

Lemma tried_go o cl f : tried o cl → phaseOK o (go cl f) → tried o (go cl f).
Proof. intros [H1 H2 _] H3. by split. Qed.

Lemma sendRecv_not_exhausted x req sd w r : sendRecv x req sd w r ≠ Err ErrPoolExhausted.
Proof. unfold sendRecv. repeat case_match; done. Qed.

Lemma clientStep_tried p cl i p' cl' : tried (opts p) cl → clientStep p cl i = Some (p', cl') → tried (opts p) cl'.
Proof.
  intros H Hs. pose proof (tr_phase _ _ H) as Hph. unfold clientStep in Hs. unfold phaseOK in Hph.
  destruct (ph cl) as [| | | |c|c r|d|r] eqn:E, i; try done.
  - destruct (closed p); injection Hs as <- <-; [by apply tried_fail|by apply tried_go].
  - destruct (idle p); injection Hs as <- <-; by apply tried_go.
  - injection Hs as <- <-. by apply tried_fail.
  - destruct (closed p); [injection Hs as <- <-; by apply tried_fail|].
    case_decide; injection Hs as <- <-; apply tried_go; try done. by left.
  - destruct ok; injection Hs as <- <-; [by apply tried_go|by apply tried_fail].
  - destruct (conns p !! c); [|done]. injection Hs as <- <-. apply tried_go; [done|]. split; [apply sendRecv_not_exhausted|done].
  - injection Hs as <- <-. destruct Hph as [Hr Hph]. destruct r as [b|e]; [by apply tried_go|].
    apply tried_fail; [congruence|done..].
  - injection Hs as <- <-. apply tried_go; [done|]. destruct Hph as (k & _ & _ & Hlt). exact Hlt.
  - injection Hs as <- <-. apply tried_go; [done|]. destruct Hph as (k & Hk & _ & ?). right; left. simpl. split; [by left|lia].
  - destruct (closed p); [|done]. injection Hs as <- <-. apply tried_go; [done|]. destruct Hph as (k & Hk & _ & ?).
    right; left. simpl. split; [by right|lia].
Qed.

Lemma step_opts p a p' : step p a = Some p' → opts p' = opts p.
Proof.
  intros Hs. destruct a; simpl in Hs.
  2: { destruct (clients p !! k) as [cl|]; [|done]. simpl in Hs. destruct (clientStep p cl i) as [[p1 cl1]|] eqn:Hc; [|done].
       injection Hs as <-. simpl. apply (clientStep_frame p cl i p1 cl1 Hc). }
  3: { destruct (sweeper p) as [[b|[|c b]]|]; [|by injection Hs as <-| |done]; [injection Hs as <-; by destruct (idle p)|].
       destruct (conns p !! c); [|done]. injection Hs as <-. simpl. unfold sweepConn, putBack. by repeat case_match. }
  all: repeat case_match; by simplify_eq/=.
Qed.

Lemma step_tried p a p' :
  0 ≤ RetryCount (opts p) → Forall (tried (opts p)) (clients p) → step p a = Some p' → Forall (tried (opts p)) (clients p').
Proof.
  intros Hr H Hs. destruct a; simpl in Hs.
  1: { injection Hs as <-. simpl. apply Forall_app. split; [done|]. apply Forall_singleton.
       unfold newClient, maxAttempts. rewrite decide_True by lia. split; simpl; [split; [done|unfold maxAttempts; lia]|set_solver|].
       unfold phaseOK, maxAttempts. simpl. lia. }
  1: { destruct (clients p !! k) as [cl|] eqn:Hk; [|done]. simpl in Hs. destruct (clientStep p cl i) as [[p1 cl1]|] eqn:Hc; [|done].
       injection Hs as <-. simpl. destruct (clientStep_frame p cl i p1 cl1 Hc) as (-> & _). apply Forall_insert; [done|].
       eapply clientStep_tried; [|done]. by eapply Forall_lookup_1. }
  2: { destruct (sweeper p) as [[b|[|c b]]|]; [|by injection Hs as <-| |done]; [injection Hs as <-; by destruct (idle p)|].
       destruct (conns p !! c); [|done]. injection Hs as <-. simpl. unfold sweepConn, putBack. by repeat case_match. }
  all: repeat case_match; by simplify_eq/=.
Qed.

Lemma New_spec o p : New o = Ok p → inv p ∧ clients p = [] ∧ opts p = setDefaults o ∧ 0 ≤ RetryCount (opts p).
Proof.
  unfold New. case_decide as Hm; [done|]. intros [= <-]. split_and!; try done.
  - split; [apply NoDup_nil_2| |done|change (0 ≤ MaxSize (setDefaults o)); lia]. intros c. unfold isOpen. simpl. split; [done|]. by intros ?%not_elem_of_nil.
  - simpl. case_decide; lia.
Qed.

Lemma steps_spec p l p' :
  inv p → 0 ≤ RetryCount (opts p) → Forall (tried (opts p)) (clients p) → steps p l = Some p' →
  inv p' ∧ opts p' = opts p ∧ Forall (tried (opts p)) (clients p').
Proof.
  intros Hi Hr Ht. apply (runs_inv step (λ q, inv q ∧ opts q = opts p ∧ Forall (tried (opts p)) (clients q))); [|done].
  intros q a q' (Hq & Ho & Hq') E. pose proof (step_opts q a q' E) as Ho'. rewrite <-Ho in *.
  split_and!; [by eapply pool_step_inv|done|by eapply step_tried].
Qed.

(** C31 (the pool is bounded and leases are exclusive): whatever clients, the
    maintenance loop and Close do, at most MaxSize connections are open; each open
    connection is idle, checked by the maintenance loop or leased, exactly one of
    these and once, and nobody holds a closed one; the counter is exact. *)
Theorem pool_bounded o p0 l p :
  New o = Ok p0 → steps p0 l = Some p →
  NoDup (owners p) ∧ (∀ c, isOpen (conns p) c ↔ c ∈ owners p) ∧
  Z.of_nat (length (owners p) + sum_list_with dialed (clients p)) = total p ∧ total p ≤ MaxSize (opts p).
Proof.
  intros (Hi & Hc & Ho & Hr)%New_spec Hs.
  destruct (steps_spec p0 l p Hi Hr) as ([H1 H2 H3 H4] & _); [by rewrite Hc|done|]. split_and!; [done| |by rewrite H3|done]. apply H2.
Qed.

(** Retries of Do: a request makes at most 1 + RetryCount attempts and never
    retries an exhausted pool; before the attempt after the k-th failure it waits
    the k-th delay; it fails with the exhausted pool, with the end of the context
    or of the pool during a wait, or with its last error after the last attempt. *)
Theorem do_retries o p0 l p cl :
  New o = Ok p0 → steps p0 l = Some p → cl ∈ clients p → tried (setDefaults o) cl.
Proof.
  intros (Hi & Hc & Ho & Hr)%New_spec Hs Hcl.
  destruct (steps_spec p0 l p Hi Hr) as (_ & _ & Ht); [by rewrite Hc|done|]. rewrite <-Ho. by eapply Forall_forall.
Qed.

(** ** Sharded pools (sharded_pools.go) *)

(** The loop of NewShardedPools; a failure closes the pools made so far. *)
Fixpoint newShards (addrs : list string) (o : Options) : result unit (list pool) :=
  match addrs with
  | [] => Ok []
  | _ :: addrs =>
      match New o with
      | Err e => Err e
      | Ok p => match newShards addrs o with Ok ps => Ok (p :: ps) | Err e => Err e end
      end
  end.

Definition NewShardedPools (addrs : list string) (o : Options) : result unit (list pool) :=
  match addrs with [] => Err tt | _ => newShards addrs o end.

(** [None] is the panic of an index out of range or of a division by zero. *)
Definition For (shards : list pool) (uid : Z) : option pool :=
  if decide (length shards = 1%nat ∨ uid = 0) then shards !! 0%nat
  else if decide (u32 (Z.of_nat (length shards)) = 0) then None
  else shards !! Z.to_nat (uid mod u32 (Z.of_nat (length shards))).

Definition closeShards (shards : list pool) : list pool :=
  (λ p, if closed p then p else set_closed p true true) <$> shards.

Lemma newShards_length addrs o : ∃ ps, newShards addrs o = Ok ps ∧ length ps = length addrs.
Proof.
  induction addrs as [|a addrs (ps & IH & Hl)]; [by exists []|]. simpl.
  assert (∃ p, New o = Ok p) as [p ->].
  { unfold New. rewrite decide_False; [by eexists|]. simpl. case_decide; lia. }
  rewrite IH. exists (p :: ps). split; [done|]. simpl. by rewrite Hl.
Qed.

(** Sharding is total: with at least one address every user has a pool, and the pool
    depends on the user only. *)
Theorem sharded_total addrs o uid :
  addrs ≠ [] → Z.of_nat (length addrs) < 2 ^ 32 → 0 ≤ uid →
  ∃ ps, NewShardedPools addrs o = Ok ps ∧ is_Some (For ps uid).
Proof.
  intros Ha Hl Hu. destruct (newShards_length addrs o) as (ps & Hps & Hlen). exists ps.
  split; [by destruct addrs|]. unfold For. destruct addrs as [|a addrs]; [done|]. simpl in *.
  case_decide; [apply lookup_lt_is_Some_2; lia|]. unfold u32 in *. rewrite wrapu_small by lia.
  rewrite decide_False by lia. apply lookup_lt_is_Some_2.
  pose proof (Z.mod_pos_bound uid (Z.of_nat (length ps))). lia.
Qed.

(** ** Examples *)

Definition exOptions : Options := Opts 1 0 0 1 [] 0 0 false 0 0.
Definition exPool : pool := Pool (setDefaults exOptions) [] [] 0 false false None [].

Definition exchange (resp : list Z) : input := ISend true (Frame.Writer [] []) (Frame.Reader (Frame.encode resp) Frame.EOF).

(** Two clients and one connection: the first dial fails, the second client is
    turned away while the first one waits for its answer. *)
Definition exRun : list label :=
  [LDo [1; 2]; LClient 0 IGo; LClient 0 IGo; LClient 0 IGo; LClient 0 (IDial false 5); LClient 0 IGo; LClient 0 IGo;
   LClient 0 IGo; LClient 0 IGo; LClient 0 (IDial true 7); LDo [3]; LClient 1 IGo; LClient 1 IGo; LClient 1 IGo;
   LClient 0 (exchange [9])].

Lemma pool_bounded_witness : NoDup (owners (default exPool (steps exPool exRun))).
Proof. refine (proj1 (pool_bounded exOptions exPool exRun _ _ _)); vm_compute; reflexivity. Defined.

Lemma do_retries_witness :
  tried (setDefaults exOptions) (Client [1; 2] 1 [ErrDial] (Releasing 0 (Ok [9]))) ∧
  tried (setDefaults exOptions) (Client [3] 0 [] (Done (Err ErrPoolExhausted))).
Proof.
  split; apply (do_retries exOptions exPool exRun (default exPool (steps exPool exRun)));
    try (vm_compute; reflexivity); vm_compute; [left|right; left].
Defined.

(** A release that runs after Close has drained the channel can put its connection
    into the channel, since select chooses among the ready cases at random: the
    connection stays open in a closed pool. *)
Example late_release_leaks :
  steps exPool (exRun ++ [LClose; LDrain; LClient 0 (IRelease 9 false)])
  = Some (Pool (setDefaults exOptions) [Conn true 9 None] [0%nat] 1 true false None
            [Client [1; 2] 1 [ErrDial] (Done (Ok [9])); Client [3] 0 [] (Done (Err ErrPoolExhausted))]).
Proof. vm_compute. reflexivity. Qed.

End TcpSync.
