(* ===== verification/TcpPool.v ===== *)
(** * The persistent connection pool (src/tcppool)

    Each slot of the pool has a goroutine that dials, publishes and reconnects
    (lifecycle) and one that writes the queued messages (sendLoop). Steps are their
    critical sections, those of stop, and the admission of messages by senders. *)

From S2P Require Import Prelude.

Module TcpPool.
#[local] Open Scope list_scope.
#[local] Open Scope Z_scope.

(** ** Options *)

(** The jitter fraction is a floating point number; only what it contributes to a
    delay matters here, and that is an argument of nextBackoff. *)
Record Options := Opts {
  PoolSize : Z;
  ReconnectInitial : Z;
  ReconnectMax : Z;
  StableThreshold : Z;
  SendBufSize : Z;
}.

Definition orDefault (x d : Z) : Z := if decide (x ≤ 0) then d else x.

Definition setDefaults (o : Options) : Options :=
  Opts (orDefault (PoolSize o) 1) (orDefault (ReconnectInitial o) Second) (orDefault (ReconnectMax o) (10 * Second))
       (orDefault (StableThreshold o) (5 * Second)) (orDefault (SendBufSize o) 128).

(** [jitter] is next * JitterFraction * rand, which is not negative. *)
Definition nextBackoff (cur max jitter : Z) : Z :=
  let next := if decide (cur * 2 > max) then max else cur * 2 in
  if decide (next + jitter > max) then max else next + jitter.

(** ** One slot *)

Section slot.
Context {D : Type}.

Inductive lifecycle :=
  | Top | Dialing
  | Ready (c : nat)
  | Reading (c : nat) (connAt : Z)
  | Waiting
  | ReadDone (c : nat) (connAt : Z)
  | Closing (c : nat) (connAt : Z)
  | Sleeping
  | Ended.

Inductive sending := Idle | WaitConn (d : D) | Writing (d : D) (c : nat) | Stopped.

(** [opened] tells for each connection of the slot whether it is still open;
    [accepted] and [handled] record the messages send admitted and the loop has
    written ([true]) or failed to write. [stopLocked] says that stop has run its
    critical section. *)
Record poolConn := Slot {
  readFn : bool;
  stopped : bool;
  stopLocked : bool;
  conn : option nat;
  opened : list bool;
  sendCh : list D;
  life : lifecycle;
  backoff : Z;
  sender : sending;
  accepted : list D;
  handled : list (D * bool);
}.

Definition newPoolConn (o : Options) (read : bool) : poolConn :=
  Slot read false false None [] [] Top (ReconnectInitial o) Idle [] [].

Definition set_conn (p : poolConn) (c : option nat) (op : list bool) : poolConn :=
  Slot (readFn p) (stopped p) (stopLocked p) c op (sendCh p) (life p) (backoff p) (sender p) (accepted p) (handled p).
Definition set_stop (p : poolConn) (s l : bool) : poolConn :=
  Slot (readFn p) s l (conn p) (opened p) (sendCh p) (life p) (backoff p) (sender p) (accepted p) (handled p).
Definition set_life (p : poolConn) (l : lifecycle) (b : Z) : poolConn :=
  Slot (readFn p) (stopped p) (stopLocked p) (conn p) (opened p) (sendCh p) l b (sender p) (accepted p) (handled p).
Definition set_sender (p : poolConn) (q : list D) (s : sending) (a : list D) (h : list (D * bool)) : poolConn :=
  Slot (readFn p) (stopped p) (stopLocked p) (conn p) (opened p) q (life p) (backoff p) s a h.

Definition isOpen (p : poolConn) (c : nat) : bool := default false (opened p !! c).
Definition closeAt (c : nat) (op : list bool) : list bool := <[c := false]> op.

(** send; [None] when the message is refused. [seen] is what the first select saw of
    stopped, which may have been closed since, and [pick] the choice of the second
    one between a closed channel and a place in the queue. *)
Definition send (o : Options) (p : poolConn) (d : D) (seen pick : bool) : option poolConn :=
  if seen then None
  else if stopped p && pick then None
  else if decide (Z.of_nat (length (sendCh p)) < SendBufSize o)
  then Some (set_sender p (sendCh p ++ [d]) (sender p) (accepted p ++ [d]) (handled p))
  else None.

(** stop: the channel is closed first, the connection under the lock after it. *)
Definition stopClose (p : poolConn) : option poolConn :=
  if stopped p then None else Some (set_stop p true (stopLocked p)).
Definition stopLock (p : poolConn) : option poolConn :=
  if stopped p && negb (stopLocked p) then
    let p1 := match conn p with Some c => set_conn p None (closeAt c (opened p)) | None => p end in
    Some (set_stop p1 true true)
  else None.

(** One step of lifecycle: the outcome of a dial and the random part of the backoff
    come from outside, and readFn returns when it likes. *)
Inductive lifeInput := LGo | LDial (ok : bool) | LNow (now : Z) | LTimer (jitter : Z) | LStopped.

Definition lifeStep (o : Options) (p : poolConn) (i : lifeInput) : option poolConn :=
  match life p, i with
  | Top, LGo => Some (set_life p (if stopped p then Ended else Dialing) (backoff p))
  | Dialing, LDial ok =>
      Some (if ok then set_life (set_conn p (conn p) (opened p ++ [true])) (Ready (length (opened p))) (backoff p)
            else set_life p Sleeping (backoff p))
  | Ready c, LNow now =>
      let p1 := set_conn p (Some c) (opened p) in
      Some (set_life p1 (if readFn p then Reading c now else Waiting) (backoff p))
  | Waiting, LStopped => if stopped p then Some (set_life p Ended (backoff p)) else None
  | Reading c connAt, LGo => Some (set_life p (ReadDone c connAt) (backoff p))
  | ReadDone c connAt, LGo =>
      let p1 := if decide (conn p = Some c) then set_conn p None (opened p) else p in
      Some (set_life p1 (Closing c connAt) (backoff p))
  | Closing c connAt, LNow now =>
      let p1 := set_conn p (conn p) (closeAt c (opened p)) in
      let b := if decide (StableThreshold o ≤ now - connAt) then ReconnectInitial o else backoff p in
      Some (set_life p1 (if stopped p then Ended else Sleeping) b)
  | Sleeping, LStopped => if stopped p then Some (set_life p Ended (backoff p)) else None
  | Sleeping, LTimer jitter => if decide (0 ≤ jitter) then Some (set_life p Top (nextBackoff (backoff p) (ReconnectMax o) jitter)) else None
  | _, _ => None
  end.

(** breakConn. *)
Definition breakConn (p : poolConn) (c : nat) : poolConn :=
  if decide (conn p = Some c) then set_conn p None (closeAt c (opened p)) else p.

(** One step of sendLoop; [ok] is the answer of writeFn, which cannot succeed on a
    closed connection, or the choice of select between a message and stopped. *)
Definition sendStep (p : poolConn) (ok : bool) : option poolConn :=
  match sender p with
  | Idle =>
      if ok then
        match sendCh p with
        | d :: q => Some (set_sender p q (WaitConn d) (accepted p) (handled p))
        | [] => None
        end
      else if stopped p then Some (set_sender p (sendCh p) Stopped (accepted p) (handled p)) else None
  | WaitConn d =>
      if stopped p then Some (set_sender p (sendCh p) Stopped (accepted p) (handled p ++ [(d, false)]))
      else
        match conn p with
        | Some c => Some (set_sender p (sendCh p) (Writing d c) (accepted p) (handled p))
        | None => None
        end
  | Writing d c =>
      let b := ok && isOpen p c in
      let p1 := set_sender p (sendCh p) Idle (accepted p) (handled p ++ [(d, b)]) in
      Some (if b then p1 else breakConn p1 c)
  | Stopped => None
  end.

Inductive label := SendMsg (d : D) (seen pick : bool) | StopClose | StopLock | Life (i : lifeInput) | Sender (ok : bool).

Definition step (o : Options) (p : poolConn) (a : label) : option poolConn :=
  match a with
  | SendMsg d seen pick => send o p d seen pick
  | StopClose => stopClose p
  | StopLock => stopLock p
  | Life i => lifeStep o p i
  | Sender ok => sendStep p ok
  end.

End slot.
Arguments poolConn D : clear implicits.
Arguments label D : clear implicits.
Notation steps o := (runs (step o)).

(** ** The pool *)

(** Send: the slot of the next message and the counter after it. *)
Definition nextSlot (counter : Z) (n : nat) : Z * nat :=
  let counter := u64 (counter + 1) in (counter, Z.to_nat (counter mod Z.of_nat n)).

(** SendTo: [None] is the panic of a negative index. *)
Definition slotOf (slot : Z) (n : nat) : option nat :=
  let idx := Z.rem slot (Z.of_nat n) in if decide (0 ≤ idx) then Some (Z.to_nat idx) else None.

(** [sent] records the messages that Send and SendTo accepted, with their slots. *)
Record Pool (D : Type) := MkPool { counter : Z; conns : list (poolConn D); sent : list (nat * D) }.
Arguments MkPool {D}. Arguments counter {D}. Arguments conns {D}. Arguments sent {D}.

(** New; the functions are nil or not. *)
Definition New {D} (writeFn readFn : bool) (o : Options) : option (Pool D) :=
  if writeFn then
    let o := setDefaults o in Some (MkPool 0 (replicate (Z.to_nat (PoolSize o)) (newPoolConn o readFn)) [])
  else None.

(** Slot [i] is offered the message; the counter moves on also if it refuses. *)
Definition offer {D} (o : Options) (q : Pool D) (c : Z) (i : nat) (d : D) (seen pick : bool) : option (Pool D) :=
  p ← conns q !! i;
  Some match send o p d seen pick with
       | Some p' => MkPool c (<[i := p']> (conns q)) (sent q ++ [(i, d)])
       | None => MkPool c (conns q) (sent q)
       end.

Definition Send {D} (o : Options) (q : Pool D) (d : D) (seen pick : bool) : option (Pool D) :=
  let '(c, i) := nextSlot (counter q) (length (conns q)) in offer o q c i d seen pick.
Definition SendTo {D} (o : Options) (q : Pool D) (slot : Z) (d : D) (seen pick : bool) : option (Pool D) :=
  i ← slotOf slot (length (conns q)); offer o q (counter q) i d seen pick.

(** stop on one slot, and Close when it runs alone. *)
Definition stop {D} (p : poolConn D) : poolConn D :=
  match stopClose p with None => p | Some p1 => default p1 (stopLock p1) end.
Definition Close {D} (q : Pool D) : Pool D := MkPool (counter q) (stop <$> conns q) (sent q).

Inductive plabel (D : Type) := PSend (d : D) (seen pick : bool) | PSendTo (slot : Z) (d : D) (seen pick : bool) | PSlot (k : nat) (a : label D).
Arguments PSend {D}. Arguments PSendTo {D}. Arguments PSlot {D}.

(** Senders, and the goroutines and the stop of each slot. *)
Definition poolStep {D} (o : Options) (q : Pool D) (a : plabel D) : option (Pool D) :=
  match a with
  | PSend d seen pick => Send o q d seen pick
  | PSendTo slot d seen pick => SendTo o q slot d seen pick
  | PSlot _ (SendMsg _ _ _) => None
  | PSlot k a =>
      p ← conns q !! k;
      p' ← step o p a;
      Some (MkPool (counter q) (<[k := p']> (conns q)) (sent q))
  end.

Definition ConnCount {D} (ps : list (poolConn D)) : nat := length (filter (λ p, is_Some (conn p)) ps).

Fixpoint sendSlots (counter : Z) (n k : nat) : list nat :=
  match k with O => [] | S k => let '(c, i) := nextSlot counter n in i :: sendSlots c n k end.

(** ** Messages, connections and backoff of a slot *)

Section props.
Context {D : Type}.
Implicit Types p : poolConn D.

Definition inHand p : list D := match sender p with WaitConn d | Writing d _ => [d] | _ => [] end.

(** The connection the lifecycle is concerned with, if any. *)
Definition current p : option nat :=
  match life p with Ready c | Reading c _ | ReadDone c _ | Closing c _ => Some c | _ => None end.

(** [between] are the phases in which the slot has no connection. *)
Definition between p : bool := match life p with Top | Dialing | Sleeping => true | _ => false end.

Record sound (o : Options) p : Prop := {
  sd_messages : accepted p = (fst <$> handled p) ++ inHand p ++ sendCh p;
  sd_queue : Z.of_nat (length (sendCh p)) ≤ SendBufSize o;
  sd_last c : isOpen p c = true → between p = false ∧ S c = length (opened p);
  sd_conn c : conn p = Some c → S c = length (opened p) ∧ between p = false;
  sd_current c : current p = Some c → S c = length (opened p);
  sd_closing : match life p with Closing _ _ => conn p = None | _ => True end;
  sd_backoff : Z.min (ReconnectInitial o) (ReconnectMax o) ≤ backoff p ≤ Z.max (ReconnectInitial o) (ReconnectMax o);
}.

Lemma slot_isOpen_close op c i : default false (closeAt c op !! i) = true → default false (op !! i) = true ∧ i ≠ c.
Proof.
  unfold closeAt. destruct (decide (i = c)) as [->|Hne].
  - destruct (decide (c < length op)%nat); [by rewrite list_lookup_insert_eq|].
    by rewrite list_insert_ge, lookup_ge_None_2 by lia.
  - by rewrite list_lookup_insert_ne.
Qed.

Lemma length_close op c : length (closeAt c op) = length op.
Proof. apply length_insert. Qed.

Lemma nextBackoff_bounds init max cur jitter :
  0 < init → 0 < max → 0 ≤ jitter → Z.min init max ≤ cur ≤ Z.max init max →
  Z.min init max ≤ nextBackoff cur max jitter ≤ max.
Proof. intros. unfold nextBackoff. repeat case_decide; lia. Qed.

Lemma sound_init o read : 0 < ReconnectInitial o → 0 < ReconnectMax o → 0 < SendBufSize o → sound o (newPoolConn o read).
Proof. intros. split; simpl; try done; lia. Qed.

Lemma sound_send o p d seen pick p' : sound o p → send o p d seen pick = Some p' → sound o p'.
Proof.
  intros [H1 H2 H3 H4 H5 H7 H6]. unfold send. destruct seen; [done|]. destruct (stopped p && pick); [done|]. case_decide; [|done]. intros [= <-].
  split; simpl; try done; [|rewrite length_app; simpl; lia].
  rewrite H1. unfold inHand. simpl. by rewrite <-!app_assoc.
Qed.

(** A connection that is closed or no longer published. *)
Lemma sound_forget o p c op :
  sound o p → (conn p = c ∨ c = None) → length op = length (opened p) →
  (∀ i, default false (op !! i) = true → isOpen p i = true) → sound o (set_conn p c op).
Proof.
  intros [H1 H2 H3 H4 H5 H7 H6] Hc Hl Hop. split; simpl; rewrite ?Hl; try done.
  - intros i Hi%Hop. by apply H3.
  - intros i ->. destruct Hc as [Hc|]; [|done]. by apply H4.
  - destruct (life p); try done. destruct Hc; congruence.
Qed.

Lemma sound_close o p c c' : sound o p → (conn p = c ∨ c = None) → sound o (set_conn p c (closeAt c' (opened p))).
Proof.
  intros H Hc. apply sound_forget; [done|done|apply length_close|]. intros i [Hi _]%slot_isOpen_close. done.
Qed.

Lemma slot_sound_stop o p s l : sound o p → sound o (set_stop p s l).
Proof. intros [H1 H2 H3 H4 H5 H7 H6]. by split. Qed.

Lemma sound_life o p l b :
  sound o p → (∀ c, current (set_life p l b) = Some c → S c = length (opened p)) →
  (between (set_life p l b) = true → conn p = None ∧ ∀ c, isOpen p c = false) →
  match l with Closing _ _ => conn p = None | _ => True end →
  Z.min (ReconnectInitial o) (ReconnectMax o) ≤ b ≤ Z.max (ReconnectInitial o) (ReconnectMax o) →
  sound o (set_life p l b).
Proof.
  intros [H1 H2 H3 H4 H5 H7 H6] Hc Hb Hcl Hbo. split; try done.
  - intros c Hi. destruct (between (set_life p l b)) eqn:E; [|split; [done|by apply H3]].
    destruct (Hb eq_refl) as [_ Ho]. specialize (Ho c). change (isOpen p c = true) in Hi. congruence.
  - intros c Hi. destruct (between (set_life p l b)) eqn:E; [|split; [by apply H4|done]].
    destruct (Hb eq_refl) as [Hn _]. simpl in Hi. congruence.
Qed.

Lemma sound_between o p : sound o p → between p = true → conn p = None ∧ ∀ c, isOpen p c = false.
Proof.
  intros H Hb. split.
  - destruct (conn p) as [c|] eqn:E; [|done]. apply (sd_conn o p H) in E. destruct E; congruence.
  - intros c. destruct (isOpen p c) eqn:E; [|done]. apply (sd_last o p H) in E. destruct E; congruence.
Qed.

Lemma sound_dialed o p : sound o p → life p = Dialing →
  sound o (set_life (set_conn p (conn p) (opened p ++ [true])) (Ready (length (opened p))) (backoff p)).
Proof.
  intros H Hl. destruct (sound_between o p H) as [Hn Ho]; [by unfold between; rewrite Hl|].
  destruct H as [H1 H2 H3 H4 H5 H7 H6]. split; simpl; rewrite ?length_app; simpl; try done.
  - intros c Hc. split; [done|]. unfold isOpen in Hc, Ho. simpl in Hc. specialize (Ho c).
    destruct (decide (c < length (opened p))%nat); [rewrite lookup_app_l in Hc by done; congruence|].
    destruct (decide (c = length (opened p))); [lia|]. by rewrite lookup_ge_None_2 in Hc by (rewrite length_app; simpl; lia).
  - intros c Hc. congruence.
  - intros c [= <-]. lia.
Qed.

Lemma sound_lifeStep o p i p' :
  0 < ReconnectInitial o → 0 < ReconnectMax o → sound o p → lifeStep o p i = Some p' → sound o p'.
Proof.
  intros Hi Hm H Hs. pose proof (sd_backoff o p H) as Hb. pose proof (sound_between o p H) as Hbt.
  pose proof (sd_current o p H) as Hcur. unfold lifeStep in Hs. unfold between in Hbt. unfold current in Hcur.
  destruct (life p) as [| |c|c t| |c t|c t| |] eqn:Hl, i as [|ok|now|jitter|]; try done.
  - injection Hs as <-. apply sound_life; [done| |auto|by destruct (stopped p)|done]. by destruct (stopped p).
  - injection Hs as <-. destruct ok; [by apply sound_dialed|]. by apply sound_life; [|..|auto].
  - injection Hs as <-. specialize (Hcur c eq_refl).
    assert (sound o (set_life p (Reading c now) (backoff p))) as [H1 H2 H3 H4 H5 H7 H6].
    { apply sound_life; try done. intros c' [= <-]. done. }
    destruct (readFn p); split; simpl; try done; intros c' [= <-]; done.
  - injection Hs as <-. by apply sound_life.
  - destruct (stopped p); [|done]. injection Hs as <-. by apply sound_life.
  - injection Hs as <-. assert (sound o (if decide (conn p = Some c) then set_conn p None (opened p) else p)) as Hc.
    { case_decide; [|done]. apply sound_forget; auto. }
    assert (conn (if decide (conn p = Some c) then set_conn p None (opened p) else p) = None) as Hcn.
    { case_decide as Hd; [done|]. destruct (conn p) as [c'|] eqn:E; [|done].
      destruct (sd_conn o p H c' E) as [E' _]. specialize (Hcur c eq_refl). destruct Hd. f_equal. lia. }
    apply sound_life; try done. intros c' [= <-]. by case_decide; apply Hcur.
  - injection Hs as <-. pose proof (sd_closing o p H) as Hcl. rewrite Hl in Hcl. specialize (Hcur c eq_refl).
    apply sound_life; [apply sound_close; auto|by destruct (stopped p)| |by destruct (stopped p)|case_decide; lia].
    intros _. split; [done|]. intros c'. destruct (isOpen _ c') eqn:E; [|done]. apply slot_isOpen_close in E as [E Hne].
    apply (sd_last o p H) in E as [_ E]. lia.
  - case_decide; [|done]. injection Hs as <-. apply sound_life; try done.
    destruct (nextBackoff_bounds (ReconnectInitial o) (ReconnectMax o) (backoff p) jitter); [done..|]. lia.
  - destruct (stopped p); [|done]. injection Hs as <-. by apply sound_life.
Qed.

Lemma sound_sendStep o p ok p' : sound o p → sendStep p ok = Some p' → sound o p'.
Proof.
  intros H Hs. pose proof (sd_messages o p H) as Hm. pose proof (sd_queue o p H) as Hq. unfold inHand in Hm.
  assert (∀ q s h, accepted p = (fst <$> h) ++ match s with WaitConn d | Writing d _ => [d] | _ => [] end ++ q →
    Z.of_nat (length q) ≤ SendBufSize o → sound o (set_sender p q s (accepted p) h)) as Hset.
  { intros q s h E1 E2. destruct H as [H1 H2 H3 H4 H5 H7 H6]. by split. }
  unfold sendStep in Hs. destruct (sender p) as [|d|d c|] eqn:E; [| | |done].
  - destruct ok; [destruct (sendCh p) as [|d q]|destruct (stopped p)]; try done; injection Hs as <-; apply Hset; try done.
    simpl in Hq. lia.
  - destruct (stopped p); [injection Hs as <-; apply Hset; [|done]|].
    { by rewrite Hm, fmap_app, <-app_assoc. }
    destruct (conn p); [|done]. injection Hs as <-. by apply Hset.
  - assert (sound o (set_sender p (sendCh p) Idle (accepted p) (handled p ++ [(d, ok && isOpen p c)]))) as Hs1.
    { apply Hset; [|done]. by rewrite Hm, fmap_app, <-app_assoc. }
    injection Hs as <-. destruct (ok && isOpen p c); [done|]. unfold breakConn. case_decide; [|done].
    apply sound_close; [done|by right].
Qed.

Lemma slot_sound_step o p a p' :
  0 < ReconnectInitial o → 0 < ReconnectMax o → sound o p → step o p a = Some p' → sound o p'.
Proof.
  intros Hi Hm H Hs. destruct a; simpl in Hs.
  - by eapply sound_send.
  - unfold stopClose in Hs. destruct (stopped p); [done|]. injection Hs as <-. by apply slot_sound_stop.
  - unfold stopLock in Hs. destruct (stopped p && _); [|done]. injection Hs as <-. apply slot_sound_stop.
    destruct (conn p) eqn:E; [|done]. apply sound_close; [done|by right].
  - by eapply sound_lifeStep.
  - by eapply sound_sendStep.
Qed.

Lemma slot_sound_steps o p l p' :
  0 < ReconnectInitial o → 0 < ReconnectMax o → sound o p → steps o p l = Some p' → sound o p'.
Proof.
  intros Hi Hm. apply runs_inv. intros p1 a p2. by apply slot_sound_step.
Qed.

Lemma default_positive x d : 0 < d → 0 < orDefault x d.
Proof. unfold orDefault. case_decide; lia. Qed.

(** ** The slots of a pool *)

Record poolOk (o : Options) (q : Pool D) : Prop := {
  po_size : Z.of_nat (length (conns q)) = PoolSize o;
  po_slots : Forall (sound o) (conns q);
  po_sent i p : conns q !! i = Some p → accepted p = (filter (λ x, x.1 = i) (sent q)).*2;
}.

Lemma send_accepts o p d seen pick p' : send o p d seen pick = Some p' → accepted p' = accepted p ++ [d].
Proof. unfold send. destruct seen; [done|]. destruct (_ && _); [done|]. case_decide; [|done]. by intros [= <-]. Qed.

Lemma lifeStep_accepts o p i p' : lifeStep o p i = Some p' → accepted p' = accepted p.
Proof.
  unfold lifeStep. destruct (life p), i; try done; repeat case_match; try done; intros; simplify_eq; try done; by repeat case_decide.
Qed.

Lemma sendStep_accepts p ok p' : sendStep p ok = Some p' → accepted p' = accepted p.
Proof.
  unfold sendStep. destruct (sender p) as [|d|d c|]; [..|done].
  - destruct ok; [destruct (sendCh p)|destruct (stopped p)]; try done; by intros [= <-].
  - destruct (stopped p); [by intros [= <-]|]. destruct (conn p); [|done]. by intros [= <-].
  - intros [= <-]. destruct (ok && _); [done|]. unfold breakConn. by case_decide.
Qed.

Lemma inner_accepts o p a p' : step o p a = Some p' → match a with SendMsg _ _ _ => True | _ => accepted p' = accepted p end.
Proof.
  destruct a; cbn [step]; [done| | | |].
  - unfold stopClose. destruct (stopped p); [done|]. by intros [= <-].
  - unfold stopLock. destruct (_ && _); [|done]. intros [= <-]. by destruct (conn p).
  - apply lifeStep_accepts.
  - apply sendStep_accepts.
Qed.

Lemma poolOk_offer o q c i d seen pick q' : poolOk o q → offer o q c i d seen pick = Some q' → poolOk o q'.
Proof.
  intros [H1 H2 H3]. unfold offer. intros (p & Hp & HE)%bind_Some. injection HE as <-.
  destruct (send o p d seen pick) as [p'|] eqn:Hs; [|by split]. split; cbn.
  - by rewrite length_insert.
  - apply Forall_insert; [done|]. eapply sound_send; [|done]. by eapply Forall_lookup_1.
  - intros k p1. rewrite filter_app, fmap_app, filter_cons, filter_nil. cbn [fst].
    intros [(<- & <- & _)|[Hne Hk]]%list_lookup_insert_Some.
    + rewrite decide_True by done. by rewrite (send_accepts _ _ _ _ _ _ Hs), (H3 _ _ Hp).
    + rewrite decide_False by done. cbn. rewrite app_nil_r. by apply H3.
Qed.

Lemma poolOk_step o q a q' :
  0 < ReconnectInitial o → 0 < ReconnectMax o → poolOk o q → poolStep o q a = Some q' → poolOk o q'.
Proof.
  intros Hi Hm H. destruct a as [d seen pick|slot d seen pick|k a]; cbn [poolStep].
  - unfold Send. destruct (nextSlot _ _). by apply poolOk_offer.
  - unfold SendTo. intros (i & _ & HE)%bind_Some. by eapply poolOk_offer.
  - intros HE. assert (∃ p p', conns q !! k = Some p ∧ step o p a = Some p' ∧ accepted p' = accepted p ∧
      q' = MkPool (counter q) (<[k := p']> (conns q)) (sent q)) as (p & p' & Hp & Hs & Ha & ->).
    { destruct a; [done|..]; apply bind_Some in HE as (p & Hp & (p' & Hs & [= <-])%bind_Some);
        exists p, p'; split_and!; try done; exact (inner_accepts _ _ _ _ Hs). }
    destruct H as [H1 H2 H3]. split; cbn.
    + by rewrite length_insert.
    + apply Forall_insert; [done|]. eapply slot_sound_step; [done..| |exact Hs]. by eapply Forall_lookup_1.
    + intros j p1 [(<- & <- & _)|[Hne Hk]]%list_lookup_insert_Some; [|by apply H3]. rewrite Ha. by apply H3.
Qed.

Lemma poolOk_new o read w q : New w read o = Some q → poolOk (setDefaults o) q.
Proof.
  unfold New. destruct w; [|done]. intros [= <-]. assert (0 < PoolSize (setDefaults o)) by (by apply default_positive).
  split; cbn [conns sent].
  - rewrite length_replicate. apply Z2Nat.id. cbn in *. lia.
  - apply Forall_replicate, sound_init; by apply default_positive.
  - intros i p [-> _]%lookup_replicate. done.
Qed.

Lemma nextSlot_lt c n : (0 < n → (nextSlot c n).2 < n)%nat.
Proof. intros Hn. unfold nextSlot. cbn. pose proof (Z.mod_pos_bound (u64 (c + 1)) (Z.of_nat n)). lia. Qed.

(** C33 (a pool keeps its messages in order and one connection per slot): whatever
    senders, the two goroutines of each slot and Close do, Send always finds a slot, the
    counter's wrap-around included; the messages that Send and SendTo accepted for a slot
    are those the slot has handled, the one in hand and those queued, in the order of
    admission and each once; the queues are bounded; only the connection a slot dialed
    last can be open or published, and none is while the slot dials or waits to dial; the
    delays stay between the configured ones. *)
Theorem pool_sound opts w read q0 l q :
  let o := setDefaults opts in
  New w read opts = Some q0 → runs (poolStep o) q0 l = Some q →
  Z.of_nat (length (conns q)) = PoolSize o ∧ (∀ d seen pick, is_Some (Send o q d seen pick)) ∧
  ∀ i p, conns q !! i = Some p →
    (filter (λ x, x.1 = i) (sent q)).*2 = (fst <$> handled p) ++ inHand p ++ sendCh p ∧
    Z.of_nat (length (sendCh p)) ≤ SendBufSize o ∧
    (∀ c, isOpen p c = true ∨ conn p = Some c → S c = length (opened p) ∧ between p = false) ∧
    Z.min (ReconnectInitial o) (ReconnectMax o) ≤ backoff p ≤ Z.max (ReconnectInitial o) (ReconnectMax o).
Proof.
  intros o H0 Hs. assert (poolOk o q) as [H1 H2 H3].
  { eapply (runs_inv (poolStep o) (poolOk o)); [|by eapply poolOk_new|exact Hs].
    intros q1 a q2. apply poolOk_step; by apply default_positive. }
  assert (0 < PoolSize o) by (by apply default_positive). split_and!; [done| |].
  - intros d seen pick. unfold Send. pose proof (nextSlot_lt (counter q) (length (conns q))) as Hlt.
    destruct (nextSlot _ _) as [c i]. cbn [snd] in Hlt. unfold offer.
    destruct (lookup_lt_is_Some_2 (conns q) i) as [p Hp]; [lia|]. rewrite Hp. cbn. eauto.
  - intros i p Hp. pose proof (Forall_lookup_1 _ _ _ _ H2 Hp) as [M1 M2 M3 M4 M5 M7 M6]. rewrite <-(H3 _ _ Hp).
    split_and!; try done; [|lia..]. intros c [Hc|Hc]; [by destruct (M3 c Hc)|by apply M4].
Qed.

(** ** A pool without a read function *)

(** A slot that only sends, after its connection was broken. *)
Definition mute p : Prop :=
  readFn p = false ∧ conn p = None ∧ (life p = Waiting ∨ life p = Ended) ∧
  match sender p with Writing _ _ => False | _ => True end.

Lemma mute_step o p a p' : mute p → step o p a = Some p' →
  mute p' ∧ ∃ h, handled p' = handled p ++ h ∧ Forall (λ x, x.2 = false) h ∧ (stopped p' = false → h = []).
Proof.
  intros (Hr & Hc & Hl & Hw) Hs. unfold mute. destruct a as [d seen pick| | |i|ok]; simpl in Hs.
  - unfold send in Hs. destruct seen; [done|]. destruct (stopped p && pick); [done|]. case_decide; [|done]. injection Hs as <-. simpl.
    split; [done|]. exists []. by rewrite app_nil_r.
  - unfold stopClose in Hs. destruct (stopped p); [done|]. injection Hs as <-. simpl.
    split; [done|]. exists []. by rewrite app_nil_r.
  - unfold stopLock in Hs. destruct (stopped p && _); [|done]. injection Hs as <-. rewrite Hc. simpl.
    split; [done|]. exists []. by rewrite app_nil_r.
  - unfold lifeStep in Hs. destruct Hl as [E|E]; rewrite E in Hs; [|done]. destruct i; try done.
    destruct (stopped p); [|done]. injection Hs as <-. simpl. split; [auto|]. exists []. by rewrite app_nil_r.
  - unfold sendStep in Hs. destruct (sender p) as [|d|d c|] eqn:E; [| |done..].
    + destruct ok; [destruct (sendCh p)|destruct (stopped p)]; try done; injection Hs as <-; simpl;
        (split; [done|]); exists []; by rewrite app_nil_r.
    + rewrite Hc in Hs. destruct (stopped p) eqn:Hst; [|done]. injection Hs as <-. simpl.
      split; [done|]. exists [(d, false)]. split; [done|]. split; [by repeat constructor|]. by rewrite Hst.
Qed.

(** What holds of a slot that only sends: it publishes one connection, after which it
    never dials, and after a failure it is mute or its sender has returned. *)
Record sendOnly p : Prop := {
  on_read : readFn p = false;
  on_life : match life p with
            | Top | Dialing | Ready _ | Sleeping => conn p = None ∧ ∀ d c, sender p ≠ Writing d c
            | Waiting | Ended => True
            | _ => False
            end;
  on_write d c : sender p = Writing d c → conn p = None ∨ conn p = Some c;
  on_failed d : (d, false) ∈ handled p → sender p = Stopped ∨ mute p;
}.

Lemma sendOnly_life o p i p' : sendOnly p → lifeStep o p i = Some p' → sendOnly p'.
Proof.
  intros [H1 H2 H3 H4] Hs. unfold lifeStep in Hs. unfold mute in H4.
  destruct (life p) as [| |c|c t| |c t|c t| |] eqn:Hl, i as [|ok|now|jitter|]; try done.
  - injection Hs as <-. split; try done; simpl; [by destruct (stopped p)|].
    intros d Hd. destruct (H4 d Hd) as [?|(_ & _ & [?|?] & _)]; [by left|done..].
  - injection Hs as <-. destruct ok; split; try done; simpl; intros d Hd;
      destruct (H4 d Hd) as [?|(_ & _ & [?|?] & _)]; by left || done.
  - injection Hs as <-. rewrite H1. split; try done; simpl.
    + intros d c' E. by destruct H2 as [_ []%(λ H, H d c')].
    + intros d Hd. destruct (H4 d Hd) as [?|(_ & _ & [?|?] & _)]; [by left|done..].
  - destruct (stopped p); [|done]. injection Hs as <-. split; try done; simpl.
    intros d Hd. destruct (H4 d Hd) as [?|(? & ? & _ & ?)]; [by left|right]. by split_and!; [..|right|].
  - case_decide; [|done]. injection Hs as <-. split; try done; simpl.
    intros d Hd. destruct (H4 d Hd) as [?|(_ & _ & [?|?] & _)]; [by left|done..].
  - destruct (stopped p); [|done]. injection Hs as <-. split; try done; simpl.
    intros d Hd. destruct (H4 d Hd) as [?|(_ & _ & [?|?] & _)]; [by left|done..].
Qed.

Lemma sendOnly_sender p ok p' : sendOnly p → sendStep p ok = Some p' → sendOnly p'.
Proof.
  intros [H1 H2 H3 H4] Hs. unfold sendStep in Hs. destruct (sender p) as [|d|d c|] eqn:E; [| | |done].
  - assert (∀ q s, (∀ d c, s ≠ Writing d c) → sendOnly (set_sender p q s (accepted p) (handled p))) as Hset.
    { intros q s Hq. split; try done; simpl; [|by intros d c ?%Hq|].
      - destruct (life p); try done; split; [apply H2|done|apply H2|done|apply H2|done|apply H2|done].
      - intros d Hd. destruct (H4 d Hd) as [?|(? & ? & ? & _)]; [done|]. right. split_and!; try done. simpl.
        destruct s; try done. by edestruct Hq. }
    destruct ok; [destruct (sendCh p)|destruct (stopped p)]; try done; injection Hs as <-; by apply Hset.
  - destruct (stopped p); [|destruct (conn p) as [c|] eqn:Hc; [|done]]; injection Hs as <-.
    + split; try done; simpl; [|by left]. destruct (life p); try done; by split; [apply H2|].
    + split; try done; simpl; [|intros ? ? [= _ <-]; by right|].
      * destruct (life p); try done; by destruct H2.
      * intros d' Hd. destruct (H4 d' Hd) as [?|(_ & Hn & _)]; [done|congruence].
  - assert (life p = Waiting ∨ life p = Ended) as Hl.
    { destruct (life p); auto; try done; destruct H2 as [_ []%(λ H, H d c)]; done. }
    assert (∀ x, (x, false) ∉ handled p) as Hno.
    { intros x Hx. destruct (H4 x Hx) as [?|(_ & _ & _ & Hw)]; [done|]. by rewrite E in Hw. }
    injection Hs as <-. destruct (ok && isOpen p c).
    + split; simpl; try done; [by destruct Hl as [-> | ->]|]. intros x [Hx%Hno|[= _]%list_elem_of_singleton]%elem_of_app; done.
    + assert (conn (breakConn (set_sender p (sendCh p) Idle (accepted p) (handled p ++ [(d, false)])) c) = None) as Hc.
      { unfold breakConn. simpl. case_decide as Hd; [done|]. simpl. by destruct (H3 d c eq_refl). }
      unfold breakConn in *. case_decide; split; simpl in *; try done; try (by destruct Hl as [-> | ->]);
        intros x _; right; by split_and!.
Qed.

Lemma sendOnly_step o p a p' : sendOnly p → step o p a = Some p' → sendOnly p'.
Proof.
  intros H Hs. pose proof H as [H1 H2 H3 H4]. destruct a as [d seen pick| | |i|ok]; simpl in Hs.
  - unfold send in Hs. destruct seen; [done|]. destruct (stopped p && pick); [done|]. case_decide; [|done]. by injection Hs as <-.
  - unfold stopClose in Hs. destruct (stopped p); [done|]. by injection Hs as <-.
  - unfold stopLock in Hs. destruct (stopped p && _); [|done]. injection Hs as <-.
    clear H1 H2 H3 H4. destruct (conn p) as [c|] eqn:Hc; [|by destruct H; split].
    destruct H as [H1 H2 H3 H4]. split; simpl; try done; [|by left|].
    + destruct (life p); try done; by split; [|apply H2].
    + intros x Hx. destruct (H4 x Hx) as [?|(_ & ? & _)]; [by left|congruence].
  - by eapply sendOnly_life.
  - by eapply sendOnly_sender.
Qed.

Lemma sendOnly_steps o p l p' : sendOnly p → steps o p l = Some p' → sendOnly p'.
Proof.
  apply runs_inv. intros p1 a p2. apply sendOnly_step.
Qed.

(** A sender that has returned handles nothing any more. *)
Lemma returned_step o p a p' : sender p = Stopped → step o p a = Some p' → sender p' = Stopped ∧ handled p' = handled p.
Proof.
  intros H Hs. destruct a as [d seen pick| | |i|ok]; simpl in Hs.
  - unfold send in Hs. destruct seen; [done|]. destruct (stopped p && pick); [done|]. case_decide; [|done]. by injection Hs as <-.
  - unfold stopClose in Hs. destruct (stopped p); [done|]. by injection Hs as <-.
  - unfold stopLock in Hs. destruct (stopped p && _); [|done]. injection Hs as <-. by destruct (conn p).
  - unfold lifeStep in Hs. destruct (life p), i; try done; repeat case_match; by simplify_eq/=.
  - unfold sendStep in Hs. by rewrite H in Hs.
Qed.

Lemma silent_steps o l : ∀ p p', sender p = Stopped ∨ mute p → steps o p l = Some p' →
  ∃ h, handled p' = handled p ++ h ∧ Forall (λ x, x.2 = false) h.
Proof.
  induction l as [|a l IH]; simpl; intros p p' H Hs; [simplify_eq; exists []; by rewrite app_nil_r|].
  destruct (step o p a) as [p1|] eqn:E; [|done]. destruct H as [H|H].
  - destruct (returned_step o p a p1 H E) as [H1 <-]. eauto.
  - destruct (mute_step o p a p1 H E) as (H1 & h & Hh & Hf & _). destruct (IH p1 p' (or_intror H1) Hs) as (h' & -> & Hf').
    exists (h ++ h'). rewrite Hh, app_assoc. split; [done|]. by apply Forall_app.
Qed.

(** A send-only pool does not reconnect: once a slot of a pool without a read
    function has failed to write a message, no message is ever written on the slot
    again: the lifecycle waits for the end of the pool and does not dial. *)
Theorem send_only_never_reconnects o l1 p d l2 p' :
  steps o (newPoolConn o false) l1 = Some p → (d, false) ∈ handled p → steps o p l2 = Some p' →
  ∃ h, handled p' = handled p ++ h ∧ Forall (λ x, x.2 = false) h.
Proof.
  intros H1 Hd H2. eapply silent_steps; [|done]. eapply on_failed; [|done]. eapply sendOnly_steps; [|done].
  split; simpl; try done. by intros x ?%not_elem_of_nil.
Qed.

End props.
(** ** Round robin *)

Lemma sendSlots_lookup counter n k j :
  0 ≤ counter → counter + Z.of_nat k < 2 ^ 64 → (j < k)%nat →
  sendSlots counter n k !! j = Some (Z.to_nat ((counter + 1 + Z.of_nat j) mod Z.of_nat n)).
Proof.
  revert counter j. induction k as [|k IH]; intros counter j Hc Hk Hj; [lia|]. cbn [sendSlots]. unfold nextSlot.
  rewrite u64_small by lia. destruct j as [|j]; simpl; [by rewrite Z.add_0_r|].
  rewrite IH by lia. do 3 f_equal. lia.
Qed.

(** Round robin: as long as the counter does not wrap around, any n consecutive
    messages of a pool of n slots go to n different slots. *)
Theorem round_robin counter n i j :
  0 ≤ counter → counter + Z.of_nat n < 2 ^ 64 → (i < n)%nat → (j < n)%nat →
  sendSlots counter n n !! i = sendSlots counter n n !! j → i = j.
Proof.
  intros Hc Hn Hi Hj. rewrite !sendSlots_lookup by done. intros [= E].
  pose proof (Z.mod_pos_bound (counter + 1 + Z.of_nat i) (Z.of_nat n)).
  pose proof (Z.mod_pos_bound (counter + 1 + Z.of_nat j) (Z.of_nat n)).
  apply Z2Nat.inj in E; [|lia..].
  pose proof (Z.div_mod (counter + 1 + Z.of_nat i) (Z.of_nat n)). pose proof (Z.div_mod (counter + 1 + Z.of_nat j) (Z.of_nat n)).
  set (q := (counter + 1 + Z.of_nat i) / Z.of_nat n) in *. set (r := (counter + 1 + Z.of_nat j) / Z.of_nat n) in *.
  assert (Z.of_nat n * (q - r) = Z.of_nat i - Z.of_nat j) as Hq by lia.
  assert (q - r = 0) as Hz; [|rewrite Hz in Hq; lia]. clearbody q r. clear -Hq Hi Hj. nia.
Qed.

(** ** Examples *)

Definition exOptions : Options := setDefaults (Opts 0 0 0 0 0).
Definition exSlot (read : bool) : poolConn Z := newPoolConn exOptions read.

(** A slot connects, writes one message and fails to write the next. *)
Definition exRun : list (label Z) :=
  [SendMsg 1 false false; Life LGo; Life (LDial true); Life (LNow 5); Sender true; Sender true; Sender true;
   SendMsg 2 false false; Sender true; Sender true; Sender false; SendMsg 3 false false].

Definition exPool : Pool Z := default (MkPool 0 [] []) (New true true (Opts 2 0 0 0 0)).
Definition exPoolRun : list (plabel Z) :=
  [PSend 7 false false; PSend 8 false false; PSendTo 5 9 false false] ++ (PSlot 1 <$> [Life LGo; Life (LDial true); Life (LNow 5); Sender true; Sender true; Sender true]).

Lemma pool_sound_witness :
  let q := default exPool (runs (poolStep (setDefaults (Opts 2 0 0 0 0))) exPool exPoolRun) in
  sent q = [(1%nat, 7); (0%nat, 8); (1%nat, 9)] ∧ (handled <$> conns q) = [[]; [(7, true)]] ∧ Z.of_nat (length (conns q)) = 2.
Proof.
  intros q. split; [reflexivity|]. split; [reflexivity|].
  refine (proj1 (pool_sound (Opts 2 0 0 0 0) true true exPool exPoolRun q _ _)); vm_compute; reflexivity.
Defined.

(** The third message is taken from the queue and never written. *)
Definition exLater : list (label Z) := [Sender true; SendMsg 4 false false; StopClose; StopLock; Sender true].

Lemma send_only_never_reconnects_witness :
  let p := default (exSlot false) (steps exOptions (exSlot false) exRun) in
  ∃ h, handled (default p (steps exOptions p exLater)) = handled p ++ h ∧ Forall (λ x, x.2 = false) h.
Proof.
  refine (send_only_never_reconnects exOptions exRun _ 2 exLater _ _ _ _); [vm_compute; reflexivity| |vm_compute; reflexivity].
  vm_compute. right. left.
Defined.

(** A stop that comes while the slot dials finds no connection to close; the one
    that is dialed then stays open although both goroutines have ended. *)
Example stop_during_dial_leaks :
  let p := default (exSlot false) (steps exOptions (exSlot false)
    [Life LGo; StopClose; StopLock; Life (LDial true); Life (LNow 5); Life LStopped; Sender false]) in
  life p = Ended ∧ sender p = Stopped ∧ isOpen p 0 = true.
Proof. vm_compute. by split_and!. Qed.

End TcpPool.
