(* ===== verification/Gate.v ===== *)
(** * The client gate (src/gate/server.go, src/internal/netutil/accept.go)

    The accept loop registers connections under the server's lock; each connection
    has a goroutine that reads frames and calls the handler and one that writes the
    queued payloads. Steps are the critical sections of these goroutines, of senders
    and of Stop; the log records the calls of the handler. *)

From S2P Require Import Prelude Frame.

Module Gate.
#[local] Open Scope list_scope.
#[local] Open Scope Z_scope.

(** ** Accept (netutil) *)

Definition initialAcceptDelay : Z := 5 * Millisecond.
Definition maxAcceptDelay : Z := Second.

Definition nextAcceptDelay (current : Z) : Z :=
  if decide (current = 0) then initialAcceptDelay
  else if decide (Z.quot maxAcceptDelay 2 ≤ current) then maxAcceptDelay
  else current * 2.

(** What the listener does next: a connection, or an error; [before] and [during]
    tell whether stopping is closed when it is looked at before and during the wait. *)
Inductive accepted := Accepted (raw : Z) | AcceptError (before during : bool).

(** The loop of Accept over what the listener does: the connection, if any, and the
    delays it waited. [None] when the script ends first. *)
Fixpoint acceptLoop (script : list accepted) (delay : Z) : option (option Z * list Z) :=
  match script with
  | [] => None
  | Accepted raw :: _ => Some (Some raw, [])
  | AcceptError before during :: script =>
      if before then Some (None, [])
      else
        let delay := nextAcceptDelay delay in
        if during then Some (None, [delay])
        else '(r, ds) ← acceptLoop script delay; Some (r, delay :: ds)
  end.
Definition Accept (script : list accepted) : option (option Z * list Z) := acceptLoop script 0.

(** ** State *)

Record Options := Opts { MaxConnections : Z; MaxPayload : Z; SendQueue : Z; SendTimeout : Z }.

Definition defaults (o : Options) : Options :=
  Opts (if decide (MaxConnections o ≤ 0) then 1024 else MaxConnections o)
       (if decide (MaxPayload o = 0) then Frame.MaxPayload else MaxPayload o)
       (if decide (SendQueue o ≤ 0) then 128 else SendQueue o)
       (if decide (SendTimeout o ≤ 0) then 5 * Millisecond else SendTimeout o).

Inductive error := ErrClosed | ErrQueueFull | ErrContext | ErrHandler | ErrStarted | ErrListen | ErrIO (e : Frame.io_error).

(** The goroutine of run: before OnOpen, in the read loop, after it with its error,
    after the removal, after OnClose. *)
Inductive running := Starting | Reading | ReadEnded (e : error) | Removed (e : error) | Finished.

(** The goroutine of the write loop. *)
Inductive writing := NotStarted | Idle | Writing (payload : list Z) | WriteEnded.

(** [wire] is what was written to the socket, [queued] records what Send admitted,
    [failed] the payload whose write failed. *)
Record Conn := MkConn {
  done : bool;
  send : list (list Z);
  run : running;
  writer : writing;
  wire : list Z;
  written : list (list Z);
  queued : list (list Z);
  failed : list (list Z);
}.

Inductive event := EvOpen (id : nat) | EvMessage (id : nat) (payload : list Z) | EvClose (id : nat) (e : error).

(** Connections by their number; [connections] is the map of the server. [started]
    says that there is a listener and [listening] that it is open; the accept loop
    gets connections from it, and [held] is one it has not yet registered; [stopping] is the channel, [swept] says that Stop has closed the
    listener and the registered connections. *)
Record Server := MkServer {
  opts : Options;
  conns : list Conn;
  connections : gset nat;
  started : bool;
  listening : bool;
  held : bool;
  stopping : bool;
  swept : bool;
  log : list event;
}.

(** [handler] tells that the handler is not nil. *)
Definition New (o : Options) (handler : bool) : result error Server :=
  if handler then Ok (MkServer (defaults o) [] ∅ false false false false false []) else Err ErrHandler.

(** [listen] tells that the address can be listened on. *)
Definition Start (s : Server) (listen : bool) : result error Server :=
  if started s then Err ErrStarted
  else if listen then Ok (MkServer (opts s) (conns s) (connections s) true true (held s) (stopping s) (swept s) (log s))
  else Err ErrListen.

Definition newConn : Conn := MkConn false [] Starting NotStarted [] [] [] [].

Definition set_conns (s : Server) (cs : list Conn) (m : gset nat) : Server :=
  MkServer (opts s) cs m (started s) (listening s) (held s) (stopping s) (swept s) (log s).
Definition set_stop (s : Server) (l h st sw : bool) : Server :=
  MkServer (opts s) (conns s) (connections s) (started s) l h st sw (log s).
Definition emit (s : Server) (e : event) : Server :=
  MkServer (opts s) (conns s) (connections s) (started s) (listening s) (held s) (stopping s) (swept s) (log s ++ [e]).
Definition upd (s : Server) (id : nat) (f : Conn → Conn) : Server := set_conns s (alter f id (conns s)) (connections s).

Definition set_run (c : Conn) (r : running) (w : writing) : Conn :=
  MkConn (done c) (send c) r w (wire c) (written c) (queued c) (failed c).
Definition set_send (c : Conn) (q : list (list Z)) (w : writing) (qd : list (list Z)) : Conn :=
  MkConn (done c) q (run c) w (wire c) (written c) qd (failed c).
Definition set_wire (c : Conn) (w : writing) (b : list Z) (wr fl : list (list Z)) : Conn :=
  MkConn (done c) (send c) (run c) w b wr (queued c) fl.

(** ** Connections *)

(** Conn.Close. *)
Definition Close (c : Conn) : Conn :=
  MkConn true (send c) (run c) (writer c) (wire c) (written c) (queued c) (failed c).

(** The last select of Send and TrySend: the case taken is [pick] if it is ready. *)
Inductive choice := PickDone | PickContext | PickFull | PickSend.

Definition sendPayload (o : Options) (c : Conn) (payload : list Z) (pick : choice) : option (Conn * option error) :=
  match pick with
  | PickDone => if done c then Some (c, Some ErrClosed) else None
  | PickContext => Some (c, Some ErrContext)
  | PickFull => Some (c, Some ErrQueueFull)
  | PickSend =>
      if decide (Z.of_nat (length (send c)) < SendQueue o)
      then Some (set_send c (send c ++ [payload]) (writer c) (queued c ++ [payload]), None)
      else None
  end.

(** TrySend does not wait: [seen] is what its first select saw of [done], which may
    have been closed since, and [pick] the choice of the second one between a closed
    connection and a place in the queue. *)
Definition TrySend (o : Options) (c : Conn) (payload : list Z) (seen pick : bool) : Conn * option error :=
  if seen then (c, Some ErrClosed)
  else if done c && pick then (c, Some ErrClosed)
  else if decide (Z.of_nat (length (send c)) < SendQueue o)
  then (set_send c (send c ++ [payload]) (writer c) (queued c ++ [payload]), None)
  else (c, Some (if done c then ErrClosed else ErrQueueFull)).

(** One step of the write loop: it notices that the connection is done, or takes a
    payload, or writes the one it has; [script] is what the socket accepts. *)
Definition writeStep (o : Options) (c : Conn) (takeDone : bool) (script : list (nat * option Frame.io_error)) : option Conn :=
  match writer c with
  | Idle =>
      if takeDone then if done c then Some (set_wire c WriteEnded (wire c) (written c) (failed c)) else None
      else match send c with
           | p :: q => Some (set_send c q (Writing p) (queued c))
           | [] => None
           end
  | Writing p =>
      let '(w, err) := Frame.WriteLimit (Frame.Writer (wire c) script) p (MaxPayload o) in
      Some match err with
           | None => set_wire c Idle (Frame.wr_out w) (written c ++ [p]) (failed c)
           | Some _ => Close (set_wire c WriteEnded (Frame.wr_out w) (written c) (failed c ++ [p]))
           end
  | _ => None
  end.

(** ** The server *)

(** The accept loop has a connection: it is registered unless the gate is full. *)
Definition register (s : Server) : Server :=
  if decide (MaxConnections (opts s) ≤ Z.of_nat (size (connections s))) then s
  else set_conns s (conns s ++ [newConn]) ({[length (conns s)]} ∪ connections s).

(** run: OnOpen and the start of the write loop. *)
Definition open (s : Server) (id : nat) : option Server :=
  c ← conns s !! id;
  match run c with
  | Starting => Some (emit (upd s id (λ c, set_run c Reading Idle)) (EvOpen id))
  | _ => None
  end.

(** One frame of the read loop; the reader holds what arrives until the deadline. *)
Definition readFrame (s : Server) (id : nat) (r : Frame.reader) : option Server :=
  c ← conns s !! id;
  match run c with
  | Reading =>
      match fst (Frame.ReadLimit r (MaxPayload (opts s))) with
      | Ok payload => Some (emit s (EvMessage id payload))
      | Err e => Some (upd s id (λ c, Close (set_run c (ReadEnded (ErrIO e)) (writer c))))
      end
  | _ => None
  end.

(** The end of run: the connection is removed, then OnClose is called. The error of
    the read loop is never nil, so the write loop is not waited for. *)
Definition finish (s : Server) (id : nat) : option Server :=
  c ← conns s !! id;
  match run c with
  | ReadEnded e => Some (set_conns s (alter (λ c, set_run c (Removed e) (writer c)) id (conns s)) (connections s ∖ {[id]}))
  | Removed e => Some (emit (upd s id (λ c, set_run c Finished (writer c))) (EvClose id e))
  | _ => None
  end.

(** Stop closes the channel, then, under the lock, the listener and the registered
    connections. *)
Definition sweep (s : Server) : Server :=
  set_stop (set_conns s (imap (λ i c, if decide (i ∈ connections s) then Close c else c) (conns s)) (connections s)) false (held s) true true.

Inductive label :=
  | LStart (listen : bool)
  | LAccept
  | LRegister
  | LOpen (id : nat)
  | LFrame (id : nat) (r : Frame.reader)
  | LFinish (id : nat)
  | LClose (id : nat)
  | LSend (id : nat) (payload : list Z) (pick : choice)
  | LTrySend (id : nat) (payload : list Z) (seen pick : bool)
  | LWrite (id : nat) (takeDone : bool) (script : list (nat * option Frame.io_error))
  | LStop
  | LSweep.

Definition step (s : Server) (a : label) : option Server :=
  match a with
  | LStart listen => Some (match Start s listen with Ok s1 => s1 | Err _ => s end)
  | LAccept => if listening s && negb (held s) then Some (set_stop s true true (stopping s) (swept s)) else None
  | LRegister => if held s then Some (register (set_stop s (listening s) false (stopping s) (swept s))) else None
  | LOpen id => open s id
  | LFrame id r => readFrame s id r
  | LFinish id => finish s id
  | LClose id => _ ← conns s !! id; Some (upd s id Close)
  | LSend id payload pick =>
      c ← conns s !! id;
      '(c1, _) ← sendPayload (opts s) c payload pick;
      Some (upd s id (λ _, c1))
  | LTrySend id payload seen pick =>
      c ← conns s !! id;
      Some (upd s id (λ _, fst (TrySend (opts s) c payload seen pick)))
  | LWrite id takeDone script =>
      c ← conns s !! id;
      c1 ← writeStep (opts s) c takeDone script;
      Some (upd s id (λ _, c1))
  | LStop => if stopping s then None else Some (set_stop s (listening s) (held s) true (swept s))
  | LSweep => if stopping s && negb (swept s) then Some (sweep s) else None
  end.

Notation steps := (runs step).

(** ** The delays of Accept *)

Definition acceptDelay (k : nat) : Z := Z.min (initialAcceptDelay * 2 ^ Z.of_nat k) maxAcceptDelay.

Lemma nextAcceptDelay_spec k : nextAcceptDelay (acceptDelay k) = acceptDelay (S k).
Proof.
  unfold nextAcceptDelay, acceptDelay. rewrite Nat2Z.inj_succ, Z.pow_succ_r by lia.
  pose proof (Z.pow_pos_nonneg 2 (Z.of_nat k)). unfold initialAcceptDelay, maxAcceptDelay, Second, Millisecond in *.
  change (Z.quot (1000 * 1000000) 2) with 500000000.
  rewrite decide_False by lia. case_decide as Hd; [lia|].
  destruct (decide (k < 8)%nat) as [Hk|Hk].
  - do 8 (destruct k as [|k]; [simpl in *; lia|]). lia.
  - assert (2 ^ 8 ≤ 2 ^ Z.of_nat k) by (apply Z.pow_le_mono_r; lia). lia.
Qed.

Lemma acceptLoop_delays script k r ds i d :
  acceptLoop script (acceptDelay k) = Some (r, ds) → ds !! i = Some d → d = acceptDelay (S k + i).
Proof.
  revert k ds i. induction script as [|[raw|[] []] script IH]; intros k ds i; simpl; try done.
  - by intros [= <- <-].
  - by intros [= <- <-].
  - by intros [= <- <-].
  - intros [= <- <-]. rewrite nextAcceptDelay_spec. destruct i as [|i]; [|done]. intros [= <-]. by rewrite Nat.add_0_r.
  - rewrite nextAcceptDelay_spec. destruct (acceptLoop script (acceptDelay (S k))) as [[r' ds']|] eqn:E; [|done].
    intros [= -> <-]. destruct i as [|i]; simpl; [intros [= <-]; by rewrite Nat.add_0_r|]. intros Hi.
    rewrite (IH (S k) ds' i E Hi). f_equal. lia.
Qed.

(** Accept waits 5 ms after the first error and twice as long after each further
    one, up to a second. *)
Theorem accept_backoff script r ds i d : Accept script = Some (r, ds) → ds !! i = Some d → d = acceptDelay i.
Proof.
  unfold Accept. destruct script as [|[raw|[] []] script]; simpl; try done; try (by intros [= <- <-]).
  - intros [= <- <-]. by destruct i as [|i]; [intros [= <-]|].
  - change (nextAcceptDelay 0) with (acceptDelay 0).
    destruct (acceptLoop script (acceptDelay 0)) as [[r' ds']|] eqn:E; [|done].
    intros [= -> <-]. destruct i as [|i]; simpl; [by intros [= <-]|]. apply (acceptLoop_delays script 0 r ds' i d E).
Qed.

(** ** What a connection sends *)

Definition inHand (c : Conn) : list (list Z) := match writer c with Writing p => [p] | _ => [] end.

(** Payloads are written in the order of admission; what is on the wire is whole
    frames, followed by a part of one only if its write failed. *)
Record writes (o : Options) (c : Conn) : Prop := {
  wr_order : queued c = written c ++ failed c ++ inHand c ++ send c;
  wr_bound : Z.of_nat (length (send c)) ≤ SendQueue o;
  wr_wire : match failed c with
            | [] => wire c = concat (Frame.encode <$> written c)
            | [p] => (∃ k, wire c = concat (Frame.encode <$> written c) ++ take k (Frame.encode p)) ∧
                     writer c = WriteEnded ∧ done c = true
            | _ => False
            end;
  wr_start : run c = Starting → writer c = NotStarted;
  wr_closed : match run c with ReadEnded _ | Removed _ | Finished => done c = true | _ => True end;
}.

Lemma writes_new o : 0 < SendQueue o → writes o newConn.
Proof. intros. split; simpl; done || lia. Qed.

Lemma writes_Close o c : writes o c → writes o (Close c).
Proof.
  intros [H1 H2 H3 H5 H4]. split; simpl; try done; [|by destruct (run c)].
  destruct (failed c) as [|p [|]]; [done| |done]. by destruct H3 as (? & ? & _).
Qed.

Lemma writes_enqueue o c p :
  writes o c → Z.of_nat (length (send c)) < SendQueue o → writes o (set_send c (send c ++ [p]) (writer c) (queued c ++ [p])).
Proof.
  intros [H1 H2 H3 H5 H4] Hl. split; simpl; try done; [|rewrite length_app; simpl; lia].
  rewrite H1. unfold inHand. simpl. by rewrite <-!app_assoc.
Qed.

Lemma writes_step o c b script c' : writes o c → writeStep o c b script = Some c' → writes o c'.
Proof.
  intros [H1 H2 H3 H5 H4] Hs. unfold writeStep, inHand in *. destruct (writer c) as [| |p|] eqn:Hw; try done.
  - assert (failed c = []) as Hf by (destruct (failed c) as [|? [|]]; [done| |done]; by destruct H3 as (_ & ? & _)).
    rewrite Hf in *. destruct b.
    + destruct (done c) eqn:Hd; [|done]. injection Hs as <-. split; simpl; rewrite ?Hf; try done; [by intros ?%H5|by destruct (run c)].
    + destruct (send c) as [|p q] eqn:Hq; [done|]. injection Hs as <-. split; simpl; rewrite ?Hf; try done; [simpl in H2; lia|by intros ?%H5].
  - assert (failed c = []) as Hf by (destruct (failed c) as [|? [|]]; [done| |done]; by destruct H3 as (_ & ? & _)).
    rewrite Hf in *. pose proof (Frame.write_no_silent_truncation (Frame.Writer (wire c) script) p (MaxPayload o)) as Ht.
    destruct (Frame.WriteLimit _ _ _) as [w err]. destruct Ht as (k & _ & Hout & Hk & _). simpl in Hout.
    injection Hs as <-. destruct err as [e|]; split; simpl; rewrite ?Hf; try done.
    + split; [|done]. exists k. by rewrite Hout, H3.
    + by intros ?%H5.
    + by destruct (run c).
    + by rewrite H1, <-app_assoc.
    + rewrite Hout, H3, (Hk eq_refl), firstn_all, fmap_app, concat_app. simpl. by rewrite app_nil_r.
    + by intros ?%H5.
Qed.

(** ** What the handler sees *)

Definition event_id (e : event) : nat := match e with EvOpen id | EvMessage id _ | EvClose id _ => id end.
Definition eventsOf (id : nat) (lg : list event) : list event := filter (λ e, event_id e = id) lg.

(** The calls of the handler for a connection, by the state of its goroutine. *)
Definition calls (id : nat) (r : option running) (es : list event) : Prop :=
  match r with
  | None | Some Starting => es = []
  | Some (Reading | ReadEnded _ | Removed _) => ∃ ms, es = EvOpen id :: (EvMessage id <$> ms)
  | Some Finished => ∃ ms e, es = EvOpen id :: (EvMessage id <$> ms) ++ [EvClose id e]
  end.

Definition registered (r : running) : Prop := match r with Removed _ | Finished => False | _ => True end.

Record sound (s : Server) : Prop := {
  so_conns id c : conns s !! id = Some c → writes (opts s) c;
  so_calls id : calls id (run <$> conns s !! id) (eventsOf id (log s));
  so_map id : id ∈ connections s ↔ ∃ c, conns s !! id = Some c ∧ registered (run c);
  so_size : Z.of_nat (size (connections s)) ≤ MaxConnections (opts s);
  so_queue : 0 < SendQueue (opts s);
}.

Lemma eventsOf_app id lg es : eventsOf id (lg ++ es) = eventsOf id lg ++ eventsOf id es.
Proof. apply filter_app. Qed.

Lemma eventsOf_one id e : eventsOf id [e] = if decide (event_id e = id) then [e] else [].
Proof. unfold eventsOf. rewrite filter_cons. done. Qed.

Lemma eventsOf_same id es : Forall (λ e, event_id e = id) es → eventsOf id es = es.
Proof. induction 1 as [|e es He _ IH]; [done|]. unfold eventsOf in *. by rewrite filter_cons, decide_True, IH. Qed.

Lemma eventsOf_other id i es : i ≠ id → Forall (λ e, event_id e = id) es → eventsOf i es = [].
Proof. intros Hne. induction 1 as [|e es He _ IH]; [done|]. unfold eventsOf in *. by rewrite filter_cons, decide_False by congruence. Qed.

(** A step that changes one connection and keeps its place in the life cycle. *)
Lemma sound_upd s id f :
  sound s → (∀ c, conns s !! id = Some c → writes (opts s) (f c) ∧ run (f c) = run c) → sound (upd s id f).
Proof.
  intros [H1 H2 H3 H4 H5] Hf.
  assert (∀ i, run <$> alter f id (conns s) !! i = run <$> conns s !! i) as Hr.
  { intros i. destruct (decide (i = id)) as [->|]; [|by rewrite list_lookup_alter_ne].
    rewrite list_lookup_alter_eq. destruct (conns s !! id) as [c|] eqn:E; [|done]. simpl. by destruct (Hf c eq_refl) as [_ ->]. }
  split; simpl; try done.
  - intros i c Hi. destruct (decide (i = id)) as [->|]; [|rewrite list_lookup_alter_ne in Hi by done; by eapply H1].
    rewrite list_lookup_alter_eq in Hi. destruct (conns s !! id) as [x|] eqn:E; [|done]. injection Hi as <-. by apply Hf.
  - intros i. by rewrite Hr.
  - intros i. rewrite H3. specialize (Hr i). destruct (conns s !! i) as [x|], (alter f id (conns s) !! i) as [y|]; try done.
    injection Hr as Hr. split; intros (z & [= <-] & Hz); [exists y; by rewrite Hr|exists x; by rewrite <-Hr].
Qed.

#[global] Instance registered_dec r : Decision (registered r).
Proof. destruct r; simpl; apply _. Defined.

(** A step of the goroutine of run: the connection changes its state, and the
    handler is called or not. *)
Lemma sound_move s id c f es :
  sound s → conns s !! id = Some c → writes (opts s) (f c) →
  calls id (Some (run (f c))) (eventsOf id (log s) ++ es) → Forall (λ e, event_id e = id) es →
  (registered (run (f c)) → registered (run c)) →
  sound (MkServer (opts s) (alter f id (conns s))
    (if decide (registered (run (f c))) then connections s else connections s ∖ {[id]})
    (started s) (listening s) (held s) (stopping s) (swept s) (log s ++ es)).
Proof.
  intros [H1 H2 H3 H4 H5] Hc Hw Hcalls Hes Hreg. split; simpl; try done.
  - intros i x Hi. destruct (decide (i = id)) as [->|]; [|rewrite list_lookup_alter_ne in Hi by done; by eapply H1].
    rewrite list_lookup_alter_eq, Hc in Hi. by injection Hi as <-.
  - intros i. rewrite eventsOf_app. destruct (decide (i = id)) as [->|Hne].
    + rewrite list_lookup_alter_eq, Hc. assert (eventsOf id es = es) as ->; [|done].
      by apply eventsOf_same.
    + rewrite list_lookup_alter_ne by done. rewrite (eventsOf_other id i es) by done. by rewrite app_nil_r.
  - intros i. destruct (decide (i = id)) as [->|Hne].
    + rewrite list_lookup_alter_eq, Hc. simpl. case_decide as Hr.
      * rewrite H3. split; intros _; eauto.
      * split; [set_solver|]. by intros (? & [= <-] & ?).
    + rewrite list_lookup_alter_ne by done. rewrite <-H3. case_decide; set_solver.
  - case_decide; [done|]. assert (size (connections s ∖ {[id]}) ≤ size (connections s))%nat by (apply subseteq_size; set_solver). lia.
Qed.

Lemma sound_register s h : sound s → sound (register (set_stop s (listening s) h (stopping s) (swept s))).
Proof.
  intros [H1 H2 H3 H4 H5]. unfold register. simpl. case_decide; [by split|].
  assert (length (conns s) ∉ connections s) as Hn.
  { intros (c & Hc & _)%H3. apply lookup_lt_Some in Hc. lia. }
  split; simpl; try done.
  - intros id c [Hi|[_ [_ <-]%list_lookup_singleton_Some]]%lookup_app_Some; [by eapply H1|by apply writes_new].
  - intros id. specialize (H2 id). destruct (decide (id < length (conns s))%nat); [by rewrite lookup_app_l|].
    rewrite (lookup_ge_None_2 (conns s)) in H2 by lia. destruct (decide (id = length (conns s))) as [->|].
    + by rewrite lookup_app_r, Nat.sub_diag.
    + by rewrite lookup_ge_None_2 by (rewrite length_app; simpl; lia).
  - intros id. rewrite elem_of_union, elem_of_singleton, H3. split.
    + intros [->|(c & Hc & Hr)]; [exists newConn; by rewrite lookup_app_r, Nat.sub_diag|].
      exists c. split; [by apply lookup_app_l_Some|done].
    + intros (c & [Hi|[Hl [Hi <-]%list_lookup_singleton_Some]]%lookup_app_Some & Hr); [right; eauto|left; lia].
  - rewrite size_add by done. lia.
Qed.

Lemma sound_open s id s' : sound s → open s id = Some s' → sound s'.
Proof.
  intros H. unfold open. destruct (conns s !! id) as [c|] eqn:Hc; [|done]. simpl.
  destruct (run c) eqn:Hr; try done. intros [= <-].
  pose proof (so_conns s H id c Hc) as [W1 W2 W3 W5 W4]. pose proof (so_calls s H id) as Hcalls.
  rewrite Hc in Hcalls. simpl in Hcalls. rewrite Hr in Hcalls. specialize (W5 Hr).
  pose proof (sound_move s id c (λ c, set_run c Reading Idle) [EvOpen id] H Hc) as Hm. simpl in Hm. apply Hm.
  - unfold inHand in W1. rewrite W5 in W1. split; try done; simpl.
    destruct (failed c) as [|p [|]]; [done| |done]. destruct W3 as (_ & ? & _). congruence.
  - rewrite Hcalls. by exists [].
  - by repeat constructor.
  - by rewrite Hr.
Qed.

Lemma writes_run o c r : writes o c → done c = true → r ≠ Starting → writes o (set_run c r (writer c)).
Proof. intros [H1 H2 H3 H5 H4] Hd Hr. split; try done. simpl. by destruct r. Qed.

Lemma sound_frame s id r s' : sound s → readFrame s id r = Some s' → sound s'.
Proof.
  intros H. unfold readFrame. destruct (conns s !! id) as [c|] eqn:Hc; [|done]. simpl.
  destruct (run c) eqn:Hr; try done.
  pose proof (so_conns s H id c Hc) as Hw. pose proof (so_calls s H id) as Hcalls.
  rewrite Hc in Hcalls. simpl in Hcalls. rewrite Hr in Hcalls. destruct Hcalls as [ms Hms].
  destruct (fst (Frame.ReadLimit r (MaxPayload (opts s)))) as [payload|e]; intros [= <-].
  - assert (alter (λ c, c) id (conns s) = conns s) as E.
    { apply list_eq. intros i. destruct (decide (i = id)) as [->|]; [|by rewrite list_lookup_alter_ne].
      rewrite list_lookup_alter_eq. by destruct (conns s !! id). }
    pose proof (sound_move s id c (λ c, c) [EvMessage id payload] H Hc) as Hm. rewrite E, Hr in Hm. simpl in Hm. apply Hm; try done.
    + exists (ms ++ [payload]). rewrite Hms, fmap_app. done.
    + by repeat constructor.
  - pose proof (sound_move s id c (λ c, Close (set_run c (ReadEnded (ErrIO e)) (writer c))) [] H Hc) as Hm. simpl in Hm.
    rewrite !app_nil_r in Hm. apply Hm; [|by exists ms|done|by rewrite Hr].
    apply writes_Close in Hw. apply (writes_run _ _ (ReadEnded (ErrIO e))) in Hw; done.
Qed.

Lemma gate_sound_finish s id s' : sound s → finish s id = Some s' → sound s'.
Proof.
  intros H. unfold finish. destruct (conns s !! id) as [c|] eqn:Hc; [|done]. simpl.
  pose proof (so_conns s H id c Hc) as Hw. pose proof (so_calls s H id) as Hcalls.
  rewrite Hc in Hcalls. simpl in Hcalls. pose proof (wr_closed _ _ Hw) as Hd.
  destruct (run c) as [| |e|e|] eqn:Hr; try done; intros [= <-]; destruct Hcalls as [ms Hms].
  - pose proof (sound_move s id c (λ c, set_run c (Removed e) (writer c)) [] H Hc) as Hm. simpl in Hm.
    rewrite !app_nil_r in Hm. apply Hm; [by apply writes_run|by exists ms|done..].
  - pose proof (sound_move s id c (λ c, set_run c Finished (writer c)) [EvClose id e] H Hc) as Hm. simpl in Hm.
    assert (connections s ∖ {[id]} = connections s) as E.
    { assert (id ∉ connections s); [|set_solver]. intros (x & Hx & Hreg)%(so_map s H). rewrite Hc in Hx. injection Hx as <-.
      by rewrite Hr in Hreg. }
    rewrite E in Hm. apply Hm; [by apply writes_run|exists ms, e; by rewrite Hms|by repeat constructor|done].
Qed.

Lemma gate_sound_stop s l h st sw : sound s → sound (set_stop s l h st sw).
Proof. intros [H1 H2 H3 H4 H5]. by split. Qed.

Lemma sweep_lookup s id : conns (sweep s) !! id = (λ c, if decide (id ∈ connections s) then Close c else c) <$> conns s !! id.
Proof. unfold sweep. simpl. by rewrite list_lookup_imap. Qed.

Lemma sound_sweep s : sound s → sound (sweep s).
Proof.
  intros [H1 H2 H3 H4 H5].
  assert (∀ id, run <$> conns (sweep s) !! id = run <$> conns s !! id) as Hr.
  { intros id. rewrite sweep_lookup. destruct (conns s !! id); [|done]. simpl. by case_decide. }
  split; try done.
  - intros id c. rewrite sweep_lookup. destruct (conns s !! id) as [x|] eqn:E; [|done]. intros [= <-].
    case_decide; [apply writes_Close|]; by eapply H1.
  - intros id. rewrite Hr. apply H2.
  - intros id. change (connections (sweep s)) with (connections s). rewrite H3, sweep_lookup.
    destruct (conns s !! id) as [x|]; simpl; [|by split; intros (? & ? & _)].
    split; intros (y & [= <-] & Hy); eexists; (split; [done|]); by case_decide.
Qed.

Lemma gate_sound_step s a s' : sound s → step s a = Some s' → sound s'.
Proof.
  intros H Hs. destruct a; simpl in Hs.
  - injection Hs as <-. unfold Start. destruct (started s); [done|]. destruct listen; [|done]. destruct H. by split.
  - destruct (listening s && _); [|done]. injection Hs as <-. by apply gate_sound_stop.
  - destruct (held s); [|done]. injection Hs as <-. by apply sound_register.
  - by eapply sound_open.
  - by eapply sound_frame.
  - by eapply gate_sound_finish.
  - destruct (conns s !! id) as [c|] eqn:Hc; [|done]. injection Hs as <-. apply sound_upd; [done|].
    intros x Hx. split; [|done]. by eapply writes_Close, so_conns.
  - destruct (conns s !! id) as [c|] eqn:Hc; [|done]. simpl in Hs.
    destruct (sendPayload (opts s) c payload pick) as [[c1 e]|] eqn:E; [|done]. injection Hs as <-. apply sound_upd; [done|].
    intros x Hx. rewrite Hc in Hx. injection Hx as <-. pose proof (so_conns s H id c Hc) as Hw. unfold sendPayload in E.
    destruct pick; [destruct (done c); [|done]| | |case_decide; [|done]]; injection E as <- _; try done.
    split; [by apply writes_enqueue|done].
  - destruct (conns s !! id) as [c|] eqn:Hc; [|done]. injection Hs as <-. apply sound_upd; [done|].
    intros x Hx. rewrite Hc in Hx. injection Hx as <-. pose proof (so_conns s H id c Hc) as Hw. unfold TrySend.
    destruct seen; [done|]. destruct (done c && pick); [done|]. case_decide; [|done]. split; [by apply writes_enqueue|done].
  - destruct (conns s !! id) as [c|] eqn:Hc; [|done]. simpl in Hs.
    destruct (writeStep (opts s) c takeDone script) as [c1|] eqn:E; [|done]. injection Hs as <-. apply sound_upd; [done|].
    intros x Hx. rewrite Hc in Hx. injection Hx as <-. split; [by eapply writes_step, E; eapply so_conns|].
    unfold writeStep in E. repeat case_match; by simplify_eq/=.
  - destruct (stopping s); [done|]. injection Hs as <-. by apply gate_sound_stop.
  - destruct (stopping s && _); [|done]. injection Hs as <-. by apply sound_sweep.
Qed.

Lemma gate_sound_steps s l s' : sound s → steps s l = Some s' → sound s'.
Proof.
  apply runs_inv. intros s1 a s2. apply gate_sound_step.
Qed.

Lemma gate_sound_New o h s : New o h = Ok s → sound s.
Proof.
  destruct h; [|done]. intros [= <-]. split; simpl; try done; [set_solver|..].
  - change (Z.of_nat (size (∅ : gset nat)) ≤ MaxConnections (defaults o)). rewrite size_empty. unfold defaults. simpl.
    case_decide; lia.
  - case_decide; lia.
Qed.

(** C34 (connections of the gate): however clients, the handler, senders and Stop
    interleave, the gate never has more connections than allowed; the handler sees of
    each connection one open, then its messages, then at most one close, and the
    close only after the connection has left the gate; the payloads that were
    admitted for a connection go out in that order as whole frames, each once, and
    only the frame whose write failed can be on the wire in part. *)
Theorem gate_sound o h s0 l s :
  New o h = Ok s0 → steps s0 l = Some s →
  Z.of_nat (size (connections s)) ≤ MaxConnections (opts s) ∧
  (∀ id, calls id (run <$> conns s !! id) (eventsOf id (log s))) ∧
  (∀ id, id ∈ connections s ↔ ∃ c, conns s !! id = Some c ∧ registered (run c)) ∧
  (∀ id c, conns s !! id = Some c → writes (opts s) c).
Proof.
  intros H0 Hs. destruct (gate_sound_steps s0 l s (gate_sound_New o h s0 H0) Hs) as [H1 H2 H3 H4 H5]. by split_and!.
Qed.

(** ** Stop *)

(** No connection is still to be registered, and all that are registered are closed. *)
Record quiet (s : Server) : Prop := {
  qu_accept : started s = true ∧ listening s = false ∧ held s = false;
  qu_done id c : id ∈ connections s → conns s !! id = Some c → done c = true;
}.

Lemma quiet_upd s id f : quiet s → (∀ c, done c = true → done (f c) = true) → quiet (upd s id f).
Proof.
  intros [H1 H2] Hf. split; [done|]. simpl. intros i c Hi Hc. destruct (decide (i = id)) as [->|].
  - rewrite list_lookup_alter_eq in Hc. destruct (conns s !! id) as [x|] eqn:E; [|done]. injection Hc as <-. eauto.
  - rewrite list_lookup_alter_ne in Hc by done. eauto.
Qed.

Lemma quiet_emit s e : quiet s → quiet (emit s e).
Proof. intros [H1 H2]. by split. Qed.

Lemma quiet_set s id c c' : quiet s → conns s !! id = Some c → (done c = true → done c' = true) → quiet (upd s id (λ _, c')).
Proof.
  intros [H1 H2] Hc Hd. split; [done|]. simpl. intros i x Hi Hx. destruct (decide (i = id)) as [->|].
  - rewrite list_lookup_alter_eq, Hc in Hx. injection Hx as <-. eauto.
  - rewrite list_lookup_alter_ne in Hx by done. eauto.
Qed.

Lemma quiet_step s a s' : quiet s → step s a = Some s' → quiet s'.
Proof.
  intros H Hs. pose proof H as [(Hst & Hl & Hh) _]. destruct a; simpl in Hs; unfold open, readFrame, finish in Hs.
  - injection Hs as <-. unfold Start. by rewrite Hst.
  - by rewrite Hl in Hs.
  - by rewrite Hh in Hs.
  - destruct (conns s !! id) as [c|]; [|done]. simpl in Hs. destruct (run c); try done. injection Hs as <-.
    by apply quiet_emit, quiet_upd.
  - destruct (conns s !! id) as [c|]; [|done]. simpl in Hs. destruct (run c); try done.
    destruct (fst _); injection Hs as <-; [by apply quiet_emit|by apply quiet_upd].
  - destruct (conns s !! id) as [c|]; [|done]. simpl in Hs. destruct (run c); try done; injection Hs as <-.
    + destruct (quiet_upd s id (λ c, set_run c (Removed e) (writer c)) H) as [Q1 Q2]; [done|].
      split; [done|]. intros i x Hi. apply Q2. simpl in *. set_solver.
    + by apply quiet_emit, quiet_upd.
  - destruct (conns s !! id) as [c|]; [|done]. injection Hs as <-. by apply quiet_upd.
  - destruct (conns s !! id) as [c|] eqn:Hc; [|done]. simpl in Hs.
    destruct (sendPayload (opts s) c payload pick) as [[c1 e]|] eqn:E; [|done]. injection Hs as <-.
    apply (quiet_set s id c); [done..|]. unfold sendPayload in E. repeat case_match; by simplify_eq/=.
  - destruct (conns s !! id) as [c|] eqn:Hc; [|done]. injection Hs as <-. apply (quiet_set s id c); [done..|].
    unfold TrySend. repeat case_match; done.
  - destruct (conns s !! id) as [c|] eqn:Hc; [|done]. simpl in Hs.
    destruct (writeStep (opts s) c takeDone script) as [c1|] eqn:E; [|done]. injection Hs as <-.
    apply (quiet_set s id c); [done..|]. unfold writeStep in E. repeat case_match; by simplify_eq/=.
  - destruct (stopping s); [done|]. injection Hs as <-. destruct H. by split.
  - destruct (stopping s && _); [|done]. injection Hs as <-. split; [by split|]. intros id c Hi Hc.
    change (connections (sweep s)) with (connections s) in Hi. rewrite sweep_lookup in Hc.
    destruct (conns s !! id) as [x|]; [|done]. injection Hc as <-. by rewrite decide_True.
Qed.

(** Stop closes the gate: if the gate was started and its accept loop holds no
    connection when Stop runs its critical section, every connection that is still registered afterwards is
    closed, and stays so. *)
Theorem gate_stop_closes s l s' id c :
  started s = true → held s = false → steps (sweep s) l = Some s' → id ∈ connections s' → conns s' !! id = Some c → done c = true.
Proof.
  intros Hst Hh Hs. assert (quiet (sweep s)) as Hq.
  { split; [by split|]. intros i x Hi Hx. change (connections (sweep s)) with (connections s) in Hi.
    rewrite sweep_lookup in Hx. destruct (conns s !! i); [|done]. injection Hx as <-. by rewrite decide_True. }
  apply qu_done. by apply (runs_inv step quiet l (sweep s)); [exact quiet_step|..].
Qed.

(** ** Examples *)

Definition exServer : Server := MkServer (defaults (Opts 2 0 0 0)) [] ∅ false false false false false [].
Definition exRun : list label :=
  [LStart true; LAccept; LRegister; LOpen 0; LTrySend 0 [7; 8] false false; LWrite 0 false []; LFrame 0 (Frame.Reader (Frame.encode [5]) Frame.EOF);
   LWrite 0 false [(3%nat, None)]; LFrame 0 (Frame.Reader [] Frame.EOF); LFinish 0; LFinish 0].

Lemma gate_sound_witness : calls 0 (Some Finished) (eventsOf 0 (log (default exServer (steps exServer exRun)))).
Proof.
  refine (proj1 (proj2 (gate_sound (Opts 2 0 0 0) true exServer exRun (default exServer (steps exServer exRun)) eq_refl _)) 0%nat).
  vm_compute. reflexivity.
Defined.

Lemma gate_stop_closes_witness :
  done (default newConn (conns (sweep (default exServer (steps exServer (take 4 exRun)))) !! 0%nat)) = true.
Proof.
  refine (gate_stop_closes (default exServer (steps exServer (take 4 exRun))) []
            (sweep (default exServer (steps exServer (take 4 exRun)))) 0 _ _ _ _ _ _); vm_compute; reflexivity.
Defined.

(** A connection that the accept loop got before Stop closed the listener, and that
    it registers after Stop has gone through the connections, is served and not
    closed: Stop waits for it until its context ends. *)
Example late_accept_survives :
  let s := default exServer (steps exServer [LStart true; LAccept; LStop; LSweep; LRegister; LOpen 0]) in
  swept s = true ∧ connections s = {[0%nat]} ∧ (done <$> conns s !! 0%nat) = Some false ∧ log s = [EvOpen 0].
Proof. vm_compute. by split_and!. Qed.

(** Start after Stop opens a listener that nothing closes any more: Stop has run its
    part once and for all, and the gate goes on serving. *)
Example start_after_stop_serves :
  let s := default exServer (steps exServer [LStop; LSweep; LStart true; LAccept; LRegister; LOpen 0]) in
  swept s = true ∧ listening s = true ∧ step s LSweep = None ∧ log s = [EvOpen 0].
Proof. vm_compute. by split_and!. Qed.

End Gate.
