(* ===== verification/Retrier.v ===== *)
(** * The dispatch retrier (src/actor/dispatch_retrier.go)

    One goroutine per level takes a snapshot of the length of its queue at each tick
    and runs that many tasks; a task that fails goes back to its queue, to the next
    level or away. Steps are a tick, the receipt of a task, and its end, so that
    levels and Enqueue interleave in between. *)

From S2P Require Import Prelude.

Module Retrier.
#[local] Open Scope list_scope.
#[local] Open Scope Z_scope.

Record RetryConfig := Level { Interval : Z; MaxTries : Z }.

(** [t_id] tells the tasks apart; it stands for the closure. *)
Record retryTask := Task { t_id : nat; tries : Z }.

(** A worker: not launched yet, waiting for a tick, in a batch with [n] rounds left,
    perhaps with a task in its hands, or returned. *)
Inductive worker := Unstarted | Waiting | Batch (n : nat) | Running (n : nat) (t : retryTask) | Ended.

Inductive fate := Succeeded | DroppedFull | Exhausted.

(** [executions] records the executions, [fates] how tasks left; [next] numbers tasks. *)
Record DispatchRetrier := Retrier {
  levels : list RetryConfig;
  caps : list nat;
  queues : list (list retryTask);
  workers : list worker;
  stopped : bool;
  next : nat;
  executions : list (nat * nat * bool);
  fates : list (nat * fate);
}.

(** [None] is the panic without levels. *)
Definition NewDispatchRetrier (ls : list RetryConfig) (cs : list nat) : option DispatchRetrier :=
  if decide (length ls = 0%nat) then None
  else Some (Retrier ls (imap (λ i _, default 256%nat (cs !! i)) ls) ((λ _, []) <$> ls) ((λ _, Unstarted) <$> ls) false 0 [] []).

Definition set_queues (r : DispatchRetrier) (qs : list (list retryTask)) (ws : list worker) : DispatchRetrier :=
  Retrier (levels r) (caps r) qs ws (stopped r) (next r) (executions r) (fates r).
Definition set_log (r : DispatchRetrier) (n : nat) (rs : list (nat * nat * bool)) (fs : list (nat * fate)) : DispatchRetrier :=
  Retrier (levels r) (caps r) (queues r) (workers r) (stopped r) n rs fs.

(** Start launches the worker of each level; its comment asks for one call. *)
Definition launch (w : worker) : worker := match w with Unstarted => Waiting | _ => w end.
Definition Start (r : DispatchRetrier) : option DispatchRetrier :=
  if forallb (λ w, match w with Unstarted => true | _ => false end) (workers r)
  then Some (set_queues r (queues r) (launch <$> workers r)) else None.

(** The non-blocking send of a task to the queue of a level. *)
Definition push (r : DispatchRetrier) (level : nat) (t : retryTask) : DispatchRetrier :=
  let q := default [] (queues r !! level) in
  if decide (length q < default 0 (caps r !! level))%nat
  then set_queues r (<[level := q ++ [t]]> (queues r)) (workers r)
  else set_log r (next r) (executions r) ((t_id t, DroppedFull) :: fates r).

Definition Enqueue (r : DispatchRetrier) : option DispatchRetrier :=
  l0 ← levels r !! 0%nat;
  let r1 := push r 0 (Task (next r) (MaxTries l0)) in
  Some (set_log r1 (S (next r)) (executions r1) (fates r1)).

(** runLevel: a tick starts a batch. The select may take a tick although stopCh is
    closed. *)
Definition tick (r : DispatchRetrier) (level : nat) : option DispatchRetrier :=
  w ← workers r !! level;
  q ← queues r !! level;
  match w with
  | Waiting => Some (set_queues r (queues r) (<[level := Batch (length q)]> (workers r)))
  | _ => None
  end.

(** runLevel returns. *)
Definition exitLevel (r : DispatchRetrier) (level : nat) : option DispatchRetrier :=
  w ← workers r !! level;
  match w with
  | Waiting => if stopped r then Some (set_queues r (queues r) (<[level := Ended]> (workers r))) else None
  | _ => None
  end.

(** The head of the loop of processBatch. *)
Definition take (r : DispatchRetrier) (level : nat) : option DispatchRetrier :=
  w ← workers r !! level;
  q ← queues r !! level;
  match w with
  | Batch 0 => Some (set_queues r (queues r) (<[level := Waiting]> (workers r)))
  | Batch (S n) =>
      match q with
      | [] => Some (set_queues r (queues r) (<[level := Waiting]> (workers r)))
      | t :: q => Some (set_queues r (<[level := q]> (queues r)) (<[level := Running n t]> (workers r)))
      end
  | _ => None
  end.

(** The rest of an iteration: the function of the task returns. *)
Definition finish (r : DispatchRetrier) (level : nat) (ok : bool) : option DispatchRetrier :=
  w ← workers r !! level;
  match w with
  | Running n t =>
      let r1 := set_log (set_queues r (queues r) (<[level := Batch n]> (workers r)))
                        (next r) ((t_id t, level, ok) :: executions r) (fates r) in
      Some
        (if ok then set_log r1 (next r1) (executions r1) ((t_id t, Succeeded) :: fates r1)
         else
           let tries := tries t - 1 in
           if decide (tries > 0) then push r1 level (Task (t_id t) tries)
           else
             match levels r !! S level with
             | None => set_log r1 (next r1) (executions r1) ((t_id t, Exhausted) :: fates r1)
             | Some l => push r1 (S level) (Task (t_id t) (MaxTries l))
             end)
  | _ => None
  end.

Definition stop (r : DispatchRetrier) : DispatchRetrier :=
  Retrier (levels r) (caps r) (queues r) (workers r) true (next r) (executions r) (fates r).

Inductive label := LStart | LEnqueue | LTick (level : nat) | LTake (level : nat) | LFinish (level : nat) (ok : bool) | LExit (level : nat) | LStop.

Definition step (r : DispatchRetrier) (a : label) : option DispatchRetrier :=
  match a with
  | LStart => Start r
  | LEnqueue => Enqueue r
  | LTick level => tick r level
  | LTake level => take r level
  | LFinish level ok => finish r level ok
  | LExit level => exitLevel r level
  | LStop => Some (stop r)
  end.

Notation steps := (runs step).

(** ** Every task is in one place *)

Definition occ (id : nat) (q : list retryTask) : nat := length (filter (λ t, t_id t = id) q).
Definition occWorker (id : nat) (w : worker) : nat :=
  match w with Running _ t => if decide (t_id t = id) then 1 else 0 | _ => 0 end.

(** How often a task is queued or in the hands of a worker, and how often it left. *)
Definition live (r : DispatchRetrier) (id : nat) : nat :=
  sum_list_with (occ id) (queues r) + sum_list_with (occWorker id) (workers r).
Definition gone (r : DispatchRetrier) (id : nat) : nat := length (filter (λ x, x.1 = id) (fates r)).

(** The task [t] is queued at level [i] or run by its worker. *)
Definition placed (r : DispatchRetrier) (i : nat) (t : retryTask) : Prop :=
  (∃ q, queues r !! i = Some q ∧ t ∈ q) ∨ (∃ n, workers r !! i = Some (Running n t)).

(** The number of executions of a task at a level. *)
Definition runsAt (r : DispatchRetrier) (id level : nat) : Z := Z.of_nat (length (filter (λ x, x.1 = (id, level)) (executions r))).

(** What a level allows: a level without tries still runs a task once. *)
Definition budget (r : DispatchRetrier) (level : nat) : Z := from_option (λ l, Z.max 1 (MaxTries l)) 0 (levels r !! level).

Definition credit (r : DispatchRetrier) (i : nat) (t : retryTask) (j : nat) : Z :=
  if decide (j < i)%nat then budget r j
  else if decide (j = i) then from_option (λ l, MaxTries l - tries t) 0 (levels r !! i)
  else 0.

Lemma sum_insert {A} (f : A → nat) l i x y :
  l !! i = Some x → (sum_list_with f (<[i := y]> l) + f x = sum_list_with f l + f y)%nat.
Proof.
  revert i. induction l as [|z l IH]; intros [|i]; simpl; try done; [intros [= ->]; lia|]. intros Hi. specialize (IH i Hi). lia.
Qed.

Lemma sum_elem {A} (f : A → nat) l i x : l !! i = Some x → (f x ≤ sum_list_with f l)%nat.
Proof. revert i. induction l as [|z l IH]; intros [|i]; simpl; try done; [intros [= ->]; lia|]. intros Hi. specialize (IH i Hi). lia. Qed.

Lemma occ_elem id q t : t ∈ q → t_id t = id → (0 < occ id q)%nat.
Proof.
  intros Ht Hid. unfold occ. assert (t ∈ filter (λ t, t_id t = id) q) as H by (by apply list_elem_of_filter).
  destruct (filter _ q); [by apply not_elem_of_nil in H|simpl; lia].
Qed.

Lemma placed_live r i t : placed r i t → (0 < live r (t_id t))%nat.
Proof.
  unfold live. intros [(q & Hq & Ht)|(n & Hw)].
  - pose proof (occ_elem (t_id t) q t Ht eq_refl). pose proof (sum_elem (occ (t_id t)) _ _ _ Hq). lia.
  - pose proof (sum_elem (occWorker (t_id t)) _ _ _ Hw) as H. simpl in H. rewrite decide_True in H by done. lia.
Qed.

Lemma occ_app id q t : occ id (q ++ [t]) = (occ id q + if decide (t_id t = id) then 1 else 0)%nat.
Proof. unfold occ. rewrite filter_app, length_app. f_equal. rewrite filter_cons. by case_decide. Qed.

Lemma occ_cons id q t : occ id (t :: q) = ((if decide (t_id t = id) then 1 else 0) + occ id q)%nat.
Proof. unfold occ. rewrite filter_cons. by case_decide. Qed.

(** [m] is a task that is between two places. *)
Record sound (m : option nat) (r : DispatchRetrier) : Prop := {
  sd_levels : length (queues r) = length (levels r) ∧ length (workers r) = length (levels r) ∧ length (caps r) = length (levels r);
  sd_caps i q c : queues r !! i = Some q → caps r !! i = Some c → (length q ≤ c)%nat;
  sd_count id : (live r id + gone r id + if decide (m = Some id) then 1 else 0)%nat = if decide (id < next r)%nat then 1%nat else 0%nat;
  sd_placed i t : placed r i t → (i < length (levels r))%nat ∧ (∀ j, runsAt r (t_id t) j = credit r i t j) ∧
    (0 < tries t ∨ runsAt r (t_id t) i = 0);
  sd_runs id j : 0 ≤ runsAt r id j ≤ budget r j;
  sd_fresh id j : (next r ≤ id)%nat → runsAt r id j = 0;
  sd_exhausted id : (id, Exhausted) ∈ fates r → ∀ j, runsAt r id j = budget r j;
}.

(** The task leaves for good. *)
Lemma sound_leave r id f :
  sound (Some id) r → (f = Exhausted → ∀ j, runsAt r id j = budget r j) →
  sound None (set_log r (next r) (executions r) ((id, f) :: fates r)).
Proof.
  intros [H1 H2 H3 H4 H5 H6 H7] Hf. split; try done.
  - intros x. specialize (H3 x). unfold gone, live in *. simpl. rewrite filter_cons. simpl.
    destruct (decide (id = x)) as [->|]; simpl.
    + rewrite (decide_True (P := Some x = Some x)) in H3 by done. lia.
    + rewrite (decide_False (P := Some id = Some x)) in H3 by congruence. lia.
  - intros x. simpl. rewrite elem_of_cons. intros [[= -> <-]|Hx]; [by apply Hf|by apply H7].
Qed.

(** The task is queued, or dropped if the queue is full. *)
Lemma sound_push r i t :
  sound (Some (t_id t)) r → (i < length (levels r))%nat → (∀ j, runsAt r (t_id t) j = credit r i t j) →
  (0 < tries t ∨ runsAt r (t_id t) i = 0) → sound None (push r i t).
Proof.
  intros H Hi Hc Ht. pose proof H as [(L1 & L2 & L3) H2 H3 H4 H5 H6 H7]. unfold push.
  destruct (queues r !! i) as [q|] eqn:Hq; [|apply lookup_ge_None_1 in Hq; lia]. simpl.
  case_decide as Hcap; [|by apply sound_leave].
  assert (i < length (queues r))%nat as Hlt by lia. split; simpl; rewrite ?length_insert; try done.
  - intros k q' c Hk Hkc. destruct (decide (k = i)) as [->|].
    + rewrite list_lookup_insert_eq in Hk by done. injection Hk as <-. rewrite Hkc in Hcap. simpl in Hcap. rewrite length_app. simpl. lia.
    + rewrite list_lookup_insert_ne in Hk by done. by eapply H2.
  - intros x. specialize (H3 x). unfold gone, live in *. simpl.
    pose proof (sum_insert (occ x) (queues r) i q (q ++ [t]) Hq) as Hs. rewrite occ_app in Hs.
    destruct (decide (t_id t = x)) as [<-|].
    + rewrite (decide_True (P := Some (t_id t) = Some (t_id t))) in H3 by done. lia.
    + rewrite (decide_False (P := Some (t_id t) = Some x)) in H3 by congruence. lia.
  - intros k x [(q' & Hk & Hx)|Hw]; [|by apply H4; right].
    simpl in Hk. destruct (decide (k = i)) as [->|]; [|rewrite list_lookup_insert_ne in Hk by done; apply H4; left; eauto].
    rewrite list_lookup_insert_eq in Hk by done. injection Hk as <-.
    apply elem_of_app in Hx as [Hx| ->%list_elem_of_singleton]; [apply H4; left; eauto|]. by split_and!.
Qed.

Lemma sound_Enqueue r r' : sound None r → Enqueue r = Some r' → sound None r'.
Proof.
  intros [(L1 & L2 & L3) H2 H3 H4 H5 H6 H7]. unfold Enqueue. destruct (levels r !! 0%nat) as [l0|] eqn:Hl; [|done]. simpl.
  intros [= <-]. set (t := Task (next r) (MaxTries l0)).
  assert (push (set_log r (S (next r)) (executions r) (fates r)) 0 t
    = set_log (push r 0 t) (S (next r)) (executions (push r 0 t)) (fates (push r 0 t))) as <-.
  { unfold push. simpl. by case_decide. }
  apply sound_push; simpl.
  - split; try done.
    + intros x. specialize (H3 x). unfold gone, live in *. simpl. rewrite (decide_False (P := None = Some x)) in H3 by done.
      destruct (decide (Some (next r) = Some x)) as [[= <-]|Hne].
      * rewrite decide_False in H3 by lia. rewrite decide_True by lia. lia.
      * assert (next r ≠ x) by congruence. destruct (decide (x < next r)%nat); [rewrite decide_True by lia|rewrite decide_False by lia]; lia.
    + intros x j Hx. apply H6. simpl in Hx. lia.
  - apply lookup_lt_Some in Hl. lia.
  - intros j. change (runsAt r (next r) j = credit r 0 t j). rewrite H6 by lia. unfold credit.
    rewrite decide_False by lia. case_decide; [|done]. rewrite Hl. simpl. lia.
  - right. apply (H6 (next r) 0%nat). lia.
Qed.

Lemma sound_workers r level w w' :
  sound None r → workers r !! level = Some w → (∀ n t, w ≠ Running n t) → (∀ n t, w' ≠ Running n t) →
  sound None (set_queues r (queues r) (<[level := w']> (workers r))).
Proof.
  intros [(L1 & L2 & L3) H2 H3 H4 H5 H6 H7] Hw Hn Hn'. split; simpl; rewrite ?length_insert; try done.
  - intros x. specialize (H3 x). unfold gone, live in *. simpl in *.
    pose proof (sum_insert (occWorker x) (workers r) level w w' Hw) as Hs.
    assert (∀ v, (∀ n t, v ≠ Running n t) → occWorker x v = 0%nat) as Hz by (intros [| | |n t|] Hv; [done..|by destruct (Hv n t)|done]).
    rewrite (Hz w Hn), (Hz w' Hn') in Hs. lia.
  - intros i t [Hq|(n & Hi)]; [by apply H4; left|]. simpl in Hi. destruct (decide (i = level)) as [->|].
    + rewrite list_lookup_insert_eq in Hi by (by eapply lookup_lt_Some). injection Hi as ->. by edestruct Hn'.
    + rewrite list_lookup_insert_ne in Hi by done. apply H4. right. eauto.
Qed.

Lemma sound_take r level r' : sound None r → take r level = Some r' → sound None r'.
Proof.
  intros H. unfold take. destruct (workers r !! level) as [w|] eqn:Hw; [|done]. simpl.
  destruct (queues r !! level) as [q|] eqn:Hq; [|done]. simpl.
  destruct w as [| |[|n]| |]; try done; [intros [= <-]; by eapply sound_workers|].
  destruct q as [|t q]; [intros [= <-]; by eapply sound_workers|]. intros [= <-].
  destruct H as [(L1 & L2 & L3) H2 H3 H4 H5 H6 H7]. split; simpl; rewrite ?length_insert; try done.
  - intros k q' c Hk Hkc. destruct (decide (k = level)) as [->|].
    + rewrite list_lookup_insert_eq in Hk by (by eapply lookup_lt_Some). injection Hk as <-.
      specialize (H2 level _ c Hq Hkc). simpl in H2. lia.
    + rewrite list_lookup_insert_ne in Hk by done. by eapply H2.
  - intros x. specialize (H3 x). unfold gone, live in *. simpl in *.
    pose proof (sum_insert (occ x) (queues r) level (t :: q) q Hq) as Hs. rewrite occ_cons in Hs.
    pose proof (sum_insert (occWorker x) (workers r) level (Batch (S n)) (Running n t) Hw) as Hv. simpl in Hv. lia.
  - intros i x Hx. apply H4. destruct Hx as [(q' & Hi & Hx)|(k & Hi)]; simpl in Hi.
    + left. destruct (decide (i = level)) as [->|].
      * rewrite list_lookup_insert_eq in Hi by (by eapply lookup_lt_Some). injection Hi as <-. eexists. split; [done|]. by right.
      * rewrite list_lookup_insert_ne in Hi by done. eauto.
    + destruct (decide (i = level)) as [->|].
      * rewrite list_lookup_insert_eq in Hi by (by eapply lookup_lt_Some). injection Hi as <- <-.
        left. eexists. split; [done|]. by left.
      * rewrite list_lookup_insert_ne in Hi by done. right. eauto.
Qed.

Lemma runsAt_cons r n id level ok x j :
  runsAt (set_log r n ((id, level, ok) :: executions r) (fates r)) x j = runsAt r x j + if decide ((id, level) = (x, j)) then 1 else 0.
Proof. unfold runsAt. simpl. rewrite filter_cons. simpl. case_decide; simpl; lia. Qed.

(** The task that a worker has run is between two places. *)
Definition ran (r : DispatchRetrier) (level n : nat) (t : retryTask) (ok : bool) : DispatchRetrier :=
  set_log (set_queues r (queues r) (<[level := Batch n]> (workers r))) (next r) ((t_id t, level, ok) :: executions r) (fates r).

Lemma runsAt_ran r level n t ok x j :
  runsAt (ran r level n t ok) x j = runsAt r x j + if decide ((t_id t, level) = (x, j)) then 1 else 0.
Proof. apply (runsAt_cons (set_queues r (queues r) (<[level := Batch n]> (workers r)))). Qed.

(** After the run the budget of the level may be used up. *)
Lemma run_budget r level n t l :
  sound None r → workers r !! level = Some (Running n t) → levels r !! level = Some l →
  runsAt r (t_id t) level = MaxTries l - tries t ∧ 0 ≤ MaxTries l - tries t ∧ MaxTries l - tries t + 1 ≤ Z.max 1 (MaxTries l) ∧
  (tries t ≤ 1 → MaxTries l - tries t + 1 = Z.max 1 (MaxTries l)).
Proof.
  intros H Hw Hl. destruct (sd_placed _ _ H level t) as (_ & Hc & Ht); [right; eauto|].
  pose proof (Hc level) as E. unfold credit in E. rewrite decide_False, decide_True, Hl in E by lia. simpl in E.
  pose proof (sd_runs _ _ H (t_id t) level) as Hr. split; [done|]. lia.
Qed.

Lemma sound_ran r level n t ok :
  sound None r → workers r !! level = Some (Running n t) → sound (Some (t_id t)) (ran r level n t ok).
Proof.
  intros H Hw. pose proof H as [(L1 & L2 & L3) H2 H3 H4 H5 H6 H7].
  assert (level < length (levels r))%nat as Hlt by (rewrite <-L2; by eapply lookup_lt_Some).
  destruct (lookup_lt_is_Some_2 (levels r) level Hlt) as [l Hl].
  destruct (run_budget r level n t l H Hw Hl) as (Hr & Hr0 & Hb & _).
  assert (∀ x, live (ran r level n t ok) x + (if decide (t_id t = x) then 1 else 0) = live r x)%nat as Hlive.
  { intros x. unfold live. simpl. pose proof (sum_insert (occWorker x) (workers r) level _ (Batch n) Hw) as Hs. simpl in Hs. lia. }
  pose proof (H3 (t_id t)) as Hid. rewrite (decide_False (P := None = _)) in Hid by done.
  pose proof (Hlive (t_id t)) as Hli. rewrite decide_True in Hli by done.
  assert (t_id t < next r)%nat as Hnx by (case_decide; [done|lia]). rewrite decide_True in Hid by done.
  split; simpl; rewrite ?length_insert; try done.
  - intros x. specialize (H3 x). specialize (Hlive x). unfold gone in *. simpl in *.
    destruct (decide (t_id t = x)) as [<-|]; [rewrite (decide_True (P := Some _ = _)) by done|rewrite (decide_False (P := Some _ = _)) by congruence]; lia.
  - intros i x Hx. assert (t_id x ≠ t_id t) as Hne.
    { intros E. pose proof (placed_live _ _ _ Hx) as Hp. rewrite E in Hp. lia. }
    destruct (H4 i x) as (? & Hc & ?).
    { destruct Hx as [?|(k & Hi)]; [by left|]. right. simpl in Hi. destruct (decide (i = level)) as [->|].
      - rewrite list_lookup_insert_eq in Hi by (by eapply lookup_lt_Some). done.
      - rewrite list_lookup_insert_ne in Hi by done. eauto. }
    split; [done|]. rewrite runsAt_ran, decide_False, Z.add_0_r by congruence. split; [|done].
    intros j. rewrite runsAt_ran, decide_False, Z.add_0_r by congruence. apply Hc.
  - intros x j. rewrite runsAt_ran. pose proof (H5 x j). change (budget (ran r level n t ok) j) with (budget r j).
    case_decide as E; [injection E as <- <-|lia]. rewrite Hr. unfold budget. rewrite Hl. simpl. lia.
  - intros x j Hx. rewrite runsAt_ran, H6 by done. rewrite decide_False; [done|]. intros [= <- <-]. lia.
  - intros x Hx j. rewrite runsAt_ran. change (budget (ran r level n t ok) j) with (budget r j). rewrite (H7 x Hx).
    rewrite decide_False; [lia|]. intros [= <- <-]. assert (0 < gone r (t_id t))%nat; [|lia]. unfold gone.
    assert ((t_id t, Exhausted) ∈ filter (λ y, y.1 = t_id t) (fates r)) as Hf by (by apply list_elem_of_filter).
    destruct (filter _ (fates r)); [by apply not_elem_of_nil in Hf|simpl; lia].
Qed.

Lemma retrier_sound_finish r level ok r' : sound None r → finish r level ok = Some r' → sound None r'.
Proof.
  intros H. unfold finish. destruct (workers r !! level) as [w|] eqn:Hw; [|done]. simpl. destruct w as [| | |n t|]; try done.
  change (set_log (set_queues _ _ _) _ _ _) with (ran r level n t ok). intros [= <-].
  pose proof (sound_ran r level n t ok H Hw) as Hran.
  assert (level < length (levels r))%nat as Hlt by (destruct (sd_levels _ _ H) as (_ & <- & _); by eapply lookup_lt_Some).
  destruct (lookup_lt_is_Some_2 (levels r) level Hlt) as [l Hl].
  destruct (run_budget r level n t l H Hw Hl) as (Hr & Hr0 & Hb & Hfull).
  destruct (sd_placed _ _ H level t) as (_ & Hc & _); [right; eauto|].
  destruct ok; [by apply (sound_leave (ran r level n t true))|].
  assert (∀ j, runsAt (ran r level n t false) (t_id t) j =
    if decide (j < level)%nat then budget r j else if decide (j = level) then MaxTries l - tries t + 1 else 0) as Hrun.
  { intros j. rewrite runsAt_ran, Hc. unfold credit. rewrite Hl. simpl. destruct (decide (j = level)) as [->|Hne].
    - rewrite (decide_True (P := (t_id t, level) = (t_id t, level))) by done. rewrite !(decide_False (P := (level < level)%nat)) by lia.
      done.
    - rewrite (decide_False (P := (_, _) = _)) by congruence. lia. }
  case_decide as Ht.
  { apply sound_push; [done|done| |left; simpl; lia]. simpl. intros j. rewrite Hrun. unfold credit. simpl. rewrite Hl. simpl.
    change (budget (ran r level n t false) j) with (budget r j). repeat case_decide; lia. }
  assert (MaxTries l - tries t + 1 = budget r level) as Hbud by (unfold budget; rewrite Hl; simpl; lia).
  destruct (levels r !! S level) as [l'|] eqn:Hl'.
  - apply sound_push; simpl; [done|by eapply lookup_lt_Some| |].
    + intros j. rewrite Hrun. unfold credit. simpl. rewrite Hl'. simpl. change (budget (ran r level n t false) j) with (budget r j).
      destruct (decide (j < level)%nat); [by rewrite decide_True by lia|].
      destruct (decide (j = level)) as [->|]; [by rewrite decide_True by lia|]. rewrite decide_False by lia. case_decide; lia.
    + right. rewrite Hrun. rewrite !decide_False by lia. done.
  - apply (sound_leave (ran r level n t false)); [done|]. intros _ j. rewrite Hrun.
    change (budget (ran r level n t false) j) with (budget r j).
    case_decide; [done|]. case_decide as E; [by rewrite E|]. apply lookup_ge_None_1 in Hl'. unfold budget.
    by rewrite lookup_ge_None_2 by lia.
Qed.

Lemma sound_Start r r' : sound None r → Start r = Some r' → sound None r'.
Proof.
  intros [(L1 & L2 & L3) H2 H3 H4 H5 H6 H7]. unfold Start. destruct (forallb _ _); [|done]. intros [= <-].
  assert (∀ x ws, sum_list_with (occWorker x) (launch <$> ws) = sum_list_with (occWorker x) ws) as Hs.
  { intros x ws. induction ws as [|w ws IH]; [done|]. cbn. rewrite IH. by destruct w. }
  split; simpl; rewrite ?length_fmap; try done.
  - intros x. specialize (H3 x). unfold live, gone in *. simpl. by rewrite Hs.
  - intros i t [Hq|(n & Hw)]; [by apply H4; left|]. apply H4. right. exists n. simpl in Hw. rewrite list_lookup_fmap in Hw.
    destruct (workers r !! i) as [[]|]; simplify_eq/=; done.
Qed.

Lemma retrier_sound_steps r l r' : sound None r → steps r l = Some r' → sound None r'.
Proof.
  apply runs_inv. clear. intros r a r1 H E. destruct a; simpl in E.
  - by eapply sound_Start.
  - by eapply sound_Enqueue.
  - unfold tick in E. destruct (workers r !! level) as [w|] eqn:Hw; [|done]. simpl in E.
    destruct (queues r !! level); [|done]. simpl in E. destruct w; try done.
    injection E as <-. by eapply sound_workers.
  - by eapply sound_take.
  - by eapply retrier_sound_finish.
  - unfold exitLevel in E. destruct (workers r !! level) as [w|] eqn:Hw; [|done]. simpl in E.
    destruct w; try done. destruct (stopped r); [|done]. injection E as <-. by eapply sound_workers.
  - injection E as <-. destruct H as [H1 H2 H3 H4 H5 H6 H7]. by split.
Qed.

Lemma sum_map_zero {A B} (f : A → nat) (x : A) (l : list B) : f x = 0%nat → sum_list_with f ((λ _, x) <$> l) = 0%nat.
Proof. intros Hx. induction l as [|y l IH]; [done|]. change (f x + sum_list_with f ((λ _, x) <$> l) = 0)%nat. by rewrite Hx, IH. Qed.

Lemma retrier_sound_New ls cs r : NewDispatchRetrier ls cs = Some r → sound None r.
Proof.
  unfold NewDispatchRetrier. case_decide; [done|]. intros [= <-].
  split; simpl; rewrite ?length_imap, ?length_fmap; try done.
  - intros i q c. rewrite list_lookup_fmap. destruct (ls !! i); [|done]. intros [= <-] _. simpl. lia.
  - intros id. unfold live, gone. simpl. rewrite !sum_map_zero by done. done.
  - intros i t [(q & Hq & Ht)|(n & Hw)]; simpl in *; rewrite list_lookup_fmap in *; destruct (ls !! i); try done.
    injection Hq as <-. by apply not_elem_of_nil in Ht.
  - intros id j. unfold runsAt, budget. simpl. destruct (ls !! j); simpl; lia.
  - intros id Hid. by apply not_elem_of_nil in Hid.
Qed.

(** C35 (retries are bounded and no task is lost): whatever Enqueue, the levels and
    their tasks do, each task that was enqueued is in exactly one place: in one queue,
    in the hands of one worker, or gone with one reason; a level runs it at most
    MaxTries times (once if that is not positive), and a task that is given up as
    exhausted has been run exactly that often at every level; no queue exceeds its
    capacity. *)
Theorem retries_bounded ls cs r0 l r :
  NewDispatchRetrier ls cs = Some r0 → steps r0 l = Some r →
  (∀ id, (live r id + gone r id)%nat = if decide (id < next r)%nat then 1%nat else 0%nat) ∧
  (∀ id level, runsAt r id level ≤ budget r level) ∧
  (∀ id, (id, Exhausted) ∈ fates r → ∀ level, runsAt r id level = budget r level) ∧
  (∀ i q c, queues r !! i = Some q → caps r !! i = Some c → (length q ≤ c)%nat).
Proof.
  intros H0 Hs. destruct (retrier_sound_steps r0 l r (retrier_sound_New ls cs r0 H0) Hs) as [H1 H2 H3 H4 H5 H6 H7]. split_and!; try done.
  - intros id. specialize (H3 id). rewrite (decide_False (P := None = _)), Nat.add_0_r in H3 by done. done.
  - intros id level. apply H5.
Qed.

(** Two levels of two and one tries, one task that always fails and one that succeeds
    at the second level. *)
Definition exLevels : list RetryConfig := [Level 10 2; Level 30 0].
Definition exStart : DispatchRetrier := default (Retrier [] [] [] [] false 0 [] []) (NewDispatchRetrier exLevels [4%nat]).
Definition exRun : list label :=
  [LStart; LEnqueue; LEnqueue; LTick 0; LTake 0; LFinish 0 false; LTake 0; LFinish 0 false; LTake 0; LTick 0; LTake 0; LFinish 0 false;
   LTick 1; LTake 1; LFinish 1 true; LTake 0; LFinish 0 false; LTake 1; LTick 1; LTake 1; LFinish 1 false].

Lemma retries_bounded_witness : runsAt (default exStart (steps exStart exRun)) 1 0 = 2.
Proof.
  refine (proj1 (proj2 (proj2 (retries_bounded exLevels [4%nat] exStart exRun (default exStart (steps exStart exRun)) _ _))) 1%nat _ 0%nat).
  - vm_compute. reflexivity.
  - vm_compute. reflexivity.
  - vm_compute. left.
Defined.

End Retrier.
