(* ===== verification/AppRuntime.v ===== *)
(** * The application runtime (src/app/runtime.go)

    Start starts the components in order and rolls back on failure, Stop stops the
    started ones in reverse. The lock covers single assignments only, so a thread of
    Start or Stop is modelled with its position between them; a component's own
    Start and Stop are calls whose result comes from outside and that are logged. *)

From S2P Require Import Prelude.

Module AppRuntime.
#[local] Open Scope string_scope.
#[local] Open Scope list_scope.
#[local] Open Scope Z_scope.

Inductive event := EvStart (name : string) (ok : bool) | EvStop (name : string) (ok : bool).

Inductive error := ErrInvalid | ErrStarted | ErrDuplicate.

(** A thread: Start before the call of component [i] or after it, Start about to set
    [ready], a rollback or Stop about to take the started prefix, and the components
    that are still to be stopped, the next one first. [back] tells a rollback. *)
Inductive thread :=
  | Calling (es : list string) (i : nat)
  | Called (es : list string) (i : nat) (ok : bool)
  | Taking (back : bool)
  | Stopping (back : bool) (rest : list string) (failed : list string)
  | Returned (ok : bool).

(** A component is known by its name, as entries hold distinct names. *)
Record Runtime := Run {
  entries : list string;
  started : nat;
  ready : bool;
  stopped : bool;
  threads : list thread;
  log : list event;
}.

Definition newRuntime : Runtime := Run [] 0 false false [] [].

Definition set_state (r : Runtime) (st : nat) (rd sp : bool) : Runtime :=
  Run (entries r) st rd sp (threads r) (log r).
Definition set_threads (r : Runtime) (ts : list thread) : Runtime :=
  Run (entries r) (started r) (ready r) (stopped r) ts (log r).
Definition emit (r : Runtime) (e : event) : Runtime :=
  Run (entries r) (started r) (ready r) (stopped r) (threads r) (log r ++ [e]).

Definition begun (r : Runtime) : bool := bool_decide (started r ≠ 0%nat) || ready r || stopped r.

(** [component] tells that the component is not nil. *)
Definition Add (r : Runtime) (name : string) (component : bool) : result error Runtime :=
  if decide (name = "" ∨ component = false) then Err ErrInvalid
  else if begun r then Err ErrStarted
  else if decide (name ∈ entries r) then Err ErrDuplicate
  else Ok (Run (entries r ++ [name]) (started r) (ready r) (stopped r) (threads r) (log r)).

Definition Ready (r : Runtime) : bool := ready r && negb (stopped r).

(** The first critical section of Start and of Stop; a new thread is appended. *)
Definition Start (r : Runtime) : option Runtime :=
  if begun r then None
  else Some (set_threads r (threads r ++ [Calling (entries r) 0])).

Definition Stop (r : Runtime) : option Runtime :=
  if stopped r then None
  else Some (set_threads (set_state r (started r) false true) (threads r ++ [Taking false])).

(** One step of a thread; [ok] is the result of the component that is called.
    [None] also stands for the panic of a slice out of range in stopStarted. *)
Definition threadStep (r : Runtime) (t : thread) (ok : bool) : option (Runtime * thread) :=
  match t with
  | Calling es i =>
      match es !! i with
      | Some name => Some (emit r (EvStart name ok), Called es i ok)
      | None => Some (set_state r (started r) true (stopped r), Returned true)
      end
  | Called es i true => Some (set_state r (S i) (ready r) (stopped r), Calling es (S i))
  | Called es i false => Some (set_state r i (ready r) (stopped r), Taking true)
  | Taking back =>
      if decide (started r ≤ length (entries r))%nat
      then Some (set_state r 0 (ready r) (stopped r), Stopping back (reverse (take (started r) (entries r))) [])
      else None
  | Stopping back (name :: rest) failed =>
      Some (emit r (EvStop name ok), Stopping back rest (if ok then failed else failed ++ [name]))
  | Stopping back [] failed => Some (r, Returned (negb back && bool_decide (failed = [])))
  | Returned _ => None
  end.

Inductive label := LAdd (name : string) (component : bool) | LStart | LStop | LThread (k : nat) (ok : bool).

Definition step (r : Runtime) (a : label) : option Runtime :=
  match a with
  | LAdd name component => Some (match Add r name component with Ok r1 => r1 | Err _ => r end)
  | LStart => Some (default r (Start r))
  | LStop => Some (default r (Stop r))
  | LThread k ok =>
      t ← threads r !! k;
      '(r1, t1) ← threadStep r t ok;
      Some (set_threads r1 (<[k := t1]> (threads r1)))
  end.

Notation steps := (runs step).

(** ** A thread that runs alone *)

(** The thread runs to its end; [res] is the result of each component's call. *)
Fixpoint finish (fuel : nat) (res : event → bool) (r : Runtime) (t : thread) : option (Runtime * bool) :=
  match fuel, t with
  | _, Returned ok => Some (r, ok)
  | O, _ => None
  | S fuel, _ =>
      let ok := match t with
                | Calling es i => from_option (λ n, res (EvStart n true)) true (es !! i)
                | Stopping _ (n :: _) _ => res (EvStop n true)
                | _ => true
                end in
      '(r1, t1) ← threadStep r t ok;
      finish fuel res r1 t1
  end.

(** Enough for a Start of [n] components with a rollback, or for a Stop. *)
Definition enough (n : nat) : nat := 3 * n + 5.

Definition runStart (res : event → bool) (r : Runtime) : option (Runtime * bool) :=
  if begun r then Some (r, false) else finish (enough (length (entries r))) res r (Calling (entries r) 0).

Definition runStop (res : event → bool) (r : Runtime) : option (Runtime * bool) :=
  if stopped r then Some (r, true)
  else finish (enough (length (entries r))) res (set_state r (started r) false true) (Taking false).

(** Run: Start, the wait for the end of the context or a signal, Stop. *)
Definition runRun (res : event → bool) (r : Runtime) : option (Runtime * bool) :=
  match runStart res r with
  | None => None
  | Some (r1, ok) => if ok then runStop res r1 else Some (r1, false)
  end.

Section alone.
Variable res : event → bool.

Definition starts (es : list string) : list event := (λ n, EvStart n true) <$> es.
Definition stops (es : list string) : list event := (λ n, EvStop n (res (EvStop n true))) <$> es.
Definition with_log (r : Runtime) (es : list event) : Runtime :=
  Run (entries r) (started r) (ready r) (stopped r) (threads r) (log r ++ es).

Lemma finish_stopping rest : ∀ fuel r back failed, (length rest < fuel)%nat →
  finish fuel res r (Stopping back rest failed)
  = Some (with_log r (stops rest), negb back && bool_decide (failed ++ filter (λ n, res (EvStop n true) = false) rest = [])).
Proof.
  induction rest as [|n rest IH]; intros [|fuel] r back failed Hf; simpl in Hf; try lia.
  - destruct fuel; simpl; rewrite !app_nil_r; by destruct r; unfold with_log; simpl; rewrite ?app_nil_r.
  - cbn [finish threadStep mbind option_bind]. rewrite IH by lia. f_equal. f_equal.
    + unfold with_log, emit. simpl. by rewrite <-app_assoc.
    + f_equal. apply bool_decide_ext. rewrite filter_cons. destruct (res (EvStop n true)); simpl; [done|].
      by rewrite <-app_assoc.
Qed.

(** The started prefix is taken and stopped. *)
Lemma finish_taking fuel r back :
  (started r ≤ length (entries r))%nat → (S (started r) < fuel)%nat →
  finish fuel res r (Taking back)
  = Some (with_log (set_state r 0 (ready r) (stopped r)) (stops (reverse (take (started r) (entries r)))),
          negb back && bool_decide (filter (λ n, res (EvStop n true) = false) (reverse (take (started r) (entries r))) = [])).
Proof.
  intros Hs Hf. destruct fuel as [|fuel]; [lia|]. cbn [finish threadStep mbind option_bind]. rewrite decide_True by done.
  cbn [mbind option_bind]. rewrite finish_stopping; [done|]. rewrite length_reverse, length_take. lia.
Qed.

(** Components start until one fails; [n] is the one that does. *)
Lemma finish_starting post : ∀ fuel r pre,
  (3 * length post + started r + 4 < fuel)%nat → entries r = pre ++ post → started r = length pre →
  Forall (λ n, res (EvStart n true) = true) post →
  finish fuel res r (Calling (entries r) (length pre))
  = Some (with_log (set_state r (length (entries r)) true (stopped r)) (starts post), true).
Proof.
  induction post as [|n post IH]; intros fuel r pre Hf He Hs Hok.
  - destruct fuel as [|[|fuel]]; [lia..|]. cbn [finish threadStep mbind option_bind].
    rewrite lookup_ge_None_2 by (rewrite He, app_nil_r; lia). unfold with_log, set_state. simpl. rewrite !app_nil_r.
    rewrite He, app_nil_r, <-Hs. done.
  - apply Forall_cons in Hok as [Hn Hok]. destruct fuel as [|[|fuel]]; [simpl in Hf; lia..|].
    assert (entries r !! length pre = Some n) as Hl by (rewrite He; by rewrite lookup_app_r, Nat.sub_diag).
    cbn [finish threadStep mbind option_bind]. rewrite Hl. cbn [from_option mbind option_bind]. rewrite Hn.
    cbn [finish threadStep mbind option_bind].
    specialize (IH fuel (set_state (emit r (EvStart n true)) (S (length pre)) (ready r) (stopped r)) (pre ++ [n])).
    rewrite length_app in IH. simpl in IH. rewrite Nat.add_1_r in IH. refine (eq_trans (IH _ _ _ _) _); [simpl in Hf; lia|by rewrite <-app_assoc|done|done|].
    unfold with_log, set_state. simpl. by rewrite <-app_assoc.
Qed.

Lemma finish_failing post : ∀ fuel r pre n rest,
  (3 * length post + started r + 4 < fuel)%nat → entries r = pre ++ post ++ n :: rest → started r = length pre →
  Forall (λ n, res (EvStart n true) = true) post → res (EvStart n true) = false →
  finish fuel res r (Calling (entries r) (length pre))
  = Some (with_log (set_state r 0 (ready r) (stopped r)) (starts post ++ EvStart n false :: stops (reverse (pre ++ post))), false).
Proof.
  induction post as [|m post IH]; intros fuel r pre n rest Hf He Hs Hok Hn.
  - destruct fuel as [|[|fuel]]; [simpl in Hf; lia..|]. simpl in He.
    assert (entries r !! length pre = Some n) as Hl by (rewrite He; by rewrite lookup_app_r, Nat.sub_diag).
    cbn [finish threadStep mbind option_bind]. rewrite Hl. cbn [from_option mbind option_bind]. rewrite Hn.
    cbn [finish threadStep mbind option_bind]. rewrite finish_taking; simpl; [|rewrite He, length_app; lia|simpl in Hf; lia].
    rewrite He, take_app_length, app_nil_r. unfold with_log. simpl. by rewrite <-app_assoc.
  - apply Forall_cons in Hok as [Hm Hok]. destruct fuel as [|[|fuel]]; [simpl in Hf; lia..|].
    assert (entries r !! length pre = Some m) as Hl by (rewrite He; by rewrite lookup_app_r, Nat.sub_diag).
    cbn [finish threadStep mbind option_bind]. rewrite Hl. cbn [from_option mbind option_bind]. rewrite Hm.
    cbn [finish threadStep mbind option_bind].
    specialize (IH fuel (set_state (emit r (EvStart m true)) (S (length pre)) (ready r) (stopped r)) (pre ++ [m]) n rest).
    rewrite length_app in IH. simpl in IH. rewrite Nat.add_1_r in IH.
    refine (eq_trans (IH _ _ _ _ _) _); [simpl in Hf; lia|rewrite He; simpl; by rewrite <-app_assoc|done|done|done|].
    unfold with_log, set_state. simpl. by rewrite <-!app_assoc.
Qed.

(** What Start and Stop do when they run alone. *)
Definition startSpec (r r' : Runtime) (ok : bool) : Prop :=
  (Forall (λ n, res (EvStart n true) = true) (entries r) ∧ ok = true ∧
   r' = with_log (set_state r (length (entries r)) true false) (starts (entries r))) ∨
  (∃ pre n rest, entries r = pre ++ n :: rest ∧ Forall (λ n, res (EvStart n true) = true) pre ∧
     res (EvStart n true) = false ∧ ok = false ∧
     r' = with_log (set_state r 0 false false) (starts pre ++ EvStart n false :: stops (reverse pre))).

Lemma first_failure es :
  Forall (λ n, res (EvStart n true) = true) es ∨
  ∃ pre n rest, es = pre ++ n :: rest ∧ Forall (λ n, res (EvStart n true) = true) pre ∧ res (EvStart n true) = false.
Proof.
  induction es as [|m es IH]; [by left|]. destruct (res (EvStart m true)) eqn:E; [|right; by exists [], m, es].
  destruct IH as [IH|(pre & n & rest & -> & Hp & Hn)]; [left; by constructor|].
  right. exists (m :: pre), n, rest. split; [done|]. split; [by constructor|done].
Qed.

End alone.

Lemma start_alone res r :
  begun r = false →
  ∃ r' ok, runStart res r = Some (r', ok) ∧ startSpec res r r' ok ∧
  (ok = true → Ready r' = true ∧
   ∃ ok', runStop res r' = Some (with_log (set_state r' 0 false true) (stops res (reverse (entries r))), ok')).
Proof.
  unfold runStart, runStop. intros Hb. rewrite Hb. unfold begun in Hb.
  apply orb_false_iff in Hb as [[Hs%bool_decide_eq_false_1 Hr]%orb_false_iff Hst].
  assert (started r = 0%nat) as Hs0 by (destruct (decide (started r = 0%nat)); [done|by destruct Hs]).
  destruct (first_failure res (entries r)) as [Hok|(pre & n & rest & He & Hp & Hn)].
  - rewrite (finish_starting res (entries r) _ r []) by (done || (unfold enough; lia)).
    eexists _, true. split; [done|]. rewrite Hst. split; [by left|]. intros _. split; [done|]. simpl.
    rewrite finish_taking by (simpl; unfold enough; lia). simpl. rewrite firstn_all. eexists. done.
  - rewrite (finish_failing res pre _ r [] n rest); try done; [|unfold enough; rewrite He, length_app; simpl; lia].
    eexists _, false. split; [done|]. rewrite Hst, Hr. split; [|done]. right. exists pre, n, rest. by split_and!.
Qed.

(** C36 (start in order, roll back and stop in reverse): a Start that runs alone on a
    runtime that has not begun always returns. If every component starts, they were
    started once each in the order of registration, the runtime is ready, and a Stop
    stops each of them once in reverse order. If one fails, those before it are
    stopped in reverse order, those after it are not touched, and the runtime is not
    ready. Run does the one after the other: when it returns, every component
    that has started has been stopped. *)
Theorem start_stop_order res r :
  begun r = false →
  (∃ r' ok, runStart res r = Some (r', ok) ∧ startSpec res r r' ok ∧
   (ok = true → Ready r' = true ∧
    ∃ ok', runStop res r' = Some (with_log (set_state r' 0 false true) (stops res (reverse (entries r))), ok'))) ∧
  (∃ r' ok pre n, runRun res r = Some (r', ok) ∧ pre `prefix_of` entries r ∧ (n = [] → pre = entries r) ∧
     log r' = log r ++ starts pre ++ n ++ stops res (reverse pre) ∧ (n = [] ∨ ∃ m, n = [EvStart m false])).
Proof.
  intros Hb. destruct (start_alone res r Hb) as (r' & ok & HE & Hspec & Hstop). split; [by exists r', ok|].
  unfold runRun. rewrite HE. destruct Hspec as [(_ & -> & Hr)|(pre & n & rest & He & _ & _ & -> & Hr)].
  - destruct (Hstop eq_refl) as [_ [ok' ->]]. eexists _, ok', (entries r), []. split_and!; [done..| |by left].
    rewrite Hr. cbn. by rewrite <-app_assoc.
  - eexists _, false, pre, [EvStart n false]. split_and!; [done|rewrite He; by apply prefix_app_r|done| |eauto]. rewrite Hr. done.
Qed.

(** ** Interleaved threads *)

Definition threadOK (es : list string) (t : thread) : Prop :=
  match t with
  | Calling es' i => es' `prefix_of` es ∧ (i ≤ length es')%nat
  | Called es' i _ => es' `prefix_of` es ∧ (i < length es')%nat
  | _ => True
  end.

Record sound (r : Runtime) : Prop := {
  sd_nodup : NoDup (entries r);
  sd_started : (started r ≤ length (entries r))%nat;
  sd_threads : Forall (threadOK (entries r)) (threads r);
}.

Lemma threadOK_mono es es' t : es `prefix_of` es' → threadOK es t → threadOK es' t.
Proof. intros H. destruct t; simpl; try done; intros [H1 H2]; split; try done; by etrans. Qed.

Lemma threadStep_sound r t ok r' t' :
  sound r → threadOK (entries r) t → threadStep r t ok = Some (r', t') →
  sound r' ∧ threadOK (entries r') t' ∧ threads r' = threads r ∧ entries r' = entries r.
Proof.
  intros [H1 H2 H3] Ht. destruct t as [es i|es i []|back|back [|name rest] failed|]; simpl.
  - destruct (es !! i) as [name|] eqn:E; intros [= <- <-]; [|by split_and!].
    split_and!; try done. simpl. split; [apply Ht|by eapply lookup_lt_Some].
  - destruct Ht as [Hp Hi]. intros [= <- <-]. apply prefix_length in Hp as Hl. split_and!; try done. split; simpl; try done. lia.
  - destruct Ht as [Hp Hi]. intros [= <- <-]. apply prefix_length in Hp as Hl. split_and!; try done. split; simpl; try done. lia.
  - case_decide; [|done]. intros [= <- <-]. split_and!; try done. split; simpl; try done. lia.
  - intros [= <- <-]. by split_and!.
  - intros [= <- <-]. by split_and!.
  - done.
Qed.

Lemma step_sound r a r' : sound r → step r a = Some r' → sound r'.
Proof.
  intros H. pose proof H as [H1 H2 H3]. destruct a as [name component| | |k ok]; simpl.
  - intros [= <-]. unfold Add. case_decide; [done|]. destruct (begun r); [done|]. case_decide as Hn; [done|].
    split; simpl.
    + apply NoDup_app. split_and!; [done|set_solver|apply NoDup_singleton].
    + rewrite length_app. lia.
    + eapply Forall_impl; [done|]. intros t. apply threadOK_mono. by apply prefix_app_r.
  - intros [= <-]. unfold Start. destruct (begun r); [done|]. split; simpl; try done.
    apply Forall_app. split; [done|]. apply Forall_singleton. split; [done|lia].
  - intros [= <-]. unfold Stop. destruct (stopped r); [done|]. split; simpl; try done.
    apply Forall_app. split; [done|]. by apply Forall_singleton.
  - destruct (threads r !! k) as [t|] eqn:Hk; [|done]. simpl.
    destruct (threadStep r t ok) as [[r1 t1]|] eqn:E; [|done]. intros [= <-].
    destruct (threadStep_sound r t ok r1 t1 H) as ([S1 S2 S3] & Ht & Hts & He); [by eapply Forall_lookup_1|done|].
    split; simpl; try done. by apply Forall_insert.
Qed.

(** Whatever Add, Start and Stop do at the same time, the started prefix lies within
    the components, so the slice of stopStarted never panics, and no name is
    registered twice. *)
Theorem runtime_no_panic l r k back :
  steps newRuntime l = Some r → threads r !! k = Some (Taking back) → NoDup (entries r) ∧ is_Some (threadStep r (Taking back) true).
Proof.
  intros Hs _. assert (sound r) as [H1 H2 H3].
  { apply (runs_inv step sound l newRuntime); [exact step_sound| |done]. split; simpl; [constructor|lia|constructor]. }
  split; [done|]. simpl. by rewrite decide_True.
Qed.

(** ** Examples *)

Definition exRuntime : Runtime := Run ["db"; "cache"; "http"] 0 false false [] [].

Lemma start_stop_order_witness :
  ∃ r' ok, runStart (λ _, true) exRuntime = Some (r', ok) ∧ startSpec (λ _, true) exRuntime r' ok.
Proof. destruct (start_stop_order (λ _, true) exRuntime eq_refl) as [(r' & ok & H1 & H2 & _) _]. exists r', ok. by split. Defined.

(** A component added while the first one starts is accepted and never started, yet
    the runtime becomes ready. *)
Example add_during_start :
  let r := default newRuntime (steps newRuntime [LAdd "db" true; LStart; LThread 0 true; LAdd "http" true; LThread 0 true; LThread 0 true]) in
  entries r = ["db"; "http"] ∧ Ready r = true ∧ log r = [EvStart "db" true].
Proof. vm_compute. by split_and!. Qed.

(** A Stop during Start stops what has started; Start goes on, and what it starts
    then is stopped by nobody, since a further Stop returns at once. *)
Example stop_during_start :
  let r := default newRuntime (steps newRuntime
    [LAdd "db" true; LAdd "http" true; LStart; LThread 0 true; LThread 0 true; LStop; LThread 1 true; LThread 1 true; LThread 1 true;
     LThread 0 true; LThread 0 true; LThread 0 true; LStop]) in
  log r = [EvStart "db" true; EvStop "db" true; EvStart "http" true] ∧ threads r = [Returned true; Returned true] ∧ stopped r = true.
Proof. vm_compute. by split_and!. Qed.

End AppRuntime.
