(* ===== verification/WaitGraph.v ===== *)
(** * The wait graph monitor (src/observe/waitgraph/monitor.go)

    A map from each waiting party to the one it waits for. The loops over the graph
    run with fuel; they end within the number of edges. *)

From S2P Require Import Prelude.

Module WaitGraph.
#[local] Open Scope list_scope.
#[local] Open Scope Z_scope.

Record Monitor := Mon { waitFor : gmap Z Z; labels : gmap Z string }.

Definition New : Monitor := Mon ∅ ∅.

(** The loop of canReach; [None] when the fuel runs out. *)
Fixpoint reachLoop (fuel : nat) (m : gmap Z Z) (visited : gset Z) (current target : Z) : option bool :=
  match fuel with
  | O => None
  | S fuel =>
      if decide (current = target) then Some true
      else if decide (current ∈ visited) then Some false
      else
        match m !! current with
        | None => Some false
        | Some next => reachLoop fuel m ({[current]} ∪ visited) next target
        end
  end.

(** Each round but the last visits a new node that has an edge. *)
Definition canReach (m : gmap Z Z) (from target : Z) : option bool := reachLoop (S (S (size m))) m ∅ from target.

(** buildChain for the message of the error. *)
Fixpoint chainLoop (room : nat) (m : gmap Z Z) (current target : Z) : list Z :=
  match room with
  | O => []
  | S room =>
      if decide (current = target) then []
      else current :: match m !! current with None => [] | Some next => chainLoop room m next target end
  end.
Definition buildChain (m : gmap Z Z) (from target : Z) : list Z := chainLoop 20 m from target ++ [target].

Inductive error := ErrCycle (label : string) (chain : list Z) (from : Z).

(** [None] is a loop that does not end. *)
Definition BeginWait (m : Monitor) (from to : Z) (label : string) : option (Monitor * option error) :=
  if decide (from = 0 ∨ to = 0 ∨ from = to) then Some (m, None)
  else
    match canReach (waitFor m) to from with
    | None => None
    | Some true => Some (m, Some (ErrCycle label (buildChain (waitFor m) to from) from))
    | Some false => Some (Mon (<[from := to]> (waitFor m)) (<[from := label]> (labels m)), None)
    end.

(** A missing entry of the map reads as zero. *)
Definition EndWait (m : Monitor) (from to : Z) : Monitor :=
  if decide (from = 0) then m
  else if decide (default 0 (waitFor m !! from) = to) then Mon (delete from (waitFor m)) (delete from (labels m))
  else m.

Definition Reset (m : Monitor) : Monitor := Mon ∅ ∅.

Inductive op := OpBegin (from to : Z) (label : string) | OpEnd (from to : Z) | OpReset.

Definition step (m : Monitor) (o : op) : option Monitor :=
  match o with
  | OpBegin from to label => fst <$> BeginWait m from to label
  | OpEnd from to => Some (EndWait m from to)
  | OpReset => Some (Reset m)
  end.

Notation steps := (runs step).

(** ** canReach decides reachability *)

Definition edge (m : gmap Z Z) (x y : Z) : Prop := m !! x = Some y.
Definition acyclic (m : gmap Z Z) : Prop := ∀ x, ¬ tc (edge m) x x.

(** The visited nodes have edges, lead on to the current node or among themselves,
    and the target is not among them. *)
Record search (m : gmap Z Z) (visited : gset Z) (current target : Z) : Prop := {
  se_dom : visited ⊆ dom m;
  se_next x y : x ∈ visited → edge m x y → y ∈ visited ∨ y = current;
  se_target : target ∉ visited;
}.

Lemma closed_reach m (X : gset Z) x y : (∀ a b, a ∈ X → edge m a b → b ∈ X) → x ∈ X → rtc (edge m) x y → y ∈ X.
Proof. intros Hc Hx. induction 1 as [|a b c Hab _ IH]; [done|]. apply IH. by eapply Hc. Qed.

Lemma reachLoop_spec fuel : ∀ m visited current target,
  search m visited current target → (size m < fuel + size visited)%nat →
  ∃ b, reachLoop fuel m visited current target = Some b ∧ (b = true ↔ rtc (edge m) current target).
Proof.
  induction fuel as [|fuel IH]; intros m visited current target [H1 H2 H3] Hf.
  { apply subseteq_size in H1. rewrite size_dom in H1. lia. }
  cbn [reachLoop]. case_decide as Ht; [exists true; subst; by split|].
  case_decide as Hv.
  { exists false. split; [done|]. split; [done|]. intros Hr. destruct H3.
    eapply closed_reach; [|exact Hv|exact Hr]. intros a b Ha Hab. destruct (H2 a b Ha Hab) as [?| ->]; done. }
  destruct (m !! current) as [next|] eqn:Hn.
  - destruct (IH m ({[current]} ∪ visited) next target) as (b & -> & Hb).
    + split; [|intros x y|set_solver].
      * apply union_subseteq. split; [|done]. apply singleton_subseteq_l, elem_of_dom. by eexists.
      * rewrite elem_of_union, elem_of_singleton. intros [->|Hx] Hxy.
        -- right. unfold edge in Hxy. congruence.
        -- destruct (H2 x y Hx Hxy) as [?| ->]; left; set_solver.
    + rewrite size_add by done. lia.
    + exists b. split; [done|]. rewrite Hb. split; [by eapply rtc_l|].
      intros Hr. apply rtc_inv in Hr as [->|(z & Hz & Hr)]; [done|]. unfold edge in Hz. congruence.
  - exists false. split; [done|]. split; [done|]. intros Hr.
    apply rtc_inv in Hr as [->|(z & Hz & _)]; [done|]. unfold edge in Hz. congruence.
Qed.

Lemma canReach_spec m from target : ∃ b, canReach m from target = Some b ∧ (b = true ↔ rtc (edge m) from target).
Proof. apply reachLoop_spec; [split; [set_solver..|]|]; [set_solver|]. rewrite size_empty. lia. Qed.

(** ** The graph stays free of cycles *)

Lemma path_insert m from to a b :
  rtc (edge (<[from := to]> m)) a b → rtc (edge m) a b ∨ rtc (edge m) a from ∧ rtc (edge m) to b.
Proof.
  induction 1 as [a|a c b Hac _ IH]; [by left|]. unfold edge in Hac. apply lookup_insert_Some in Hac as [[<- <-]|[Hne Hac]].
  - right. split; [done|]. by destruct IH as [?|[_ ?]].
  - destruct IH as [IH|[IH1 IH2]]; [left|right; split; [|done]]; by eapply rtc_l.
Qed.

Lemma acyclic_insert m from to :
  acyclic m → ¬ rtc (edge m) to from → acyclic (<[from := to]> m).
Proof.
  intros Ha Hn x Hx. assert (∃ y, edge (<[from := to]> m) x y ∧ rtc (edge (<[from := to]> m)) y x) as (y & Hxy & Hyx).
  { clear -Hx. inversion Hx; subst; [by exists x|]. eexists. split; [done|]. by apply tc_rtc. }
  unfold edge in Hxy. apply lookup_insert_Some in Hxy as [[<- <-]|[Hne Hxy]].
  - apply path_insert in Hyx as [?|[? _]]; done.
  - apply path_insert in Hyx as [Hyx|[Hyf Htx]]; [apply (Ha x); by eapply tc_rtc_r; [apply tc_once|]|].
    apply Hn. etrans; [done|]. by eapply rtc_l.
Qed.

Lemma acyclic_sub m m' : m' ⊆ m → acyclic m → acyclic m'.
Proof.
  intros Hs Ha. assert (∀ a b, edge m' a b → edge m a b) as He by (intros a b Hab; by eapply lookup_weaken).
  assert (∀ a b, tc (edge m') a b → tc (edge m) a b) as Ht.
  { intros a b. induction 1; [apply tc_once|eapply tc_l; [|done]]; by apply He. }
  intros x Hx%Ht. by apply (Ha x).
Qed.

Lemma step_acyclic m o : acyclic (waitFor m) → ∃ m', step m o = Some m' ∧ acyclic (waitFor m').
Proof.
  intros Ha. destruct o as [from to label|from to|]; simpl.
  - unfold BeginWait. case_decide; [by eexists|]. destruct (canReach_spec (waitFor m) to from) as (b & -> & Hb).
    destruct b; eexists; (split; [done|]); [done|]. apply acyclic_insert; [done|]. intros Hr. by apply Hb in Hr.
  - eexists. split; [done|]. unfold EndWait. repeat case_decide; try done. eapply acyclic_sub; [apply delete_subseteq|done].
  - eexists. split; [done|]. intros x Hx. inversion Hx as [? ? H|? ? ? H]; unfold edge in H; simpl in H; by rewrite lookup_empty in H.
Qed.

(** C37 (the wait graph never has a cycle): every operation of the monitor returns,
    and whatever sequence of them is run the recorded graph has no cycle; BeginWait
    refuses an edge, leaving the graph as it is, exactly if the edge would close one,
    and records it otherwise. *)
Theorem wait_graph_acyclic l :
  ∃ m, steps New l = Some m ∧ acyclic (waitFor m) ∧
  ∀ from to label, from ≠ 0 → to ≠ 0 → from ≠ to →
    ∃ r, BeginWait m from to label = Some r ∧
    (rtc (edge (waitFor m)) to from ∧ r.1 = m ∧ is_Some r.2 ∨
     ¬ rtc (edge (waitFor m)) to from ∧ waitFor r.1 = <[from := to]> (waitFor m) ∧ r.2 = None).
Proof.
  assert (∀ m0, acyclic (waitFor m0) → ∃ m, steps m0 l = Some m ∧ acyclic (waitFor m)) as Hrun.
  { induction l as [|o l IH]; intros m0 H0; [by exists m0|]. destruct (step_acyclic m0 o H0) as (m1 & H1 & Ha).
    destruct (IH m1 Ha) as (m & Hm & Ham). exists m. simpl. rewrite H1. done. }
  destruct (Hrun New) as (m & Hm & Ha).
  { intros x Hx. inversion Hx as [? ? H|? ? ? H]; unfold edge in H; simpl in H; by rewrite lookup_empty in H. }
  exists m. split; [done|]. split; [done|]. intros from to label Hf Ht Hne. unfold BeginWait. rewrite decide_False by tauto.
  destruct (canReach_spec (waitFor m) to from) as (b & -> & Hb). destruct b; eexists; (split; [done|]); simpl.
  - left. split_and!; [by apply Hb|done|by eexists].
  - right. split_and!; [|done..]. intros Hr. by apply Hb in Hr.
Qed.

End WaitGraph.
