(* ===== verification/CallGraph.v ===== *)
(** * The call graph recorder (src/observe/callgraph/recorder.go)

    Calls are counted per edge in a map under the key "from->to", and each call may be
    appended to a file of JSON lines that can be merged again. The critical sections
    make every operation atomic, so a run is a sequence of operations. *)

From Stdlib Require Import Strings.Ascii Sorting.Sorted.
From stdpp Require Import sorting.
From S2P Require Import Prelude Text.

Module CallGraph.
Import Text.
#[local] Open Scope string_scope.
#[local] Open Scope list_scope.
#[local] Open Scope Z_scope.

Record Edge := MkEdge { From : string; To : string; Count : Z; ErrorCount : Z; TotalDuration : Z }.

Record CallEvent := Event { Caller : string; Callee : string; Protocol : string; Duration : Z; Err : bool }.

(** [lines] is the content of the file. *)
Record Recorder := MkRecorder { edges : gmap string Edge; jsonlPath : string; lines : list Edge }.

Definition New (path : string) : Recorder := MkRecorder ∅ path [].

Definition keyOf (from to : string) : string := from +:+ "->" +:+ to.
Definition fromOf (event : CallEvent) : string := if decide (Caller event = "") then "<external>" else Caller event.
Definition toOf (event : CallEvent) : string := Callee event +:+ "." +:+ Protocol event.
Definition boolCount (value : bool) : Z := if value then 1 else 0.

Definition valid (event : CallEvent) : Prop := Callee event ≠ "" ∧ Protocol event ≠ "".
#[global] Instance valid_dec event : Decision (valid event).
Proof. unfold valid. apply _. Defined.

(** The record appended to the file. *)
Definition lineOf (event : CallEvent) : Edge :=
  MkEdge (fromOf event) (toOf event) 1 (boolCount (Err event)) (Duration event).

(** [written] tells whether appendJSONL succeeds. *)
Definition OnCall (r : Recorder) (event : CallEvent) (written : bool) : Recorder :=
  if decide (Callee event = "" ∨ Protocol event = "") then r
  else
    let from := fromOf event in
    let to := toOf event in
    let key := keyOf from to in
    let edge := default (MkEdge from to 0 0 0) (edges r !! key) in
    let edge := MkEdge (From edge) (To edge) (u64 (Count edge + 1))
                  (if Err event then u64 (ErrorCount edge + 1) else ErrorCount edge)
                  (i64 (TotalDuration edge + Duration event)) in
    MkRecorder (<[key := edge]> (edges r)) (jsonlPath r)
      (if bool_decide (jsonlPath r ≠ "") && written then lines r ++ [lineOf event] else lines r).

(** The orders of Snapshot and of LoadJSONL. *)
Definition edgeLess (x y : Edge) : bool :=
  if decide (From x = From y) then strLt (To x) (To y) else strLt (From x) (From y).
Definition lineLess (x y : Edge) : bool := strLt (From x +:+ To x) (From y +:+ To y).

Definition Snapshot (sort : list Edge → list Edge) (r : Recorder) : list Edge :=
  sort (snd <$> map_to_list (edges r)).

Definition Reset (r : Recorder) : Recorder := MkRecorder ∅ (jsonlPath r) (lines r).

(** A line that is not an edge is skipped. *)
Definition merge (merged : gmap string Edge) (line : option Edge) : gmap string Edge :=
  match line with
  | None => merged
  | Some edge =>
      if decide (From edge = "" ∨ To edge = "") then merged
      else
        let key := keyOf (From edge) (To edge) in
        match merged !! key with
        | Some current =>
            <[key := MkEdge (From current) (To current) (u64 (Count current + Count edge))
                       (u64 (ErrorCount current + ErrorCount edge)) (i64 (TotalDuration current + TotalDuration edge))]> merged
        | None => <[key := edge]> merged
        end
  end.

Definition LoadJSONL (sort : list Edge → list Edge) (file : list (option Edge)) : list Edge :=
  sort (snd <$> map_to_list (foldl merge ∅ file)).

(** ** The map of a run *)

Definition record (r : Recorder) (events : list CallEvent) : Recorder := foldl (λ r e, OnCall r e true) r events.

Definition counted (events : list CallEvent) (from to : string) : list CallEvent :=
  filter (λ e, valid e ∧ fromOf e = from ∧ toOf e = to) events.
Definition underKey (events : list CallEvent) (key : string) : list CallEvent :=
  filter (λ e, valid e ∧ keyOf (fromOf e) (toOf e) = key) events.

Definition sumDurations (l : list CallEvent) : Z := foldr (λ e z, Duration e + z) 0 l.
Definition errors (l : list CallEvent) : Z := Z.of_nat (length (filter (λ e, Err e = true) l)).

(** The edge that stands for the events [l]; its ends are those of the first. *)
Definition summary (l : list CallEvent) : option Edge :=
  match l with
  | [] => None
  | e :: _ => Some (MkEdge (fromOf e) (toOf e) (u64 (Z.of_nat (length l))) (u64 (errors l)) (i64 (sumDurations l)))
  end.

Lemma sumDurations_snoc l e : sumDurations (l ++ [e]) = sumDurations l + Duration e.
Proof. unfold sumDurations. induction l as [|x l IH]; cbn in *; lia. Qed.
Lemma errors_snoc l e : errors (l ++ [e]) = errors l + boolCount (Err e).
Proof.
  unfold errors. rewrite filter_app, length_app, filter_cons, filter_nil. destruct (Err e); [rewrite decide_True by done|rewrite decide_False by done]; cbn; lia.
Qed.

(** One more event. *)
Lemma summary_snoc l e : summary (l ++ [e]) =
  let edge := default (MkEdge (fromOf e) (toOf e) 0 0 0) (summary l) in
  Some (MkEdge (From edge) (To edge) (u64 (Count edge + 1)) (if Err e then u64 (ErrorCount edge + 1) else ErrorCount edge)
          (i64 (TotalDuration edge + Duration e))).
Proof.
  destruct l as [|x l].
  - change ([] ++ [e]) with [e]. unfold summary, errors, sumDurations. cbn [default from_option foldr length From To Count ErrorCount TotalDuration].
    rewrite filter_cons, filter_nil, (Z.add_comm (Duration e)). destruct (Err e); [rewrite decide_True by done|rewrite decide_False by done]; reflexivity.
  - change ((x :: l) ++ [e]) with (x :: (l ++ [e])). cbn [summary default from_option id From To Count ErrorCount TotalDuration].
    change (x :: l ++ [e]) with ((x :: l) ++ [e]). rewrite length_app, sumDurations_snoc, errors_snoc. do 2 f_equal.
    + unfold u64. rewrite wrapu_add. f_equal. cbn [length]. lia.
    + destruct (Err e); cbn [boolCount]; [unfold u64; by rewrite wrapu_add|by rewrite Z.add_0_r].
    + unfold i64. by rewrite wraps_add.
Qed.

Lemma record_edges path events key : edges (record (New path) events) !! key = summary (underKey events key).
Proof.
  unfold record. induction events as [|e events IH] using rev_ind; [apply lookup_empty|].
  rewrite foldl_app. cbn [foldl]. unfold underKey. rewrite filter_app. fold (underKey events key).
  set (r := foldl _ _ events) in *. unfold OnCall. rewrite filter_cons, filter_nil. case_decide as Hv.
  - rewrite decide_False by (unfold valid; tauto). by rewrite app_nil_r.
  - cbn [edges]. destruct (decide (key = keyOf (fromOf e) (toOf e))) as [->|Hne].
    + rewrite lookup_insert_eq, decide_True by (unfold valid; tauto). rewrite summary_snoc. by rewrite IH.
    + rewrite lookup_insert_ne by done. rewrite decide_False by naive_solver. by rewrite app_nil_r.
Qed.

(** ** Keys *)

(** The name does not contain the separator of keys. *)
Fixpoint noArrow (s : string) : bool :=
  match s with
  | EmptyString => true
  | String c rest => negb (bool_decide (c = "-"%char) && match rest with String d _ => bool_decide (d = ">"%char) | _ => false end) && noArrow rest
  end.

Lemma keyOf_inj from to from' to' : noArrow from = true → noArrow from' = true →
  keyOf from to = keyOf from' to' → from = from' ∧ to = to'.
Proof.
  unfold keyOf. revert from'. induction from as [|c from IH]; intros [|c' from'] H H' E.
  - by injection E.
  - destruct from' as [|d from']; [done|]. injection E as <- <- _. done.
  - destruct from as [|d from]; [done|]. injection E as -> -> _. done.
  - injection E as -> E. cbn in H, H'. apply andb_true_iff in H as [_ H], H' as [_ H'].
    destruct (IH from' H H' E) as [-> ->]. done.
Qed.

Lemma underKey_counted events from to : Forall (λ e, noArrow (fromOf e) = true) events → noArrow from = true →
  underKey events (keyOf from to) = counted events from to.
Proof.
  intros Hn Hf. unfold underKey, counted. induction Hn as [|e events He _ IH]; [done|]. rewrite !filter_cons, IH.
  destruct (decide (valid e ∧ keyOf (fromOf e) (toOf e) = keyOf from to)) as [[Hv Hk]|Hno].
  - apply keyOf_inj in Hk as [H1 H2]; [|done..]. by rewrite decide_True.
  - rewrite decide_False; [done|]. intros (Hv & H1 & H2). apply Hno. by rewrite H1, H2.
Qed.

Lemma summary_ends l from to e : (∀ x, x ∈ l → fromOf x = from ∧ toOf x = to) → summary l = Some e → From e = from ∧ To e = to.
Proof. destruct l as [|x l]; [done|]. intros H [= <-]. apply H. left. Qed.

(** ** The file *)

Lemma summary_line l e : minDuration ≤ Duration e ≤ maxDuration →
  summary (l ++ [e]) =
  Some match summary l with
       | Some cur => MkEdge (From cur) (To cur) (u64 (Count cur + 1)) (u64 (ErrorCount cur + boolCount (Err e))) (i64 (TotalDuration cur + Duration e))
       | None => lineOf e
       end.
Proof.
  intros Hd. rewrite summary_snoc. destruct l as [|x l]; cbn [summary default from_option From To Count ErrorCount TotalDuration].
  - unfold lineOf. do 2 f_equal. apply wraps_small; unfold minDuration, maxDuration in Hd; lia.
  - do 2 f_equal. destruct (Err e); cbn [boolCount]; [done|]. unfold u64. by rewrite wrapu_add, Z.add_0_r.
Qed.

Lemma merge_lines events key : Forall (λ e, minDuration ≤ Duration e ≤ maxDuration) events →
  foldl merge ∅ (Some <$> (lineOf <$> filter valid events)) !! key = summary (underKey events key).
Proof.
  induction events as [|e events IH] using rev_ind; intros Hd; [apply lookup_empty|]. apply Forall_app in Hd as [Hd He].
  rewrite Forall_singleton in He. specialize (IH Hd). unfold underKey. rewrite !filter_app. fold (underKey events key).
  rewrite (filter_cons valid), (filter_cons (λ e, valid e ∧ _)), !filter_nil.
  destruct (decide (valid e)) as [Hv|Hv]; [|rewrite decide_False by tauto; by rewrite !app_nil_r].
  rewrite !fmap_app, foldl_app. cbn [fmap list_fmap foldl]. set (m := foldl merge ∅ _) in *.
  assert (fromOf e ≠ "") as Hf by (unfold fromOf; by case_decide). assert (toOf e ≠ "") as Ht by (unfold toOf; by destruct (Callee e)).
  unfold merge. rewrite decide_False by (cbn; tauto). cbn [From To Count ErrorCount TotalDuration lineOf].
  destruct (decide (keyOf (fromOf e) (toOf e) = key)) as [<-|Hne].
  - rewrite (decide_True (P := valid e ∧ _)) by done. rewrite (summary_line _ _ He), <-IH.
    destruct (m !! _) as [cur|]; by rewrite lookup_insert_eq.
  - rewrite (decide_False (P := valid e ∧ _)) by tauto. rewrite app_nil_r, <-IH. destruct (m !! keyOf _ _); by rewrite lookup_insert_ne.
Qed.

Lemma record_lines path events : path ≠ "" → lines (record (New path) events) = lineOf <$> filter valid events.
Proof.
  intros Hp. assert (jsonlPath (record (New path) events) = path ∧ lines (record (New path) events) = lineOf <$> filter valid events) as [_ H]; [|done].
  unfold record. induction events as [|e events [IH1 IH2]] using rev_ind; [done|].
  rewrite foldl_app, filter_app, fmap_app, (filter_cons valid), filter_nil. cbn [foldl].
  set (r := foldl _ (New path) events) in *. unfold OnCall. case_decide as Hv.
  - rewrite decide_False by (unfold valid; tauto). by rewrite app_nil_r.
  - cbn [jsonlPath lines]. rewrite IH1, IH2, bool_decide_eq_true_2, decide_True by (done || unfold valid; tauto). done.
Qed.

(** Every entry is under the key of its ends. *)
Lemma record_entry path events key edge :
  Forall (λ e, noArrow (fromOf e) = true) events → edges (record (New path) events) !! key = Some edge →
  noArrow (From edge) = true ∧ key = keyOf (From edge) (To edge) ∧ summary (counted events (From edge) (To edge)) = Some edge.
Proof.
  intros Hn. rewrite record_edges. intros Hs. destruct (underKey events key) as [|x l] eqn:Hu; [done|].
  assert (x ∈ underKey events key) as Hx by (rewrite Hu; left). apply list_elem_of_filter in Hx as [[Hv Hk] Hx].
  pose proof Hs as [= Hedge]. assert (From edge = fromOf x ∧ To edge = toOf x) as [-> ->] by (by rewrite <-Hedge).
  rewrite Forall_forall in Hn. split_and!; [by apply Hn|done|].
  rewrite <-underKey_counted; [|by apply Forall_forall|by apply Hn]. by rewrite Hk, Hu.
Qed.

Lemma counted_entry path events from to : Forall (λ e, noArrow (fromOf e) = true) events → counted events from to ≠ [] →
  edges (record (New path) events) !! keyOf from to = summary (counted events from to).
Proof.
  intros Hn Hc. rewrite record_edges. destruct (counted events from to) as [|x l] eqn:E; [done|].
  assert (x ∈ counted events from to) as Hx by (rewrite E; left). apply list_elem_of_filter in Hx as [(_ & <- & _) Hx].
  rewrite underKey_counted; [by rewrite E|done|]. rewrite Forall_forall in Hn. by apply Hn.
Qed.

(** C38 (functional): the call graph is exact.  If no caller's name contains the arrow
    that separates the two ends in a key, Snapshot has one edge for every pair of a
    caller and a protocol that was called, in the order of the pairs, with the number
    of calls and of failed calls and the total duration in 64-bit arithmetic; the
    JSON lines written along the way merge into the same edges. *)
Theorem callgraph_exact sort sort' path events :
  SortSlice edgeLess sort → SortSlice lineLess sort' →
  Forall (λ e, noArrow (fromOf e) = true ∧ minDuration ≤ Duration e ≤ maxDuration) events → path ≠ "" →
  let r := record (New path) events in
  (∀ from to c er d, MkEdge from to c er d ∈ Snapshot sort r ↔
     counted events from to ≠ [] ∧ c = u64 (Z.of_nat (length (counted events from to))) ∧
     er = u64 (errors (counted events from to)) ∧ d = i64 (sumDurations (counted events from to))) ∧
  NoDup ((λ x, (From x, To x)) <$> Snapshot sort r) ∧ StronglySorted (λ x y, edgeLess y x = false) (Snapshot sort r) ∧
  LoadJSONL sort' (Some <$> lines r) ≡ₚ Snapshot sort r.
Proof.
  intros Hs Hs' He Hp r. apply Forall_and in He as [Hn Hd].
  assert (∀ x, x ∈ Snapshot sort r ↔ ∃ k, edges r !! k = Some x) as Hin.
  { intros x. unfold Snapshot. rewrite sort_perm, list_elem_of_fmap. split.
    - intros ([k y] & -> & Hk%elem_of_map_to_list). eauto.
    - intros [k Hk%elem_of_map_to_list]. by exists (k, x). }
  split_and!.
  - intros from to c er d. rewrite Hin. split.
    + intros (k & (_ & _ & Hx)%(record_entry path _ _ _ Hn)). cbn in Hx. destruct (counted events from to) as [|x l]; [done|].
      injection Hx as _ _ <- <- <-. done.
    + intros (Hc & -> & -> & ->). exists (keyOf from to). unfold r. rewrite (counted_entry _ _ _ _ Hn Hc).
      destruct (counted events from to) as [|x l] eqn:E; [done|]. cbn. do 2 f_equal.
      all: assert (x ∈ counted events from to) as Hx by (rewrite E; left); by apply list_elem_of_filter in Hx as [(_ & ? & ?) _].
  - unfold Snapshot. rewrite sort_perm. apply (NoDup_fmap_1 (λ p, keyOf p.1 p.2)).
    pose proof (NoDup_fst_map_to_list (edges r)) as Hk. rewrite <-!list_fmap_compose.
    erewrite list_fmap_ext; [exact Hk|]. intros i [k x] Hi. apply list_elem_of_lookup_2, elem_of_map_to_list in Hi.
    apply (record_entry path _ _ _ Hn) in Hi as (_ & -> & _). done.
  - unfold Snapshot. apply sort_sorted.
  - unfold LoadJSONL, Snapshot. rewrite !sort_perm. unfold r. rewrite (record_lines _ _ Hp).
    by replace (foldl merge ∅ _) with (edges (record (New path) events)) by (apply map_eq; intros k; by rewrite record_edges, merge_lines).
Qed.

(** ** Instances *)

(** Snapshot's order as the order of one key. *)
Definition pairLe (x y : Edge) : Prop := edgeLess y x = false.
#[local] Instance pairLe_dec : RelDecision pairLe.
Proof. intros x y. unfold pairLe. apply _. Defined.
Definition pairSort : list Edge → list Edge := merge_sort pairLe.

#[local] Instance pairSort_sorts : SortSlice edgeLess pairSort.
Proof.
  assert (Total pairLe) as HT.
  { intros x y. unfold pairLe, edgeLess. destruct (decide (From x = From y)) as [E|Hne].
    - rewrite E, !decide_True by done. apply strLe_total.
    - rewrite !decide_False by congruence. apply strLe_total. }
  assert (Transitive pairLe) as HTr.
  { intros x y z. unfold pairLe, edgeLess. destruct (decide (From y = From x)) as [E1|N1], (decide (From z = From y)) as [E2|N2].
    - rewrite E2, E1, decide_True by done. apply strLe_trans.
    - rewrite E1 in N2 |- *. by rewrite decide_False.
    - rewrite E2. by rewrite decide_False.
    - intros H1 H2. case_decide as E; [|by eapply strLe_trans].
      rewrite E in H2. destruct N1. by apply strLt_total. }
  split; [apply merge_sort_Permutation|]. intros l. by apply (StronglySorted_merge_sort pairLe).
Qed.

Definition exampleEvents : list CallEvent := [Event "a" "b" "ping" 5 false; Event "" "b" "ping" 7 true; Event "a" "b" "ping" 2 true].

Lemma callgraph_exact_witness :
  counted exampleEvents "a" "b.ping" ≠ [] ∧ MkEdge "a" "b.ping" 2 1 7 ∈ Snapshot pairSort (record (New "f") exampleEvents).
Proof.
  split; [done|].
  refine (proj2 (proj1 (callgraph_exact pairSort (mergeSort (λ x, From x +:+ To x)) "f" exampleEvents _ _ _ _) "a" "b.ping" 2 1 7) _).
  - repeat constructor; done.
  - done.
  - split_and!; [done|vm_compute; reflexivity..].
Defined.

(** Names that contain the arrow can make two edges share an entry: the calls from
    "a" are counted as calls from "a->b". *)
Example arrow_collision :
  Snapshot pairSort (record (New "") [Event "a->b" "c" "p" 1 false; Event "a" "b->c" "p" 1 false]) = [MkEdge "a->b" "c.p" 2 0 2].
Proof. vm_compute. reflexivity. Qed.

End CallGraph.
