(* ===== verification/Activation.v ===== *)
(** * The code of a handler (src/actor/system_runtime.go: NoYield, Await)

    A handler is a sequential program that works on the state of its service, may give
    the service away while it waits, and may forbid that for a section. [run] follows the
    code with its counter; [meaning] is what the sections say by their nesting alone. *)

From S2P Require Import Prelude.

Module Activation.

Inductive err := EUser (code : nat) | EInvalidArgs | EYieldForbidden | ENotRunning | ESuspendLimit.

(** [Work] touches the state of the service; nil functions are [None]; [limit] says that
    the runtime refuses to suspend one more activation; [Recover] is a function literal of
    the handler with a deferred recover, whose continuation gets [None] after a panic. *)
Inductive code :=
  | Return (e : option err)
  | Panic
  | Work (k : code)
  | NoYield (fn : option code) (k : option err → code)
  | Await (wait : option code) (limit : bool) (k : option err → code)
  | Recover (body : code) (k : option (option err) → code).

Inductive ending := Returned (e : option err) | Panicked.

(** [Touch held]: work on the state while the service is held or not. *)
Inductive event := Touch (held : bool) | Yields | Resumes.

(** The activation of the context: [None] outside of handlers, or whether its service is
    NoInterleave. *)
Section run.
Context (act : option bool).

(** The counter noYield of the activation, and whether the activation is the current one
    of its service. *)
Record status := Status { noYield : Z; held : bool }.

Fixpoint run (s : status) (c : code) : status * list event * ending :=
  match c with
  | Return e => (s, [], Returned e)
  | Panic => (s, [], Panicked)
  | Work k => let '(s', t, r) := run s k in (s', Touch (held s) :: t, r)
  | NoYield None k => run s (k None)
  | NoYield (Some fn) k =>
      match act with
      | None =>
          let '(s1, t1, r1) := run s fn in
          match r1 with
          | Panicked => (s1, t1, Panicked)
          | Returned e => let '(s2, t2, r2) := run s1 (k e) in (s2, t1 ++ t2, r2)
          end
      | Some _ =>
          let '(s1, t1, r1) := run (Status (noYield s + 1) (held s)) fn in
          let s1 := Status (noYield s1 - 1) (held s1) in
          match r1 with
          | Panicked => (s1, t1, Panicked)
          | Returned e => let '(s2, t2, r2) := run s1 (k e) in (s2, t1 ++ t2, r2)
          end
      end
  | Await None _ k => run s (k (Some EInvalidArgs))
  | Await (Some wait) limit k =>
      let direct :=
        let '(s1, t1, r1) := run s wait in
        match r1 with
        | Panicked => (s1, t1, Panicked)
        | Returned e => let '(s2, t2, r2) := run s1 (k e) in (s2, t1 ++ t2, r2)
        end in
      match act with
      | None => direct
      | Some noInterleave =>
          if bool_decide (noYield s > 0) then run s (k (Some EYieldForbidden))
          else if noInterleave then direct
          else if negb (held s) then run s (k (Some ENotRunning))
          else if limit then run s (k (Some ESuspendLimit))
          else
            let '(s1, t1, r1) := run (Status (noYield s) false) wait in
            match r1 with
            | Panicked => (s1, Yields :: t1, Panicked)
            | Returned e =>
                let '(s2, t2, r2) := run (Status (noYield s1) true) (k e) in (s2, Yields :: t1 ++ Resumes :: t2, r2)
            end
      end
  | Recover body k =>
      let '(s1, t1, r1) := run s body in
      let '(s2, t2, r2) := run s1 (k match r1 with Returned e => Some e | Panicked => None end) in
      (s2, t1 ++ t2, r2)
  end.

(** The same by nesting: [inside] a NoYield section, [waiting] in a function that an Await
    runs with the service released. *)
Fixpoint meaning (inside waiting : bool) (c : code) : list event * ending :=
  match c with
  | Return e => ([], Returned e)
  | Panic => ([], Panicked)
  | Work k => let '(t, r) := meaning inside waiting k in (Touch (negb waiting) :: t, r)
  | NoYield None k => meaning inside waiting (k None)
  | NoYield (Some fn) k =>
      let '(t1, r1) := meaning (if act then true else inside) waiting fn in
      match r1 with
      | Panicked => (t1, Panicked)
      | Returned e => let '(t2, r2) := meaning inside waiting (k e) in (t1 ++ t2, r2)
      end
  | Await None _ k => meaning inside waiting (k (Some EInvalidArgs))
  | Await (Some wait) limit k =>
      match act with
      | Some noInterleave =>
          if inside then meaning inside waiting (k (Some EYieldForbidden))
          else if noInterleave then
            let '(t1, r1) := meaning inside waiting wait in
            match r1 with
            | Panicked => (t1, Panicked)
            | Returned e => let '(t2, r2) := meaning inside waiting (k e) in (t1 ++ t2, r2)
            end
          else if waiting then meaning inside waiting (k (Some ENotRunning))
          else if limit then meaning inside waiting (k (Some ESuspendLimit))
          else
            let '(t1, r1) := meaning inside true wait in
            match r1 with
            | Panicked => (Yields :: t1, Panicked)
            | Returned e => let '(t2, r2) := meaning inside waiting (k e) in (Yields :: t1 ++ Resumes :: t2, r2)
            end
      | None =>
          let '(t1, r1) := meaning inside waiting wait in
          match r1 with
          | Panicked => (t1, Panicked)
          | Returned e => let '(t2, r2) := meaning inside waiting (k e) in (t1 ++ t2, r2)
          end
      end
  | Recover body k =>
      let '(t1, r1) := meaning inside waiting body in
      let '(t2, r2) := meaning inside waiting (k match r1 with Returned e => Some e | Panicked => None end) in
      (t1 ++ t2, r2)
  end.

(** Code that does not wait, and code that recovers no panic of a wait: the runtime's own
    recover ends the handler. *)
Fixpoint awaitless (c : code) : Prop :=
  match c with
  | Return _ | Panic => True
  | Work k => awaitless k
  | NoYield fn k => match fn with Some f => awaitless f | None => True end ∧ ∀ e, awaitless (k e)
  | Await _ _ _ => False
  | Recover body k => awaitless body ∧ ∀ r, awaitless (k r)
  end.

Fixpoint plain (c : code) : Prop :=
  match c with
  | Return _ | Panic => True
  | Work k => plain k
  | NoYield fn k => match fn with Some f => plain f | None => True end ∧ ∀ e, plain (k e)
  | Await wait _ k => match wait with Some w => plain w | None => True end ∧ ∀ e, plain (k e)
  | Recover body k => awaitless body ∧ ∀ r, plain (k r)
  end.

Definition sections (s : status) (c : code) : list event * ending := meaning (bool_decide (noYield s > 0)) (negb (held s)) c.

(** Induction over code with the functions inside. *)
Lemma code_rect' (P : code → Prop) :
  (∀ e, P (Return e)) → P Panic → (∀ k, P k → P (Work k)) →
  (∀ fn k, match fn with Some f => P f | None => True end → (∀ e, P (k e)) → P (NoYield fn k)) →
  (∀ w l k, match w with Some f => P f | None => True end → (∀ e, P (k e)) → P (Await w l k)) →
  (∀ b k, P b → (∀ r, P (k r)) → P (Recover b k)) → ∀ c, P c.
Proof.
  intros H1 H2 H3 H4 H5 H6. fix IH 1. intros [e| |k|fn k|w l k|b k].
  - apply H1.
  - apply H2.
  - apply H3, IH.
  - apply H4; [destruct fn as [f|]; [apply IH|exact I]|intros e; apply IH].
  - apply H5; [destruct w as [f|]; [apply IH|exact I]|intros e; apply IH].
  - apply H6; [apply IH|intros r; apply IH].
Qed.

Lemma awaitless_run c : awaitless c → ∀ s, 0 ≤ noYield s → run s c = (s, (sections s c).1, (sections s c).2).
Proof.
  unfold sections. induction c as [e| |k IH|fn k IHf IHk|w l k IHw IHk|b k IHb IHk] using code_rect'; intros Hc s Hs; cbn [run meaning].
  - done.
  - done.
  - rewrite (IH Hc s Hs), negb_involutive. by destruct (meaning _ _ k).
  - destruct Hc as [Hf Hk]. destruct fn as [f|]; [|by apply IHk]. destruct act as [ni|].
    + rewrite (IHf Hf (Status (noYield s + 1) (held s))) by (cbn; lia). cbn [noYield held].
      rewrite (bool_decide_eq_true_2 (noYield s + 1 > 0)) by lia. destruct (meaning true _ f) as [t r]. cbn [fst snd].
      replace (noYield s + 1 - 1) with (noYield s) by lia. destruct s as [n h]. cbn [noYield held] in *. destruct r as [e|]; [|done].
      rewrite (IHk e (Hk e) (Status n h) Hs). cbn. by destruct (meaning _ _ (k e)).
    + rewrite (IHf Hf s Hs). destruct (meaning _ _ f) as [t [e|]]; cbn [fst snd]; [|done].
      rewrite (IHk e (Hk e) s Hs). by destruct (meaning _ _ (k e)).
  - done.
  - destruct Hc as [Hb Hk]. rewrite (IHb Hb s Hs). destruct (meaning _ _ b) as [t r]. cbn [fst snd].
    rewrite (IHk _ (Hk _) s Hs). by destruct (meaning _ _ (k _)).
Qed.

(** What [plain_run] says of one program, and of two in sequence. *)
Definition runsAs (s : status) (c : code) : Prop :=
  ∃ h, run s c = (Status (noYield s) h, (sections s c).1, (sections s c).2) ∧ ((sections s c).2 ≠ Panicked → h = held s).

Lemma chain_run s f k : runsAs s f → (∀ e, runsAs s (k e)) →
  let m := let '(t1, r1) := sections s f in
           match r1 with
           | Panicked => (t1, Panicked)
           | Returned e => let '(t2, r2) := sections s (k e) in (t1 ++ t2, r2)
           end in
  ∃ h, (let '(s1, t1, r1) := run s f in
        match r1 with
        | Panicked => (s1, t1, Panicked)
        | Returned e => let '(s2, t2, r2) := run s1 (k e) in (s2, t1 ++ t2, r2)
        end) = (Status (noYield s) h, m.1, m.2) ∧ (m.2 ≠ Panicked → h = held s).
Proof.
  intros (h & -> & Hh) Hk. destruct (sections s f) as [t [e|]]; cbn [fst snd] in *; [|by exists h]. rewrite Hh by done.
  destruct s as [n h0]. destruct (Hk e) as (h' & HE & Hh'). cbn [noYield held] in *. rewrite HE. exists h'. by destruct (sections _ (k e)).
Qed.

Lemma plain_run c : plain c → ∀ s, 0 ≤ noYield s → runsAs s c.
Proof.
  unfold runsAs, sections. induction c as [e| |k IH|fn k IHf IHk|w l k IHw IHk|b k IHb IHk] using code_rect'; intros Hc s Hs; cbn [run meaning].
  - destruct s as [n h]. by exists h.
  - destruct s as [n h]. by exists h.
  - destruct (IH Hc s Hs) as (h & -> & Hh). exists h. rewrite negb_involutive. by destruct (meaning _ _ k).
  - destruct Hc as [Hf Hk]. destruct fn as [f|]; [|by apply IHk]. destruct act as [ni|].
    + destruct (IHf Hf (Status (noYield s + 1) (held s))) as (h & -> & Hh); [cbn; lia|]. cbn [noYield held] in *.
      rewrite (bool_decide_eq_true_2 (noYield s + 1 > 0)) in * by lia. replace (noYield s + 1 - 1) with (noYield s) by lia.
      destruct (meaning true _ f) as [t [e|]]; cbn [fst snd] in *; [|by exists h]. rewrite Hh by done.
      destruct (IHk e (Hk e) (Status (noYield s) (held s)) Hs) as (h' & -> & Hh'). exists h'. by destruct (meaning _ _ (k e)).
    + apply (chain_run s f k); [by apply IHf|intros e; by apply IHk].
  - destruct Hc as [Hw Hk]. destruct w as [w|]; [|by apply IHk]. destruct act as [ni|];
      [|apply (chain_run s w k); [by apply IHw|intros e; by apply IHk]].
    assert (∀ e, runsAs s (k e)) as Hke by (intros e; by apply IHk). assert (runsAs s w) as Hsw by (by apply IHw).
    pose proof (chain_run s w k Hsw Hke) as Hch. unfold runsAs, sections in Hke, Hch.
    destruct (bool_decide (noYield s > 0)) eqn:Hn; [apply Hke|]. destruct ni; [exact Hch|].
    destruct (held s) eqn:Hh; cbn [negb] in *; [|apply Hke]. destruct l; [apply Hke|].
    destruct (IHw Hw (Status (noYield s) false) Hs) as (h & -> & _). cbn [noYield held negb]. rewrite Hn.
    destruct (meaning _ true w) as [t [e|]]; cbn [fst snd]; [|by exists h].
    destruct (IHk e (Hk e) (Status (noYield s) true) Hs) as (h' & -> & Hh'). exists h'. cbn [noYield held negb] in *. rewrite Hn in *. by destruct (meaning _ _ (k e)).
  - destruct Hc as [Hb Hk]. rewrite (awaitless_run b Hb s Hs). unfold sections. destruct (meaning _ _ b) as [t r]. cbn [fst snd].
    generalize (match r with Returned e => Some e | Panicked => None end). intros x.
    destruct (IHk x (Hk x) s Hs) as (h & -> & Hh). exists h. by destruct (meaning _ _ (k x)).
Qed.

(** In a NoYield section of an activation nothing interleaves. *)
Lemma inside_atomic c : is_Some act → ∀ waiting, Yields ∉ (meaning true waiting c).1.
Proof.
  intros [ni Ha]. induction c as [e| |k IH|fn k IHf IHk|w l k IHw IHk|b k IHb IHk] using code_rect'; intros waiting; cbn [meaning].
  - apply not_elem_of_nil.
  - apply not_elem_of_nil.
  - specialize (IH waiting). destruct (meaning true waiting k). cbn in *. set_solver.
  - destruct fn as [f|]; [|apply IHk]. replace (if act then true else true) with true by (by destruct act).
    specialize (IHf waiting). destruct (meaning true waiting f) as [t [e|]]; [|done].
    specialize (IHk e waiting). destruct (meaning true waiting (k e)). cbn in *. set_solver.
  - rewrite Ha. destruct w; apply IHk.
  - specialize (IHb waiting). destruct (meaning true waiting b) as [t r].
    specialize (IHk (match r with Returned e => Some e | Panicked => None end) waiting). destruct (meaning true waiting (k _)). cbn in *. set_solver.
Qed.

End run.

(** C39 (error): sections and waits nest.  For code that recovers no panic of a wait, the counter of
    the activation does what the nesting of the sections says, panics included: a wait
    inside a NoYield section is refused, the section itself is left with the counter as
    before, nothing interleaves in it, and outside of waits the state of the service is
    touched only while the service is held. *)
Theorem sections_nest (act : option bool) (c : code) (n : Z) (h : bool) :
  plain c → 0 ≤ n →
  (∃ h', run act (Status n h) c = (Status n h', (sections act (Status n h) c).1, (sections act (Status n h) c).2) ∧
     ((sections act (Status n h) c).2 ≠ Panicked → h' = h)) ∧
  (is_Some act → 0 < n → Yields ∉ (run act (Status n h) c).1.2).
Proof.
  intros Hc Hn. destruct (plain_run act c Hc (Status n h) Hn) as (h' & HE & Hh). split; [eauto|].
  intros Ha Hp. rewrite HE. unfold sections. cbn. rewrite bool_decide_eq_true_2 by lia. by apply inside_atomic.
Qed.

(** A section with a refused wait and a panic in a nested section, recovered outside of
    both: the counter is as before. *)
Definition exampleCode : code :=
  Recover (NoYield (Some (NoYield (Some (Work Panic)) Return)) Return)
    (λ _, NoYield (Some (Work (Return None))) (λ _, Await (Some (Return None)) false Return)).

Lemma sections_nest_witness :
  run (Some false) (Status 0 true) exampleCode = (Status 0 true, [Touch true; Touch true; Yields; Resumes], Returned None) ∧
  ∃ h', run (Some false) (Status 0 true) exampleCode =
    (Status 0 h', (sections (Some false) (Status 0 true) exampleCode).1, (sections (Some false) (Status 0 true) exampleCode).2) ∧
    ((sections (Some false) (Status 0 true) exampleCode).2 ≠ Panicked → h' = true).
Proof. split; [reflexivity|]. refine (proj1 (sections_nest (Some false) exampleCode 0 true _ _)); [by repeat split|lia]. Defined.

(** A handler that recovers the panic of a wait goes on without holding its service. *)
Example recovered_wait_not_held :
  run (Some false) (Status 0 true) (Recover (Await (Some Panic) false Return) (λ _, Work (Return None))) =
    (Status 0 false, [Yields; Touch false], Returned None).
Proof. reflexivity. Qed.

Example await_in_section :
  run (Some false) (Status 0 true) (NoYield (Some (Await (Some (Return None)) false Return)) Return) =
    (Status 0 true, [], Returned (Some EYieldForbidden)).
Proof. reflexivity. Qed.

End Activation.
