(* ===== verification/Skylog.v ===== *)
(** * Logging (src/skylog/skylog.go, src/skylog/sprintf.go)

    A process-wide logger that can be replaced at any time. A logger is known by what it
    emits for a call; log/slog and fmt.Sprintf are parameters. *)

From S2P Require Import Prelude.

Module Skylog.

Inductive level := Debug | Info | Warn | Error.
#[global] Instance level_eq_dec : EqDecision level.
Proof. solve_decision. Defined.

Section skylog.
Context {any record : Type}.
(** slog.Default().Enabled, the record of slog.Default().Log, and fmt.Sprintf. *)
Context (Enabled : level → bool) (Log : level → string → record) (Sprintf : string → list any → string).

(** The four methods, by level. *)
Definition Logger : Type := level → string → list any → list record.

Definition sprintf (format : string) (args : list any) : string :=
  match args with [] => format | _ => Sprintf format args end.

Definition slogLogger : Logger := λ l format args,
  if Enabled l then [Log l (sprintf format args)] else [].

(** The four fields, by level; nil discards. *)
Definition FuncLogger (f : level → option (string → list any → list record)) : Logger := λ l format args,
  match f l with Some g => g format args | None => [] end.

(** [current] is the pointer. *)
Definition SetDefault (l : option Logger) : option Logger := l.
Definition Default (current : option Logger) : Logger := match current with Some l => l | None => slogLogger end.

Inductive op := Set_ (l : option Logger) | Write (l : level) (format : string) (args : list any).

(** What calls of SetDefault and of Debugf to Errorf do, in the order in which they load
    and store the pointer. *)
Fixpoint run (current : option Logger) (ops : list op) : list record :=
  match ops with
  | [] => []
  | Set_ l :: ops => run (SetDefault l) ops
  | Write l format args :: ops => Default current l format args ++ run current ops
  end.

(** The logger that was set last. *)
Definition installed (current : option Logger) (ops : list op) : option Logger :=
  foldl (λ c o, match o with Set_ l => l | Write _ _ _ => c end) current ops.

Lemma run_app current pre post : run current (pre ++ post) = run current pre ++ run (installed current pre) post.
Proof.
  revert current. induction pre as [|[l|l format args] pre IH]; intros current; [done|apply IH|].
  cbn [app run]. by rewrite IH, app_assoc.
Qed.

(** Every record goes, once and in order, to the logger that was set last, or to log/slog
    if none was set or nil was, and there to the method of its level. *)
Theorem records_routed current pre l format args post :
  run current (pre ++ Write l format args :: post) =
    run current pre ++ Default (installed current pre) l format args ++ run (installed current pre) post ∧
  (installed current pre = None → Default (installed current pre) l format args =
     if Enabled l then [Log l (if decide (length args = 0%nat) then format else Sprintf format args)] else []).
Proof.
  split; [apply run_app|]. intros ->. unfold Default, slogLogger. destruct (Enabled l); [|done].
  f_equal. f_equal. by destruct args.
Qed.
End skylog.

(** A logger for errors only takes nothing else. *)
Example errors_only :
  run (any := nat) (λ _, true) (λ l _, l) (λ s _, s) (Some (FuncLogger (λ l, if decide (l = Error) then Some (λ _ _, [l]) else None)))
    [Write Info "a" []; Write Error "b" []; Set_ None; Write Info "c" []] = [Error; Info].
Proof. reflexivity. Qed.

End Skylog.
