(* ===== verification/Hooks.v ===== *)
(** * Callbacks of a system (src/actor/system.go: Stats, ReportAsyncError;
    src/actor/observer.go: observeCall)

    The host's callbacks may panic. What a callback does is given by whether it panics on
    its argument; [failures] and [events] record what callbacks were called with. *)

From S2P Require Import Prelude.

Module Hooks.
#[local] Open Scope string_scope.
#[local] Open Scope list_scope.
#[local] Open Scope Z_scope.

Record AsyncError := MkAsyncError { Service : string; Protocol : string; RemoteNode : string; Stage : string; Err : option nat }.
Record CallEvent := MkCallEvent { Caller : string; Callee : string; CallProtocol : string; Duration : Z; CallErr : option nat }.
Record SystemStats := MkStats { TimedOutCalls : Z; UnknownResponses : Z; AsyncFailures : Z }.

Definition AsyncErrorHandler : string := "handler".

(** The counters and callbacks of a System; a callback answers [true] if it panics. *)
Record hooks := Hooks {
  timedOut : Z;
  unknown : Z;
  asyncFailed : Z;
  onAsyncErr : option (AsyncError → bool);
  observer : option (CallEvent → bool);
  failures : list AsyncError;
  events : list CallEvent;
  logged : nat;
}.

(** [None] is the nil System. *)
Definition Stats (s : option hooks) : SystemStats :=
  match s with
  | None => MkStats 0 0 0
  | Some h => MkStats (timedOut h) (unknown h) (asyncFailed h)
  end.

Definition staged (f : AsyncError) : AsyncError :=
  MkAsyncError (Service f) (Protocol f) (RemoteNode f) (if decide (Stage f = "") then AsyncErrorHandler else Stage f) (Err f).

Definition ReportAsyncError (s : option hooks) (f : AsyncError) : option hooks :=
  match s, Err f with
  | None, _ | _, None => s
  | Some h, Some _ =>
      let called := match onAsyncErr h with Some _ => [staged f] | None => [] end in
      Some (Hooks (timedOut h) (unknown h) (u64 (asyncFailed h + 1)) (onAsyncErr h) (observer h) (failures h ++ called) (events h) (logged h))
  end.

(** A panic of the observer is recovered and logged. *)
Definition observeCall (s : option hooks) (e : CallEvent) : option hooks :=
  match s with
  | None => None
  | Some h =>
      match observer h with
      | None => s
      | Some f =>
          Some (Hooks (timedOut h) (unknown h) (asyncFailed h) (onAsyncErr h) (observer h) (failures h) (events h ++ [e])
                  (if f e then S (logged h) else logged h))
      end
  end.

Inductive op := Report (f : AsyncError) | Observe (e : CallEvent).
Definition apply (s : option hooks) (o : op) : option hooks :=
  match o with Report f => ReportAsyncError s f | Observe e => observeCall s e end.

Definition reported (ops : list op) : list AsyncError :=
  omap (λ o, match o with Report f => if Err f then Some (staged f) else None | Observe _ => None end) ops.
Definition observed (ops : list op) : list CallEvent := omap (λ o, match o with Observe e => Some e | Report _ => None end) ops.

Lemma u64_succ a n : u64 (u64 (a + 1) + Z.of_nat n) = u64 (a + Z.of_nat (S n)).
Proof. unfold u64, wrapu. rewrite Zplus_mod_idemp_l. f_equal. lia. Qed.

(** Whatever the callbacks do, each of them is called once for every failure and for every
    call, in order, and the counter counts the failures. *)
Theorem hooks_called (h : hooks) (ops : list op) :
  0 ≤ asyncFailed h < 2 ^ 64 →
  ∃ h', foldl apply (Some h) ops = Some h' ∧ onAsyncErr h' = onAsyncErr h ∧ observer h' = observer h ∧
    AsyncFailures (Stats (Some h')) = u64 (asyncFailed h + Z.of_nat (length (reported ops))) ∧
    (is_Some (onAsyncErr h) → failures h' = failures h ++ reported ops) ∧
    (is_Some (observer h) → events h' = events h ++ observed ops).
Proof.
  revert h. induction ops as [|[f|e] ops IH]; intros h Hr; cbn [foldl apply].
  - exists h. cbn. rewrite Z.add_0_r, u64_small, !app_nil_r by done. by split_and!.
  - unfold ReportAsyncError, reported. cbn [omap list_omap]. destruct (Err f) as [c|] eqn:Hf; [|by apply IH].
    match goal with |- context [foldl apply (Some ?h1) ops] => destruct (IH h1) as (h' & HE & Ha & Ho & Hc & H1 & H2) end.
    + apply u64_range.
    + exists h'. split; [exact HE|]. cbn [onAsyncErr observer asyncFailed failures events] in *. split_and!; try done.
      * rewrite Hc. apply u64_succ.
      * intros [g Hg]. rewrite H1 by eauto. rewrite Hg. by rewrite <-app_assoc.
  - unfold observeCall. destruct (observer h) as [g|] eqn:Hg.
    + match goal with |- context [foldl apply (Some ?h1) ops] => destruct (IH h1) as (h' & HE & Ha & Ho & Hc & H1 & H2); [done|] end.
      exists h'. split; [exact HE|]. cbn [onAsyncErr observer asyncFailed failures events] in *. split_and!; try done.
      intros _. rewrite H2 by eauto. unfold observed. cbn. by rewrite <-app_assoc.
    + destruct (IH h Hr) as (h' & HE & Ha & Ho & Hc & H1 & H2). exists h'. rewrite Hg in *. split_and!; done.
Qed.

End Hooks.
